(* ===== verification/_CoqProject ===== *)
-Q . S2P
Prelude.v
Protocol.v
Stats.v
Serializer.v
CacheSpec.v
SpecHistory.v
LruCache.v
CacheHistory.v
Sys.v
Connection.v
ThreadPool.v
Config.v
Service.v
Server.v
Streams.v
ServerInv.v
ServerProps.v
Run.v
Trace.v
Wire.v
Progress.v
UniqueFd.v
Client.v
ClientSession.v
Exchange.v
Logging.v
ClientMain.v
Notify.v
Banner.v
Startup.v
Descriptors.v
Engine.v
EngineProps.v
EngineRun.v
EngineTrace.v
Strtoull.v
Stress.v
Benchmark.v
