(* ===== verification/Prelude.v ===== *)
(** * Verification of the local cache service

    The program (src/) is a daemon that keeps key-value pairs in memory and
    serves them over a Unix socket.  One thread runs an epoll loop: it accepts
    clients, reads bytes, cuts them into requests and writes responses.  Worker
    threads take the requests from a bounded queue, work on one LRU cache behind
    a mutex, and stage the encoded responses on the connection, waking the loop
    through an eventfd.  Two limits slow a client down (requests in flight,
    unsent output), a third sheds load (the queue), and a signal starts an
    orderly shutdown.  A client library and a command-line client talk to it.
    Two tools load it through a client that keeps many requests in flight on
    many connections from one thread: a stress test and a benchmark.

    ** Parts and files

    - Prelude.v: byte strings, machine integers, tactics and hint databases, and
      the lemmas on lists and integers the other files share.
    - Protocol.v: include/cache/protocol.h, src/protocol.cpp.  Constants,
      opcodes, statuses, messages, parse results.
    - Stats.v: include/cache/stats.h.  The counters and their snapshot.
    - Serializer.v: src/serializer.cpp.  Big-endian primitives, both encoders
      and both incremental parsers, the STATS payload.
    - CacheSpec.v, SpecHistory.v: no code, but the contract of the cache.  An
      abstract cache (a list of pairs, most recently used first, under three
      limits), the classes [CacheOps] and [CacheContract] that state what an
      implementation promises, and histories of operations.
    - LruCache.v: include/cache/lru_cache.h, src/lru_cache.cpp.  List nodes with
      identity, the hash index of views into them, the counters; the instances
      of the two classes.  CacheHistory.v: its behaviour over histories.
    - Sys.v: the results of the system calls and the [errno] values used.
    - Connection.v: include/cache/connection.h, src/connection.cpp.
    - ThreadPool.v: include/cache/thread_pool.h, src/thread_pool.cpp.
    - Config.v: include/cache/config.h, src/config.cpp.
    - Service.v: what [Server::handle_job] computes (src/server.cpp), for any
      cache that meets the contract.
    - Server.v: the handlers of the event loop and the workers' completions
      (src/server.cpp).  Streams.v: no code, but the bytes and requests of each
      connection, and the relation every handler keeps to them.  ServerInv.v:
      the invariant and a rule for each handler.
      ServerProps.v: the step relation of the running server, its properties,
      and concrete runs.
    - Run.v: [Server::run], the loop around epoll_wait with its drain deadline
      and the teardown, as a thread beside the workers.
    - Trace.v: no code, but histories of the running server: the jobs submitted
      and the responses computed.  Wire.v: the same with the bytes received and
      sent on each connection.  Progress.v: what the server has accepted it can
      deliver.
    - Notify.v: [Server::complete_job] against [Server::drain_completions] and
      [Server::update_interest], access by access, for one connection.
    - UniqueFd.v: include/cache/unique_fd.h.
    - Logging.v: include/cache/logging.h, src/logging.cpp.
    - Banner.v: the texts src/config.cpp prints.
    - Startup.v: the constructor, [install_signal_handling], [start],
      [stop_listening] and the destructor of the server (src/server.cpp), and
      src/main.cpp.  Descriptors.v: who owns the descriptor of a connection
      (include/cache/server.h, include/cache/connection.h), and the calls of the
      daemon from its first to its last.
    - Client.v: client/cache_client.h, client/cache_client.cpp.
      ClientSession.v: a client alone with the service.  Exchange.v: a client on
      one connection of the running server.  ClientMain.v:
      client/client_main.cpp.
    - Engine.v: benchmark/async_client.h, benchmark/async_client.cpp, the
      pipelining client.  EngineProps.v: its invariant and a rule for each
      handler.  EngineRun.v: its runs and their properties.  EngineTrace.v: the
      results its callbacks keep, as folds over the completions.
    - Strtoull.v: the C library function the tools read numbers with.
    - Stress.v: benchmark/stress.cpp.  Benchmark.v: benchmark/benchmark.cpp.

    ** How code is rendered

    - An unsigned w-bit integer is a [Z]; every operation that can wrap is
      wrapped with [u8], [u16], [u32] or [u64].
    - Strings and buffers are lists of bytes; a class is a record whose fields
      have the names of the members; an enumeration is an inductive type, with a
      constructor for values no enumerator names where the code can produce one.
    - [None] is undefined behaviour (a read out of bounds, a dangling view or
      iterator) or, in Connection.v, Server.v and Client.v, a system call for
      which the list of answers has no entry.  Theorems that an operation works are
      statements that it returns [Some].
    - The kernel is not part of the sources.  What accept, recv, send and
      epoll_ctl return are arguments; [recv_ok], [send_ok], [socket_answers],
      [accepts_ok] and [event_ok] say what POSIX promises of them, and that a
      socket stops accepting data at some point.
    - A critical section is one function.  Where threads interleave between
      critical sections there is a step relation: [out_step] in Connection.v
      (workers staging during a flush), [pool_step] in ThreadPool.v (workers,
      submissions, shutdown and both condition variables), [server_step] in
      ServerProps.v (events of the loop and jobs), [run_step] in Run.v (the
      whole life of the server, its steps on the pool being steps of
      [pool_step]), and [notify_step] in Notify.v (every access to what a worker
      and the loop share of a connection).
    - Start-up, the client and the engine write their calls to a log, with their
      results where the theorems depend on them, and the theorems speak of the
      log.  The server keeps a log ([socket_calls_]), which no handler reads, of
      the data received and sent on the sockets of its clients, of the
      descriptors accepted, and of what is done to the listening socket.
    - The callbacks of the engine are functions on the state they capture; the
      clock is a function of the number of readings.
    - A [shared_ptr<Connection>] is the id of an object in [conns_]; the table
      of the loop, the queued jobs and the ready list share the objects.  When
      the last of these references goes, the descriptor of the object is closed
      ([destroyed] in Descriptors.v).
    - A worker that waits on the condition variable may wake at any time
      ([worker_wake]).  That the notifications suffice is shown in ThreadPool.v,
      and for the teardown in Run.v by steps that need no wake-up
      ([unprompted]).

    ** What is proved

    - Cache: any sequence of operations is free of undefined behaviour and
      answers as the abstract cache does; limits, exact counters, exact recency
      order, which entries an insertion evicts, freshness of hits.
    - Frames: each encoder and its parser are inverse to each other; a proper
      prefix asks for more; verdicts are final; the input held while waiting is
      bounded; the parser equals a decoder on fixed offsets.
    - Connections: requests are the input stream cut into frames however it
      arrives; the bytes on the wire are the staged frames in order under every
      interleaving; flushing terminates and counts exactly.
    - Pool: jobs are executed in order and once, or discarded; no wake-up is
      lost; shutdown ends with no job left; it always ends.
    - Configuration: a size is accepted exactly if it is digits and a unit and
      fits, accepted command lines are in range.
    - Service and server: responses match their requests and decode as sent;
      in every reachable state tables, objects, counters and jobs agree, the
      limits hold, epoll watches every connection for what it needs unless a
      wake-up is under way, every event is handled, and the shutdown takes no
      new work; each job submitted is executed once, its response is the one of
      the abstract cache in the order of execution, and its frame goes to the
      connection the request came from.
    - From socket to socket: on every connection the bytes received are the
      frames of the requests taken, the bytes sent are the frames of their
      responses, each request is answered once, after it was taken, and a
      malformed one is refused and nothing behind it taken (Wire.v).  From every
      state the workers and the events epoll reports lead to one where all of
      this is executed and sent (Progress.v).  A client among others on the
      running server gets the answer computed for its own request, and gets it
      once the server is done (Exchange.v).
    - Life of the server: start never removes the socket of another server, and
      listens only on a file restricted to its owner; the daemon enters the loop
      in the initial state of [run_step]; the loop ends after the deadline, the
      teardown ends without further notifications, and what it leaves is closed
      and empty, the listening socket closed and [unlink] called once; the
      counters are the sizes they stand for throughout.
    - Hand-over: no wake-up is lost at whatever points workers and loop
      interleave.
    - Descriptors: an owner closes its descriptor once, never while closed.
      However the daemon ends, each descriptor it opened, those of its clients
      included, is closed once, and its socket file is left only if [unlink]
      fails.
    - Client: a call returns, and succeeds only with a response to its own
      request; a session against the server behaves as the abstract cache; the
      command line reports what the server said, and fails only if no answer
      arrives or the statistics are not to be had.
    - Engine: every request issued is completed once or outstanding, whatever
      the kernel and the server do; each connection keeps its pipeline full and
      is watched for what it needs; a run without an error has answered
      everything; against a server that answers, it ends, within as many waits
      as there are requests; its descriptors are closed once.
    - Tools: an exit with zero of the stress test means that every key was read
      back with the value stored under it; against a cache with room for the
      keys no failure is counted, in any order of execution; values identify
      their keys.  An exit with zero of the benchmark means that every key was
      stored and every request completed, and its figures are those of the
      completions; its percentiles are order statistics, read within bounds;
      its requests are mixed as the percentages say.
    - Behaviour that differs from the documentation or the intent: the doubled
      output cap wraps around (Connection.v), a drain with timeout zero executes
      every queued job (ThreadPool.v), a complete request can be left in the
      input buffer after all responses went out, the input buffer can exceed its
      documented bound (ServerProps.v), a worker writes a flag of the event loop
      that is not atomic (Notify.v), a send timeout leaves a client connected in
      the middle of a frame (Client.v), and a server error on stats has the exit
      code of a transport error (ClientMain.v), and the check of the percentages of
      the benchmark wraps around ([percent_wraps] in Benchmark.v).

    ** Bounds and fuel

    - [process_loop] has one more turn than the input buffer has bytes; each
      turn but the last consumes a frame header (24 bytes).
    - [make_room_loop] has one turn per list node; each turn removes a node.
    - The loops of [flush_output], [handle_listen_ready], [send_all],
      [receive_response] and the engine around system calls are driven by the
      list of answers of these calls.
    - [fill_loop] has as many turns as the pipeline has free places, each turn
      filling one; [parse_loop] one per byte of input, each turn consuming a
      frame; [pad] 256, each adding a byte up to that size.
    - [to_string] has 20 digits, enough for 64 bits.
    - [memory_ok] states that the buffers of a connection and one more frame
      have fewer than 2^64 bytes; [roomy] the same with a frame for every
      request in flight; [accepts_ok] that fewer than 2^64 - 1
      connections were made; [config_typed] that frames of the largest size for
      all requests of an engine have fewer than 2^64 bytes.

    ** Not modelled

    - The relaxed memory order of the atomics (steps interleave, and every
      write is seen at once), and exhaustion of memory.
    - In [server_step] and [run_step] a handler and a job are one step each;
      Notify.v and [out_step] refine them for one connection.
    - The text [strerror] and [vsnprintf] produce, the floating-point hit rate
      and the floating-point figures of the benchmark, and its random numbers,
      which are parameters; [StatsSnapshot::hit_rate].
    - The tests, and the scripts that start the tools.
    - [ViewHash] and the getters that only return a member, which are the field
      of the record.

    ** Next

    A refinement of [server_step] by steps as fine as those of Notify.v for all
    connections. *)

From Stdlib Require Export ZArith Lia.
From Stdlib Require Strings.String.
From Stdlib Require Import Strings.Byte.
From stdpp Require Export prelude gmap list.
Export Stdlib.Strings.String.StringSyntax.

#[global] Open Scope Z_scope.

(** ** Bytes and byte strings

    [std::string], [std::string_view], [std::vector<uint8_t>] and the memory a
    [const uint8_t*] points into are all lists of bytes. *)

Abbreviation byte := Init.Byte.byte (only parsing).
Abbreviation bytes := (list Init.Byte.byte) (only parsing).

#[export] Instance byte_eq_dec : EqDecision byte := Byte.byte_eq_dec.

#[export] Program Instance byte_countable : Countable byte :=
  inj_countable Byte.to_N Byte.of_N _.
Next Obligation. intros b. apply Byte.of_to_N. Qed.

(** The value of a byte, and the conversion [static_cast<uint8_t>]. *)
Definition b2z (b : byte) : Z := Z.of_N (Byte.to_N b).

Definition z2b (z : Z) : byte :=
  match Byte.of_N (Z.to_N (z mod 256)) with Some b => b | None => Byte.x00 end.

(** A string literal of the source as the bytes the compiler stores. *)
Definition lit (s : String.string) : bytes := String.list_byte_of_string s.
#[global] Arguments lit s%_string_scope.

(** [size()] of a container, as the [size_t] the program computes with. *)
Definition len {A} (l : list A) : Z := Z.of_nat (length l).

(** ** Decimal numbers *)

(** [std::to_string] of an unsigned integer: [fuel] digits at most. *)
Fixpoint decimal (fuel : nat) (n : Z) (acc : bytes) : bytes :=
  match fuel with
  | O => acc
  | S fuel =>
      let acc := z2b (48 + n mod 10) :: acc in
      if n <? 10 then acc else decimal fuel (n / 10) acc
  end.

Definition to_string (n : Z) : bytes := decimal 20 n [].

(** A line of output. *)
Definition line (s : bytes) : bytes := s ++ [Byte.x0a].

(** ** Machine integers

    Unsigned arithmetic wraps around; [size_t] is 64 bits wide, which
    serializer.cpp asserts. *)

Definition u8 (z : Z) : Z := z mod 2 ^ 8.
Definition u16 (z : Z) : Z := z mod 2 ^ 16.
Definition u32 (z : Z) : Z := z mod 2 ^ 32.
Definition u64 (z : Z) : Z := z mod 2 ^ 64.
Definition usize_max : Z := 2 ^ 64 - 1.

Create HintDb cache discriminated.
Create Rewrite HintDb cache_rw.

(** ** Tactics *)

(** Case analysis on the condition of an [if] in the goal or in a hypothesis. *)
Ltac split_if :=
  match goal with
  | |- context [if ?b then _ else _] => let E := fresh "Hif" in destruct b eqn:E
  | H : context [if ?b then _ else _] |- _ => let E := fresh "Hif" in destruct b eqn:E
  end.

(** Boolean comparisons become propositions [lia] can use. *)
Ltac b2p :=
  repeat match goal with
  | H : andb _ _ = true |- _ => apply andb_true_iff in H as [? ?]
  | H : orb _ _ = false |- _ => apply orb_false_iff in H as [? ?]
  | H : andb _ _ = false |- _ => apply andb_false_iff in H
  | H : orb _ _ = true |- _ => apply orb_true_iff in H
  | H : negb _ = true |- _ => apply negb_true_iff in H
  | H : negb _ = false |- _ => apply negb_false_iff in H
  | H : (_ =? _) = true |- _ => apply Z.eqb_eq in H
  | H : (_ =? _) = false |- _ => apply Z.eqb_neq in H
  | H : (_ <? _) = true |- _ => apply Z.ltb_lt in H
  | H : (_ <? _) = false |- _ => apply Z.ltb_ge in H
  | H : (_ <=? _) = true |- _ => apply Z.leb_le in H
  | H : (_ <=? _) = false |- _ => apply Z.leb_gt in H
  | H : bool_decide _ = true |- _ => apply bool_decide_eq_true in H
  | H : bool_decide _ = false |- _ => apply bool_decide_eq_false in H
  end.

(** Lengths of appended, taken and dropped lists, over [Z]. *)
Ltac len_simpl :=
  unfold len in *;
  repeat (rewrite ?length_app, ?length_take, ?length_drop, ?length_cons, ?length_nil in * );
  rewrite ?Nat2Z.inj_add, ?Nat2Z.inj_succ in *.

(** ** Integer lemmas *)

Lemma u8_small z : 0 <= z < 256 -> u8 z = z.
Proof. apply Z.mod_small. Qed.

Lemma u16_small z : 0 <= z < 2 ^ 16 -> u16 z = z.
Proof. apply Z.mod_small. Qed.

Lemma u32_small z : 0 <= z < 2 ^ 32 -> u32 z = z.
Proof. apply Z.mod_small. Qed.

Lemma u64_small z : 0 <= z < 2 ^ 64 -> u64 z = z.
Proof. apply Z.mod_small. Qed.

Lemma u64_range z : 0 <= u64 z < 2 ^ 64.
Proof. apply Z.mod_pos_bound. reflexivity. Qed.

(** The counters are updated with wrapping additions and subtractions: only
    the mathematical total matters. *)
Lemma u64_add_l a b : u64 (u64 a + b) = u64 (a + b).
Proof. apply Zplus_mod_idemp_l. Qed.

Lemma u64_sub_l a b : u64 (u64 a - b) = u64 (a - b).
Proof. apply Zminus_mod_idemp_l. Qed.

Lemma len_nonneg {A} (l : list A) : 0 <= len l.
Proof. unfold len. lia. Qed.

Lemma len_app {A} (l k : list A) : len (l ++ k) = len l + len k.
Proof. unfold len. rewrite length_app. lia. Qed.

Lemma len_nil {A} : len (@nil A) = 0.
Proof. reflexivity. Qed.

Lemma len_cons {A} (x : A) l : len (x :: l) = 1 + len l.
Proof. unfold len. rewrite length_cons. lia. Qed.

Lemma len_0 {A} (l : list A) : len l = 0 -> l = [].
Proof. destruct l; [done | rewrite len_cons; pose proof (len_nonneg l); lia]. Qed.

Lemma decimal_nonempty fuel n acc : fuel <> 0%nat \/ acc <> [] -> decimal fuel n acc <> [].
Proof.
  revert n acc. induction fuel as [|fuel IH]; intros n acc Ha; cbn; [by destruct Ha|].
  split_if; [done | apply IH; by right].
Qed.

#[export] Hint Rewrite @len_app @len_nil @len_cons : cache_rw.
#[export] Hint Resolve len_nonneg u64_range : cache.

(** ** List lemmas *)

Lemma filter_all {A} (P : A -> Prop) `{forall x, Decision (P x)} l :
  Forall P l -> filter P l = l.
Proof.
  induction 1 as [|x l Hx _ IH]; [done|]. rewrite filter_cons, decide_True by done. by f_equal.
Qed.

Lemma sublist_Forall {A} (P : A -> Prop) l k : l `sublist_of` k -> Forall P k -> Forall P l.
Proof. induction 1; inversion_clear 1; auto. Qed.

Lemma sublist_delete_middle {A} (l1 : list A) x l2 : l1 ++ l2 `sublist_of` l1 ++ x :: l2.
Proof. apply sublist_app; [done | by apply sublist_cons]. Qed.

(** Two ways to cut the same list: the first part of one is in front of the
    first part of the other. *)
Lemma app_eq_cases {A} (a b c d : list A) : a ++ b = c ++ d ->
  (exists x, a = c ++ x /\ d = x ++ b) \/ (exists x, x <> [] /\ c = a ++ x /\ b = x ++ d).
Proof.
  intros H. apply app_eq_inv in H as [(x & -> & ->)|(x & -> & ->)]; [left; by exists x|].
  destruct x as [|y x]; [left; exists []; by rewrite !app_nil_r | right; by exists (y :: x)].
Qed.

(** ** Bytes as integers *)

Lemma b2z_range b : 0 <= b2z b < 256.
Proof. unfold b2z. pose proof (Byte.to_N_bounded b). lia. Qed.

Lemma b2z_z2b z : b2z (z2b z) = u8 z.
Proof.
  unfold z2b, b2z, u8. change (2 ^ 8) with 256.
  assert (Hz : 0 <= z mod 256 < 256) by (apply Z.mod_pos_bound; reflexivity).
  destruct (Byte.of_N (Z.to_N (z mod 256))) as [b|] eqn:E.
  - apply Byte.to_of_N in E. rewrite E. lia.
  - apply Byte.of_N_None_iff in E. lia.
Qed.

Lemma z2b_b2z b : z2b (b2z b) = b.
Proof.
  unfold z2b, b2z. pose proof (Byte.to_N_bounded b).
  rewrite Z.mod_small by lia. by rewrite N2Z.id, Byte.of_to_N.
Qed.

Lemma b2z_inj a b : b2z a = b2z b -> a = b.
Proof. intros H. by rewrite <- (z2b_b2z a), <- (z2b_b2z b), H. Qed.

Lemma z2b_eq a b : a mod 256 = b mod 256 -> z2b a = z2b b.
Proof. unfold z2b. by intros ->. Qed.

#[export] Hint Resolve b2z_range : cache.

(** Disjoint bits: the [|] of a shifted high part and a low part is a sum. *)
Lemma lor_disjoint n x y :
  0 <= n -> x mod 2 ^ n = 0 -> 0 <= y < 2 ^ n -> Z.lor x y = x + y.
Proof.
  intros Hn Hx Hy. rewrite Z.add_nocarry_lxor, Z.lxor_lor; [done | |];
  apply Z.bits_inj'; intros i Hi; rewrite Z.land_spec, Z.bits_0;
  (destruct (Z.lt_ge_cases i n) as [Hlt|Hge];
   [ rewrite <- (Z.mod_pow2_bits_low x n i) by lia; rewrite Hx, Z.bits_0; done
   | rewrite <- (Z.mod_small y (2 ^ n)) by lia;
     rewrite Z.mod_pow2_bits_high by lia; apply andb_false_r ]).
Qed.

(** ** Big-endian integers

    [be_split n z] are the [n] low bytes of [z], the most significant one
    first; [be_combine] reads them back. *)

Fixpoint be_split (n : nat) (z : Z) : bytes :=
  match n with
  | O => []
  | S m => z2b (Z.shiftr z (8 * Z.of_nat m)) :: be_split m z
  end.

Definition be_combine (l : bytes) : Z :=
  fold_left (fun acc b => acc * 256 + b2z b) l 0.

Lemma length_be_split n z : length (be_split n z) = n.
Proof. induction n; simpl; auto. Qed.

Lemma be_combine_acc l acc :
  fold_left (fun a b => a * 256 + b2z b) l acc
  = acc * 2 ^ (8 * len l) + be_combine l.
Proof.
  unfold be_combine. revert acc.
  induction l as [|b l IH]; intros acc; simpl fold_left.
  { change (8 * len (@nil byte)) with 0. lia. }
  rewrite IH, (IH (0 * 256 + b2z b)), len_cons.
  replace (8 * (1 + len l)) with (8 + 8 * len l) by lia.
  rewrite Z.pow_add_r by (pose proof (len_nonneg l); lia). lia.
Qed.

Lemma be_combine_cons b l :
  be_combine (b :: l) = b2z b * 2 ^ (8 * len l) + be_combine l.
Proof. unfold be_combine at 1. simpl fold_left. rewrite be_combine_acc. lia. Qed.

Lemma be_combine_range l : 0 <= be_combine l < 2 ^ (8 * len l).
Proof.
  induction l as [|b l IH]; [done|].
  rewrite be_combine_cons, len_cons.
  replace (8 * (1 + len l)) with (8 + 8 * len l) by lia.
  rewrite Z.pow_add_r by (pose proof (len_nonneg l); lia).
  pose proof (b2z_range b). change (2 ^ 8) with 256. nia.
Qed.

Lemma be_combine_split n z : be_combine (be_split n z) = z mod 2 ^ (8 * Z.of_nat n).
Proof.
  induction n as [|n IH]; [by rewrite Z.mod_1_r|].
  simpl be_split. rewrite be_combine_cons, IH, b2z_z2b. unfold len, u8.
  rewrite length_be_split, Z.shiftr_div_pow2 by lia.
  replace (8 * Z.of_nat (S n)) with (8 * Z.of_nat n + 8) by lia.
  rewrite Z.pow_add_r, Z.rem_mul_r by lia. lia.
Qed.

(** Only the low bytes matter. *)
Lemma be_split_mod n m z : (n <= m)%nat ->
  be_split n (z mod 2 ^ (8 * Z.of_nat m)) = be_split n z.
Proof.
  induction n as [|n IH]; intros Hnm; [done|]. simpl.
  rewrite IH by lia. f_equal. apply z2b_eq.
  rewrite !Z.shiftr_div_pow2 by lia.
  replace (8 * Z.of_nat m) with (8 * Z.of_nat n + (8 + 8 * Z.of_nat (m - S n))) by lia.
  rewrite Z.pow_add_r by lia.
  set (p := 2 ^ (8 * Z.of_nat n)). set (q := 2 ^ (8 + 8 * Z.of_nat (m - S n))).
  assert (Hp : 0 < p) by (apply Z.pow_pos_nonneg; lia).
  rewrite Z.rem_mul_r by (subst q; lia).
  rewrite (Z.mul_comm p), Z.div_add by lia.
  rewrite (Z.div_small (z mod p)) by (apply Z.mod_pos_bound; lia). simpl.
  subst q. rewrite Z.pow_add_r by lia.
  rewrite Z.rem_mul_r by lia. change (2 ^ 8) with 256.
  rewrite Z.add_0_l, (Z.mul_comm 256), Z.mod_add, Z.mod_mod by lia. done.
Qed.

Lemma be_split_combine l : be_split (length l) (be_combine l) = l.
Proof.
  induction l as [|b l IH]; [done|]. simpl length. simpl be_split.
  pose proof (be_combine_range l) as Hr. unfold len in Hr.
  assert (Hp : 0 < 2 ^ (8 * Z.of_nat (length l))) by (apply Z.pow_pos_nonneg; lia).
  rewrite be_combine_cons. unfold len. f_equal.
  - rewrite Z.shiftr_div_pow2, Z.div_add_l, Z.div_small, Z.add_0_r by lia. apply z2b_b2z.
  - rewrite <- (be_split_mod _ (length l)), Z.add_comm, Z.mod_add, Z.mod_small by lia.
    apply IH.
Qed.
