(* ===== verification/Protocol.v ===== *)
(** * The wire protocol: constants, enumerations and messages

    Models include/cache/protocol.h and src/protocol.cpp.  An [enum class]
    with underlying type [uint8_t] may hold a value that no enumerator names
    (a [static_cast] from a raw byte gives it one): the constructor [unnamed]
    of [Opcode.t] and [Status.t] is that case, so the [switch]es below are
    total and their fall-through results are modelled. *)

From S2P Require Import Prelude.

Definition kMagic : Z := 0x4C435331.
Definition kVersion : Z := 1.
Definition kHeaderSize : Z := 24.
Definition kMaxKeyBytes : Z := 64 * 1024.
Definition kMaxValueBytes : Z := 64 * 1024 * 1024.
Definition kMaxFrameBytes : Z := kHeaderSize + kMaxKeyBytes + kMaxValueBytes.

Module Opcode.
Inductive t : Set :=
  | kGet | kPut | kDelete | kPing | kStats | kClear
  | unnamed (raw : Z).

(** [static_cast<Opcode>(raw)] and [static_cast<uint8_t>(opcode)]. *)
Definition of_raw (raw : Z) : t :=
  if raw =? 1 then kGet else if raw =? 2 then kPut else if raw =? 3 then kDelete
  else if raw =? 4 then kPing else if raw =? 5 then kStats else if raw =? 6 then kClear
  else unnamed raw.

Definition to_raw (o : t) : Z :=
  match o with
  | kGet => 1 | kPut => 2 | kDelete => 3 | kPing => 4 | kStats => 5 | kClear => 6
  | unnamed raw => raw
  end.
End Opcode.

Module Status.
Inductive t : Set :=
  | kOk | kNotFound | kInvalidRequest | kValueTooLarge | kServerBusy
  | kInternalError | kUnsupportedVersion
  | unnamed (raw : Z).

(** [static_cast<Status>(raw)] and [static_cast<uint8_t>(status)]. *)
Definition of_raw (raw : Z) : t :=
  if raw =? 0 then kOk else if raw =? 1 then kNotFound
  else if raw =? 2 then kInvalidRequest else if raw =? 3 then kValueTooLarge
  else if raw =? 4 then kServerBusy else if raw =? 5 then kInternalError
  else if raw =? 6 then kUnsupportedVersion
  else unnamed raw.

Definition to_raw (s : t) : Z :=
  match s with
  | kOk => 0 | kNotFound => 1 | kInvalidRequest => 2 | kValueTooLarge => 3
  | kServerBusy => 4 | kInternalError => 5 | kUnsupportedVersion => 6
  | unnamed raw => raw
  end.
End Status.

Module ParseStatus.
Inductive t : Set := kComplete | kNeedMoreData | kMalformed.
End ParseStatus.

Module ParseError.
Inductive t : Set :=
  | kNone | kBadMagic | kUnsupportedVersion | kInvalidOpcode | kInvalidStatus
  | kReservedFlags | kKeyTooLarge | kValueTooLarge | kPayloadNotAllowed | kMissingKey.
End ParseError.

#[export] Instance opcode_eq_dec : EqDecision Opcode.t.
Proof. solve_decision. Defined.
#[export] Instance status_eq_dec : EqDecision Status.t.
Proof. solve_decision. Defined.
#[export] Instance parse_status_eq_dec : EqDecision ParseStatus.t.
Proof. solve_decision. Defined.
#[export] Instance parse_error_eq_dec : EqDecision ParseError.t.
Proof. solve_decision. Defined.

Definition is_valid_opcode (raw : Z) : bool :=
  match Opcode.of_raw raw with
  | Opcode.kGet | Opcode.kPut | Opcode.kDelete
  | Opcode.kPing | Opcode.kStats | Opcode.kClear => true
  | Opcode.unnamed _ => false
  end.

Definition is_valid_status (raw : Z) : bool :=
  match Status.of_raw raw with
  | Status.kOk | Status.kNotFound | Status.kInvalidRequest | Status.kValueTooLarge
  | Status.kServerBusy | Status.kInternalError | Status.kUnsupportedVersion => true
  | Status.unnamed _ => false
  end.

Definition opcode_to_string (opcode : Opcode.t) : bytes :=
  match opcode with
  | Opcode.kGet => lit "GET"
  | Opcode.kPut => lit "PUT"
  | Opcode.kDelete => lit "DELETE"
  | Opcode.kPing => lit "PING"
  | Opcode.kStats => lit "STATS"
  | Opcode.kClear => lit "CLEAR"
  | Opcode.unnamed _ => lit "UNKNOWN"
  end.

Definition status_to_string (status : Status.t) : bytes :=
  match status with
  | Status.kOk => lit "OK"
  | Status.kNotFound => lit "NOT_FOUND"
  | Status.kInvalidRequest => lit "INVALID_REQUEST"
  | Status.kValueTooLarge => lit "VALUE_TOO_LARGE"
  | Status.kServerBusy => lit "SERVER_BUSY"
  | Status.kInternalError => lit "INTERNAL_ERROR"
  | Status.kUnsupportedVersion => lit "UNSUPPORTED_VERSION"
  | Status.unnamed _ => lit "UNKNOWN_STATUS"
  end.

Definition parse_error_to_string (error : ParseError.t) : bytes :=
  match error with
  | ParseError.kNone => lit "none"
  | ParseError.kBadMagic => lit "bad magic"
  | ParseError.kUnsupportedVersion => lit "unsupported version"
  | ParseError.kInvalidOpcode => lit "invalid opcode"
  | ParseError.kInvalidStatus => lit "invalid status"
  | ParseError.kReservedFlags => lit "reserved flags set"
  | ParseError.kKeyTooLarge => lit "key too large"
  | ParseError.kValueTooLarge => lit "value too large"
  | ParseError.kPayloadNotAllowed => lit "payload not allowed for opcode"
  | ParseError.kMissingKey => lit "missing key"
  end.

Definition opcode_requires_key (opcode : Opcode.t) : bool :=
  match opcode with
  | Opcode.kGet | Opcode.kPut | Opcode.kDelete => true
  | Opcode.kPing | Opcode.kStats | Opcode.kClear => false
  | Opcode.unnamed _ => false
  end.

Definition opcode_allows_value (opcode : Opcode.t) : bool :=
  bool_decide (opcode = Opcode.kPut).

Record Header := mkHeader {
  h_version : Z;
  h_opcode : Z;
  h_flags : Z;
  h_status : Z;
  h_request_id : Z;
  h_key_len : Z;
  h_value_len : Z;
}.

Record Request := mkRequest {
  rq_opcode : Opcode.t;
  rq_request_id : Z;
  rq_key : bytes;
  rq_value : bytes;
}.

Record Response := mkResponse {
  rs_opcode : Opcode.t;
  rs_status : Status.t;
  rs_request_id : Z;
  rs_value : bytes;
}.

(** The default member initializers. *)
Definition default_header : Header := mkHeader kVersion 0 0 0 0 0 0.
Definition default_request : Request := mkRequest Opcode.kPing 0 [] [].
Definition default_response : Response := mkResponse Opcode.kPing Status.kOk 0 [].

Record ParseResult := mkParseResult {
  pr_status : ParseStatus.t;
  pr_error : ParseError.t;
  pr_consumed : Z;
}.

Definition complete (consumed : Z) : ParseResult :=
  mkParseResult ParseStatus.kComplete ParseError.kNone consumed.
Definition need_more : ParseResult :=
  mkParseResult ParseStatus.kNeedMoreData ParseError.kNone 0.
Definition malformed (error : ParseError.t) : ParseResult :=
  mkParseResult ParseStatus.kMalformed error 0.

Record Limits := mkLimits {
  max_key_bytes : Z;
  max_value_bytes : Z;
}.

Definition default_limits : Limits := mkLimits kMaxKeyBytes kMaxValueBytes.

#[export] Instance request_eq_dec : EqDecision Request.
Proof. solve_decision. Defined.
#[export] Instance response_eq_dec : EqDecision Response.
Proof. solve_decision. Defined.
#[export] Instance parse_result_eq_dec : EqDecision ParseResult.
Proof. solve_decision. Defined.

(** ** Lemmas *)

(** Raw bytes survive the cast to the enumeration and back. *)
Lemma opcode_to_of_raw raw : Opcode.to_raw (Opcode.of_raw raw) = raw.
Proof. unfold Opcode.of_raw. repeat split_if; b2p; simpl; lia. Qed.

Lemma status_to_of_raw raw : Status.to_raw (Status.of_raw raw) = raw.
Proof. unfold Status.of_raw. repeat split_if; b2p; simpl; lia. Qed.

Lemma is_valid_opcode_range raw : is_valid_opcode raw = true <-> 1 <= raw <= 6.
Proof.
  unfold is_valid_opcode, Opcode.of_raw. repeat split_if; b2p; split; intros; try done; lia.
Qed.

Lemma is_valid_status_range raw : is_valid_status raw = true <-> 0 <= raw <= 6.
Proof.
  unfold is_valid_status, Status.of_raw. repeat split_if; b2p; split; intros; try done; lia.
Qed.

(** An opcode some enumerator names. *)
Definition named_opcode (o : Opcode.t) : bool :=
  match o with Opcode.unnamed _ => false | _ => true end.
Definition named_status (s : Status.t) : bool :=
  match s with Status.unnamed _ => false | _ => true end.

Lemma opcode_of_to_raw o : named_opcode o = true -> Opcode.of_raw (Opcode.to_raw o) = o.
Proof. by destruct o. Qed.

Lemma status_of_to_raw s : named_status s = true -> Status.of_raw (Status.to_raw s) = s.
Proof. by destruct s. Qed.

Lemma named_opcode_raw o : named_opcode o = true -> 1 <= Opcode.to_raw o <= 6.
Proof. destruct o; simpl; intros; try done; lia. Qed.

Lemma named_status_raw s : named_status s = true -> 0 <= Status.to_raw s <= 6.
Proof. destruct s; simpl; intros; try done; lia. Qed.

Lemma named_of_raw raw : named_opcode (Opcode.of_raw raw) = is_valid_opcode raw.
Proof. unfold is_valid_opcode. by destruct (Opcode.of_raw raw). Qed.

Lemma named_status_of_raw raw : named_status (Status.of_raw raw) = is_valid_status raw.
Proof. unfold is_valid_status. by destruct (Status.of_raw raw). Qed.

#[export] Hint Resolve opcode_of_to_raw status_of_to_raw : cache.
