(* ===== verification/Stats.v ===== *)
(** * Statistics: the snapshot sent to clients and the live counters

    Models include/cache/stats.h.  The live counters are 64-bit atomics
    updated with relaxed [fetch_add] and [fetch_sub], which wrap around. *)

From S2P Require Import Prelude.

Record StatsSnapshot := mkStatsSnapshot {
  cache_hits : Z;
  cache_misses : Z;
  puts : Z;
  deletes : Z;
  evictions : Z;
  current_entries : Z;
  current_cache_bytes : Z;
  current_payload_bytes : Z;
  active_connections : Z;
  total_connections : Z;
  requests_processed : Z;
  protocol_errors : Z;
  rejected_requests : Z;
  uptime_ms : Z;
}.

Definition default_stats : StatsSnapshot :=
  mkStatsSnapshot 0 0 0 0 0 0 0 0 0 0 0 0 0 0.

(** A pointer to member [uint64_t StatsSnapshot::*]: reading through it and
    assigning through it. *)
Record StatsField := mkStatsField {
  fld_get : StatsSnapshot -> Z;
  fld_set : Z -> StatsSnapshot -> StatsSnapshot;
}.

Definition set_cache_hits (v : Z) (s : StatsSnapshot) : StatsSnapshot :=
  mkStatsSnapshot v (cache_misses s) (puts s) (deletes s) (evictions s)
    (current_entries s) (current_cache_bytes s) (current_payload_bytes s) (active_connections s)
    (total_connections s) (requests_processed s) (protocol_errors s) (rejected_requests s) (uptime_ms s).
Definition set_cache_misses (v : Z) (s : StatsSnapshot) : StatsSnapshot :=
  mkStatsSnapshot (cache_hits s) v (puts s) (deletes s) (evictions s)
    (current_entries s) (current_cache_bytes s) (current_payload_bytes s) (active_connections s)
    (total_connections s) (requests_processed s) (protocol_errors s) (rejected_requests s) (uptime_ms s).
Definition set_puts (v : Z) (s : StatsSnapshot) : StatsSnapshot :=
  mkStatsSnapshot (cache_hits s) (cache_misses s) v (deletes s) (evictions s)
    (current_entries s) (current_cache_bytes s) (current_payload_bytes s) (active_connections s)
    (total_connections s) (requests_processed s) (protocol_errors s) (rejected_requests s) (uptime_ms s).
Definition set_deletes (v : Z) (s : StatsSnapshot) : StatsSnapshot :=
  mkStatsSnapshot (cache_hits s) (cache_misses s) (puts s) v (evictions s)
    (current_entries s) (current_cache_bytes s) (current_payload_bytes s) (active_connections s)
    (total_connections s) (requests_processed s) (protocol_errors s) (rejected_requests s) (uptime_ms s).
Definition set_evictions (v : Z) (s : StatsSnapshot) : StatsSnapshot :=
  mkStatsSnapshot (cache_hits s) (cache_misses s) (puts s) (deletes s) v
    (current_entries s) (current_cache_bytes s) (current_payload_bytes s) (active_connections s)
    (total_connections s) (requests_processed s) (protocol_errors s) (rejected_requests s) (uptime_ms s).
Definition set_current_entries (v : Z) (s : StatsSnapshot) : StatsSnapshot :=
  mkStatsSnapshot (cache_hits s) (cache_misses s) (puts s) (deletes s) (evictions s)
    v (current_cache_bytes s) (current_payload_bytes s) (active_connections s)
    (total_connections s) (requests_processed s) (protocol_errors s) (rejected_requests s) (uptime_ms s).
Definition set_current_cache_bytes (v : Z) (s : StatsSnapshot) : StatsSnapshot :=
  mkStatsSnapshot (cache_hits s) (cache_misses s) (puts s) (deletes s) (evictions s)
    (current_entries s) v (current_payload_bytes s) (active_connections s)
    (total_connections s) (requests_processed s) (protocol_errors s) (rejected_requests s) (uptime_ms s).
Definition set_current_payload_bytes (v : Z) (s : StatsSnapshot) : StatsSnapshot :=
  mkStatsSnapshot (cache_hits s) (cache_misses s) (puts s) (deletes s) (evictions s)
    (current_entries s) (current_cache_bytes s) v (active_connections s)
    (total_connections s) (requests_processed s) (protocol_errors s) (rejected_requests s) (uptime_ms s).
Definition set_active_connections (v : Z) (s : StatsSnapshot) : StatsSnapshot :=
  mkStatsSnapshot (cache_hits s) (cache_misses s) (puts s) (deletes s) (evictions s)
    (current_entries s) (current_cache_bytes s) (current_payload_bytes s) v
    (total_connections s) (requests_processed s) (protocol_errors s) (rejected_requests s) (uptime_ms s).
Definition set_total_connections (v : Z) (s : StatsSnapshot) : StatsSnapshot :=
  mkStatsSnapshot (cache_hits s) (cache_misses s) (puts s) (deletes s) (evictions s)
    (current_entries s) (current_cache_bytes s) (current_payload_bytes s) (active_connections s)
    v (requests_processed s) (protocol_errors s) (rejected_requests s) (uptime_ms s).
Definition set_requests_processed (v : Z) (s : StatsSnapshot) : StatsSnapshot :=
  mkStatsSnapshot (cache_hits s) (cache_misses s) (puts s) (deletes s) (evictions s)
    (current_entries s) (current_cache_bytes s) (current_payload_bytes s) (active_connections s)
    (total_connections s) v (protocol_errors s) (rejected_requests s) (uptime_ms s).
Definition set_protocol_errors (v : Z) (s : StatsSnapshot) : StatsSnapshot :=
  mkStatsSnapshot (cache_hits s) (cache_misses s) (puts s) (deletes s) (evictions s)
    (current_entries s) (current_cache_bytes s) (current_payload_bytes s) (active_connections s)
    (total_connections s) (requests_processed s) v (rejected_requests s) (uptime_ms s).
Definition set_rejected_requests (v : Z) (s : StatsSnapshot) : StatsSnapshot :=
  mkStatsSnapshot (cache_hits s) (cache_misses s) (puts s) (deletes s) (evictions s)
    (current_entries s) (current_cache_bytes s) (current_payload_bytes s) (active_connections s)
    (total_connections s) (requests_processed s) (protocol_errors s) v (uptime_ms s).
Definition set_uptime_ms (v : Z) (s : StatsSnapshot) : StatsSnapshot :=
  mkStatsSnapshot (cache_hits s) (cache_misses s) (puts s) (deletes s) (evictions s)
    (current_entries s) (current_cache_bytes s) (current_payload_bytes s) (active_connections s)
    (total_connections s) (requests_processed s) (protocol_errors s) (rejected_requests s) v.

Record ServerStats := mkServerStats {
  hits_ : Z;
  misses_ : Z;
  puts_ : Z;
  deletes_ : Z;
  requests_ : Z;
  protocol_errors_ : Z;
  rejected_ : Z;
  active_connections_ : Z;
  total_connections_ : Z;
  start_time_ : Z;  (* steady_clock, in milliseconds *)
}.

Definition new_stats (now : Z) : ServerStats := mkServerStats 0 0 0 0 0 0 0 0 0 now.

Definition record_hit (s : ServerStats) : ServerStats :=
  mkServerStats (u64 (hits_ s + 1)) (misses_ s) (puts_ s) (deletes_ s) (requests_ s)
    (protocol_errors_ s) (rejected_ s) (active_connections_ s) (total_connections_ s) (start_time_ s).
Definition record_miss (s : ServerStats) : ServerStats :=
  mkServerStats (hits_ s) (u64 (misses_ s + 1)) (puts_ s) (deletes_ s) (requests_ s)
    (protocol_errors_ s) (rejected_ s) (active_connections_ s) (total_connections_ s) (start_time_ s).
Definition record_put (s : ServerStats) : ServerStats :=
  mkServerStats (hits_ s) (misses_ s) (u64 (puts_ s + 1)) (deletes_ s) (requests_ s)
    (protocol_errors_ s) (rejected_ s) (active_connections_ s) (total_connections_ s) (start_time_ s).
Definition record_delete (s : ServerStats) : ServerStats :=
  mkServerStats (hits_ s) (misses_ s) (puts_ s) (u64 (deletes_ s + 1)) (requests_ s)
    (protocol_errors_ s) (rejected_ s) (active_connections_ s) (total_connections_ s) (start_time_ s).
Definition record_request (s : ServerStats) : ServerStats :=
  mkServerStats (hits_ s) (misses_ s) (puts_ s) (deletes_ s) (u64 (requests_ s + 1))
    (protocol_errors_ s) (rejected_ s) (active_connections_ s) (total_connections_ s) (start_time_ s).
Definition record_protocol_error (s : ServerStats) : ServerStats :=
  mkServerStats (hits_ s) (misses_ s) (puts_ s) (deletes_ s) (requests_ s)
    (u64 (protocol_errors_ s + 1)) (rejected_ s) (active_connections_ s) (total_connections_ s) (start_time_ s).
Definition record_rejected (s : ServerStats) : ServerStats :=
  mkServerStats (hits_ s) (misses_ s) (puts_ s) (deletes_ s) (requests_ s)
    (protocol_errors_ s) (u64 (rejected_ s + 1)) (active_connections_ s) (total_connections_ s) (start_time_ s).
Definition connection_opened (s : ServerStats) : ServerStats :=
  mkServerStats (hits_ s) (misses_ s) (puts_ s) (deletes_ s) (requests_ s)
    (protocol_errors_ s) (rejected_ s) (u64 (active_connections_ s + 1)) (u64 (total_connections_ s + 1)) (start_time_ s).
Definition connection_closed (s : ServerStats) : ServerStats :=
  mkServerStats (hits_ s) (misses_ s) (puts_ s) (deletes_ s) (requests_ s)
    (protocol_errors_ s) (rejected_ s) (u64 (active_connections_ s - 1)) (total_connections_ s) (start_time_ s).

(** [ServerStats::snapshot]: every field except the cache-owned ones, which
    keep their default; [now] is the value [steady_clock::now] returns. *)
Definition stats_snapshot_of (s : ServerStats) (now : Z) : StatsSnapshot :=
  {| cache_hits := hits_ s;
     cache_misses := misses_ s;
     puts := puts_ s;
     deletes := deletes_ s;
     evictions := 0;
     current_entries := 0;
     current_cache_bytes := 0;
     current_payload_bytes := 0;
     active_connections := active_connections_ s;
     total_connections := total_connections_ s;
     requests_processed := requests_ s;
     protocol_errors := protocol_errors_ s;
     rejected_requests := rejected_ s;
     uptime_ms := u64 (now - start_time_ s) |}.

#[export] Instance stats_snapshot_eq_dec : EqDecision StatsSnapshot.
Proof. solve_decision. Defined.

(** ** Ranges *)

(** The updates of the counters. *)
Inductive stats_op : (ServerStats -> ServerStats) -> Prop :=
  | op_hit : stats_op record_hit
  | op_miss : stats_op record_miss
  | op_put : stats_op record_put
  | op_delete : stats_op record_delete
  | op_request : stats_op record_request
  | op_protocol_error : stats_op record_protocol_error
  | op_rejected : stats_op record_rejected
  | op_opened : stats_op connection_opened
  | op_closed : stats_op connection_closed.

#[export] Hint Constructors stats_op : cache.

(** Every counter is a value of [uint64_t]. *)
Record stats_typed (s : ServerStats) : Prop := mkStatsTyped {
  st_hits : 0 <= hits_ s < 2 ^ 64;
  st_misses : 0 <= misses_ s < 2 ^ 64;
  st_puts : 0 <= puts_ s < 2 ^ 64;
  st_deletes : 0 <= deletes_ s < 2 ^ 64;
  st_requests : 0 <= requests_ s < 2 ^ 64;
  st_errors : 0 <= protocol_errors_ s < 2 ^ 64;
  st_rejected : 0 <= rejected_ s < 2 ^ 64;
  st_active : 0 <= active_connections_ s < 2 ^ 64;
  st_total : 0 <= total_connections_ s < 2 ^ 64;
}.
