(* ===== verification/Serializer.v ===== *)
(** * Frames: big-endian encoding and the incremental parsers

    Models include/cache/serializer.h and src/serializer.cpp.  A pointer
    [const uint8_t* data] is the list of bytes from it to the end of its
    buffer; reading past that end is undefined behaviour, and a reader of the
    model answers [None] there.  A function with a reference parameter
    [T& out] takes the value [out] has before the call and returns the one it
    has after it. *)

From S2P Require Import Prelude Protocol Stats.

(** ** Primitive big-endian encoding *)

Definition append_u8 (out : bytes) (value : Z) : bytes := out ++ [z2b value].

Definition append_u16 (out : bytes) (value : Z) : bytes :=
  let out := out ++ [z2b (Z.shiftr value 8)] in
  out ++ [z2b value].

Definition append_u32 (out : bytes) (value : Z) : bytes :=
  let out := out ++ [z2b (Z.shiftr value 24)] in
  let out := out ++ [z2b (Z.shiftr value 16)] in
  let out := out ++ [z2b (Z.shiftr value 8)] in
  out ++ [z2b value].

(** The values of [shift] in [for (int shift = 56; shift >= 0; shift -= 8)]. *)
Definition append_u64 (out : bytes) (value : Z) : bytes :=
  fold_left (fun out shift => out ++ [z2b (Z.shiftr value shift)])
    [56; 48; 40; 32; 24; 16; 8; 0] out.

Definition read_u8 (data : bytes) : option Z :=
  match data with d0 :: _ => Some (b2z d0) | _ => None end.

Definition read_u16 (data : bytes) : option Z :=
  match data with
  | d0 :: d1 :: _ => Some (u16 (Z.lor (Z.shiftl (b2z d0) 8) (b2z d1)))
  | _ => None
  end.

Definition read_u32 (data : bytes) : option Z :=
  match data with
  | d0 :: d1 :: d2 :: d3 :: _ =>
      Some (Z.lor (Z.lor (Z.lor (u32 (Z.shiftl (b2z d0) 24)) (u32 (Z.shiftl (b2z d1) 16)))
                         (u32 (Z.shiftl (b2z d2) 8))) (b2z d3))
  | _ => None
  end.

(** [n] more iterations of the loop of [read_u64], at [data]. *)
Fixpoint read_u64_loop (n : nat) (data : bytes) (value : Z) : option Z :=
  match n with
  | O => Some value
  | S m =>
      match data with
      | d :: rest => read_u64_loop m rest (Z.lor (u64 (Z.shiftl value 8)) (b2z d))
      | [] => None
      end
  end.

Definition read_u64 (data : bytes) : option Z := read_u64_loop 8 data 0.

(** ** Headers *)

Definition append_bytes (out data : bytes) : bytes := out ++ data.

Definition encode_header (out : bytes) (header : Header) : bytes :=
  let out := append_u32 out kMagic in
  let out := append_u8 out (h_version header) in
  let out := append_u8 out (h_opcode header) in
  let out := append_u8 out (h_flags header) in
  let out := append_u8 out (h_status header) in
  let out := append_u64 out (h_request_id header) in
  let out := append_u32 out (h_key_len header) in
  append_u32 out (h_value_len header).

(** [data + n]. *)
Definition ptr_add (data : bytes) (n : nat) : bytes := drop n data.

Definition decode_common_header (data : bytes) (header : Header)
    : option (ParseError.t * Header) :=
  magic ← read_u32 data;
  if negb (magic =? kMagic) then Some (ParseError.kBadMagic, header) else
  version ← read_u8 (ptr_add data 4);
  let header := mkHeader version (h_opcode header) (h_flags header) (h_status header)
                  (h_request_id header) (h_key_len header) (h_value_len header) in
  if negb (version =? kVersion) then Some (ParseError.kUnsupportedVersion, header) else
  opcode ← read_u8 (ptr_add data 5);
  let header := mkHeader version opcode (h_flags header) (h_status header)
                  (h_request_id header) (h_key_len header) (h_value_len header) in
  if negb (is_valid_opcode opcode) then Some (ParseError.kInvalidOpcode, header) else
  flags ← read_u8 (ptr_add data 6);
  let header := mkHeader version opcode flags (h_status header)
                  (h_request_id header) (h_key_len header) (h_value_len header) in
  if negb (flags =? 0) then Some (ParseError.kReservedFlags, header) else
  status ← read_u8 (ptr_add data 7);
  request_id ← read_u64 (ptr_add data 8);
  key_len ← read_u32 (ptr_add data 16);
  value_len ← read_u32 (ptr_add data 20);
  Some (ParseError.kNone, mkHeader version opcode flags status request_id key_len value_len).

Definition effective_limit (configured ceiling : Z) : Z := Z.min configured ceiling.

(** ** Frames *)

Definition serialize_request_into (request : Request) (out : bytes) : bytes :=
  let header := mkHeader kVersion (Opcode.to_raw (rq_opcode request)) 0 0
                  (rq_request_id request)
                  (u32 (len (rq_key request))) (u32 (len (rq_value request))) in
  let out := encode_header out header in
  let out := append_bytes out (rq_key request) in
  append_bytes out (rq_value request).

Definition serialize_request (request : Request) : bytes := serialize_request_into request [].

Definition serialize_response_into (response : Response) (out : bytes) : bytes :=
  let header := mkHeader kVersion (Opcode.to_raw (rs_opcode response)) 0
                  (Status.to_raw (rs_status response)) (rs_request_id response)
                  0 (u32 (len (rs_value response))) in
  let out := encode_header out header in
  append_bytes out (rs_value response).

Definition serialize_response (response : Response) : bytes := serialize_response_into response [].

(** [str.assign(p, n)]: the [n] bytes at [p], all of which must be readable. *)
Definition assign (p : bytes) (n : Z) : option bytes :=
  if n <=? len p then Some (take (Z.to_nat n) p) else None.

Definition deserialize_request (input : bytes) (limits : Limits) (out : Request)
    : option (ParseResult * Request) :=
  if len input <? kHeaderSize then Some (need_more, out) else
  '(error, header) ← decode_common_header input default_header;
  if negb (bool_decide (error = ParseError.kNone)) then Some (malformed error, out) else
  if negb (h_status header =? 0) then Some (malformed ParseError.kInvalidStatus, out) else
  let opcode := Opcode.of_raw (h_opcode header) in
  if effective_limit (max_key_bytes limits) kMaxKeyBytes <? h_key_len header
  then Some (malformed ParseError.kKeyTooLarge, out) else
  if effective_limit (max_value_bytes limits) kMaxValueBytes <? h_value_len header
  then Some (malformed ParseError.kValueTooLarge, out) else
  if opcode_requires_key opcode && (h_key_len header =? 0)
  then Some (malformed ParseError.kMissingKey, out) else
  if negb (opcode_requires_key opcode) && negb (h_key_len header =? 0)
  then Some (malformed ParseError.kPayloadNotAllowed, out) else
  if negb (opcode_allows_value opcode) && negb (h_value_len header =? 0)
  then Some (malformed ParseError.kPayloadNotAllowed, out) else
  let frame_size := u64 (kHeaderSize + h_key_len header + h_value_len header) in
  if kMaxFrameBytes <? frame_size
  then Some (malformed ParseError.kValueTooLarge, out) else
  if len input <? frame_size then Some (need_more, out) else
  let payload := ptr_add input (Z.to_nat kHeaderSize) in
  key ← assign payload (h_key_len header);
  value ← assign (ptr_add payload (Z.to_nat (h_key_len header))) (h_value_len header);
  Some (complete frame_size, mkRequest opcode (h_request_id header) key value).

Definition deserialize_response (input : bytes) (limits : Limits) (out : Response)
    : option (ParseResult * Response) :=
  if len input <? kHeaderSize then Some (need_more, out) else
  '(error, header) ← decode_common_header input default_header;
  if negb (bool_decide (error = ParseError.kNone)) then Some (malformed error, out) else
  if negb (is_valid_status (h_status header))
  then Some (malformed ParseError.kInvalidStatus, out) else
  if negb (h_key_len header =? 0)
  then Some (malformed ParseError.kPayloadNotAllowed, out) else
  if effective_limit (max_value_bytes limits) kMaxValueBytes <? h_value_len header
  then Some (malformed ParseError.kValueTooLarge, out) else
  let frame_size := u64 (kHeaderSize + h_value_len header) in
  if len input <? frame_size then Some (need_more, out) else
  value ← assign (ptr_add input (Z.to_nat kHeaderSize)) (h_value_len header);
  Some (complete frame_size,
        mkResponse (Opcode.of_raw (h_opcode header)) (Status.of_raw (h_status header))
          (h_request_id header) value).

(** ** The STATS payload *)

Definition kStatsFields : list StatsField :=
  [ mkStatsField cache_hits set_cache_hits;
    mkStatsField cache_misses set_cache_misses;
    mkStatsField puts set_puts;
    mkStatsField deletes set_deletes;
    mkStatsField evictions set_evictions;
    mkStatsField current_entries set_current_entries;
    mkStatsField current_cache_bytes set_current_cache_bytes;
    mkStatsField current_payload_bytes set_current_payload_bytes;
    mkStatsField active_connections set_active_connections;
    mkStatsField total_connections set_total_connections;
    mkStatsField requests_processed set_requests_processed;
    mkStatsField protocol_errors set_protocol_errors;
    mkStatsField rejected_requests set_rejected_requests;
    mkStatsField uptime_ms set_uptime_ms ].

Definition serialize_stats (stats : StatsSnapshot) : bytes :=
  let out := append_u16 [] (u16 (len kStatsFields)) in
  fold_left (fun out field => append_u64 out (fld_get field stats)) kStatsFields out.

(** The loop [for (i = 0; i < readable; ++i)] over the remaining [fields],
    reading at [data]. *)
Fixpoint read_stats_loop (readable : nat) (fields : list StatsField) (data : bytes)
    (out : StatsSnapshot) : option StatsSnapshot :=
  match readable with
  | O => Some out
  | S n =>
      match fields with
      | [] => None
      | field :: fields =>
          v ← read_u64 data;
          read_stats_loop n fields (ptr_add data 8) (fld_set field v out)
      end
  end.

Definition deserialize_stats (input : bytes) (out : StatsSnapshot)
    : option (bool * StatsSnapshot) :=
  if len input <? 2 then Some (false, out) else
  count ← read_u16 input;
  if len input <? 2 + count * 8 then Some (false, out) else
  let readable := Z.min count (len kStatsFields) in
  out ← read_stats_loop (Z.to_nat readable) kStatsFields (ptr_add input 2) out;
  Some (true, out).

(** ** The primitives against the reference encoding *)

Lemma append_u8_eq out v : append_u8 out v = out ++ be_split 1 v.
Proof. unfold append_u8. simpl. by rewrite Z.shiftr_0_r. Qed.

Lemma append_u16_eq out v : append_u16 out v = out ++ be_split 2 v.
Proof. unfold append_u16. simpl. by rewrite <- app_assoc, Z.shiftr_0_r. Qed.

Lemma append_u32_eq out v : append_u32 out v = out ++ be_split 4 v.
Proof. unfold append_u32. simpl. by rewrite <- !app_assoc, Z.shiftr_0_r. Qed.

Lemma append_u64_eq out v : append_u64 out v = out ++ be_split 8 v.
Proof. unfold append_u64. simpl. by rewrite <- !app_assoc. Qed.

(** A reader of [n] bytes: [None] past the end of the buffer, the big-endian
    value of the first [n] bytes otherwise. *)
Definition read_be (n : nat) (data : bytes) : option Z :=
  if (n <=? length data)%nat then Some (be_combine (take n data)) else None.

Lemma read_u8_eq data : read_u8 data = read_be 1 data.
Proof. by destruct data as [|d0 r]. Qed.

Lemma shl8_lor x b : 0 <= x < 2 ^ 56 ->
  Z.lor (u64 (Z.shiftl x 8)) (b2z b) = x * 256 + b2z b.
Proof.
  intros Hx. pose proof (b2z_range b).
  rewrite Z.shiftl_mul_pow2, u64_small by lia.
  apply (lor_disjoint 8); [lia | apply Z.mod_mul; lia | lia].
Qed.

Lemma read_u16_eq data : read_u16 data = read_be 2 data.
Proof.
  destruct data as [|d0 [|d1 r]]; [done..|].
  unfold read_u16, read_be. simpl. unfold be_combine. simpl fold_left.
  pose proof (b2z_range d0). pose proof (b2z_range d1).
  rewrite Z.shiftl_mul_pow2, (lor_disjoint 8) by (try lia; apply Z.mod_mul; lia).
  rewrite u16_small by lia. f_equal; lia.
Qed.

Lemma read_u32_eq data : read_u32 data = read_be 4 data.
Proof.
  destruct data as [|d0 [|d1 [|d2 [|d3 r]]]]; [done..|].
  unfold read_u32, read_be. simpl. unfold be_combine. simpl fold_left.
  pose proof (b2z_range d0). pose proof (b2z_range d1).
  pose proof (b2z_range d2). pose proof (b2z_range d3).
  rewrite !Z.shiftl_mul_pow2, !u32_small by lia.
  rewrite (lor_disjoint 24 (b2z d0 * 2 ^ 24)) by (try lia; apply Z.mod_mul; lia).
  rewrite (lor_disjoint 16 (b2z d0 * 2 ^ 24 + _)).
  2: lia.
  2: { replace (b2z d0 * 2 ^ 24 + b2z d1 * 2 ^ 16) with ((b2z d0 * 2 ^ 8 + b2z d1) * 2 ^ 16) by lia.
       apply Z.mod_mul; lia. }
  2: lia.
  rewrite (lor_disjoint 8).
  2: lia.
  2: { replace (_ + _) with ((b2z d0 * 2 ^ 16 + b2z d1 * 2 ^ 8 + b2z d2) * 2 ^ 8) by lia.
       apply Z.mod_mul; lia. }
  2: lia.
  f_equal. lia.
Qed.

Lemma read_u64_loop_eq n data value :
  0 <= value < 2 ^ (64 - 8 * Z.of_nat n) -> (n <= 8)%nat ->
  read_u64_loop n data value =
    if (n <=? length data)%nat
    then Some (fold_left (fun a b => a * 256 + b2z b) (take n data) value) else None.
Proof.
  revert data value. induction n as [|n IH]; intros data value Hv Hn; [done|].
  destruct data as [|d data]; [done|]. simpl read_u64_loop.
  assert (Hp : 2 ^ (64 - 8 * Z.of_nat n) = 2 ^ (64 - 8 * Z.of_nat (S n)) * 256).
  { change 256 with (2 ^ 8). rewrite <- Z.pow_add_r by lia. f_equal. lia. }
  assert (Hle : 2 ^ (64 - 8 * Z.of_nat (S n)) <= 2 ^ 56) by (apply Z.pow_le_mono_r; lia).
  pose proof (b2z_range d).
  rewrite shl8_lor by lia. by rewrite IH by lia.
Qed.

Lemma read_u64_eq data : read_u64 data = read_be 8 data.
Proof. unfold read_u64. by rewrite read_u64_loop_eq by (cbn; lia). Qed.

(** ** Reference decoding of a header

    The fixed-offset fields of the documented layout, and the first check of
    the header that fails. *)

Definition field (off n : nat) (input : bytes) : Z := be_combine (take n (drop off input)).

Definition hdr_of (input : bytes) : Header :=
  mkHeader (field 4 1 input) (field 5 1 input) (field 6 1 input) (field 7 1 input)
    (field 8 8 input) (field 16 4 input) (field 20 4 input).

Definition hdr_error (input : bytes) : ParseError.t :=
  if negb (field 0 4 input =? kMagic) then ParseError.kBadMagic
  else if negb (field 4 1 input =? kVersion) then ParseError.kUnsupportedVersion
  else if negb (is_valid_opcode (field 5 1 input)) then ParseError.kInvalidOpcode
  else if negb (field 6 1 input =? 0) then ParseError.kReservedFlags
  else ParseError.kNone.

Lemma read_be_field off n input : (off + n <= length input)%nat ->
  read_be n (ptr_add input off) = Some (field off n input).
Proof.
  intros H. unfold read_be, ptr_add, field. rewrite length_drop.
  destruct (Nat.leb_spec n (length input - off)); [done | lia].
Qed.

Lemma read_be_field0 n input : (n <= length input)%nat ->
  read_be n input = Some (field 0 n input).
Proof. intros H. by rewrite <- read_be_field by lia. Qed.

Lemma field_range off n input : 0 <= field off n input < 2 ^ (8 * Z.of_nat n).
Proof.
  unfold field. pose proof (be_combine_range (take n (drop off input))) as Hr.
  assert (2 ^ (8 * len (take n (drop off input))) <= 2 ^ (8 * Z.of_nat n)); [|lia].
  apply Z.pow_le_mono_r; [lia|]. unfold len. rewrite length_take. lia.
Qed.

(** Appending bytes does not change the fields already there. *)
Lemma field_app off n input more : (off + n <= length input)%nat ->
  field off n (input ++ more) = field off n input.
Proof.
  intros H. unfold field. rewrite drop_app_le, take_app_le by (rewrite ?length_drop; lia). done.
Qed.

Lemma be_split_field off n input : (off + n <= length input)%nat ->
  be_split n (field off n input) = take n (drop off input).
Proof.
  intros H. unfold field. rewrite <- be_split_combine. f_equal.
  rewrite length_take, length_drop. lia.
Qed.

Lemma decode_common_header_eq input h : kHeaderSize <= len input ->
  exists h', decode_common_header input h = Some (hdr_error input, h')
          /\ (hdr_error input = ParseError.kNone -> h' = hdr_of input).
Proof.
  unfold kHeaderSize, len. intros Hlen. unfold decode_common_header, hdr_error.
  rewrite !read_u8_eq, !read_u32_eq, !read_u64_eq.
  rewrite !read_be_field, read_be_field0 by lia. cbn [mbind option_bind].
  repeat match goal with |- context [if negb ?b then _ else _] =>
    destruct b; [|by eexists]; cbn [negb] end.
  eexists. split; [reflexivity | done].
Qed.

(** ** Reference decoding of a request *)

(** The first check of a request frame that fails, [kNone] when none does. *)
Definition request_error (limits : Limits) (input : bytes) : ParseError.t :=
  let h := hdr_of input in
  let opcode := Opcode.of_raw (h_opcode h) in
  match hdr_error input with
  | ParseError.kNone =>
      if negb (h_status h =? 0) then ParseError.kInvalidStatus
      else if Z.min (max_key_bytes limits) kMaxKeyBytes <? h_key_len h then ParseError.kKeyTooLarge
      else if Z.min (max_value_bytes limits) kMaxValueBytes <? h_value_len h
      then ParseError.kValueTooLarge
      else if opcode_requires_key opcode && (h_key_len h =? 0) then ParseError.kMissingKey
      else if negb (opcode_requires_key opcode) && negb (h_key_len h =? 0)
      then ParseError.kPayloadNotAllowed
      else if negb (opcode_allows_value opcode) && negb (h_value_len h =? 0)
      then ParseError.kPayloadNotAllowed
      else ParseError.kNone
  | e => e
  end.

Definition frame_size_of (input : bytes) : Z :=
  kHeaderSize + h_key_len (hdr_of input) + h_value_len (hdr_of input).

Definition request_of (input : bytes) : Request :=
  let h := hdr_of input in
  mkRequest (Opcode.of_raw (h_opcode h)) (h_request_id h)
    (take (Z.to_nat (h_key_len h)) (drop 24 input))
    (take (Z.to_nat (h_value_len h)) (drop (24 + Z.to_nat (h_key_len h)) input)).

Definition reference_request (input : bytes) (limits : Limits) (out : Request)
    : ParseResult * Request :=
  if len input <? kHeaderSize then (need_more, out) else
  match request_error limits input with
  | ParseError.kNone =>
      if len input <? frame_size_of input then (need_more, out)
      else (complete (frame_size_of input), request_of input)
  | e => (malformed e, out)
  end.

Lemma hdr_lens_range input :
  0 <= h_key_len (hdr_of input) < 2 ^ 32 /\ 0 <= h_value_len (hdr_of input) < 2 ^ 32.
Proof. split; apply (field_range _ 4). Qed.

Lemma assign_take p n : 0 <= n <= len p -> assign p n = Some (take (Z.to_nat n) p).
Proof. intros H. unfold assign. destruct (Z.leb_spec n (len p)); [done | lia]. Qed.

Lemma deserialize_request_eq input limits out :
  deserialize_request input limits out = Some (reference_request input limits out).
Proof.
  unfold deserialize_request, reference_request.
  destruct (Z.ltb_spec (len input) kHeaderSize) as [|Hlen]; [done|].
  destruct (decode_common_header_eq input default_header Hlen) as (h & -> & Hh).
  cbn [mbind option_bind]. unfold request_error, effective_limit.
  destruct (hdr_error input); try done. rewrite Hh by done. cbn [negb bool_decide decide].
  change (bool_decide (ParseError.kNone = ParseError.kNone)) with true. cbn [negb].
  pose proof (hdr_lens_range input) as [Hk Hv].
  repeat match goal with |- context [if ?b then Some (malformed _, _) else _] =>
    destruct b eqn:?; [done|] end.
  b2p. unfold kMaxFrameBytes, kMaxKeyBytes, kMaxValueBytes, frame_size_of, kHeaderSize in *.
  rewrite u64_small by lia.
  match goal with |- context [?a <? ?b] => destruct (Z.ltb_spec a b); [lia|] end.
  match goal with |- context [?a <? ?b] => destruct (Z.ltb_spec a b); [done|] end.
  unfold ptr_add. rewrite drop_drop, !assign_take by (unfold len in *; rewrite length_drop; lia).
  done.
Qed.

(** ** Reference decoding of a response *)

Definition response_error (limits : Limits) (input : bytes) : ParseError.t :=
  let h := hdr_of input in
  match hdr_error input with
  | ParseError.kNone =>
      if negb (is_valid_status (h_status h)) then ParseError.kInvalidStatus
      else if negb (h_key_len h =? 0) then ParseError.kPayloadNotAllowed
      else if Z.min (max_value_bytes limits) kMaxValueBytes <? h_value_len h
      then ParseError.kValueTooLarge
      else ParseError.kNone
  | e => e
  end.

Definition response_of (input : bytes) : Response :=
  let h := hdr_of input in
  mkResponse (Opcode.of_raw (h_opcode h)) (Status.of_raw (h_status h)) (h_request_id h)
    (take (Z.to_nat (h_value_len h)) (drop 24 input)).

Definition reference_response (input : bytes) (limits : Limits) (out : Response)
    : ParseResult * Response :=
  if len input <? kHeaderSize then (need_more, out) else
  match response_error limits input with
  | ParseError.kNone =>
      if len input <? frame_size_of input then (need_more, out)
      else (complete (frame_size_of input), response_of input)
  | e => (malformed e, out)
  end.

Lemma deserialize_response_eq input limits out :
  deserialize_response input limits out = Some (reference_response input limits out).
Proof.
  unfold deserialize_response, reference_response.
  destruct (Z.ltb_spec (len input) kHeaderSize) as [|Hlen]; [done|].
  destruct (decode_common_header_eq input default_header Hlen) as (h & -> & Hh).
  cbn [mbind option_bind]. unfold response_error, effective_limit.
  destruct (hdr_error input); try done. rewrite Hh by done.
  change (bool_decide (ParseError.kNone = ParseError.kNone)) with true. cbn [negb].
  pose proof (hdr_lens_range input) as [Hk Hv].
  repeat match goal with |- context [if ?b then Some (malformed _, _) else _] =>
    destruct b eqn:?; [done|] end.
  b2p. unfold kMaxValueBytes, frame_size_of, kHeaderSize in *.
  rewrite u64_small by lia.
  replace (24 + h_key_len (hdr_of input) + h_value_len (hdr_of input))
    with (24 + h_value_len (hdr_of input)) by lia.
  match goal with |- context [?a <? ?b] => destruct (Z.ltb_spec a b); [done|] end.
  unfold ptr_add. rewrite assign_take by (unfold len in *; rewrite length_drop; lia).
  done.
Qed.

(** ** Encoded headers *)

Definition header_bytes (h : Header) : bytes :=
  be_split 4 kMagic ++ be_split 1 (h_version h) ++ be_split 1 (h_opcode h) ++
  be_split 1 (h_flags h) ++ be_split 1 (h_status h) ++ be_split 8 (h_request_id h) ++
  be_split 4 (h_key_len h) ++ be_split 4 (h_value_len h).

Lemma encode_header_eq out h : encode_header out h = out ++ header_bytes h.
Proof.
  unfold encode_header, header_bytes.
  by rewrite !append_u32_eq, append_u64_eq, !append_u8_eq, <- !app_assoc.
Qed.

Lemma length_header_bytes h : length (header_bytes h) = 24%nat.
Proof. unfold header_bytes. by rewrite !length_app, !length_be_split. Qed.

Lemma field_head n v post : field 0 n (be_split n v ++ post) = v mod 2 ^ (8 * Z.of_nat n).
Proof.
  unfold field. rewrite drop_0, take_app_le, take_ge by (rewrite length_be_split; lia).
  apply be_combine_split.
Qed.

Lemma field_skip m v off n post : (m <= off)%nat ->
  field off n (be_split m v ++ post) = field (off - m) n post.
Proof.
  intros H. unfold field. rewrite drop_app_ge by (rewrite length_be_split; lia).
  by rewrite length_be_split.
Qed.

(** A header whose fields fit their width on the wire. *)
Definition header_ok (h : Header) : bool :=
  (0 <=? h_version h) && (h_version h <? 2 ^ 8) && (0 <=? h_opcode h) && (h_opcode h <? 2 ^ 8) &&
  (0 <=? h_flags h) && (h_flags h <? 2 ^ 8) && (0 <=? h_status h) && (h_status h <? 2 ^ 8) &&
  (0 <=? h_request_id h) && (h_request_id h <? 2 ^ 64) &&
  (0 <=? h_key_len h) && (h_key_len h <? 2 ^ 32) &&
  (0 <=? h_value_len h) && (h_value_len h <? 2 ^ 32).

Lemma hdr_of_encoded h rest : header_ok h = true ->
  field 0 4 (header_bytes h ++ rest) = kMagic /\ hdr_of (header_bytes h ++ rest) = h.
Proof.
  intros Hok. unfold header_ok in Hok. b2p. unfold header_bytes. rewrite <- !app_assoc.
  split; [by rewrite field_head|]. destruct h as [ve op fl st id kl vl].
  cbn [h_version h_opcode h_flags h_status h_request_id h_key_len h_value_len] in *.
  unfold hdr_of. f_equal;
  repeat (rewrite field_skip by lia; simpl Nat.sub);
  rewrite field_head, Z.mod_small by (simpl; lia); done.
Qed.

(** The first 24 bytes are determined by the fields they hold. *)
Lemma header_bytes_of input : (24 <= length input)%nat -> field 0 4 input = kMagic ->
  take 24 input = header_bytes (hdr_of input).
Proof.
  intros Hl Hm. unfold header_bytes. rewrite <- Hm. cbn [h_version h_opcode h_flags h_status
    h_request_id h_key_len h_value_len hdr_of].
  rewrite !be_split_field by lia.
  change 24%nat with (4 + (1 + (1 + (1 + (1 + (8 + (4 + 4)))))))%nat.
  do 7 (rewrite <- take_take_drop; f_equal; rewrite ?drop_drop). done.
Qed.

Lemma hdr_of_app input more : (24 <= length input)%nat ->
  hdr_of (input ++ more) = hdr_of input /\ hdr_error (input ++ more) = hdr_error input.
Proof. intros H. unfold hdr_of, hdr_error. by rewrite !field_app by lia. Qed.

(** ** Well-formed messages *)

(** The requests a peer with these limits accepts. *)
Definition request_ok (limits : Limits) (r : Request) : bool :=
  named_opcode (rq_opcode r) && (0 <=? rq_request_id r) && (rq_request_id r <? 2 ^ 64) &&
  (len (rq_key r) <=? Z.min (max_key_bytes limits) kMaxKeyBytes) &&
  (len (rq_value r) <=? Z.min (max_value_bytes limits) kMaxValueBytes) &&
  Bool.eqb (opcode_requires_key (rq_opcode r)) (negb (len (rq_key r) =? 0)) &&
  (opcode_allows_value (rq_opcode r) || (len (rq_value r) =? 0)).

Definition response_ok (limits : Limits) (r : Response) : bool :=
  named_opcode (rs_opcode r) && named_status (rs_status r) &&
  (0 <=? rs_request_id r) && (rs_request_id r <? 2 ^ 64) &&
  (len (rs_value r) <=? Z.min (max_value_bytes limits) kMaxValueBytes).

Definition request_header (r : Request) : Header :=
  mkHeader kVersion (Opcode.to_raw (rq_opcode r)) 0 0 (rq_request_id r)
    (len (rq_key r)) (len (rq_value r)).

Definition response_header (r : Response) : Header :=
  mkHeader kVersion (Opcode.to_raw (rs_opcode r)) 0 (Status.to_raw (rs_status r))
    (rs_request_id r) 0 (len (rs_value r)).

Lemma serialize_request_into_eq r out : len (rq_key r) < 2 ^ 32 -> len (rq_value r) < 2 ^ 32 ->
  serialize_request_into r out = out ++ header_bytes (request_header r) ++ rq_key r ++ rq_value r.
Proof.
  intros Hk Hv. unfold serialize_request_into, append_bytes.
  rewrite encode_header_eq, !u32_small, <- !app_assoc by (split; [apply len_nonneg | done]). done.
Qed.

Lemma serialize_response_into_eq r out : len (rs_value r) < 2 ^ 32 ->
  serialize_response_into r out = out ++ header_bytes (response_header r) ++ rs_value r.
Proof.
  intros Hv. unfold serialize_response_into, append_bytes.
  rewrite encode_header_eq, u32_small, <- app_assoc by (split; [apply len_nonneg | done]). done.
Qed.

Lemma request_ok_lens limits r : request_ok limits r = true ->
  len (rq_key r) <= kMaxKeyBytes /\ len (rq_value r) <= kMaxValueBytes.
Proof. unfold request_ok. intros H. b2p. lia. Qed.

Lemma response_ok_lens limits r : response_ok limits r = true ->
  len (rs_value r) <= kMaxValueBytes.
Proof. unfold response_ok. intros H. b2p. lia. Qed.

Lemma request_header_ok limits r : request_ok limits r = true ->
  header_ok (request_header r) = true.
Proof.
  intros H. pose proof (request_ok_lens _ _ H) as [Hk Hv].
  unfold request_ok in H. b2p. unfold header_ok, request_header, kVersion; cbn [h_version h_opcode
    h_flags h_status h_request_id h_key_len h_value_len].
  match goal with Hn : named_opcode _ = true |- _ => pose proof (named_opcode_raw _ Hn) end.
  pose proof (len_nonneg (rq_key r)). pose proof (len_nonneg (rq_value r)).
  unfold kMaxKeyBytes, kMaxValueBytes in *.
  repeat (apply andb_true_iff; split); first [apply Z.leb_le | apply Z.ltb_lt]; lia.
Qed.

Lemma response_header_ok limits r : response_ok limits r = true ->
  header_ok (response_header r) = true.
Proof.
  intros H. pose proof (response_ok_lens _ _ H) as Hv.
  unfold response_ok in H. b2p. unfold header_ok, response_header, kVersion; cbn [h_version h_opcode
    h_flags h_status h_request_id h_key_len h_value_len].
  match goal with Hn : named_opcode _ = true |- _ => pose proof (named_opcode_raw _ Hn) end.
  match goal with Hn : named_status _ = true |- _ => pose proof (named_status_raw _ Hn) end.
  pose proof (len_nonneg (rs_value r)). unfold kMaxValueBytes in *.
  repeat (apply andb_true_iff; split); first [apply Z.leb_le | apply Z.ltb_lt]; lia.
Qed.

Lemma hdr_error_encoded h rest : header_ok h = true -> h_version h = kVersion ->
  is_valid_opcode (h_opcode h) = true -> h_flags h = 0 ->
  hdr_error (header_bytes h ++ rest) = ParseError.kNone.
Proof.
  intros Hok Hv Ho Hf. destruct (hdr_of_encoded h rest Hok) as [Hm Hh].
  unfold hdr_error. rewrite Hm. set (input := header_bytes h ++ rest) in *.
  change (field 4 1 input) with (h_version (hdr_of input)).
  change (field 5 1 input) with (h_opcode (hdr_of input)).
  change (field 6 1 input) with (h_flags (hdr_of input)).
  by rewrite Hh, Hv, Ho, Hf.
Qed.

Lemma named_opcode_valid o : named_opcode o = true -> is_valid_opcode (Opcode.to_raw o) = true.
Proof. intros H. apply is_valid_opcode_range. by apply named_opcode_raw. Qed.

(** A well-formed request passes every check of the reference decoder. *)
Lemma request_error_encoded limits r rest : request_ok limits r = true ->
  hdr_of (header_bytes (request_header r) ++ rest) = request_header r /\
  request_error limits (header_bytes (request_header r) ++ rest) = ParseError.kNone.
Proof.
  intros H. pose proof (request_header_ok _ _ H) as Hok.
  destruct (hdr_of_encoded _ rest Hok) as [_ Hh]. split; [done|].
  unfold request_ok in H. b2p. unfold request_error.
  rewrite hdr_error_encoded, Hh by (done || by apply named_opcode_valid).
  cbn [request_header h_status h_opcode h_key_len h_value_len].
  rewrite opcode_of_to_raw by done. simpl negb.
  repeat match goal with |- context [if ?a <? ?b then _ else _] =>
    destruct (Z.ltb_spec a b); [lia|] end.
  destruct (opcode_requires_key _), (opcode_allows_value _), (len (rq_key r) =? 0),
    (len (rq_value r) =? 0); simpl in *; intuition congruence.
Qed.

Lemma response_error_encoded limits r rest : response_ok limits r = true ->
  hdr_of (header_bytes (response_header r) ++ rest) = response_header r /\
  response_error limits (header_bytes (response_header r) ++ rest) = ParseError.kNone.
Proof.
  intros H. pose proof (response_header_ok _ _ H) as Hok.
  destruct (hdr_of_encoded _ rest Hok) as [_ Hh]. split; [done|].
  unfold response_ok in H. b2p. unfold response_error.
  rewrite hdr_error_encoded, Hh by (done || by apply named_opcode_valid).
  cbn [response_header h_status h_key_len h_value_len].
  rewrite (proj2 (is_valid_status_range _)) by (by apply named_status_raw). simpl.
  repeat match goal with |- context [if ?a <? ?b then _ else _] =>
    destruct (Z.ltb_spec a b); [lia|] end. done.
Qed.

(** ** Frames on a stream *)

Lemma request_frame_lens limits r rest : request_ok limits r = true ->
  len (serialize_request r ++ rest)
  = kHeaderSize + len (rq_key r) + len (rq_value r) + len rest.
Proof.
  intros H. pose proof (request_ok_lens _ _ H). unfold kMaxKeyBytes, kMaxValueBytes in *.
  unfold serialize_request. rewrite serialize_request_into_eq by lia.
  autorewrite with cache_rw. unfold kHeaderSize, len at 1. rewrite length_header_bytes. lia.
Qed.

Lemma response_frame_lens limits r rest : response_ok limits r = true ->
  len (serialize_response r ++ rest) = kHeaderSize + len (rs_value r) + len rest.
Proof.
  intros H. pose proof (response_ok_lens _ _ H). unfold kMaxValueBytes in *.
  unfold serialize_response. rewrite serialize_response_into_eq by lia.
  autorewrite with cache_rw. unfold kHeaderSize, len at 1. rewrite length_header_bytes. lia.
Qed.

Lemma take_drop_app {A} (a b c : list A) n m :
  length a = n -> length b = m -> take m (drop n (a ++ b ++ c)) = b.
Proof. intros <- <-. by rewrite drop_app_length, take_app_length. Qed.

Lemma request_of_encoded limits r rest : request_ok limits r = true ->
  request_of (serialize_request r ++ rest) = r.
Proof.
  intros H. pose proof (request_ok_lens _ _ H). unfold kMaxKeyBytes, kMaxValueBytes in *.
  unfold serialize_request. rewrite serialize_request_into_eq by lia. rewrite app_nil_l, <- !app_assoc.
  unfold request_of. rewrite (proj1 (request_error_encoded limits r _ H)).
  cbn [request_header h_opcode h_request_id h_key_len h_value_len].
  unfold request_ok in H. b2p. rewrite opcode_of_to_raw by done. unfold len. rewrite !Nat2Z.id.
  rewrite take_drop_app by (done || apply length_header_bytes).
  rewrite (app_assoc (header_bytes _)), take_drop_app
    by (rewrite ?length_app, ?length_header_bytes; done).
  by destruct r.
Qed.

Lemma response_of_encoded limits r rest : response_ok limits r = true ->
  response_of (serialize_response r ++ rest) = r.
Proof.
  intros H. pose proof (response_ok_lens _ _ H). unfold kMaxValueBytes in *.
  unfold serialize_response. rewrite serialize_response_into_eq by lia. rewrite app_nil_l, <- !app_assoc.
  unfold response_of. rewrite (proj1 (response_error_encoded limits r _ H)).
  cbn [response_header h_opcode h_status h_request_id h_value_len].
  unfold response_ok in H. b2p. rewrite opcode_of_to_raw, status_of_to_raw by done.
  unfold len. rewrite !Nat2Z.id, take_drop_app by (done || apply length_header_bytes).
  by destruct r.
Qed.

(** What the reference decoders see of an encoded message. *)
Lemma request_seen limits r rest : request_ok limits r = true ->
  hdr_of (serialize_request r ++ rest) = request_header r /\
  request_error limits (serialize_request r ++ rest) = ParseError.kNone.
Proof.
  intros H. pose proof (request_ok_lens _ _ H). unfold kMaxKeyBytes, kMaxValueBytes in *.
  unfold serialize_request. rewrite serialize_request_into_eq by lia. rewrite app_nil_l, <- !app_assoc.
  by apply request_error_encoded.
Qed.

Lemma response_seen limits r rest : response_ok limits r = true ->
  hdr_of (serialize_response r ++ rest) = response_header r /\
  response_error limits (serialize_response r ++ rest) = ParseError.kNone.
Proof.
  intros H. pose proof (response_ok_lens _ _ H). unfold kMaxValueBytes in *.
  unfold serialize_response. rewrite serialize_response_into_eq by lia. rewrite app_nil_l, <- !app_assoc.
  by apply response_error_encoded.
Qed.

(** The request the decoder reports is well formed, and the bytes it consumes
    are exactly its encoding. *)
Lemma request_of_ok limits input :
  kHeaderSize <= len input -> request_error limits input = ParseError.kNone ->
  frame_size_of input <= len input ->
  request_ok limits (request_of input) = true /\
  take (Z.to_nat (frame_size_of input)) input = serialize_request (request_of input).
Proof.
  intros Hl He Hf. pose proof (hdr_lens_range input) as [Hk Hv].
  unfold request_error in He. destruct (hdr_error input) eqn:Hhe; try done.
  unfold hdr_error in Hhe. repeat (split_if; try done). b2p.
  unfold frame_size_of, kHeaderSize in *.
  set (h := hdr_of input) in *.
  assert (Hlk : len (rq_key (request_of input)) = h_key_len h).
  { unfold request_of. fold h. cbn [rq_key]. unfold len in *. rewrite length_take, length_drop. lia. }
  assert (Hlv : len (rq_value (request_of input)) = h_value_len h).
  { unfold request_of. fold h. cbn [rq_value]. unfold len in *. rewrite length_take, length_drop. lia. }
  split.
  - unfold request_ok. rewrite Hlk, Hlv. unfold request_of. fold h. cbn [rq_opcode rq_request_id].
    rewrite named_of_raw. pose proof (field_range 8 8 input) as Hid.
    change (field 8 8 input) with (h_request_id h) in Hid.
    change (field 5 1 input) with (h_opcode h) in *.
    repeat (apply andb_true_iff; split); try done; try (apply Z.leb_le; lia); try (apply Z.ltb_lt; lia).
    all: destruct (opcode_requires_key _), (opcode_allows_value _), (h_key_len h =? 0),
      (h_value_len h =? 0); simpl in *; intuition congruence.
  - unfold serialize_request. rewrite serialize_request_into_eq by lia. rewrite app_nil_l.
    assert (Hh : request_header (request_of input) = h).
    { unfold request_header. rewrite Hlk, Hlv. unfold request_of. fold h. cbn [rq_opcode rq_request_id].
      rewrite opcode_to_of_raw. unfold h, hdr_of. f_equal; cbn in *; lia. }
    rewrite Hh. unfold request_of. fold h. cbn [rq_key rq_value].
    unfold h. rewrite <- header_bytes_of by (unfold len in *; lia || done).
    fold h. rewrite !Z2Nat.inj_add by lia. rewrite <- !take_take_drop, app_assoc. done.
Qed.

Lemma response_of_ok limits input :
  kHeaderSize <= len input -> response_error limits input = ParseError.kNone ->
  frame_size_of input <= len input ->
  response_ok limits (response_of input) = true /\
  take (Z.to_nat (frame_size_of input)) input = serialize_response (response_of input).
Proof.
  intros Hl He Hf. pose proof (hdr_lens_range input) as [Hk Hv].
  unfold response_error in He. destruct (hdr_error input) eqn:Hhe; try done.
  unfold hdr_error in Hhe. repeat (split_if; try done). b2p.
  unfold frame_size_of, kHeaderSize in *.
  set (h := hdr_of input) in *.
  assert (Hlv : len (rs_value (response_of input)) = h_value_len h).
  { unfold response_of. fold h. cbn [rs_value]. unfold len in *. rewrite length_take, length_drop. lia. }
  split.
  - unfold response_ok. rewrite Hlv. unfold response_of. fold h. cbn [rs_opcode rs_status rs_request_id].
    rewrite named_of_raw, named_status_of_raw. pose proof (field_range 8 8 input) as Hid.
    change (field 8 8 input) with (h_request_id h) in Hid.
    change (field 5 1 input) with (h_opcode h) in *.
    repeat (apply andb_true_iff; split); try done; try (apply Z.leb_le; lia); apply Z.ltb_lt; lia.
  - unfold serialize_response. rewrite serialize_response_into_eq by lia. rewrite app_nil_l.
    assert (Hh : response_header (response_of input) = h).
    { unfold response_header. rewrite Hlv. unfold response_of. fold h. cbn [rs_opcode rs_status rs_request_id].
      rewrite opcode_to_of_raw, status_to_of_raw. unfold h, hdr_of. f_equal; cbn in *; lia. }
    rewrite Hh. unfold response_of. fold h. cbn [rs_value].
    unfold h. rewrite <- header_bytes_of by (unfold len in *; lia || done).
    fold h. replace (24 + h_key_len h + h_value_len h) with (24 + h_value_len h) by lia.
    rewrite !Z2Nat.inj_add by lia. by rewrite <- take_take_drop.
Qed.

(** ** Extension of the input *)

Lemma request_error_app limits input more : kHeaderSize <= len input ->
  request_error limits (input ++ more) = request_error limits input /\
  frame_size_of (input ++ more) = frame_size_of input.
Proof.
  intros H. unfold kHeaderSize, len in H.
  destruct (hdr_of_app input more) as [Hh He]; [lia|].
  unfold request_error, frame_size_of. by rewrite Hh, He.
Qed.

Lemma response_error_app limits input more : kHeaderSize <= len input ->
  response_error limits (input ++ more) = response_error limits input /\
  frame_size_of (input ++ more) = frame_size_of input.
Proof.
  intros H. unfold kHeaderSize, len in H.
  destruct (hdr_of_app input more) as [Hh He]; [lia|].
  unfold response_error, frame_size_of. by rewrite Hh, He.
Qed.

Lemma request_of_app input more : kHeaderSize <= len input -> frame_size_of input <= len input ->
  request_of (input ++ more) = request_of input.
Proof.
  intros H Hf. unfold kHeaderSize, len in H. pose proof (hdr_lens_range input).
  unfold frame_size_of, kHeaderSize, len in Hf.
  unfold request_of. rewrite (proj1 (hdr_of_app input more ltac:(lia))).
  rewrite !drop_app_le, !take_app_le by (rewrite ?length_drop; lia). done.
Qed.

Lemma response_of_app input more : kHeaderSize <= len input -> frame_size_of input <= len input ->
  response_of (input ++ more) = response_of input.
Proof.
  intros H Hf. unfold kHeaderSize, len in H. pose proof (hdr_lens_range input).
  unfold frame_size_of, kHeaderSize, len in Hf.
  unfold response_of. rewrite (proj1 (hdr_of_app input more ltac:(lia))).
  rewrite drop_app_le, take_app_le by (rewrite ?length_drop; lia). done.
Qed.


(** The three outcomes of the reference decoder. *)
Lemma reference_request_cases input limits out :
  (reference_request input limits out = (need_more, out) /\
     (len input < kHeaderSize \/
      (request_error limits input = ParseError.kNone /\ len input < frame_size_of input))) \/
  (kHeaderSize <= len input /\ request_error limits input <> ParseError.kNone /\
     reference_request input limits out = (malformed (request_error limits input), out)) \/
  (kHeaderSize <= len input /\ request_error limits input = ParseError.kNone /\
     frame_size_of input <= len input /\
     reference_request input limits out = (complete (frame_size_of input), request_of input)).
Proof.
  unfold reference_request. destruct (Z.ltb_spec (len input) kHeaderSize); [by auto|].
  destruct (request_error limits input) eqn:He; try (right; left; by eauto).
  destruct (Z.ltb_spec (len input) (frame_size_of input)); [by auto | right; right; by auto].
Qed.

Lemma reference_response_cases input limits out :
  (reference_response input limits out = (need_more, out) /\
     (len input < kHeaderSize \/
      (response_error limits input = ParseError.kNone /\ len input < frame_size_of input))) \/
  (kHeaderSize <= len input /\ response_error limits input <> ParseError.kNone /\
     reference_response input limits out = (malformed (response_error limits input), out)) \/
  (kHeaderSize <= len input /\ response_error limits input = ParseError.kNone /\
     frame_size_of input <= len input /\
     reference_response input limits out = (complete (frame_size_of input), response_of input)).
Proof.
  unfold reference_response. destruct (Z.ltb_spec (len input) kHeaderSize); [by auto|].
  destruct (response_error limits input) eqn:He; try (right; left; by eauto).
  destruct (Z.ltb_spec (len input) (frame_size_of input)); [by auto | right; right; by auto].
Qed.

(** Decoding with a complete frame in front of the input. *)
Lemma deserialize_request_frame limits r rest out : request_ok limits r = true ->
  deserialize_request (serialize_request r ++ rest) limits out
  = Some (complete (len (serialize_request r)), r).
Proof.
  intros H. rewrite deserialize_request_eq. f_equal.
  destruct (request_seen limits r rest H) as [Hh He].
  pose proof (request_frame_lens _ _ rest H) as Hl.
  pose proof (request_frame_lens _ _ [] H) as Hl0. rewrite app_nil_r, len_nil, Z.add_0_r in Hl0.
  pose proof (len_nonneg rest). pose proof (len_nonneg (rq_key r)). pose proof (len_nonneg (rq_value r)).
  assert (Hf : frame_size_of (serialize_request r ++ rest) = len (serialize_request r)).
  { unfold frame_size_of. rewrite Hh, Hl0. done. }
  destruct (reference_request_cases (serialize_request r ++ rest) limits out)
    as [[_ [?|[_ ?]]]|[(_ & ? & _)|(_ & _ & _ & ->)]]; try lia; [done|].
  by rewrite Hf, (request_of_encoded limits).
Qed.

Lemma deserialize_response_frame limits r rest out : response_ok limits r = true ->
  deserialize_response (serialize_response r ++ rest) limits out
  = Some (complete (len (serialize_response r)), r).
Proof.
  intros H. rewrite deserialize_response_eq. f_equal.
  destruct (response_seen limits r rest H) as [Hh He].
  pose proof (response_frame_lens _ _ rest H) as Hl.
  pose proof (response_frame_lens _ _ [] H) as Hl0. rewrite app_nil_r, len_nil, Z.add_0_r in Hl0.
  pose proof (len_nonneg rest). pose proof (len_nonneg (rs_value r)).
  assert (Hf : frame_size_of (serialize_response r ++ rest) = len (serialize_response r)).
  { unfold frame_size_of. rewrite Hh, Hl0. unfold response_header; simpl. lia. }
  destruct (reference_response_cases (serialize_response r ++ rest) limits out)
    as [[_ [?|[_ ?]]]|[(_ & ? & _)|(_ & _ & _ & ->)]]; try lia; [done|].
  by rewrite Hf, (response_of_encoded limits).
Qed.

(** A reported request is well formed and its encoding is what was consumed. *)
Lemma deserialize_request_complete input limits out n r :
  deserialize_request input limits out = Some (complete n, r) ->
  request_ok limits r = true /\ n = len (serialize_request r) /\
  exists rest, input = serialize_request r ++ rest.
Proof.
  rewrite deserialize_request_eq. intros [= H].
  destruct (reference_request_cases input limits out)
    as [[E _]|[(_ & ? & E)|(Hl & He & Hf & E)]]; rewrite E in H; [by simplify_eq..|].
  injection H as <- <-. destruct (request_of_ok limits input Hl He Hf) as [Hok Ht].
  split; [done|]. split.
  - rewrite <- Ht. pose proof (hdr_lens_range input). unfold frame_size_of, kHeaderSize, len in *.
    rewrite length_take. lia.
  - exists (drop (Z.to_nat (frame_size_of input)) input). by rewrite <- Ht, take_drop.
Qed.

Lemma deserialize_response_complete input limits out n r :
  deserialize_response input limits out = Some (complete n, r) ->
  response_ok limits r = true /\ n = len (serialize_response r) /\
  exists rest, input = serialize_response r ++ rest.
Proof.
  rewrite deserialize_response_eq. intros [= H].
  destruct (reference_response_cases input limits out)
    as [[E _]|[(_ & ? & E)|(Hl & He & Hf & E)]]; rewrite E in H; [by simplify_eq..|].
  injection H as <- <-. destruct (response_of_ok limits input Hl He Hf) as [Hok Ht].
  split; [done|]. split.
  - rewrite <- Ht. pose proof (hdr_lens_range input). unfold frame_size_of, kHeaderSize, len in *.
    rewrite length_take. lia.
  - exists (drop (Z.to_nat (frame_size_of input)) input). by rewrite <- Ht, take_drop.
Qed.

Lemma deserialize_request_final input more limits out res r :
  deserialize_request input limits out = Some (res, r) ->
  pr_status res <> ParseStatus.kNeedMoreData ->
  deserialize_request (input ++ more) limits out = Some (res, r).
Proof.
  rewrite !deserialize_request_eq. intros [= H] Hs. f_equal. pose proof (len_nonneg more).
  destruct (reference_request_cases input limits out)
    as [[E _]|[(Hl & He & E)|(Hl & He & Hf & E)]]; rewrite E in H; injection H as <- <-; [done|..];
  destruct (request_error_app limits input more Hl) as [Ha Hb];
  destruct (reference_request_cases (input ++ more) limits out)
    as [[_ [Hc|[Hc1 Hc2]]]|[(Hc & Hc1 & ->)|(Hc & Hc1 & Hc2 & ->)]]; rewrite ?len_app, ?Ha, ?Hb in *; try lia; try done.
  by rewrite request_of_app.
Qed.

Lemma deserialize_request_short input limits out r :
  0 <= max_key_bytes limits -> 0 <= max_value_bytes limits ->
  deserialize_request input limits out = Some (need_more, r) ->
  r = out /\
  len input < kHeaderSize + Z.min (max_key_bytes limits) kMaxKeyBytes
              + Z.min (max_value_bytes limits) kMaxValueBytes.
Proof.
  intros Hk Hv. rewrite deserialize_request_eq. intros [= H].
  destruct (reference_request_cases input limits out)
    as [[E [Hl|[He Hl]]]|[(_ & ? & E)|(_ & _ & _ & E)]]; rewrite E in H; simplify_eq.
  - split; [done|]. unfold kMaxKeyBytes, kMaxValueBytes in *. lia.
  - split; [done|]. unfold request_error in He.
    destruct (hdr_error input); try done. repeat (split_if; try done). b2p.
    unfold frame_size_of in Hl. lia.
Qed.

Lemma deserialize_response_short input limits out res r :
  0 <= max_value_bytes limits -> deserialize_response input limits out = Some (res, r) ->
  pr_status res = ParseStatus.kNeedMoreData ->
  len input < kHeaderSize + Z.min (max_value_bytes limits) kMaxValueBytes.
Proof.
  intros Hv. rewrite deserialize_response_eq. intros [= H] Hs.
  destruct (reference_response_cases input limits out)
    as [[E [Hl|[He Hl]]]|[(_ & ? & E)|(_ & _ & _ & E)]]; rewrite E in H; simplify_eq.
  - unfold kMaxValueBytes in *. lia.
  - unfold response_error in He.
    destruct (hdr_error input); try done. repeat (split_if; try done). b2p.
    unfold frame_size_of in Hl. lia.
Qed.

(** A proper prefix of a response asks for more. *)
Lemma deserialize_response_prefix limits r p q out :
  response_ok limits r = true -> serialize_response r = p ++ q -> q <> [] ->
  deserialize_response p limits out = Some (need_more, out).
Proof.
  intros H Hpq Hq. rewrite deserialize_response_eq. f_equal.
  pose proof (response_frame_lens _ _ [] H) as Hl. rewrite app_nil_r, len_nil, Hpq, len_app in Hl.
  assert (0 < len q) by (destruct q; [done | rewrite len_cons; pose proof (len_nonneg q); lia]).
  destruct (response_seen limits r [] H) as [Hh He]. rewrite app_nil_r, Hpq in Hh, He.
  assert (Hf : kHeaderSize <= len p -> response_error limits p = ParseError.kNone /\
                len p < frame_size_of p).
  { intros Hp. destruct (response_error_app limits p q Hp) as [Ha Hb].
    unfold frame_size_of in Hb at 1. rewrite Hh in Hb. cbn in Hb. rewrite <- Ha. split; [done | lia]. }
  destruct (reference_response_cases p limits out)
    as [[-> _]|[(Hp & Hc & _)|(Hp & _ & Hc & _)]]; [done|..];
  destruct (Hf Hp); [done | lia].
Qed.

(** The response parser always answers, and changes [out] only for a complete frame. *)
Lemma deserialize_response_outcome input limits out : exists res r,
  deserialize_response input limits out = Some (res, r) /\
  (pr_status res = ParseStatus.kComplete -> res = complete (pr_consumed res)) /\
  (pr_status res <> ParseStatus.kComplete -> r = out) /\
  (pr_status res = ParseStatus.kNeedMoreData -> res = need_more).
Proof.
  rewrite deserialize_response_eq. destruct (reference_response_cases input limits out)
    as [[-> _]|[(_ & _ & ->)|(_ & _ & _ & ->)]]; eexists _, _; split_and!; try done.
Qed.

(** ** The STATS fields as lenses *)

Lemma stats_field_laws i j fi fj v s :
  kStatsFields !! i = Some fi -> kStatsFields !! j = Some fj ->
  fld_get fi (fld_set fj v s) = if decide (i = j) then v else fld_get fi s.
Proof.
  intros Hi Hj.
  do 14 (destruct i as [|i]; [injection Hi as <-;
    do 14 (destruct j as [|j]; [injection Hj as <-; reflexivity|]); done|]).
  done.
Qed.

Lemma stats_ext s s' :
  (forall i f, kStatsFields !! i = Some f -> fld_get f s = fld_get f s') -> s = s'.
Proof.
  intros H. destruct s, s'. f_equal;
  [ exact (H 0%nat _ eq_refl) | exact (H 1%nat _ eq_refl) | exact (H 2%nat _ eq_refl)
  | exact (H 3%nat _ eq_refl) | exact (H 4%nat _ eq_refl) | exact (H 5%nat _ eq_refl)
  | exact (H 6%nat _ eq_refl) | exact (H 7%nat _ eq_refl) | exact (H 8%nat _ eq_refl)
  | exact (H 9%nat _ eq_refl) | exact (H 10%nat _ eq_refl) | exact (H 11%nat _ eq_refl)
  | exact (H 12%nat _ eq_refl) | exact (H 13%nat _ eq_refl) ].
Qed.

Lemma read_stats_loop_spec input n k out :
  (k + n <= 14)%nat -> (2 + 8 * (k + n) <= length input)%nat ->
  exists out', read_stats_loop n (drop k kStatsFields) (drop (2 + 8 * k) input) out = Some out' /\
    forall i f, kStatsFields !! i = Some f ->
      fld_get f out' = if decide (k <= i < k + n)%nat then field (2 + 8 * i) 8 input
                       else fld_get f out.
Proof.
  revert k out. induction n as [|n IH]; intros k out Hk Hl.
  { exists out. split; [done|]. intros i f _. case_decide; [lia | done]. }
  cbn [read_stats_loop].
  destruct (lookup_lt_is_Some_2 kStatsFields k) as [fk Hfk]; [simpl; lia|].
  rewrite (drop_S _ _ _ Hfk). rewrite read_u64_eq.
  change (drop (2 + 8 * k) input) with (ptr_add input (2 + 8 * k)).
  rewrite read_be_field by lia. cbn [mbind option_bind].
  unfold ptr_add. rewrite drop_drop. replace (2 + 8 * k + 8)%nat with (2 + 8 * S k)%nat by lia.
  destruct (IH (S k) (fld_set fk (field (2 + 8 * k) 8 input) out)) as (out' & -> & Ho); [lia..|].
  exists out'. split; [done|]. intros i f Hf. rewrite (Ho i f Hf), (stats_field_laws i k f fk _ _ Hf Hfk).
  repeat case_decide; subst; done || lia.
Qed.

(** Exact behaviour of the STATS reader on every payload. *)
Lemma deserialize_stats_spec input out :
  exists b s, deserialize_stats input out = Some (b, s) /\
    b = (2 <=? len input) && (2 + field 0 2 input * 8 <=? len input) /\
    (b = false -> s = out) /\
    (b = true -> forall i f, kStatsFields !! i = Some f ->
       fld_get f s = if decide (Z.of_nat i < field 0 2 input) then field (2 + 8 * i) 8 input
                     else fld_get f out).
Proof.
  unfold deserialize_stats.
  destruct (Z.ltb_spec (len input) 2), (Z.leb_spec 2 (len input)); try lia.
  { by exists false, out. }
  rewrite read_u16_eq, read_be_field0 by (unfold len in *; lia). cbn [mbind option_bind andb].
  set (count := field 0 2 input).
  pose proof (field_range 0 2 input) as Hc. fold count in Hc.
  destruct (Z.ltb_spec (len input) (2 + count * 8)), (Z.leb_spec (2 + count * 8) (len input)); try lia.
  { by exists false, out. }
  change (len kStatsFields) with 14.
  destruct (read_stats_loop_spec input (Z.to_nat (Z.min count 14)) 0 out)
    as (s & Hs & Hf); [lia | unfold len in *; lia |].
  change (drop 0 kStatsFields) with kStatsFields in Hs.
  unfold ptr_add. change (2 + 8 * 0)%nat with 2%nat in Hs. rewrite Hs.
  exists true, s. repeat split; [done|]. intros _ i f Hi. rewrite (Hf i f Hi).
  pose proof (lookup_lt_Some _ _ _ Hi) as Hlt. change (length kStatsFields) with 14%nat in Hlt.
  repeat case_decide; done || lia.
Qed.

Lemma serialize_stats_eq s :
  serialize_stats s = be_split 2 14 ++ concat (map (fun f => be_split 8 (fld_get f s)) kStatsFields).
Proof.
  unfold serialize_stats. rewrite append_u16_eq. change (u16 (len kStatsFields)) with 14.
  generalize (be_split 2 14) as out. generalize kStatsFields as fs.
  intros fs out. simpl app. revert out. induction fs as [|f fs IH]; intros out; simpl.
  - by rewrite app_nil_r.
  - by rewrite IH, append_u64_eq, <- app_assoc.
Qed.

(** The [i]-th 8-byte slot of a sequence of encoded integers. *)
Lemma field_slot (g : StatsField -> Z) fs i f rest : fs !! i = Some f ->
  field (8 * i) 8 (concat (map (fun f => be_split 8 (g f)) fs) ++ rest) = u64 (g f).
Proof.
  revert i. induction fs as [|f' fs IH]; intros [|i] H; try done; cbn [map concat]; rewrite <- app_assoc.
  - injection H as <-. apply field_head.
  - rewrite field_skip by lia. replace (8 * S i - 8)%nat with (8 * i)%nat by lia. by apply IH.
Qed.

(** A snapshot whose counters are 64-bit values. *)
Definition stats_ok (s : StatsSnapshot) : Prop :=
  Forall (fun f => 0 <= fld_get f s < 2 ^ 64) kStatsFields.

Lemma stats_decoded s out : stats_ok s ->
  deserialize_stats (serialize_stats s) out = Some (true, s).
Proof.
  intros Hs. destruct (deserialize_stats_spec (serialize_stats s) out) as (b & s' & -> & Hb & _ & Hf).
  rewrite serialize_stats_eq in *.
  assert (Hc : field 0 2 (be_split 2 14 ++ concat (map (fun f => be_split 8 (fld_get f s)) kStatsFields)) = 14)
    by (rewrite field_head; done).
  rewrite Hc in *. replace b with true in * by (rewrite Hb; by vm_compute).
  do 2 f_equal. apply stats_ext. intros i f Hi. rewrite (Hf eq_refl i f Hi).
  pose proof (lookup_lt_Some _ _ _ Hi) as Hlt. change (length kStatsFields) with 14%nat in Hlt.
  case_decide; [|lia]. rewrite field_skip by lia. replace (2 + 8 * i - 2)%nat with (8 * i)%nat by lia.
  rewrite <- (app_nil_r (concat _)), (field_slot (fun f => fld_get f s) _ _ f) by done.
  apply u64_small. by apply (Forall_lookup_1 _ _ i f Hs Hi).
Qed.

Lemma request_frame_max limits r : request_ok limits r = true ->
  len (serialize_request r) <= kMaxFrameBytes.
Proof.
  intros H. pose proof (request_ok_lens _ _ H). pose proof (request_frame_lens limits r [] H) as Hl.
  rewrite app_nil_r, len_nil in Hl. unfold kMaxFrameBytes. lia.
Qed.

(** ** Properties *)

(** C36: the request parser never reads outside its input, and on every input
    it gives the answer of the reference decoder: the documented fixed-offset
    fields, the checks in order, the payload slices, and no wrapped size. *)
Theorem deserialize_request_reference input limits out :
  deserialize_request input limits out = Some (reference_request input limits out).
Proof. apply deserialize_request_eq. Qed.

(** C10: a request that satisfies the receiver's limits, encoded and followed
    by any bytes, is parsed back unchanged, and exactly its bytes are consumed. *)
Theorem request_roundtrip limits r rest out :
  request_ok limits r = true ->
  deserialize_request (serialize_request r ++ rest) limits out
  = Some (complete (len (serialize_request r)), r).
Proof. apply deserialize_request_frame. Qed.

Lemma request_roundtrip_witness :
  let r := mkRequest Opcode.kPut 0x1020304050607080 [Byte.x6b; Byte.x00; Byte.x79]
             [Byte.x00; Byte.xff; Byte.x01] in
  deserialize_request (serialize_request r ++ [Byte.x4c]) default_limits default_request
  = Some (complete 30, r).
Proof.
  apply (request_roundtrip default_limits
    (mkRequest Opcode.kPut 0x1020304050607080 [Byte.x6b; Byte.x00; Byte.x79]
       [Byte.x00; Byte.xff; Byte.x01]) [Byte.x4c] default_request).
  vm_compute. reflexivity.
Defined.

(** the parser accepts nothing else.  A reported request satisfies the
    limits, and the bytes consumed are its one encoding: magic, version, zero
    flags and status, echoed lengths, key, value. *)
Theorem request_canonical input limits out n r :
  deserialize_request input limits out = Some (complete n, r) ->
  request_ok limits r = true /\ n = len (serialize_request r) /\
  exists rest, input = serialize_request r ++ rest.
Proof. apply deserialize_request_complete. Qed.

Lemma request_canonical_witness :
  let r := mkRequest Opcode.kGet 2 [Byte.x6b] [] in
  let input := serialize_request r ++ [Byte.x01; Byte.x02] in
  request_ok default_limits r = true /\ 25 = len (serialize_request r) /\
  exists rest, input = serialize_request r ++ rest.
Proof.
  apply (request_canonical (serialize_request (mkRequest Opcode.kGet 2 [Byte.x6b] []) ++ [Byte.x01; Byte.x02])
           default_limits default_request 25 (mkRequest Opcode.kGet 2 [Byte.x6b] [])).
  vm_compute. reflexivity.
Defined.

(** truncation is not an error.  Every proper prefix of a well-formed
    request asks for more data, and leaves the caller's request untouched. *)
Theorem request_prefix_needs_more limits r p q out :
  request_ok limits r = true -> serialize_request r = p ++ q -> q <> [] ->
  deserialize_request p limits out = Some (need_more, out).
Proof.
  intros H Hpq Hq. rewrite deserialize_request_eq. f_equal.
  pose proof (request_frame_lens _ _ [] H) as Hl. rewrite app_nil_r, len_nil, Hpq, len_app in Hl.
  assert (0 < len q) by (destruct q; [done | rewrite len_cons; pose proof (len_nonneg q); lia]).
  destruct (request_seen limits r [] H) as [Hh He]. rewrite app_nil_r, Hpq in Hh, He.
  assert (Hf : kHeaderSize <= len p -> request_error limits p = ParseError.kNone /\
                len p < frame_size_of p).
  { intros Hp. destruct (request_error_app limits p q Hp) as [Ha Hb].
    unfold frame_size_of in Hb at 1. rewrite Hh in Hb. cbn in Hb. rewrite <- Ha. split; [done | lia]. }
  destruct (reference_request_cases p limits out)
    as [[-> _]|[(Hp & Hc & _)|(Hp & _ & Hc & _)]]; [done|..];
  destruct (Hf Hp); [done | lia].
Qed.

Lemma request_prefix_needs_more_witness :
  deserialize_request (take 26 (serialize_request
      (mkRequest Opcode.kPut 7 [Byte.x61; Byte.x62; Byte.x63] [Byte.x64]))) default_limits
    default_request = Some (need_more, default_request).
Proof.
  apply (request_prefix_needs_more default_limits
           (mkRequest Opcode.kPut 7 [Byte.x61; Byte.x62; Byte.x63] [Byte.x64]) _
           [Byte.x63; Byte.x64]); [vm_compute; reflexivity .. | discriminate].
Defined.

(** a verdict is final.  Once the parser reports a complete or malformed
    frame, the bytes that arrive later do not change it: errors are reported
    from the header alone, before the payload has to be there. *)
Theorem request_verdict_final input more limits out res r :
  deserialize_request input limits out = Some (res, r) ->
  pr_status res <> ParseStatus.kNeedMoreData ->
  deserialize_request (input ++ more) limits out = Some (res, r).
Proof. apply deserialize_request_final. Qed.

Lemma request_verdict_final_witness :
  deserialize_request (take 24 (serialize_request (mkRequest Opcode.kPut 1 [] [Byte.x61])) ++ [Byte.x00])
    default_limits default_request = Some (malformed ParseError.kMissingKey, default_request).
Proof.
  apply request_verdict_final; [vm_compute; reflexivity | discriminate].
Defined.

(** a parser that waits holds a bounded amount of input: less than one
    frame of the largest key and value the limits allow. *)
Theorem request_need_more_bound input limits out r :
  0 <= max_key_bytes limits -> 0 <= max_value_bytes limits ->
  deserialize_request input limits out = Some (need_more, r) ->
  r = out /\
  len input < kHeaderSize + Z.min (max_key_bytes limits) kMaxKeyBytes
              + Z.min (max_value_bytes limits) kMaxValueBytes.
Proof. apply deserialize_request_short. Qed.

Lemma request_need_more_bound_witness :
  let input := take 30 (serialize_request (mkRequest Opcode.kPut 7 [Byte.x61] (replicate 100 Byte.x62))) in
  default_request = default_request /\
  len input < kHeaderSize + Z.min 1024 kMaxKeyBytes + Z.min 4096 kMaxValueBytes.
Proof.
  apply (request_need_more_bound _ (mkLimits 1024 4096) default_request);
    [vm_compute; congruence .. | vm_compute; reflexivity].
Defined.

(** C37: responses: the client parser accepts exactly the encodings of
    well-formed responses, in front of any further bytes. *)
Theorem response_roundtrip_canonical limits out :
  (forall r rest, response_ok limits r = true ->
     deserialize_response (serialize_response r ++ rest) limits out
     = Some (complete (len (serialize_response r)), r)) /\
  (forall input n r, deserialize_response input limits out = Some (complete n, r) ->
     response_ok limits r = true /\ n = len (serialize_response r) /\
     exists rest, input = serialize_response r ++ rest).
Proof.
  split; [intros; by apply deserialize_response_frame | intros *; apply deserialize_response_complete].
Qed.

(** a STATS payload is decoded to the snapshot that was encoded, whatever
    the reader's record held before. *)
Theorem stats_roundtrip s out : stats_ok s ->
  deserialize_stats (serialize_stats s) out = Some (true, s).
Proof. apply stats_decoded. Qed.

Lemma stats_roundtrip_witness :
  let s := mkStatsSnapshot 12 0 3 0 8 2 999 100 1 4 17 0 0 1234 in
  deserialize_stats (serialize_stats s) default_stats = Some (true, s).
Proof.
  apply (stats_roundtrip (mkStatsSnapshot 12 0 3 0 8 2 999 100 1 4 17 0 0 1234)).
  repeat constructor; vm_compute; congruence.
Defined.

(** version tolerance of STATS.  On any payload the reader stays inside
    its input; it fails only on a payload shorter than its announced field
    count, leaving the record alone; otherwise field [i] is the [i]-th
    announced counter, and the fields the sender did not announce keep their
    value, announced fields beyond the fourteen known ones being skipped. *)
Theorem stats_version_tolerant input out :
  exists b s, deserialize_stats input out = Some (b, s) /\
    b = (2 <=? len input) && (2 + field 0 2 input * 8 <=? len input) /\
    (b = false -> s = out) /\
    (b = true -> forall i f, kStatsFields !! i = Some f ->
       fld_get f s = if decide (Z.of_nat i < field 0 2 input) then field (2 + 8 * i) 8 input
                     else fld_get f out).
Proof. apply deserialize_stats_spec. Qed.
