(* ===== verification/CacheSpec.v ===== *)
(** * The contract of the cache: a bounded map in recency order

    The data types of include/cache/lru_cache.h that clients see, an abstract
    cache (a list of key-value pairs, most recently used first, under three
    limits), and the interface a cache implementation offers the server.  The
    abstract cache knows nothing of nodes, iterators or counters; LruCache.v
    proves that the implementation refines it. *)

From S2P Require Import Prelude.

Record CacheLimits := mkCacheLimits {
  cl_max_entries : Z;
  cl_max_bytes : Z;
  cl_max_value_bytes : Z;
}.

Module PutStatus.
Inductive t : Set := kStored | kValueTooLarge | kEntryTooLarge.
End PutStatus.

Record CacheSnapshot := mkCacheSnapshot {
  cs_entries : Z;
  cs_bytes : Z;
  cs_payload_bytes : Z;
  cs_evictions : Z;
}.

#[export] Instance put_status_eq_dec : EqDecision PutStatus.t.
Proof. solve_decision. Defined.
#[export] Instance cache_snapshot_eq_dec : EqDecision CacheSnapshot.
Proof. solve_decision. Defined.

Definition kEntryOverheadBytes : Z := 128.

(** ** The abstract cache *)

Module Spec.

(** Entries, most recently used first. *)
Abbreviation entries := (list (bytes * bytes)) (only parsing).

Definition payload (e : bytes * bytes) : Z := len e.1 + len e.2.
Definition cost (e : bytes * bytes) : Z := payload e + kEntryOverheadBytes.

Definition total (f : bytes * bytes -> Z) (l : entries) : Z :=
  foldr (fun e acc => f e + acc) 0 l.

Record state := mkState {
  limits : CacheLimits;
  contents : entries;
  evicted : Z;  (* evictions since the cache was created, modulo 2^64 *)
}.

Definition empty (limits : CacheLimits) : state := mkState limits [] 0.

Fixpoint find (k : bytes) (l : entries) : option bytes :=
  match l with
  | [] => None
  | e :: l => if decide (e.1 = k) then Some e.2 else find k l
  end.

Definition remove (k : bytes) (l : entries) : entries := filter (fun e => e.1 <> k) l.

(** The longest prefix with at most [n] entries and [b] accounted bytes. *)
Fixpoint keep (n b : Z) (l : entries) : entries :=
  match l with
  | [] => []
  | e :: l => if (1 <=? n) && (cost e <=? b) then e :: keep (n - 1) (b - cost e) l else []
  end.

Definition get (s : state) (k : bytes) : option bytes * state :=
  match find k (contents s) with
  | Some v => (Some v, mkState (limits s) ((k, v) :: remove k (contents s)) (evicted s))
  | None => (None, s)
  end.

Definition put (s : state) (k v : bytes) : PutStatus.t * state :=
  if cl_max_value_bytes (limits s) <? len v then (PutStatus.kValueTooLarge, s) else
  if (cl_max_bytes (limits s) <? cost (k, v)) || (cl_max_entries (limits s) =? 0)
  then (PutStatus.kEntryTooLarge, s) else
  let others := remove k (contents s) in
  let kept := keep (cl_max_entries (limits s) - 1) (cl_max_bytes (limits s) - cost (k, v)) others in
  (PutStatus.kStored,
   mkState (limits s) ((k, v) :: kept) (u64 (evicted s + (len others - len kept)))).

Definition erase (s : state) (k : bytes) : bool * state :=
  match find k (contents s) with
  | Some _ => (true, mkState (limits s) (remove k (contents s)) (evicted s))
  | None => (false, s)
  end.

Definition contains (s : state) (k : bytes) : bool :=
  match find k (contents s) with Some _ => true | None => false end.

Definition clear (s : state) : state := mkState (limits s) [] (evicted s).

Definition snapshot (s : state) : CacheSnapshot :=
  mkCacheSnapshot (len (contents s)) (total cost (contents s)) (total payload (contents s))
    (evicted s).

(** What holds of every abstract cache: no key twice, all limits respected. *)
Record ok (s : state) : Prop := mkOk {
  ok_nodup : NoDup (contents s).*1;
  ok_entries : len (contents s) <= cl_max_entries (limits s);
  ok_bytes : total cost (contents s) <= cl_max_bytes (limits s);
  ok_values : Forall (fun e => len e.2 <= cl_max_value_bytes (limits s)) (contents s);
  ok_evicted : 0 <= evicted s < 2 ^ 64;
}.

(** ** Lemmas *)

Lemma cost_pos e : 128 <= cost e.
Proof.
  unfold cost, payload, kEntryOverheadBytes. pose proof (len_nonneg e.1). pose proof (len_nonneg e.2). lia.
Qed.

Lemma total_app f l k : total f (l ++ k) = total f l + total f k.
Proof. induction l; simpl; lia. Qed.

Lemma total_nonneg l : 128 * len l <= total cost l.
Proof.
  induction l as [|e l IH]; [done|]. rewrite len_cons. simpl. pose proof (cost_pos e). lia.
Qed.

Lemma total_payload_nonneg l : 0 <= total payload l.
Proof.
  induction l as [|e l IH]; [done|]. simpl. unfold payload at 1.
  pose proof (len_nonneg e.1). pose proof (len_nonneg e.2). lia.
Qed.

Lemma total_payload_le l : total payload l <= total cost l.
Proof.
  induction l as [|e l IH]; [done|]. simpl.
  assert (payload e <= cost e) by (unfold cost, kEntryOverheadBytes; lia). lia.
Qed.

Lemma find_Some k v l : find k l = Some v -> (k, v) ∈ l.
Proof.
  induction l as [|[k' v'] l IH]; simpl; [done|]. case_decide; simpl in *.
  - intros [= <-]. subst. by left.
  - intros ?. right. auto.
Qed.

Lemma find_None k l : find k l = None <-> k ∉ l.*1.
Proof.
  induction l as [|[k' v'] l IH]; simpl; [set_solver|].
  rewrite not_elem_of_cons. case_decide; simpl in *; [naive_solver | rewrite IH; naive_solver].
Qed.

Lemma find_elem k v l : NoDup l.*1 -> (k, v) ∈ l -> find k l = Some v.
Proof.
  induction l as [|[k' v'] l IH]; simpl; intros Hn Hin; [set_solver|].
  apply NoDup_cons in Hn as [Hk Hn]. apply elem_of_cons in Hin as [[= <- <-]|Hin].
  - by rewrite decide_True.
  - rewrite decide_False; [by auto|]. intros ->. apply Hk.
    apply list_elem_of_fmap. by exists (k, v).
Qed.

Lemma find_remove_ne k k' l : k <> k' -> find k (remove k' l) = find k l.
Proof.
  intros Hne. induction l as [|[k'' v] l IH]; [done|]. unfold remove in *.
  rewrite filter_cons. simpl. repeat case_decide; simpl in *; subst; simplify_eq; try done;
  rewrite ?decide_False, ?decide_True by done; done.
Qed.

Lemma remove_fresh k l : k ∉ l.*1 -> remove k l = l.
Proof.
  induction l as [|[k' v] l IH]; simpl; intros H; [done|]. unfold remove in *.
  rewrite filter_cons, decide_True by set_solver. f_equal. apply IH. set_solver.
Qed.

Lemma remove_not_in k l : k ∉ (remove k l).*1.
Proof.
  intros Hin. apply list_elem_of_fmap in Hin as ([k' v] & -> & Hin).
  apply list_elem_of_filter in Hin as [Hne _]. done.
Qed.

Lemma remove_sublist k l : remove k l `sublist_of` l.
Proof. apply sublist_filter. Qed.

Lemma sublist_total l l' : l `sublist_of` l' -> total cost l <= total cost l' /\ len l <= len l'.
Proof.
  induction 1 as [|e l l' _ IH|e l l' _ IH]; rewrite ?len_cons; simpl;
  [done | lia | pose proof (cost_pos e); lia].
Qed.

(** A list within [n] entries and [b] bytes. *)
Definition fits (n b : Z) (l : entries) : Prop := len l <= n /\ total cost l <= b.

Lemma keep_prefix n b l : keep n b l `prefix_of` l.
Proof.
  revert n b. induction l as [|e l IH]; intros n b; simpl; [done|].
  split_if; [by apply prefix_cons, IH | apply prefix_nil].
Qed.

Lemma keep_fits n b l : 0 <= n -> 0 <= b -> fits n b (keep n b l).
Proof.
  unfold fits. revert n b. induction l as [|e l IH]; intros n b Hn Hb; simpl; [done|].
  split_if; b2p; [|done]. rewrite len_cons. simpl. specialize (IH (n - 1) (b - cost e)). lia.
Qed.

Lemma keep_all n b l : fits n b l -> keep n b l = l.
Proof.
  unfold fits. revert n b. induction l as [|e l IH]; intros n b [Hn Hb]; simpl; [done|].
  rewrite len_cons in Hn. simpl in Hb. pose proof (len_nonneg l). pose proof (total_nonneg l).
  split_if; b2p; [|lia]. f_equal. apply IH. lia.
Qed.

(** Dropping the last entry of a list that does not fit loses nothing. *)
Lemma keep_snoc n b l e : ~ fits n b (l ++ [e]) -> keep n b (l ++ [e]) = keep n b l.
Proof.
  unfold fits. revert n b. induction l as [|e' l IH]; intros n b Hf; simpl in *.
  - split_if; b2p; [|done]. exfalso. apply Hf. unfold len. simpl. lia.
  - split_if; b2p; [|done]. f_equal. apply IH. intros [? ?]. apply Hf. rewrite len_cons. lia.
Qed.

(** No longer prefix fits: evicting less would break a limit. *)
Lemma keep_longest n b l p : p `prefix_of` l -> fits n b p -> p `prefix_of` keep n b l.
Proof.
  unfold fits. revert n b p. induction l as [|e l IH]; intros n b p Hp Hf.
  { by apply prefix_nil_inv in Hp as ->. }
  destruct p as [|e' p]; [apply prefix_nil|].
  pose proof (prefix_cons_inv_1 _ _ _ _ Hp) as ->. apply prefix_cons_inv_2 in Hp.
  rewrite len_cons in Hf. simpl in *. pose proof (total_nonneg p). pose proof (len_nonneg p).
  split_if; b2p; [|lia]. apply prefix_cons, IH; [done | lia].
Qed.

Lemma fits_prefix n b p l : p `prefix_of` l -> fits n b l -> fits n b p.
Proof.
  intros [q ->]. unfold fits. rewrite len_app, total_app. pose proof (len_nonneg q). pose proof (total_nonneg q). lia.
Qed.

Lemma remove_split a k v b : NoDup (a ++ (k, v) :: b).*1 -> remove k (a ++ (k, v) :: b) = a ++ b.
Proof.
  rewrite fmap_app, fmap_cons. intros (_ & Hd & Hn)%NoDup_app. apply NoDup_cons in Hn as [Hn _].
  unfold remove. rewrite filter_app, filter_cons, decide_False by (simpl; auto).
  f_equal; apply filter_all, Forall_forall; intros [k' v'] Hin Heq; simpl in *; subst.
  - apply (Hd k); [apply list_elem_of_fmap; by exists (k, v') | by left].
  - apply Hn, list_elem_of_fmap. by exists (k, v').
Qed.

Lemma find_split k v l : find k l = Some v -> exists a b, l = a ++ (k, v) :: b.
Proof. intros H. apply list_elem_of_split. by apply find_Some. Qed.

(** Dropping entries keeps a cache within its limits. *)
Lemma ok_sublist s l ev : ok s -> l `sublist_of` contents s -> 0 <= ev < 2 ^ 64 ->
  ok (mkState (limits s) l ev).
Proof.
  intros [Hn He Hb Hv _] Hs Hev. destruct (sublist_total _ _ Hs) as [? ?].
  split; simpl; try lia.
  - eapply sublist_NoDup; [done|]. by apply fmap_sublist.
  - by eapply sublist_Forall.
Qed.

Lemma ok_empty limits : 0 <= cl_max_entries limits -> 0 <= cl_max_bytes limits -> ok (empty limits).
Proof. intros. split; simpl; try done; [by constructor]. Qed.
End Spec.

(** ** The interface to the server

    The operations [Server::handle_job] and [Server::stats_snapshot] call, and
    what an implementation promises about them: called in a good state they
    do not run into undefined behaviour, they answer what the abstract cache
    answers, and they lead to a good state. *)

Class CacheOps (C : Type) := {
  cache_get : C -> bytes -> bytes -> option (bool * bytes * C);
  cache_put : C -> bytes -> bytes -> option (PutStatus.t * C);
  cache_erase : C -> bytes -> option (bool * C);
  cache_clear : C -> C;
  cache_snapshot : C -> CacheSnapshot;
}.

Class CacheContract (C : Type) `{!CacheOps C} := {
  cache_good : C -> Prop;
  cache_abs : C -> Spec.state;
  cache_good_ok c : cache_good c -> Spec.ok (cache_abs c);
  cache_get_refines c k out : cache_good c ->
    exists found v c', cache_get c k out = Some (found, v, c') /\ cache_good c' /\
      Spec.get (cache_abs c) k = ((if found then Some v else None), cache_abs c') /\
      (found = false -> v = out);
  cache_put_refines c k v : cache_good c -> len k + len v + kEntryOverheadBytes < 2 ^ 64 ->
    exists st c', cache_put c k v = Some (st, c') /\ cache_good c' /\
      Spec.put (cache_abs c) k v = (st, cache_abs c');
  cache_erase_refines c k : cache_good c ->
    exists b c', cache_erase c k = Some (b, c') /\ cache_good c' /\
      Spec.erase (cache_abs c) k = (b, cache_abs c');
  cache_clear_refines c : cache_good c ->
    cache_good (cache_clear c) /\ cache_abs (cache_clear c) = Spec.clear (cache_abs c);
  cache_snapshot_refines c : cache_good c ->
    cache_snapshot c = Spec.snapshot (cache_abs c);
}.
