(* ===== verification/SpecHistory.v ===== *)
(** * Histories of operations on the abstract cache

    The operations clients see, their answers, runs of the abstract cache of
    CacheSpec.v, and what a history of operations and answers says about
    recency and about the value last stored under each key. *)

From S2P Require Import Prelude CacheSpec.

Inductive Op :=
  | OGet (k : bytes)
  | OPut (k v : bytes)
  | OErase (k : bytes)
  | OContains (k : bytes)
  | OClear.

Inductive Answer :=
  | AGet (v : option bytes)
  | APut (st : PutStatus.t)
  | AErase (b : bool)
  | AContains (b : bool)
  | AUnit.

(** One operation on the abstract cache. *)
Definition spec_op (s : Spec.state) (o : Op) : Answer * Spec.state :=
  match o with
  | OGet k => let '(v, s) := Spec.get s k in (AGet v, s)
  | OPut k v => let '(st, s) := Spec.put s k v in (APut st, s)
  | OErase k => let '(b, s) := Spec.erase s k in (AErase b, s)
  | OContains k => (AContains (Spec.contains s k), s)
  | OClear => (AUnit, Spec.clear s)
  end.

Fixpoint spec_run (s : Spec.state) (ops : list Op) : list Answer * Spec.state :=
  match ops with
  | [] => ([], s)
  | o :: ops => let '(a, s) := spec_op s o in let '(l, s) := spec_run s ops in (a :: l, s)
  end.

(** ** Ghost histories

    [recency] lists the keys touched by a hit or a store, the last one first,
    without repetitions; [latest] holds what was last stored under each key
    and not erased or cleared since. *)

Definition touched (a : Answer) (o : Op) : option bytes :=
  match o, a with
  | OGet k, AGet (Some _) => Some k
  | OPut k _, APut PutStatus.kStored => Some k
  | _, _ => None
  end.

Definition touch (k : option bytes) (log : list bytes) : list bytes :=
  match k with Some k => k :: filter (fun k' => k' <> k) log | None => log end.

Fixpoint recency (ops : list Op) (answers : list Answer) (log : list bytes) : list bytes :=
  match ops, answers with
  | o :: ops, a :: answers => recency ops answers (touch (touched a o) log)
  | _, _ => log
  end.

Definition record (o : Op) (a : Answer) (m : gmap bytes bytes) : gmap bytes bytes :=
  match o, a with
  | OPut k v, APut PutStatus.kStored => <[k := v]> m
  | OErase k, _ => delete k m
  | OClear, _ => ∅
  | _, _ => m
  end.

Fixpoint latest (ops : list Op) (answers : list Answer) (m : gmap bytes bytes) : gmap bytes bytes :=
  match ops, answers with
  | o :: ops, a :: answers => latest ops answers (record o a m)
  | _, _ => m
  end.

Lemma spec_limits s o : Spec.limits (spec_op s o).2 = Spec.limits s.
Proof.
  destruct o; simpl; unfold Spec.get, Spec.put, Spec.erase; try done;
  repeat (case_match || split_if); simplify_eq; done.
Qed.

Lemma spec_run_limits s ops : Spec.limits (spec_run s ops).2 = Spec.limits s.
Proof.
  revert s. induction ops as [|o ops IH]; intros s; simpl; [done|].
  pose proof (spec_limits s o) as Hl. destruct (spec_op s o) as [a s1]. simpl in Hl.
  specialize (IH s1). destruct (spec_run s1 ops) as [l s2]. simpl in *. congruence.
Qed.

(** *** Recency *)

Lemma filter_sublist_mono {A} (P : A -> Prop) `{forall x, Decision (P x)} l k :
  l `sublist_of` k -> filter P l `sublist_of` filter P k.
Proof.
  induction 1 as [|x l k _ IH|x l k _ IH]; [done|..]; rewrite !filter_cons;
  repeat case_decide; auto using sublist_skip, sublist_cons.
Qed.

Lemma remove_keys k l : (Spec.remove k l).*1 = filter (fun k' => k' <> k) l.*1.
Proof.
  unfold Spec.remove. induction l as [|e l IH]; [done|]. csimpl. rewrite !filter_cons.
  case_decide; csimpl; by rewrite IH.
Qed.

Lemma prefix_sublist {A} (l k : list A) : l `prefix_of` k -> l `sublist_of` k.
Proof. intros [r ->]. apply sublist_inserts_r. done. Qed.

(** The keys of the cache follow the recency log. *)
Lemma spec_op_recency s o log : (Spec.contents s).*1 `sublist_of` log ->
  (Spec.contents (spec_op s o).2).*1 `sublist_of` touch (touched (spec_op s o).1 o) log.
Proof.
  intros Hs. destruct o as [k|k v|k|k|]; simpl.
  - unfold Spec.get. destruct (Spec.find k (Spec.contents s)); [|done]. simpl.
    constructor. rewrite remove_keys. by apply filter_sublist_mono.
  - unfold Spec.put. do 2 (split_if; [done|]). simpl.
    constructor. etrans; [apply fmap_sublist, prefix_sublist, Spec.keep_prefix|].
    rewrite remove_keys. by apply filter_sublist_mono.
  - unfold Spec.erase. destruct (Spec.find k (Spec.contents s)); [|done]. simpl.
    etrans; [apply fmap_sublist, Spec.remove_sublist | done].
  - done.
  - apply sublist_nil_l.
Qed.

Lemma spec_run_recency s ops log : (Spec.contents s).*1 `sublist_of` log ->
  (Spec.contents (spec_run s ops).2).*1 `sublist_of` recency ops (spec_run s ops).1 log.
Proof.
  revert s log. induction ops as [|o ops IH]; intros s log Hs; simpl; [done|].
  pose proof (spec_op_recency s o log Hs) as H1. destruct (spec_op s o) as [a s1]. simpl in H1.
  specialize (IH s1 _ H1). by destruct (spec_run s1 ops) as [l s2].
Qed.

(** *** Freshness *)

(** Everything the cache holds is the latest value of its key. *)
Definition fresh_in (m : gmap bytes bytes) (l : list (bytes * bytes)) : Prop :=
  Forall (fun e => m !! e.1 = Some e.2) l.

Lemma fresh_delete m k l : fresh_in m l -> fresh_in (delete k m) (Spec.remove k l).
Proof.
  unfold fresh_in. rewrite !Forall_forall. intros H e [Hne Hin]%list_elem_of_filter.
  rewrite lookup_delete_ne by done. auto.
Qed.

Lemma fresh_insert m k v l : fresh_in m l -> fresh_in (<[k := v]> m) (Spec.remove k l).
Proof.
  unfold fresh_in. rewrite !Forall_forall. intros H e [Hne Hin]%list_elem_of_filter.
  rewrite lookup_insert_ne by done. auto.
Qed.

Lemma spec_op_fresh s o m : fresh_in m (Spec.contents s) ->
  fresh_in (record o (spec_op s o).1 m) (Spec.contents (spec_op s o).2) /\
  (forall k v, o = OGet k -> (spec_op s o).1 = AGet (Some v) -> m !! k = Some v).
Proof.
  intros Hf. destruct o as [k|k v|k|k|]; simpl; split; try done.
  - unfold Spec.get. destruct (Spec.find k (Spec.contents s)) as [v|] eqn:Hk; [|done]. simpl.
    apply Spec.find_Some in Hk. unfold fresh_in in *. rewrite Forall_forall in Hf.
    constructor; [by apply (Hf (k, v))|]. apply Forall_forall.
    intros e [_ Hin]%list_elem_of_filter. auto.
  - unfold Spec.get. intros k' v [= <-]. destruct (Spec.find k (Spec.contents s)) as [v'|] eqn:Hk; simpl; [|done].
    intros [= <-]. apply Spec.find_Some in Hk. unfold fresh_in in Hf. rewrite Forall_forall in Hf.
    by apply (Hf (k, v')).
  - unfold Spec.put. do 2 (split_if; [done|]). simpl.
    constructor; [apply lookup_insert_eq|].
    eapply sublist_Forall; [apply prefix_sublist, Spec.keep_prefix | by apply fresh_insert].
  - unfold Spec.erase. destruct (Spec.find k (Spec.contents s)) eqn:Hk; simpl.
    + by apply fresh_delete.
    + rewrite <- (Spec.remove_fresh k (Spec.contents s)) by (by apply Spec.find_None).
      by apply fresh_delete.
  - by constructor.
Qed.

Lemma spec_run_fresh s ops m : fresh_in m (Spec.contents s) ->
  fresh_in (latest ops (spec_run s ops).1 m) (Spec.contents (spec_run s ops).2).
Proof.
  revert s m. induction ops as [|o ops IH]; intros s m Hs; simpl; [done|].
  destruct (spec_op_fresh s o m Hs) as [H1 _]. destruct (spec_op s o) as [a s1]. simpl in H1.
  specialize (IH s1 _ H1). by destruct (spec_run s1 ops) as [l s2].
Qed.
