(* ===== verification/LruCache.v ===== *)
(** * The LRU cache: a list of nodes and an index of views into them

    Models include/cache/lru_cache.h and src/lru_cache.cpp.

    The aliasing of the source is kept.  A [std::list] is the sequence of its
    nodes, each with its identity (its address) and its [Entry]; an iterator is
    a node identity.  The index is the collection of hash-map nodes; each holds
    a [string_view], that is a reference to the key string inside a list node,
    and an iterator.  Reading through a view or an iterator whose node has been
    freed, decrementing [end()] of an empty list, and erasing [end()] of the
    map are undefined behaviour: the model answers [None] there.  Freed
    identities are not reused, so every dangling access is caught.

    Every public operation holds [lock_] while it touches the state (the limits
    [put] reads before locking never change), so an operation is one step. *)

From S2P Require Import Prelude CacheSpec.

Record Entry := mkEntry {
  key : bytes;
  value : bytes;
}.

(** Identity of a list node. *)
Abbreviation node := nat (only parsing).
Abbreviation EntryList := (list (nat * Entry)) (only parsing).

(** A node of the hash map: the list node its key views, and the iterator. *)
Record Slot := mkSlot {
  view : node;
  iter : node;
}.

Abbreviation IndexMap := (list Slot) (only parsing).

#[export] Instance entry_eq_dec : EqDecision Entry.
Proof. solve_decision. Defined.
#[export] Instance slot_eq_dec : EqDecision Slot.
Proof. solve_decision. Defined.

Record LruCache := mkLruCache {
  limits_ : CacheLimits;
  entries_ : EntryList;  (* front = MRU, back = LRU *)
  index_ : IndexMap;
  bytes_ : Z;
  payload_bytes_ : Z;
  evictions_ : Z;
  next_node_ : node;     (* the identity the next allocation returns *)
}.

Definition new_cache (limits : CacheLimits) : LruCache := mkLruCache limits [] [] 0 0 0 0.

(** ** std::list and std::unordered_map *)

(** [*n]: the entry of a live node. *)
Fixpoint deref (l : EntryList) (n : node) : option Entry :=
  match l with
  | [] => None
  | (m, e) :: l => if decide (m = n) then Some e else deref l n
  end.

(** [list.erase(n)]. *)
Definition list_erase (l : EntryList) (n : node) : option EntryList :=
  _ ← deref l n; Some (filter (fun p => p.1 <> n) l).

(** [list.splice(list.begin(), list, n)]: the node itself moves to the front. *)
Definition splice_front (l : EntryList) (n : node) : option EntryList :=
  e ← deref l n; Some ((n, e) :: filter (fun p => p.1 <> n) l).

(** [index.find(k)]: keys are compared through the views; [Some None] is
    [end()]. *)
Fixpoint index_find (l : EntryList) (idx : IndexMap) (k : bytes) : option (option Slot) :=
  match idx with
  | [] => Some None
  | s :: idx =>
      e ← deref l (view s);
      if decide (key e = k) then Some (Some s) else index_find l idx k
  end.

(** Unlinks one map node. *)
Fixpoint slot_remove (it : Slot) (idx : IndexMap) : option IndexMap :=
  match idx with
  | [] => None
  | s :: idx => if decide (s = it) then Some idx
                else idx' ← slot_remove it idx; Some (s :: idx')
  end.

(** [index.erase(it)]: locating the bucket hashes the key, so the view must
    still be alive. *)
Definition index_erase (l : EntryList) (idx : IndexMap) (it : Slot) : option IndexMap :=
  _ ← deref l (view it); slot_remove it idx.

(** ** Operations *)

Definition entry_cost (key_size value_size : Z) : Z :=
  u64 (u64 (key_size + value_size) + kEntryOverheadBytes).

(** Copies the value into [out] and promotes the entry. *)
Definition get_into (c : LruCache) (k out : bytes) : option (bool * bytes * LruCache) :=
  it ← index_find (entries_ c) (index_ c) k;
  match it with
  | None => Some (false, out, c)
  | Some it =>
      entries ← splice_front (entries_ c) (iter it);
      e ← deref entries (iter it);
      Some (true, value e,
            mkLruCache (limits_ c) entries (index_ c) (bytes_ c) (payload_bytes_ c)
              (evictions_ c) (next_node_ c))
  end.

Definition get (c : LruCache) (k : bytes) : option (option bytes * LruCache) :=
  '(found, value, c) ← get_into c k [];
  if negb found then Some (None, c) else Some (Some value, c).

Definition erase_locked (c : LruCache) (it : Slot) : option LruCache :=
  let node := iter it in
  e ← deref (entries_ c) node;
  let payload := u64 (len (key e) + len (value e)) in
  let bytes := u64 (bytes_ c - entry_cost (len (key e)) (len (value e))) in
  let payload_bytes := u64 (payload_bytes_ c - payload) in
  index ← index_erase (entries_ c) (index_ c) it;
  entries ← list_erase (entries_ c) node;
  Some (mkLruCache (limits_ c) entries index bytes payload_bytes (evictions_ c) (next_node_ c)).

Definition evict_lru_locked (c : LruCache) : option LruCache :=
  '(_, lru) ← last (entries_ c);
  it ← index_find (entries_ c) (index_ c) (key lru);
  it ← it;
  c ← erase_locked c it;
  Some (mkLruCache (limits_ c) (entries_ c) (index_ c) (bytes_ c) (payload_bytes_ c)
          (u64 (evictions_ c + 1)) (next_node_ c)).

(** The condition of the loop of [make_room_locked]. *)
Definition needs_eviction (c : LruCache) (incoming_cost : Z) : bool :=
  negb (len (entries_ c) =? 0) &&
  ((cl_max_entries (limits_ c) <? u64 (len (index_ c) + 1)) ||
   (cl_max_bytes (limits_ c) <? u64 (bytes_ c + incoming_cost))).

(** [fuel] bounds the iterations; [None] when it runs out. *)
Fixpoint make_room_loop (fuel : nat) (c : LruCache) (incoming_cost : Z) : option LruCache :=
  if needs_eviction c incoming_cost then
    match fuel with
    | O => None
    | S fuel => c ← evict_lru_locked c; make_room_loop fuel c incoming_cost
    end
  else Some c.

(** Each iteration frees one entry, so their number is enough fuel. *)
Definition make_room_locked (c : LruCache) (incoming_cost : Z) : option LruCache :=
  make_room_loop (length (entries_ c)) c incoming_cost.

Definition put (c : LruCache) (k v : bytes) : option (PutStatus.t * LruCache) :=
  if cl_max_value_bytes (limits_ c) <? len v then Some (PutStatus.kValueTooLarge, c) else
  let cost := entry_cost (len k) (len v) in
  if (cl_max_bytes (limits_ c) <? cost) || (cl_max_entries (limits_ c) =? 0)
  then Some (PutStatus.kEntryTooLarge, c) else
  it ← index_find (entries_ c) (index_ c) k;
  c ← match it with Some it => erase_locked c it | None => Some c end;
  c ← make_room_locked c cost;
  let node := next_node_ c in
  let entries := (node, mkEntry k v) :: entries_ c in
  let index := mkSlot node node :: index_ c in
  Some (PutStatus.kStored,
        mkLruCache (limits_ c) entries index (u64 (bytes_ c + cost))
          (u64 (payload_bytes_ c + u64 (len k + len v))) (evictions_ c) (S node)).

Definition erase (c : LruCache) (k : bytes) : option (bool * LruCache) :=
  it ← index_find (entries_ c) (index_ c) k;
  match it with
  | None => Some (false, c)
  | Some it => c ← erase_locked c it; Some (true, c)
  end.

Definition contains (c : LruCache) (k : bytes) : option bool :=
  it ← index_find (entries_ c) (index_ c) k;
  Some (match it with Some _ => true | None => false end).

Definition clear (c : LruCache) : LruCache :=
  mkLruCache (limits_ c) [] [] 0 0 (evictions_ c) (next_node_ c).

Definition size (c : LruCache) : Z := len (index_ c).

Definition memory_usage (c : LruCache) : Z := bytes_ c.

Definition snapshot (c : LruCache) : CacheSnapshot :=
  mkCacheSnapshot (len (index_ c)) (bytes_ c) (payload_bytes_ c) (evictions_ c).

Definition keys_mru_to_lru (c : LruCache) : list bytes :=
  fold_left (fun keys p => keys ++ [key p.2]) (entries_ c) [].

(** ** Invariant and abstraction *)

(** The key-value pair a node holds. *)
Definition pair_of (p : node * Entry) : bytes * bytes := (key p.2, value p.2).

Definition abs (c : LruCache) : Spec.state :=
  Spec.mkState (limits_ c) (pair_of <$> entries_ c) (evictions_ c).

(** The index holds exactly one slot per node, viewing and pointing to it. *)
Record wf (c : LruCache) : Prop := mkWf {
  wf_ids : NoDup (entries_ c).*1;
  wf_fresh : Forall (fun p => (p.1 < next_node_ c)%nat) (entries_ c);
  wf_index : index_ c ≡ₚ (fun p => mkSlot p.1 p.1) <$> entries_ c;
  wf_bytes : bytes_ c = Spec.total Spec.cost (pair_of <$> entries_ c);
  wf_payload : payload_bytes_ c = Spec.total Spec.payload (pair_of <$> entries_ c);
  wf_ok : Spec.ok (abs c);
}.

(** Limits under which no size computation of the cache wraps. *)
Definition limits_ok (l : CacheLimits) : Prop :=
  0 <= cl_max_entries l < 2 ^ 64 /\ 0 <= cl_max_bytes l < 2 ^ 63.

(** A key and a value that fit in one address space. *)
Definition addressable (k v : bytes) : Prop := len k + len v + kEntryOverheadBytes < 2 ^ 64.

(** ** Lists of nodes *)

Lemma deref_Some l n e : deref l n = Some e -> (n, e) ∈ l.
Proof.
  induction l as [|[m e'] l IH]; simpl; [done|]. case_decide; subst.
  - intros [= <-]. by left.
  - intros ?. right. auto.
Qed.

Lemma deref_elem l n e : NoDup l.*1 -> (n, e) ∈ l -> deref l n = Some e.
Proof.
  induction l as [|[m e'] l IH]; simpl; intros Hn Hin; [by apply elem_of_nil in Hin|].
  apply NoDup_cons in Hn as [Hm Hn]. apply elem_of_cons in Hin as [[= <- <-]|Hin].
  - by rewrite decide_True.
  - rewrite decide_False; [by auto|]. intros ->. apply Hm, list_elem_of_fmap. by exists (n, e).
Qed.

Lemma slot_remove_perm it idx idx' : it :: idx' ≡ₚ idx ->
  exists r, slot_remove it idx = Some r /\ r ≡ₚ idx'.
Proof.
  revert idx'. induction idx as [|s idx IH]; intros idx' Hp; simpl.
  { by apply Permutation_nil_r in Hp. }
  case_decide as Heq.
  - subst. exists idx. split; [done|]. symmetry. by apply Permutation_cons_inv in Hp.
  - assert (Hin : it ∈ idx).
    { assert (it ∈ s :: idx) as [?|?]%elem_of_cons by (rewrite <- Hp; by left); [by subst | done]. }
    apply elem_of_Permutation in Hin as [k Hk]. destruct (IH k) as (r & -> & Hr); [done|].
    exists (s :: r). split; [done|]. apply (Permutation_cons_inv (a := it)).
    rewrite Hp, Hk, Hr. apply Permutation_swap.
Qed.

(** Removing a node: what is left, as a permutation and as pairs. *)
Lemma filter_id_split l1 n e (l2 : list (nat * Entry)) : NoDup (l1 ++ (n, e) :: l2).*1 ->
  filter (fun p => p.1 <> n) (l1 ++ (n, e) :: l2) = l1 ++ l2.
Proof.
  rewrite fmap_app, fmap_cons. intros (_ & Hd & Hn)%NoDup_app. apply NoDup_cons in Hn as [Hn _].
  rewrite filter_app, filter_cons, decide_False by (simpl; auto).
  f_equal; apply filter_all, Forall_forall; intros [m e'] Hin Heq; simpl in *; subst.
  - apply (Hd n); [apply list_elem_of_fmap; by exists (n, e') | by left].
  - apply Hn, list_elem_of_fmap. by exists (n, e').
Qed.

(** ** Searching the index *)

(** Every slot of [idx] views a live node. *)
Definition slots_live (l : list (nat * Entry)) (idx : list Slot) : Prop :=
  Forall (fun s => exists e, s = mkSlot (view s) (view s) /\ (view s, e) ∈ l) idx.

Lemma wf_slots_live c : wf c -> slots_live (entries_ c) (index_ c).
Proof.
  intros H. unfold slots_live. rewrite (wf_index c H). apply Forall_fmap, Forall_forall.
  intros [n e] Hin. by exists e.
Qed.

Lemma index_find_live l idx k : NoDup l.*1 -> slots_live l idx ->
  (exists n e, index_find l idx k = Some (Some (mkSlot n n)) /\ (n, e) ∈ l /\ key e = k) \/
  (index_find l idx k = Some None /\
   forall n e, mkSlot n n ∈ idx -> (n, e) ∈ l -> key e <> k).
Proof.
  intros Hn. induction 1 as [|s idx (e & Hs & Hin) _ IH]; simpl.
  - right. split; [done|]. intros n e Hin. by apply elem_of_nil in Hin.
  - rewrite (deref_elem _ _ e) by done. simpl. case_decide as Hk.
    + left. exists (view s), e. by rewrite <- Hs.
    + destruct IH as [?|[-> IH]]; [by left|]. right. split; [done|].
      intros n e' [Heq|Hi]%elem_of_cons He'; [|by eapply IH].
      rewrite <- Heq in Hin. simpl in Hin.
      pose proof (deref_elem _ _ _ Hn Hin). pose proof (deref_elem _ _ _ Hn He'). congruence.
Qed.

(** In a well-formed cache [find] reaches the node that holds the key, or
    correctly answers that there is none. *)
Lemma index_find_wf c k : wf c ->
  (exists n v l1 l2, entries_ c = l1 ++ (n, mkEntry k v) :: l2 /\
     index_find (entries_ c) (index_ c) k = Some (Some (mkSlot n n)) /\
     Spec.find k (Spec.contents (abs c)) = Some v) \/
  (index_find (entries_ c) (index_ c) k = Some None /\
     Spec.find k (Spec.contents (abs c)) = None).
Proof.
  intros H. pose proof (Spec.ok_nodup _ (wf_ok c H)) as Hkeys.
  destruct (index_find_live _ _ k (wf_ids c H) (wf_slots_live c H))
    as [(n & [k' v] & Hf & Hin & Hk)|[Hf Hno]].
  - left. simpl in Hk. subst k'. exists n, v.
    destruct (list_elem_of_split _ _ Hin) as (l1 & l2 & Hl). exists l1, l2.
    repeat split; [done..|]. apply Spec.find_elem; [done|].
    simpl. apply list_elem_of_fmap. by exists (n, mkEntry k v).
  - right. split; [done|]. apply Spec.find_None. simpl. intros Hin.
    rewrite <- list_fmap_compose in Hin. apply list_elem_of_fmap in Hin as ([n e] & Hk & Hin).
    eapply (Hno n e); [|done|done]. rewrite (wf_index c H). apply list_elem_of_fmap. by exists (n, e).
Qed.

(** ** Removal *)

Lemma entry_cost_eq k v : addressable k v -> entry_cost (len k) (len v) = Spec.cost (k, v).
Proof.
  unfold addressable, entry_cost, Spec.cost, Spec.payload, kEntryOverheadBytes. simpl. intros H.
  pose proof (len_nonneg k). pose proof (len_nonneg v). rewrite !u64_small; rewrite ?u64_small; lia.
Qed.

Lemma erase_locked_wf c l1 n e l2 : wf c -> limits_ok (limits_ c) ->
  entries_ c = l1 ++ (n, e) :: l2 ->
  exists c', erase_locked c (mkSlot n n) = Some c' /\ wf c' /\ entries_ c' = l1 ++ l2 /\
    limits_ c' = limits_ c /\ evictions_ c' = evictions_ c /\ next_node_ c' = next_node_ c.
Proof.
  intros H Hlim Hl. destruct H as [Hids Hfr Hidx Hb Hp Hok].
  pose proof (Spec.ok_bytes _ Hok) as Hmax. simpl in Hmax. unfold limits_ok in Hlim.
  rewrite Hl in Hids, Hfr, Hidx, Hb, Hp, Hmax.
  assert (Hd : deref (entries_ c) n = Some e)
    by (rewrite Hl; apply deref_elem; [done | apply elem_of_app; right; by left]).
  rewrite fmap_app, fmap_cons in Hidx. rewrite fmap_app, fmap_cons, Spec.total_app in Hb.
  rewrite fmap_app, fmap_cons, Spec.total_app in Hp.
  rewrite fmap_app, fmap_cons, Spec.total_app in Hmax. simpl in *.
  pose proof (Spec.total_nonneg (pair_of <$> l1)) as Ht1.
  pose proof (Spec.total_nonneg (pair_of <$> l2)) as Ht2.
  pose proof (len_nonneg (pair_of <$> l1)). pose proof (len_nonneg (pair_of <$> l2)).
  pose proof (Spec.total_payload_nonneg (pair_of <$> l1)).
  pose proof (Spec.total_payload_nonneg (pair_of <$> l2)).
  pose proof (Spec.total_payload_le (pair_of <$> l1)).
  pose proof (Spec.total_payload_le (pair_of <$> l2)).
  assert (Hcost : Spec.cost (pair_of (n, e)) = len (key e) + len (value e) + 128) by done.
  assert (Hpay : Spec.payload (pair_of (n, e)) = len (key e) + len (value e)) by done.
  pose proof (len_nonneg (key e)). pose proof (len_nonneg (value e)).
  unfold erase_locked. simpl. rewrite Hd. cbn [mbind option_bind]. unfold index_erase, list_erase.
  simpl. rewrite Hd. cbn [mbind option_bind].
  destruct (slot_remove_perm (mkSlot n n) (index_ c)
    (((fun p => mkSlot p.1 p.1) <$> l1) ++ ((fun p => mkSlot p.1 p.1) <$> l2))) as (idx & -> & Hidx').
  { rewrite Hidx. apply Permutation_middle. }
  cbn [mbind option_bind]. rewrite entry_cost_eq by (unfold addressable, kEntryOverheadBytes; lia).
  rewrite Hl, filter_id_split by done.
  eexists. split; [reflexivity|]. split; [|done]. split; simpl.
  - rewrite fmap_app in *. eapply sublist_NoDup; [exact Hids|]. apply sublist_delete_middle.
  - eapply sublist_Forall; [apply sublist_delete_middle | exact Hfr].
  - by rewrite fmap_app.
  - rewrite fmap_app, Spec.total_app. change (key e, value e) with (pair_of (n, e)).
    rewrite u64_small; lia.
  - rewrite fmap_app, Spec.total_app, (u64_small (_ + _)), u64_small by lia. lia.
  - apply (Spec.ok_sublist (abs c)); simpl; [done | | apply Hok].
    rewrite Hl. apply fmap_sublist, sublist_delete_middle.
Qed.

Lemma with_evictions_wf c ev : wf c -> 0 <= ev < 2 ^ 64 ->
  wf (mkLruCache (limits_ c) (entries_ c) (index_ c) (bytes_ c) (payload_bytes_ c) ev (next_node_ c)).
Proof.
  intros [Hids Hfr Hidx Hb Hp Hok] Hev. split; try done.
  by apply (Spec.ok_sublist (abs c) (pair_of <$> entries_ c)).
Qed.

Lemma evict_lru_locked_wf c l n e : wf c -> limits_ok (limits_ c) ->
  entries_ c = l ++ [(n, e)] ->
  exists c', evict_lru_locked c = Some c' /\ wf c' /\ entries_ c' = l /\
    limits_ c' = limits_ c /\ evictions_ c' = u64 (evictions_ c + 1).
Proof.
  intros H Hlim Hl. pose proof (wf_ids c H) as Hids. unfold evict_lru_locked.
  replace (last (entries_ c)) with (Some (n, e)) by (by rewrite Hl, last_snoc). cbn [mbind option_bind].
  destruct (index_find_wf c (key e) H) as [(m & v & l1 & l2 & He & -> & _)|[_ Hno]].
  - assert (m = n) as ->.
    { pose proof (Spec.ok_nodup _ (wf_ok c H)) as Hk. simpl in Hk.
      rewrite <- list_fmap_compose in Hk.
      assert (Hm : (m, mkEntry (key e) v) ∈ entries_ c) by (rewrite He; set_solver).
      assert (Hn : (n, e) ∈ entries_ c) by (rewrite Hl; set_solver).
      apply list_elem_of_lookup in Hm as [i Hi]. apply list_elem_of_lookup in Hn as [j Hj].
      assert (i = j) as ->; [|congruence].
      eapply (NoDup_lookup _ i j (key e)); [exact Hk | |]; rewrite list_lookup_fmap.
      + by rewrite Hi.
      + by rewrite Hj. }
    cbn [mbind option_bind].
    destruct (erase_locked_wf c l n e [] H Hlim Hl) as (c' & -> & Hwf & Hent & Hl' & Hev & Hnx).
    cbn [mbind option_bind]. rewrite app_nil_r in Hent.
    eexists. split; [reflexivity|]. split; [apply with_evictions_wf; [done | apply u64_range]|].
    simpl. by rewrite Hev.
  - exfalso. apply Spec.find_None in Hno. apply Hno. simpl. rewrite Hl, fmap_app, fmap_app. set_solver.
Qed.

Lemma needs_eviction_eq c cost : wf c -> limits_ok (limits_ c) ->
  0 <= cost <= cl_max_bytes (limits_ c) ->
  needs_eviction c cost = false <->
  entries_ c = [] \/ Spec.fits (cl_max_entries (limits_ c) - 1) (cl_max_bytes (limits_ c) - cost)
                       (pair_of <$> entries_ c).
Proof.
  intros H (He & Hb) Hc. unfold needs_eviction, Spec.fits.
  assert (Hli : len (index_ c) = len (entries_ c))
    by (unfold len; by rewrite (wf_index c H), length_fmap).
  assert (Hlf : len (pair_of <$> entries_ c) = len (entries_ c)) by (unfold len; by rewrite length_fmap).
  pose proof (Spec.ok_bytes _ (wf_ok c H)) as Hm. simpl in Hm.
  pose proof (Spec.total_nonneg (pair_of <$> entries_ c)) as Ht.
  pose proof (len_nonneg (entries_ c)).
  rewrite Hli, Hlf, (wf_bytes c H), !u64_small by lia.
  rewrite andb_false_iff, orb_false_iff, !Z.ltb_ge, negb_false_iff, Z.eqb_eq.
  split.
  - intros [?%len_0|?]; [by left | right; lia].
  - intros [->|?]; [by left | right; lia].
Qed.

Lemma make_room_loop_wf fuel c cost : wf c -> limits_ok (limits_ c) ->
  0 <= cost <= cl_max_bytes (limits_ c) -> (length (entries_ c) <= fuel)%nat ->
  exists c', make_room_loop fuel c cost = Some c' /\ wf c' /\ limits_ c' = limits_ c /\
    pair_of <$> entries_ c' = Spec.keep (cl_max_entries (limits_ c) - 1)
      (cl_max_bytes (limits_ c) - cost) (pair_of <$> entries_ c) /\
    evictions_ c' = u64 (evictions_ c + (len (entries_ c) - len (entries_ c'))).
Proof.
  revert c. induction fuel as [|fuel IH]; intros c H Hlim Hc Hfuel; simpl;
    destruct (needs_eviction c cost) eqn:Hne.
  2, 4: apply needs_eviction_eq in Hne; [|done..]; exists c; do 3 (split; [done|]); split;
    [ destruct Hne as [->|Hf]; [done | by rewrite Spec.keep_all]
    | rewrite Z.sub_diag, Z.add_0_r, u64_small; [done | apply (Spec.ok_evicted _ (wf_ok c H))] ].
  - exfalso. unfold needs_eviction in Hne. destruct (entries_ c); [done | simpl in Hfuel; lia].
  - destruct (entries_ c) as [|x r _] eqn:Hent using rev_ind.
    { unfold needs_eviction in Hne. by rewrite Hent in Hne. }
    destruct x as [n e].
    destruct (evict_lru_locked_wf c r n e H Hlim Hent) as (c1 & -> & H1 & He1 & Hl1 & Hev1).
    cbn [mbind option_bind]. rewrite length_app in Hfuel. simpl in Hfuel.
    destruct (IH c1) as (c2 & Hr & H2 & Hl2 & He2 & Hev2); rewrite ?Hl1, ?He1; [done..|lia|].
    exists c2. rewrite Hr, Hl2, He2, Hl1, He1. do 3 (split; [done|]). split.
    + rewrite fmap_app. symmetry. apply Spec.keep_snoc. intros Hfit.
      assert (needs_eviction c cost = false); [|congruence].
      apply needs_eviction_eq; [done..|]. right. by rewrite Hent, fmap_app.
    + rewrite Hev2, Hev1, He1, u64_add_l, len_app. f_equal. unfold len. simpl. lia.
Qed.

Lemma wf_new limits : limits_ok limits -> wf (new_cache limits).
Proof.
  intros [? ?]. split; simpl; try done; [by constructor|].
  apply (Spec.ok_empty limits); lia.
Qed.

Lemma wf_clear c : wf c -> limits_ok (limits_ c) -> wf (clear c).
Proof.
  intros H Hlim. pose proof (wf_ok c H) as Hok. split; simpl; try done; [by constructor|].
  apply (Spec.ok_sublist (abs c) []); [done | apply sublist_nil_l | apply Hok].
Qed.

(** ** Refinement of the abstract cache *)

(** The states the operations maintain. *)
Definition inv (c : LruCache) : Prop := wf c /\ limits_ok (limits_ c).

(** The keys of [l1] and [l2] differ from the one between them. *)
Lemma remove_middle c l1 n k v l2 : wf c -> entries_ c = l1 ++ (n, mkEntry k v) :: l2 ->
  Spec.remove k (Spec.contents (abs c)) = pair_of <$> (l1 ++ l2).
Proof.
  intros H Hl. pose proof (Spec.ok_nodup _ (wf_ok c H)) as Hk. simpl in *.
  rewrite Hl, fmap_app, fmap_cons in *. rewrite fmap_app. by apply Spec.remove_split.
Qed.

Lemma get_into_refines c k out : inv c ->
  exists found v c', get_into c k out = Some (found, v, c') /\ inv c' /\
    Spec.get (abs c) k = ((if found then Some v else None), abs c') /\
    (found = false -> v = out).
Proof.
  intros [H Hlim]. unfold get_into, Spec.get.
  destruct (index_find_wf c k H) as [(n & v & l1 & l2 & Hl & -> & ->)|[-> ->]].
  2: { exists false, out, c. done. }
  pose proof (wf_ids c H) as Hids. cbn [mbind option_bind]. unfold splice_front. cbn [iter].
  rewrite (deref_elem _ n (mkEntry k v)) by (done || (rewrite Hl; set_solver)).
  cbn [mbind option_bind deref]. rewrite decide_True by done. cbn [mbind option_bind value].
  rewrite (remove_middle c l1 n k v l2 H Hl).
  rewrite Hl in Hids |- *. rewrite filter_id_split by done.
  assert (Hperm : (n, mkEntry k v) :: l1 ++ l2 ≡ₚ entries_ c) by (rewrite Hl; apply Permutation_middle).
  do 3 eexists. split; [reflexivity|]. split; [|done]. split; [|done].
  destruct H as [_ Hfr Hidx Hb Hp Hok]. split; simpl.
  - rewrite fmap_app in *. simpl in *. by rewrite <- Permutation_middle in Hids.
  - by rewrite <- Hperm in Hfr.
  - rewrite Hidx, <- Hperm. done.
  - rewrite Hb, Hl. rewrite !fmap_app, !Spec.total_app, fmap_cons. simpl. lia.
  - rewrite Hp, Hl. rewrite !fmap_app, !Spec.total_app, fmap_cons. simpl. lia.
  - destruct Hok as [Hn He Hby Hv Hev]. simpl in *. rewrite Hl in Hn, He, Hby, Hv.
    split; simpl; try done.
    + rewrite !fmap_app, !fmap_cons in Hn. rewrite <- Permutation_middle in Hn.
      by rewrite !fmap_app.
    + rewrite fmap_app, fmap_cons, len_app, len_cons in He. rewrite len_cons, fmap_app, len_app. lia.
    + rewrite fmap_app, fmap_cons, Spec.total_app in Hby. rewrite fmap_app, Spec.total_app. simpl in *. lia.
    + rewrite fmap_app, fmap_cons, Forall_app, Forall_cons in Hv.
      rewrite Forall_cons, fmap_app, Forall_app. naive_solver.
Qed.

Lemma get_refines c k : inv c ->
  exists c', get c k = Some ((Spec.get (abs c) k).1, c') /\ inv c' /\ abs c' = (Spec.get (abs c) k).2.
Proof.
  intros H. destruct (get_into_refines c k [] H) as (f & v & c' & Hg & Hi & Hs & _).
  unfold get. rewrite Hg, Hs. cbn [mbind option_bind]. destruct f; by exists c'.
Qed.

Lemma erase_refines c k : inv c ->
  exists b c', erase c k = Some (b, c') /\ inv c' /\ Spec.erase (abs c) k = (b, abs c').
Proof.
  intros [H Hlim]. unfold erase, Spec.erase.
  destruct (index_find_wf c k H) as [(n & v & l1 & l2 & Hl & -> & ->)|[-> ->]].
  2: { by exists false, c. }
  cbn [mbind option_bind].
  destruct (erase_locked_wf c l1 n (mkEntry k v) l2 H Hlim Hl) as (c' & -> & Hwf & Hent & Hl' & Hev & _).
  exists true, c'. split; [done|]. split; [by unfold inv; rewrite Hl'|].
  rewrite (remove_middle c l1 n k v l2 H Hl). unfold abs. by rewrite Hent, Hl', Hev.
Qed.

(** Inserting a fresh entry that fits at the front. *)
Lemma push_front_wf c k v : wf c -> limits_ok (limits_ c) ->
  k ∉ (pair_of <$> entries_ c).*1 -> len v <= cl_max_value_bytes (limits_ c) ->
  Spec.fits (cl_max_entries (limits_ c) - 1) (cl_max_bytes (limits_ c) - Spec.cost (k, v))
    (pair_of <$> entries_ c) ->
  let n := next_node_ c in
  wf (mkLruCache (limits_ c) ((n, mkEntry k v) :: entries_ c) (mkSlot n n :: index_ c)
        (u64 (bytes_ c + Spec.cost (k, v))) (u64 (payload_bytes_ c + u64 (len k + len v)))
        (evictions_ c) (S n)).
Proof.
  intros [Hids Hfr Hidx Hb Hp Hok] [Hlim1 Hlim2] Hk Hv [Hf1 Hf2]. simpl.
  assert (Hpay : Spec.payload (k, v) = len k + len v) by done.
  assert (Hcost : Spec.cost (k, v) = len k + len v + 128) by done.
  pose proof (len_nonneg k). pose proof (len_nonneg v). pose proof (len_nonneg (pair_of <$> entries_ c)).
  pose proof (Spec.total_payload_nonneg (pair_of <$> entries_ c)).
  pose proof (Spec.total_payload_le (pair_of <$> entries_ c)).
  pose proof (Spec.total_nonneg (pair_of <$> entries_ c)).
  split; csimpl.
  - constructor; [|done]. intros Hin. apply list_elem_of_fmap in Hin as ([m e] & Hm & Hin).
    rewrite Forall_forall in Hfr. specialize (Hfr _ Hin). simpl in *. lia.
  - constructor; simpl; [lia|]. eapply Forall_impl; [exact Hfr|]. simpl. lia.
  - by rewrite Hidx.
  - change (pair_of (next_node_ c, mkEntry k v)) with (k, v). rewrite Hb, u64_small; lia.
  - change (pair_of (next_node_ c, mkEntry k v)) with (k, v).
    rewrite Hp, (u64_small (len k + len v)), u64_small by lia. lia.
  - destruct Hok as [Hn He Hby Hvs Hev]. split; csimpl in *; try done.
    + by constructor.
    + rewrite len_cons. lia.
    + change (pair_of (next_node_ c, mkEntry k v)) with (k, v). lia.
    + by constructor.
Qed.

(** The replaced entry is gone before room is made for the new one. *)
Lemma put_erases_old c k : inv c ->
  exists c', (it ← index_find (entries_ c) (index_ c) k;
              match it with Some it => erase_locked c it | None => Some c end) = Some c' /\
    inv c' /\ limits_ c' = limits_ c /\ evictions_ c' = evictions_ c /\
    pair_of <$> entries_ c' = Spec.remove k (Spec.contents (abs c)).
Proof.
  intros [H Hlim]. destruct (index_find_wf c k H) as [(n & v & l1 & l2 & Hl & -> & _)|[-> Hno]];
    cbn [mbind option_bind].
  - destruct (erase_locked_wf c l1 n (mkEntry k v) l2 H Hlim Hl) as (c' & -> & Hwf & Hent & Hl' & Hev & _).
    exists c'. rewrite (remove_middle c l1 n k v l2 H Hl), Hent. unfold inv. by rewrite Hl'.
  - exists c. rewrite Spec.remove_fresh by (by apply Spec.find_None). done.
Qed.

Lemma put_refines c k v : inv c -> addressable k v ->
  exists st c', put c k v = Some (st, c') /\ inv c' /\ Spec.put (abs c) k v = (st, abs c').
Proof.
  intros Hinv Ha. pose proof Hinv as [_ [Hl1 Hl2]]. unfold put, Spec.put. cbn [Spec.limits abs].
  rewrite entry_cost_eq by done.
  destruct (Z.ltb_spec (cl_max_value_bytes (limits_ c)) (len v)) as [|Hv]; [by exists PutStatus.kValueTooLarge, c|].
  destruct (_ || _) eqn:Hfit; [by exists PutStatus.kEntryTooLarge, c|]. b2p.
  destruct (put_erases_old c k Hinv) as (c1 & Hc1 & [W1 Hlim1] & Hlim1' & Hev1 & Hent1).
  pose proof (Spec.cost_pos (k, v)).
  destruct (make_room_loop_wf (length (entries_ c1)) c1 (Spec.cost (k, v)))
    as (c2 & Hc2 & W2 & Hlim2 & Hent2 & Hev2); [done..|rewrite Hlim1'; lia|done|].
  rewrite Hlim1' in *.
  assert (Hput : (it ← index_find (entries_ c) (index_ c) k;
     c ← match it with Some it => erase_locked c it | None => Some c end;
     make_room_locked c (Spec.cost (k, v))) = Some c2).
  { destruct (index_find (entries_ c) (index_ c) k); cbn [mbind option_bind] in *; [|done].
    rewrite Hc1. exact Hc2. }
  destruct (index_find (entries_ c) (index_ c) k) as [it|]; cbn [mbind option_bind] in *; [|done].
  rewrite Hc1 in *. cbn [mbind option_bind] in *. rewrite Hput. cbn [mbind option_bind].
  eexists PutStatus.kStored, _. split; [reflexivity|]. split; [split; [|by rewrite Hlim2]|].
  - apply push_front_wf; rewrite ?Hlim2, ?Hent2, ?Hent1; [done..| |lia|].
    + intros Hin. apply (Spec.remove_not_in k (Spec.contents (abs c))).
      destruct (Spec.keep_prefix (cl_max_entries (limits_ c) - 1)
        (cl_max_bytes (limits_ c) - Spec.cost (k, v)) (Spec.remove k (Spec.contents (abs c)))) as [r Hr].
      rewrite Hr, fmap_app. apply elem_of_app. by left.
    + apply Spec.keep_fits; lia.
  - unfold abs. csimpl. f_equal. f_equal; [done | |].
    + change (pair_of (next_node_ c2, mkEntry k v)) with (k, v). f_equal.
      rewrite Hent2, Hent1. done.
    + rewrite Hev2, Hev1. do 2 f_equal. unfold len.
      rewrite <- (length_fmap pair_of (entries_ c1)), <- (length_fmap pair_of (entries_ c2)).
      by rewrite Hent2, Hent1.
Qed.

Lemma clear_refines c : inv c -> inv (clear c) /\ abs (clear c) = Spec.clear (abs c).
Proof. intros [H Hlim]. split; [split; [by apply wf_clear | done] | done]. Qed.

Lemma snapshot_refines c : inv c -> snapshot c = Spec.snapshot (abs c).
Proof.
  intros [H _]. unfold snapshot, Spec.snapshot. simpl. rewrite (wf_bytes c H), (wf_payload c H).
  f_equal. unfold len. by rewrite (wf_index c H), !length_fmap.
Qed.

#[export] Instance lru_ops : CacheOps LruCache := {
  cache_get := get_into;
  cache_put := put;
  cache_erase := erase;
  cache_clear := clear;
  cache_snapshot := snapshot;
}.

#[export] Program Instance lru_contract : CacheContract LruCache := {
  cache_good := inv;
  cache_abs := abs;
}.
Next Obligation. intros c [H _]. apply (wf_ok c H). Qed.
Next Obligation. apply get_into_refines. Qed.
Next Obligation. apply put_refines. Qed.
Next Obligation. apply erase_refines. Qed.
Next Obligation. apply clear_refines. Qed.
Next Obligation. apply snapshot_refines. Qed.
