(* ===== verification/CacheHistory.v ===== *)
(** * Histories of cache operations

    Every public operation of [LruCache] runs under one mutex, so what
    concurrent workers do to the cache is a sequence of operations.  This file
    runs such sequences on the implementation of LruCache.v and proves what
    clients rely on over a whole history: agreement with the abstract cache,
    bounds, recency order and freshness of the values returned. *)

From S2P Require Import Prelude CacheSpec SpecHistory LruCache.

(** One operation on the implementation. *)
Definition do_op (c : LruCache) (o : Op) : option (Answer * LruCache) :=
  match o with
  | OGet k => '(v, c) ← get c k; Some (AGet v, c)
  | OPut k v => '(st, c) ← put c k v; Some (APut st, c)
  | OErase k => '(b, c) ← erase c k; Some (AErase b, c)
  | OContains k => b ← contains c k; Some (AContains b, c)
  | OClear => Some (AUnit, clear c)
  end.

Fixpoint run (c : LruCache) (ops : list Op) : option (list Answer * LruCache) :=
  match ops with
  | [] => Some ([], c)
  | o :: ops => '(a, c) ← do_op c o; '(l, c) ← run c ops; Some (a :: l, c)
  end.

(** The arguments of every [put] exist in one address space. *)
Definition op_addressable (o : Op) : Prop :=
  match o with OPut k v => addressable k v | _ => True end.

(** ** Lemmas *)

Lemma contains_refines c k : inv c -> contains c k = Some (Spec.contains (abs c) k).
Proof.
  intros [H _]. unfold contains, Spec.contains.
  by destruct (index_find_wf c k H) as [(n & v & l1 & l2 & _ & -> & ->)|[-> ->]].
Qed.

Lemma do_op_refines c o : inv c -> op_addressable o ->
  exists a c', do_op c o = Some (a, c') /\ inv c' /\ spec_op (abs c) o = (a, abs c').
Proof.
  intros Hi Ha. destruct o as [k|k v|k|k|]; simpl.
  - destruct (get_refines c k Hi) as (c' & -> & Hi' & Habs). simpl.
    destruct (Spec.get (abs c) k) as [v s]. simpl in *. subst. by exists (AGet v), c'.
  - destruct (put_refines c k v Hi Ha) as (st & c' & -> & Hi' & ->). by exists (APut st), c'.
  - destruct (erase_refines c k Hi) as (b & c' & -> & Hi' & ->). by exists (AErase b), c'.
  - rewrite contains_refines by done. by eexists _, c.
  - destruct (clear_refines c Hi) as [? <-]. by exists AUnit, (clear c).
Qed.

Lemma run_refines c ops : inv c -> Forall op_addressable ops ->
  exists l c', run c ops = Some (l, c') /\ inv c' /\ spec_run (abs c) ops = (l, abs c').
Proof.
  intros Hi Ha. revert c Hi. induction Ha as [|o ops Ho _ IH]; intros c Hi; simpl.
  { by exists [], c. }
  destruct (do_op_refines c o Hi Ho) as (a & c1 & -> & Hi1 & ->). simpl.
  destruct (IH c1 Hi1) as (l & c2 & -> & Hi2 & ->). by exists (a :: l), c2.
Qed.

Lemma keys_eq c : keys_mru_to_lru c = (Spec.contents (abs c)).*1.
Proof.
  unfold keys_mru_to_lru. cbn [Spec.contents abs].
  assert (H : forall l acc, fold_left (fun keys p => keys ++ [key p.2]) l acc
                            = acc ++ (pair_of <$> l).*1).
  { induction l as [|p l IH]; intros acc; simpl; [by rewrite app_nil_r|].
    rewrite IH, <- app_assoc. done. }
  apply H.
Qed.

(** ** Reachable caches *)

(** The states a cache created with [limits] goes through. *)
Definition reachable (limits : CacheLimits) (c : LruCache) : Prop :=
  exists ops l, Forall op_addressable ops /\ run (new_cache limits) ops = Some (l, c).

Lemma reachable_inv limits c : limits_ok limits -> reachable limits c ->
  inv c /\ limits_ c = limits.
Proof.
  intros Hlim (ops & l & Ha & Hr).
  destruct (run_refines (new_cache limits) ops) as (l' & c' & Hr' & Hi & Hs); [|done|].
  { split; [by apply wf_new | done]. }
  rewrite Hr in Hr'. injection Hr' as <- <-. split; [done|].
  pose proof (spec_run_limits (abs (new_cache limits)) ops) as Hl. by rewrite Hs in Hl.
Qed.

Lemma total_cost_eq l :
  Spec.total Spec.cost l = Spec.total Spec.payload l + kEntryOverheadBytes * len l.
Proof.
  induction l as [|e l IH]; [done|]. rewrite len_cons. simpl.
  assert (Spec.cost e = Spec.payload e + kEntryOverheadBytes) by done. lia.
Qed.

(** ** Properties *)

(** C1: the list, the index of views and the three counters together
    implement the abstract cache.  From an empty cache, any sequence of
    operations runs without touching a dead node or an end iterator, answers
    every operation as the abstract cache does, and ends in a state that
    represents the abstract one: one index slot per list node, counters equal
    to the sums they cache. *)
Theorem lru_history_refines limits ops :
  limits_ok limits -> Forall op_addressable ops ->
  exists answers c, run (new_cache limits) ops = Some (answers, c) /\
    spec_run (Spec.empty limits) ops = (answers, abs c) /\ wf c.
Proof.
  intros Hlim Ha. destruct (run_refines (new_cache limits) ops) as (l & c & Hr & [Hw _] & Hs); [|done|].
  - split; [by apply wf_new | done].
  - by exists l, c.
Qed.

(** A history in which entries are promoted, replaced, erased and evicted. *)
Definition demo_limits : CacheLimits := mkCacheLimits 3 4096 1024.
Definition demo_ops : list Op :=
  [OPut (lit "a") (lit "1"); OPut (lit "b") (lit "2"); OPut (lit "c") (lit "3");
   OGet (lit "a"); OPut (lit "d") (lit "4"); OContains (lit "b");
   OPut (lit "c") (lit "updated"); OPut (lit "e") (lit "5"); OErase (lit "zz")].

(** What the history answers and where it ends. *)
Definition demo_answers : list Answer :=
  match run (new_cache demo_limits) demo_ops with Some (l, _) => l | None => [] end.
Definition demo_cache : LruCache :=
  match run (new_cache demo_limits) demo_ops with Some (_, c) => c | None => new_cache demo_limits end.

Lemma demo_addressable : Forall op_addressable demo_ops.
Proof. repeat constructor; vm_compute; reflexivity. Qed.

Lemma demo_limits_ok : limits_ok demo_limits.
Proof. unfold limits_ok. simpl. lia. Qed.

Lemma lru_history_refines_witness :
  exists answers c, run (new_cache demo_limits) demo_ops = Some (answers, c) /\
    spec_run (Spec.empty demo_limits) demo_ops = (answers, abs c) /\ wf c.
Proof. apply (lru_history_refines demo_limits demo_ops demo_limits_ok demo_addressable). Defined.

(** The outcome tests/lru_cache_test.cpp expects of that history. *)
Example demo_order : (fun '(_, c) => keys_mru_to_lru c) <$> run (new_cache demo_limits) demo_ops
  = Some [lit "e"; lit "c"; lit "d"].
Proof. vm_compute. reflexivity. Qed.

(** C30: in every reachable state both capacity limits hold, no key is stored
    twice, and the reported figures are exact: [snapshot], [size] and
    [memory_usage] agree, and the accounted bytes are the payload plus 128 per
    entry. *)
Theorem lru_bounds limits c :
  limits_ok limits -> reachable limits c ->
  let s := snapshot c in
  cs_entries s <= cl_max_entries limits /\ cs_bytes s <= cl_max_bytes limits /\
  cs_bytes s = cs_payload_bytes s + kEntryOverheadBytes * cs_entries s /\
  NoDup (keys_mru_to_lru c) /\ cs_entries s = len (keys_mru_to_lru c) /\
  size c = cs_entries s /\ memory_usage c = cs_bytes s.
Proof.
  intros Hlim Hr. destruct (reachable_inv limits c Hlim Hr) as [Hi <-]. cbv zeta.
  assert (Hmem : memory_usage c = cs_bytes (snapshot c)) by done.
  assert (Hsize : size c = cs_entries (snapshot c)) by done.
  rewrite keys_eq. rewrite Hmem, Hsize, (snapshot_refines c Hi). csimpl.
  destruct Hi as [Hw _]. destruct (wf_ok c Hw) as [Hn He Hb _ _]. csimpl in *.
  rewrite total_cost_eq in *. unfold len in *. rewrite !length_fmap in *.
  repeat split; done || lia.
Qed.

Lemma demo_run : run (new_cache demo_limits) demo_ops = Some (demo_answers, demo_cache).
Proof. vm_compute. reflexivity. Qed.

Lemma demo_reachable : reachable demo_limits demo_cache.
Proof. exists demo_ops, demo_answers. split; [apply demo_addressable | apply demo_run]. Qed.

Lemma lru_bounds_witness :
  let s := snapshot demo_cache in
  cs_entries s <= 3 /\ cs_bytes s <= 4096 /\
  cs_bytes s = cs_payload_bytes s + kEntryOverheadBytes * cs_entries s /\
  NoDup (keys_mru_to_lru demo_cache) /\ cs_entries s = len (keys_mru_to_lru demo_cache) /\
  size demo_cache = cs_entries s /\ memory_usage demo_cache = cs_bytes s.
Proof. apply (lru_bounds demo_limits demo_cache demo_limits_ok demo_reachable). Defined.

(** C20: the capacity policy of [put].  A stored entry becomes the most
    recent one.  Of the other entries the most recent survive, in the same
    order, and the rest, the least recently used, are evicted and counted: a
    most-recent part of them survives exactly when it fits both limits together
    with the new entry, so all that is over a limit goes, and nothing else. *)
Theorem put_evicts_least_recent limits c k v c' :
  limits_ok limits -> reachable limits c -> addressable k v ->
  put c k v = Some (PutStatus.kStored, c') ->
  exists kept gone,
    Spec.remove k (Spec.contents (abs c)) = kept ++ gone /\
    Spec.contents (abs c') = (k, v) :: kept /\
    (forall p, p `prefix_of` kept ++ gone ->
       len p + 1 <= cl_max_entries limits /\ Spec.total Spec.cost p + Spec.cost (k, v) <= cl_max_bytes limits <->
       p `prefix_of` kept) /\
    evictions_ c' = u64 (evictions_ c + len gone).
Proof.
  intros Hlim Hr Ha Hp. destruct (reachable_inv limits c Hlim Hr) as [Hi <-].
  destruct (put_refines c k v Hi Ha) as (st & c2 & Hp2 & _ & Hs).
  rewrite Hp in Hp2. injection Hp2 as <- <-. unfold Spec.put in Hs. do 2 (split_if; [done|]).
  injection Hs as Hl Hc Hev. cbn [Spec.limits abs] in *.
  change (Spec.contents (abs c)) with (pair_of <$> entries_ c).
  set (others := Spec.remove k (pair_of <$> entries_ c)) in *.
  pose proof (Spec.keep_prefix (cl_max_entries (limits_ c) - 1)
    (cl_max_bytes (limits_ c) - Spec.cost (k, v)) others) as Hpre.
  set (kept := Spec.keep _ _ _) in *. destruct Hpre as [gone Hg]. exists kept, gone.
  split; [done|]. split; [by cbn; rewrite <- Hc|]. split.
  - intros p Hpp. rewrite <- Hg in Hpp. split.
    + intros Hfit. apply Spec.keep_longest; [done|]. unfold Spec.fits. lia.
    + intros Hk. pose proof (Spec.keep_fits (cl_max_entries (limits_ c) - 1)
        (cl_max_bytes (limits_ c) - Spec.cost (k, v)) others) as Hfit.
      apply (Spec.fits_prefix _ _ p) in Hfit; [unfold Spec.fits in Hfit; lia | done | b2p; unfold limits_ok in Hlim; lia..].
  - assert (Hlen : len others = len kept + len gone) by (rewrite Hg; apply len_app).
    rewrite <- Hev. change (Spec.evicted (abs c)) with (evictions_ c). f_equal. lia.
Qed.

(** Room for two small entries: the next one evicts. *)
Definition small_limits : CacheLimits := mkCacheLimits 20 300 100.
Definition small_ops : list Op := [OPut (lit "a") (lit "a"); OPut (lit "b") (lit "bb")].
Definition small_cache : LruCache :=
  match run (new_cache small_limits) small_ops with Some (_, c) => c | None => new_cache small_limits end.
Definition small_next : LruCache :=
  match put small_cache (lit "c") (lit "cc") with Some (_, c) => c | None => small_cache end.

Lemma small_limits_ok : limits_ok small_limits.
Proof. unfold limits_ok. simpl. lia. Qed.

Lemma small_reachable : reachable small_limits small_cache.
Proof.
  exists small_ops, [APut PutStatus.kStored; APut PutStatus.kStored].
  split; [repeat constructor; vm_compute; reflexivity | vm_compute; reflexivity].
Qed.

Lemma put_evicts_least_recent_witness :
  exists kept gone,
    Spec.remove (lit "c") (Spec.contents (abs small_cache)) = kept ++ gone /\
    Spec.contents (abs small_next) = (lit "c", lit "cc") :: kept /\
    (forall p, p `prefix_of` kept ++ gone ->
       len p + 1 <= 20 /\ Spec.total Spec.cost p + Spec.cost (lit "c", lit "cc") <= 300 <->
       p `prefix_of` kept) /\
    evictions_ small_next = u64 (evictions_ small_cache + len gone).
Proof.
  apply (put_evicts_least_recent small_limits small_cache (lit "c") (lit "cc") small_next
           small_limits_ok small_reachable); vm_compute; reflexivity.
Defined.

(** exact LRU order.  After any history the keys of the cache, front to
    back, are ordered by their last use: they form a subsequence of the log of
    keys hit or stored, last use first. *)
Theorem lru_recency limits ops answers c :
  limits_ok limits -> Forall op_addressable ops ->
  run (new_cache limits) ops = Some (answers, c) ->
  keys_mru_to_lru c `sublist_of` recency ops answers [].
Proof.
  intros Hlim Ha Hr.
  destruct (run_refines (new_cache limits) ops) as (l & c' & Hr' & _ & Hs); [|done|].
  { split; [by apply wf_new | done]. }
  rewrite Hr in Hr'. injection Hr' as <- <-. rewrite keys_eq.
  pose proof (spec_run_recency (abs (new_cache limits)) ops [] (sublist_nil_l [])) as H.
  by rewrite Hs in H.
Qed.

Lemma lru_recency_witness :
  keys_mru_to_lru demo_cache `sublist_of` recency demo_ops demo_answers [].
Proof.
  apply (lru_recency demo_limits demo_ops demo_answers demo_cache demo_limits_ok demo_addressable
           demo_run).
Defined.

(** freshness.  A hit returns the value last stored under its key and
    not erased or cleared since: eviction may turn a hit into a miss, but never
    into a stale or foreign value. *)
Theorem lru_freshness limits ops answers c k v c' :
  limits_ok limits -> Forall op_addressable ops ->
  run (new_cache limits) ops = Some (answers, c) -> get c k = Some (Some v, c') ->
  latest ops answers ∅ !! k = Some v.
Proof.
  intros Hlim Ha Hr Hg.
  destruct (run_refines (new_cache limits) ops) as (l & c1 & Hr' & Hi & Hs); [|done|].
  { split; [by apply wf_new | done]. }
  rewrite Hr in Hr'. injection Hr' as <- <-.
  destruct (get_refines c k Hi) as (c2 & Hg2 & _). rewrite Hg in Hg2. injection Hg2 as Hv _.
  pose proof (spec_run_fresh (abs (new_cache limits)) ops ∅ ltac:(by constructor)) as Hf.
  rewrite Hs in Hf. simpl in Hf.
  eapply (spec_op_fresh (abs c) (OGet k) _ Hf); [done|]. cbn.
  destruct (Spec.get (abs c) k). simpl in *. congruence.
Qed.

Definition demo_after_get : LruCache :=
  match get demo_cache (lit "c") with Some (_, c) => c | None => demo_cache end.

Lemma lru_freshness_witness : latest demo_ops demo_answers ∅ !! lit "c" = Some (lit "updated").
Proof.
  apply (lru_freshness demo_limits demo_ops demo_answers demo_cache (lit "c") (lit "updated")
           demo_after_get demo_limits_ok demo_addressable demo_run).
  vm_compute. reflexivity.
Defined.

(** the answers of [put].  It rejects an oversized value, or an entry
    that could not fit in an empty cache, exactly in those cases and without
    any change; otherwise it stores, and a [get] right after returns the bytes
    stored. *)
Theorem put_outcome limits c k v :
  limits_ok limits -> reachable limits c -> addressable k v ->
  exists st c', put c k v = Some (st, c') /\
    (st = PutStatus.kValueTooLarge <-> cl_max_value_bytes limits < len v) /\
    (st = PutStatus.kEntryTooLarge <-> len v <= cl_max_value_bytes limits /\
       (cl_max_bytes limits < len k + len v + kEntryOverheadBytes \/ cl_max_entries limits = 0)) /\
    (st <> PutStatus.kStored -> c' = c) /\
    (st = PutStatus.kStored -> exists c'', get c' k = Some (Some v, c'')).
Proof.
  intros Hlim Hr Ha. destruct (reachable_inv limits c Hlim Hr) as [Hi <-].
  destruct (put_refines c k v Hi Ha) as (st & c2 & Hp & Hi2 & Hs). exists st, c2.
  rewrite Hp. split; [done|]. unfold put in Hp. rewrite entry_cost_eq in Hp by done.
  unfold Spec.put in Hs. cbn [Spec.limits abs] in Hs.
  assert (Hc : Spec.cost (k, v) = len k + len v + kEntryOverheadBytes) by done.
  destruct (Z.ltb_spec (cl_max_value_bytes (limits_ c)) (len v)).
  { injection Hp as <- <-. repeat split; try done; intros; lia. }
  destruct (_ || _) eqn:Hb; b2p.
  { injection Hp as <- <-. repeat split; try done; lia. }
  injection Hs as <- _ Hcont _.
  repeat split; try done; try lia. intros _.
  destruct (get_refines c2 k Hi2) as (c3 & Hg & _). exists c3. rewrite Hg. do 2 f_equal.
  unfold Spec.get. cbn [Spec.contents abs] in *. rewrite <- Hcont. simpl. by rewrite decide_True.
Qed.

Lemma put_outcome_witness :
  exists st c', put (new_cache small_limits) (lit "k") (replicate 101 Byte.x78) = Some (st, c') /\
    st = PutStatus.kValueTooLarge /\ c' = new_cache small_limits.
Proof.
  destruct (put_outcome small_limits (new_cache small_limits) (lit "k") (replicate 101 Byte.x78))
    as (st & c' & H1 & H2 & _ & H3 & _).
  - apply small_limits_ok.
  - by exists [], [].
  - vm_compute. reflexivity.
  - assert (st = PutStatus.kValueTooLarge) by (apply H2; vm_compute; reflexivity).
    exists st, c'. subst. auto.
Defined.
