(* ===== verification/Sys.v ===== *)
(** * System calls as inputs

    The kernel is not part of the sources: what a system call returns is an
    argument of the definition that makes it.  This file has the result types
    and the [errno] values (Linux) the sources compare with. *)

From S2P Require Import Prelude.

Definition EINTR : Z := 4.
Definition EAGAIN : Z := 11.
Definition EWOULDBLOCK : Z := 11.
Definition ENOENT : Z := 2.
Definition ECONNABORTED : Z := 103.
Definition ECONNREFUSED : Z := 111.

(** [recv(fd, buf, n, 0)]: the bytes received (none at the end of the
    stream), or -1 and an [errno]. *)
Inductive RecvResult : Set :=
  | Received (data : bytes)
  | RecvFailed (errno : Z).

(** [send(fd, buf, n, MSG_NOSIGNAL)]: how many bytes the kernel took, or -1
    and an [errno]. *)
Inductive SendResult : Set :=
  | Sent (n : Z)
  | SendFailed (errno : Z).

(** recv(2) and send(2): no more than the length asked for. *)
Definition recv_ok (n : Z) (r : RecvResult) : Prop :=
  match r with Received data => len data <= n | RecvFailed _ => True end.

Definition send_ok (n : Z) (r : SendResult) : Prop :=
  match r with Sent k => 0 <= k <= n | SendFailed _ => True end.

(** The documented behaviour of [send]: it takes no more than it is offered. *)
Definition kernel_send (r : Z -> SendResult) : Prop := forall n, 0 < n -> send_ok n (r n).

(** The answers of a socket to a loop of sends: until it would block, or, for
    a blocking socket with a timeout, until that expires. *)
Definition socket_answers (sends : list (Z -> SendResult)) : Prop :=
  Forall kernel_send sends /\ exists pre, sends = pre ++ [fun _ => SendFailed EAGAIN].

(** A call that returns a new descriptor, or -1 and an [errno]. *)
Inductive FdResult : Set :=
  | NewFd (fd : Z)
  | NoFd (errno : Z).

(** A call that returns 0, or -1 and an [errno]. *)
Inductive CallResult : Set :=
  | Success
  | Failure (errno : Z).

(** [sizeof(sockaddr_un::sun_path)] on Linux. *)
Definition sun_path_size : Z := 108.

(** epoll(7) event bits. *)
Definition EPOLLIN : Z := 0x001.
Definition EPOLLOUT : Z := 0x004.
Definition EPOLLERR : Z := 0x008.
Definition EPOLLHUP : Z := 0x010.
Definition EPOLLRDHUP : Z := 0x2000.

(** [events & mask] as a condition. *)
Definition has_event (events mask : Z) : bool := negb (Z.land events mask =? 0).

(** [accept4]: a new descriptor, or -1 and an [errno]. *)
Inductive AcceptResult : Set :=
  | Accepted (fd : Z)
  | AcceptFailed (errno : Z).

(** An eventfd is a 64-bit counter.  Writing 1 adds one, unless that would
    reach 2^64 - 1 (the write fails with [EAGAIN], and the sources ignore
    it); reading returns the counter and resets it. *)
Definition eventfd_add (counter : Z) : Z := if counter <? 2 ^ 64 - 2 then counter + 1 else counter.
