(* ===== verification/Connection.v ===== *)
(** * One client connection: input buffer, output staging and flushing

    Models include/cache/connection.h and src/connection.cpp.  The event loop
    owns the socket, [in_buf_] and [write_buf_]; workers append to [staged_]
    under [out_mutex_].  What [recv] and [send] return are arguments. *)

From S2P Require Import Prelude Protocol Stats Serializer Sys.

Definition kReadChunkBytes : Z := 64 * 1024.
Definition kCompactThresholdBytes : Z := 32 * 1024.

Record ConnectionLimits := mkConnectionLimits {
  protocol_limits : Limits;
  max_output_bytes : Z;
  max_inflight : Z;
}.

Definition default_connection_limits : ConnectionLimits :=
  mkConnectionLimits default_limits (8 * 1024 * 1024) 512.

Module IoResult.
Inductive t : Set := kOk | kWouldBlock | kClosed | kError.
End IoResult.

#[export] Instance io_result_eq_dec : EqDecision IoResult.t.
Proof. solve_decision. Defined.

(** The atomics [inflight_], [closed_], [notify_pending_] and
    [pending_output_bytes_] are plain fields: each access is one step. *)
Record Connection := mkConnection {
  fd_ : Z;
  id_ : Z;
  limits_ : ConnectionLimits;
  in_buf_ : bytes;
  in_pos_ : Z;
  write_buf_ : bytes;
  write_pos_ : Z;
  registered_events_ : Z;
  close_after_flush_ : bool;
  staged_ : bytes;
  inflight_ : Z;
  closed_ : bool;
  notify_pending_ : bool;
  pending_output_bytes_ : Z;
}.

Definition set_in_buf (v : bytes) (c : Connection) : Connection :=
  mkConnection (fd_ c) (id_ c) (limits_ c) v (in_pos_ c) (write_buf_ c) (write_pos_ c)
    (registered_events_ c) (close_after_flush_ c) (staged_ c) (inflight_ c) (closed_ c)
    (notify_pending_ c) (pending_output_bytes_ c).
Definition set_in_pos (v : Z) (c : Connection) : Connection :=
  mkConnection (fd_ c) (id_ c) (limits_ c) (in_buf_ c) v (write_buf_ c) (write_pos_ c)
    (registered_events_ c) (close_after_flush_ c) (staged_ c) (inflight_ c) (closed_ c)
    (notify_pending_ c) (pending_output_bytes_ c).
Definition set_write_buf (v : bytes) (c : Connection) : Connection :=
  mkConnection (fd_ c) (id_ c) (limits_ c) (in_buf_ c) (in_pos_ c) v (write_pos_ c)
    (registered_events_ c) (close_after_flush_ c) (staged_ c) (inflight_ c) (closed_ c)
    (notify_pending_ c) (pending_output_bytes_ c).
Definition set_write_pos (v : Z) (c : Connection) : Connection :=
  mkConnection (fd_ c) (id_ c) (limits_ c) (in_buf_ c) (in_pos_ c) (write_buf_ c) v
    (registered_events_ c) (close_after_flush_ c) (staged_ c) (inflight_ c) (closed_ c)
    (notify_pending_ c) (pending_output_bytes_ c).
Definition set_registered_events (v : Z) (c : Connection) : Connection :=
  mkConnection (fd_ c) (id_ c) (limits_ c) (in_buf_ c) (in_pos_ c) (write_buf_ c)
    (write_pos_ c) v (close_after_flush_ c) (staged_ c) (inflight_ c) (closed_ c)
    (notify_pending_ c) (pending_output_bytes_ c).
Definition set_close_after_flush (v : bool) (c : Connection) : Connection :=
  mkConnection (fd_ c) (id_ c) (limits_ c) (in_buf_ c) (in_pos_ c) (write_buf_ c)
    (write_pos_ c) (registered_events_ c) v (staged_ c) (inflight_ c) (closed_ c)
    (notify_pending_ c) (pending_output_bytes_ c).
Definition set_staged (v : bytes) (c : Connection) : Connection :=
  mkConnection (fd_ c) (id_ c) (limits_ c) (in_buf_ c) (in_pos_ c) (write_buf_ c)
    (write_pos_ c) (registered_events_ c) (close_after_flush_ c) v (inflight_ c) (closed_ c)
    (notify_pending_ c) (pending_output_bytes_ c).
Definition set_inflight (v : Z) (c : Connection) : Connection :=
  mkConnection (fd_ c) (id_ c) (limits_ c) (in_buf_ c) (in_pos_ c) (write_buf_ c)
    (write_pos_ c) (registered_events_ c) (close_after_flush_ c) (staged_ c) v (closed_ c)
    (notify_pending_ c) (pending_output_bytes_ c).
Definition set_closed (v : bool) (c : Connection) : Connection :=
  mkConnection (fd_ c) (id_ c) (limits_ c) (in_buf_ c) (in_pos_ c) (write_buf_ c)
    (write_pos_ c) (registered_events_ c) (close_after_flush_ c) (staged_ c) (inflight_ c) v
    (notify_pending_ c) (pending_output_bytes_ c).
Definition set_notify_pending (v : bool) (c : Connection) : Connection :=
  mkConnection (fd_ c) (id_ c) (limits_ c) (in_buf_ c) (in_pos_ c) (write_buf_ c)
    (write_pos_ c) (registered_events_ c) (close_after_flush_ c) (staged_ c) (inflight_ c)
    (closed_ c) v (pending_output_bytes_ c).
Definition set_pending_output_bytes (v : Z) (c : Connection) : Connection :=
  mkConnection (fd_ c) (id_ c) (limits_ c) (in_buf_ c) (in_pos_ c) (write_buf_ c)
    (write_pos_ c) (registered_events_ c) (close_after_flush_ c) (staged_ c) (inflight_ c)
    (closed_ c) (notify_pending_ c) v.

Definition new_connection (fd id : Z) (limits : ConnectionLimits) : Connection :=
  mkConnection fd id limits [] 0 [] 0 0 false [] 0 false false 0.

(** ** Event-loop operations *)

Definition read_some (c : Connection) (r : RecvResult) : IoResult.t * Connection :=
  match r with
  | Received chunk =>
      if 0 <? len chunk then (IoResult.kOk, set_in_buf (in_buf_ c ++ chunk) c)
      else (IoResult.kClosed, c)
  | RecvFailed errno =>
      if errno =? EINTR then (IoResult.kOk, c)
      else if (errno =? EAGAIN) || (errno =? EWOULDBLOCK) then (IoResult.kWouldBlock, c)
      else (IoResult.kError, c)
  end.

Definition compact_input (c : Connection) : Connection :=
  if in_pos_ c =? 0 then c
  else set_in_pos 0 (set_in_buf (drop (Z.to_nat (in_pos_ c)) (in_buf_ c)) c).

(** The view from [in_pos_] to the end of the buffer; a position past the end
    would give a span over memory that is not the buffer's. *)
Definition input_view (c : Connection) : option bytes :=
  if in_pos_ c <=? len (in_buf_ c) then Some (drop (Z.to_nat (in_pos_ c)) (in_buf_ c)) else None.

Definition next_request (c : Connection) (out : Request)
    : option (ParseResult * Request * Connection) :=
  view ← input_view c;
  '(result, out) ← deserialize_request view (protocol_limits (limits_ c)) out;
  let c :=
    match pr_status result with
    | ParseStatus.kComplete =>
        let c := set_in_pos (u64 (in_pos_ c + pr_consumed result)) c in
        if kCompactThresholdBytes <=? in_pos_ c then compact_input c else c
    | ParseStatus.kNeedMoreData => compact_input c
    | ParseStatus.kMalformed => c
    end in
  Some (result, out, c).

(** The inner option is [false]: the out-parameters [id] and [opcode] are
    written only when the result is [true]. *)
Definition peek_request_header (c : Connection) : option (option (Z * Opcode.t)) :=
  head ← input_view c;
  if len head <? kHeaderSize then Some None else
  magic ← read_u32 head;
  if negb (magic =? kMagic) then Some None else
  raw_opcode ← read_u8 (ptr_add head 5);
  if negb (is_valid_opcode raw_opcode) then Some None else
  id ← read_u64 (ptr_add head 8);
  Some (Some (id, Opcode.of_raw raw_opcode)).

Definition has_pending_output (c : Connection) : bool := 0 <? pending_output_bytes_ c.

Definition inflight_limit_reached (c : Connection) : bool := max_inflight (limits_ c) <=? inflight_ c.

Definition read_paused (c : Connection) : bool :=
  (max_output_bytes (limits_ c) <? pending_output_bytes_ c) || inflight_limit_reached c.

Definition note_request_submitted (c : Connection) : Connection :=
  set_inflight (u64 (inflight_ c + 1)) c.

Definition mark_close_after_flush (c : Connection) : Connection := set_close_after_flush true c.
Definition mark_closed (c : Connection) : Connection := set_closed true c.

(** [try_mark_notified] is an exchange: it reports whether the flag was clear. *)
Definition try_mark_notified (c : Connection) : bool * Connection :=
  (negb (notify_pending_ c), set_notify_pending true c).
Definition clear_notified (c : Connection) : Connection := set_notify_pending false c.

(** ** Output: staging by any thread *)

(** The block of [enqueue_response] under [out_mutex_]; the result is
    [over_limit]. *)
Definition stage (c : Connection) (frame : bytes) : bool * Connection :=
  let c := set_staged (staged_ c ++ frame) c in
  let pending := u64 (pending_output_bytes_ c + len frame) in
  let c := set_pending_output_bytes pending c in
  (u64 (max_output_bytes (limits_ c) * 2) <? pending, c).

Definition complete_request (completes_request : bool) (c : Connection) : Connection :=
  if completes_request then set_inflight (u64 (inflight_ c - 1)) c else c.

Definition enqueue_response (c : Connection) (frame : bytes) (completes_request : bool)
    : bool * Connection :=
  if closed_ c then (false, complete_request completes_request c) else
  let '(over_limit, c) := stage c frame in
  (negb over_limit, complete_request completes_request c).

(** ** Output: flushing by the event loop *)

(** The top of the loop of [flush_output]: take over the staged bytes when
    everything taken before is written.  [true] when nothing is left. *)
Definition refill (c : Connection) : bool * Connection :=
  if len (write_buf_ c) <=? write_pos_ c then
    let c := set_write_pos 0 (set_write_buf [] c) in
    if len (staged_ c) =? 0 then (true, c)
    else (false, set_staged [] (set_write_buf (staged_ c) c))
  else (false, c).

(** The bytes handed to [send]. *)
Definition unwritten (c : Connection) : bytes := drop (Z.to_nat (write_pos_ c)) (write_buf_ c).

(** What follows a successful [send] of [n] bytes. *)
Definition advance (n : Z) (c : Connection) : Connection := set_write_pos (u64 (write_pos_ c + n)) c.
Definition release (n : Z) (c : Connection) : Connection :=
  set_pending_output_bytes (u64 (pending_output_bytes_ c - n)) c.

(** One [send] and the branches after it: the loop goes on ([None]) or the
    function returns.  The last component is what reached the socket. *)
Definition send_once (c : Connection) (r : SendResult) : option IoResult.t * Connection * bytes :=
  match r with
  | Sent n =>
      if 0 <? n then (None, release n (advance n c), take (Z.to_nat n) (unwritten c))
      else (Some IoResult.kError, c, [])
  | SendFailed errno =>
      if errno =? EINTR then (None, c, [])
      else if (errno =? EAGAIN) || (errno =? EWOULDBLOCK) then (Some IoResult.kWouldBlock, c, [])
      else (Some IoResult.kError, c, [])
  end.

(** The loop.  Each call of [send] is answered by the next function of the
    list, applied to the number of bytes offered; [None] when the loop makes
    more calls than there are answers. *)
Fixpoint flush_output (sends : list (Z -> SendResult)) (c : Connection)
    : option (IoResult.t * Connection * bytes) :=
  let '(done, c) := refill c in
  if done then Some (IoResult.kOk, c, []) else
  match sends with
  | [] => None
  | r :: sends =>
      match send_once c (r (len (unwritten c))) with
      | (Some result, c, wire) => Some (result, c, wire)
      | (None, c, wire) =>
          '(result, c, wire') ← flush_output sends c;
          Some (result, c, wire ++ wire')
      end
  end.

(** ** The input buffer *)

(** The bytes received and not yet consumed. *)
Definition unread (c : Connection) : bytes := drop (Z.to_nat (in_pos_ c)) (in_buf_ c).

(** The consumed prefix still in the buffer stays below the threshold. *)
Record wf_in (c : Connection) : Prop := mkWfIn {
  wf_in_pos : 0 <= in_pos_ c <= len (in_buf_ c);
  wf_in_prefix : in_pos_ c < kCompactThresholdBytes;
}.

Lemma len_unread c : wf_in c -> len (unread c) = len (in_buf_ c) - in_pos_ c.
Proof. intros [? _]. unfold unread, len in *. rewrite length_drop. lia. Qed.

Lemma input_view_eq c : wf_in c -> input_view c = Some (unread c).
Proof. intros [? _]. unfold input_view. destruct (Z.leb_spec (in_pos_ c) (len (in_buf_ c))); [done|lia]. Qed.

Lemma compact_input_spec c : wf_in c ->
  in_pos_ (compact_input c) = 0 /\ in_buf_ (compact_input c) = unread c /\
  limits_ (compact_input c) = limits_ c.
Proof.
  intros Hc. unfold compact_input, unread. destruct (Z.eqb_spec (in_pos_ c) 0) as [E|]; [|done].
  by rewrite E, drop_0.
Qed.

Lemma wf_in_compact c : wf_in c -> wf_in (compact_input c).
Proof.
  intros Hc. destruct (compact_input_spec c Hc) as (Hp & Hb & _). pose proof (len_unread c Hc).
  destruct Hc. split; rewrite ?Hp, ?Hb; unfold kCompactThresholdBytes; pose proof (len_nonneg (unread c)); lia.
Qed.

Lemma unread_compact c : wf_in c -> unread (compact_input c) = unread c.
Proof. intros Hc. destruct (compact_input_spec c Hc) as (Hp & Hb & _). unfold unread at 1. by rewrite Hp, Hb. Qed.

(** Only the input buffer differs. *)
Definition input_only (c c' : Connection) : Prop :=
  exists b p, c' = set_in_pos p (set_in_buf b c).

Lemma input_only_refl c : input_only c c.
Proof. exists (in_buf_ c), (in_pos_ c). by destruct c. Qed.

Lemma input_only_compact c c' : input_only c c' -> input_only c (compact_input c').
Proof. intros (b & p & ->). unfold compact_input. split_if; eexists _, _; reflexivity. Qed.

(** Consuming [n] bytes of the view, with the compaction that may follow. *)
Lemma consume_spec c n : wf_in c -> 0 <= n <= len (unread c) -> n <= kMaxFrameBytes ->
  let c1 := set_in_pos (u64 (in_pos_ c + n)) c in
  let c2 := if kCompactThresholdBytes <=? in_pos_ c1 then compact_input c1 else c1 in
  wf_in c2 /\ unread c2 = drop (Z.to_nat n) (unread c) /\ input_only c c2.
Proof.
  intros Hc Hn Hmax c1 c2. pose proof (len_unread c Hc) as Hu. destruct Hc as [Hp Hl].
  assert (E : in_pos_ c1 = in_pos_ c + n).
  { apply u64_small. unfold kCompactThresholdBytes, kMaxFrameBytes, kHeaderSize, kMaxKeyBytes, kMaxValueBytes in *. lia. }
  assert (Hr : unread c1 = drop (Z.to_nat n) (unread c)).
  { unfold unread. rewrite E, drop_drop. simpl. f_equal. lia. }
  assert (Ho : input_only c c1) by (by exists (in_buf_ c), (in_pos_ c1); destruct c).
  subst c2. destruct (Z.leb_spec kCompactThresholdBytes (in_pos_ c1)) as [Ht|Ht].
  - assert (E2 : in_pos_ (compact_input c1) = 0 /\ in_buf_ (compact_input c1) = unread c1).
    { unfold compact_input, unread. destruct (Z.eqb_spec (in_pos_ c1) 0) as [Z0|]; [|done].
      by rewrite Z0, drop_0. }
    destruct E2 as [E1 E2]. pose proof (len_nonneg (unread c1)).
    assert (len (unread c1) <= len (unread c)) by (rewrite Hr; unfold len; rewrite length_drop; lia).
    repeat split; rewrite ?E1, ?E2; try (unfold kCompactThresholdBytes; lia).
    + unfold unread at 1. by rewrite E1, E2.
    + by apply input_only_compact.
  - repeat split; try done; rewrite ?E; simpl; lia.
Qed.

(** [next_request] on each of its branches. *)
Lemma next_request_spec c out : wf_in c ->
  exists res r c', next_request c out = Some (res, r, c') /\
    deserialize_request (unread c) (protocol_limits (limits_ c)) out = Some (res, r) /\
    wf_in c' /\ input_only c c' /\
    match pr_status res with
    | ParseStatus.kComplete =>
        request_ok (protocol_limits (limits_ c)) r = true /\
        unread c = serialize_request r ++ unread c'
    | ParseStatus.kNeedMoreData => r = out /\ in_pos_ c' = 0 /\ in_buf_ c' = unread c
    | ParseStatus.kMalformed => r = out /\ c' = c
    end.
Proof.
  intros Hc. unfold next_request. rewrite input_view_eq by done. cbn [mbind option_bind].
  set (limits := protocol_limits (limits_ c)).
  pose proof (deserialize_request_eq (unread c) limits out) as Hd. rewrite Hd.
  destruct (reference_request_cases (unread c) limits out)
    as [[E _]|[(_ & _ & E)|(_ & _ & Hf & E)]]; rewrite E in Hd |- *; cbn [mbind option_bind];
    eexists _, _, _; (split; [reflexivity|]); (split; [reflexivity|]); cbn [pr_status need_more malformed complete].
  - destruct (compact_input_spec c Hc) as (? & ? & _).
    split; [by apply wf_in_compact|]. split; [apply input_only_compact, input_only_refl | done].
  - split; [done|]. split; [apply input_only_refl | done].
  - destruct (deserialize_request_complete _ _ _ _ _ Hd) as (Hok & Hn & rest & Hrest).
    rewrite Hn. clear Hn E Hd. set (r := request_of (unread c)) in *. clearbody r.
    assert (Hlen : len (unread c) = len (serialize_request r) + len rest)
      by (rewrite Hrest; apply len_app).
    pose proof (len_nonneg rest). pose proof (len_nonneg (serialize_request r)).
    destruct (consume_spec c (len (serialize_request r)) Hc ltac:(lia) (request_frame_max _ _ Hok)) as (Hw & Hu & Ho).
    split; [done|]. split; [done|]. split; [done|]. cbn [pr_consumed complete]. rewrite Hu, Hrest. f_equal.
    unfold len. by rewrite Nat2Z.id, drop_app_length.
Qed.

(** ** Any interleaving of reads and parses *)

Inductive InputEvent : Set :=
  | InRead (r : RecvResult)  (* the event loop calls [read_some] *)
  | InNext.                  (* the event loop calls [next_request] *)

(** The requests delivered, oldest first. *)
Fixpoint run_input (evs : list InputEvent) (c : Connection) : option (list Request * Connection) :=
  match evs with
  | [] => Some ([], c)
  | InRead r :: evs => run_input evs (read_some c r).2
  | InNext :: evs =>
      '(res, r, c) ← next_request c default_request;
      '(rs, c) ← run_input evs c;
      Some (match pr_status res with ParseStatus.kComplete => r :: rs | _ => rs end, c)
  end.

(** The bytes the socket delivered. *)
Definition received (evs : list InputEvent) : bytes :=
  concat (map (fun ev => match ev with InRead (Received d) => d | _ => [] end) evs).

Definition encoded (rs : list Request) : bytes := concat (map serialize_request rs).

Lemma read_some_spec c r : wf_in c ->
  wf_in (read_some c r).2 /\ input_only c (read_some c r).2 /\
  unread (read_some c r).2 = unread c ++ received [InRead r].
Proof.
  intros Hc. unfold received in *. simpl in *. rewrite app_nil_r in *.
  destruct r as [d|e]; cbn [read_some].
  - destruct (Z.ltb_spec 0 (len d)); simpl.
    + pose proof (len_nonneg d). destruct Hc as [Hp Ht]. split; [|split].
      * split; simpl; rewrite ?len_app; lia.
      * exists (in_buf_ c ++ d), (in_pos_ c). by destruct c.
      * unfold unread. simpl. rewrite drop_app_le; [done | unfold len in *; lia].
    + pose proof (len_nonneg d). rewrite (len_0 d) by lia. rewrite app_nil_r.
      split; [done|]. split; [apply input_only_refl | done].
  - rewrite app_nil_r. repeat split_if; (split; [done|]; split; [apply input_only_refl | done]).
Qed.

Lemma received_cons ev evs : received (ev :: evs) = received [ev] ++ received evs.
Proof. unfold received. simpl. by rewrite app_nil_r. Qed.

Lemma wf_in_bound c : wf_in c -> len (in_buf_ c) < len (unread c) + kCompactThresholdBytes.
Proof. intros Hc. pose proof (len_unread c Hc). destruct Hc. lia. Qed.

Lemma input_only_limits c c' : input_only c c' -> limits_ c' = limits_ c.
Proof. by intros (b & p & ->). Qed.

Lemma run_input_spec evs c : wf_in c ->
  exists rs c', run_input evs c = Some (rs, c') /\ wf_in c' /\ limits_ c' = limits_ c /\
    unread c ++ received evs = encoded rs ++ unread c' /\
    Forall (fun r => request_ok (protocol_limits (limits_ c)) r = true) rs.
Proof.
  revert c. induction evs as [|ev evs IH]; intros c Hc.
  { exists [], c. split; [done|]. split; [done|]. split; [done|]. split; [|constructor].
    change (received []) with (@nil byte). by rewrite app_nil_r. }
  rewrite received_cons. destruct ev as [r|]; cbn [run_input].
  - destruct (read_some_spec c r Hc) as (Hw & Ho & Hu).
    destruct (IH _ Hw) as (rs & c' & Hr & Hw' & Hl & Hs & Hok).
    rewrite (input_only_limits _ _ Ho) in *. exists rs, c'.
    split; [done|]. split; [done|]. split; [done|]. split; [|done].
    by rewrite app_assoc, <- Hu.
  - destruct (next_request_spec c default_request Hc) as (res & r & c1 & -> & _ & Hw & Ho & Hcase).
    cbn [mbind option_bind].
    assert (Hu : unread c = match pr_status res with ParseStatus.kComplete => serialize_request r | _ => [] end
                            ++ unread c1).
    { destruct (pr_status res); [apply Hcase | | by destruct Hcase as [_ ->]].
      destruct Hcase as (_ & Hp & <-). unfold unread. by rewrite Hp, drop_0. }
    destruct (IH c1 Hw) as (rs & c' & Hr & Hw' & Hl & Hs & Hok).
    rewrite (input_only_limits _ _ Ho) in *. rewrite Hr. cbn [mbind option_bind].
    eexists _, c'. split; [reflexivity|]. split; [done|]. split; [done|].
    change (received [InNext]) with (@nil byte). rewrite app_nil_l, Hu, <- app_assoc, Hs, app_assoc.
    destruct (pr_status res); split; try done; constructor; [apply Hcase | done].
Qed.

(** A stream splits in one way into well-formed requests and a rest that does
    not start with a complete one. *)
Definition no_request (limits : Limits) (s : bytes) : Prop :=
  forall n r, deserialize_request s limits default_request <> Some (complete n, r).

Lemma encoded_unique limits rs1 rs2 u1 u2 :
  Forall (fun r => request_ok limits r = true) rs1 ->
  Forall (fun r => request_ok limits r = true) rs2 ->
  no_request limits u1 -> no_request limits u2 ->
  encoded rs1 ++ u1 = encoded rs2 ++ u2 -> rs1 = rs2 /\ u1 = u2.
Proof.
  intros H1. revert rs2. induction H1 as [|r1 rs1 Hr1 H1 IH]; intros rs2 H2 Hn1 Hn2 He.
  - destruct H2 as [|r2 rs2 Hr2 H2]; [done|]. exfalso. apply (Hn1 (len (serialize_request r2)) r2).
    change (u1 = (serialize_request r2 ++ encoded rs2) ++ u2) in He.
    rewrite He, <- app_assoc. by apply deserialize_request_frame.
  - change (encoded (r1 :: rs1)) with (serialize_request r1 ++ encoded rs1) in He.
    rewrite <- app_assoc in He.
    pose proof (deserialize_request_frame limits r1 (encoded rs1 ++ u1) default_request Hr1) as Hd.
    destruct H2 as [|r2 rs2 Hr2 H2].
    { exfalso. rewrite He in Hd. by eapply Hn2. }
    change (encoded (r2 :: rs2)) with (serialize_request r2 ++ encoded rs2) in He.
    rewrite <- app_assoc in He. rewrite He, deserialize_request_frame in Hd by done.
    injection Hd as _ <-. apply app_inv_head in He.
    destruct (IH rs2 H2 Hn1 Hn2 He) as [-> ->]. done.
Qed.

(** ** The output path *)

(** What is accepted and not yet on the wire. *)
Definition backlog (c : Connection) : bytes := unwritten c ++ staged_ c.

Record wf_out (c : Connection) : Prop := mkWfOut {
  wf_out_pos : 0 <= write_pos_ c <= len (write_buf_ c);
  wf_out_size : len (write_buf_ c) < 2 ^ 64;
}.

Lemma len_unwritten c : wf_out c -> len (unwritten c) = len (write_buf_ c) - write_pos_ c.
Proof. intros [? _]. unfold unwritten, len in *. rewrite length_drop. lia. Qed.

(** Taking over staged bytes loses nothing, and afterwards there is something
    to send unless the backlog is empty. *)
Lemma refill_spec c : wf_out c -> len (staged_ c) < 2 ^ 64 ->
  wf_out (refill c).2 /\ backlog (refill c).2 = backlog c /\
  pending_output_bytes_ (refill c).2 = pending_output_bytes_ c /\
  len (staged_ (refill c).2) <= len (staged_ c) /\
  (if (refill c).1 then backlog c = [] else 0 < len (unwritten (refill c).2)).
Proof.
  intros Hc Hs. pose proof (len_unwritten c Hc) as Hu. pose proof (len_nonneg (staged_ c)).
  unfold refill. destruct (Z.leb_spec (len (write_buf_ c)) (write_pos_ c)) as [Hle|Hgt].
  - assert (E : unwritten c = []) by (apply len_0; destruct Hc; lia).
    assert (Eb : backlog c = staged_ c) by (unfold backlog; by rewrite E).
    change (staged_ (set_write_pos 0 (set_write_buf [] c))) with (staged_ c).
    destruct (Z.eqb_spec (len (staged_ c)) 0) as [E0|E0]; cbn [fst snd].
    + apply len_0 in E0. rewrite Eb. split; [split; [split; done | reflexivity]|]. split; [|done].
      unfold backlog, unwritten. simpl. done.
    + rewrite Eb. split; [split; simpl; lia|]. split; [|split; [done|]].
      * unfold backlog, unwritten. simpl. by rewrite drop_0, app_nil_r.
      * unfold unwritten. simpl. rewrite drop_0. change (len []) with 0. lia.
  - simpl. repeat split; try apply Hc; lia.
Qed.

Lemma advance_spec c n : wf_out c -> 0 <= n <= len (unwritten c) ->
  wf_out (advance n c) /\ backlog c = take (Z.to_nat n) (unwritten c) ++ backlog (advance n c) /\
  staged_ (advance n c) = staged_ c /\ len (unwritten (advance n c)) = len (unwritten c) - n.
Proof.
  intros Hc Hn. pose proof (len_unwritten c Hc) as Hu. destruct Hc as [Hp Hs].
  assert (E : write_pos_ (advance n c) = write_pos_ c + n) by (apply u64_small; lia).
  assert (Hd : unwritten (advance n c) = drop (Z.to_nat n) (unwritten c)).
  { unfold unwritten. rewrite E, drop_drop. simpl. f_equal. lia. }
  assert (Hw : wf_out (advance n c)) by (split; rewrite ?E; simpl; lia).
  split; [done|]. split; [|split; [done|]].
  - unfold backlog. rewrite Hd, app_assoc, take_drop. done.
  - rewrite (len_unwritten _ Hw), E. simpl. lia.
Qed.

(** The counter of pending bytes agrees with the backlog. *)
Definition counted (c : Connection) : Prop := pending_output_bytes_ c = u64 (len (backlog c)).

Lemma send_once_spec c r : wf_out c -> counted c -> send_ok (len (unwritten c)) r ->
  let '(result, c', wire) := send_once c r in
  wf_out c' /\ counted c' /\ backlog c = wire ++ backlog c' /\ staged_ c' = staged_ c /\
  (result <> Some IoResult.kOk) /\ (result <> Some IoResult.kClosed) /\
  (result <> None -> wire = []) /\
  (result = None -> r <> SendFailed EINTR -> len (backlog c') < len (backlog c)).
Proof.
  intros Hc Hp Hr. unfold send_once. destruct r as [n|e].
  - simpl in Hr. destruct (Z.ltb_spec 0 n); [|by split_and!].
    destruct (advance_spec c n Hc Hr) as (Hw & Hb & Hs & Hl).
    change (backlog (release n (advance n c))) with (backlog (advance n c)).
    assert (Hlen : len (backlog (advance n c)) = len (backlog c) - n).
    { unfold backlog. rewrite !len_app, Hl, Hs. lia. }
    split_and!; try done; [by destruct Hw; split | | intros _ _; change (len (backlog (advance n c)) < len (backlog c)); lia].
    unfold counted. change (u64 (pending_output_bytes_ c - n) = u64 (len (backlog (advance n c)))).
    by rewrite Hp, u64_sub_l, Hlen.
  - destruct (Z.eqb_spec e EINTR) as [->|]; [by split_and!|].
    destruct ((e =? EAGAIN) || (e =? EWOULDBLOCK)); by split_and!.
Qed.

(** A state in which the event loop may flush. *)
Record flushable (c : Connection) : Prop := mkFlushable {
  fl_wf : wf_out c;
  fl_counted : counted c;
  fl_staged : len (staged_ c) < 2 ^ 64;
}.

(** One turn of the loop of [flush_output] that calls [send]. *)
Lemma flush_turn_spec c r : flushable c -> kernel_send r ->
  (refill c).1 = false ->
  let '(result, c', wire) := send_once (refill c).2 (r (len (unwritten (refill c).2))) in
  flushable c' /\ backlog c = wire ++ backlog c' /\
  (result <> Some IoResult.kOk) /\ (result <> Some IoResult.kClosed) /\
  (result = None -> (forall n, r n <> SendFailed EINTR) -> len (backlog c') < len (backlog c)).
Proof.
  intros [Hw Hp Hs] Hr Hd. destruct (refill_spec c Hw Hs) as (Hw1 & Hb & Hp1 & Hs1 & Hu).
  rewrite Hd in Hu.
  assert (Hp2 : counted (refill c).2) by (unfold counted; by rewrite Hp1, Hb).
  pose proof (send_once_spec _ _ Hw1 Hp2 (Hr _ Hu)) as Hso.
  destruct (send_once _ _) as [[result c'] wire]. destruct Hso as (? & ? & He & Hse & ? & ? & _ & Hlt).
  rewrite Hb in *. split_and!; try done; [split; try done; rewrite Hse; lia|].
  intros Hn Hi. by apply Hlt.
Qed.

Lemma flush_done_spec c : flushable c -> (refill c).1 = true ->
  flushable (refill c).2 /\ backlog c = [] /\ backlog (refill c).2 = [].
Proof.
  intros [Hw Hp Hs] Hd. destruct (refill_spec c Hw Hs) as (Hw1 & Hb & Hp1 & Hs1 & Hu).
  rewrite Hd in Hu. split_and!; [|done|by rewrite Hb].
  split; [done | unfold counted; by rewrite Hp1, Hb | lia].
Qed.

Lemma flush_output_exact sends c res c' wire : flushable c -> Forall kernel_send sends ->
  flush_output sends c = Some (res, c', wire) ->
  flushable c' /\ backlog c = wire ++ backlog c' /\ res <> IoResult.kClosed /\
  (res = IoResult.kOk -> backlog c' = []).
Proof.
  intros Hc Hk. revert c Hc res c' wire. induction Hk as [|r sends Hr _ IH]; intros c Hc res c' wire;
    cbn [flush_output]; destruct (refill c) as [done c1] eqn:Er; (destruct done; [intros [= <- <- <-]|]).
  - destruct (flush_done_spec c Hc) as (? & -> & E); rewrite Er in *; cbn [fst snd] in *; rewrite ?E; done.
  - done.
  - destruct (flush_done_spec c Hc) as (? & -> & E); rewrite Er in *; cbn [fst snd] in *; rewrite ?E; done.
  - pose proof (flush_turn_spec c r Hc Hr) as Ht. rewrite Er in Ht. specialize (Ht eq_refl). cbn [fst snd] in Ht.
    destruct (send_once _ _) as [[[result|] c2] w]; destruct Ht as (Hc2 & He & Hn1 & Hn2 & _).
    + intros [= <- <- <-]. split_and!; [done | done | congruence | congruence].
    + destruct (flush_output sends c2) as [[[res3 c3] w3]|] eqn:Ef; [|done]. intros [= <- <- <-].
      destruct (IH c2 Hc2 _ _ _ Ef) as (? & Hb3 & ? & ?). split_and!; try done.
      by rewrite He, Hb3, app_assoc.
Qed.

(** Answers other than an interruption bring the loop closer to its end. *)
Lemma flush_output_total sends c good : flushable c -> Forall kernel_send sends ->
  good `sublist_of` sends -> Forall (fun r => forall n, r n <> SendFailed EINTR) good ->
  len (backlog c) <= len good -> is_Some (flush_output sends c).
Proof.
  intros Hc Hk. revert c good Hc. induction Hk as [|r sends Hr _ IH]; intros c good Hc Hsub Hg Hl;
    cbn [flush_output];
    pose proof (refill_spec c (fl_wf _ Hc) (fl_staged _ Hc)) as (Hw1 & Hb & Hp1 & Hs1 & Hu);
    destruct (refill c) as [done c1] eqn:Er; cbn [fst snd] in *; (destruct done; [by eexists|]).
  - apply sublist_nil_r in Hsub as ->. rewrite <- Hb in Hl. unfold backlog in Hl.
    rewrite len_app, len_nil in Hl. pose proof (len_nonneg (staged_ c1)). lia.
  - pose proof (flush_turn_spec c r Hc Hr) as Ht. rewrite Er in Ht. specialize (Ht eq_refl). cbn [fst snd] in Ht.
    destruct (send_once _ _) as [[[result|] c2] w]; destruct Ht as (Hc2 & He & _ & _ & Hlt); [by eexists|].
    assert (Hsome : is_Some (flush_output sends c2)).
    { apply sublist_cons_r in Hsub as [Hsub|(good' & -> & Hsub)].
      - apply (IH c2 good); try done. rewrite He, len_app in Hl. pose proof (len_nonneg w). lia.
      - apply Forall_cons in Hg as [Hr0 Hg]. apply (IH c2 good'); try done.
        specialize (Hlt eq_refl Hr0). rewrite len_cons in Hl. lia. }
    destruct Hsome as [[[res3 c3] w3] ->]. by eexists.
Qed.

(** ** Workers staging while the event loop flushes

    [flush_output] holds [out_mutex_] only while it takes over the staged
    bytes; a worker's critical section may come at any other point of the
    loop, also between [write_pos_ += n] and the [fetch_sub] of the pending
    counter.  [FlushPc] is where the event loop stands. *)

Inductive FlushPc : Set :=
  | PcIdle               (* not in [flush_output] *)
  | PcTop                (* at the top of the loop *)
  | PcSend               (* about to call [send] *)
  | PcRelease (n : Z).   (* [n] bytes sent, the counter not yet updated *)

Record OutState := mkOutState {
  os_pc : FlushPc;
  os_conn : Connection;
  os_wire : bytes;         (* what the socket took, in order *)
  os_frames : list bytes;  (* the frames staged, in the order of the critical sections *)
}.

Inductive out_step : OutState -> OutState -> Prop :=
  | step_stage pc c wire frames frame :
      out_step (mkOutState pc c wire frames)
        (mkOutState pc (stage c frame).2 wire (frames ++ [frame]))
  | step_flush c wire frames :
      out_step (mkOutState PcIdle c wire frames) (mkOutState PcTop c wire frames)
  | step_refill c wire frames :
      out_step (mkOutState PcTop c wire frames)
        (mkOutState (if (refill c).1 then PcIdle else PcSend) (refill c).2 wire frames)
  | step_sent c wire frames n : 0 < n -> send_ok (len (unwritten c)) (Sent n) ->
      out_step (mkOutState PcSend c wire frames)
        (mkOutState (PcRelease n) (advance n c) (wire ++ take (Z.to_nat n) (unwritten c)) frames)
  | step_release n c wire frames :
      out_step (mkOutState (PcRelease n) c wire frames) (mkOutState PcTop (release n c) wire frames)
  | step_interrupted c wire frames :
      out_step (mkOutState PcSend c wire frames) (mkOutState PcTop c wire frames)
  | step_return c wire frames :  (* [EAGAIN] or an error *)
      out_step (mkOutState PcSend c wire frames) (mkOutState PcIdle c wire frames).

Definition owed (pc : FlushPc) : Z := match pc with PcRelease n => n | _ => 0 end.

Record out_inv (s : OutState) : Prop := mkOutInv {
  oi_wf : wf_out (os_conn s);
  oi_stream : concat (os_frames s) = os_wire s ++ backlog (os_conn s);
  oi_pending : pending_output_bytes_ (os_conn s) = u64 (len (backlog (os_conn s)) + owed (os_pc s));
  oi_send : os_pc s = PcSend -> 0 < len (unwritten (os_conn s));
}.

Lemma stage_spec c frame : let c' := (stage c frame).2 in
  (wf_out c -> wf_out c') /\ backlog c' = backlog c ++ frame /\ unwritten c' = unwritten c /\
  pending_output_bytes_ c' = u64 (pending_output_bytes_ c + len frame).
Proof.
  split_and!; [by intros []; split | | done | done].
  unfold backlog. simpl. by rewrite app_assoc.
Qed.

Lemma out_inv_staged s : out_inv s -> len (concat (os_frames s)) < 2 ^ 64 ->
  len (staged_ (os_conn s)) < 2 ^ 64.
Proof.
  intros [_ Hs _ _] Hb. rewrite Hs in Hb. unfold backlog in Hb. rewrite !len_app in Hb.
  pose proof (len_nonneg (os_wire s)). pose proof (len_nonneg (unwritten (os_conn s))). lia.
Qed.

Lemma out_step_inv s s' : out_step s s' -> len (concat (os_frames s)) < 2 ^ 64 ->
  out_inv s -> out_inv s'.
Proof.
  intros Hstep Hb Hi. pose proof (out_inv_staged s Hi Hb) as Hst. destruct Hi as [Hw Hs Hp Hn].
  destruct Hstep as [pc c wire frames frame|c wire frames|c wire frames|c wire frames n H0 Hok
    |n c wire frames|c wire frames|c wire frames]; cbn [os_pc os_conn os_wire os_frames] in *.
  - destruct (stage_spec c frame) as (Hw' & Hb' & Hu' & Hp').
    split; cbn [os_pc os_conn os_wire os_frames]; [auto | | | by rewrite Hu'].
    + rewrite concat_app, Hs, Hb', app_assoc. simpl. by rewrite app_nil_r.
    + rewrite Hp', Hp, u64_add_l, Hb', len_app. f_equal. lia.
  - by split.
  - destruct (refill_spec c Hw Hst) as (Hw' & Hb' & Hp' & _ & Hu').
    destruct (refill c) as [done c']; cbn [fst snd] in *.
    split; cbn [os_pc os_conn os_wire os_frames]; [done | by rewrite Hb' | | by destruct done].
    rewrite Hp', Hb', Hp. by destruct done.
  - destruct (advance_spec c n Hw Hok) as (Hw' & Hb' & Hs' & Hl').
    split; cbn [os_pc os_conn os_wire os_frames owed]; [done | | | done].
    + by rewrite Hs, Hb', app_assoc.
    + change (pending_output_bytes_ (advance n c)) with (pending_output_bytes_ c). rewrite Hp.
      unfold backlog. rewrite !len_app, Hl', Hs'. simpl. f_equal. lia.
  - split; cbn [os_pc os_conn os_wire os_frames owed]; [by destruct Hw; split | done | | done].
    simpl. rewrite Hp. simpl. rewrite u64_sub_l. f_equal.
    change (backlog (release n c)) with (backlog c). lia.
  - by split.
  - by split.
Qed.

Definition out_init (c : Connection) : OutState := mkOutState PcIdle c [] [].

Lemma out_step_frames s s' : out_step s s' ->
  len (concat (os_frames s)) <= len (concat (os_frames s')).
Proof.
  destruct 1; simpl; try lia. rewrite concat_app, len_app. pose proof (len_nonneg (concat [frame])). lia.
Qed.

Lemma out_steps_inv s s' : out_inv s -> rtc out_step s s' ->
  len (concat (os_frames s')) < 2 ^ 64 -> out_inv s'.
Proof.
  intros Hi. revert s'. refine (rtc_ind_r _ s _ _); [done|]. intros s1 s2 _ Hstep IH Hb.
  pose proof (out_step_frames _ _ Hstep). eapply out_step_inv; [done | lia | apply IH; lia].
Qed.

Lemma out_init_inv fd id limits : out_inv (out_init (new_connection fd id limits)).
Proof. split; [by split | done | done | done]. Qed.

(** ** Properties *)

(** whatever sequence of reads and parses the event loop performs on a new
    connection, the requests it delivers are well formed and their encodings,
    followed by what is still buffered, are exactly the bytes received, in
    order; no access is out of bounds, and the consumed prefix kept in the
    buffer stays below 32 KiB. *)
Theorem input_stream_integrity fd id limits evs :
  exists rs c, run_input evs (new_connection fd id limits) = Some (rs, c) /\
    received evs = encoded rs ++ unread c /\
    Forall (fun r => request_ok (protocol_limits limits) r = true) rs /\
    len (in_buf_ c) < len (unread c) + kCompactThresholdBytes.
Proof.
  destruct (run_input_spec evs (new_connection fd id limits)) as (rs & c & Hr & Hw & _ & Hs & Hok).
  - by split.
  - exists rs, c. split_and!; try done. by apply wf_in_bound.
Qed.

Definition demo_requests : list Request :=
  [ mkRequest Opcode.kPut 7 (lit "k") (lit "hello"); mkRequest Opcode.kGet 8 (lit "k") [];
    mkRequest Opcode.kPing 9 [] [] ].

(** The stream of [demo_requests] in pieces of [n] bytes, a parse after each. *)
Definition demo_chunks (n : nat) : list InputEvent :=
  let stream := encoded demo_requests in
  concat (map (fun i => [InRead (Received (take n (drop (i * n) stream))); InNext])
              (seq 0 (S (length stream / n)))) ++ [InNext; InNext; InNext].

(** how the stream was cut into reads, and when the parser ran in between,
    does not matter: two connections that received the same bytes and have no
    complete request left deliver the same requests and keep the same rest. *)
Theorem input_chunk_independent fd id limits evs1 evs2 rs1 rs2 c1 c2 :
  received evs1 = received evs2 ->
  run_input evs1 (new_connection fd id limits) = Some (rs1, c1) ->
  run_input evs2 (new_connection fd id limits) = Some (rs2, c2) ->
  no_request (protocol_limits limits) (unread c1) ->
  no_request (protocol_limits limits) (unread c2) ->
  rs1 = rs2 /\ unread c1 = unread c2.
Proof.
  intros He Hr1 Hr2 Hn1 Hn2.
  destruct (run_input_spec evs1 (new_connection fd id limits)) as (rs & c & Hr & _ & _ & Hs & Hok); [by split|].
  destruct (run_input_spec evs2 (new_connection fd id limits)) as (rs' & c' & Hr' & _ & _ & Hs' & Hok');
    [by split|].
  simplify_eq. apply (encoded_unique (protocol_limits limits)); try done.
  by rewrite <- Hs, <- Hs', He.
Qed.

Lemma input_chunk_independent_witness : demo_requests = demo_requests /\ @nil byte = [].
Proof.
  set (limits := default_connection_limits).
  set (final n := match run_input (demo_chunks n) (new_connection 5 1 limits) with
                  | Some (_, c) => c | None => new_connection 5 1 limits end).
  exact (input_chunk_independent 5 1 limits (demo_chunks 1) (demo_chunks 40) demo_requests demo_requests
    (final 1%nat) (final 40%nat) ltac:(vm_compute; reflexivity)
    ltac:(vm_compute; reflexivity) ltac:(vm_compute; reflexivity)
    ltac:(intros n r; vm_compute; congruence) ltac:(intros n r; vm_compute; congruence)).
Defined.

(** [flush_output] returns once the socket has given as many answers other
    than an interruption as there are pending bytes; it writes a prefix of the
    backlog in order and loses nothing, the pending counter stays exact, and
    it reports [kOk] only when everything is written. *)
Theorem flush_output_correct sends c good : flushable c -> Forall kernel_send sends ->
  good `sublist_of` sends -> Forall (fun r => forall n, r n <> SendFailed EINTR) good ->
  len (backlog c) <= len good ->
  exists res c' wire, flush_output sends c = Some (res, c', wire) /\
    backlog c = wire ++ backlog c' /\ flushable c' /\ res <> IoResult.kClosed /\
    (res = IoResult.kOk -> backlog c' = [] /\ has_pending_output c' = false).
Proof.
  intros Hc Hk Hsub Hg Hl. destruct (flush_output_total sends c good) as [[[res c'] wire] E]; try done.
  destruct (flush_output_exact sends c res c' wire Hc Hk E) as (Hc' & Hb & Hn & Hok).
  exists res, c', wire. split_and!; try done. intros Hres. specialize (Hok Hres). split; [done|].
  unfold has_pending_output. by rewrite (fl_counted _ Hc'), Hok.
Qed.

(** A connection with a partly written buffer and staged bytes. *)
Definition demo_output : Connection :=
  set_pending_output_bytes 10
    (set_staged (lit "response") (set_write_pos 3 (set_write_buf (lit "hello") (new_connection 5 1 default_connection_limits)))).

(** A socket that is interrupted first and then takes up to 3 bytes a call. *)
Definition demo_sends : list (Z -> SendResult) :=
  (fun _ => SendFailed EINTR) :: replicate 10 (fun n => Sent (Z.min n 3)).

Lemma flush_output_correct_witness :
  exists res c' wire, flush_output demo_sends demo_output = Some (res, c', wire) /\
    backlog demo_output = wire ++ backlog c' /\ flushable c' /\ res <> IoResult.kClosed /\
    (res = IoResult.kOk -> backlog c' = [] /\ has_pending_output c' = false).
Proof.
  apply (flush_output_correct demo_sends demo_output (replicate 10 (fun n => Sent (Z.min n 3)))).
  - split; [split; vm_compute; intuition congruence | vm_compute; reflexivity | vm_compute; reflexivity].
  - constructor; [done|]. apply Forall_replicate. intros n Hn. simpl. lia.
  - by apply sublist_cons.
  - by apply Forall_replicate.
  - vm_compute. congruence.
Defined.

(** C8: workers may stage frames at any point of the event loop's flushing:
    in every reachable state the bytes on the wire followed by the backlog
    are the staged frames in the order they were staged, and when the event
    loop is outside [flush_output], [has_pending_output] says whether anything
    is left to write. *)
Theorem output_interleaving fd id limits s :
  rtc out_step (out_init (new_connection fd id limits)) s ->
  len (concat (os_frames s)) < 2 ^ 64 ->
  concat (os_frames s) = os_wire s ++ backlog (os_conn s) /\
  (os_pc s = PcSend -> unwritten (os_conn s) <> []) /\
  (os_pc s = PcIdle -> has_pending_output (os_conn s) = true <-> backlog (os_conn s) <> []).
Proof.
  intros Hr Hb. destruct (out_steps_inv _ s (out_init_inv fd id limits) Hr Hb) as [Hw Hs Hp Hn].
  split_and!; [done | intros Hpc Hu; specialize (Hn Hpc); by rewrite Hu in Hn |]. intros Hpc.
  pose proof (len_nonneg (os_wire s)). pose proof (len_nonneg (backlog (os_conn s))) as Hn0.
  rewrite Hs, len_app in Hb. unfold has_pending_output. rewrite Hp, Hpc. simpl. rewrite Z.add_0_r, u64_small by lia.
  split; [intros Hlt E; by rewrite E in Hlt|]. intros Hne. apply Z.ltb_lt.
  destruct (Z.eq_dec (len (backlog (os_conn s))) 0) as [E|]; [by apply len_0 in E | lia].
Qed.

(** Two workers stage; the second between [send] and the counter update. *)
Lemma output_interleaving_witness :
  let c0 := new_connection 5 1 default_connection_limits in
  let c1 := (stage c0 (lit "first")).2 in
  let c2 := advance 5 (refill c1).2 in
  let c3 := release 5 (stage c2 (lit "second")).2 in
  let s := mkOutState PcTop c3 (lit "first") [lit "first"; lit "second"] in
  concat (os_frames s) = os_wire s ++ backlog (os_conn s) /\
  (os_pc s = PcSend -> unwritten (os_conn s) <> []) /\
  (os_pc s = PcIdle -> has_pending_output (os_conn s) = true <-> backlog (os_conn s) <> []).
Proof.
  intros c0 c1 c2 c3 s. apply (output_interleaving 5 1 default_connection_limits); [|vm_compute; reflexivity].
  eapply rtc_l; [exact (step_stage PcIdle c0 [] [] (lit "first"))|].
  eapply rtc_l; [exact (step_flush c1 [] [lit "first"])|].
  eapply rtc_l; [exact (step_refill c1 [] [lit "first"])|].
  eapply rtc_l; [apply (step_sent (refill c1).2 [] [lit "first"] 5); vm_compute; intuition congruence|].
  eapply rtc_l; [exact (step_stage (PcRelease 5) c2 (lit "first") [lit "first"] (lit "second"))|].
  eapply rtc_l; [exact (step_release 5 (stage c2 (lit "second")).2 (lit "first") [lit "first"; lit "second"])|].
  apply rtc_refl.
Defined.

(** [enqueue_response] on each branch: a closed connection stages nothing;
    an open one stages the whole frame and reports failure exactly when the
    backlog exceeds twice the configured limit; the in-flight count goes down
    exactly when the frame completes a request. *)
Theorem enqueue_response_outcome c frame completes : counted c ->
  len (backlog c) + len frame < 2 ^ 64 -> 0 <= max_output_bytes (limits_ c) < 2 ^ 63 ->
  let '(ok, c') := enqueue_response c frame completes in
  inflight_ c' = (if completes then u64 (inflight_ c - 1) else inflight_ c) /\ counted c' /\
  if closed_ c then ok = false /\ backlog c' = backlog c
  else backlog c' = backlog c ++ frame /\
       (ok = true <-> len (backlog c') <= 2 * max_output_bytes (limits_ c)).
Proof.
  intros Hc Hb Hm. pose proof (len_nonneg (backlog c)). pose proof (len_nonneg frame).
  unfold enqueue_response. destruct (closed_ c) eqn:Hcl; [by destruct completes|].
  destruct (stage_spec c frame) as (_ & Hs & _ & Hp). rewrite Hc, u64_add_l in Hp.
  destruct (stage c frame) as [over c'] eqn:E. cbn [snd] in *.
  assert (Hok : over = (2 * max_output_bytes (limits_ c) <? len (backlog c'))).
  { injection E as <- _. cbn [limits_ set_staged set_pending_output_bytes pending_output_bytes_].
    rewrite Hc, u64_add_l, (u64_small (len (backlog c) + len frame)), u64_small, Hs, len_app by lia.
    f_equal. lia. }
  assert (Hi : inflight_ c' = inflight_ c) by (by injection E as _ <-).
  assert (Hc' : counted c') by (unfold counted; by rewrite Hp, Hs, len_app).
  assert (Hr : (negb over = true <-> len (backlog c') <= 2 * max_output_bytes (limits_ c))).
  { rewrite Hok, negb_true_iff, Z.ltb_ge. done. }
  destruct completes; simpl; rewrite Hi; split_and!; done.
Qed.

Lemma enqueue_response_outcome_witness :
  let '(ok, c') := enqueue_response demo_output (lit "frame") true in
  inflight_ c' = u64 (inflight_ demo_output - 1) /\ counted c' /\
  backlog c' = backlog demo_output ++ lit "frame" /\
  (ok = true <-> len (backlog c') <= 2 * max_output_bytes (limits_ demo_output)).
Proof.
  apply (enqueue_response_outcome demo_output (lit "frame") true);
    [vm_compute; reflexivity | vm_compute; reflexivity | vm_compute; intuition congruence].
Defined.

(** the hard cap on the backlog is computed as [max_output_bytes * 2] in
    64 bits: with a limit of 2^63 bytes it is zero, and every response is
    reported as over the limit although it was staged. *)
Theorem enqueue_cap_wraps c frame completes : closed_ c = false -> counted c ->
  max_output_bytes (limits_ c) = 2 ^ 63 -> 0 < len (backlog c) + len frame < 2 ^ 64 ->
  let '(ok, c') := enqueue_response c frame completes in
  ok = false /\ backlog c' = backlog c ++ frame.
Proof.
  intros Hcl Hc Hm Hb. unfold enqueue_response. rewrite Hcl.
  destruct (stage_spec c frame) as (_ & Hs & _ & _).
  destruct (stage c frame) as [over c'] eqn:E. cbn [snd] in *. split; [|by destruct completes].
  injection E as <- _. cbn [limits_ set_staged set_pending_output_bytes pending_output_bytes_].
  rewrite Hc, u64_add_l, Hm, (u64_small (_ + _)) by lia.
  change (u64 (2 ^ 63 * 2)) with 0. apply negb_false_iff, Z.ltb_lt. lia.
Qed.

Lemma enqueue_cap_wraps_witness :
  let c := new_connection 5 1 (mkConnectionLimits default_limits (2 ^ 63) 512) in
  let '(ok, c') := enqueue_response c (lit "frame") true in
  ok = false /\ backlog c' = backlog c ++ lit "frame".
Proof.
  apply (enqueue_cap_wraps (new_connection 5 1 (mkConnectionLimits default_limits (2 ^ 63) 512)) (lit "frame") true);
    try reflexivity. vm_compute. intuition congruence.
Defined.
