(* ===== verification/ThreadPool.v ===== *)
(** * The worker pool: a bounded queue, its workers and its shutdown

    Models include/cache/thread_pool.h and src/thread_pool.cpp.  A critical
    section of [mutex_] is one function on the pool; [PoolSys] adds where each
    thread stands and [pool_step] interleaves the sections with the
    notifications, wake-ups and timeouts of the two condition variables, at
    the points where the code releases the mutex. *)

From S2P Require Import Prelude.

Section Pool.
Context {J : Type}.

(** Where a worker stands in [worker_loop]. *)
Inductive WorkerPc : Type :=
  | WCheck          (* about to take the mutex and evaluate the predicate *)
  | WWait           (* blocked in [work_available_.wait] *)
  | WRun (job : J)  (* in [handler_(job)] *)
  | WExit.          (* returned *)

Record WorkerPool := mkPool {
  thread_count_ : Z;
  max_pending_ : Z;
  queue_ : list J;
  accepting_ : bool;
  stopping_ : bool;
  threads_ : list WorkerPc;
  completed_ : Z;
}.

Definition new_pool (thread_count max_pending : Z) : WorkerPool :=
  mkPool thread_count max_pending [] true false [] 0.

Definition set_queue (q : list J) (p : WorkerPool) : WorkerPool :=
  mkPool (thread_count_ p) (max_pending_ p) q (accepting_ p) (stopping_ p) (threads_ p) (completed_ p).
Definition set_accepting (b : bool) (p : WorkerPool) : WorkerPool :=
  mkPool (thread_count_ p) (max_pending_ p) (queue_ p) b (stopping_ p) (threads_ p) (completed_ p).
Definition set_stopping (b : bool) (p : WorkerPool) : WorkerPool :=
  mkPool (thread_count_ p) (max_pending_ p) (queue_ p) (accepting_ p) b (threads_ p) (completed_ p).
Definition set_threads (ws : list WorkerPc) (p : WorkerPool) : WorkerPool :=
  mkPool (thread_count_ p) (max_pending_ p) (queue_ p) (accepting_ p) (stopping_ p) ws (completed_ p).
Definition set_completed (n : Z) (p : WorkerPool) : WorkerPool :=
  mkPool (thread_count_ p) (max_pending_ p) (queue_ p) (accepting_ p) (stopping_ p) (threads_ p) n.

Definition start (p : WorkerPool) : WorkerPool :=
  set_threads (threads_ p ++ replicate (Z.to_nat (thread_count_ p)) WCheck) p.

(** The critical section of [try_submit]; a [true] result is followed by
    [work_available_.notify_one()]. *)
Definition try_submit (p : WorkerPool) (job : J) : bool * WorkerPool :=
  if negb (accepting_ p) || (max_pending_ p <=? len (queue_ p)) then (false, p)
  else (true, set_queue (queue_ p ++ [job]) p).

Definition pending (p : WorkerPool) : Z := len (queue_ p).

Definition is_empty (q : list J) : bool := match q with [] => true | _ => false end.

(** The critical section of [worker_loop], with the predicate of the wait:
    where the worker goes, and whether [queue_drained_] is notified. *)
Definition worker_section (p : WorkerPool) : WorkerPc * bool * WorkerPool :=
  if negb (stopping_ p || negb (is_empty (queue_ p))) then (WWait, false, p) else
  match queue_ p with
  | [] => if stopping_ p then (WExit, false, p) else (WCheck, false, p)
  | job :: rest => (WRun job, is_empty rest, set_queue rest p)
  end.

(** [completed_.fetch_add(1)] after the handler. *)
Definition job_done (p : WorkerPool) : WorkerPool := set_completed (u64 (completed_ p + 1)) p.

(** Where the thread in [drain_and_stop] stands. *)
Inductive DrainPc : Set :=
  | DNone                      (* not called yet *)
  | DWait                      (* blocked in [queue_drained_.wait_for] *)
  | DWoken (timed_out : bool)  (* woken, about to take the mutex again *)
  | DNotify                    (* mutex released, before [notify_all] *)
  | DJoin                      (* joining the workers *)
  | DDone.                     (* returned *)

(** The critical section of [drain_and_stop] up to the wait. *)
Definition drain_enter (p : WorkerPool) (timeout : Z) : DrainPc * WorkerPool :=
  if negb (accepting_ p) && stopping_ p then (DDone, p) else
  let p := set_accepting false p in
  if (0 <? timeout) && negb (is_empty (queue_ p)) then (DWait, p)
  else (DNotify, set_stopping true p).

(** The destructor. *)
Definition destroy_pool (p : WorkerPool) : DrainPc * WorkerPool := drain_enter p 0.

(** The critical section after the wait: [wait_for] returns when the queue is
    empty or the time is up, otherwise it waits again. *)
Definition drain_resume (p : WorkerPool) (timed_out : bool) : DrainPc * WorkerPool :=
  if is_empty (queue_ p) then (DNotify, set_stopping true p)
  else if timed_out then (DNotify, set_stopping true (set_queue [] p))
  else (DWait, p).

(** ** The threads together *)

Record PoolSys := mkPoolSys {
  ps_pool : WorkerPool;
  ps_drain : DrainPc;
  ps_due : nat;  (* [notify_one] calls not made yet *)
  (* the history, in the order of the critical sections *)
  ps_submitted : list J;
  ps_taken : list J;
  ps_discarded : list J;
  ps_finished : list J;
}.

Definition wake (w : WorkerPc) : WorkerPc := match w with WWait => WCheck | _ => w end.

(** [queue_drained_.notify_all()]. *)
Definition wake_drain (notified : bool) (d : DrainPc) : DrainPc :=
  match d with DWait => if notified then DWoken false else DWait | _ => d end.

Definition taken_by (pc : WorkerPc) : list J := match pc with WRun job => [job] | _ => [] end.

Inductive pool_step (timeout : Z) : PoolSys -> PoolSys -> Prop :=
  | step_submit p p' d due sub tak dis fin job : try_submit p job = (true, p') ->
      pool_step timeout (mkPoolSys p d due sub tak dis fin)
        (mkPoolSys p' d (S due) (sub ++ [job]) tak dis fin)
  | step_refuse p d due sub tak dis fin job : try_submit p job = (false, p) ->
      pool_step timeout (mkPoolSys p d due sub tak dis fin) (mkPoolSys p d due sub tak dis fin)
  | step_notify_one p d due sub tak dis fin i : threads_ p !! i = Some WWait ->
      pool_step timeout (mkPoolSys p d (S due) sub tak dis fin)
        (mkPoolSys (set_threads (<[i := WCheck]> (threads_ p)) p) d due sub tak dis fin)
  | step_notify_nobody p d due sub tak dis fin : WWait ∉ threads_ p ->
      pool_step timeout (mkPoolSys p d (S due) sub tak dis fin) (mkPoolSys p d due sub tak dis fin)
  | step_spurious p d due sub tak dis fin i : threads_ p !! i = Some WWait ->
      pool_step timeout (mkPoolSys p d due sub tak dis fin)
        (mkPoolSys (set_threads (<[i := WCheck]> (threads_ p)) p) d due sub tak dis fin)
  | step_worker p p' d due sub tak dis fin i pc notified : threads_ p !! i = Some WCheck ->
      worker_section p = (pc, notified, p') ->
      pool_step timeout (mkPoolSys p d due sub tak dis fin)
        (mkPoolSys (set_threads (<[i := pc]> (threads_ p')) p') (wake_drain notified d) due
           sub (tak ++ taken_by pc) dis fin)
  | step_finish p d due sub tak dis fin i job : threads_ p !! i = Some (WRun job) ->
      pool_step timeout (mkPoolSys p d due sub tak dis fin)
        (mkPoolSys (job_done (set_threads (<[i := WCheck]> (threads_ p)) p)) d due
           sub tak dis (fin ++ [job]))
  | step_drain p p' d d' due sub tak dis fin : d = DNone \/ d = DDone ->
      drain_enter p timeout = (d', p') ->
      pool_step timeout (mkPoolSys p d due sub tak dis fin) (mkPoolSys p' d' due sub tak dis fin)
  | step_drain_wake p due sub tak dis fin timed_out :
      pool_step timeout (mkPoolSys p DWait due sub tak dis fin)
        (mkPoolSys p (DWoken timed_out) due sub tak dis fin)
  | step_drain_resume p p' d' due sub tak dis fin timed_out : drain_resume p timed_out = (d', p') ->
      pool_step timeout (mkPoolSys p (DWoken timed_out) due sub tak dis fin)
        (mkPoolSys p' d' due sub tak
           (dis ++ take (length (queue_ p) - length (queue_ p')) (queue_ p)) fin)
  | step_notify_all p due sub tak dis fin :
      pool_step timeout (mkPoolSys p DNotify due sub tak dis fin)
        (mkPoolSys (set_threads (wake <$> threads_ p) p) DJoin due sub tak dis fin)
  | step_join p due sub tak dis fin : Forall (fun w => w = WExit) (threads_ p) ->
      pool_step timeout (mkPoolSys p DJoin due sub tak dis fin)
        (mkPoolSys (set_threads [] p) DDone due sub tak dis fin).

Definition pool_init (thread_count max_pending : Z) : PoolSys :=
  mkPoolSys (start (new_pool thread_count max_pending)) DNone 0 [] [] [] [].

(** ** Counting threads *)

Definition is_check (w : WorkerPc) : bool := match w with WCheck => true | _ => false end.

Fixpoint checks (ws : list WorkerPc) : nat :=
  match ws with [] => 0 | w :: ws => (if is_check w then 1 else 0) + checks ws end.

(** The jobs whose handler is running. *)
Definition running (ws : list WorkerPc) : list J := concat (taken_by <$> ws).

Lemma checks_insert ws i w w' : ws !! i = Some w ->
  (checks (<[i := w']> ws) + (if is_check w then 1 else 0) =
   checks ws + (if is_check w' then 1 else 0))%nat.
Proof.
  revert i. induction ws as [|x ws IH]; intros [|i] Hi; simplify_eq/=; [|apply IH in Hi]; lia.
Qed.

Lemma running_insert ws i w w' : ws !! i = Some w ->
  running (<[i := w']> ws) ++ taken_by w ≡ₚ running ws ++ taken_by w'.
Proof.
  unfold running. revert i. induction ws as [|x ws IH]; intros [|i] Hi; simplify_eq/=.
  - set (r := concat _). rewrite <- !app_assoc, (Permutation_app_comm r (taken_by w)),
      (Permutation_app_comm r (taken_by w')). apply Permutation_app_swap_app.
  - rewrite <- !app_assoc. by rewrite IH.
Qed.

Lemma elem_insert_ne (ws : list WorkerPc) (i : nat) w x : x ∈ <[i := w]> ws -> x <> w -> x ∈ ws.
Proof.
  intros Hin Hne. apply list_elem_of_lookup in Hin as [j Hj].
  apply list_lookup_insert_Some in Hj as [(_ & E & _)|[_ Hj]]; [done|].
  by eapply list_elem_of_lookup_2.
Qed.

Lemma wake_no_wait (ws : list WorkerPc) : WWait ∉ wake <$> ws.
Proof. intros Hin. apply list_elem_of_fmap in Hin as ([] & E & _); done. Qed.

Lemma running_wake (ws : list WorkerPc) : running (wake <$> ws) = running ws.
Proof. unfold running. induction ws as [|[] ws IH]; csimpl; [done|..]; by rewrite IH. Qed.

Lemma exit_wake (ws : list WorkerPc) : WExit ∈ wake <$> ws -> WExit ∈ ws.
Proof.
  intros Hin. apply list_elem_of_fmap in Hin as ([] & E & Hin); done.
Qed.

(** ** The invariant *)

Record pool_inv (tc mp timeout : Z) (s : PoolSys) : Prop := mkPoolInv {
  pi_conf : thread_count_ (ps_pool s) = tc /\ max_pending_ (ps_pool s) = mp;
  pi_bound : len (queue_ (ps_pool s)) <= mp;
  pi_history : ps_submitted s = ps_taken s ++ ps_discarded s ++ queue_ (ps_pool s);
  pi_jobs : ps_taken s ≡ₚ ps_finished s ++ running (threads_ (ps_pool s));
  pi_completed : completed_ (ps_pool s) = u64 (len (ps_finished s));
  pi_wakeup : WWait ∈ threads_ (ps_pool s) ->
    (length (queue_ (ps_pool s)) <= checks (threads_ (ps_pool s)) + ps_due s)%nat;
  pi_flags : match ps_drain s with
             | DNone => accepting_ (ps_pool s) = true /\ stopping_ (ps_pool s) = false
             | DWait | DWoken _ => accepting_ (ps_pool s) = false /\ stopping_ (ps_pool s) = false
             | _ => accepting_ (ps_pool s) = false /\ stopping_ (ps_pool s) = true
             end;
  pi_woken : match ps_drain s with DJoin | DDone => WWait ∉ threads_ (ps_pool s) | _ => True end;
  pi_exit : WExit ∈ threads_ (ps_pool s) -> stopping_ (ps_pool s) = true /\ queue_ (ps_pool s) = [];
  pi_threads : match ps_drain s with
               | DDone => threads_ (ps_pool s) = [] /\ queue_ (ps_pool s) = []
               | _ => len (threads_ (ps_pool s)) = tc
               end;
  pi_discard : ps_discarded s <> [] -> accepting_ (ps_pool s) = false /\ queue_ (ps_pool s) = [];
  pi_timeout : timeout <= 0 ->
    ps_discarded s = [] /\ match ps_drain s with DWait | DWoken _ => False | _ => True end;
}.

Lemma pool_init_inv tc mp timeout : 0 < tc -> 0 <= mp -> pool_inv tc mp timeout (pool_init tc mp).
Proof.
  intros Ht Hm. split; simpl; try done.
  - clear. induction (Z.to_nat tc) as [|n IH]; simpl; [done | apply IH].
  - intros Hin. apply elem_of_replicate in Hin as [? _]. done.
  - intros Hin. apply elem_of_replicate in Hin as [? _]. done.
  - unfold len. rewrite length_replicate. lia.
Qed.

(** A thread moved: the fields of the invariant that only depend on the rest
    are unchanged. *)
Lemma len_insert_threads (ws : list WorkerPc) (i : nat) w : len (<[i := w]> ws) = len ws.
Proof. unfold len. by rewrite length_insert. Qed.

Lemma no_threads_lookup (ws : list WorkerPc) (i : nat) w d (P : Prop) q tc :
  ws !! i = Some w ->
  match d with DDone => ws = [] /\ P | _ => len ws = tc end ->
  d <> DDone /\ match d with DDone => <[i := q]> ws = [] /\ P | _ => len (<[i := q]> ws) = tc end.
Proof.
  intros Hi Hd. rewrite len_insert_threads. destruct d; try done. destruct Hd as [-> _]. done.
Qed.

Lemma worker_section_cases p : 
  (worker_section p = (WWait, false, p) /\ queue_ p = [] /\ stopping_ p = false) \/
  (worker_section p = (WExit, false, p) /\ queue_ p = [] /\ stopping_ p = true) \/
  (exists job rest, queue_ p = job :: rest /\
     worker_section p = (WRun job, is_empty rest, set_queue rest p)).
Proof.
  unfold worker_section. destruct (queue_ p) as [|job rest], (stopping_ p); simpl; eauto 10.
Qed.

(** A waiting worker becomes runnable. *)
Lemma wake_one_inv tc mp timeout p d due due' sub tak dis fin i :
  threads_ p !! i = Some WWait -> (due <= S due')%nat ->
  pool_inv tc mp timeout (mkPoolSys p d due sub tak dis fin) ->
  pool_inv tc mp timeout
    (mkPoolSys (set_threads (<[i := WCheck]> (threads_ p)) p) d due' sub tak dis fin).
Proof.
  intros Hi Hd [Hc Hb Hh Hj Hco Hw Hf Hwo He Ht Hdi Hti]. cbn in *.
  split; cbn; try done.
  - rewrite Hj. pose proof (running_insert _ _ _ WCheck Hi) as Hr. cbn in Hr.
    rewrite !app_nil_r in Hr. by rewrite Hr.
  - intros _. pose proof (checks_insert _ _ _ WCheck Hi) as Hk. cbn in Hk.
    specialize (Hw (list_elem_of_lookup_2 _ _ _ Hi)). lia.
  - destruct d; try done; intros Hin; apply Hwo; by eapply elem_insert_ne.
  - intros Hin. apply He. by eapply elem_insert_ne.
  - by eapply no_threads_lookup.
Qed.

Lemma worker_step_inv tc mp timeout p p' d due sub tak dis fin i pc notified :
  threads_ p !! i = Some WCheck -> worker_section p = (pc, notified, p') ->
  pool_inv tc mp timeout (mkPoolSys p d due sub tak dis fin) ->
  pool_inv tc mp timeout
    (mkPoolSys (set_threads (<[i := pc]> (threads_ p')) p') (wake_drain notified d) due
       sub (tak ++ taken_by pc) dis fin).
Proof.
  intros Hi Hs [Hc Hb Hh Hj Hco Hw Hf Hwo He Ht Hdi Hti]. cbn in *.
  pose proof (running_insert _ _ _ pc Hi) as Hr. cbn in Hr. rewrite app_nil_r in Hr.
  pose proof (checks_insert _ _ _ pc Hi) as Hk. cbn in Hk.
  destruct (no_threads_lookup _ _ _ _ _ pc _ Hi Ht) as [Hnd Ht'].
  destruct (worker_section_cases p) as [(E & Hq & Hst)|[(E & Hq & Hst)|(job & rest & Hq & E)]];
    rewrite E in Hs; injection Hs as <- <- <-; cbn in *; rewrite ?app_nil_r in *.
  - split; cbn; try (by destruct d). all: try (by rewrite Hr, Hj); rewrite ?Hq in *; try done.
    + intros _. cbn. lia.
    + destruct d; try done; destruct Hf; congruence.
    + intros Hin. apply He. by eapply elem_insert_ne.
  - split; cbn; try (by destruct d). all: try (by rewrite Hr, Hj); rewrite ?Hq in *; try done.
    + intros _. cbn. lia.
    + destruct d; try done; intros Hin; apply Hwo; by eapply elem_insert_ne.
  - assert (dis = []) as ->.
    { destruct dis; [done|]. destruct Hdi as [_ Hdi]; [done|]. by rewrite Hq in Hdi. }
    rewrite Hq in *. split; cbn; try done.
    + rewrite len_cons in Hb. lia.
    + by rewrite Hh, <- app_assoc.
    + by rewrite Hj, Hr, app_assoc.
    + intros Hin. specialize (Hw (elem_insert_ne _ _ _ _ Hin ltac:(done))). cbn in Hw. lia.
    + destruct d; try done. by destruct rest.
    + destruct d; try done; cbn; [by destruct rest|..]; intros Hin; apply Hwo; by eapply elem_insert_ne.
    + intros Hin. apply elem_insert_ne in Hin; [|done]. by apply He in Hin as [_ ?].
    + destruct d; try done. by destruct rest.
    + intros Hto. destruct (Hti Hto) as [_ Hd]. by destruct d.
Qed.

Lemma submit_step_inv tc mp timeout p p' d due sub tak dis fin job :
  try_submit p job = (true, p') ->
  pool_inv tc mp timeout (mkPoolSys p d due sub tak dis fin) ->
  pool_inv tc mp timeout (mkPoolSys p' d (S due) (sub ++ [job]) tak dis fin).
Proof.
  intros Hs [Hc Hb Hh Hj Hco Hw Hf Hwo He Ht Hdi Hti]. cbn in *. unfold try_submit in Hs.
  destruct (accepting_ p) eqn:Ha; [|done]. cbn in Hs.
  destruct (Z.leb_spec (max_pending_ p) (len (queue_ p))); [done|]. injection Hs as <-.
  assert (d = DNone) as -> by (destruct d; try done; by destruct Hf).
  assert (dis = []) as -> by (destruct dis; [done|]; by destruct Hdi).
  split; cbn; try done.
  - rewrite len_app. unfold len at 2. cbn. lia.
  - by rewrite Hh, <- app_assoc.
  - intros Hin. specialize (Hw Hin). rewrite length_app. cbn. lia.
  - by rewrite Ha.
  - intros Hin. destruct (He Hin). destruct Hf. congruence.
Qed.

Lemma finish_step_inv tc mp timeout p d due sub tak dis fin i job :
  threads_ p !! i = Some (WRun job) ->
  pool_inv tc mp timeout (mkPoolSys p d due sub tak dis fin) ->
  pool_inv tc mp timeout
    (mkPoolSys (job_done (set_threads (<[i := WCheck]> (threads_ p)) p)) d due
       sub tak dis (fin ++ [job])).
Proof.
  intros Hi [Hc Hb Hh Hj Hco Hw Hf Hwo He Ht Hdi Hti]. cbn in *.
  pose proof (running_insert _ _ _ WCheck Hi) as Hr. cbn in Hr. rewrite app_nil_r in Hr.
  pose proof (checks_insert _ _ _ WCheck Hi) as Hk. cbn in Hk.
  split; cbn; try done.
  - by rewrite Hj, <- Hr, <- app_assoc, (Permutation_app_comm [job]).
  - rewrite Hco, u64_add_l, len_app. done.
  - intros Hin. specialize (Hw (elem_insert_ne _ _ _ _ Hin ltac:(done))). lia.
  - destruct d; try done; intros Hin; apply Hwo; by eapply elem_insert_ne.
  - intros Hin. apply He. by eapply elem_insert_ne.
  - by eapply no_threads_lookup.
Qed.

(** [drain_enter] and [drain_resume] change flags, and the queue only to
    empty it. *)
Lemma drain_step_inv tc mp timeout p p' d d' due sub tak dis dis' fin : 0 <= mp ->
  pool_inv tc mp timeout (mkPoolSys p d due sub tak dis fin) ->
  stopping_ p = false -> d' = DWait \/ d' = DNotify ->
  thread_count_ p' = thread_count_ p -> max_pending_ p' = max_pending_ p ->
  threads_ p' = threads_ p -> completed_ p' = completed_ p -> accepting_ p' = false ->
  stopping_ p' = match d' with DNotify => true | _ => false end ->
  (queue_ p' = queue_ p /\ dis' = dis) \/ (queue_ p' = [] /\ dis' = dis ++ queue_ p) ->
  (timeout <= 0 -> dis' = [] /\ d' <> DWait) ->
  pool_inv tc mp timeout (mkPoolSys p' d' due sub tak dis' fin).
Proof.
  intros Hmp [Hc Hb Hh Hj Hco Hw Hf Hwo He Ht Hdi Hti] Hst Hd' E1 E2 E3 E4 E5 E6 Hq Hto. cbn in *.
  assert (Hns : WExit ∉ threads_ p) by (intros Hin; apply He in Hin as [? _]; congruence).
  assert (Hlen : len (threads_ p) = tc) by (destruct d; try done; destruct Hf; congruence).
  split; cbn; rewrite ?E1, ?E2, ?E3, ?E4, ?E5, ?E6; try done.
  - destruct Hq as [[-> _]|[-> _]]; done.
  - destruct Hq as [[-> ->]|[-> ->]]; [done | by rewrite app_nil_r].
  - intros Hin. destruct Hq as [[-> _]|[-> _]]; [by apply Hw | cbn; lia].
  - by destruct Hd' as [-> | ->].
  - by destruct Hd' as [-> | ->].
  - by destruct Hd' as [-> | ->].
  - intros Hne. split; [done|]. destruct Hq as [[-> ->]|[-> _]]; [by apply Hdi | done].
  - intros Hle. destruct (Hto Hle). split; [done|]. by destruct Hd' as [-> | ->].
Qed.

Lemma is_empty_spec (q : list J) : if is_empty q then q = [] else q <> [].
Proof. by destruct q. Qed.

Lemma drain_enter_inv tc mp timeout p p' d d' due sub tak dis fin : 0 <= mp ->
  d = DNone \/ d = DDone -> drain_enter p timeout = (d', p') ->
  pool_inv tc mp timeout (mkPoolSys p d due sub tak dis fin) ->
  pool_inv tc mp timeout (mkPoolSys p' d' due sub tak dis fin).
Proof.
  intros Hmp Hd Hs Hi. pose proof (pi_flags _ _ _ _ Hi) as Hf. pose proof (pi_timeout _ _ _ _ Hi) as Hti.
  cbn in Hf, Hti. unfold drain_enter in Hs.
  destruct Hd as [-> | ->]; destruct Hf as [Ha Hst]; rewrite Ha, Hst in Hs; cbn in Hs.
  - destruct ((0 <? timeout) && negb (is_empty (queue_ p))) eqn:Eb; injection Hs as <- <-;
      eapply drain_step_inv; eauto; cbn; try done; intros Hle; destruct (Hti Hle); split; try done.
    b2p. lia.
  - by injection Hs as <- <-.
Qed.

Lemma drain_resume_inv tc mp timeout p p' d' due sub tak dis fin timed_out : 0 <= mp ->
  drain_resume p timed_out = (d', p') ->
  pool_inv tc mp timeout (mkPoolSys p (DWoken timed_out) due sub tak dis fin) ->
  pool_inv tc mp timeout (mkPoolSys p' d' due sub tak
    (dis ++ take (length (queue_ p) - length (queue_ p')) (queue_ p)) fin).
Proof.
  intros Hmp Hs Hi. pose proof (pi_flags _ _ _ _ Hi) as Hf. pose proof (pi_timeout _ _ _ _ Hi) as Hti.
  cbn in Hf, Hti. destruct Hf as [Ha Hst]. unfold drain_resume in Hs.
  assert (Hno : timeout <= 0 -> False) by (intros Hle; by destruct (Hti Hle)).
  destruct (is_empty (queue_ p)); [|destruct timed_out]; injection Hs as <- <-; cbn;
    rewrite ?Nat.sub_diag, ?Nat.sub_0_r, ?take_ge, ?app_nil_r by lia;
    (eapply drain_step_inv; [done | exact Hi | done | eauto | done | done | done | done | done | done | auto | done]).
Qed.

Lemma notify_all_inv tc mp timeout p due sub tak dis fin :
  pool_inv tc mp timeout (mkPoolSys p DNotify due sub tak dis fin) ->
  pool_inv tc mp timeout (mkPoolSys (set_threads (wake <$> threads_ p) p) DJoin due sub tak dis fin).
Proof.
  intros [Hc Hb Hh Hj Hco Hw Hf Hwo He Ht Hdi Hti]. cbn in *.
  split; cbn [ps_pool ps_drain ps_due ps_submitted ps_taken ps_discarded ps_finished thread_count_
    max_pending_ queue_ accepting_ stopping_ threads_ completed_ set_threads]; try done.
  - by rewrite running_wake.
  - intros Hin. by apply wake_no_wait in Hin.
  - apply wake_no_wait.
  - intros Hin. by apply He, exit_wake.
  - unfold len. by rewrite length_fmap.
Qed.

Lemma running_exited (ws : list WorkerPc) : Forall (fun w => w = WExit) ws -> running ws = [].
Proof. unfold running. induction 1 as [|w ws -> _ IH]; [done | exact IH]. Qed.

Lemma join_inv tc mp timeout p due sub tak dis fin : 0 < tc ->
  Forall (fun w => w = WExit) (threads_ p) ->
  pool_inv tc mp timeout (mkPoolSys p DJoin due sub tak dis fin) ->
  pool_inv tc mp timeout (mkPoolSys (set_threads [] p) DDone due sub tak dis fin).
Proof.
  intros Htc Hall [Hc Hb Hh Hj Hco Hw Hf Hwo He Ht Hdi Hti]. cbn in *.
  assert (Hex : WExit ∈ threads_ p).
  { destruct Hall as [|w ws -> _]; [by cbn in Ht; subst|left]. }
  split; cbn; try done.
  - by rewrite Hj, running_exited.
  - by intros ?%not_elem_of_nil.
  - apply not_elem_of_nil.
  - by intros ?%not_elem_of_nil.
  - split; [done | by apply He].
Qed.

Lemma pool_step_inv tc mp timeout s s' : 0 < tc -> 0 <= mp ->
  pool_step timeout s s' -> pool_inv tc mp timeout s -> pool_inv tc mp timeout s'.
Proof.
  intros Htc Hmp Hstep. destruct Hstep.
  - by apply submit_step_inv.
  - done.
  - by apply wake_one_inv.
  - intros [Hc Hb Hh Hj Hco Hw Hf Hwo He Ht Hdi Hti]. by split.
  - apply wake_one_inv; [done | lia].
  - by eapply worker_step_inv.
  - by apply finish_step_inv.
  - by eapply drain_enter_inv.
  - intros [Hc Hb Hh Hj Hco Hw Hf Hwo He Ht Hdi Hti]. by split.
  - by eapply drain_resume_inv.
  - apply notify_all_inv.
  - by apply join_inv.
Qed.

Lemma pool_reachable_inv tc mp timeout s : 0 < tc -> 0 <= mp ->
  rtc (pool_step timeout) (pool_init tc mp) s -> pool_inv tc mp timeout s.
Proof.
  intros Htc Hmp. revert s. refine (rtc_ind_r _ _ _ _); [by apply pool_init_inv|].
  intros s1 s2 _ Hstep IH. by eapply pool_step_inv.
Qed.

(** ** Termination of the shutdown

    Once [stopping_] is set nothing is accepted and no worker waits again:
    every step that changes anything makes [effort] smaller. *)

Definition thread_effort (w : WorkerPc) : nat :=
  match w with WCheck => 1 | WWait => 2 | WRun _ => 2 | WExit => 0 end.

Definition drain_effort (d : DrainPc) : nat :=
  match d with DJoin => 1 | DDone => 0 | _ => 2 end.

Definition effort (s : PoolSys) : nat :=
  2 * length (queue_ (ps_pool s)) + sum_list (thread_effort <$> threads_ (ps_pool s))
  + ps_due s + drain_effort (ps_drain s).

Lemma threads_effort_insert (ws : list WorkerPc) i w w' : ws !! i = Some w ->
  (sum_list (thread_effort <$> <[i := w']> ws) + thread_effort w =
   sum_list (thread_effort <$> ws) + thread_effort w')%nat.
Proof.
  revert i. induction ws as [|x ws IH]; intros [|i] Hi; simplify_eq/=; [|apply IH in Hi]; lia.
Qed.

Lemma threads_effort_wake (ws : list WorkerPc) :
  (sum_list (thread_effort <$> (wake <$> ws)) <= sum_list (thread_effort <$> ws))%nat.
Proof. induction ws as [|w ws IH]; csimpl; [done|]. destruct w; cbn; lia. Qed.

Lemma pool_step_effort tc mp timeout s s' : pool_inv tc mp timeout s ->
  stopping_ (ps_pool s) = true -> pool_step timeout s s' -> s' = s \/ (effort s' < effort s)%nat.
Proof.
  intros Hi Hst Hstep. pose proof (pi_flags _ _ _ _ Hi) as Hf.
  destruct Hstep as [p p' d due sub tak dis fin job Hs|p d due sub tak dis fin job Hs
    |p d due sub tak dis fin i Hl|p d due sub tak dis fin Hn|p d due sub tak dis fin i Hl
    |p p' d due sub tak dis fin i pc notified Hl Hs|p d due sub tak dis fin i job Hl
    |p p' d d' due sub tak dis fin Hd Hs|p due sub tak dis fin b|p p' d' due sub tak dis fin b Hs
    |p due sub tak dis fin|p due sub tak dis fin Hall];
    unfold effort; cbn [ps_pool ps_drain ps_due queue_ threads_ set_threads job_done set_completed] in *.
  - exfalso. unfold try_submit in Hs. destruct (accepting_ p) eqn:Ha; [|done]. destruct d; destruct Hf; congruence.
  - by left.
  - right. pose proof (threads_effort_insert _ _ _ WCheck Hl) as He. cbn [thread_effort] in He. lia.
  - right. lia.
  - right. pose proof (threads_effort_insert _ _ _ WCheck Hl) as He. cbn [thread_effort] in He. lia.
  - right. pose proof (threads_effort_insert _ _ _ pc Hl) as He. cbn [thread_effort] in He.
    assert (Hd : drain_effort (wake_drain notified d) = drain_effort d) by (by destruct d, notified).
    destruct (worker_section_cases p) as [(E & Hq & Hs')|[(E & Hq & Hs')|(job & rest & Hq & E)]];
      [congruence|..]; rewrite E in Hs; injection Hs as <- <- <-;
      cbn [thread_effort threads_ queue_ set_queue] in *; rewrite ?Hq in *; cbn [length]; lia.
  - right. pose proof (threads_effort_insert _ _ _ WCheck Hl) as He. cbn [thread_effort] in He. lia.
  - destruct Hd as [-> | ->]; destruct Hf as [Ha Hst']; [congruence|].
    unfold drain_enter in Hs. rewrite Ha, Hst' in Hs. injection Hs as <- <-. by left.
  - destruct Hf; congruence.
  - destruct Hf; congruence.
  - right. pose proof (threads_effort_wake (threads_ p)). cbn [drain_effort]. lia.
  - right. cbn [drain_effort fmap list_fmap sum_list]. lia.
Qed.

Lemma all_exited_or (ws : list WorkerPc) :
  Forall (fun w => w = WExit) ws \/ exists i w, ws !! i = Some w /\ w <> WExit.
Proof.
  induction ws as [|w ws [IH|(i & w' & Hi & Hne)]]; [by left | | right; by exists (S i), w'].
  destruct w; [right; by exists 0%nat, WCheck | right; by exists 0%nat, WWait
    | right; by exists 0%nat, (WRun job) | left; by constructor].
Qed.

(** Moving a thread to another place changes the state. *)
Lemma moved_thread p d due sub tak dis fin p' d' due' sub' tak' dis' fin' i w w' :
  threads_ p !! i = Some w -> threads_ p' = threads_ p -> w' <> w ->
  mkPoolSys (set_threads (<[i := w']> (threads_ p')) p') d' due' sub' tak' dis' fin' <>
  mkPoolSys p d due sub tak dis fin.
Proof.
  intros Hi Ht Hne E. apply (f_equal (fun s => threads_ (ps_pool s) !! i)) in E.
  cbn [ps_pool threads_ set_threads] in E. rewrite Ht, Hi, list_lookup_insert_eq in E; [congruence|].
  by eapply lookup_lt_Some.
Qed.

Lemma pool_progress tc mp timeout s : pool_inv tc mp timeout s ->
  stopping_ (ps_pool s) = true -> ps_drain s <> DDone ->
  exists s', pool_step timeout s s' /\ s' <> s.
Proof.
  intros Hi Hst Hd. pose proof (pi_flags _ _ _ _ Hi) as Hf. pose proof (pi_woken _ _ _ _ Hi) as Hw.
  destruct s as [p d due sub tak dis fin]. cbn in *.
  destruct d; try (destruct Hf; congruence); [eexists; split; [apply step_notify_all | done]|].
  destruct (all_exited_or (threads_ p)) as [Hall|(i & w & Hl & Hne)].
  { eexists. by split; [apply step_join|]. }
  destruct w as [| |job|]; [| by apply list_elem_of_lookup_2 in Hl | | done].
  - destruct (worker_section p) as [[pc notified] p'] eqn:Es.
    eexists. split; [by eapply step_worker|].
    destruct (worker_section_cases p) as [(E & Hq & Hs')|[(E & Hq & Hs')|(job & rest & Hq & E)]];
      [congruence|..]; rewrite E in Es; injection Es as <- <- <-; by eapply moved_thread.
  - eexists. split; [by apply step_finish|]. intros E.
    apply (f_equal (fun s => length (ps_finished s))) in E. cbn in E. rewrite length_app in E. cbn in E. lia.
Qed.
End Pool.

Arguments WorkerPc : clear implicits.
Arguments WorkerPool : clear implicits.
Arguments PoolSys : clear implicits.

(** ** A run with one worker and room for two jobs *)

(** Job 7 is running and job 8 is queued. *)
Definition demo_busy : PoolSys Z :=
  mkPoolSys (mkPool 1 2 [8] true false [WRun 7] 0) DNone 1 [7; 8] [7] [] [].

(** [drain_and_stop] has set [stopping_]. *)
Definition demo_stopping : PoolSys Z :=
  mkPoolSys (mkPool 1 2 [8] false true [WRun 7] 0) DNotify 1 [7; 8] [7] [] [].

Definition demo_stopped : PoolSys Z :=
  mkPoolSys (mkPool 1 2 [] false true [] 2) DDone 0 [7; 8] [7; 8] [] [7; 8].

Definition demo_idle : PoolSys Z :=
  mkPoolSys (mkPool 1 2 [] true false [WWait] 0) DNone 0 [] [] [] [].

(** [x ∉ l] for a concrete list. *)
Ltac not_in :=
  let Hin := fresh in intros Hin; cbn in Hin;
  repeat (apply elem_of_cons in Hin as [?|Hin]; [done|]); by apply not_elem_of_nil in Hin.

Lemma demo_busy_reachable : rtc (pool_step 0) (pool_init 1 2) demo_busy.
Proof.
  eapply rtc_l; [eapply (step_submit 0 _ _ _ _ _ _ _ _ 7); reflexivity|].
  eapply rtc_l; [eapply (step_worker 0 _ _ _ _ _ _ _ _ 0%nat); reflexivity|].
  eapply rtc_l; [apply step_notify_nobody; not_in|].
  eapply rtc_l; [eapply (step_submit 0 _ _ _ _ _ _ _ _ 8); reflexivity|].
  apply rtc_refl.
Qed.

Lemma demo_stopping_reachable : rtc (pool_step 0) (pool_init 1 2) demo_stopping.
Proof.
  eapply rtc_r; [apply demo_busy_reachable | by eapply (step_drain 0); [left|]].
Qed.

Lemma demo_stopped_reachable : rtc (pool_step 0) (pool_init 1 2) demo_stopped.
Proof.
  etransitivity; [apply demo_stopping_reachable|].
  eapply rtc_l; [apply step_notify_nobody; not_in|].
  eapply rtc_l; [apply step_notify_all|].
  eapply rtc_l; [apply (step_finish 0 _ _ _ _ _ _ _ 0%nat 7); reflexivity|].
  eapply rtc_l; [eapply (step_worker 0 _ _ _ _ _ _ _ _ 0%nat); reflexivity|].
  eapply rtc_l; [apply (step_finish 0 _ _ _ _ _ _ _ 0%nat 8); reflexivity|].
  eapply rtc_l; [eapply (step_worker 0 _ _ _ _ _ _ _ _ 0%nat); reflexivity|].
  eapply rtc_l; [apply step_join; by repeat constructor|].
  apply rtc_refl.
Qed.

Lemma demo_idle_reachable : rtc (pool_step 0) (pool_init 1 2) demo_idle.
Proof. eapply rtc_l; [eapply (step_worker 0 _ _ _ _ _ _ _ _ 0%nat); reflexivity | apply rtc_refl]. Qed.

(** ** Properties *)

(** C16: in every interleaving of submissions, workers, notifications and the
    shutdown the queue never exceeds its bound, and every accepted job is
    taken exactly once and in the order of submission, still queued, or
    discarded by the shutdown; the jobs taken are those finished and those
    whose handler runs. *)
Theorem pool_conservation {J} tc mp timeout (s : PoolSys J) : 0 < tc -> 0 <= mp ->
  rtc (pool_step timeout) (pool_init tc mp) s ->
  pending (ps_pool s) <= mp /\
  ps_submitted s = ps_taken s ++ ps_discarded s ++ queue_ (ps_pool s) /\
  ps_taken s ≡ₚ ps_finished s ++ running (threads_ (ps_pool s)) /\
  completed_ (ps_pool s) = u64 (len (ps_finished s)).
Proof. intros Htc Hmp Hr. destruct (pool_reachable_inv tc mp timeout s Htc Hmp Hr). done. Qed.

Lemma pool_conservation_witness :
  pending (ps_pool demo_busy) <= 2 /\
  ps_submitted demo_busy = ps_taken demo_busy ++ ps_discarded demo_busy ++ queue_ (ps_pool demo_busy) /\
  ps_taken demo_busy ≡ₚ ps_finished demo_busy ++ running (threads_ (ps_pool demo_busy)) /\
  completed_ (ps_pool demo_busy) = u64 (len (ps_finished demo_busy)).
Proof. apply (pool_conservation 1 2 0); [done | done | apply demo_busy_reachable]. Defined.

(** C22: no wake-up is lost: when no notification is outstanding and no worker
    is about to look at the queue, a worker can be waiting only if the queue
    is empty. *)
Theorem pool_no_lost_wakeup {J} tc mp timeout (s : PoolSys J) : 0 < tc -> 0 <= mp ->
  rtc (pool_step timeout) (pool_init tc mp) s ->
  ps_due s = 0%nat -> WCheck ∉ threads_ (ps_pool s) -> WWait ∈ threads_ (ps_pool s) ->
  queue_ (ps_pool s) = [].
Proof.
  intros Htc Hmp Hr Hdue Hck Hw. destruct (pool_reachable_inv tc mp timeout s Htc Hmp Hr) as [_ _ _ _ _ Hi _ _ _ _ _ _].
  specialize (Hi Hw). rewrite Hdue in Hi.
  assert (checks (threads_ (ps_pool s)) = 0%nat) as E.
  { revert Hck. generalize (threads_ (ps_pool s)) as ws. induction ws as [|w ws IH]; [done|].
    intros [Hne Hin]%not_elem_of_cons. cbn. rewrite (IH Hin). by destruct w. }
  apply nil_length_inv. lia.
Qed.

Lemma pool_no_lost_wakeup_witness : queue_ (ps_pool demo_idle) = [].
Proof.
  apply (pool_no_lost_wakeup 1 2 0); [done | done | apply demo_idle_reachable | done | | by left].
  not_in.
Defined.

(** when [drain_and_stop] has returned, no worker is left, the queue is
    empty, and the jobs finished are exactly those taken: every accepted job
    was executed, or discarded after the timeout. *)
Theorem pool_shutdown_complete {J} tc mp timeout (s : PoolSys J) : 0 < tc -> 0 <= mp ->
  rtc (pool_step timeout) (pool_init tc mp) s -> ps_drain s = DDone ->
  threads_ (ps_pool s) = [] /\ queue_ (ps_pool s) = [] /\
  ps_submitted s = ps_taken s ++ ps_discarded s /\ ps_finished s ≡ₚ ps_taken s.
Proof.
  intros Htc Hmp Hr Hd. destruct (pool_reachable_inv tc mp timeout s Htc Hmp Hr) as [_ _ Hh Hj _ _ _ _ _ Ht _ _].
  rewrite Hd in Ht. destruct Ht as [Hth Hq]. rewrite Hq, Hth in *. cbn in Hj.
  rewrite app_nil_r in *. split_and!; done.
Qed.

Lemma pool_shutdown_complete_witness :
  threads_ (ps_pool demo_stopped) = [] /\ queue_ (ps_pool demo_stopped) = [] /\
  ps_submitted demo_stopped = ps_taken demo_stopped ++ ps_discarded demo_stopped /\
  ps_finished demo_stopped ≡ₚ ps_taken demo_stopped.
Proof. apply (pool_shutdown_complete 1 2 0); [done | done | apply demo_stopped_reachable | done]. Defined.

(** with a timeout of zero [drain_and_stop] discards nothing: every job
    that was accepted has been executed when it returns. *)
Theorem pool_zero_timeout_runs_all {J} tc mp (s : PoolSys J) : 0 < tc -> 0 <= mp ->
  rtc (pool_step 0) (pool_init tc mp) s -> ps_drain s = DDone ->
  ps_finished s ≡ₚ ps_submitted s.
Proof.
  intros Htc Hmp Hr Hd. destruct (pool_reachable_inv tc mp 0 s Htc Hmp Hr) as [_ _ Hh Hj _ _ _ _ _ Ht _ Hti].
  rewrite Hd in Ht. destruct Ht as [Hth Hq]. destruct (Hti (Z.le_refl 0)) as [Hdis _].
  rewrite Hh, Hdis, Hq, Hj, Hth. cbn. by rewrite !app_nil_r.
Qed.

Lemma pool_zero_timeout_runs_all_witness : ps_finished demo_stopped ≡ₚ ps_submitted demo_stopped.
Proof. apply (pool_zero_timeout_runs_all 1 2); [done | done | apply demo_stopped_reachable | done]. Defined.

(** a shutdown that has set [stopping_] terminates whatever the
    interleaving: it is never stuck before [drain_and_stop] returns, and each
    step that changes the state uses up [effort]. *)
Theorem pool_shutdown_terminates {J} tc mp timeout (s : PoolSys J) : 0 < tc -> 0 <= mp ->
  rtc (pool_step timeout) (pool_init tc mp) s -> stopping_ (ps_pool s) = true ->
  (forall s', pool_step timeout s s' -> s' = s \/ (effort s' < effort s)%nat) /\
  (ps_drain s = DDone \/ exists s', pool_step timeout s s' /\ (effort s' < effort s)%nat).
Proof.
  intros Htc Hmp Hr Hst. pose proof (pool_reachable_inv tc mp timeout s Htc Hmp Hr) as Hi.
  split; [intros s' Hs; by eapply pool_step_effort|].
  assert (Hdec : ps_drain s = DDone \/ ps_drain s <> DDone) by (destruct (ps_drain s); auto).
  destruct Hdec as [Hd|Hd]; [by left | right].
  destruct (pool_progress tc mp timeout s Hi Hst Hd) as (s' & Hs & Hne).
  exists s'. split; [done|]. by destruct (pool_step_effort tc mp timeout s s' Hi Hst Hs).
Qed.

Lemma pool_shutdown_terminates_witness :
  (forall s', pool_step 0 demo_stopping s' -> s' = demo_stopping \/ (effort s' < effort demo_stopping)%nat) /\
  (ps_drain demo_stopping = DDone \/
   exists s', pool_step 0 demo_stopping s' /\ (effort s' < effort demo_stopping)%nat).
Proof. apply (pool_shutdown_terminates 1 2 0); [done | done | apply demo_stopping_reachable | done]. Defined.
