(* ===== verification/Config.v ===== *)
(** * Configuration: command line and validation

    Models include/cache/config.h and src/config.cpp.  [parse_server_args]
    takes the arguments after the program name.  The printed usage text and
    start-up banner are output only and are left out. *)

From S2P Require Import Prelude CacheSpec Sys.

Definition kMaxKeyBytesHardLimit : Z := 64 * 1024.
Definition kMaxValueBytesHardLimit : Z := 64 * 1024 * 1024.
Definition kMaxWorkerThreads : Z := 1024.


Record ServerConfig := mkServerConfig {
  socket_path : bytes;
  max_entries : Z;
  max_cache_bytes : Z;
  cfg_max_value_bytes : Z;
  cfg_max_key_bytes : Z;
  worker_threads : Z;
  max_pending_requests : Z;
  max_connections : Z;
  max_conn_output_bytes : Z;
  max_inflight_per_conn : Z;
  accept_backlog : Z;
  shutdown_drain_ms : Z;
  verbose : bool;
}.

Definition default_config : ServerConfig :=
  mkServerConfig (lit "/tmp/local_cache.sock") 100000 (256 * 1024 * 1024) (1024 * 1024) 1024
    4 65536 4096 (8 * 1024 * 1024) 512 512 2000 false.

Definition cache_limits (c : ServerConfig) : CacheLimits :=
  mkCacheLimits (max_entries c) (max_cache_bytes c) (cfg_max_value_bytes c).

(** ** Sizes *)

(** The loop over the digits. *)
Fixpoint parse_digits (text : bytes) (value : Z) : option Z :=
  match text with
  | [] => Some value
  | c :: text =>
      if (b2z c <? 48) || (57 <? b2z c) then None else
      let digit := b2z c - 48 in
      if (usize_max - digit) / 10 <? value then None else
      parse_digits text (u64 (value * 10 + digit))
  end.

(** The multiplier of the suffix, and the text without it. *)
Definition split_suffix (text : bytes) : Z * bytes :=
  match last text with
  | Some c =>
      if (b2z c =? 107) || (b2z c =? 75) then (1024, removelast text)
      else if (b2z c =? 109) || (b2z c =? 77) then (1024 * 1024, removelast text)
      else if (b2z c =? 103) || (b2z c =? 71) then (1024 * 1024 * 1024, removelast text)
      else (1, text)
  | None => (1, text)
  end.

(** [None] is the result [false], with [*out] unchanged. *)
Definition parse_size (text : bytes) : option Z :=
  if len text =? 0 then None else
  let '(multiplier, text) := split_suffix text in
  if len text =? 0 then None else
  value ← parse_digits text 0;
  if (1 <? multiplier) && (usize_max / multiplier <? value) then None
  else Some (u64 (value * multiplier)).

(** ** Validation *)

Definition validate (c : ServerConfig) : option bytes :=
  if len (socket_path c) =? 0 then Some (lit "socket path must not be empty") else
  if sun_path_size <=? len (socket_path c) then
    Some (lit "socket path exceeds " ++ to_string (sun_path_size - 1) ++
          lit " bytes (AF_UNIX sun_path limit)") else
  if max_entries c =? 0 then Some (lit "--max-entries must be at least 1") else
  if (cfg_max_value_bytes c =? 0) || (kMaxValueBytesHardLimit <? cfg_max_value_bytes c) then
    Some (lit "--max-value-bytes must be in [1, " ++ to_string kMaxValueBytesHardLimit ++ lit "]") else
  if (cfg_max_key_bytes c =? 0) || (kMaxKeyBytesHardLimit <? cfg_max_key_bytes c) then
    Some (lit "--max-key-bytes must be in [1, " ++ to_string kMaxKeyBytesHardLimit ++ lit "]") else
  if max_cache_bytes c <? u64 (cfg_max_value_bytes c + cfg_max_key_bytes c + kEntryOverheadBytes) then
    Some (lit "--max-cache-bytes is too small to hold a single maximum-sized entry") else
  if (worker_threads c =? 0) || (kMaxWorkerThreads <? worker_threads c) then
    Some (lit "--workers must be in [1, " ++ to_string kMaxWorkerThreads ++ lit "]") else
  if max_pending_requests c =? 0 then Some (lit "--max-pending must be at least 1") else
  if max_connections c =? 0 then Some (lit "--max-connections must be at least 1") else
  if max_inflight_per_conn c =? 0 then Some (lit "--max-inflight-per-conn must be at least 1") else
  if max_conn_output_bytes c <? cfg_max_value_bytes c then
    Some (lit "--max-conn-output-bytes must be at least --max-value-bytes") else
  if accept_backlog c <=? 0 then Some (lit "--backlog must be positive") else
  if shutdown_drain_ms c <? 0 then Some (lit "--shutdown-drain-ms must not be negative") else
  None.

(** ** The command line *)

Record ConfigParseResult := mkConfigParseResult {
  config : option ServerConfig;
  error : bytes;
  help_requested : bool;
}.

Definition fail (message : bytes) : ConfigParseResult := mkConfigParseResult None message false.

Definition set_socket_path (v : bytes) (c : ServerConfig) : ServerConfig :=
  mkServerConfig v (max_entries c) (max_cache_bytes c) (cfg_max_value_bytes c)
    (cfg_max_key_bytes c) (worker_threads c) (max_pending_requests c) (max_connections c)
    (max_conn_output_bytes c) (max_inflight_per_conn c) (accept_backlog c)
    (shutdown_drain_ms c) (verbose c).
Definition set_max_entries (v : Z) (c : ServerConfig) : ServerConfig :=
  mkServerConfig (socket_path c) v (max_cache_bytes c) (cfg_max_value_bytes c)
    (cfg_max_key_bytes c) (worker_threads c) (max_pending_requests c) (max_connections c)
    (max_conn_output_bytes c) (max_inflight_per_conn c) (accept_backlog c)
    (shutdown_drain_ms c) (verbose c).
Definition set_max_cache_bytes (v : Z) (c : ServerConfig) : ServerConfig :=
  mkServerConfig (socket_path c) (max_entries c) v (cfg_max_value_bytes c)
    (cfg_max_key_bytes c) (worker_threads c) (max_pending_requests c) (max_connections c)
    (max_conn_output_bytes c) (max_inflight_per_conn c) (accept_backlog c)
    (shutdown_drain_ms c) (verbose c).
Definition set_cfg_max_value_bytes (v : Z) (c : ServerConfig) : ServerConfig :=
  mkServerConfig (socket_path c) (max_entries c) (max_cache_bytes c) v (cfg_max_key_bytes c)
    (worker_threads c) (max_pending_requests c) (max_connections c) (max_conn_output_bytes c)
    (max_inflight_per_conn c) (accept_backlog c) (shutdown_drain_ms c) (verbose c).
Definition set_cfg_max_key_bytes (v : Z) (c : ServerConfig) : ServerConfig :=
  mkServerConfig (socket_path c) (max_entries c) (max_cache_bytes c) (cfg_max_value_bytes c) v
    (worker_threads c) (max_pending_requests c) (max_connections c) (max_conn_output_bytes c)
    (max_inflight_per_conn c) (accept_backlog c) (shutdown_drain_ms c) (verbose c).
Definition set_worker_threads (v : Z) (c : ServerConfig) : ServerConfig :=
  mkServerConfig (socket_path c) (max_entries c) (max_cache_bytes c) (cfg_max_value_bytes c)
    (cfg_max_key_bytes c) v (max_pending_requests c) (max_connections c)
    (max_conn_output_bytes c) (max_inflight_per_conn c) (accept_backlog c)
    (shutdown_drain_ms c) (verbose c).
Definition set_max_pending_requests (v : Z) (c : ServerConfig) : ServerConfig :=
  mkServerConfig (socket_path c) (max_entries c) (max_cache_bytes c) (cfg_max_value_bytes c)
    (cfg_max_key_bytes c) (worker_threads c) v (max_connections c) (max_conn_output_bytes c)
    (max_inflight_per_conn c) (accept_backlog c) (shutdown_drain_ms c) (verbose c).
Definition set_max_connections (v : Z) (c : ServerConfig) : ServerConfig :=
  mkServerConfig (socket_path c) (max_entries c) (max_cache_bytes c) (cfg_max_value_bytes c)
    (cfg_max_key_bytes c) (worker_threads c) (max_pending_requests c) v
    (max_conn_output_bytes c) (max_inflight_per_conn c) (accept_backlog c)
    (shutdown_drain_ms c) (verbose c).
Definition set_max_conn_output_bytes (v : Z) (c : ServerConfig) : ServerConfig :=
  mkServerConfig (socket_path c) (max_entries c) (max_cache_bytes c) (cfg_max_value_bytes c)
    (cfg_max_key_bytes c) (worker_threads c) (max_pending_requests c) (max_connections c) v
    (max_inflight_per_conn c) (accept_backlog c) (shutdown_drain_ms c) (verbose c).
Definition set_max_inflight_per_conn (v : Z) (c : ServerConfig) : ServerConfig :=
  mkServerConfig (socket_path c) (max_entries c) (max_cache_bytes c) (cfg_max_value_bytes c)
    (cfg_max_key_bytes c) (worker_threads c) (max_pending_requests c) (max_connections c)
    (max_conn_output_bytes c) v (accept_backlog c) (shutdown_drain_ms c) (verbose c).
Definition set_accept_backlog (v : Z) (c : ServerConfig) : ServerConfig :=
  mkServerConfig (socket_path c) (max_entries c) (max_cache_bytes c) (cfg_max_value_bytes c)
    (cfg_max_key_bytes c) (worker_threads c) (max_pending_requests c) (max_connections c)
    (max_conn_output_bytes c) (max_inflight_per_conn c) v (shutdown_drain_ms c) (verbose c).
Definition set_shutdown_drain_ms (v : Z) (c : ServerConfig) : ServerConfig :=
  mkServerConfig (socket_path c) (max_entries c) (max_cache_bytes c) (cfg_max_value_bytes c)
    (cfg_max_key_bytes c) (worker_threads c) (max_pending_requests c) (max_connections c)
    (max_conn_output_bytes c) (max_inflight_per_conn c) (accept_backlog c) v (verbose c).
Definition set_verbose (v : bool) (c : ServerConfig) : ServerConfig :=
  mkServerConfig (socket_path c) (max_entries c) (max_cache_bytes c) (cfg_max_value_bytes c)
    (cfg_max_key_bytes c) (worker_threads c) (max_pending_requests c) (max_connections c)
    (max_conn_output_bytes c) (max_inflight_per_conn c) (accept_backlog c)
    (shutdown_drain_ms c) v.

(** [size_option(&config.field)]. *)
Definition size_option (value : bytes) (set : Z -> ServerConfig -> ServerConfig) (c : ServerConfig)
    : bool * ServerConfig :=
  match parse_size value with Some n => (true, set n c) | None => (false, c) end.

(** A size with an upper bound, stored in an [int]. *)
Definition bounded_option (value : bytes) (bound : Z) (set : Z -> ServerConfig -> ServerConfig)
    (c : ServerConfig) : bool * ServerConfig :=
  match parse_size value with
  | Some n => if n <=? bound then (true, set n c) else (false, c)
  | None => (false, c)
  end.

(** The chain of comparisons on [name]; [None] for an unknown option. *)
Definition apply_option (name value : bytes) (c : ServerConfig) : option (bool * ServerConfig) :=
  if bool_decide (name = lit "--socket") then Some (true, set_socket_path value c) else
  if bool_decide (name = lit "--max-entries") then Some (size_option value set_max_entries c) else
  if bool_decide (name = lit "--max-cache-bytes") then Some (size_option value set_max_cache_bytes c) else
  if bool_decide (name = lit "--max-value-bytes") then Some (size_option value set_cfg_max_value_bytes c) else
  if bool_decide (name = lit "--max-key-bytes") then Some (size_option value set_cfg_max_key_bytes c) else
  if bool_decide (name = lit "--workers") then Some (size_option value set_worker_threads c) else
  if bool_decide (name = lit "--max-pending") then Some (size_option value set_max_pending_requests c) else
  if bool_decide (name = lit "--max-connections") then Some (size_option value set_max_connections c) else
  if bool_decide (name = lit "--max-conn-output-bytes") then Some (size_option value set_max_conn_output_bytes c) else
  if bool_decide (name = lit "--max-inflight-per-conn") then Some (size_option value set_max_inflight_per_conn c) else
  if bool_decide (name = lit "--backlog") then Some (bounded_option value 65535 set_accept_backlog c) else
  if bool_decide (name = lit "--shutdown-drain-ms") then Some (bounded_option value 600000 set_shutdown_drain_ms c) else
  None.

(** [arg.find('=')]: the parts around the first equals sign. *)
Fixpoint split_eq (arg : bytes) : option (bytes * bytes) :=
  match arg with
  | [] => None
  | c :: rest =>
      if b2z c =? 61 then Some ([], rest)
      else match split_eq rest with Some (name, value) => Some (c :: name, value) | None => None end
  end.

(** The loop over the arguments and the validation after it. *)
Fixpoint parse_args (args : list bytes) (c : ServerConfig) : ConfigParseResult :=
  match args with
  | [] =>
      match validate c with
      | Some message => fail message
      | None => mkConfigParseResult (Some c) [] false
      end
  | arg :: rest =>
      if bool_decide (arg = lit "--help") || bool_decide (arg = lit "-h")
      then mkConfigParseResult None [] true else
      if bool_decide (arg = lit "--verbose") then parse_args rest (set_verbose true c) else
      match split_eq arg with
      | Some (name, value) =>
          match apply_option name value c with
          | None => fail (lit "unknown option " ++ name)
          | Some (false, _) => fail (lit "invalid value for " ++ name ++ lit ": " ++ value)
          | Some (true, c) => parse_args rest c
          end
      | None =>
          match rest with
          | [] => fail (lit "missing value for option " ++ arg)
          | value :: rest =>
              match apply_option arg value c with
              | None => fail (lit "unknown option " ++ arg)
              | Some (false, _) => fail (lit "invalid value for " ++ arg ++ lit ": " ++ value)
              | Some (true, c) => parse_args rest c
              end
          end
      end
  end.

Definition parse_server_args (args : list bytes) : ConfigParseResult := parse_args args default_config.

(** ** Sizes against a reference *)

Definition is_digit (c : byte) : bool := (48 <=? b2z c) && (b2z c <=? 57).

(** The number [text] denotes after the digits of [value]. *)
Definition dec (value : Z) (text : bytes) : Z :=
  fold_left (fun value c => value * 10 + (b2z c - 48)) text value.

(** What a size is: digits followed by a unit or by none, in 64 bits. *)
Definition size_units : list (bytes * Z) :=
  [([], 1); (lit "k", 2 ^ 10); (lit "K", 2 ^ 10); (lit "m", 2 ^ 20); (lit "M", 2 ^ 20); (lit "g", 2 ^ 30); (lit "G", 2 ^ 30)].

Definition denotes_size (text : bytes) (n : Z) : Prop :=
  exists digits unit factor, text = digits ++ unit /\ (unit, factor) ∈ size_units /\
    digits <> [] /\ forallb is_digit digits = true /\ n = dec 0 digits * factor /\ n < 2 ^ 64.

(** The result of [parse_size] without the bounds of machine arithmetic on the way. *)
Definition reference_size (text : bytes) : option Z :=
  let '(multiplier, digits) := split_suffix text in
  if negb (len digits =? 0) && forallb is_digit digits && (dec 0 digits * multiplier <? 2 ^ 64)
  then Some (dec 0 digits * multiplier) else None.

Lemma dec_ge value text : 0 <= value -> forallb is_digit text = true -> value <= dec value text.
Proof.
  revert value. induction text as [|c text IH]; intros value Hv Hd; [done|].
  apply andb_true_iff in Hd as [Hc Hd]. unfold is_digit in Hc. b2p.
  change (dec value (c :: text)) with (dec (value * 10 + (b2z c - 48)) text).
  specialize (IH (value * 10 + (b2z c - 48)) ltac:(lia) Hd). lia.
Qed.

Lemma parse_digits_spec text value : 0 <= value < 2 ^ 64 ->
  parse_digits text value =
    if forallb is_digit text && (dec value text <? 2 ^ 64) then Some (dec value text) else None.
Proof.
  revert value. induction text as [|c text IH]; intros value Hv.
  { cbn. by destruct (Z.ltb_spec value (2 ^ 64)); [|lia]. }
  cbn [parse_digits forallb]. unfold is_digit at 1.
  destruct (Z.ltb_spec (b2z c) 48), (Z.leb_spec 48 (b2z c)); try lia; [done|].
  destruct (Z.ltb_spec 57 (b2z c)), (Z.leb_spec (b2z c) 57); try lia; [done|]. cbn [orb andb].
  change (dec value (c :: text)) with (dec (value * 10 + (b2z c - 48)) text).
  pose proof (Z.div_mod (usize_max - (b2z c - 48)) 10 ltac:(lia)) as Hdm.
  pose proof (Z.mod_pos_bound (usize_max - (b2z c - 48)) 10 ltac:(lia)). unfold usize_max in *.
  destruct (Z.ltb_spec ((2 ^ 64 - 1 - (b2z c - 48)) / 10) value) as [Hov|Hin].
  - destruct (forallb is_digit text) eqn:Hd; [|done]. cbn.
    pose proof (dec_ge (value * 10 + (b2z c - 48)) text ltac:(lia) Hd).
    destruct (Z.ltb_spec (dec (value * 10 + (b2z c - 48)) text) (2 ^ 64)); [lia|done].
  - rewrite u64_small by lia. apply IH. lia.
Qed.

Lemma split_suffix_pos text : 1 <= (split_suffix text).1.
Proof. unfold split_suffix. destruct (last text); [repeat split_if|]; cbn; lia. Qed.

Lemma parse_size_eq text : parse_size text = reference_size text.
Proof.
  unfold parse_size, reference_size. pose proof (split_suffix_pos text) as Hm.
  destruct (Z.eqb_spec (len text) 0) as [E|_]; [by rewrite (len_0 _ E)|].
  destruct (split_suffix text) as [m digits]; cbn in Hm.
  destruct (len digits =? 0); [done|]. rewrite parse_digits_spec by lia. cbn [negb andb].
  destruct (forallb is_digit digits) eqn:Hd; [|done]. cbn [andb].
  pose proof (dec_ge 0 digits ltac:(lia) Hd) as Hge.
  pose proof (Z.div_mod usize_max m ltac:(lia)) as Hdm.
  pose proof (Z.mod_pos_bound usize_max m ltac:(lia)). unfold usize_max in *.
  destruct (Z.ltb_spec (dec 0 digits) (2 ^ 64)); cbn [mbind option_bind].
  - destruct (Z.ltb_spec (dec 0 digits * m) (2 ^ 64)) as [Hlt|Hge2].
    + rewrite u64_small by lia.
      destruct (Z.ltb_spec 1 m), (Z.ltb_spec ((2 ^ 64 - 1) / m) (dec 0 digits)); cbn; try done. nia.
    + destruct (Z.ltb_spec 1 m), (Z.ltb_spec ((2 ^ 64 - 1) / m) (dec 0 digits)); cbn; try done; nia.
  - destruct (Z.ltb_spec (dec 0 digits * m) (2 ^ 64)); [nia | done].
Qed.

Lemma dec_decimal fuel n acc : 0 <= n < 10 ^ Z.of_nat fuel ->
  dec 0 (decimal fuel n acc) = dec n acc /\
  (forallb is_digit acc = true -> forallb is_digit (decimal fuel n acc) = true).
Proof.
  revert n acc. induction fuel as [|fuel IH]; intros n acc Hn.
  { cbn in Hn. by assert (n = 0) as -> by lia. }
  cbn [decimal]. pose proof (Z.mod_pos_bound n 10 ltac:(lia)). pose proof (Z.div_mod n 10 ltac:(lia)).
  assert (Hc : b2z (z2b (48 + n mod 10)) = 48 + n mod 10) by (rewrite b2z_z2b; apply u8_small; lia).
  assert (Hd : is_digit (z2b (48 + n mod 10)) = true).
  { unfold is_digit. rewrite Hc. apply andb_true_iff. split; apply Z.leb_le; lia. }
  destruct (Z.ltb_spec n 10).
  - split; [|cbn [forallb]; by rewrite Hd]. unfold dec. cbn [fold_left]. rewrite Hc. f_equal.
    rewrite Z.mod_small; lia.
  - replace (Z.of_nat (S fuel)) with (Z.of_nat fuel + 1) in Hn by lia.
    rewrite Z.pow_add_r in Hn by lia.
    destruct (IH (n / 10) (z2b (48 + n mod 10) :: acc) ltac:(lia)) as [E1 E2].
    split; [|intros Ha; apply E2; cbn [forallb]; by rewrite Hd].
    rewrite E1. unfold dec. cbn [fold_left]. rewrite Hc. f_equal. lia.
Qed.

Lemma split_suffix_digits text : forallb is_digit text = true -> split_suffix text = (1, text).
Proof.
  intros Hd. unfold split_suffix. destruct (last text) as [c|] eqn:E; [|done].
  apply last_Some in E as [l ->]. rewrite forallb_app in Hd. b2p. cbn in *. b2p.
  unfold is_digit in *. b2p. repeat (split_if; [b2p; lia|]). done.
Qed.

(** The units [split_suffix] takes off. *)
Lemma split_suffix_unit digits unit factor : (unit, factor) ∈ size_units -> forallb is_digit digits = true ->
  split_suffix (digits ++ unit) = (factor, digits).
Proof.
  intros Hu Hd. unfold size_units in Hu. rewrite !elem_of_cons in Hu.
  destruct Hu as [[= -> ->]|Hu]; [rewrite app_nil_r; by apply split_suffix_digits|].
  repeat destruct Hu as [[= -> ->]|Hu]; [..|by apply not_elem_of_nil in Hu];
    match goal with |- context [lit ?s] => let u := eval vm_compute in (lit s) in change (lit s) with u end;
    unfold split_suffix; rewrite last_snoc, removelast_last; reflexivity.
Qed.

Lemma split_suffix_inv text factor digits : split_suffix text = (factor, digits) ->
  exists unit, text = digits ++ unit /\ (unit, factor) ∈ size_units.
Proof.
  unfold split_suffix. destruct (last text) as [c|] eqn:E.
  - apply last_Some in E as [l ->]. rewrite removelast_last.
    destruct c; cbn; intros [= <- <-];
      first [by exists []; split; [rewrite app_nil_r | left]
            | by eexists [_]; split; [reflexivity|]; unfold size_units; rewrite !elem_of_cons; auto 10].
  - intros [= <- <-]. exists []. split; [by rewrite app_nil_r | by left].
Qed.

Lemma reference_size_spec text n : reference_size text = Some n <-> denotes_size text n.
Proof.
  unfold reference_size. split.
  - destruct (split_suffix text) as [factor digits] eqn:E. destruct (split_suffix_inv _ _ _ E) as (unit & -> & Hu).
    destruct (Z.eqb_spec (len digits) 0) as [|Hne]; [done|]. cbn [negb andb].
    destruct (forallb is_digit digits) eqn:Hd; [|done]. cbn [andb].
    destruct (Z.ltb_spec (dec 0 digits * factor) (2 ^ 64)); [|done]. intros [= <-].
    exists digits, unit, factor. split_and!; try done. by intros ->.
  - intros (digits & unit & factor & -> & Hu & Hne & Hd & -> & Hlt). rewrite (split_suffix_unit _ _ _ Hu Hd), Hd.
    destruct (Z.eqb_spec (len digits) 0) as [E|_]; [by apply len_0 in E|]. cbn [negb andb].
    by rewrite (proj2 (Z.ltb_lt _ _) Hlt).
Qed.

(** ** Configurations *)

(** The values the fields' types can hold. *)
Record config_typed (c : ServerConfig) : Prop := mkConfigTyped {
  ct_entries : 0 <= max_entries c < 2 ^ 64;
  ct_cache : 0 <= max_cache_bytes c < 2 ^ 64;
  ct_value : 0 <= cfg_max_value_bytes c < 2 ^ 64;
  ct_key : 0 <= cfg_max_key_bytes c < 2 ^ 64;
  ct_workers : 0 <= worker_threads c < 2 ^ 64;
  ct_pending : 0 <= max_pending_requests c < 2 ^ 64;
  ct_connections : 0 <= max_connections c < 2 ^ 64;
  ct_output : 0 <= max_conn_output_bytes c < 2 ^ 64;
  ct_inflight : 0 <= max_inflight_per_conn c < 2 ^ 64;
  ct_backlog : - 2 ^ 31 <= accept_backlog c < 2 ^ 31;
  ct_drain : - 2 ^ 31 <= shutdown_drain_ms c < 2 ^ 31;
}.

(** What the rest of the server relies on. *)
Record config_valid (c : ServerConfig) : Prop := mkConfigValid {
  cv_path : 1 <= len (socket_path c) < sun_path_size;
  cv_entries : 1 <= max_entries c;
  cv_value : 1 <= cfg_max_value_bytes c <= kMaxValueBytesHardLimit;
  cv_key : 1 <= cfg_max_key_bytes c <= kMaxKeyBytesHardLimit;
  cv_cache : cfg_max_value_bytes c + cfg_max_key_bytes c + kEntryOverheadBytes <= max_cache_bytes c;
  cv_workers : 1 <= worker_threads c <= kMaxWorkerThreads;
  cv_pending : 1 <= max_pending_requests c;
  cv_connections : 1 <= max_connections c;
  cv_inflight : 1 <= max_inflight_per_conn c;
  cv_output : cfg_max_value_bytes c <= max_conn_output_bytes c;
  cv_backlog : 1 <= accept_backlog c;
  cv_drain : 0 <= shutdown_drain_ms c;
}.

Lemma validate_exact c : config_typed c -> validate c = None <-> config_valid c.
Proof.
  intros []. pose proof (len_nonneg (socket_path c)).
  unfold validate, kMaxValueBytesHardLimit, kMaxKeyBytesHardLimit, kEntryOverheadBytes in *. split.
  - repeat (split_if; [done|]). b2p. intros _.
    rewrite u64_small in * by lia.
    split; unfold kMaxValueBytesHardLimit, kMaxKeyBytesHardLimit, kEntryOverheadBytes; lia.
  - intros []. unfold kMaxValueBytesHardLimit, kMaxKeyBytesHardLimit, kEntryOverheadBytes in *.
    rewrite u64_small by lia. repeat (split_if; [b2p; lia|]). done.
Qed.

Lemma parse_size_range text n : parse_size text = Some n -> 0 <= n < 2 ^ 64.
Proof.
  rewrite parse_size_eq. unfold reference_size. pose proof (split_suffix_pos text).
  destruct (split_suffix text) as [m digits]. cbn in *. split_if; [|done]. intros [= <-]. b2p.
  match goal with Hd : forallb _ _ = true |- _ => pose proof (dec_ge 0 digits ltac:(lia) Hd) end. nia.
Qed.

Lemma size_option_typed value (set : Z -> ServerConfig -> ServerConfig) c b c' :
  (forall n, 0 <= n < 2 ^ 64 -> config_typed (set n c)) -> config_typed c ->
  size_option value set c = (b, c') -> config_typed c'.
Proof.
  intros Hs Hc. unfold size_option. destruct (parse_size value) as [n|] eqn:E; intros [= <- <-]; [|done].
  by apply Hs, (parse_size_range value).
Qed.

Lemma bounded_option_typed value bound (set : Z -> ServerConfig -> ServerConfig) c b c' :
  (forall n, 0 <= n <= bound -> config_typed (set n c)) -> config_typed c ->
  bounded_option value bound set c = (b, c') -> config_typed c'.
Proof.
  intros Hs Hc. unfold bounded_option. destruct (parse_size value) as [n|] eqn:E; [|by intros [= <- <-]].
  pose proof (parse_size_range _ _ E). destruct (Z.leb_spec n bound); intros [= <- <-]; [|done]. apply Hs. lia.
Qed.

Lemma apply_option_typed name value c b c' : config_typed c ->
  apply_option name value c = Some (b, c') -> config_typed c'.
Proof.
  intros Hc. unfold apply_option. destruct (bool_decide _); [intros [= <- <-]; by destruct Hc|].
  repeat (destruct (bool_decide _);
    [intros Heq; apply (inj Some) in Heq;
     first [eapply size_option_typed in Heq | eapply bounded_option_typed in Heq]; eauto;
     intros n Hn; destruct Hc; split; cbn; lia|]).
  done.
Qed.

(** A configuration the parser returns has passed [validate]. *)
Lemma parse_args_valid args c c' : config_typed c ->
  config (parse_args args c) = Some c' -> config_typed c' /\ validate c' = None.
Proof.
  revert c. induction args as [args IH] using (well_founded_induction
    (Wf_nat.well_founded_ltof _ (@length bytes))). unfold Wf_nat.ltof in IH.
  intros c Hc. destruct args as [|arg rest]; cbn [parse_args].
  { destruct (validate c) eqn:E; [done|]. cbn. by intros [= <-]. }
  split_if; [done|]. split_if; [apply IH; [cbn; lia | by destruct Hc]|].
  destruct (split_eq arg) as [[name value]|].
  - destruct (apply_option name value c) as [[[] c1]|] eqn:E; [|done|done].
    apply IH; [cbn; lia | by eapply apply_option_typed].
  - destruct rest as [|value rest]; [done|].
    destruct (apply_option arg value c) as [[[] c1]|] eqn:E; [|done|done].
    apply IH; [cbn; lia | by eapply apply_option_typed].
Qed.

Lemma default_config_typed : config_typed default_config.
Proof. split; cbn; lia. Qed.

Lemma validate_message c m : validate c = Some m -> m <> [].
Proof. unfold validate. repeat (split_if; [by intros [= <-]|]). done. Qed.

Lemma parse_args_outcome args c :
  match config (parse_args args c) with
  | Some _ => error (parse_args args c) = [] /\ help_requested (parse_args args c) = false
  | None => help_requested (parse_args args c) = true \/ error (parse_args args c) <> []
  end.
Proof.
  revert c. induction args as [args IH] using (well_founded_induction
    (Wf_nat.well_founded_ltof _ (@length bytes))). unfold Wf_nat.ltof in IH.
  intros c. destruct args as [|arg rest]; cbn [parse_args].
  { destruct (validate c) eqn:E; [|done]. right. cbn. by eapply validate_message. }
  destruct (bool_decide _ || bool_decide _); [cbn; by left|].
  destruct (bool_decide _); [apply IH; cbn; lia|].
  destruct (split_eq arg) as [[name value]|]; [|destruct rest as [|value rest]; [cbn; by right|]];
    (destruct (apply_option _ value c) as [[[] c1]|]; [apply IH; cbn; lia | cbn; by right | cbn; by right]).
Qed.

Lemma split_eq_app name value : split_eq name = None ->
  split_eq (name ++ lit "=" ++ value) = Some (name, value).
Proof.
  induction name as [|c name IH]; cbn; [done|]. destruct (b2z c =? 61); [done|].
  destruct (split_eq name) as [[]|]; [done|]. intros _. cbn in IH. by rewrite IH.
Qed.

(** ** Properties *)
(** C38: [parse_size] accepts exactly decimal digits followed by at most one of
    the units k, m and g, in either case, for 2^10, 2^20 and 2^30, of a value
    that fits 64 bits, and returns that value. *)
Theorem parse_size_exact text n : parse_size text = Some n <-> denotes_size text n.
Proof. rewrite parse_size_eq. apply reference_size_spec. Qed.

(** every 64-bit number is read back from its decimal representation. *)
Theorem size_roundtrip n : 0 <= n < 2 ^ 64 -> parse_size (to_string n) = Some n.
Proof.
  intros Hn. rewrite parse_size_eq. unfold reference_size, to_string.
  destruct (dec_decimal 20 n []) as [E1 E2]; [cbn; lia|].
  rewrite split_suffix_digits, E2, E1 by auto. change (dec n []) with n. rewrite Z.mul_1_r.
  destruct (Z.ltb_spec n (2 ^ 64)); [|lia].
  destruct (Z.eqb_spec (len (decimal 20 n [])) 0) as [E0|]; [|done].
  apply len_0 in E0. by apply decimal_nonempty in E0; [|left].
Qed.

Lemma size_roundtrip_witness : parse_size (to_string 18446744073709551615) = Some 18446744073709551615.
Proof. apply size_roundtrip. lia. Defined.

(** [parse_server_args] either returns a configuration whose every field is
    in range (so that a maximum-sized entry fits the cache, and a
    maximum-sized value the output backlog), or it returns none and reports an
    error message or a request for help. *)
Theorem server_args_sound args :
  match config (parse_server_args args) with
  | Some c => config_typed c /\ config_valid c /\
      error (parse_server_args args) = [] /\ help_requested (parse_server_args args) = false
  | None => help_requested (parse_server_args args) = true \/ error (parse_server_args args) <> []
  end.
Proof.
  pose proof (parse_args_outcome args default_config) as Ho. unfold parse_server_args.
  destruct (config (parse_args args default_config)) as [c|] eqn:E; [|done].
  destruct (parse_args_valid _ _ _ default_config_typed E) as [Ht Hv].
  split_and!; [done | by apply validate_exact | apply Ho | apply Ho].
Qed.

(** the forms [--opt=value] and [--opt value] are interchangeable,
    whatever the value is, error messages included. *)
Theorem option_forms_agree name value rest c : split_eq name = None ->
  name <> lit "--help" -> name <> lit "-h" -> name <> lit "--verbose" ->
  parse_args ((name ++ lit "=" ++ value) :: rest) c = parse_args (name :: value :: rest) c.
Proof.
  intros Hn H1 H2 H3. pose proof (split_eq_app name value Hn) as Hs. cbn [parse_args].
  assert (Hne : forall s, split_eq s = None -> bool_decide (name ++ lit "=" ++ value = s) = false).
  { intros s E. apply bool_decide_eq_false. intros <-. congruence. }
  rewrite !Hne, Hs, Hn by reflexivity. by rewrite !bool_decide_eq_false_2.
Qed.

Lemma option_forms_agree_witness :
  parse_args [lit "--max-entries=12k"] default_config
  = parse_args [lit "--max-entries"; lit "12k"] default_config.
Proof. apply (option_forms_agree (lit "--max-entries") (lit "12k") []); (reflexivity || discriminate). Defined.
