(* ===== verification/Service.v ===== *)
(** * Serving requests: what a worker does with one job

    Models [Server::stats_snapshot] and the request switch of
    [Server::handle_job] (src/server.cpp), against the cache interface of
    CacheSpec.v: the theorems hold for every cache that meets the contract,
    and LruCache.v's does.  The cache calls are atomic (one mutex) and so are
    the counters, so concurrent workers amount to a sequence of requests. *)

From S2P Require Import Prelude Protocol Stats Serializer CacheSpec SpecHistory LruCache.

Section Service.
Context {C : Type} `{!CacheOps C}.

(** The members of [Server] a worker touches. *)
Record Service := mkService {
  sv_cache : C;
  sv_stats : ServerStats;
}.

Definition stats_snapshot (sv : Service) (now : Z) : StatsSnapshot :=
  let snapshot := stats_snapshot_of (sv_stats sv) now in
  let cache_state := cache_snapshot (sv_cache sv) in
  let snapshot := set_current_entries (cs_entries cache_state) snapshot in
  let snapshot := set_current_cache_bytes (cs_bytes cache_state) snapshot in
  let snapshot := set_current_payload_bytes (cs_payload_bytes cache_state) snapshot in
  set_evictions (cs_evictions cache_state) snapshot.

(** The response before it is framed. *)
Definition handle_request (sv : Service) (request : Request) (now : Z) : option (Response * Service) :=
  let response st value := mkResponse (rq_opcode request) st (rq_request_id request) value in
  match rq_opcode request with
  | Opcode.kGet =>
      '(found, value, cache) ← cache_get (sv_cache sv) (rq_key request) [];
      if found : bool
      then Some (response Status.kOk value, mkService cache (record_hit (sv_stats sv)))
      else Some (response Status.kNotFound [], mkService cache (record_miss (sv_stats sv)))
  | Opcode.kPut =>
      '(put_status, cache) ← cache_put (sv_cache sv) (rq_key request) (rq_value request);
      match put_status with
      | PutStatus.kStored =>
          Some (response Status.kOk [], mkService cache (record_put (sv_stats sv)))
      | PutStatus.kValueTooLarge | PutStatus.kEntryTooLarge =>
          Some (response Status.kValueTooLarge [], mkService cache (sv_stats sv))
      end
  | Opcode.kDelete =>
      '(erased, cache) ← cache_erase (sv_cache sv) (rq_key request);
      if erased : bool
      then Some (response Status.kOk [], mkService cache (record_delete (sv_stats sv)))
      else Some (response Status.kNotFound [], mkService cache (sv_stats sv))
  | Opcode.kPing => Some (response Status.kOk [], sv)
  | Opcode.kStats => Some (response Status.kOk (serialize_stats (stats_snapshot sv now)), sv)
  | Opcode.kClear =>
      Some (response Status.kOk [], mkService (cache_clear (sv_cache sv)) (sv_stats sv))
  | Opcode.unnamed _ => Some (response Status.kOk [], sv)
  end.

(** A sequence of requests, each with the time at which it is served. *)
Fixpoint serve (sv : Service) (reqs : list (Request * Z)) : option (list Response * Service) :=
  match reqs with
  | [] => Some ([], sv)
  | (r, now) :: reqs =>
      '(resp, sv) ← handle_request sv r now;
      '(resps, sv) ← serve sv reqs;
      Some (resp :: resps, sv)
  end.
End Service.

Arguments Service : clear implicits.

(** ** The contract of one request *)

(** The cache operation a request stands for. *)
Definition request_op (r : Request) : option Op :=
  match rq_opcode r with
  | Opcode.kGet => Some (OGet (rq_key r))
  | Opcode.kPut => Some (OPut (rq_key r) (rq_value r))
  | Opcode.kDelete => Some (OErase (rq_key r))
  | Opcode.kClear => Some OClear
  | _ => None
  end.

(** How its answer is reported. *)
Definition reply (a : Answer) : Status.t * bytes :=
  match a with
  | AGet (Some v) => (Status.kOk, v)
  | AGet None => (Status.kNotFound, [])
  | APut PutStatus.kStored => (Status.kOk, [])
  | APut _ => (Status.kValueTooLarge, [])
  | AErase true => (Status.kOk, [])
  | AErase false => (Status.kNotFound, [])
  | _ => (Status.kOk, [])
  end.

Definition tally (a : Answer) (s : ServerStats) : ServerStats :=
  match a with
  | AGet (Some _) => record_hit s
  | AGet None => record_miss s
  | APut PutStatus.kStored => record_put s
  | AErase true => record_delete s
  | _ => s
  end.

(** A key and a value that exist in one address space. *)
Definition request_addressable (r : Request) : Prop :=
  len (rq_key r) + len (rq_value r) + kEntryOverheadBytes < 2 ^ 64.

Section Contract.
Context {C : Type} `{!CacheOps C, !CacheContract C}.
Implicit Types sv : Service C.

Definition sv_abs sv : Spec.state := cache_abs (sv_cache sv).

Lemma handle_request_spec sv r now : cache_good (sv_cache sv) -> request_addressable r ->
  exists resp sv', handle_request sv r now = Some (resp, sv') /\ cache_good (sv_cache sv') /\
    rs_opcode resp = rq_opcode r /\ rs_request_id resp = rq_request_id r /\
    match request_op r with
    | Some o => exists a, spec_op (sv_abs sv) o = (a, sv_abs sv') /\
        (rs_status resp, rs_value resp) = reply a /\ sv_stats sv' = tally a (sv_stats sv)
    | None => sv' = sv /\ rs_status resp = Status.kOk /\
        rs_value resp = match rq_opcode r with
                        | Opcode.kStats => serialize_stats (stats_snapshot sv now)
                        | _ => []
                        end
    end.
Proof.
  intros Hg Ha. unfold handle_request, request_op, sv_abs. destruct (rq_opcode r) eqn:Eo.
  - destruct (cache_get_refines (sv_cache sv) (rq_key r) [] Hg) as (found & v & c & -> & Hg' & Hs & _).
    cbn [mbind option_bind spec_op]. destruct found; eexists _, _; split_and!; try done;
      eexists; cbn [spec_op]; rewrite Hs; split_and!; done.
  - destruct (cache_put_refines (sv_cache sv) (rq_key r) (rq_value r) Hg Ha) as (st & c & -> & Hg' & Hs).
    cbn [mbind option_bind]. destruct st; eexists _, _; split_and!; try done;
      eexists; cbn [spec_op]; rewrite Hs; split_and!; done.
  - destruct (cache_erase_refines (sv_cache sv) (rq_key r) Hg) as (b & c & -> & Hg' & Hs).
    cbn [mbind option_bind]. destruct b; eexists _, _; split_and!; try done;
      eexists; cbn [spec_op]; rewrite Hs; split_and!; done.
  - by eexists _, _.
  - by eexists _, _.
  - destruct (cache_clear_refines (sv_cache sv) Hg) as [Hg' Hs].
    eexists _, _; split_and!; try done. eexists. cbn [spec_op sv_cache]. rewrite Hs. split_and!; done.
  - by eexists _, _.
Qed.

(** ** Sequences of requests, seen from the messages *)

(** What a client may conclude from the replies: the value last stored under
    each key and not deleted or cleared since. *)
Definition note (r : Request) (p : Response) (m : gmap bytes bytes) : gmap bytes bytes :=
  match rq_opcode r with
  | Opcode.kPut => if bool_decide (rs_status p = Status.kOk) then <[rq_key r := rq_value r]> m else m
  | Opcode.kDelete => delete (rq_key r) m
  | Opcode.kClear => ∅
  | _ => m
  end.

Fixpoint stored (reqs : list (Request * Z)) (resps : list Response) (m : gmap bytes bytes)
    : gmap bytes bytes :=
  match reqs, resps with
  | (r, _) :: reqs, p :: resps => stored reqs resps (note r p m)
  | _, _ => m
  end.

(** The number of requests [op] answered with [st]. *)
Fixpoint answered (op : Opcode.t) (st : Status.t) (reqs : list (Request * Z)) (resps : list Response) : Z :=
  match reqs, resps with
  | (r, _) :: reqs, p :: resps =>
      (if bool_decide (rq_opcode r = op) && bool_decide (rs_status p = st) then 1 else 0)
      + answered op st reqs resps
  | _, _ => 0
  end.

Lemma handle_request_fresh sv r now resp sv' m : cache_good (sv_cache sv) -> request_addressable r ->
  handle_request sv r now = Some (resp, sv') -> fresh_in m (Spec.contents (sv_abs sv)) ->
  fresh_in (note r resp m) (Spec.contents (sv_abs sv')) /\
  (rq_opcode r = Opcode.kGet -> rs_status resp = Status.kOk -> m !! rq_key r = Some (rs_value resp)).
Proof.
  intros Hg Ha Hr Hf. destruct (handle_request_spec sv r now Hg Ha) as (resp' & sv'' & E & _ & _ & _ & Hc).
  rewrite Hr in E. injection E as <- <-. unfold note, request_op in *.
  destruct (rq_opcode r) eqn:Eo; try (destruct Hc as (-> & _); by split);
    destruct Hc as (a & Hs & Hrep & _);
    match type of Hs with spec_op _ ?o = _ => destruct (spec_op_fresh (sv_abs sv) o m Hf) as [H1 H2] end;
    rewrite Hs in H1, H2; cbn [fst snd record] in H1, H2; split; try done.
  - intros _ Hst. destruct a as [[v|]| | | |]; cbn in Hrep; try (injection Hrep as E1 E2; congruence).
    all: try (cbn in Hs; by destruct (Spec.get _ _)). injection Hrep as _ ->. by eapply H2.
  - assert (exists st, a = APut st) as [st ->].
    { cbn in Hs. destruct (Spec.put _ _ _) as [st s']. exists st. congruence. }
    destruct st; cbn in H1, Hrep; injection Hrep as E _; rewrite E; exact H1.
Qed.

(** A whole sequence: it runs, every response echoes its request, and what
    the cache holds is what the messages say was stored last. *)
Lemma serve_spec sv reqs m : cache_good (sv_cache sv) ->
  Forall (fun r => request_addressable r.1) reqs -> fresh_in m (Spec.contents (sv_abs sv)) ->
  exists resps sv', serve sv reqs = Some (resps, sv') /\ cache_good (sv_cache sv') /\
    Forall2 (fun r p => rs_opcode p = rq_opcode r.1 /\ rs_request_id p = rq_request_id r.1) reqs resps /\
    fresh_in (stored reqs resps m) (Spec.contents (sv_abs sv')).
Proof.
  intros Hg Ha. revert sv m Hg. induction Ha as [|[r now] reqs Hr _ IH]; intros sv m Hg Hf; cbn [serve].
  { exists [], sv. split_and!; try done. }
  destruct (handle_request_spec sv r now Hg Hr) as (resp & sv1 & E & Hg1 & He1 & He2 & _).
  destruct (handle_request_fresh sv r now resp sv1 m Hg Hr E Hf) as [Hf1 _].
  destruct (IH sv1 _ Hg1 Hf1) as (resps & sv' & E' & Hg' & Hall & Hf').
  rewrite E. cbn [mbind option_bind]. rewrite E'. exists (resp :: resps), sv'.
  split_and!; try done. by constructor.
Qed.

(** The four counters, request by request. *)
Lemma handle_request_counts sv r now resp sv' : cache_good (sv_cache sv) -> request_addressable r ->
  handle_request sv r now = Some (resp, sv') ->
  let s := sv_stats sv in let s' := sv_stats sv' in
  hits_ s' = (if bool_decide (rq_opcode r = Opcode.kGet) && bool_decide (rs_status resp = Status.kOk)
              then u64 (hits_ s + 1) else hits_ s) /\
  misses_ s' = (if bool_decide (rq_opcode r = Opcode.kGet) && bool_decide (rs_status resp = Status.kNotFound)
                then u64 (misses_ s + 1) else misses_ s) /\
  puts_ s' = (if bool_decide (rq_opcode r = Opcode.kPut) && bool_decide (rs_status resp = Status.kOk)
              then u64 (puts_ s + 1) else puts_ s) /\
  deletes_ s' = (if bool_decide (rq_opcode r = Opcode.kDelete) && bool_decide (rs_status resp = Status.kOk)
                 then u64 (deletes_ s + 1) else deletes_ s).
Proof.
  intros Hg Ha. unfold handle_request. destruct (rq_opcode r) eqn:Eo.
  - destruct (cache_get_refines (sv_cache sv) (rq_key r) [] Hg) as (found & v & c & -> & _).
    cbn [mbind option_bind]. by destruct found; intros [= <- <-].
  - destruct (cache_put_refines (sv_cache sv) (rq_key r) (rq_value r) Hg Ha) as (st & c & -> & _).
    cbn [mbind option_bind]. by destruct st; intros [= <- <-].
  - destruct (cache_erase_refines (sv_cache sv) (rq_key r) Hg) as (b & c & -> & _).
    cbn [mbind option_bind]. by destruct b; intros [= <- <-].
  - by intros [= <- <-].
  - by intros [= <- <-].
  - by intros [= <- <-].
  - by intros [= <- <-].
Qed.

Lemma tally_typed a s : stats_typed s -> stats_typed (tally a s).
Proof. intros []. destruct a as [[]|[]|[]| |]; split; cbn; auto with cache. Qed.

Lemma handle_request_typed sv r now resp sv' : cache_good (sv_cache sv) -> request_addressable r ->
  handle_request sv r now = Some (resp, sv') -> stats_typed (sv_stats sv) -> stats_typed (sv_stats sv').
Proof.
  intros Hg Ha E Ht. destruct (handle_request_spec sv r now Hg Ha) as (resp' & sv'' & E' & _ & _ & _ & Hc).
  rewrite E in E'. injection E' as <- <-. destruct (request_op r).
  - destruct Hc as (a & _ & _ & ->). by apply tally_typed.
  - by destruct Hc as [-> _].
Qed.

Lemma spec_op_ok_value sv o v s' : cache_good (sv_cache sv) ->
  spec_op (sv_abs sv) o = (AGet (Some v), s') -> len v <= cl_max_value_bytes (Spec.limits (sv_abs sv)).
Proof.
  intros Hg. pose proof (Spec.ok_values _ (cache_good_ok _ Hg)) as Hv.
  destruct o as [k|k w|k|k|]; cbn; [|by destruct (Spec.put _ _ _)|by destruct (Spec.erase _ _)|done..].
  unfold Spec.get. destruct (Spec.find k (Spec.contents (sv_abs sv))) as [v'|] eqn:E; [|done].
  intros [= <- _]. apply Spec.find_Some in E. rewrite Forall_forall in Hv. by apply (Hv (k, v')).
Qed.

Lemma len_serialize_stats s : len (serialize_stats s) = 114.
Proof. rewrite serialize_stats_eq. unfold len. rewrite length_app, length_be_split. cbn [map kStatsFields concat]. rewrite !length_app, !length_be_split. done. Qed.

Lemma reply_named a : named_status (reply a).1 = true.
Proof. by destruct a as [[]|[]|[]| |]. Qed.

Lemma handle_request_response_ok limits sv r now resp sv' :
  cache_good (sv_cache sv) -> request_ok limits r = true ->
  cl_max_value_bytes (Spec.limits (sv_abs sv)) <= kMaxValueBytes ->
  handle_request sv r now = Some (resp, sv') ->
  response_ok (mkLimits kMaxKeyBytes kMaxValueBytes) resp = true.
Proof.
  intros Hg Hr Hl E. destruct (request_ok_lens _ _ Hr) as [Hk Hv].
  assert (Ha : request_addressable r).
  { unfold request_addressable, kMaxKeyBytes, kMaxValueBytes, kEntryOverheadBytes in *. lia. }
  destruct (handle_request_spec sv r now Hg Ha) as (resp' & sv'' & E' & _ & Ho & Hi & Hc).
  rewrite E in E'. injection E' as <- <-.
  assert (Hst : named_status (rs_status resp) = true /\ len (rs_value resp) <= kMaxValueBytes).
  { destruct (request_op r) as [o|].
    - destruct Hc as (a & Hs & Hrep & _). pose proof (reply_named a) as Hn.
      apply (f_equal fst) in Hrep as E1. apply (f_equal snd) in Hrep as E2. cbn in E1, E2.
      rewrite E1, E2. split; [done|]. destruct a as [[v|]|[]|[]| |]; cbn; try (unfold kMaxValueBytes; done).
      pose proof (spec_op_ok_value sv o v _ Hg Hs). lia.
    - destruct Hc as (_ & -> & ->). split; [done|].
      destruct (rq_opcode r); rewrite ?len_serialize_stats, ?len_nil; unfold kMaxValueBytes; lia. }
  unfold request_ok in Hr. b2p. unfold response_ok. cbn [max_value_bytes].
  rewrite Ho, Hi, Z.min_id. destruct Hst as [-> Hlen].
  repeat (apply andb_true_iff; split); try done; by (apply Z.leb_le || apply Z.ltb_lt).
Qed.
End Contract.

(** ** Properties *)

(** C13: any sequence of requests is served without undefined behaviour, every
    response carries the opcode and the id of its request, and a GET answered
    [kOk] returns the value of the last PUT under that key which was answered
    [kOk] and not followed by a DELETE of the key or a CLEAR. *)
Theorem service_freshness {C} `{!CacheOps C, !CacheContract C} (sv : Service C) reqs r now :
  cache_good (sv_cache sv) -> Spec.contents (sv_abs sv) = [] ->
  Forall (fun r => request_addressable r.1) reqs -> request_addressable r ->
  exists resps sv1 resp sv2, serve sv reqs = Some (resps, sv1) /\
    handle_request sv1 r now = Some (resp, sv2) /\
    Forall2 (fun r p => rs_opcode p = rq_opcode r.1 /\ rs_request_id p = rq_request_id r.1) reqs resps /\
    (rq_opcode r = Opcode.kGet -> rs_status resp = Status.kOk ->
     stored reqs resps ∅ !! rq_key r = Some (rs_value resp)).
Proof.
  intros Hg He Ha Hr.
  destruct (serve_spec sv reqs ∅ Hg Ha) as (resps & sv1 & E & Hg1 & Hall & Hf); [by rewrite He; constructor|].
  destruct (handle_request_spec sv1 r now Hg1 Hr) as (resp & sv2 & E2 & _).
  destruct (handle_request_fresh sv1 r now resp sv2 _ Hg1 Hr E2 Hf) as [_ Hget].
  exists resps, sv1, resp, sv2. split_and!; done.
Qed.

Definition demo_service : Service LruCache :=
  mkService (new_cache (mkCacheLimits 3 4096 1024)) (new_stats 0).

Definition demo_session : list (Request * Z) :=
  [ (mkRequest Opcode.kPut 1 (lit "k") (lit "old"), 1); (mkRequest Opcode.kPut 2 (lit "k") (lit "new"), 2);
    (mkRequest Opcode.kGet 3 (lit "missing") [], 3); (mkRequest Opcode.kDelete 4 (lit "other") [], 4);
    (mkRequest Opcode.kStats 5 [] [], 5) ].

Lemma demo_good : cache_good (sv_cache demo_service).
Proof. split; [apply wf_new|]; unfold limits_ok; simpl; lia. Qed.

Lemma service_freshness_witness :
  let r := mkRequest Opcode.kGet 6 (lit "k") [] in
  exists resps sv1 resp sv2, serve demo_service demo_session = Some (resps, sv1) /\
    handle_request sv1 r 6 = Some (resp, sv2) /\
    Forall2 (fun r p => rs_opcode p = rq_opcode r.1 /\ rs_request_id p = rq_request_id r.1) demo_session resps /\
    (rq_opcode r = Opcode.kGet -> rs_status resp = Status.kOk ->
     stored demo_session resps ∅ !! rq_key r = Some (rs_value resp)).
Proof.
  apply (service_freshness demo_service demo_session (mkRequest Opcode.kGet 6 (lit "k") []) 6);
    [apply demo_good | reflexivity | repeat constructor | reflexivity].
Defined.

(** over any sequence of requests the counters of hits, misses, stores and
    deletes grow by the number of requests answered accordingly, modulo 2^64. *)
Theorem service_counters {C} `{!CacheOps C, !CacheContract C} (sv sv' : Service C) reqs resps :
  cache_good (sv_cache sv) -> stats_typed (sv_stats sv) ->
  Forall (fun r => request_addressable r.1) reqs -> serve sv reqs = Some (resps, sv') ->
  let s := sv_stats sv in let s' := sv_stats sv' in
  hits_ s' = u64 (hits_ s + answered Opcode.kGet Status.kOk reqs resps) /\
  misses_ s' = u64 (misses_ s + answered Opcode.kGet Status.kNotFound reqs resps) /\
  puts_ s' = u64 (puts_ s + answered Opcode.kPut Status.kOk reqs resps) /\
  deletes_ s' = u64 (deletes_ s + answered Opcode.kDelete Status.kOk reqs resps).
Proof.
  intros Hg Ht Ha. revert sv resps Hg Ht. induction Ha as [|[r now] reqs Hr _ IH]; intros sv resps Hg Ht.
  { intros [= <- <-]. destruct Ht. cbn. rewrite !Z.add_0_r, !u64_small by done. done. }
  cbn [serve]. destruct (handle_request_spec sv r now Hg Hr) as (resp & sv1 & E & Hg1 & _).
  rewrite E. cbn [mbind option_bind]. destruct (serve sv1 reqs) as [[resps1 sv2]|] eqn:E1; [|done].
  cbn [mbind option_bind]. intros [= <- <-]. cbn [answered].
  destruct (IH sv1 resps1 Hg1 (handle_request_typed sv r now resp sv1 Hg Hr E Ht) E1) as (-> & -> & -> & ->).
  destruct (handle_request_counts sv r now resp sv1 Hg Hr E) as (-> & -> & -> & ->).
  split_and!; destruct (_ && _); rewrite ?u64_add_l; f_equal; lia.
Qed.

Lemma demo_typed : stats_typed (sv_stats demo_service).
Proof. split; cbn; lia. Qed.

Lemma service_counters_witness :
  match serve demo_service demo_session with
  | Some (resps, sv') =>
      let s := sv_stats demo_service in let s' := sv_stats sv' in
      hits_ s' = u64 (hits_ s + answered Opcode.kGet Status.kOk demo_session resps) /\
      misses_ s' = u64 (misses_ s + answered Opcode.kGet Status.kNotFound demo_session resps) /\
      puts_ s' = u64 (puts_ s + answered Opcode.kPut Status.kOk demo_session resps) /\
      deletes_ s' = u64 (deletes_ s + answered Opcode.kDelete Status.kOk demo_session resps)
  | None => False
  end.
Proof.
  destruct (serve demo_service demo_session) as [[resps sv']|] eqn:E; [|vm_compute in E; discriminate].
  apply (service_counters demo_service sv' demo_session resps);
    [apply demo_good | apply demo_typed | repeat constructor | exact E].
Defined.

(** the framed response to a well-formed request is decoded by the client
    as it was sent, whatever follows it on the stream; and a STATS payload
    decodes to the live counters together with the figures of the cache. *)
Theorem service_reply_decodes {C} `{!CacheOps C, !CacheContract C} (sv sv' : Service C) limits r now resp rest out :
  cache_good (sv_cache sv) -> stats_typed (sv_stats sv) -> request_ok limits r = true ->
  cl_max_value_bytes (Spec.limits (sv_abs sv)) <= kMaxValueBytes ->
  cl_max_entries (Spec.limits (sv_abs sv)) < 2 ^ 64 -> cl_max_bytes (Spec.limits (sv_abs sv)) < 2 ^ 64 ->
  handle_request sv r now = Some (resp, sv') ->
  deserialize_response (serialize_response resp ++ rest) (mkLimits kMaxKeyBytes kMaxValueBytes) out
    = Some (complete (len (serialize_response resp)), resp) /\
  (rq_opcode r = Opcode.kStats -> exists snap,
     deserialize_stats (rs_value resp) default_stats = Some (true, snap) /\
     cache_hits snap = hits_ (sv_stats sv) /\ cache_misses snap = misses_ (sv_stats sv) /\
     current_entries snap = len (Spec.contents (sv_abs sv)) /\
     current_cache_bytes snap = Spec.total Spec.cost (Spec.contents (sv_abs sv)) /\
     evictions snap = Spec.evicted (sv_abs sv)).
Proof.
  intros Hg Ht Hr Hv Hen Hby E. split.
  { eapply deserialize_response_frame, handle_request_response_ok; eauto. }
  intros Ho. unfold handle_request in E. rewrite Ho in E. injection E as <- _. cbn [rs_value].
  pose proof (cache_snapshot_refines _ Hg) as Hs. destruct (cache_good_ok _ Hg) as [_ He Hb _ Hev].
  pose proof (len_nonneg (Spec.contents (cache_abs (sv_cache sv)))).
  pose proof (Spec.total_nonneg (Spec.contents (cache_abs (sv_cache sv)))).
  pose proof (Spec.total_payload_nonneg (Spec.contents (cache_abs (sv_cache sv)))).
  pose proof (Spec.total_payload_le (Spec.contents (cache_abs (sv_cache sv)))). unfold sv_abs in *.
  exists (stats_snapshot sv now). split.
  { apply stats_decoded. unfold stats_ok, kStatsFields, stats_snapshot. rewrite Hs. destruct Ht.
    repeat (apply Forall_cons_2; [cbn -[Z.pow u64]; first [lia | apply u64_range]|]). apply Forall_nil_2. }
  unfold stats_snapshot. rewrite Hs. split_and!; done.
Qed.

Lemma service_reply_decodes_witness :
  let r := mkRequest Opcode.kStats 5 [] [] in
  let resp := mkResponse Opcode.kStats Status.kOk 5 (serialize_stats (stats_snapshot demo_service 9)) in
  deserialize_response (serialize_response resp ++ lit "next") (mkLimits kMaxKeyBytes kMaxValueBytes) default_response
    = Some (complete (len (serialize_response resp)), resp) /\
  (rq_opcode r = Opcode.kStats -> exists snap,
     deserialize_stats (rs_value resp) default_stats = Some (true, snap) /\
     cache_hits snap = hits_ (sv_stats demo_service) /\ cache_misses snap = misses_ (sv_stats demo_service) /\
     current_entries snap = len (Spec.contents (sv_abs demo_service)) /\
     current_cache_bytes snap = Spec.total Spec.cost (Spec.contents (sv_abs demo_service)) /\
     evictions snap = Spec.evicted (sv_abs demo_service)).
Proof.
  apply (service_reply_decodes demo_service demo_service default_limits (mkRequest Opcode.kStats 5 [] []) 9);
    [apply demo_good | apply demo_typed | reflexivity | vm_compute; congruence
    | vm_compute; reflexivity | vm_compute; reflexivity | reflexivity].
Defined.
