(* ===== verification/Server.v ===== *)
(** * The server: connections, the event loop and the workers' side of a job

    Models include/cache/server.h and the event-loop part of src/server.cpp.
    A [shared_ptr<Connection>] is the id of a connection in [conns_], so the
    table of the event loop, the queued jobs and the ready list refer to the
    same object.  The handlers of the event loop run in a state monad; what
    the system calls return are their arguments.  A run of a handler, and a
    worker's handling of a job, are taken as one step each: the interleaving
    inside them is the subject of Connection.v and ThreadPool.v. *)

From S2P Require Import Prelude Protocol Stats Serializer CacheSpec SpecHistory LruCache Service.
From S2P Require Import Sys Connection ThreadPool Config.

Definition kBaseConnectionEvents : Z := EPOLLRDHUP.

Record Job := mkJob {
  job_connection : Z;
  job_request : Request;
}.

(** The calls on sockets, in order: what a [recv] delivered on a connection and
    what the [send]s of one flush took; the descriptors [accept4] returned; and
    what [stop_listening] does to the listening socket. *)
Inductive SocketCall :=
  | SockRecv (connection : Z) (data : bytes)
  | SockSend (connection : Z) (data : bytes)
  | SockAccept (connection fd : Z)                (* the connection owns the descriptor *)
  | SockTurnAway (fd : Z)                         (* accepted, and closed at once *)
  | SockListenDel                                 (* epoll_ctl(DEL) of the listening socket *)
  | SockListenClose
  | SockUnlink (path : bytes) (r : CallResult).

Definition delivered (r : RecvResult) : bytes := match r with Received data => data | RecvFailed _ => [] end.

Section Server.
Context {C : Type} `{!CacheOps C}.

Record Server := mkServer {
  config_ : ServerConfig;
  service_ : Service C;                (* [cache_] and [stats_] *)
  pool_ : WorkerPool Job;
  conns_ : gmap Z Connection;          (* the connection objects, by id *)
  connections_ : gmap Z Z;             (* descriptor to connection *)
  next_connection_id_ : Z;
  listening_ : bool;                   (* [listen_fd_] is valid *)
  bound_socket_path_ : bytes;
  ready_connections_ : list Z;
  completion_fd_ : Z;                  (* the counters of the two eventfds *)
  shutdown_fd_ : Z;
  running_ : bool;
  draining_ : bool;
  socket_calls_ : list SocketCall;     (* a log, which no handler reads *)
}.

Definition set_service (v : Service C) (s : Server) : Server :=
  mkServer (config_ s) v (pool_ s) (conns_ s) (connections_ s) (next_connection_id_ s)
    (listening_ s) (bound_socket_path_ s) (ready_connections_ s) (completion_fd_ s)
    (shutdown_fd_ s) (running_ s) (draining_ s) (socket_calls_ s).
Definition set_pool (v : WorkerPool Job) (s : Server) : Server :=
  mkServer (config_ s) (service_ s) v (conns_ s) (connections_ s) (next_connection_id_ s)
    (listening_ s) (bound_socket_path_ s) (ready_connections_ s) (completion_fd_ s)
    (shutdown_fd_ s) (running_ s) (draining_ s) (socket_calls_ s).
Definition set_conns (v : gmap Z Connection) (s : Server) : Server :=
  mkServer (config_ s) (service_ s) (pool_ s) v (connections_ s) (next_connection_id_ s)
    (listening_ s) (bound_socket_path_ s) (ready_connections_ s) (completion_fd_ s)
    (shutdown_fd_ s) (running_ s) (draining_ s) (socket_calls_ s).
Definition set_connections (v : gmap Z Z) (s : Server) : Server :=
  mkServer (config_ s) (service_ s) (pool_ s) (conns_ s) v (next_connection_id_ s)
    (listening_ s) (bound_socket_path_ s) (ready_connections_ s) (completion_fd_ s)
    (shutdown_fd_ s) (running_ s) (draining_ s) (socket_calls_ s).
Definition set_next_connection_id (v : Z) (s : Server) : Server :=
  mkServer (config_ s) (service_ s) (pool_ s) (conns_ s) (connections_ s) v (listening_ s)
    (bound_socket_path_ s) (ready_connections_ s) (completion_fd_ s) (shutdown_fd_ s)
    (running_ s) (draining_ s) (socket_calls_ s).
Definition set_listening (v : bool) (s : Server) : Server :=
  mkServer (config_ s) (service_ s) (pool_ s) (conns_ s) (connections_ s)
    (next_connection_id_ s) v (bound_socket_path_ s) (ready_connections_ s) (completion_fd_ s)
    (shutdown_fd_ s) (running_ s) (draining_ s) (socket_calls_ s).
Definition set_bound_socket_path (v : bytes) (s : Server) : Server :=
  mkServer (config_ s) (service_ s) (pool_ s) (conns_ s) (connections_ s)
    (next_connection_id_ s) (listening_ s) v (ready_connections_ s) (completion_fd_ s)
    (shutdown_fd_ s) (running_ s) (draining_ s) (socket_calls_ s).
Definition set_ready_connections (v : list Z) (s : Server) : Server :=
  mkServer (config_ s) (service_ s) (pool_ s) (conns_ s) (connections_ s)
    (next_connection_id_ s) (listening_ s) (bound_socket_path_ s) v (completion_fd_ s)
    (shutdown_fd_ s) (running_ s) (draining_ s) (socket_calls_ s).
Definition set_completion_fd (v : Z) (s : Server) : Server :=
  mkServer (config_ s) (service_ s) (pool_ s) (conns_ s) (connections_ s)
    (next_connection_id_ s) (listening_ s) (bound_socket_path_ s) (ready_connections_ s) v
    (shutdown_fd_ s) (running_ s) (draining_ s) (socket_calls_ s).
Definition set_shutdown_fd (v : Z) (s : Server) : Server :=
  mkServer (config_ s) (service_ s) (pool_ s) (conns_ s) (connections_ s)
    (next_connection_id_ s) (listening_ s) (bound_socket_path_ s) (ready_connections_ s)
    (completion_fd_ s) v (running_ s) (draining_ s) (socket_calls_ s).
Definition set_running (v : bool) (s : Server) : Server :=
  mkServer (config_ s) (service_ s) (pool_ s) (conns_ s) (connections_ s)
    (next_connection_id_ s) (listening_ s) (bound_socket_path_ s) (ready_connections_ s)
    (completion_fd_ s) (shutdown_fd_ s) v (draining_ s) (socket_calls_ s).
Definition set_draining (v : bool) (s : Server) : Server :=
  mkServer (config_ s) (service_ s) (pool_ s) (conns_ s) (connections_ s)
    (next_connection_id_ s) (listening_ s) (bound_socket_path_ s) (ready_connections_ s)
    (completion_fd_ s) (shutdown_fd_ s) (running_ s) v (socket_calls_ s).
Definition set_socket_calls (v : list SocketCall) (s : Server) : Server :=
  mkServer (config_ s) (service_ s) (pool_ s) (conns_ s) (connections_ s)
    (next_connection_id_ s) (listening_ s) (bound_socket_path_ s) (ready_connections_ s)
    (completion_fd_ s) (shutdown_fd_ s) (running_ s) (draining_ s) v.

(** ** The monad of the handlers

    [None] is undefined behaviour, or a system call without an answer. *)

Definition M (A : Type) : Type := Server -> option (A * Server).

#[export] Instance M_ret : MRet M := fun A x s => Some (x, s).
#[export] Instance M_bind : MBind M := fun A B f m s =>
  match m s with Some (x, s) => f x s | None => None end.

Definition lift {A} (x : option A) : M A := fun s => match x with Some x => Some (x, s) | None => None end.
Definition get_state : M Server := fun s => Some (s, s).
Definition modify (f : Server -> Server) : M unit := fun s => Some (tt, f s).

Definition get_conn (id : Z) : M Connection := fun s =>
  match conns_ s !! id with Some c => Some (c, s) | None => None end.
Definition put_conn (id : Z) (c : Connection) : M unit :=
  modify (fun s => set_conns (<[id := c]> (conns_ s)) s).

Definition on_stats (f : ServerStats -> ServerStats) : M unit :=
  modify (fun s => set_service (mkService (sv_cache (service_ s)) (f (sv_stats (service_ s)))) s).

(** The log of the calls on the sockets of clients. *)
Definition called (k : SocketCall) : M unit :=
  modify (fun s => set_socket_calls (socket_calls_ s ++ [k]) s).

(** ** Closing and interest *)

Definition close_connection (id : Z) : M unit :=
  c ← get_conn id;
  if closed_ c then mret tt else
  _ ← put_conn id (mark_closed c);
  _ ← modify (fun s => set_connections (delete (fd_ c) (connections_ s)) s);
  on_stats connection_closed.

(** The events a connection should be registered for. *)
Definition wanted_events (draining : bool) (c : Connection) : Z :=
  let events := kBaseConnectionEvents in
  let events := if negb draining && negb (read_paused c) && negb (close_after_flush_ c)
                then Z.lor events EPOLLIN else events in
  if has_pending_output c then Z.lor events EPOLLOUT else events.

(** [ctl]: whether [epoll_ctl(MOD)] succeeds. *)
Definition update_interest (id : Z) (ctl : bool) : M unit :=
  c ← get_conn id;
  s ← get_state;
  let events := wanted_events (draining_ s) c in
  if events =? registered_events_ c then mret tt else
  if ctl then put_conn id (set_registered_events events c) else close_connection id.

(** ** Input *)

Definition enqueue (id : Z) (frame : bytes) (completes : bool) : M bool :=
  c ← get_conn id;
  let '(ok, c) := enqueue_response c frame completes in
  _ ← put_conn id c;
  mret ok.

Definition send_immediate (id : Z) (opcode : Opcode.t) (request_id : Z) (status : Status.t) : M unit :=
  let frame := serialize_response (mkResponse opcode status request_id []) in
  ok ← enqueue id frame false;
  if ok : bool then mret tt else close_connection id.

Definition submit (job : Job) : M bool := fun s =>
  let '(ok, p) := try_submit (pool_ s) job in Some (ok, set_pool p s).

(** The status reported for a malformed frame. *)
Definition malformed_status (error : ParseError.t) : Status.t :=
  match error with
  | ParseError.kValueTooLarge => Status.kValueTooLarge
  | ParseError.kUnsupportedVersion => Status.kUnsupportedVersion
  | _ => Status.kInvalidRequest
  end.

(** The loop of [process_input]; [fuel] bounds its turns. *)
Fixpoint process_loop (fuel : nat) (id : Z) : M bool :=
  match fuel with
  | O => lift None
  | S fuel =>
      c ← get_conn id;
      if inflight_limit_reached c then mret true else
      '(result, request, c) ← lift (next_request c default_request);
      _ ← put_conn id c;
      match pr_status result with
      | ParseStatus.kNeedMoreData => mret true
      | ParseStatus.kMalformed =>
          _ ← on_stats record_protocol_error;
          identified ← lift (peek_request_header c);
          _ ← match identified with
              | Some (request_id, opcode) =>
                  send_immediate id opcode request_id (malformed_status (pr_error result))
              | None => mret tt
              end;
          c ← get_conn id;
          _ ← put_conn id (mark_close_after_flush c);
          mret true
      | ParseStatus.kComplete =>
          _ ← on_stats record_request;
          _ ← put_conn id (note_request_submitted c);
          accepted ← submit (mkJob id request);
          if accepted : bool then process_loop fuel id else
          _ ← on_stats record_rejected;
          let frame := serialize_response
            (mkResponse (rq_opcode request) Status.kServerBusy (rq_request_id request) []) in
          ok ← enqueue id frame true;
          if ok : bool then process_loop fuel id else
          _ ← close_connection id;
          mret false
      end
  end.

(** Every turn but the last consumes a header at least. *)
Definition process_input (id : Z) : M bool :=
  c ← get_conn id;
  process_loop (S (length (in_buf_ c))) id.

Definition flush (id : Z) (sends : list (Z -> SendResult)) : M IoResult.t :=
  c ← get_conn id;
  '(result, c, wire) ← lift (flush_output sends c);
  _ ← put_conn id c;
  _ ← called (SockSend id wire);
  mret result.

(** What the system calls of one connection event return. *)
Record EventIo := mkEventIo {
  io_writable : list (Z -> SendResult);  (* the flush for EPOLLOUT *)
  io_recv : RecvResult;
  io_flush : list (Z -> SendResult);     (* the flush after the input *)
  io_ctl : bool;
}.

(** The end of a connection event, and of each turn of [drain_completions]. *)
Definition flush_and_update (id : Z) (sends : list (Z -> SendResult)) (ctl : bool) : M unit :=
  result ← flush id sends;
  if bool_decide (result = IoResult.kError) then close_connection id else
  c ← get_conn id;
  if close_after_flush_ c && negb (has_pending_output c) then close_connection id
  else update_interest id ctl.

Definition handle_connection_event (id events : Z) (io : EventIo) : M unit :=
  s ← get_state;
  if has_event events (Z.lor EPOLLERR EPOLLHUP) then close_connection id else
  if draining_ s && has_event events EPOLLRDHUP then close_connection id else
  early ← (if has_event events EPOLLOUT then
             result ← flush id (io_writable io);
             if bool_decide (result = IoResult.kError)
             then _ ← close_connection id; mret true else mret false
           else mret false);
  if early : bool then mret tt else
  returned ← (if negb (draining_ s) && has_event events (Z.lor EPOLLIN EPOLLRDHUP) then
                c ← get_conn id;
                let '(result, c) := read_some c (io_recv io) in
                _ ← put_conn id c;
                _ ← called (SockRecv id (delivered (io_recv io)));
                match result with
                | IoResult.kClosed | IoResult.kError => _ ← close_connection id; mret true
                | IoResult.kOk => alive ← process_input id; mret (negb alive)
                | IoResult.kWouldBlock => mret false
                end
              else mret false);
  if returned : bool then mret tt else
  flush_and_update id (io_flush io) (io_ctl io).

(** ** The workers' side *)

Definition complete_job (id : Z) (frame : bytes) : M unit :=
  healthy ← enqueue id frame true;
  _ ← (if healthy : bool then mret tt
       else c ← get_conn id; put_conn id (mark_close_after_flush c));
  c ← get_conn id;
  let '(first, c) := try_mark_notified c in
  _ ← put_conn id c;
  if first : bool then
    modify (fun s => set_completion_fd (eventfd_add (completion_fd_ s))
                       (set_ready_connections (ready_connections_ s ++ [id]) s))
  else mret tt.

Definition handle_job (job : Job) (now : Z) : M unit :=
  s ← get_state;
  '(response, sv) ← lift (handle_request (service_ s) (job_request job) now);
  _ ← modify (set_service sv);
  complete_job (job_connection job) (serialize_response_into response []).

(** A worker in [worker_loop]: its critical section, its wake-up (a
    notification or a spurious one), and the handler with what follows it. *)
Definition worker_take (i : nat) : M unit := fun s =>
  match threads_ (pool_ s) !! i with
  | Some WCheck =>
      let '(pc, _, p) := worker_section (pool_ s) in
      Some (tt, set_pool (set_threads (<[i := pc]> (threads_ p)) p) s)
  | _ => None
  end.

(** [wait] returns, notified or spuriously: whether the notifications suffice
    is a matter of the pool (ThreadPool.v) and of the teardown (Run.v). *)
Definition worker_wake (i : nat) : M unit := fun s =>
  match threads_ (pool_ s) !! i with
  | Some WWait => Some (tt, set_pool (set_threads (<[i := WCheck]> (threads_ (pool_ s))) (pool_ s)) s)
  | _ => None
  end.

Definition worker_run (i : nat) (now : Z) : M unit :=
  s ← get_state;
  match threads_ (pool_ s) !! i with
  | Some (WRun job) =>
      _ ← handle_job job now;
      modify (fun s => set_pool (job_done (set_threads (<[i := WCheck]> (threads_ (pool_ s))) (pool_ s))) s)
  | _ => lift None
  end.

(** ** Completions *)

(** One turn of the loop of [drain_completions]. *)
Definition complete_one (id : Z) (sends : list (Z -> SendResult)) (ctl : bool) : M unit :=
  c ← get_conn id;
  _ ← put_conn id (clear_notified c);
  if closed_ c then mret tt else flush_and_update id sends ctl.

Fixpoint complete_all (ready : list Z) (io : list (list (Z -> SendResult) * bool)) : M unit :=
  match ready, io with
  | [], _ => mret tt
  | id :: ready, (sends, ctl) :: io => _ ← complete_one id sends ctl; complete_all ready io
  | _ :: _, [] => lift None
  end.

Definition drain_completions (io : list (list (Z -> SendResult) * bool)) : M unit :=
  _ ← modify (set_completion_fd 0);
  s ← get_state;
  _ ← modify (set_ready_connections []);
  complete_all (ready_connections_ s) io.

(** ** Accepting *)

Definition connection_limits (c : ServerConfig) : ConnectionLimits :=
  mkConnectionLimits (mkLimits (u32 (cfg_max_key_bytes c)) (u32 (cfg_max_value_bytes c)))
    (max_conn_output_bytes c) (max_inflight_per_conn c).

(** A descriptor was accepted; [ctl]: whether [epoll_ctl(ADD)] succeeds.  The
    object of a connection that is not registered dies at once. *)
Definition accept_one (fd : Z) (ctl : bool) : M unit :=
  s ← get_state;
  if max_connections (config_ s) <=? Z.of_nat (base.size (connections_ s))
  then _ ← called (SockTurnAway fd); on_stats record_rejected else
  let id := next_connection_id_ s in
  let conn := new_connection fd id (connection_limits (config_ s)) in
  _ ← modify (set_next_connection_id (u64 (id + 1)));
  if ctl then
    let conn := set_registered_events (Z.lor EPOLLIN kBaseConnectionEvents) conn in
    _ ← put_conn id conn;
    _ ← called (SockAccept id fd);
    _ ← modify (fun s => match connections_ s !! fd with
                         | Some _ => s  (* emplace keeps an existing entry *)
                         | None => set_connections (<[fd := id]> (connections_ s)) s
                         end);
    on_stats connection_opened
  else called (SockTurnAway fd).

Fixpoint handle_listen_ready (accepts : list (AcceptResult * bool)) : M unit :=
  match accepts with
  | [] => lift None
  | (Accepted fd, ctl) :: accepts => _ ← accept_one fd ctl; handle_listen_ready accepts
  | (AcceptFailed errno, _) :: accepts =>
      if (errno =? EAGAIN) || (errno =? EWOULDBLOCK) then mret tt
      else if (errno =? EINTR) || (errno =? ECONNABORTED) then handle_listen_ready accepts
      else mret tt
  end.

(** ** Shutdown *)

(** [unlink]: what the call returns; a failure is only reported in the log file. *)
Definition stop_listening (unlink : CallResult) : M unit :=
  s ← get_state;
  _ ← (if listening_ s then
         _ ← called SockListenDel;
         _ ← called SockListenClose;
         modify (set_listening false)
       else mret tt);
  if bool_decide (bound_socket_path_ s = []) then mret tt else
  _ ← called (SockUnlink (bound_socket_path_ s) unlink);
  modify (set_bound_socket_path []).

Definition request_shutdown : M unit :=
  modify (fun s => set_shutdown_fd (eventfd_add (shutdown_fd_ s)) s).

Definition drain_complete (s : Server) : bool :=
  if 0 <? pending (pool_ s) then false else
  forallb (fun '(_, id) =>
    match conns_ s !! id with
    | Some c => negb ((0 <? inflight_ c) || has_pending_output c)
    | None => true
    end) (map_to_list (connections_ s)).

Fixpoint update_all (ids : list Z) (ctl : Z -> bool) : M unit :=
  match ids with
  | [] => mret tt
  | id :: ids => _ ← update_interest id (ctl id); update_all ids ctl
  end.

(** The branch of [run] for the shutdown eventfd. *)
Definition handle_shutdown (ctl : Z -> bool) (unlink : CallResult) : M unit :=
  _ ← modify (set_shutdown_fd 0);
  s ← get_state;
  if draining_ s then mret tt else
  _ ← modify (set_draining true);
  _ ← stop_listening unlink;
  s ← get_state;
  update_all ((map_to_list (connections_ s)).*2) ctl.

(** ** The event loop *)

Inductive Event :=
  | EvListen (accepts : list (AcceptResult * bool))
  | EvCompletion (io : list (list (Z -> SendResult) * bool))
  | EvShutdown (ctl : Z -> bool) (unlink : CallResult)
  | EvSignal
  | EvConnection (fd events : Z) (io : EventIo).

(** The body of the loop over the events of one [epoll_wait]. *)
Definition dispatch (ev : Event) : M unit :=
  s ← get_state;
  match ev with
  | EvListen accepts => if listening_ s then handle_listen_ready accepts else mret tt
  | EvCompletion io => drain_completions io
  | EvShutdown ctl unlink => handle_shutdown ctl unlink
  | EvSignal => request_shutdown
  | EvConnection fd events io =>
      match connections_ s !! fd with
      | Some id => handle_connection_event id events io
      | None => mret tt
      end
  end.
End Server.
