(* ===== verification/Streams.v ===== *)
(** * What a connection receives and sends

    The events of a connection between its input stream and its output stream,
    and the relation between two states of the server that says that the bytes
    received, the requests taken from them, the jobs submitted, the responses
    staged and the bytes sent agree. *)

From S2P Require Import Prelude Protocol Stats Serializer CacheSpec SpecHistory LruCache Service.
From S2P Require Import Sys Connection ThreadPool Config Server.

Inductive StreamEvent :=
  | SAccept (r : Request)      (* a request was taken and submitted *)
  | SShed (r : Request)        (* a request was taken and answered [kServerBusy] *)
  | SReject (resp : Response)  (* a malformed frame was answered *)
  | SAnswer (resp : Response)  (* a worker staged the response to a job *)
  | SDrop (resp : Response).   (* ... or dropped it: the connection was closed *)

Definition busy (r : Request) : Response :=
  mkResponse (rq_opcode r) Status.kServerBusy (rq_request_id r) [].

Definition ev_taken (tr : list StreamEvent) : list Request :=
  omap (fun ev => match ev with SAccept r | SShed r => Some r | _ => None end) tr.
Definition ev_accepted (tr : list StreamEvent) : list Request :=
  omap (fun ev => match ev with SAccept r => Some r | _ => None end) tr.
Definition ev_shed (tr : list StreamEvent) : list Request :=
  omap (fun ev => match ev with SShed r => Some r | _ => None end) tr.
Definition ev_rejects (tr : list StreamEvent) : list Response :=
  omap (fun ev => match ev with SReject resp => Some resp | _ => None end) tr.
Definition ev_answered (tr : list StreamEvent) : list Response :=
  omap (fun ev => match ev with SAnswer resp | SDrop resp => Some resp | _ => None end) tr.
Definition ev_dropped (tr : list StreamEvent) : list Response :=
  omap (fun ev => match ev with SDrop resp => Some resp | _ => None end) tr.
(** The responses staged, in order. *)
Definition ev_replies (tr : list StreamEvent) : list Response :=
  omap (fun ev => match ev with
                  | SShed r => Some (busy r)
                  | SReject resp | SAnswer resp => Some resp
                  | _ => None
                  end) tr.

Definition reply_stream (rs : list Response) : bytes := concat (map serialize_response rs).

(** The projections of the log and of the jobs to a connection. *)
Definition received_on (id : Z) (l : list SocketCall) : bytes :=
  concat (map (fun k => match k with SockRecv i d => if decide (i = id) then d else [] | _ => [] end) l).
Definition sent_on (id : Z) (l : list SocketCall) : bytes :=
  concat (map (fun k => match k with SockSend i d => if decide (i = id) then d else [] | _ => [] end) l).
Definition requests_on (id : Z) (jobs : list Job) : list Request :=
  job_request <$> filter (fun j => job_connection j = id) jobs.

Definition unread_at (o : option Connection) : bytes := from_option unread [] o.
Definition backlog_at (o : option Connection) : bytes := from_option backlog [] o.
Definition closed_at (o : option Connection) : bool := from_option closed_ false o.

(** The descriptors of the connection objects: from [m] to [m'] the calls add
    those of the connections accepted, which are new. *)
Fixpoint opens (l : list SocketCall) (m m' : gmap Z Z) : Prop :=
  match l with
  | [] => m' = m
  | SockAccept id fd :: l => m !! id = None /\ opens l (<[id := fd]> m) m'
  | _ :: l => opens l m m'
  end.

(** The answer to a malformed frame at the head of the input. *)
Definition refuses (limits : Limits) (input : bytes) (resp : Response) : Prop :=
  kHeaderSize <= len input /\ is_valid_opcode (field 5 1 input) = true /\
  exists res out, deserialize_request input limits default_request = Some (res, out) /\
    pr_status res = ParseStatus.kMalformed /\
    resp = mkResponse (Opcode.of_raw (field 5 1 input)) (malformed_status (pr_error res)) (field 8 8 input) [].

(** From [o] to [o'] the connection went through the events [tr]. *)
Record stream_step (limits : Limits) (id : Z) (o o' : option Connection) (l : list SocketCall) (jobs : list Job)
    (answers : list Response) (tr : list StreamEvent) : Prop := mkStreamStep {
  ss_in : unread_at o ++ received_on id l = encoded (ev_taken tr) ++ unread_at o';
  ss_ok : Forall (fun r => request_ok limits r = true) (ev_taken tr);
  ss_out : backlog_at o ++ reply_stream (ev_replies tr) = sent_on id l ++ backlog_at o';
  ss_jobs : ev_accepted tr = requests_on id jobs;
  ss_answers : ev_answered tr = answers;
  ss_rejects : Forall (refuses limits (unread_at o')) (ev_rejects tr);
  ss_closed : closed_at o = true -> closed_at o' = true;
  ss_dropped : closed_at o' = false -> ev_dropped tr = [];
}.

(** ** Lemmas *)

Lemma encoded_app a b : encoded (a ++ b) = encoded a ++ encoded b.
Proof. unfold encoded. by rewrite map_app, concat_app. Qed.
Lemma reply_stream_app a b : reply_stream (a ++ b) = reply_stream a ++ reply_stream b.
Proof. unfold reply_stream. by rewrite map_app, concat_app. Qed.
Lemma encoded_one r : encoded [r] = serialize_request r.
Proof. apply app_nil_r. Qed.
Lemma reply_stream_one resp : reply_stream [resp] = serialize_response resp.
Proof. apply app_nil_r. Qed.
Lemma received_on_app id a b : received_on id (a ++ b) = received_on id a ++ received_on id b.
Proof. unfold received_on. by rewrite map_app, concat_app. Qed.
Lemma sent_bytes_app id a b : sent_on id (a ++ b) = sent_on id a ++ sent_on id b.
Proof. unfold sent_on. by rewrite map_app, concat_app. Qed.
Lemma opens_app a b m1 m2 m3 : opens a m1 m2 -> opens b m2 m3 -> opens (a ++ b) m1 m3.
Proof.
  revert m1. induction a as [|k a IH]; intros m1; cbn [opens app]; [by intros -> |].
  destruct k; try apply IH. intros [Hn Ha] Hb. auto.
Qed.
Lemma requests_on_app id a b : requests_on id (a ++ b) = requests_on id a ++ requests_on id b.
Proof. unfold requests_on. by rewrite filter_app, fmap_app. Qed.
Lemma requests_on_one id id' r : requests_on id [mkJob id' r] = if decide (id' = id) then [r] else [].
Proof. unfold requests_on. rewrite filter_cons. cbn [job_connection]. by case_decide. Qed.

Lemma stream_step_refl limits id o : stream_step limits id o o [] [] [] [].
Proof. split; try done; [by rewrite app_nil_r | by rewrite app_nil_r]. Qed.

(** Nothing but fields outside the streams has changed. *)
Lemma stream_step_same limits id o o' : unread_at o' = unread_at o -> backlog_at o' = backlog_at o ->
  (closed_at o = true -> closed_at o' = true) -> stream_step limits id o o' [] [] [] [].
Proof. intros Hu Hb Hc. split; try done; [by rewrite Hu, app_nil_r | by rewrite Hb, app_nil_r]. Qed.

(** Calls that move no data. *)
Lemma stream_step_quiet limits id o o' l : (received_on id l = [] /\ sent_on id l = []) ->
  stream_step limits id o o' [] [] [] [] -> stream_step limits id o o' l [] [] [].
Proof. intros [Hr Hs] [I K O J A R Cl D]. split; rewrite ?Hr, ?Hs; done. Qed.

(** More input does not change the verdict. *)
Lemma refuses_app limits input more resp : refuses limits input resp -> refuses limits (input ++ more) resp.
Proof.
  intros (Hl & Hop & res & out & E & Hs & ->). pose proof (len_nonneg more). unfold refuses. rewrite len_app.
  unfold kHeaderSize in *. rewrite !field_app by (unfold len in Hl; lia). split_and!; [lia | done|].
  exists res, out. split; [|done].
  apply deserialize_request_final; [done | by rewrite Hs].
Qed.

(** No request is taken from behind a malformed frame. *)
Lemma refuses_step limits input more rs rest resp : refuses limits input resp ->
  input ++ more = encoded rs ++ rest -> Forall (fun r => request_ok limits r = true) rs -> refuses limits rest resp.
Proof.
  intros Hr E Hok. destruct Hok as [|r rs Hok _]; [cbn in E; rewrite <- E; by apply refuses_app|].
  exfalso. apply (refuses_app _ _ more) in Hr. destruct Hr as (_ & _ & res & out & Ed & Hs & _).
  change (encoded (r :: rs)) with (serialize_request r ++ encoded rs) in E.
  rewrite E, <- app_assoc, deserialize_request_frame in Ed by done. by injection Ed as <- _.
Qed.

Lemma stream_step_trans limits id o1 o2 o3 l1 l2 jobs1 jobs2 as1 as2 tr1 tr2 :
  stream_step limits id o1 o2 l1 jobs1 as1 tr1 -> stream_step limits id o2 o3 l2 jobs2 as2 tr2 ->
  stream_step limits id o1 o3 (l1 ++ l2) (jobs1 ++ jobs2) (as1 ++ as2) (tr1 ++ tr2).
Proof.
  intros [I1 K1 O1 J1 A1 R1 C1 D1] [I2 K2 O2 J2 A2 R2 C2 D2].
  assert (Happ : forall {B} (f : StreamEvent -> option B), omap f (tr1 ++ tr2) = omap f tr1 ++ omap f tr2) by (intros; apply omap_app).
  split; unfold ev_taken, ev_accepted, ev_answered, ev_dropped, ev_rejects, ev_replies in *; rewrite ?Happ.
  - by rewrite received_on_app, encoded_app, app_assoc, I1, <- app_assoc, I2, app_assoc.
  - by apply Forall_app.
  - by rewrite reply_stream_app, sent_bytes_app, app_assoc, O1, <- app_assoc, O2, app_assoc.
  - by rewrite J1, J2, requests_on_app.
  - by rewrite A1, A2.
  - apply Forall_app. split; [|done]. eapply Forall_impl; [exact R1|]. intros resp Hr. by eapply refuses_step.
  - auto.
  - intros H3. rewrite D2 by done. rewrite D1; [done|]. destruct (closed_at o2); [by rewrite C2 in H3 | done].
Qed.

Lemma enqueue_backlog c frame completes :
  backlog (enqueue_response c frame completes).2 = if closed_ c then backlog c else backlog c ++ frame.
Proof.
  unfold enqueue_response. destruct (closed_ c) eqn:E; [by destruct completes|].
  pose proof (proj1 (proj2 (stage_spec c frame))) as Hb. destruct (stage c frame) as [over c'] eqn:Es. cbn [snd] in *.
  by destruct completes.
Qed.

Section Advances.
Context {C : Type} `{!CacheOps C}.
Abbreviation server := (@Server C) (only parsing).

(** Connection objects do not go away while the server runs. *)
Definition extends (s s' : server) : Prop :=
  forall id, is_Some (conns_ s !! id) -> is_Some (conns_ s' !! id).

Lemma extends_refl s : extends s s.
Proof. by intros ?. Qed.
Lemma extends_trans s1 s2 s3 : extends s1 s2 -> extends s2 s3 -> extends s1 s3.
Proof. intros H1 H2 id Hi. auto. Qed.
Lemma extends_put s id c : extends s (set_conns (<[id := c]> (conns_ s)) s).
Proof.
  intros i [x Hx]. cbn. destruct (decide (i = id)) as [->|Hne];
    [rewrite lookup_insert_eq | rewrite lookup_insert_ne by done]; by eexists.
Qed.

Definition request_limits (s : server) : Limits := protocol_limits (connection_limits (config_ s)).

(** What the event loop does from [s] to [s'] agrees on every connection. *)
Record advances (s s' : server) : Prop := mkAdvances {
  ad_extends : extends s s';
  ad_config : config_ s' = config_ s;
  ad_streams : exists l jobs, socket_calls_ s' = socket_calls_ s ++ l /\ queue_ (pool_ s') = queue_ (pool_ s) ++ jobs /\
    opens l (fd_ <$> conns_ s) (fd_ <$> conns_ s') /\
    forall id, exists tr, stream_step (request_limits s) id (conns_ s !! id) (conns_ s' !! id) l jobs [] tr;
}.

(** Nothing the streams depend on. *)
Definition same_streams (s s' : server) : Prop :=
  config_ s' = config_ s /\ conns_ s' = conns_ s /\ socket_calls_ s' = socket_calls_ s /\ queue_ (pool_ s') = queue_ (pool_ s).

Lemma advances_same s s' : same_streams s s' -> advances s s'.
Proof.
  intros (Ec & En & El & Eq). split; [intros id; by rewrite En | done|]. exists [], []. rewrite El, Eq, !app_nil_r, En.
  split_and!; try done. intros id. exists []. apply stream_step_refl.
Qed.

Lemma advances_refl s : advances s s.
Proof. by apply advances_same. Qed.

Lemma advances_trans s1 s2 s3 : advances s1 s2 -> advances s2 s3 -> advances s1 s3.
Proof.
  intros [E1 C1 (l1 & j1 & L1 & Q1 & F1 & S1)] [E2 C2 (l2 & j2 & L2 & Q2 & F2 & S2)].
  split; [by eapply extends_trans | congruence|]. exists (l1 ++ l2), (j1 ++ j2). rewrite L2, L1, Q2, Q1, !app_assoc.
  split_and!; [done | done | by eapply opens_app|]. intros id. destruct (S1 id) as [tr1 T1], (S2 id) as [tr2 T2]. exists (tr1 ++ tr2).
  unfold request_limits in T2. rewrite C1 in T2. eapply (stream_step_trans _ _ _ _ _ _ _ _ _ [] []); [exact T1 | exact T2].
Qed.

#[export] Instance advances_preorder : PreOrder advances.
Proof. split; [exact advances_refl | exact advances_trans]. Qed.

(** Calls on no connection. *)
Lemma advances_calls s s' l : config_ s' = config_ s -> conns_ s' = conns_ s -> queue_ (pool_ s') = queue_ (pool_ s) ->
  socket_calls_ s' = socket_calls_ s ++ l -> (forall m, opens l m m) ->
  (forall id, received_on id l = [] /\ sent_on id l = []) -> advances s s'.
Proof.
  intros Ec En Eq El Hop Hl. split; [intros id; by rewrite En | done|]. exists l, []. rewrite En, app_nil_r.
  split_and!; try done. intros id. exists []. apply stream_step_quiet; [done | apply stream_step_refl].
Qed.

(** A step on one connection. *)
Lemma advances_on s s' id c c' l jobs tr : conns_ s !! id = Some c -> conns_ s' = <[id := c']> (conns_ s) ->
  config_ s' = config_ s -> socket_calls_ s' = socket_calls_ s ++ l -> queue_ (pool_ s') = queue_ (pool_ s) ++ jobs ->
  fd_ c' = fd_ c -> (forall m, opens l m m) ->
  (forall i, i <> id -> received_on i l = [] /\ sent_on i l = [] /\ requests_on i jobs = []) ->
  stream_step (request_limits s) id (Some c) (Some c') l jobs [] tr -> advances s s'.
Proof.
  intros Hc En Ec El Eq Hfd Hop Hother Hs. split; [intros i; rewrite En; apply (extends_put s id c') | done|].
  exists l, jobs. split_and!; [done.. | |].
  { rewrite En, fmap_insert, Hfd, insert_id; [apply Hop | by rewrite lookup_fmap, Hc]. }
  intros i. rewrite En. destruct (decide (i = id)) as [->|Hne].
  - exists tr. by rewrite lookup_insert_eq, Hc.
  - rewrite lookup_insert_ne by done. destruct (Hother i Hne) as (Hr & Hs' & Hj). exists [].
    split; rewrite ?Hr, ?Hs', ?Hj, ?app_nil_r; done.
Qed.

(** A change of a connection outside the streams. *)
Lemma advances_put s s' id c c' : conns_ s !! id = Some c ->
  same_streams (set_conns (<[id := c']> (conns_ s)) s) s' -> fd_ c' = fd_ c -> unread c' = unread c ->
  backlog c' = backlog c -> (closed_ c = true -> closed_ c' = true) -> advances s s'.
Proof.
  intros Hc (Ec & En & El & Eq) Hfd Hu Hb Hcl. cbn in *.
  apply (advances_on s s' id c c' [] [] []); try done; [by rewrite app_nil_r | by rewrite app_nil_r|].
  by apply stream_step_same.
Qed.

(** A new connection. *)
Lemma advances_new s s' id c' : conns_ s !! id = None ->
  config_ s' = config_ s -> conns_ s' = <[id := c']> (conns_ s) -> queue_ (pool_ s') = queue_ (pool_ s) ->
  socket_calls_ s' = socket_calls_ s ++ [SockAccept id (fd_ c')] -> unread c' = [] -> backlog c' = [] -> advances s s'.
Proof.
  intros Hc Ec En Eq El Hu Hb. split; [intros i; rewrite En; apply (extends_put s id c') | done|].
  exists [SockAccept id (fd_ c')], []. rewrite !app_nil_r, En. split_and!; [done..| |].
  { cbn. rewrite lookup_fmap, Hc, fmap_insert. done. }
  intros i. exists []. destruct (decide (i = id)) as [->|Hne].
  - rewrite lookup_insert_eq, Hc. apply stream_step_quiet; [done|]. by apply stream_step_same.
  - rewrite lookup_insert_ne by done. apply stream_step_quiet; [done|]. apply stream_step_refl.
Qed.
(** The answer to a malformed frame is staged. *)
Lemma advances_rejected (s s' : server) id c c' resp : conns_ s !! id = Some c -> closed_ c = false ->
  same_streams (set_conns (<[id := c']> (conns_ s)) s) s' -> fd_ c' = fd_ c -> unread c' = unread c ->
  backlog c' = backlog c ++ serialize_response resp -> refuses (request_limits s) (unread c) resp -> advances s s'.
Proof.
  intros Hc Hcl (Ec & En & El & Eq) Hfd Hu Hb Hr. cbn in En, El, Eq, Ec.
  eapply (advances_on s s' id c c' [] [] [SReject resp]); try done; [by rewrite app_nil_r | by rewrite app_nil_r|].
  split; try done; cbn [unread_at backlog_at closed_at from_option]; [by rewrite Hu, app_nil_r | | | by rewrite Hcl].
  - change (ev_replies [SReject resp]) with [resp]. by rewrite reply_stream_one, Hb.
  - apply Forall_singleton. by rewrite Hu.
Qed.

(** A request leaves the input buffer and is submitted, or answered at once. *)
Lemma advances_accept (s s' : server) id c c' r : conns_ s !! id = Some c -> conns_ s' = <[id := c']> (conns_ s) ->
  config_ s' = config_ s -> socket_calls_ s' = socket_calls_ s -> queue_ (pool_ s') = queue_ (pool_ s) ++ [mkJob id r] ->
  fd_ c' = fd_ c -> request_ok (request_limits s) r = true -> unread c = serialize_request r ++ unread c' -> backlog c' = backlog c ->
  (closed_ c = true -> closed_ c' = true) -> advances s s'.
Proof.
  intros Hc En Ec El Eq Hfd Hr Hu Hb Hcl. eapply (advances_on s s' id c c' [] [mkJob id r] [SAccept r]); try done; [by rewrite app_nil_r| |].
  - intros i Hne. by rewrite requests_on_one, decide_False.
  - split; try done; [| by apply Forall_singleton | |]; cbn [unread_at backlog_at from_option].
    + change (ev_taken [SAccept r]) with [r]. rewrite encoded_one, <- Hu. apply app_nil_r.
    + rewrite Hb. apply app_nil_r.
    + by rewrite requests_on_one, decide_True.
Qed.

Lemma advances_shed (s s' : server) id c c' r : conns_ s !! id = Some c -> conns_ s' = <[id := c']> (conns_ s) ->
  config_ s' = config_ s -> socket_calls_ s' = socket_calls_ s -> queue_ (pool_ s') = queue_ (pool_ s) ->
  fd_ c' = fd_ c -> request_ok (request_limits s) r = true -> unread c = serialize_request r ++ unread c' ->
  backlog c' = backlog c ++ serialize_response (busy r) -> (closed_ c = true -> closed_ c' = true) -> advances s s'.
Proof.
  intros Hc En Ec El Eq Hfd Hr Hu Hb Hcl. eapply (advances_on s s' id c c' [] [] [SShed r]); try done; [by rewrite app_nil_r | by rewrite app_nil_r|].
  split; try done; cbn [unread_at backlog_at from_option].
  - change (ev_taken [SShed r]) with [r]. rewrite encoded_one, <- Hu. apply app_nil_r.
  - by apply Forall_singleton.
Qed.
End Advances.
