(* ===== verification/ServerInv.v ===== *)
(** * Invariants of the server

    What holds between the steps of the event loop and the workers: the
    descriptor table and the connection objects agree, the in-flight count of
    a connection is the number of its jobs, and no response is left without a
    pending wake-up.  The handlers are treated by weakest preconditions for
    total correctness: no undefined behaviour, every loop ends. *)

From S2P Require Import Prelude Protocol Stats Serializer CacheSpec SpecHistory LruCache Service.
From S2P Require Import Sys Connection ThreadPool Config Server Streams.

(** ** Jobs *)

(** The jobs queued or running. *)
Definition pool_jobs (p : WorkerPool Job) : list Job := queue_ p ++ running (threads_ p).

Definition job_count (id : Z) (jobs : list Job) : Z :=
  len (filter (fun j => job_connection j = id) jobs).

Lemma job_count_app id a b : job_count id (a ++ b) = job_count id a + job_count id b.
Proof. unfold job_count. by rewrite filter_app, len_app. Qed.

Lemma job_count_one id j : job_count id [j] = if decide (job_connection j = id) then 1 else 0.
Proof. unfold job_count. rewrite filter_cons, filter_nil. by case_decide. Qed.

Lemma job_count_perm id a b : a ≡ₚ b -> job_count id a = job_count id b.
Proof. intros H. unfold job_count, len. by rewrite H. Qed.

Lemma job_count_none id a : Forall (fun j => job_connection j <> id) a -> job_count id a = 0.
Proof.
  unfold job_count. induction 1 as [|j a Hj _ IH]; [done|]. by rewrite filter_cons, decide_False.
Qed.

Lemma job_count_nonneg id a : 0 <= job_count id a.
Proof. apply len_nonneg. Qed.

(** ** Sockets *)

Lemma flush_output_stops sends c :
  (exists pre, sends = pre ++ [fun _ => SendFailed EAGAIN]) -> is_Some (flush_output sends c).
Proof.
  intros [pre ->]. revert c. induction pre as [|r pre IH]; intros c; cbn [app flush_output];
    destruct (refill c) as [[] c1]; try (by eexists).
  destruct (send_once c1 _) as [[[result|] c2] w]; [by eexists|].
  destruct (IH c2) as [[[res c3] w3] ->]. by eexists.
Qed.

Section Inv.
Context {C : Type} `{!CacheOps C, !CacheContract C}.
Abbreviation server := (@Server C) (only parsing).

(** ** Weakest preconditions *)

Definition wp {A} (m : @M C A) (s : server) (Q : A -> server -> Prop) : Prop :=
  match m s with Some (x, s') => Q x s' | None => False end.

Lemma wp_bind {A B} (m : @M C A) (f : A -> @M C B) s Q :
  wp m s (fun x s' => wp (f x) s' Q) -> wp (x ← m; f x) s Q.
Proof. unfold wp, mbind, M_bind. by destruct (m s) as [[x s']|]. Qed.

Lemma wp_mono {A} (m : @M C A) s (P Q : A -> server -> Prop) :
  (forall x s', P x s' -> Q x s') -> wp m s P -> wp m s Q.
Proof. unfold wp. destruct (m s) as [[x s']|]; auto. Qed.

Lemma wp_get_conn id c s Q : conns_ s !! id = Some c -> Q c s -> wp (get_conn id) s Q.
Proof. unfold wp, get_conn. by intros ->. Qed.

Lemma wp_lift {A} (x : option A) y s (Q : A -> server -> Prop) : x = Some y -> Q y s -> wp (lift x) s Q.
Proof. unfold wp, lift. by intros ->. Qed.

Lemma wp_ret {A} (x : A) s (Q : A -> server -> Prop) : Q x s -> wp (mret x) s Q.
Proof. done. Qed.

Lemma wp_get_state s (Q : server -> server -> Prop) : Q s s -> wp get_state s Q.
Proof. done. Qed.

Lemma wp_modify f s (Q : unit -> server -> Prop) : Q tt (f s) -> wp (modify f) s Q.
Proof. done. Qed.

Lemma wp_put_conn id c s (Q : unit -> server -> Prop) :
  Q tt (set_conns (<[id := c]> (conns_ s)) s) -> wp (put_conn id c) s Q.
Proof. done. Qed.

Lemma wp_on_stats f s (Q : unit -> server -> Prop) :
  Q tt (set_service (mkService (sv_cache (service_ s)) (f (sv_stats (service_ s)))) s) ->
  wp (on_stats f) s Q.
Proof. done. Qed.

Lemma wp_submit job s (Q : bool -> server -> Prop) :
  Q (try_submit (pool_ s) job).1 (set_pool (try_submit (pool_ s) job).2 s) -> wp (submit job) s Q.
Proof. unfold wp, submit. by destruct (try_submit (pool_ s) job). Qed.

(** [enqueue_response] through the shared pointer. *)
Lemma wp_enqueue id frame completes c s (Q : bool -> server -> Prop) : conns_ s !! id = Some c ->
  Q (enqueue_response c frame completes).1
    (set_conns (<[id := (enqueue_response c frame completes).2]> (conns_ s)) s) ->
  wp (enqueue id frame completes) s Q.
Proof.
  intros Hc HQ. unfold enqueue. apply wp_bind, (wp_get_conn id c); [done|].
  by destruct (enqueue_response c frame completes).
Qed.

(** ** The invariant *)

(** A connection epoll watches for what it should be watched for, now or, once
    the server drains, before it did; and one that is only to be flushed has
    something to flush. *)
Definition settled (draining : bool) (c : Connection) : Prop :=
  (registered_events_ c = wanted_events draining c \/ registered_events_ c = wanted_events false c) /\
  (close_after_flush_ c = false \/ has_pending_output c = true).

(** Requests that were discarded from the queue: they stay in flight. *)
Context (lost : list Job).

(** [pend]: the connections with a wake-up under way; [hole]: a connection
    whose handler is at work, and which may be unsettled without one. *)
Record conn_ok (draining : bool) (table : gmap Z Z) (pend : list Z) (jobs : list Job) (hole : option Z)
    (limits : ConnectionLimits) (id : Z) (c : Connection) : Prop := mkConnOk {
  co_id : id_ c = id;
  co_limits : limits_ c = limits;
  co_in : wf_in c;
  co_out : flushable c;
  co_inflight : inflight_ c = job_count id jobs + job_count id lost;
  co_inflight_max : inflight_ c <= max_inflight limits;
  co_open : closed_ c = false <-> table !! fd_ c = Some id;
  co_notified : notify_pending_ c = true <-> id ∈ pend;
  co_wakeup : closed_ c = false -> hole <> Some id -> id ∈ pend \/ settled draining c;
}.

Lemma conn_ok_inflight d table pend jobs hole limits id c : conn_ok d table pend jobs hole limits id c -> 0 <= inflight_ c.
Proof.
  intros Hok. rewrite (co_inflight _ _ _ _ _ _ _ _ Hok).
  pose proof (job_count_nonneg id jobs). pose proof (job_count_nonneg id lost). lia.
Qed.

(** [rem]: the connections [drain_completions] has still to visit. *)
Record server_inv (rem : list Z) (hole : option Z) (s : server) : Prop := mkServerInv {
  si_conns : map_Forall (conn_ok (draining_ s) (connections_ s) (ready_connections_ s ++ rem) (pool_jobs (pool_ s))
                           hole (connection_limits (config_ s))) (conns_ s);
  si_table : forall fd id, connections_ s !! fd = Some id ->
    exists c, conns_ s !! id = Some c /\ fd_ c = fd;
  si_pend : NoDup (ready_connections_ s ++ rem) /\
    Forall (fun id => is_Some (conns_ s !! id)) (ready_connections_ s ++ rem);
  si_jobs : Forall (fun j => is_Some (conns_ s !! job_connection j) /\
      request_ok (protocol_limits (connection_limits (config_ s))) (job_request j) = true)
    (pool_jobs (pool_ s));
  si_wakeup : 0 <= completion_fd_ s /\ (ready_connections_ s <> [] -> 0 < completion_fd_ s);
  si_active : active_connections_ (sv_stats (service_ s)) = u64 (Z.of_nat (base.size (connections_ s)));
  si_max : Z.of_nat (base.size (connections_ s)) <= max_connections (config_ s);
  si_config : config_typed (config_ s) /\ config_valid (config_ s);
  si_cache : cache_good (sv_cache (service_ s)) /\
    Spec.limits (sv_abs (service_ s)) = cache_limits (config_ s);
  si_ids : forall id, is_Some (conns_ s !! id) -> id < next_connection_id_ s;
  si_next : 0 < next_connection_id_ s < 2 ^ 64;
}.

(** The hole is empty or this connection. *)
Definition hole_at (id : Z) (hole : option Z) : Prop := hole = None \/ hole = Some id.

Lemma conn_ok_hole d table pend jobs hole hole' limits id id' c :
  hole_at id hole -> hole_at id hole' -> id' <> id ->
  conn_ok d table pend jobs hole limits id' c -> conn_ok d table pend jobs hole' limits id' c.
Proof.
  intros Hh Hh' Hne []. split; try done. intros Hcl _. apply co_wakeup0; [done|].
  destruct Hh as [-> | ->]; congruence.
Qed.

Lemma conn_ok_enter d table pend jobs hole limits id c :
  hole_at id hole -> conn_ok d table pend jobs hole limits id c -> conn_ok d table pend jobs (Some id) limits id c.
Proof. intros Hh []. by split. Qed.

(** One connection object changes, its descriptor does not. *)
Lemma inv_put rem hole hole' s id c c' :
  server_inv rem hole s -> hole_at id hole -> hole_at id hole' ->
  conns_ s !! id = Some c -> fd_ c' = fd_ c ->
  conn_ok (draining_ s) (connections_ s) (ready_connections_ s ++ rem) (pool_jobs (pool_ s)) hole'
    (connection_limits (config_ s)) id c' ->
  server_inv rem hole' (set_conns (<[id := c']> (conns_ s)) s).
Proof.
  intros [Hco Hta Hpe Hjo Hwa Hac Hma Hcf Hca Hid] Hh Hh' Hc Hfd Hok.
  assert (Hsome : forall i, is_Some (conns_ s !! i) -> is_Some (<[id := c']> (conns_ s) !! i)).
  { intros i [x Hx]. destruct (decide (i = id)) as [->|Hne];
      [rewrite lookup_insert_eq | rewrite lookup_insert_ne by done]; by eexists. }
  split; cbn; try done.
  - intros i x Hx. destruct (decide (i = id)) as [->|Hne].
    + rewrite lookup_insert_eq in Hx. by injection Hx as <-.
    + rewrite lookup_insert_ne in Hx by done. eapply (conn_ok_hole _ _ _ _ hole); eauto.
  - intros fd i Hi. destruct (Hta fd i Hi) as (x & Hx & Hfx). destruct (decide (i = id)) as [->|Hne].
    + exists c'. rewrite lookup_insert_eq. split; [done | congruence].
    + exists x. by rewrite lookup_insert_ne.
  - split; [apply Hpe|]. eapply Forall_impl; [apply Hpe | done].
  - eapply Forall_impl; [done|]. intros j [? ?]. auto.
  - intros i [x Hx]. apply Hid. destruct (decide (i = id)) as [->|Hne]; [by eexists|].
    rewrite lookup_insert_ne in Hx by done. by eexists.
Qed.

Lemma inv_stats rem hole s f : server_inv rem hole s ->
  active_connections_ (f (sv_stats (service_ s))) = active_connections_ (sv_stats (service_ s)) ->
  server_inv rem hole (set_service (mkService (sv_cache (service_ s)) (f (sv_stats (service_ s)))) s).
Proof. intros [Hco Hta Hpe Hjo Hwa Hac Hma Hcf Hca Hid] Hf. split; cbn; try done. by rewrite Hf. Qed.

Lemma inv_leave rem hole s id : server_inv rem hole s -> hole_at id hole -> server_inv rem (Some id) s.
Proof.
  intros [Hco Hta Hpe Hjo Hwa Hac Hma Hcf Hca Hid] Hh. split; try done. intros i x Hx.
  destruct (decide (i = id)) as [->|Hne];
    [eapply conn_ok_enter; eauto | eapply (conn_ok_hole _ _ _ _ hole); eauto; by right].
Qed.

Lemma inv_calls rem hole s l : server_inv rem hole s -> server_inv rem hole (set_socket_calls l s).
Proof. intros [Hco Hta Hpe Hjo Hwa Hac Hma Hcf Hca Hid]. by split. Qed.

(** A connection that is closed needs no wake-up. *)
Lemma wp_close rem hole s id c : server_inv rem hole s -> hole_at id hole -> conns_ s !! id = Some c ->
  wp (close_connection id) s (fun _ s' => server_inv rem None s' /\ advances s s').
Proof.
  intros Hi Hh Hc. unfold close_connection. apply wp_bind, (wp_get_conn id c); [done|].
  destruct (closed_ c) eqn:Hcl.
  { unfold wp. cbn. split; [|apply advances_refl].
    assert (E : set_conns (<[id := c]> (conns_ s)) s = s) by (rewrite insert_id by done; by destruct s).
    rewrite <- E. eapply inv_put; [done | done | by left | done | done |].
    destruct (si_conns _ _ _ Hi id c Hc). split; try done. congruence. }
  unfold wp. cbn. pose proof (si_conns _ _ _ Hi id c Hc) as Hok.
  assert (Hta : connections_ s !! fd_ c = Some id) by (by apply (co_open _ _ _ _ _ _ _ _ Hok)).
  split; [|by apply (advances_put s _ id c (mark_closed c))].
  assert (Hs : forall i, is_Some (conns_ s !! i) -> is_Some (<[id := mark_closed c]> (conns_ s) !! i)).
  { apply (extends_put s id). }
  destruct Hi as [Hco Hta' Hpe Hjo Hwa Hac Hma Hcf Hca Hid].
  assert (Hsz : base.size (connections_ s) = S (base.size (delete (fd_ c) (connections_ s)))).
  { rewrite map_size_delete_Some by (by eexists).
    assert (base.size (connections_ s) <> 0%nat); [|lia]. intros E. apply map_size_empty_inv in E. by rewrite E in Hta. }
  split; cbn; try done.
  - intros i x Hx. destruct (decide (i = id)) as [->|Hne].
    + rewrite lookup_insert_eq in Hx. injection Hx as <-. destruct Hok. split; try done.
      * by destruct co_in0.
      * by destruct co_out0 as [[]]; split.
      * cbn. rewrite lookup_delete_eq. done.
    + rewrite lookup_insert_ne in Hx by done.
      assert (Hx' : conn_ok (draining_ s) (connections_ s) (ready_connections_ s ++ rem) (pool_jobs (pool_ s)) None
                     (connection_limits (config_ s)) i x) by (eapply (conn_ok_hole _ _ _ _ hole); eauto; by left).
      destruct Hx'. split; try done. rewrite co_open0.
      destruct (decide (fd_ x = fd_ c)) as [Ef|Ef];
        [rewrite Ef, lookup_delete_eq, Hta | rewrite lookup_delete_ne by done; done].
      split; [intros [= ?]; congruence | done].
  - intros fd i Hfd. apply lookup_delete_Some in Hfd as [Hne Hfd]. destruct (Hta' fd i Hfd) as (x & Hx & Hfx).
    destruct (decide (i = id)) as [->|Hni]; [congruence|]. exists x. by rewrite lookup_insert_ne.
  - split; [apply Hpe|]. eapply Forall_impl; [apply Hpe | done].
  - eapply Forall_impl; [done|]. intros j [? ?]. auto.
  - rewrite Hac, u64_sub_l, Hsz. f_equal. lia.
  - lia.
  - intros i [x Hx]. apply Hid. destruct (decide (i = id)) as [->|Hne]; [by eexists|].
    rewrite lookup_insert_ne in Hx by done. by eexists.
Qed.

(** [update_interest] settles a connection, unless it should have been closed. *)
Lemma wp_update_interest rem hole s id c ctl :
  server_inv rem hole s -> hole_at id hole -> conns_ s !! id = Some c ->
  (hole = None \/ close_after_flush_ c = false \/ has_pending_output c = true) ->
  wp (update_interest id ctl) s (fun _ s' => server_inv rem None s' /\ advances s s').
Proof.
  intros Hi Hh Hc Hfl. pose proof (si_conns _ _ _ Hi id c Hc) as Hok.
  assert (Hset : forall ev, ev = wanted_events (draining_ s) c -> closed_ c = false -> id ∈ ready_connections_ s ++ rem \/
    (ev = wanted_events (draining_ s) c \/ ev = wanted_events false c) /\
    (close_after_flush_ c = false \/ has_pending_output c = true)).
  { intros ev -> Hcl. destruct Hfl as [->|Hfl]; [|auto].
    destruct (co_wakeup _ _ _ _ _ _ _ _ Hok Hcl) as [|[_ ?]]; auto. }
  unfold update_interest. apply wp_bind, (wp_get_conn id c); [done|]. apply wp_bind. unfold wp at 1. cbn.
  destruct (Z.eqb_spec (wanted_events (draining_ s) c) (registered_events_ c)) as [E|E].
  - unfold wp. cbn. split; [|apply advances_refl].
    assert (Es : set_conns (<[id := c]> (conns_ s)) s = s) by (rewrite insert_id by done; by destruct s).
    rewrite <- Es. eapply inv_put; [done | done | by left | done | done |].
    destruct Hok. split; try done. intros Hcl _. by apply Hset.
  - destruct ctl; [|by eapply wp_close].
    unfold wp. cbn. split; [|by eapply advances_put].
    eapply inv_put; [done | done | by left | done | done |].
    destruct Hok as [? ? [] [[] ? ?] ? ? ? ? ?]. split; try done.
    intros Hcl _. by apply (Hset _ eq_refl).
Qed.

(** Only the output side differs. *)
Definition output_only (c c' : Connection) : Prop :=
  fd_ c' = fd_ c /\ id_ c' = id_ c /\ limits_ c' = limits_ c /\ in_buf_ c' = in_buf_ c /\
  in_pos_ c' = in_pos_ c /\ registered_events_ c' = registered_events_ c /\
  close_after_flush_ c' = close_after_flush_ c /\ inflight_ c' = inflight_ c /\
  closed_ c' = closed_ c /\ notify_pending_ c' = notify_pending_ c.

Lemma output_only_trans c1 c2 c3 : output_only c1 c2 -> output_only c2 c3 -> output_only c1 c3.
Proof. unfold output_only. intuition congruence. Qed.

Lemma refill_output_only c : output_only c (refill c).2.
Proof. unfold refill. repeat split_if; done. Qed.

Lemma send_once_output_only c r : output_only c (send_once c r).1.2.
Proof. unfold send_once. destruct r; repeat split_if; done. Qed.

Lemma flush_output_only sends c res c' wire :
  flush_output sends c = Some (res, c', wire) -> output_only c c'.
Proof.
  revert c res c' wire. induction sends as [|r sends IH]; intros c res c' wire; cbn [flush_output];
    pose proof (refill_output_only c) as Hr; destruct (refill c) as [[] c1]; cbn [snd] in Hr;
    try (by intros [= <- <- <-]).
  pose proof (send_once_output_only c1 (r (len (unwritten c1)))) as Hs.
  destruct (send_once c1 _) as [[[result|] c2] w]; cbn [fst snd] in Hs.
  - intros [= <- <- <-]. by eapply output_only_trans.
  - destruct (flush_output sends c2) as [[[res3 c3] w3]|] eqn:E; [|done]. intros [= <- <- <-].
    eapply output_only_trans; [done|]. eapply output_only_trans; [done|]. by eapply IH.
Qed.

Lemma wf_in_same c c' : in_buf_ c' = in_buf_ c -> in_pos_ c' = in_pos_ c -> wf_in c -> wf_in c'.
Proof. intros Hb Hp []. split; by rewrite ?Hb, ?Hp. Qed.

Lemma wp_flush rem hole s id c sends :
  server_inv rem hole s -> hole_at id hole -> conns_ s !! id = Some c -> socket_answers sends ->
  wp (flush id sends) s (fun _ s' => server_inv rem (Some id) s' /\ advances s s' /\
    exists c', conns_ s' !! id = Some c' /\ len (backlog c') <= len (backlog c) /\ unread c' = unread c /\
      closed_ c' = closed_ c).
Proof.
  intros Hi Hh Hc [Hk Hst]. pose proof (si_conns _ _ _ Hi id c Hc) as Hok.
  unfold flush. apply wp_bind, (wp_get_conn id c); [done|].
  destruct (flush_output_stops sends c Hst) as [[[res c'] wire] E].
  apply wp_bind, (wp_lift _ (res, c', wire)); [done|]. apply wp_bind, wp_put_conn, wp_bind. unfold called. apply wp_modify, wp_ret.
  destruct (flush_output_exact sends c res c' wire (co_out _ _ _ _ _ _ _ _ Hok) Hk E) as (Hf & Hb & _).
  destruct (flush_output_only _ _ _ _ _ E) as (E1 & E2 & E3 & E4 & E5 & E6 & E7 & E8 & E9 & E10).
  assert (Hu : unread c' = unread c) by (unfold unread; by rewrite E4, E5).
  split; [|split].
  - apply inv_calls. eapply inv_put; [done | done | by right | done | done |].
    destruct Hok. split; rewrite ?E1, ?E2, ?E3, ?E6, ?E8, ?E9, ?E10; try done. by eapply wf_in_same.
  - eapply (advances_on s _ id c c' [SockSend id wire] [] []); try done; [by rewrite app_nil_r| |].
    + intros i Hne. unfold sent_on. cbn. by rewrite decide_False.
    + split; try done; cbn.
      * by rewrite Hu, app_nil_r.
      * unfold sent_on. cbn. by rewrite decide_True, !app_nil_r.
      * by rewrite E9.
  - exists c'. split; [apply lookup_insert_eq|]. split; [|done]. rewrite Hb, len_app. pose proof (len_nonneg wire). lia.
Qed.

(** What [enqueue_response] does to a connection. *)
Lemma enqueue_frame c frame completes : wf_in c -> flushable c ->
  len (backlog c) + len frame < 2 ^ 64 ->
  let c' := (enqueue_response c frame completes).2 in
  wf_in c' /\ flushable c' /\ fd_ c' = fd_ c /\ id_ c' = id_ c /\ limits_ c' = limits_ c /\
  unread c' = unread c /\ registered_events_ c' = registered_events_ c /\
  closed_ c' = closed_ c /\ notify_pending_ c' = notify_pending_ c /\
  inflight_ c' = (if completes then u64 (inflight_ c - 1) else inflight_ c) /\
  len (backlog c') <= len (backlog c) + len frame.
Proof.
  intros Hin [Hw Hc Hs] Hb. pose proof (len_nonneg frame). pose proof (len_nonneg (unwritten c)).
  assert (Hst : len (staged_ c ++ frame) < 2 ^ 64).
  { unfold backlog in Hb. rewrite len_app in *. lia. }
  unfold enqueue_response. destruct (closed_ c) eqn:Hcl.
  - destruct Hin, Hw. destruct completes; cbn; split_and!;
      first [done | lia | by split | by split; [split|..] | change (len (backlog c) <= len (backlog c) + len frame); lia].
  - destruct (stage_spec c frame) as (Hw' & Hb' & _ & Hp').
    assert (Hf : flushable (stage c frame).2).
    { split; [auto | unfold counted in *; rewrite Hp', Hc, u64_add_l, Hb', len_app; done | done]. }
    destruct (stage c frame) as [over c'] eqn:E. cbn [snd] in *.
    injection E as _ <-. destruct Hf as [[] ? ?], Hin.
    destruct completes; cbn; rewrite ?len_app; split_and!;
      first [done | lia | by split | by split; [split|..] | rewrite <- len_app, <- Hb'; apply Z.le_refl].
Qed.

Lemma wp_send_immediate rem s id c opcode rid status :
  server_inv rem (Some id) s -> conns_ s !! id = Some c -> closed_ c = false -> len (backlog c) + 24 < 2 ^ 64 ->
  refuses (request_limits s) (unread c) (mkResponse opcode status rid []) ->
  wp (send_immediate id opcode rid status) s (fun _ s' => server_inv rem (Some id) s' /\ advances s s').
Proof.
  intros Hi Hc Hopen Hb Href. pose proof (si_conns _ _ _ Hi id c Hc) as Hok. unfold send_immediate.
  set (frame := serialize_response _).
  assert (Hlen : len frame = 24).
  { subst frame. unfold serialize_response. rewrite serialize_response_into_eq by done.
    cbn [rs_value]. unfold len. by rewrite !length_app, length_header_bytes. }
  apply wp_bind. unfold enqueue. apply wp_bind, (wp_get_conn id c); [done|].
  destruct (enqueue_frame c frame false) as (H1 & H2 & H3 & H4 & H5 & H6 & H7 & H8 & H9 & H10 & _);
    [apply Hok | apply Hok | lia |].
  pose proof (enqueue_backlog c frame false) as Hst. rewrite Hopen in Hst.
  destruct (enqueue_response c frame false) as [ok c'] eqn:E. cbn [snd] in *.
  unfold wp at 1. cbn.
  assert (Ha : advances s (set_conns (<[id := c']> (conns_ s)) s)).
  { by eapply (advances_rejected s _ id c c' (mkResponse opcode status rid [])). }
  assert (Hi' : server_inv rem (Some id) (set_conns (<[id := c']> (conns_ s)) s)).
  { eapply inv_put; [done | by right | by right | done | done |].
    destruct Hok. split; rewrite ?H3, ?H4, ?H5, ?H7, ?H8, ?H9, ?H10; done. }
  destruct ok.
  - unfold wp. cbn. by split.
  - eapply wp_mono; [|eapply wp_close; [exact Hi' | by right | apply lookup_insert_eq]].
    intros _ s' [Hs' He']. split; [eapply inv_leave; [done | by left]|]. by etransitivity.
Qed.

Lemma peek_total c : wf_in c -> is_Some (peek_request_header c).
Proof.
  intros Hc. unfold peek_request_header. rewrite input_view_eq by done. cbn [mbind option_bind].
  destruct (Z.ltb_spec (len (unread c)) kHeaderSize) as [|Hl]; [by eexists|].
  unfold kHeaderSize, len in Hl.
  rewrite read_u32_eq, read_u8_eq, read_u64_eq, !read_be_field, read_be_field0 by lia.
  cbn [mbind option_bind]. repeat split_if; by eexists.
Qed.

Lemma peek_identifies c rid op : wf_in c -> peek_request_header c = Some (Some (rid, op)) ->
  kHeaderSize <= len (unread c) /\ is_valid_opcode (field 5 1 (unread c)) = true /\
  rid = field 8 8 (unread c) /\ op = Opcode.of_raw (field 5 1 (unread c)).
Proof.
  intros Hc. unfold peek_request_header. rewrite input_view_eq by done. cbn [mbind option_bind].
  destruct (Z.ltb_spec (len (unread c)) kHeaderSize) as [|Hl]; [done|]. pose proof Hl as Hl'. unfold kHeaderSize, len in Hl'.
  rewrite read_u32_eq, read_u8_eq, read_u64_eq, !read_be_field, read_be_field0 by lia.
  cbn [mbind option_bind]. split_if; [done|]. destruct (is_valid_opcode _) eqn:Hop; cbn [negb]; [|done]. by intros [= <- <-].
Qed.

Lemma try_submit_true (p p' : WorkerPool Job) job : try_submit p job = (true, p') ->
  p' = set_queue (queue_ p ++ [job]) p.
Proof. unfold try_submit. split_if; congruence. Qed.

Lemma try_submit_false (p p' : WorkerPool Job) job : try_submit p job = (false, p') -> p' = p.
Proof. unfold try_submit. split_if; congruence. Qed.

Lemma connection_limits_inflight cfg : config_typed cfg ->
  0 <= max_inflight (connection_limits cfg) < 2 ^ 64.
Proof. by intros []. Qed.

(** Fields of a connection on which the invariant does not depend. *)
Lemma conn_ok_input d table pend jobs hole limits id c c' :
  input_only c c' -> wf_in c' -> conn_ok d table pend jobs hole limits id c ->
  conn_ok d table pend jobs hole limits id c'.
Proof.
  intros (b & p & ->) Hw [? ? ? [[] ? ?] ? ? ? ? ?]. split; try done.
Qed.

Lemma job_count_submit id id' (p : WorkerPool Job) r :
  job_count id' (pool_jobs (set_queue (queue_ p ++ [mkJob id r]) p)) =
  job_count id' (pool_jobs p) + if decide (id = id') then 1 else 0.
Proof.
  unfold pool_jobs. cbn [queue_ threads_ set_queue]. rewrite !job_count_app, job_count_one.
  cbn [job_connection]. case_decide; lia.
Qed.

Lemma inv_submit rem s id c r p' : server_inv rem (Some id) s -> conns_ s !! id = Some c ->
  inflight_limit_reached c = false ->
  request_ok (protocol_limits (connection_limits (config_ s))) r = true ->
  try_submit (pool_ s) (mkJob id r) = (true, p') ->
  server_inv rem (Some id) (set_pool p' (set_conns (<[id := note_request_submitted c]> (conns_ s)) s)).
Proof.
  intros Hi Hc Hlim Hr Hsub. apply try_submit_true in Hsub as ->.
  pose proof (si_conns _ _ _ Hi id c Hc) as Hok.
  pose proof (connection_limits_inflight _ (proj1 (si_config _ _ _ Hi))) as Hmax.
  assert (Hlt : inflight_ c < max_inflight (connection_limits (config_ s))).
  { unfold inflight_limit_reached in Hlim. rewrite (co_limits _ _ _ _ _ _ _ _ Hok) in Hlim. b2p. lia. }
  pose proof (job_count_nonneg id (pool_jobs (pool_ s))) as Hnn.
  pose proof (job_count_nonneg id lost) as Hnl.
  assert (Hs : forall i, is_Some (conns_ s !! i) -> is_Some (<[id := note_request_submitted c]> (conns_ s) !! i))
    by apply (extends_put s id).
  destruct Hi as [Hco Hta Hpe Hjo Hwa Hac Hma Hcf Hca Hid]. split; cbn; try done.
  - intros i x Hx. destruct (decide (i = id)) as [->|Hne].
    + rewrite lookup_insert_eq in Hx. injection Hx as <-. destruct Hok as [? ? [] [[] ? ?] Hinf ? ? ? ?].
      assert (E : u64 (inflight_ c + 1) = inflight_ c + 1) by (apply u64_small; lia).
      split; try done; change (inflight_ (note_request_submitted c)) with (u64 (inflight_ c + 1)); rewrite E; [|lia].
      etransitivity; [|symmetry; apply Z.add_cancel_r, job_count_submit]. rewrite decide_True by done. lia.
    + rewrite lookup_insert_ne in Hx by done. destruct (Hco i x Hx). split; try done.
      etransitivity; [|symmetry; apply Z.add_cancel_r, job_count_submit]. rewrite decide_False by done. lia.
  - intros fd i Hfd. destruct (Hta fd i Hfd) as (x & Hx & Hfx).
    destruct (decide (i = id)) as [->|Hni].
    + exists (note_request_submitted c). rewrite lookup_insert_eq. split; [done|]. cbn. congruence.
    + exists x. by rewrite lookup_insert_ne.
  - split; [apply Hpe|]. eapply Forall_impl; [apply Hpe | done].
  - unfold pool_jobs in *. cbn. apply Forall_app in Hjo as [Hq Hrun].
    assert (Hw : forall j, is_Some (conns_ s !! job_connection j) /\
        request_ok (protocol_limits (connection_limits (config_ s))) (job_request j) = true ->
      is_Some (<[id := note_request_submitted c]> (conns_ s) !! job_connection j) /\
        request_ok (protocol_limits (connection_limits (config_ s))) (job_request j) = true).
    { intros j [? ?]. auto. }
    rewrite <- app_assoc. apply Forall_app; split; [by eapply Forall_impl|].
    apply Forall_cons; split; [cbn; split; [by rewrite lookup_insert_eq | done] | by eapply Forall_impl].
  - intros i [x Hx]. apply Hid. destruct (decide (i = id)) as [->|Hne]; [by eexists|].
    rewrite lookup_insert_ne in Hx by done. by eexists.
Qed.

(** A request answered [kServerBusy] at once leaves the in-flight count as it
    was. *)
Lemma conn_ok_busy d table pend jobs limits id c frame :
  conn_ok d table pend jobs (Some id) limits id c -> 0 <= inflight_ c < max_inflight limits ->
  max_inflight limits < 2 ^ 64 -> len (backlog c) + len frame < 2 ^ 64 ->
  let c' := (enqueue_response (note_request_submitted c) frame true).2 in
  conn_ok d table pend jobs (Some id) limits id c' /\ fd_ c' = fd_ c /\ unread c' = unread c /\
  len (backlog c') <= len (backlog c) + len frame.
Proof.
  intros [? ? [] [[] ? ?] ? ? ? ? ?] Hin Hmax Hb.
  destruct (enqueue_frame (note_request_submitted c) frame true)
    as (H1 & H2 & H3 & H4 & H5 & H6 & H7 & H8 & H9 & H10 & H11); [by split | by split; [split|..] | done |].
  assert (E : inflight_ (enqueue_response (note_request_submitted c) frame true).2 = inflight_ c).
  { rewrite H10. cbn. rewrite u64_sub_l, u64_small by lia. lia. }
  cbv zeta. split_and!; try done. split; rewrite ?H3, ?H4, ?H5, ?H7, ?H8, ?H9, ?E; done.
Qed.

Lemma len_bare_response opcode status rid : len (serialize_response (mkResponse opcode status rid [])) = 24.
Proof.
  unfold serialize_response. rewrite serialize_response_into_eq by done.
  cbn [rs_value]. unfold len. by rewrite !length_app, length_header_bytes.
Qed.

Lemma len_request_frame limits r : request_ok limits r = true -> 24 <= len (serialize_request r).
Proof.
  intros H. pose proof (request_frame_lens limits r [] H) as Hl. rewrite app_nil_r, len_nil in Hl.
  pose proof (len_nonneg (rq_key r)). pose proof (len_nonneg (rq_value r)). unfold kHeaderSize in Hl. lia.
Qed.

(** The answer [kServerBusy] for a request the pool refused: it is staged, or
    the connection is closed. *)
Lemma wp_busy rem s0 s id c opcode rid (k : @M C bool) Q : server_inv rem (Some id) s ->
  conns_ s !! id = Some c -> closed_ c = false -> inflight_limit_reached c = false -> len (backlog c) + 24 < 2 ^ 64 ->
  let frame := serialize_response (mkResponse opcode Status.kServerBusy rid []) in
  (forall s' c', same_streams (set_conns (<[id := c']> (conns_ s)) s) s' -> fd_ c' = fd_ c -> unread c' = unread c ->
     backlog c' = backlog c ++ frame -> closed_ c' = false -> advances s0 s') ->
  (forall s' c', server_inv rem (Some id) s' -> advances s0 s' -> conns_ s' !! id = Some c' -> closed_ c' = false ->
     unread c' = unread c -> len (backlog c') <= len (backlog c) + 24 -> wp k s' Q) ->
  (forall s', server_inv rem None s' -> advances s0 s' -> Q false s') ->
  wp (_ ← on_stats record_rejected; ok ← enqueue id frame true;
      if ok : bool then k else _ ← close_connection id; mret false)
    (set_conns (<[id := note_request_submitted c]> (conns_ s)) s) Q.
Proof.
  intros Hi Hc Hopen Hlim Hmem frame Ha Hk Hq.
  pose proof (inv_stats rem (Some id) s record_rejected Hi eq_refl) as Hi1.
  set (s1 := set_service _ s) in Hi1. assert (Hc1 : conns_ s1 !! id = Some c) by done.
  pose proof (si_conns _ _ _ Hi1 id c Hc1) as Hok.
  pose proof (connection_limits_inflight _ (proj1 (si_config _ _ _ Hi1))) as Hmax.
  destruct (conn_ok_busy _ _ _ _ _ id c frame Hok) as (Hok3 & Hfd3 & Hun3 & Hb3).
  { split; [by eapply conn_ok_inflight|].
    unfold inflight_limit_reached in Hlim. rewrite (co_limits _ _ _ _ _ _ _ _ Hok) in Hlim. b2p. lia. }
  { lia. }
  { subst frame. rewrite len_bare_response. lia. }
  assert (H24 : len frame = 24) by apply len_bare_response. rewrite H24 in Hb3.
  pose proof (enqueue_backlog (note_request_submitted c) frame true) as Hst. cbn [note_request_submitted set_inflight closed_] in Hst.
  rewrite Hopen in Hst. change (backlog (set_inflight _ c)) with (backlog c) in Hst.
  assert (Hcl' : closed_ (enqueue_response (note_request_submitted c) frame true).2 = false).
  { unfold enqueue_response. change (closed_ (note_request_submitted c)) with (closed_ c). rewrite Hopen. by destruct c. }
  set (c' := (enqueue_response (note_request_submitted c) frame true).2) in *.
  pose proof (inv_put rem _ _ s1 id c c' Hi1 (or_intror eq_refl) (or_intror eq_refl) Hc1 Hfd3 Hok3) as Hi3.
  set (s3 := set_conns (<[id := c']> (conns_ s1)) s1) in *.
  assert (Hc3 : conns_ s3 !! id = Some c') by apply lookup_insert_eq.
  assert (He3 : advances s0 s3) by (by apply (Ha s3 c')).
  apply wp_bind, wp_on_stats, wp_bind, (wp_enqueue _ _ _ (note_request_submitted c));
    [apply lookup_insert_eq|].
  assert (Es : set_conns (<[id := c']> (<[id := note_request_submitted c]> (conns_ s)))
     (set_service (mkService (sv_cache (service_ s)) (record_rejected (sv_stats (service_ s))))
       (set_conns (<[id := note_request_submitted c]> (conns_ s)) s)) = s3).
  { unfold s3, s1, set_conns, set_service. cbn. by rewrite insert_insert_eq. }
  match goal with |- wp _ ?st _ => change st with (set_conns (<[id := c']> (<[id := note_request_submitted c]> (conns_ s)))
     (set_service (mkService (sv_cache (service_ s)) (record_rejected (sv_stats (service_ s))))
       (set_conns (<[id := note_request_submitted c]> (conns_ s)) s))) end.
  rewrite Es. destruct (enqueue_response (note_request_submitted c) frame true).1.
  - by apply (Hk s3 c').
  - apply wp_bind. eapply wp_mono; [|by eapply (wp_close rem (Some id)); [| right|]].
    intros _ s' [Hs' He']. apply wp_ret, Hq; [done|]. by etransitivity.
Qed.

(** The end of [process_input] for a malformed frame. *)
Lemma wp_malformed rem s id c (identified : option (Z * Opcode.t)) status :
  server_inv rem (Some id) s -> conns_ s !! id = Some c -> closed_ c = false -> len (backlog c) + 24 < 2 ^ 64 ->
  (forall rid op, identified = Some (rid, op) -> refuses (request_limits s) (unread c) (mkResponse op status rid [])) ->
  wp (_ ← match identified with
          | Some (request_id, opcode) => send_immediate id opcode request_id status
          | None => mret tt
          end;
      c ← get_conn id; _ ← put_conn id (mark_close_after_flush c); mret true) s
    (fun b s' => server_inv rem (if b : bool then Some id else None) s' /\ advances s s').
Proof.
  intros Hi Hc Hopen Hmem Href. apply wp_bind.
  assert (H : wp (match identified with
          | Some (request_id, opcode) => send_immediate id opcode request_id status
          | None => mret tt
          end) s (fun _ s' => server_inv rem (Some id) s' /\ advances s s')).
  { destruct identified as [[rid op]|]; [eapply wp_send_immediate; [done..|by apply Href] | by apply wp_ret]. }
  eapply wp_mono; [|exact H]. intros _ s1 [Hi1 He1]. destruct (ad_extends _ _ He1 id) as [c1 Hc1]; [by eexists|].
  apply wp_bind, (wp_get_conn id c1); [done|]. apply wp_bind, wp_put_conn, wp_ret.
  split; [|etransitivity; [done | by eapply advances_put]].
  eapply inv_put; [done | by right | by right | done | done |].
  destruct (si_conns _ _ _ Hi1 id c1 Hc1) as [? ? [] [[] ? ?] ? ? ? ? ?]. by split.
Qed.

Lemma wp_process_loop fuel rem s id c : server_inv rem (Some id) s -> conns_ s !! id = Some c -> closed_ c = false ->
  len (unread c) < Z.of_nat fuel -> len (backlog c) + len (unread c) + 24 < 2 ^ 64 ->
  wp (process_loop fuel id) s (fun b s' =>
    server_inv rem (if b : bool then Some id else None) s' /\ advances s s').
Proof.
  revert s c. induction fuel as [|fuel IH]; intros s c Hi Hc Hopen Hfuel Hmem;
    pose proof (len_nonneg (unread c)) as Hu0; [lia|].
  pose proof (si_conns _ _ _ Hi id c Hc) as Hok.
  cbn [process_loop]. apply wp_bind, (wp_get_conn id c); [done|].
  destruct (inflight_limit_reached c) eqn:Hlim; [unfold wp; cbn; split; [done | apply advances_refl]|].
  destruct (next_request_spec c default_request (co_in _ _ _ _ _ _ _ _ Hok))
    as (res & r & c1 & E & Hpa & Hw1 & Ho & Hcase).
  apply wp_bind, (wp_lift _ (res, r, c1)); [done|]. apply wp_bind, wp_put_conn.
  assert (Hi1 : server_inv rem (Some id) (set_conns (<[id := c1]> (conns_ s)) s)).
  { eapply inv_put; [done | by right | by right | done | by destruct Ho as (? & ? & ->) | by eapply conn_ok_input]. }
  set (s1 := set_conns (<[id := c1]> (conns_ s)) s) in *.
  assert (Hc1 : conns_ s1 !! id = Some c1) by apply lookup_insert_eq.
  assert (Hb1 : backlog c1 = backlog c) by (by destruct Ho as (? & ? & ->)).
  assert (Hopen1 : closed_ c1 = false) by (by destruct Ho as (? & ? & ->)).
  assert (Hfd1 : fd_ c1 = fd_ c) by (by destruct Ho as (? & ? & ->)).
  destruct (pr_status res) eqn:Hst.
  - (* a complete request *)
    destruct Hcase as [Hr Hun]. pose proof (len_request_frame _ _ Hr) as H24. pose proof Hun as Hun0.
    rewrite Hun, len_app in Hfuel, Hmem. pose proof (len_nonneg (unread c1)).
    apply wp_bind, wp_on_stats.
    pose proof (inv_stats rem (Some id) s1 record_request Hi1 eq_refl) as Hi2.
    set (s2 := set_service _ s1) in *. assert (Hc2 : conns_ s2 !! id = Some c1) by done.
    apply wp_bind, wp_put_conn, wp_bind, wp_submit.
    change (pool_ (set_conns (<[id := note_request_submitted c1]> (conns_ s2)) s2)) with (pool_ s2).
    assert (Hlim1 : inflight_limit_reached c1 = false) by (by destruct Ho as (? & ? & ->)).
    assert (Hr2 : request_ok (protocol_limits (connection_limits (config_ s2))) r = true).
    { change (config_ s2) with (config_ s). by rewrite <- (co_limits _ _ _ _ _ _ _ _ Hok). }
    destruct (try_submit (pool_ s2) (mkJob id r)) as [accepted p'] eqn:Hsub. destruct accepted; cbn [fst snd].
    + pose proof (inv_submit rem s2 id c1 r p' Hi2 Hc2 Hlim1 Hr2 Hsub) as Hi3. apply try_submit_true in Hsub as ->.
      eapply wp_mono; [|eapply (IH _ (note_request_submitted c1)); [exact Hi3 | apply lookup_insert_eq | done | |]].
      * intros b s' [Hs' He']. split; [done|]. etransitivity; [|exact He'].
        eapply (advances_accept s _ id c (note_request_submitted c1) r); try done; [cbn; by rewrite insert_insert_eq | by rewrite Hopen].
      * change (unread (note_request_submitted c1)) with (unread c1). lia.
      * change (unread (note_request_submitted c1)) with (unread c1).
        change (backlog (note_request_submitted c1)) with (backlog c1). rewrite Hb1. lia.
    + apply try_submit_false in Hsub as ->.
      assert (Es : forall st, set_pool (pool_ s2) (set_conns st s2) = set_conns st s2) by (by intros st; destruct s2).
      rewrite Es. eapply (wp_busy rem s); [done | done | done | done | rewrite Hb1; lia | | |].
      * intros s' c' (E1 & E2 & E3 & E4) Hfd' Hu' Hbk' Hcl'. cbn in E2.
        eapply (advances_shed s s' id c c' r); try done; [by rewrite E2, insert_insert_eq | by rewrite Hfd' | by rewrite Hu' | by rewrite Hbk', Hb1 | by rewrite Hopen].
      * intros s' c' Hs' He' Hc' Hcl' Hun' Hb'. eapply wp_mono; [|eapply (IH s' c'); try done].
        -- intros b s'' [Hi'' He'']. split; [done|]. by etransitivity.
        -- rewrite Hun'. lia.
        -- rewrite Hun'. rewrite Hb1 in Hb'. lia.
      * done.
  - (* more data needed *)
    apply wp_ret. split; [done|]. destruct Hcase as (_ & Hp & Hbuf). eapply (advances_put s _ id c c1); try done; [|by rewrite Hopen].
    unfold unread at 1. by rewrite Hp, Hbuf, drop_0.
  - (* malformed *)
    destruct Hcase as [_ ->].
    pose proof (inv_stats rem (Some id) s1 record_protocol_error Hi1 eq_refl) as Hi2.
    apply wp_bind, wp_on_stats. destruct (peek_total c (co_in _ _ _ _ _ _ _ _ Hok)) as [identified Hid].
    apply wp_bind, (wp_lift _ identified); [done|].
    eapply wp_mono; [|eapply wp_malformed; [exact Hi2 | exact Hc1 | done | lia|]].
    2: { intros rid op ->. destruct (peek_identifies _ _ _ (co_in _ _ _ _ _ _ _ _ Hok) Hid) as (Hl & Hop & -> & ->). split_and!; [done | done|].
         exists res, r. rewrite (co_limits _ _ _ _ _ _ _ _ Hok) in Hpa. by split_and!. }
    intros b s' [Hs' He']. split; [done|]. etransitivity; [|exact He']. by eapply (advances_put s _ id c c).
Qed.

Lemma wp_flush_and_update rem hole s id c sends ctl :
  server_inv rem hole s -> hole_at id hole -> conns_ s !! id = Some c -> socket_answers sends ->
  wp (flush_and_update id sends ctl) s (fun _ s' => server_inv rem None s' /\ advances s s').
Proof.
  intros Hi Hh Hc Hs. unfold flush_and_update. apply wp_bind.
  eapply wp_mono; [|by eapply wp_flush]. intros res s1 (Hi1 & He1 & c1 & Hc1 & _).
  assert (Hclose : wp (close_connection id) s1 (fun _ s' => server_inv rem None s' /\ advances s s')).
  { eapply wp_mono; [|eapply wp_close; [exact Hi1 | by right | done]].
    intros _ s' [Hs' He']. split; [done | by etransitivity]. }
  destruct (bool_decide _); [done|]. apply wp_bind, (wp_get_conn id c1); [done|].
  destruct (_ && _) eqn:Hcf; [done|].
  assert (Hfl : close_after_flush_ c1 = false \/ has_pending_output c1 = true).
  { destruct (close_after_flush_ c1); [|by left]. destruct (has_pending_output c1); [by right | done]. }
  eapply wp_mono; [|eapply wp_update_interest; [exact Hi1 | by right | done | by right]].
  intros _ s' [Hs' He']. split; [done | by etransitivity].
Qed.

(** What the kernel returns during one event is within the documentation of
    its calls. *)
Record io_ok (io : EventIo) : Prop := mkIoOk {
  io_ok_writable : socket_answers (io_writable io);
  io_ok_recv : recv_ok kReadChunkBytes (io_recv io);
  io_ok_flush : socket_answers (io_flush io);
}.

Lemma wp_process_input rem s id c : server_inv rem (Some id) s -> conns_ s !! id = Some c -> closed_ c = false ->
  len (backlog c) + len (unread c) + 24 < 2 ^ 64 ->
  wp (process_input id) s (fun b s' =>
    server_inv rem (if b : bool then Some id else None) s' /\ advances s s').
Proof.
  intros Hi Hc Hopen Hmem. unfold process_input. apply wp_bind, (wp_get_conn id c); [done|].
  pose proof (si_conns _ _ _ Hi id c Hc) as Hok. pose proof (len_unread c (co_in _ _ _ _ _ _ _ _ Hok)).
  pose proof (wf_in_pos _ (co_in _ _ _ _ _ _ _ _ Hok)).
  eapply wp_process_loop; [done | done | done | unfold len in *; lia | done].
Qed.

(** The read of a connection event and what follows it. *)
Lemma wp_input_event rem s id c r : server_inv rem (Some id) s -> conns_ s !! id = Some c -> closed_ c = false ->
  recv_ok kReadChunkBytes r -> len (backlog c) + len (unread c) + 2 ^ 17 < 2 ^ 64 ->
  wp (c ← get_conn id;
      let '(result, c) := read_some c r in
      _ ← put_conn id c;
      _ ← called (SockRecv id (delivered r));
      match result with
      | IoResult.kClosed | IoResult.kError => _ ← close_connection id; mret true
      | IoResult.kOk => alive ← process_input id; mret (negb alive)
      | IoResult.kWouldBlock => mret false
      end) s
    (fun b s' => server_inv rem (if b : bool then None else Some id) s' /\ advances s s').
Proof.
  intros Hi Hc Hopen Hr Hmem. pose proof (si_conns _ _ _ Hi id c Hc) as Hok.
  apply wp_bind, (wp_get_conn id c); [done|].
  destruct (read_some_spec c r (co_in _ _ _ _ _ _ _ _ Hok)) as (Hw & Ho & Hu).
  destruct (read_some c r) as [result c1]. cbn [snd] in *. apply wp_bind, wp_put_conn, wp_bind. unfold called. apply wp_modify.
  set (s1 := set_socket_calls _ _).
  assert (Hi1 : server_inv rem (Some id) s1).
  { apply inv_calls. eapply inv_put; [done | by right | by right | done | by destruct Ho as (? & ? & ->) | by eapply conn_ok_input]. }
  assert (Hopen1 : closed_ c1 = false) by (by destruct Ho as (? & ? & ->)).
  assert (Hb1 : backlog c1 = backlog c) by (by destruct Ho as (? & ? & ->)).
  assert (Hfd1 : fd_ c1 = fd_ c) by (by destruct Ho as (? & ? & ->)).
  assert (He1 : advances s s1).
  { eapply (advances_on s s1 id c c1 [SockRecv id (delivered r)] [] []); try done; [by rewrite app_nil_r| |].
    - intros i Hne. unfold received_on. cbn. by rewrite decide_False.
    - split; try done; cbn [unread_at backlog_at closed_at from_option]; [|by rewrite Hb1, app_nil_r | by rewrite Hopen].
      rewrite Hu. unfold received_on, received. cbn. by rewrite decide_True. }
  assert (Hc1 : conns_ s1 !! id = Some c1) by apply lookup_insert_eq.
  assert (Hclose : wp (_ ← close_connection id; mret true) s1
    (fun b s' => server_inv rem (if b : bool then None else Some id) s' /\ advances s s')).
  { apply wp_bind. eapply wp_mono; [|eapply wp_close; [exact Hi1 | by right | done]].
    intros _ s' [Hs' He']. apply wp_ret. split; [done | by etransitivity]. }
  clearbody s1. destruct result; [|by apply wp_ret|done|done].
  assert (Hrl : len (received [InRead r]) <= kReadChunkBytes).
  { unfold received. cbn. rewrite app_nil_r. destruct r; [done|]. rewrite len_nil. done. }
  apply wp_bind. eapply wp_mono; [|eapply wp_process_input; [exact Hi1 | done | done |]].
  - intros b s' [Hs' He']. apply wp_ret. split; [by destruct b | by etransitivity].
  - rewrite Hb1, Hu, len_app. unfold kReadChunkBytes in *. lia.
Qed.

Lemma wp_connection_event s id c events io : server_inv [] None s -> conns_ s !! id = Some c -> closed_ c = false ->
  io_ok io -> len (backlog c) + len (unread c) + 2 ^ 17 < 2 ^ 64 ->
  wp (handle_connection_event id events io) s (fun _ s' => server_inv [] None s' /\ advances s s').
Proof.
  intros Hi Hc Hopen [Hs1 Hr Hs2] Hmem. unfold handle_connection_event. apply wp_bind, wp_get_state.
  destruct (has_event events _); [eapply wp_close; [done | by left | done]|].
  destruct (_ && _); [eapply wp_close; [done | by left | done]|]. apply wp_bind.
  eapply (wp_mono _ _ (fun (early : bool) s1 => advances s s1 /\
    if early then server_inv [] None s1 else server_inv [] (Some id) s1 /\
      exists c1, conns_ s1 !! id = Some c1 /\ len (backlog c1) <= len (backlog c) /\ unread c1 = unread c /\ closed_ c1 = closed_ c)).
  2: { destruct (has_event events EPOLLOUT).
       - apply wp_bind. eapply wp_mono; [|eapply wp_flush; [done | by left | done | done]].
         intros res s1 (Hi1 & He1 & c1 & Hc1 & Hb1 & Hu1 & Hcl1). destruct (bool_decide _).
         + apply wp_bind. eapply wp_mono; [|eapply wp_close; [exact Hi1 | by right | done]].
           intros _ s' [Hs' He']. apply wp_ret. split; [by etransitivity | done].
         + apply wp_ret. split; [done|]. split; [done|]. by exists c1.
       - apply wp_ret. split; [apply advances_refl|]. split; [eapply inv_leave; [done | by left]|].
         exists c. done. }
  intros early s1 [He1 H1]. destruct early; [by apply wp_ret|]. destruct H1 as (Hi1 & c1 & Hc1 & Hb1 & Hu1 & Hcl1).
  apply wp_bind. eapply (wp_mono _ _ (fun (b : bool) s' =>
    server_inv [] (if b then None else Some id) s' /\ advances s1 s')).
  2: { destruct (_ && _); [|apply wp_ret; split; [done | apply advances_refl]].
       eapply wp_input_event; try done; [by rewrite Hcl1 | rewrite Hu1; lia]. }
  intros b s2 [Hi2 He2]. assert (He : advances s s2) by (by etransitivity).
  destruct b; [by apply wp_ret|]. destruct (ad_extends _ _ He id) as [c2 Hc2]; [by eexists|].
  eapply wp_mono; [|eapply wp_flush_and_update; [exact Hi2 | by right | done | done]].
  intros _ s' [Hs' He']. split; [done | by etransitivity].
Qed.

(** ** Workers *)

(** The connection after [complete_job]. *)
Definition completed (c : Connection) (frame : bytes) : Connection :=
  let '(healthy, c) := enqueue_response c frame true in
  set_notify_pending true (if healthy then c else mark_close_after_flush c).

(** The server after [complete_job], without the connection. *)
Definition notify (was_notified : bool) (id : Z) (s : server) : server :=
  if was_notified then s
  else set_completion_fd (eventfd_add (completion_fd_ s))
         (set_ready_connections (ready_connections_ s ++ [id]) s).

Lemma wp_complete_job s id c frame (Q : unit -> server -> Prop) : conns_ s !! id = Some c ->
  Q tt (notify (notify_pending_ c) id (set_conns (<[id := completed c frame]> (conns_ s)) s)) ->
  wp (complete_job id frame) s Q.
Proof.
  intros Hc HQ. unfold complete_job. apply wp_bind, (wp_enqueue _ _ _ c); [done|].
  unfold completed in HQ.
  assert (Hn : notify_pending_ (enqueue_response c frame true).2 = notify_pending_ c).
  { unfold enqueue_response. by destruct (closed_ c). }
  destruct (enqueue_response c frame true) as [healthy c1]. cbn [fst snd] in *. apply wp_bind.
  set (c2 := if healthy then c1 else mark_close_after_flush c1) in *.
  assert (Hn2 : notify_pending_ c2 = notify_pending_ c) by (by destruct healthy).
  eapply (wp_mono _ _ (fun _ s' => s' = set_conns (<[id := c2]> (conns_ s)) s)).
  2: { destruct healthy; [by apply wp_ret|]. apply wp_bind, (wp_get_conn _ c1); [apply lookup_insert_eq|].
       apply wp_put_conn. unfold set_conns. cbn. by rewrite insert_insert_eq. }
  intros _ ? ->. apply wp_bind, (wp_get_conn _ c2); [apply lookup_insert_eq|]. cbn [try_mark_notified].
  rewrite Hn2. apply wp_bind, wp_put_conn. unfold notify in HQ.
  destruct (notify_pending_ c); cbn [negb]; [apply wp_ret | apply wp_modify];
    unfold set_conns in *; cbn in *; by rewrite insert_insert_eq.
Qed.

(** A job of the connection is done, and the connection is on the ready list. *)
Lemma inv_finish s id c c' job p' ready' n' : server_inv [] None s -> conns_ s !! id = Some c ->
  job_connection job = id -> pool_jobs (pool_ s) ≡ₚ job :: pool_jobs p' ->
  wf_in c' -> flushable c' -> fd_ c' = fd_ c -> id_ c' = id_ c -> limits_ c' = limits_ c ->
  closed_ c' = closed_ c -> inflight_ c' = inflight_ c - 1 -> notify_pending_ c' = true ->
  NoDup ready' -> id ∈ ready' -> (forall i, i <> id -> i ∈ ready' <-> i ∈ ready_connections_ s) -> 0 < n' ->
  server_inv [] None (set_pool p' (set_completion_fd n' (set_ready_connections ready'
    (set_conns (<[id := c']> (conns_ s)) s)))).
Proof.
  intros Hi Hc Hj Hperm Hin Hout Hfd Hid Hlim Hcl Hinf Hnp Hnd Hmem Hr Hn.
  pose proof (si_conns _ _ _ Hi id c Hc) as Hok.
  destruct Hi as [Hco Hta Hpe Hjo Hwa Hac Hma Hcf Hca Hids].
  assert (Hs : forall i, is_Some (conns_ s !! i) -> is_Some (<[id := c']> (conns_ s) !! i)) by apply (extends_put s id).
  assert (Hperm' : forall i, job_count i (pool_jobs (pool_ s)) = (if decide (id = i) then 1 else 0) + job_count i (pool_jobs p')).
  { intros i. rewrite (job_count_perm i _ _ Hperm). change (job :: pool_jobs p') with ([job] ++ pool_jobs p').
    by rewrite job_count_app, job_count_one, Hj. }
  rewrite app_nil_r in Hpe.
  split; cbn [config_ service_ pool_ conns_ connections_ next_connection_id_ ready_connections_ completion_fd_
    set_pool set_completion_fd set_ready_connections set_conns]; rewrite ?app_nil_r; try done.
  - intros i x Hx. destruct (decide (i = id)) as [->|Hne].
    + rewrite lookup_insert_eq in Hx. injection Hx as <-. specialize (Hperm' id). rewrite decide_True in Hperm' by done.
      destruct Hok. split; rewrite ?Hfd, ?Hid, ?Hlim, ?Hcl, ?Hinf, ?Hnp; try done; try lia. by left.
    + rewrite lookup_insert_ne in Hx by done. specialize (Hperm' i). rewrite decide_False in Hperm' by done.
      specialize (Hco i x Hx). rewrite app_nil_r in Hco. destruct Hco. specialize (Hr i Hne).
      split; rewrite ?Hr; try done. lia.
  - intros fd i Hf. destruct (Hta fd i Hf) as (x & Hx & Hfx). destruct (decide (i = id)) as [->|Hne].
    + exists c'. rewrite lookup_insert_eq. split; [done | congruence].
    + exists x. by rewrite lookup_insert_ne.
  - split; [done|]. apply Forall_forall. intros i Hi. destruct (decide (i = id)) as [->|Hne].
    + apply Hs. by eexists.
    + apply Hr in Hi; [|done]. destruct Hpe as [_ Hpe]. rewrite Forall_forall in Hpe. auto.
  - rewrite Hperm in Hjo. apply Forall_cons in Hjo as [_ Hjo]. eapply Forall_impl; [done|]. intros j [? ?]. auto.
  - lia.
  - intros i [x Hx]. apply Hids. destruct (decide (i = id)) as [->|Hne]; [by eexists|].
    rewrite lookup_insert_ne in Hx by done. by eexists.
Qed.

Lemma inv_notify s id c c' job p' : server_inv [] None s -> conns_ s !! id = Some c ->
  job_connection job = id -> pool_jobs (pool_ s) ≡ₚ job :: pool_jobs p' ->
  wf_in c' -> flushable c' -> fd_ c' = fd_ c -> id_ c' = id_ c -> limits_ c' = limits_ c ->
  closed_ c' = closed_ c -> inflight_ c' = inflight_ c - 1 -> notify_pending_ c' = true ->
  server_inv [] None (set_pool p' (notify (notify_pending_ c) id (set_conns (<[id := c']> (conns_ s)) s))).
Proof.
  intros Hi Hc Hj Hperm Hin Hout Hfd Hid Hlim Hcl Hinf Hnp.
  pose proof (co_notified _ _ _ _ _ _ _ _ (si_conns _ _ _ Hi id c Hc)) as Hno. rewrite app_nil_r in Hno.
  destruct (si_pend _ _ _ Hi) as [Hnd _]. rewrite app_nil_r in Hnd. destruct (si_wakeup _ _ _ Hi) as [Hn0 Hn1].
  unfold notify. destruct (notify_pending_ c) eqn:E.
  - assert (Hmem : id ∈ ready_connections_ s) by (by apply Hno).
    assert (Hne : ready_connections_ s <> []) by (intros E'; rewrite E' in Hmem; by apply not_elem_of_nil in Hmem).
    eapply (inv_finish s id c c' job p' (ready_connections_ s) (completion_fd_ s)); eauto. 
  - assert (Hmem : id ∉ ready_connections_ s) by (intros H; apply Hno in H; done).
    eapply (inv_finish s id c c' job p' (ready_connections_ s ++ [id]) (eventfd_add (completion_fd_ s))); eauto.
    + apply NoDup_app. split; [done|]. split; [|apply NoDup_singleton]. intros x Hx ->%list_elem_of_singleton. done.
    + apply elem_of_app. right. by left.
    + intros i Hne. rewrite elem_of_app, list_elem_of_singleton. naive_solver.
    + unfold eventfd_add. destruct (Z.ltb_spec (completion_fd_ s) (2 ^ 64 - 2)); lia.
Qed.

(** Serving a request changes the cache and the counters only. *)
Lemma inv_serve rem hole s r now resp sv' : server_inv rem hole s ->
  request_ok (protocol_limits (connection_limits (config_ s))) r = true ->
  handle_request (service_ s) r now = Some (resp, sv') -> server_inv rem hole (set_service sv' s).
Proof.
  intros [Hco Hta Hpe Hjo Hwa Hac Hma Hcf [Hg Hl] Hid] Hr E.
  assert (Ha : request_addressable r).
  { destruct (request_ok_lens _ _ Hr). unfold request_addressable, kMaxKeyBytes, kMaxValueBytes, kEntryOverheadBytes in *. lia. }
  destruct (handle_request_spec (service_ s) r now Hg Ha) as (resp' & sv'' & E' & Hg' & _ & _ & Hc).
  rewrite E in E'. injection E' as <- <-.
  assert (H : active_connections_ (sv_stats sv') = active_connections_ (sv_stats (service_ s)) /\
              Spec.limits (sv_abs sv') = cache_limits (config_ s)).
  { destruct (request_op r) as [o|]; [|by destruct Hc as [-> _]].
    destruct Hc as (a & Hs & _ & ->). split; [by destruct a as [[]|[]|[]| |]|].
    rewrite <- Hl. rewrite <- (spec_limits (sv_abs (service_ s)) o), Hs. done. }
  destruct H as [Hact Hlim]. split; cbn; try done. by rewrite Hact.
Qed.

Lemma handle_request_total sv r now : cache_good (sv_cache sv) ->
  len (rq_key r) <= kMaxKeyBytes /\ len (rq_value r) <= kMaxValueBytes ->
  exists resp sv', handle_request sv r now = Some (resp, sv').
Proof.
  intros Hg Hr. destruct (handle_request_spec sv r now Hg) as (resp & sv' & E & _).
  - unfold request_addressable, kMaxKeyBytes, kMaxValueBytes, kEntryOverheadBytes in *. lia.
  - by exists resp, sv'.
Qed.

Lemma completed_frame c frame : wf_in c -> flushable c -> len (backlog c) + len frame < 2 ^ 64 ->
  1 <= inflight_ c < 2 ^ 64 ->
  let c' := completed c frame in
  wf_in c' /\ flushable c' /\ fd_ c' = fd_ c /\ id_ c' = id_ c /\ limits_ c' = limits_ c /\
  closed_ c' = closed_ c /\ inflight_ c' = inflight_ c - 1 /\ notify_pending_ c' = true.
Proof.
  intros Hin Hout Hb Hinf.
  destruct (enqueue_frame c frame true Hin Hout Hb)
    as ([] & [[] ? ?] & H3 & H4 & H5 & H6 & H7 & H8 & H9 & H10 & H11).
  unfold completed. destruct (enqueue_response c frame true) as [healthy c1]. cbn [snd] in *.
  rewrite u64_small in H10 by lia.
  destruct healthy; cbn; split_and!; first [done | by split | by split; [split|..]].
Qed.

Lemma running_finished (ws : list (WorkerPc Job)) i job : ws !! i = Some (WRun job) ->
  running ws ≡ₚ job :: running (<[i := WCheck]> ws).
Proof.
  intros Hi. pose proof (running_insert ws i _ WCheck Hi) as H. cbn in H. rewrite app_nil_r in H.
  rewrite <- H. by rewrite Permutation_app_comm.
Qed.

Lemma wp_worker_run s i now job : server_inv [] None s ->
  threads_ (pool_ s) !! i = Some (WRun job) ->
  (forall c, conns_ s !! job_connection job = Some c -> len (backlog c) + kMaxFrameBytes < 2 ^ 64) ->
  wp (worker_run i now) s (fun _ s' => server_inv [] None s' /\ extends s s').
Proof.
  intros Hi Hth Hmem. unfold worker_run. apply wp_bind, wp_get_state. rewrite Hth.
  assert (Hperm : pool_jobs (pool_ s) ≡ₚ job :: pool_jobs (job_done (set_threads (<[i := WCheck]> (threads_ (pool_ s))) (pool_ s)))).
  { unfold pool_jobs. cbn [queue_ threads_ job_done set_threads set_completed].
    rewrite (running_finished _ _ _ Hth). by rewrite Permutation_middle. }
  pose proof (si_jobs _ _ _ Hi) as Hjo. rewrite Hperm in Hjo. apply Forall_cons in Hjo as [[[c Hc] Hr] _].
  destruct (si_cache _ _ _ Hi) as [Hg Hlim].
  destruct (handle_request_total (service_ s) (job_request job) now Hg (request_ok_lens _ _ Hr)) as (resp & sv' & E).
  apply wp_bind. unfold handle_job. apply wp_bind, wp_get_state, wp_bind, (wp_lift _ (resp, sv')); [done|].
  apply wp_bind, wp_modify.
  pose proof (inv_serve _ _ _ _ _ _ _ Hi Hr E) as Hi1. set (s1 := set_service sv' s) in *.
  assert (Hc1 : conns_ s1 !! job_connection job = Some c) by done.
  pose proof (si_conns _ _ _ Hi1 _ _ Hc1) as Hok.
  assert (Hval : cl_max_value_bytes (Spec.limits (sv_abs (service_ s))) <= kMaxValueBytes).
  { rewrite Hlim. cbn. destruct (cv_value _ (proj2 (si_config _ _ _ Hi))). done. }
  pose proof (handle_request_response_ok _ _ _ _ _ _ Hg Hr Hval E) as Hresp.
  pose proof (response_frame_lens _ resp [] Hresp) as Hfl. rewrite app_nil_r, len_nil in Hfl.
  pose proof (response_ok_lens _ _ Hresp) as Hrl. specialize (Hmem c Hc).
  assert (Hcount : 1 <= inflight_ c < 2 ^ 64).
  { pose proof (connection_limits_inflight _ (proj1 (si_config _ _ _ Hi1))) as Hmax.
    pose proof (co_inflight_max _ _ _ _ _ _ _ _ Hok). split; [|lia].
    rewrite (co_inflight _ _ _ _ _ _ _ _ Hok), (job_count_perm _ _ _ Hperm).
    pose proof (job_count_nonneg (job_connection job) lost). change (job :: ?l) with ([job] ++ l). rewrite job_count_app, job_count_one, decide_True by done.
    pose proof (job_count_nonneg (job_connection job)
      (pool_jobs (job_done (set_threads (<[i := WCheck]> (threads_ (pool_ s))) (pool_ s))))). lia. }
  destruct (completed_frame c (serialize_response_into resp []) (co_in _ _ _ _ _ _ _ _ Hok)
    (co_out _ _ _ _ _ _ _ _ Hok)) as (H1 & H2 & H3 & H4 & H5 & H6 & H7 & H8); [|done|].
  { unfold serialize_response, kMaxFrameBytes, kMaxKeyBytes in *. lia. }
  apply (wp_complete_job _ _ c); [done|]. apply wp_modify. split.
  - assert (Hpool : forall b st, pool_ (notify b (job_connection job) st) = pool_ st) by (by intros [] ?).
    rewrite Hpool. by eapply inv_notify.
  - intros x Hx. unfold notify. destruct (notify_pending_ c); cbn; by apply (extends_put s1 (job_connection job)).
Qed.

Lemma inv_pool rem hole s p' : server_inv rem hole s -> pool_jobs p' ≡ₚ pool_jobs (pool_ s) ->
  server_inv rem hole (set_pool p' s).
Proof.
  intros [Hco Hta Hpe Hjo Hwa Hac Hma Hcf Hca Hid] Hperm. split; cbn [config_ service_ pool_ conns_
    connections_ next_connection_id_ ready_connections_ completion_fd_ set_pool]; try done.
  - intros i x Hx. destruct (Hco i x Hx). split; try done. by rewrite (job_count_perm _ _ _ Hperm).
  - by rewrite Hperm.
Qed.

Lemma take_jobs (p : WorkerPool Job) i pc notified p' : threads_ p !! i = Some WCheck ->
  worker_section p = (pc, notified, p') ->
  pool_jobs (set_threads (<[i := pc]> (threads_ p')) p') ≡ₚ pool_jobs p.
Proof.
  intros Hi Hs. unfold pool_jobs. cbn [queue_ threads_ set_threads].
  pose proof (running_insert (threads_ p) i _ pc Hi) as Hr. cbn [taken_by] in Hr. rewrite app_nil_r in Hr.
  destruct (worker_section_cases p) as [(E & Hq & _)|[(E & Hq & _)|(job & rest & Hq & E)]];
    rewrite E in Hs; injection Hs as <- <- <-; cbn [queue_ threads_ set_queue taken_by] in *.
  - by rewrite Hr, app_nil_r.
  - by rewrite Hr, app_nil_r.
  - rewrite Hr, Hq, app_assoc, Permutation_app_comm. done.
Qed.

Lemma wake_jobs (p : WorkerPool Job) i : threads_ p !! i = Some WWait ->
  pool_jobs (set_threads (<[i := WCheck]> (threads_ p)) p) ≡ₚ pool_jobs p.
Proof.
  intros Hi. unfold pool_jobs. cbn [queue_ threads_ set_threads].
  pose proof (running_insert (threads_ p) i _ WCheck Hi) as Hr. cbn [taken_by] in Hr.
  rewrite !app_nil_r in Hr. by rewrite Hr.
Qed.

(** ** Completions *)

(** [drain_completions] reaches a connection and clears its flag. *)
Lemma inv_visit rem s id c : server_inv (id :: rem) None s -> conns_ s !! id = Some c ->
  server_inv rem (Some id) (set_conns (<[id := clear_notified c]> (conns_ s)) s).
Proof.
  intros Hi Hc. pose proof (si_conns _ _ _ Hi id c Hc) as Hok.
  destruct Hi as [Hco Hta Hpe Hjo Hwa Hac Hma Hcf Hca Hids].
  assert (Hs : forall i, is_Some (conns_ s !! i) -> is_Some (<[id := clear_notified c]> (conns_ s) !! i)) by apply (extends_put s id).
  destruct Hpe as [Hnd Hall]. rewrite <- Permutation_middle in Hnd. apply NoDup_cons in Hnd as [Hni Hnd].
  assert (Hin : forall i, i <> id -> i ∈ ready_connections_ s ++ id :: rem <-> i ∈ ready_connections_ s ++ rem).
  { intros i Hne. rewrite !elem_of_app, elem_of_cons. naive_solver. }
  split; cbn; try done.
  - intros i x Hx. destruct (decide (i = id)) as [->|Hne].
    + rewrite lookup_insert_eq in Hx. injection Hx as <-.
      destruct Hok as [? ? [] [[] ? ?] ? ? ? ? ?]. split; try done.
    + rewrite lookup_insert_ne in Hx by done. specialize (Hin i Hne). destruct (Hco i x Hx).
      split; rewrite <- ?Hin; try done. intros H1 _. by apply co_wakeup0.
  - intros fd i Hf. destruct (Hta fd i Hf) as (x & Hx & Hfx). destruct (decide (i = id)) as [->|Hne].
    + exists (clear_notified c). rewrite lookup_insert_eq. split; [done|]. cbn. congruence.
    + exists x. by rewrite lookup_insert_ne.
  - split; [done|]. rewrite <- Permutation_middle in Hall. apply Forall_cons in Hall as [_ Hall].
    by eapply Forall_impl.
  - eapply Forall_impl; [done|]. intros j [? ?]. auto.
  - intros i [x Hx]. apply Hids. destruct (decide (i = id)) as [->|Hne]; [by eexists|].
    rewrite lookup_insert_ne in Hx by done. by eexists.
Qed.

Lemma wp_complete_one rem s id sends ctl : server_inv (id :: rem) None s -> socket_answers sends ->
  wp (complete_one id sends ctl) s (fun _ s' => server_inv rem None s' /\ advances s s').
Proof.
  intros Hi Hs. destruct (si_pend _ _ _ Hi) as [_ Hall]. rewrite <- Permutation_middle in Hall.
  apply Forall_cons in Hall as [[c Hc] _]. pose proof (inv_visit rem s id c Hi Hc) as Hi1.
  unfold complete_one. apply wp_bind, (wp_get_conn id c); [done|]. apply wp_bind, wp_put_conn.
  assert (He1 : advances s (set_conns (<[id := clear_notified c]> (conns_ s)) s)) by (by eapply advances_put).
  set (s1 := set_conns _ s) in *.
  assert (Hc1 : conns_ s1 !! id = Some (clear_notified c)) by apply lookup_insert_eq.
  destruct (closed_ c) eqn:Hcl.
  - apply wp_ret. split; [|done].
    assert (Es : set_conns (<[id := clear_notified c]> (conns_ s1)) s1 = s1) by (rewrite insert_id by done; by destruct s1).
    rewrite <- Es. eapply inv_put; [exact Hi1 | by right | by left | done | done |].
    destruct (si_conns _ _ _ Hi1 id _ Hc1). split; try done. cbn. congruence.
  - eapply wp_mono; [|eapply wp_flush_and_update; [exact Hi1 | by right | done | done]].
    intros _ s' [Hs' He']. split; [done | by etransitivity].
Qed.

Lemma wp_complete_all rem s io : server_inv rem None s ->
  Forall (fun x => socket_answers x.1) io -> (length rem <= length io)%nat ->
  wp (complete_all rem io) s (fun _ s' => server_inv [] None s' /\ advances s s').
Proof.
  revert s io. induction rem as [|id rem IH]; intros s io Hi Hio Hl; cbn [complete_all].
  { apply wp_ret. split; [done | apply advances_refl]. }
  destruct Hio as [|[sends ctl] io Hs Hio]; cbn in Hl; [lia|]. apply wp_bind.
  eapply wp_mono; [|by eapply wp_complete_one]. intros _ s1 [Hi1 He1].
  eapply wp_mono; [|eapply IH; [done | done | lia]]. intros _ s' [Hs' He']. split; [done | by etransitivity].
Qed.

Lemma wp_drain_completions s io : server_inv [] None s ->
  Forall (fun x => socket_answers x.1) io -> (length (ready_connections_ s) <= length io)%nat ->
  wp (drain_completions io) s (fun _ s' => server_inv [] None s' /\ advances s s').
Proof.
  intros Hi Hio Hl. unfold drain_completions. apply wp_bind, wp_modify, wp_bind, wp_get_state, wp_bind, wp_modify.
  change (ready_connections_ (set_completion_fd 0 s)) with (ready_connections_ s).
  eapply wp_mono; [|eapply wp_complete_all; [|done|done]].
  { intros _ s' [Hs' He']. split; [done|]. etransitivity; [|exact He']. by apply advances_same. }
  destruct Hi as [Hco Hta Hpe Hjo Hwa Hac Hma Hcf Hca Hids]. rewrite app_nil_r in Hco, Hpe. by split.
Qed.
End Inv.
