(* ===== verification/ServerProps.v ===== *)
(** * The running server

    The steps of the event loop and of the workers as a transition relation,
    and what holds in every state the server reaches. *)

From S2P Require Import Prelude Protocol Stats Serializer CacheSpec SpecHistory LruCache Service.
From S2P Require Import Sys Connection ThreadPool Config Server Streams ServerInv.

Section Steps.
Context {C : Type} `{!CacheOps C, !CacheContract C}.
Abbreviation server := (@Server C) (only parsing).

(** ** Accepting connections *)

(** accept(2) returns a descriptor that is not open, and the loop ends with
    [EAGAIN]; the connection ids have not run out. *)
Fixpoint accepts_ok (accepts : list (AcceptResult * bool)) (s : server) : Prop :=
  match accepts with
  | [] => False
  | (Accepted fd, ctl) :: accepts =>
      connections_ s !! fd = None /\ next_connection_id_ s < 2 ^ 64 - 1 /\
      forall s', accept_one fd ctl s = Some (tt, s') -> accepts_ok accepts s'
  | (AcceptFailed errno, _) :: accepts =>
      (errno = EINTR \/ errno = ECONNABORTED) -> accepts_ok accepts s
  end.

Lemma new_connection_ok d table pend jobs limits fd id ev :
  table !! fd = Some id -> id ∉ pend -> job_count id jobs = 0 -> 0 <= max_inflight limits ->
  ev = wanted_events false (new_connection fd id limits) ->
  conn_ok [] d table pend jobs None limits id (set_registered_events ev (new_connection fd id limits)).
Proof.
  intros Ht Hp Hj Hm ->. split; try done; [by rewrite Hj|]. intros _ _. right. split; [by right | by left].
Qed.

(** A new connection is read from: its limits leave room. *)
Lemma new_connection_reads cfg fd id : config_typed cfg -> config_valid cfg ->
  Z.lor EPOLLIN kBaseConnectionEvents = wanted_events false (new_connection fd id (connection_limits cfg)).
Proof.
  intros Ht Hv. pose proof (ct_output _ Ht). pose proof (cv_inflight _ Hv).
  unfold wanted_events, read_paused, inflight_limit_reached, has_pending_output. cbn.
  destruct (Z.ltb_spec (max_conn_output_bytes cfg) 0); [lia|].
  by destruct (Z.leb_spec (max_inflight_per_conn cfg) 0); [lia|].
Qed.

Lemma wp_accept_one s fd ctl : server_inv [] [] None s -> connections_ s !! fd = None ->
  next_connection_id_ s < 2 ^ 64 - 1 ->
  wp (accept_one fd ctl) s (fun _ s' => server_inv [] [] None s' /\ advances s s').
Proof.
  intros Hi Hfd Hnext. unfold accept_one. apply wp_bind, wp_get_state.
  destruct (Z.leb_spec (max_connections (config_ s)) (Z.of_nat (base.size (connections_ s)))) as [|Hlt].
  { apply wp_bind, wp_modify, wp_on_stats. split; [apply inv_stats; [by apply inv_calls | done]|].
    by apply (advances_calls _ _ [SockTurnAway fd]). }
  apply wp_bind, wp_modify.
  pose proof (connection_limits_inflight _ (proj1 (si_config _ _ _ _ Hi))) as Hmax.
  destruct Hi as [Hco Hta Hpe Hjo Hwa Hac Hma Hcf Hca Hids Hn0]. set (id := next_connection_id_ s) in *.
  assert (Hnone : conns_ s !! id = None).
  { destruct (conns_ s !! id) eqn:E; [|done]. pose proof (Hids id ltac:(by eexists)). lia. }
  assert (Hnp : id ∉ ready_connections_ s ++ []).
  { intros Hin. destruct Hpe as [_ Hall]. rewrite Forall_forall in Hall. destruct (Hall id Hin). congruence. }
  assert (Hnj : job_count id (pool_jobs (pool_ s)) = 0).
  { apply job_count_none. eapply Forall_impl; [exact Hjo|]. intros j [[x Hx] _] E. congruence. }
  assert (Hnt : forall fd', connections_ s !! fd' <> Some id).
  { intros fd' E. destruct (Hta fd' id E) as (x & Hx & _). congruence. }
  assert (Enext : u64 (id + 1) = id + 1) by (apply u64_small; lia).
  destruct ctl.
  - apply wp_bind, wp_put_conn, wp_bind, wp_modify, wp_bind, wp_modify, wp_on_stats.
    cbn [connections_ set_conns set_next_connection_id set_socket_calls]. rewrite Hfd.
    set (c := set_registered_events _ _).
    assert (Hs : forall i, is_Some (conns_ s !! i) -> is_Some (<[id := c]> (conns_ s) !! i)) by apply (extends_put s id).
    split; [|by eapply advances_new]. split; cbn [config_ service_ pool_ conns_ connections_ next_connection_id_ ready_connections_
      completion_fd_ set_service set_connections set_conns set_next_connection_id set_socket_calls sv_stats sv_cache]; try done.
    + intros i x Hx. destruct (decide (i = id)) as [->|Hne].
      * rewrite lookup_insert_eq in Hx. injection Hx as <-. apply new_connection_ok; try done; [apply lookup_insert_eq | lia|].
        apply new_connection_reads; apply Hcf.
      * rewrite lookup_insert_ne in Hx by done. destruct (Hco i x Hx) as [? ? ? ? ? ? Hop ? ?]. split; try done. rewrite Hop.
        destruct (decide (fd_ x = fd)) as [->|Hne']; [|by rewrite lookup_insert_ne].
        rewrite lookup_insert_eq, Hfd. split; [done|]. intros [= ?]. congruence.
    + intros fd' i Hi. destruct (decide (fd' = fd)) as [->|Hne].
      * rewrite lookup_insert_eq in Hi. injection Hi as <-. exists c. by rewrite lookup_insert_eq.
      * rewrite lookup_insert_ne in Hi by done. destruct (Hta fd' i Hi) as (x & Hx & Hfx). exists x.
        rewrite lookup_insert_ne; [done|]. congruence.
    + split; [apply Hpe|]. eapply Forall_impl; [apply Hpe | done].
    + eapply Forall_impl; [done|]. intros j [? ?]. auto.
    + cbn. rewrite Hac, u64_add_l, map_size_insert_None by done. f_equal. lia.
    + rewrite map_size_insert_None by done. lia.
    + intros i [x Hx]. rewrite Enext. destruct (decide (i = id)) as [->|Hne]; [lia|].
      rewrite lookup_insert_ne in Hx by done. pose proof (Hids i ltac:(by eexists)). lia.
    + rewrite Enext. lia.
  - apply wp_modify. split; [|by apply (advances_calls _ _ [SockTurnAway fd])].
    split; cbn [next_connection_id_ set_next_connection_id set_socket_calls]; try done.
    + intros i Hx. rewrite Enext. pose proof (Hids i Hx). lia.
    + rewrite Enext. lia.
Qed.

Lemma wp_listen_ready s accepts : server_inv [] [] None s -> accepts_ok accepts s ->
  wp (handle_listen_ready accepts) s (fun _ s' => server_inv [] [] None s' /\ advances s s').
Proof.
  revert s. induction accepts as [|[[fd|errno] ctl] accepts IH]; intros s Hi Hok; [done|..];
    cbn [accepts_ok handle_listen_ready] in *.
  - destruct Hok as (Hfd & Hn & Hrest). apply wp_bind. pose proof (wp_accept_one s fd ctl Hi Hfd Hn) as Hw.
    unfold wp in Hw |- * at 1. destruct (accept_one fd ctl s) as [[[] s1]|] eqn:E; [|done].
    destruct Hw as [Hi1 He1]. eapply wp_mono; [|apply IH; [done | by apply Hrest]].
    intros _ s' [Hs' He']. split; [done | by etransitivity].
  - destruct ((errno =? EAGAIN) || _); [apply wp_ret; split; [done | apply advances_refl]|].
    destruct ((errno =? EINTR) || _) eqn:E; [|apply wp_ret; split; [done | apply advances_refl]].
    apply IH; [done|]. apply Hok. b2p. destruct E; b2p; auto.
Qed.

(** ** Shutdown *)

Lemma wp_update_all ids ctl s : server_inv [] [] None s -> Forall (fun id => is_Some (conns_ s !! id)) ids ->
  wp (update_all ids ctl) s (fun _ s' => server_inv [] [] None s' /\ advances s s').
Proof.
  intros Hi Hall. revert s Hi Hall. induction ids as [|id ids IH]; intros s Hi Hall; cbn [update_all].
  { apply wp_ret. split; [done | apply advances_refl]. }
  apply Forall_cons in Hall as [[c Hc] Hall]. apply wp_bind.
  eapply wp_mono; [|eapply wp_update_interest; [done | by left | done | by left]]. intros _ s1 [Hi1 He1].
  eapply wp_mono; [|apply IH; [done | eapply Forall_impl; [exact Hall | intros x; apply (ad_extends _ _ He1)]]].
  intros _ s' [Hs' He']. split; [done | by etransitivity].
Qed.

Lemma inv_same rem hole s s' : server_inv [] rem hole s ->
  config_ s' = config_ s -> service_ s' = service_ s -> pool_ s' = pool_ s -> conns_ s' = conns_ s ->
  connections_ s' = connections_ s -> next_connection_id_ s' = next_connection_id_ s ->
  ready_connections_ s' = ready_connections_ s -> completion_fd_ s' = completion_fd_ s ->
  (draining_ s = true -> draining_ s' = true) -> server_inv [] rem hole s'.
Proof.
  intros [Hco] E1 E2 E3 E4 E5 E6 E7 E8 Hd. split; rewrite ?E1, ?E2, ?E3, ?E4, ?E5, ?E6, ?E7, ?E8; try done.
  intros id c Hc. destruct (Hco id c Hc) as [? ? ? ? ? ? ? ? Hw]. split; try done. intros Hcl Hh.
  destruct (Hw Hcl Hh) as [|[Hreg Hfl]]; [by left|]. right. split; [|done].
  destruct (draining_ s); [by rewrite Hd | right; by destruct Hreg].
Qed.

(** The calls of [stop_listening], and the state it leaves. *)
Definition stop_calls (unlink : CallResult) (s : server) : list SocketCall :=
  (if listening_ s then [SockListenDel; SockListenClose] else []) ++
  (if bool_decide (bound_socket_path_ s = []) then [] else [SockUnlink (bound_socket_path_ s) unlink]).
Definition stopped_listening (unlink : CallResult) (s : server) : server :=
  set_socket_calls (socket_calls_ s ++ stop_calls unlink s) (set_bound_socket_path [] (set_listening false s)).

Lemma stop_listening_eq unlink s : stop_listening unlink s = Some (tt, stopped_listening unlink s).
Proof.
  unfold stop_listening, stopped_listening, stop_calls, called, mbind, M_bind, get_state, modify. cbn beta iota.
  destruct s as [? ? ? ? ? ? l path ? ? ? ? ? calls]. cbn [listening_ bound_socket_path_ socket_calls_].
  destruct l; cbn; (case_bool_decide as E; [subst path|]); cbn; by rewrite <- ?app_assoc, ?app_nil_r.
Qed.

Lemma advances_stop unlink s : advances s (stopped_listening unlink s).
Proof.
  apply (advances_calls _ _ (stop_calls unlink s)); try done; unfold stop_calls.
  - intros m. destruct (listening_ s), (bool_decide _); done.
  - intros id. destruct (listening_ s), (bool_decide _); done.
Qed.

Lemma wp_shutdown ctl unlink s : server_inv [] [] None s ->
  wp (handle_shutdown ctl unlink) s (fun _ s' => server_inv [] [] None s' /\ advances s s').
Proof.
  intros Hi. unfold handle_shutdown. apply wp_bind, wp_modify, wp_bind, wp_get_state.
  destruct (draining_ _); [apply wp_ret; split; [by eapply inv_same | by apply advances_same]|].
  apply wp_bind, wp_modify, wp_bind. unfold wp at 1. rewrite stop_listening_eq. apply wp_bind, wp_get_state.
  eapply wp_mono; [|apply wp_update_all; [by eapply inv_same|]].
  - intros _ s' [Hs' He']. split; [done|]. etransitivity; [|exact He']. etransitivity; [|apply advances_stop].
    by apply advances_same.
  - apply Forall_forall. intros id Hin. apply list_elem_of_fmap in Hin as ([fd id'] & -> & Hin).
    apply elem_of_map_to_list in Hin. destruct (si_table _ _ _ _ Hi fd id' Hin) as (c & Hc & _). by eexists.
Qed.

(** ** Steps *)

(** What the kernel answers during the handling of an event. *)
Definition event_ok (ev : Event) (s : server) : Prop :=
  match ev with
  | EvListen accepts => listening_ s = true -> accepts_ok accepts s
  | EvCompletion io =>
      Forall (fun x => socket_answers x.1) io /\ (length (ready_connections_ s) <= length io)%nat
  | EvShutdown _ _ | EvSignal => True
  | EvConnection _ _ io => io_ok io
  end.

(** The buffers of a connection, one more read chunk and one more response
    fit the address space. *)
Definition memory_ok (s : server) : Prop :=
  map_Forall (fun _ c => len (backlog c) + len (unread c) + 2 ^ 27 < 2 ^ 64) (conns_ s).

(** A step of a worker thread. *)
Inductive work_step : server -> server -> Prop :=
  | work_take i s s' : worker_take i s = Some (tt, s') -> work_step s s'
  | work_wake i s s' : worker_wake i s = Some (tt, s') -> work_step s s'
  | work_run i now s s' : memory_ok s -> worker_run i now s = Some (tt, s') -> work_step s s'.

(** The event loop handles an event or finds that it should end, a worker moves,
    or some thread requests the shutdown. *)
Inductive server_step : server -> server -> Prop :=
  | step_event ev s s' : memory_ok s -> event_ok ev s -> dispatch ev s = Some (tt, s') ->
      server_step s s'
  | step_work s s' : work_step s s' -> server_step s s'
  | step_request s s' : request_shutdown s = Some (tt, s') -> server_step s s'
  | step_leave s : draining_ s = true -> server_step s (set_running false s).

Lemma wp_dispatch ev s : server_inv [] [] None s -> memory_ok s -> event_ok ev s ->
  wp (dispatch ev) s (fun _ s' => server_inv [] [] None s' /\ advances s s').
Proof.
  intros Hi Hm Hev. unfold dispatch. apply wp_bind, wp_get_state. destruct ev as [accepts|io|ctl| |fd events io]; cbn in Hev.
  - destruct (listening_ s); [apply wp_listen_ready; auto | apply wp_ret; split; [done | apply advances_refl]].
  - destruct Hev. by apply wp_drain_completions.
  - by apply wp_shutdown.
  - apply wp_modify. split; [by eapply inv_same | by apply advances_same].
  - destruct (connections_ s !! fd) as [id|] eqn:E; [|apply wp_ret; split; [done | apply advances_refl]].
    destruct (si_table _ _ _ _ Hi fd id E) as (c & Hc & Hfd). eapply wp_connection_event; try done.
    { apply (co_open _ _ _ _ _ _ _ _ _ (si_conns _ _ _ _ Hi id c Hc)). by rewrite Hfd. }
    specialize (Hm id c Hc). cbn in Hm. lia.
Qed.

Lemma work_step_inv lost s s' : work_step s s' -> server_inv lost [] None s -> server_inv lost [] None s'.
Proof.
  intros [i ? ? E|i ? ? E|i now ? ? Hm E] Hi.
  - unfold worker_take in E. destruct (threads_ (pool_ _) !! i) as [[]|] eqn:Ht; try done.
    destruct (worker_section _) as [[pc n] p] eqn:Es. injection E as <-.
    apply inv_pool; [done | by eapply take_jobs].
  - unfold worker_wake in E. destruct (threads_ (pool_ _) !! i) as [[]|] eqn:Ht; try done.
    injection E as <-. apply inv_pool; [done | by apply wake_jobs].
  - destruct (threads_ (pool_ s0) !! i) as [[| |job|]|] eqn:Ht;
      try (unfold worker_run, mbind, M_bind in E; cbn in E; rewrite Ht in E; discriminate E).
    pose proof (wp_worker_run lost s0 i now job Hi Ht) as Hw. unfold wp in Hw. rewrite E in Hw. apply Hw.
    intros c Hc. specialize (Hm _ c Hc). cbn in Hm. pose proof (len_nonneg (unread c)).
    unfold kMaxFrameBytes, kHeaderSize, kMaxKeyBytes, kMaxValueBytes. lia.
Qed.

Lemma server_step_inv s s' : server_step s s' -> server_inv [] [] None s -> server_inv [] [] None s'.
Proof.
  intros [ev ? ? Hm Hev E|? ? Hw|? ? E|? Hd] Hi.
  - pose proof (wp_dispatch ev s0 Hi Hm Hev) as Hw. unfold wp in Hw. rewrite E in Hw. apply Hw.
  - by eapply work_step_inv.
  - injection E as <-. by eapply inv_same.
  - by eapply inv_same.
Qed.

(** ** What handlers leave alone *)

(** The calls on the listening socket, and those on the sockets of clients. *)
Definition client_call (k : SocketCall) : bool :=
  match k with SockListenDel | SockListenClose | SockUnlink _ _ => false | _ => true end.

Section Keeps.
Context (R : relation server) `{!PreOrder R}.

Definition keeps {A} (m : M A) : Prop := forall s x s', m s = Some (x, s') -> R s s'.

Lemma keeps_ret {A} (x : A) : keeps (mret x).
Proof. intros s y s' [= _ <-]. reflexivity. Qed.
Lemma keeps_get_state : keeps get_state.
Proof. intros s y s' [= _ <-]. reflexivity. Qed.
Lemma keeps_get_conn id : keeps (get_conn id).
Proof. intros s y s'. unfold get_conn. case_match; [intros [= _ <-]; reflexivity | done]. Qed.
Lemma keeps_lift {A} (x : option A) : keeps (lift x).
Proof. intros s y s'. unfold lift. case_match; [intros [= _ <-]; reflexivity | done]. Qed.
Lemma keeps_modify f : (forall s, R s (f s)) -> keeps (modify f).
Proof. intros H s y s' [= _ <-]. apply H. Qed.
Lemma keeps_bind {A B} (m : M A) (k : A -> M B) : keeps m -> (forall x, keeps (k x)) -> keeps (m ≫= k).
Proof.
  intros Hm Hk s y s'. unfold mbind, M_bind. destruct (m s) as [[x s1]|] eqn:E; [|done].
  intros Ek. etransitivity; [by eapply Hm | by eapply Hk].
Qed.

Hypothesis R_conns : forall s m, R s (set_conns m s).
Hypothesis R_delete : forall s fd, R s (set_connections (delete fd (connections_ s)) s).
Hypothesis R_calls : forall s k, client_call k = true -> R s (set_socket_calls (socket_calls_ s ++ [k]) s).
Hypothesis R_stats : forall s f, stats_op f ->
  R s (set_service (mkService (sv_cache (service_ s)) (f (sv_stats (service_ s)))) s).

Ltac keeps_step :=
  first [ solve [auto] | apply keeps_ret | apply keeps_get_state | apply keeps_get_conn | apply keeps_lift
        | apply keeps_modify; intros; by eauto with cache
        | apply keeps_bind; [|intros] | progress case_match ].
Ltac keeps_tac := repeat keeps_step; auto.

Lemma keeps_close id : keeps (close_connection id).
Proof. unfold close_connection, put_conn, on_stats. keeps_tac. Qed.
Lemma keeps_update id ctl : keeps (update_interest id ctl).
Proof. pose proof keeps_close. unfold update_interest, put_conn. keeps_tac. Qed.
Lemma keeps_flush id sends : keeps (flush id sends).
Proof. unfold flush, put_conn, called. keeps_tac. Qed.
Lemma keeps_flush_and_update id sends ctl : keeps (flush_and_update id sends ctl).
Proof.
  pose proof keeps_close. pose proof keeps_update. pose proof keeps_flush. unfold flush_and_update. keeps_tac.
Qed.
Lemma keeps_complete_all ready io : keeps (complete_all ready io).
Proof.
  pose proof keeps_flush_and_update. revert io.
  induction ready as [|id ready IH]; intros [|[sends ctl] io]; cbn [complete_all]; unfold complete_one, put_conn; keeps_tac.
Qed.
Lemma keeps_update_all ids ctl : keeps (update_all ids ctl).
Proof. pose proof keeps_update. induction ids; cbn [update_all]; keeps_tac. Qed.
Hypothesis R_ready : forall s l, R s (set_ready_connections l s).
Hypothesis R_completion : forall s n, R s (set_completion_fd n s).
Hypothesis R_accept : forall s n m, R s (set_connections m (set_next_connection_id n s)).
Hypothesis R_next : forall s n, R s (set_next_connection_id n s).
Hypothesis R_shutdown : forall s n, R s (set_shutdown_fd n s).
Hypothesis R_draining : forall s b, R s (set_draining b s).
Hypothesis R_listening : forall s unlink, R s (stopped_listening unlink s).
Hypothesis R_connections : forall s m, R s (set_connections m s).

Lemma keeps_enqueue id frame b : keeps (enqueue id frame b).
Proof. unfold enqueue, put_conn. keeps_tac. Qed.
Lemma keeps_submit job : (forall s, R s (set_pool (try_submit (pool_ s) job).2 s)) -> keeps (submit job).
Proof. intros H s x s'. unfold submit. specialize (H s). destruct (try_submit _ _). by intros [= _ <-]. Qed.
Lemma keeps_send_immediate id op rid st : keeps (send_immediate id op rid st).
Proof. pose proof keeps_close. pose proof keeps_enqueue. unfold send_immediate. keeps_tac. Qed.
(** A connection submits its own jobs only. *)
Lemma keeps_process_loop fuel id : (forall s r, R s (set_pool (try_submit (pool_ s) (mkJob id r)).2 s)) ->
  keeps (process_loop fuel id).
Proof.
  intros R_submit.
  pose proof keeps_close. pose proof keeps_enqueue. pose proof keeps_submit. pose proof keeps_send_immediate.
  induction fuel as [|fuel IH]; cbn [process_loop]; unfold put_conn, on_stats; keeps_tac.
Qed.
Lemma keeps_connection_event id events io : (forall s r, R s (set_pool (try_submit (pool_ s) (mkJob id r)).2 s)) ->
  keeps (handle_connection_event id events io).
Proof.
  intros R_submit.
  pose proof keeps_close. pose proof keeps_flush. pose proof keeps_process_loop.
  pose proof keeps_flush_and_update. unfold handle_connection_event, process_input, put_conn, called. keeps_tac.
Qed.
Lemma keeps_listen_ready accepts : keeps (handle_listen_ready accepts).
Proof.
  induction accepts as [|[[fd|errno] ctl] accepts IH]; cbn [handle_listen_ready];
    unfold accept_one, put_conn, called, on_stats; keeps_tac.
  apply keeps_modify. intros ?. case_match; [reflexivity | apply R_connections].
Qed.
Lemma keeps_stop unlink : keeps (stop_listening unlink).
Proof. intros s x s'. rewrite stop_listening_eq. intros [= _ <-]. apply R_listening. Qed.
Hypothesis R_submit : forall s job, R s (set_pool (try_submit (pool_ s) job).2 s).
Lemma keeps_dispatch ev : keeps (dispatch ev).
Proof.
  pose proof keeps_connection_event. pose proof keeps_listen_ready. pose proof keeps_complete_all.
  pose proof keeps_update_all. pose proof keeps_stop.
  unfold dispatch, drain_completions, handle_shutdown, request_shutdown. keeps_tac.
Qed.
Hypothesis R_service : forall s r now resp sv, handle_request (service_ s) r now = Some (resp, sv) ->
  R s (set_service sv s).

Lemma keeps_complete_job id frame : keeps (complete_job id frame).
Proof.
  pose proof keeps_enqueue. unfold complete_job, put_conn. keeps_tac.
  apply keeps_modify. intros ?. etransitivity; [|apply R_completion]. apply R_ready.
Qed.
Lemma keeps_handle_job job now : keeps (handle_job job now).
Proof.
  intros s x s'. unfold handle_job, mbind, M_bind, get_state, lift, modify. cbn beta iota.
  destruct (handle_request (service_ s) (job_request job) now) as [[resp sv]|] eqn:E; [|done].
  intros Ec. etransitivity; [by eapply R_service | by eapply keeps_complete_job].
Qed.

Hypothesis R_pool : forall s p, R s (set_pool p s).
Hypothesis R_running : forall s, R s (set_running false s).

Lemma keeps_worker_run i now : keeps (worker_run i now).
Proof. pose proof keeps_handle_job. unfold worker_run. keeps_tac. Qed.
Lemma keeps_worker_take i : keeps (worker_take i).
Proof. intros s x s'. unfold worker_take. repeat case_match; try done. intros [= _ <-]. apply R_pool. Qed.
Lemma keeps_worker_wake i : keeps (worker_wake i).
Proof. intros s x s'. unfold worker_wake. repeat case_match; try done. intros [= _ <-]. apply R_pool. Qed.
Lemma keeps_work_step s s' : work_step s s' -> R s s'.
Proof.
  intros [i ? ? E|i ? ? E|i now ? ? _ E];
    [by eapply keeps_worker_take | by eapply keeps_worker_wake | by eapply keeps_worker_run].
Qed.
Lemma keeps_server_step s s' : server_step s s' -> R s s'.
Proof.
  intros [ev ? ? _ _ E|? ? E|? ? E|? _]; [by eapply keeps_dispatch | by apply keeps_work_step | | apply R_running].
  injection E as <-. apply R_shutdown.
Qed.
End Keeps.

(** The configuration never changes. *)
Definition same_config (s s' : server) : Prop := config_ s' = config_ s.

#[local] Instance same_config_preorder : PreOrder same_config.
Proof. split; [by intros ? | intros ???]. unfold same_config. congruence. Qed.

Lemma server_step_config s s' : server_step s s' -> same_config s s'.
Proof. apply (keeps_server_step same_config); intros; by unfold same_config. Qed.

(** Closing for good: no job is submitted, no connection made, the cache is
    not touched, and the server goes on draining. *)
Record quiet (s s' : server) : Prop := mkQuiet {
  qu_pool : pool_ s' = pool_ s;
  qu_cache : sv_cache (service_ s') = sv_cache (service_ s);
  qu_connections : connections_ s' ⊆ connections_ s;
  qu_next : next_connection_id_ s' = next_connection_id_ s;
  qu_listening : listening_ s' = listening_ s;
  qu_draining : draining_ s' = draining_ s;
}.

#[local] Instance quiet_preorder : PreOrder quiet.
Proof.
  split; [by intros s; split|]. intros a b c [] []. split; try congruence. by etransitivity.
Qed.

Ltac quiet_side := intros; split; try done; cbn; apply delete_subseteq.

Lemma quiet_connection_event id events io s s' :
  draining_ s = true -> handle_connection_event id events io s = Some (tt, s') -> quiet s s'.
Proof.
  intros Hd. unfold handle_connection_event. unfold mbind at 1, M_bind at 1, get_state. cbn beta iota. rewrite Hd.
  cbn [andb negb]. revert s'.
  assert (Hc : forall id, keeps quiet (close_connection id)) by (intros; apply (keeps_close quiet); quiet_side).
  assert (Hf : forall id sends, keeps quiet (flush id sends)) by (intros; apply (keeps_flush quiet); quiet_side).
  assert (Hu : forall id sends ctl, keeps quiet (flush_and_update id sends ctl)) by (intros; apply (keeps_flush_and_update quiet); quiet_side).
  intros s'. case_match; [apply Hc|]. case_match; [apply Hc|].
  match goal with |- ?m s = _ -> _ => enough (keeps quiet m) as Hk by apply Hk end.
  apply keeps_bind; [apply _ | |].
  - case_match; [|by apply keeps_ret, _]. apply keeps_bind; [apply _ | apply Hf |]. intros r.
    case_match; [|by apply keeps_ret, _]. apply keeps_bind; [apply _ | apply Hc |]. intros. by apply keeps_ret, _.
  - intros early. destruct early; [by apply keeps_ret, _|]. apply keeps_bind; [apply _ | by apply keeps_ret, _ |].
    intros ret. destruct ret; [by apply keeps_ret, _ | apply Hu].
Qed.

Lemma quiet_dispatch ev s s' : draining_ s = true -> listening_ s = false ->
  dispatch ev s = Some (tt, s') -> quiet s s'.
Proof.
  intros Hd Hl. unfold dispatch, mbind at 1, M_bind at 1, get_state. cbn beta iota.
  destruct ev as [accepts|io|ctl unlink| |fd events io].
  - rewrite Hl. intros [= <-]. reflexivity.
  - unfold drain_completions, mbind, M_bind, modify, get_state. cbn beta iota. intros E.
    eapply (keeps_complete_all quiet) in E; [|quiet_side..]. destruct E. by split.
  - unfold handle_shutdown, mbind, M_bind, modify, get_state. cbn. rewrite Hd. intros [= <-]. by split.
  - intros [= <-]. by split.
  - case_match; [by apply quiet_connection_event | intros [= <-]; reflexivity].
Qed.

(** A server that drains does not listen. *)
Definition drains_deaf (s : server) : Prop := draining_ s = true -> listening_ s = false.

(** Only the shutdown event changes the mode of the server. *)
Definition same_mode (s s' : server) : Prop := draining_ s' = draining_ s /\ listening_ s' = listening_ s.

#[local] Instance same_mode_preorder : PreOrder same_mode.
Proof. split; [by intros ? | intros ??? [] []]. split; congruence. Qed.

Lemma deaf_same_mode s s' : same_mode s s' -> drains_deaf s -> drains_deaf s'.
Proof. intros [Ed El] H. unfold drains_deaf. by rewrite Ed, El. Qed.

Lemma dispatch_deaf ev s s' : dispatch ev s = Some (tt, s') -> drains_deaf s -> drains_deaf s'.
Proof.
  intros E Hd. unfold dispatch, mbind at 1, M_bind at 1, get_state in E. cbn beta iota in E.
  destruct ev as [accepts|io|ctl unlink| |fd events io].
  - destruct (listening_ s); [|injection E as <-; done].
    eapply deaf_same_mode; [|done]. eapply (keeps_listen_ready same_mode); [..|exact E]; done.
  - unfold drain_completions, mbind, M_bind, modify, get_state in E. cbn beta iota in E.
    eapply (keeps_complete_all same_mode) in E; [|done..]. by eapply deaf_same_mode.
  - unfold handle_shutdown, mbind, M_bind, modify, get_state in E. cbn beta iota in E.
    case_match; [injection E as <-; done|]. rewrite stop_listening_eq in E.
    eapply (keeps_update_all same_mode) in E; [|done..]. destruct E as [_ E]. intros _. exact E.
  - injection E as <-. done.
  - case_match; [|injection E as <-; done].
    eapply deaf_same_mode; [|done]. eapply (keeps_connection_event same_mode); [..|exact E]; done.
Qed.

Lemma server_step_deaf s s' : server_step s s' -> drains_deaf s -> drains_deaf s'.
Proof.
  intros [ev ? ? _ _ E|? ? E|? ? E|? _]; [by eapply dispatch_deaf | | |done].
  - apply deaf_same_mode. eapply (keeps_work_step same_mode); [..|exact E]; done.
  - injection E as <-. done.
Qed.

(** A server that has started and accepted nothing yet. *)
Definition server_init (cfg : ServerConfig) (cache : C) (now : Z) : server :=
  mkServer cfg (mkService cache (new_stats now))
    (start (new_pool (worker_threads cfg) (max_pending_requests cfg)))
    ∅ ∅ 1 true (socket_path cfg) [] 0 0 true false [].

Lemma server_init_inv cfg cache now : config_typed cfg -> config_valid cfg -> cache_good cache ->
  Spec.limits (cache_abs cache) = cache_limits cfg -> server_inv [] [] None (server_init cfg cache now).
Proof.
  intros Ht Hv Hg Hl.
  assert (Hj : pool_jobs (start (new_pool (worker_threads cfg) (max_pending_requests cfg))) = []).
  { unfold pool_jobs, start, running. cbn. induction (Z.to_nat (worker_threads cfg)) as [|n IH]; [done | exact IH]. }
  split; cbn [server_init config_ service_ pool_ conns_ connections_ ready_connections_ completion_fd_ next_connection_id_]; try done.
  - by rewrite app_nil_r; split; constructor.
  - by rewrite Hj.
  - destruct Hv. rewrite map_size_empty. lia.
  - intros id [c Hc]. by rewrite lookup_empty in Hc.
Qed.

Lemma server_reachable_config cfg cache now s :
  rtc server_step (server_init cfg cache now) s -> config_ s = cfg.
Proof.
  revert s. refine (rtc_ind_r _ _ _ _); [done|]. intros s1 s2 _ Hstep <-. by apply server_step_config.
Qed.

Lemma server_reachable_deaf cfg cache now s :
  rtc server_step (server_init cfg cache now) s -> drains_deaf s.
Proof. revert s. refine (rtc_ind_r _ _ _ _); [done|]. intros s1 s2 _. apply server_step_deaf. Qed.

Lemma server_reachable_inv cfg cache now s : config_typed cfg -> config_valid cfg -> cache_good cache ->
  Spec.limits (cache_abs cache) = cache_limits cfg ->
  rtc server_step (server_init cfg cache now) s -> server_inv [] [] None s.
Proof.
  intros Ht Hv Hg Hl. revert s. refine (rtc_ind_r _ _ _ _); [by apply server_init_inv|].
  intros s1 s2 _ Hstep IH. by eapply server_step_inv.
Qed.
End Steps.

(** ** Concrete runs *)

(** A socket that takes nothing, and one that takes all it is offered. *)
Definition would_block : list (Z -> SendResult) := [fun _ => SendFailed EAGAIN].
Definition takes_all : list (Z -> SendResult) := [fun n => Sent n; fun _ => SendFailed EAGAIN].

Lemma would_block_ok : socket_answers would_block.
Proof. split; [by repeat constructor | by exists []]. Qed.

Lemma takes_all_ok : socket_answers takes_all.
Proof.
  split; [|by exists [fun n => Sent n]].
  apply Forall_cons_2; [intros n Hn; simpl; lia|]. by repeat constructor.
Qed.

(** A readable socket with [data] on a connection whose output goes out. *)
Definition readable (data : bytes) : EventIo := mkEventIo would_block (Received data) takes_all true.

Lemma readable_ok data : len data <= kReadChunkBytes -> io_ok (readable data).
Proof. intros H. split; [apply would_block_ok | done | apply takes_all_ok]. Qed.

Definition memory_okb (s : @Server LruCache) : bool :=
  forallb (fun '(_, c) => len (backlog c) + len (unread c) + 2 ^ 27 <? 2 ^ 64) (map_to_list (conns_ s)).

Lemma memory_okb_ok s : memory_okb s = true -> memory_ok s.
Proof.
  unfold memory_okb. rewrite forallb_forall. intros H id c Hc. apply elem_of_map_to_list in Hc.
  apply Z.ltb_lt. apply (H (id, c)). by apply list_elem_of_In.
Qed.

(** The state after a handler, and that there is one. *)
Definition after (m : @M LruCache unit) (s : @Server LruCache) : @Server LruCache :=
  match m s with Some (_, s') => s' | None => s end.
Definition runs (m : @M LruCache unit) (s : @Server LruCache) : bool :=
  match m s with Some _ => true | None => false end.

Lemma after_runs m s : runs m s = true -> m s = Some (tt, after m s).
Proof. unfold runs, after. by destruct (m s) as [[[] s']|]. Qed.

Lemma step_event_run ev s : memory_okb s = true -> event_ok ev s -> runs (dispatch ev) s = true ->
  server_step s (after (dispatch ev) s).
Proof. intros Hm Hev Hr. eapply step_event; [by apply memory_okb_ok | done | by apply after_runs]. Qed.

Lemma step_take_run i s : runs (worker_take i) s = true -> server_step s (after (worker_take i) s).
Proof. intros Hr. eapply step_work, work_take. by apply after_runs. Qed.

Lemma step_job_run i now s : memory_okb s = true -> runs (worker_run i now) s = true ->
  server_step s (after (worker_run i now) s).
Proof. intros Hm Hr. eapply step_work, work_run; [by apply memory_okb_ok | by apply after_runs]. Qed.

(** One request in flight per connection, one worker. *)
Definition narrow_config : ServerConfig :=
  set_max_inflight_per_conn 1 (set_worker_threads 1
    (set_cfg_max_key_bytes 1 (set_cfg_max_value_bytes 1 default_config))).

Lemma narrow_typed : config_typed narrow_config.
Proof. split; cbn; lia. Qed.

Lemma narrow_valid : config_valid narrow_config.
Proof. apply validate_exact; [apply narrow_typed | vm_compute; reflexivity]. Qed.

Definition narrow_cache : LruCache := new_cache (cache_limits narrow_config).

Lemma narrow_good : cache_good narrow_cache /\ Spec.limits (cache_abs narrow_cache) = cache_limits narrow_config.
Proof. split; [|done]. split; [apply wf_new|]; unfold limits_ok; simpl; lia. Qed.

(** [n] PING requests in one read. *)
Definition pings (n : nat) : bytes :=
  concat (replicate n (serialize_request (mkRequest Opcode.kPing 1 [] []))).

Definition run0 : @Server LruCache := server_init narrow_config narrow_cache 0.
(** A client connects. *)
Definition ev_accept : Event := EvListen [(Accepted 7, true); (AcceptFailed EAGAIN, true)].
Definition run1 : @Server LruCache := after (dispatch ev_accept) run0.
(** It sends two requests in one piece. *)
Definition ev_two : Event := EvConnection 7 EPOLLIN (readable (pings 2)).
Definition run2 : @Server LruCache := after (dispatch ev_two) run1.
(** The worker serves the first, and the event loop sends the response. *)
Definition run3 : @Server LruCache := after (worker_take 0) run2.
Definition run4 : @Server LruCache := after (worker_run 0 1) run3.
Definition ev_done : Event := EvCompletion [(takes_all, true)].
Definition run5 : @Server LruCache := after (dispatch ev_done) run4.

Lemma run1_step : server_step run0 run1.
Proof.
  apply step_event_run; [vm_compute; reflexivity | | vm_compute; reflexivity].
  intros _. cbn [accepts_ok]. split; [vm_compute; reflexivity|]. split; [vm_compute; reflexivity|].
  intros s' _ [E|E]; discriminate E.
Qed.

Lemma run3_reachable : rtc server_step run0 run3.
Proof.
  eapply rtc_l; [apply run1_step|].
  eapply rtc_l; [apply (step_event_run ev_two run1); [vm_compute; reflexivity | apply readable_ok; vm_compute; congruence | vm_compute; reflexivity]|].
  apply rtc_once, (step_take_run 0 run2). vm_compute. reflexivity.
Qed.

Lemma run4_reachable : rtc server_step run0 run4.
Proof. eapply rtc_r; [apply run3_reachable | apply (step_job_run 0 1 run3); vm_compute; reflexivity]. Qed.

Lemma run5_reachable : rtc server_step run0 run5.
Proof.
  eapply rtc_r; [apply run4_reachable|].
  apply step_event_run; [vm_compute; reflexivity | | vm_compute; reflexivity].
  split; [|vm_compute; lia]. apply Forall_cons_2; [apply takes_all_ok | apply Forall_nil_2].
Qed.

Lemma run1_reachable : rtc server_step run0 run1.
Proof. apply rtc_once, run1_step. Qed.

(** ** What holds in every reachable state *)

Section Reachable.
Context {C : Type} `{!CacheOps C, !CacheContract C}.

(** The states of a server started with an acceptable configuration. *)
Definition server_reachable (cfg : ServerConfig) (s : @Server C) : Prop :=
  config_typed cfg /\ config_valid cfg /\
  exists cache now, cache_good cache /\ Spec.limits (cache_abs cache) = cache_limits cfg /\
    rtc server_step (server_init cfg cache now) s.

Lemma started_inv cfg s : server_reachable cfg s -> server_inv [] [] None s /\ config_ s = cfg.
Proof.
  intros (Ht & Hv & cache & now & Hg & Hl & Hr).
  split; [by eapply server_reachable_inv | by eapply server_reachable_config].
Qed.

Lemma started_deaf cfg s : server_reachable cfg s -> drains_deaf s.
Proof. intros (_ & _ & cache & now & _ & _ & Hr). by eapply server_reachable_deaf. Qed.

(** Nothing pending, nothing in the backlog. *)
Lemma no_pending_output c : flushable c -> len (backlog c) < 2 ^ 64 ->
  has_pending_output c = false -> backlog c = [].
Proof.
  intros [_ Hc _] Hm Hp. unfold has_pending_output in Hp. apply Z.ltb_ge in Hp. unfold counted in Hc.
  pose proof (len_nonneg (backlog c)). rewrite u64_small in Hc by lia.
  apply nil_length_inv. unfold len in *. lia.
Qed.

(** While the loop runs no job is lost. *)
Lemma inflight_jobs s id c : server_inv [] [] None s -> conns_ s !! id = Some c ->
  inflight_ c = job_count id (pool_jobs (pool_ s)).
Proof.
  intros Hi Hc. rewrite (co_inflight _ _ _ _ _ _ _ _ _ (si_conns _ _ _ _ Hi id c Hc)). apply Z.add_0_r.
Qed.

Lemma pending_output_iff c : flushable c -> len (backlog c) < 2 ^ 64 ->
  has_pending_output c = true <-> backlog c <> [].
Proof.
  intros Hf Hm. split.
  - intros Hp Hb. destruct Hf as [_ Hc _]. unfold counted, has_pending_output in *. rewrite Hc, Hb in Hp. done.
  - intros Hb. destruct (has_pending_output c) eqn:E; [done|]. by destruct Hb; apply no_pending_output.
Qed.

Lemma wanted_out draining c : has_event (wanted_events draining c) EPOLLOUT = has_pending_output c.
Proof. unfold wanted_events. destruct (_ && _), (has_pending_output c); done. Qed.

Lemma wanted_in draining c : has_event (wanted_events draining c) EPOLLIN
  = negb draining && negb (read_paused c) && negb (close_after_flush_ c).
Proof. unfold wanted_events. destruct (_ && _), (has_pending_output c); done. Qed.

(** A connection on the ready list: the event loop wakes up. *)
Lemma queued_wakes s id : server_inv [] [] None s -> id ∈ ready_connections_ s -> 0 < completion_fd_ s.
Proof. intros Hi Hin. apply (si_wakeup _ _ _ _ Hi). intros E. rewrite E in Hin. by apply not_elem_of_nil in Hin. Qed.

(** Reading is paused with no output left only for requests in flight. *)
Lemma paused_inflight cfg c : config_typed cfg /\ config_valid cfg -> limits_ c = connection_limits cfg ->
  has_pending_output c = false -> read_paused c = true -> 0 < inflight_ c.
Proof.
  intros [Ht Hv] Hl Hp Hr. pose proof (ct_output _ Ht). pose proof (cv_inflight _ Hv).
  unfold read_paused, inflight_limit_reached, has_pending_output in *. rewrite Hl in Hr. cbn in Hr. b2p.
  destruct Hr; b2p; lia.
Qed.

(** C7: in every state the server reaches, the table of open connections and
    the connection objects agree, the statistics count the open connections and
    [max_connections] bounds them, no connection is queued twice for the event
    loop, and the in-flight counter of each connection is the number of its
    jobs in the pool, within [max_inflight_per_conn]. *)
Theorem server_consistent cfg s : server_reachable cfg s ->
  (forall fd id, connections_ s !! fd = Some id <->
     exists c, conns_ s !! id = Some c /\ fd_ c = fd /\ closed_ c = false) /\
  active_connections_ (sv_stats (service_ s)) = u64 (Z.of_nat (base.size (connections_ s))) /\
  Z.of_nat (base.size (connections_ s)) <= max_connections cfg /\
  NoDup (ready_connections_ s) /\
  (forall id c, conns_ s !! id = Some c ->
     inflight_ c = job_count id (pool_jobs (pool_ s)) /\ inflight_ c <= max_inflight_per_conn cfg).
Proof.
  intros Hr. destruct (started_inv _ _ Hr) as [Hi <-]. split_and!.
  - intros fd id. split.
    + intros Ht. destruct (si_table _ _ _ _ Hi fd id Ht) as (c & Hc & <-). exists c. split_and!; try done.
      by apply (co_open _ _ _ _ _ _ _ _ _ (si_conns _ _ _ _ Hi id c Hc)).
    + intros (c & Hc & <- & Hopen). by apply (co_open _ _ _ _ _ _ _ _ _ (si_conns _ _ _ _ Hi id c Hc)).
  - apply Hi.
  - apply Hi.
  - destruct (si_pend _ _ _ _ Hi) as [Hn _]. by rewrite app_nil_r in Hn.
  - intros id c Hc. pose proof (si_conns _ _ _ _ Hi id c Hc) as Hco.
    split; [by apply inflight_jobs | apply (co_inflight_max _ _ _ _ _ _ _ _ _ Hco)].
Qed.

(** no response is stranded: whenever an open connection has output that
    was not sent, epoll watches its socket for writability, or the connection
    is queued for the event loop and the completion eventfd is readable. *)
Theorem server_no_stranded_response cfg s id c : server_reachable cfg s ->
  conns_ s !! id = Some c -> closed_ c = false -> backlog c <> [] -> len (backlog c) < 2 ^ 64 ->
  has_event (registered_events_ c) EPOLLOUT = true \/
  (id ∈ ready_connections_ s /\ 0 < completion_fd_ s).
Proof.
  intros Hr Hc Hopen Hb Hm. destruct (started_inv _ _ Hr) as [Hi _].
  pose proof (si_conns _ _ _ _ Hi id c Hc) as Hco. rewrite app_nil_r in Hco.
  destruct (has_pending_output c) eqn:Hp; [|by destruct Hb; apply no_pending_output; [apply Hco|..]].
  destruct (co_wakeup _ _ _ _ _ _ _ _ _ Hco Hopen) as [Hin|[Hreg _]]; [done|right|left].
  - split; [done|]. by eapply queued_wakes.
  - destruct Hreg as [-> | ->]; by rewrite wanted_out.
Qed.


(** C14: no handler gets stuck: in every state the server reaches, the event
    loop handles every event, and a worker finishes the job it took: every
    connection and every bound used is there, and the loops end. *)
Theorem server_events_total cfg s : server_reachable cfg s -> memory_ok s ->
  (forall ev, event_ok ev s -> exists s', dispatch ev s = Some (tt, s') /\ server_reachable cfg s') /\
  (forall i job now, threads_ (pool_ s) !! i = Some (WRun job) ->
     exists s', worker_run i now s = Some (tt, s') /\ server_reachable cfg s').
Proof.
  intros Hr Hm. destruct (started_inv _ _ Hr) as [Hi _].
  assert (Hnext : forall s', server_step s s' -> server_reachable cfg s').
  { intros s' Hs. destruct Hr as (? & ? & cache & now & ? & ? & ?). split_and!; try done.
    exists cache, now. split_and!; try done. by eapply rtc_r. }
  split.
  - intros ev Hev. pose proof (wp_dispatch ev s Hi Hm Hev) as Hw. unfold wp in Hw.
    destruct (dispatch ev s) as [[[] s']|] eqn:E; [|done]. exists s'. split; [done|]. by eapply Hnext, step_event.
  - intros i job now Ht. assert (Hw : wp (worker_run i now) s (fun _ _ => True)).
    { eapply wp_mono; [|eapply wp_worker_run; [done..|]]; [done|]. intros c Hc. specialize (Hm _ c Hc). cbn in Hm.
      pose proof (len_nonneg (unread c)). unfold kMaxFrameBytes, kHeaderSize, kMaxKeyBytes, kMaxValueBytes. lia. }
    unfold wp in Hw. destruct (worker_run i now s) as [[[] s']|] eqn:E; [|done].
    exists s'. split; [done|]. by eapply Hnext, step_work, work_run.
Qed.

(** C23: when [drain_complete] says so, the queue is empty, no worker is at a
    request of an open connection, and every response to an open connection
    was handed to its socket in full. *)
Theorem server_drain_complete_sound cfg s : server_reachable cfg s -> memory_ok s -> drain_complete s = true ->
  queue_ (pool_ s) = [] /\
  (forall fd id, connections_ s !! fd = Some id ->
     job_count id (pool_jobs (pool_ s)) = 0 /\ exists c, conns_ s !! id = Some c /\ backlog c = []).
Proof.
  intros Hr Hm Hd. destruct (started_inv _ _ Hr) as [Hi _]. unfold drain_complete, pending in Hd.
  destruct (Z.ltb_spec 0 (len (queue_ (pool_ s)))) as [|Hq]; [done|].
  split; [apply nil_length_inv; unfold len in Hq; lia|]. intros fd id Ht.
  destruct (si_table _ _ _ _ Hi fd id Ht) as (c & Hc & _). pose proof (si_conns _ _ _ _ Hi id c Hc) as Hco.
  rewrite forallb_forall in Hd. specialize (Hd (fd, id)).
  rewrite <- list_elem_of_In, elem_of_map_to_list in Hd. specialize (Hd Ht). cbn in Hd. rewrite Hc in Hd.
  apply negb_true_iff, orb_false_iff in Hd as [Hin Hp]. apply Z.ltb_ge in Hin.
  split.
  - rewrite (inflight_jobs s id c) in Hin by done. pose proof (job_count_nonneg id (pool_jobs (pool_ s))). lia.
  - exists c. split; [done|]. apply no_pending_output; [apply Hco | | done].
    specialize (Hm id c Hc). cbn in Hm. pose proof (len_nonneg (unread c)). lia.
Qed.

(** once the shutdown has begun, no event brings new work: the listener is
    closed, and whatever event the loop handles, the pool, its queue and the
    cache are as before, no connection is added, and the server keeps
    draining. *)
Theorem server_drain_quiet cfg s ev s' : server_reachable cfg s -> draining_ s = true ->
  dispatch ev s = Some (tt, s') ->
  listening_ s = false /\ pool_ s' = pool_ s /\ sv_cache (service_ s') = sv_cache (service_ s) /\
  connections_ s' ⊆ connections_ s /\ draining_ s' = true.
Proof.
  intros Hr Hd E. pose proof (started_deaf _ _ Hr Hd) as Hl.
  destruct (quiet_dispatch ev s s' Hd Hl E) as [? ? ? _ _ Hd']. split_and!; try done. by rewrite Hd'.
Qed.
End Reachable.

(** ** Witnesses and runs *)

Lemma narrow_reachable s : rtc server_step run0 s -> server_reachable narrow_config s.
Proof.
  intros H. split; [apply narrow_typed|]. split; [apply narrow_valid|].
  exists narrow_cache, 0. split; [apply narrow_good|]. split; [apply narrow_good | exact H].
Qed.

Definition ev_shutdown : Event := EvShutdown (fun _ => true) Success.
Definition run6 : @Server LruCache := after (dispatch ev_shutdown) run5.

Lemma run6_reachable : rtc server_step run0 run6.
Proof.
  eapply rtc_r; [apply run5_reachable|].
  apply step_event_run; [vm_compute; reflexivity | exact I | vm_compute; reflexivity].
Qed.

(** The connection of the run, and an empty one. *)
Definition run_conn (s : @Server LruCache) : Connection :=
  match conns_ s !! 1 with Some c => c | None => new_connection 0 0 (connection_limits narrow_config) end.

Lemma lookup_run_conn s : bool_decide (is_Some (conns_ s !! 1)) = true -> conns_ s !! 1 = Some (run_conn s).
Proof. unfold run_conn. intros [c ->]%bool_decide_eq_true. done. Qed.

Lemma server_consistent_witness :
  base.size (connections_ run3) = 1%nat /\ Z.of_nat (base.size (connections_ run3)) <= max_connections narrow_config.
Proof.
  split; [vm_compute; reflexivity|].
  destruct (server_consistent narrow_config run3 (narrow_reachable _ run3_reachable)) as (_ & _ & Hm & _). exact Hm.
Defined.

Lemma server_no_stranded_response_witness :
  has_event (registered_events_ (run_conn run4)) EPOLLOUT = true \/
  (1 ∈ ready_connections_ run4 /\ 0 < completion_fd_ run4).
Proof.
  apply (server_no_stranded_response narrow_config run4 1 (run_conn run4) (narrow_reachable _ run4_reachable)).
  - vm_compute. reflexivity.
  - vm_compute. reflexivity.
  - vm_compute. discriminate.
  - vm_compute. reflexivity.
Defined.


Lemma server_events_total_witness :
  exists s', dispatch ev_two run1 = Some (tt, s') /\ server_reachable narrow_config s'.
Proof.
  assert (Hm : memory_ok run1) by (apply memory_okb_ok; vm_compute; reflexivity).
  destruct (server_events_total narrow_config run1 (narrow_reachable _ run1_reachable) Hm) as [He _].
  apply (He ev_two). apply readable_ok. vm_compute. congruence.
Defined.

Lemma server_drain_complete_sound_witness : queue_ (pool_ run6) = [] /\ draining_ run6 = true.
Proof.
  split; [|vm_compute; reflexivity].
  assert (Hm : memory_ok run6) by (apply memory_okb_ok; vm_compute; reflexivity).
  assert (Hd : drain_complete run6 = true) by (vm_compute; reflexivity).
  destruct (server_drain_complete_sound narrow_config run6 (narrow_reachable _ run6_reachable) Hm Hd) as [Hq _].
  exact Hq.
Defined.

Lemma server_drain_quiet_witness :
  listening_ run6 = false /\ pool_ (after (dispatch ev_two) run6) = pool_ run6.
Proof.
  assert (E : dispatch ev_two run6 = Some (tt, after (dispatch ev_two) run6)) by (apply after_runs; vm_compute; reflexivity).
  assert (Hd : draining_ run6 = true) by (vm_compute; reflexivity).
  destruct (server_drain_quiet narrow_config run6 ev_two _ (narrow_reachable _ run6_reachable) Hd E) as (H1 & H2 & _).
  split; [exact H1 | exact H2].
Defined.

(** C39: a request can be left waiting in the server: there is a run, in which
    the client sends two requests at once and one is allowed in flight, after
    which the second, complete request lies in the input buffer, nothing is in
    flight, queued, running or unsent on the server, and the completion event
    does not look at the buffer; only another event on the client's socket
    would. *)
Theorem server_stalled_request : exists (cfg : ServerConfig) (s : @Server LruCache) c rest,
  server_reachable cfg s /\ draining_ s = false /\
  conns_ s !! 1 = Some c /\ closed_ c = false /\ close_after_flush_ c = false /\ inflight_ c = 0 /\ backlog c = [] /\
  next_request c default_request =
    Some (complete 24, mkRequest Opcode.kPing 1 [] [], rest) /\
  pool_jobs (pool_ s) = [] /\ ready_connections_ s = [] /\
  forall io, dispatch (EvCompletion io) s = Some (tt, set_completion_fd 0 s).
Proof.
  exists narrow_config, run5, (run_conn run5), (match next_request (run_conn run5) default_request with Some (_, c) => c | None => run_conn run5 end).
  split; [apply narrow_reachable, run5_reachable|].
  split_and!; try (vm_compute; reflexivity).
Qed.

(** The same client with full read chunks of small requests. *)
Definition ev_chunk : Event := EvConnection 7 EPOLLIN (readable (pings 2730)).
Definition big2 : @Server LruCache := after (dispatch ev_chunk) run1.
Definition big3 : @Server LruCache := after (worker_take 0) big2.
Definition big4 : @Server LruCache := after (worker_run 0 1) big3.
Definition big5 : @Server LruCache := after (dispatch ev_done) big4.
Definition big6 : @Server LruCache := after (dispatch ev_chunk) big5.

Lemma chunk_ok (s : @Server LruCache) : event_ok ev_chunk s.
Proof. apply readable_ok. vm_compute. congruence. Qed.

Lemma big5_reachable : rtc server_step run0 big5.
Proof.
  eapply rtc_l; [apply run1_step|].
  eapply rtc_l; [apply (step_event_run ev_chunk run1); [vm_compute; reflexivity | apply chunk_ok | vm_compute; reflexivity]|].
  eapply rtc_l; [apply (step_take_run 0 big2); vm_compute; reflexivity|].
  eapply rtc_l; [apply (step_job_run 0 1 big3); vm_compute; reflexivity|].
  apply rtc_once, (step_event_run ev_done big4); [vm_compute; reflexivity | | vm_compute; reflexivity].
  split; [|apply Nat.leb_le; vm_compute; reflexivity]. apply Forall_cons_2; [apply takes_all_ok | apply Forall_nil_2].
Qed.

Lemma big6_reachable : rtc server_step run0 big6.
Proof.
  eapply rtc_r; [apply big5_reachable|].
  apply step_event_run; [vm_compute; reflexivity | apply chunk_ok | vm_compute; reflexivity].
Qed.

(** the input a connection holds is not bounded by a maximum frame and one
    read chunk: there is a run in which the connection, watched for input with
    almost a chunk buffered, reads another chunk, and holds more than that. *)
Theorem server_input_exceeds_frame_bound : exists (cfg : ServerConfig) (s s' : @Server LruCache) c c' io,
  server_reachable cfg s /\ conns_ s !! 1 = Some c /\ has_event (registered_events_ c) EPOLLIN = true /\
  dispatch (EvConnection (fd_ c) EPOLLIN io) s = Some (tt, s') /\ server_reachable cfg s' /\
  conns_ s' !! 1 = Some c' /\
  kHeaderSize + cfg_max_key_bytes cfg + cfg_max_value_bytes cfg + kReadChunkBytes < len (unread c').
Proof.
  exists narrow_config, big5, big6, (run_conn big5), (run_conn big6), (readable (pings 2730)).
  split; [apply narrow_reachable, big5_reachable|]. split; [apply lookup_run_conn; vm_compute; reflexivity|].
  split; [vm_compute; reflexivity|]. split.
  { replace (fd_ (run_conn big5)) with 7 by (vm_compute; reflexivity).
    apply after_runs. vm_compute. reflexivity. }
  split; [apply narrow_reachable, big6_reachable|]. split; [apply lookup_run_conn; vm_compute; reflexivity|].
  apply Z.ltb_lt. vm_compute. reflexivity.
Qed.
