(* ===== verification/Run.v ===== *)
(** * Running and stopping the server

    [Server::run] (src/server.cpp): the loop around [epoll_wait], the drain
    deadline, and the ordered teardown with [WorkerPool::drain_and_stop].  The
    event loop is a thread with a program counter; its steps interleave with
    those of the workers and with requests to shut down. *)

From S2P Require Import Prelude Protocol Stats Serializer CacheSpec SpecHistory LruCache Service.
From S2P Require Import Sys Connection ThreadPool Config Server Streams ServerInv ServerProps.

(** What [epoll_wait] reports of one descriptor. *)
Inductive Ready : Set :=
  | RdListen
  | RdCompletion
  | RdShutdown
  | RdSignal
  | RdConnection (fd events : Z).

(** The report that an event, with the answers of the kernel to the calls of
    its handler, is the handling of. *)
Definition ready_of (ev : Event) : Ready :=
  match ev with
  | EvListen _ => RdListen
  | EvCompletion _ => RdCompletion
  | EvShutdown _ _ => RdShutdown
  | EvSignal => RdSignal
  | EvConnection fd events _ => RdConnection fd events
  end.

Inductive WaitResult : Set :=
  | Events (l : list Ready)
  | WaitFailed (errno : Z).

Definition kMaxEvents : Z := 256.

(** The timeout of [epoll_wait]: while the server drains it polls. *)
Definition kDrainPollMs : Z := 20.
Definition wait_timeout (draining : bool) : Z := if draining then kDrainPollMs else -1.

(** Without a timeout [epoll_wait] does not return empty-handed. *)
Definition wait_ok (timeout : Z) (r : WaitResult) : Prop :=
  match r with
  | Events l => len l <= kMaxEvents /\ (timeout = -1 -> l <> [])
  | WaitFailed _ => True
  end.

(** Where the event loop stands. *)
Inductive RunPc : Set :=
  | RLoop                     (* at the head of the loop *)
  | RBatch (l : list Ready)   (* with these events still to handle *)
  | RStop                     (* behind the loop *)
  | RDrain (d : DrainPc)      (* in [drain_and_stop], or just behind it *)
  | RDone.                    (* returned *)

Definition after_wait (r : WaitResult) : RunPc :=
  match r with
  | Events l => RBatch l
  | WaitFailed errno => if errno =? EINTR then RLoop else RStop
  end.

Section Run.
Context {C : Type} `{!CacheOps C, !CacheContract C}.
Abbreviation server := (@Server C) (only parsing).

(** The end of a turn of the loop; times are in nanoseconds. *)
Definition end_turn (now deadline : Z) : @M C unit :=
  s ← get_state;
  if draining_ s && (drain_complete s || (deadline <=? now)) then modify (set_running false) else mret tt.

(** [drain_deadline] after the handling of an event in state [s]. *)
Definition deadline_after (ev : Event) (now deadline : Z) (s : server) : Z :=
  match ev with
  | EvShutdown _ _ => if draining_ s then deadline else now + 1000000 * shutdown_drain_ms (config_ s)
  | _ => deadline
  end.

(** The loop over [connections_] at the end. *)
Fixpoint close_each (ids : list Z) : @M C unit :=
  match ids with
  | [] => mret tt
  | id :: ids =>
      c ← get_conn id;
      _ ← put_conn id (mark_closed c);
      _ ← on_stats connection_closed;
      close_each ids
  end.

(** What follows [drain_and_stop]. *)
Definition teardown (io : list (list (Z -> SendResult) * bool)) : @M C unit :=
  _ ← drain_completions io;
  s ← get_state;
  _ ← close_each ((map_to_list (connections_ s)).*2);
  modify (set_connections ∅).

Record RunSys := mkRunSys {
  rn_pc : RunPc;
  rn_deadline : Z;
  rn_server : server;
}.

(** A step of the event loop, at time [now]. *)
Inductive loop_step (now : Z) : RunSys -> RunSys -> Prop :=
  | loop_wait s deadline r : running_ s = true -> wait_ok (wait_timeout (draining_ s)) r -> r <> WaitFailed EINTR ->
      loop_step now (mkRunSys RLoop deadline s) (mkRunSys (after_wait r) deadline s)
  | loop_event ev l s s' deadline : memory_ok s -> event_ok ev s -> dispatch ev s = Some (tt, s') ->
      loop_step now (mkRunSys (RBatch (ready_of ev :: l)) deadline s)
        (mkRunSys (RBatch l) (deadline_after ev now deadline s) s')
  | loop_turn s s' deadline : end_turn now deadline s = Some (tt, s') ->
      loop_step now (mkRunSys (RBatch []) deadline s) (mkRunSys RLoop deadline s')
  | loop_leave s deadline : running_ s = false ->
      loop_step now (mkRunSys RLoop deadline s) (mkRunSys RStop deadline s)
  | loop_stop s s' unlink deadline : stop_listening unlink s = Some (tt, s') ->
      loop_step now (mkRunSys RStop deadline s) (mkRunSys (RDrain DNone) deadline s')
  | loop_drain s d p deadline : drain_enter (pool_ s) (shutdown_drain_ms (config_ s)) = (d, p) ->
      loop_step now (mkRunSys (RDrain DNone) deadline s) (mkRunSys (RDrain d) deadline (set_pool p s))
  | loop_drain_resume s d p timed_out deadline : drain_resume (pool_ s) timed_out = (d, p) ->
      loop_step now (mkRunSys (RDrain (DWoken timed_out)) deadline s) (mkRunSys (RDrain d) deadline (set_pool p s))
  | loop_notify_all s deadline :
      loop_step now (mkRunSys (RDrain DNotify) deadline s)
        (mkRunSys (RDrain DJoin) deadline (set_pool (set_threads (wake <$> threads_ (pool_ s)) (pool_ s)) s))
  | loop_join s deadline : Forall (fun w => w = WExit) (threads_ (pool_ s)) ->
      loop_step now (mkRunSys (RDrain DJoin) deadline s)
        (mkRunSys (RDrain DDone) deadline (set_pool (set_threads [] (pool_ s)) s))
  | loop_teardown s s' io deadline : Forall (fun x => socket_answers x.1) io ->
      (length (ready_connections_ s) <= length io)%nat -> teardown io s = Some (tt, s') ->
      loop_step now (mkRunSys (RDrain DDone) deadline s) (mkRunSys RDone deadline s').

(** The event loop moves, is interrupted in [epoll_wait] or woken in
    [wait_for]; a worker moves; a thread requests the shutdown. *)
Inductive run_step (now : Z) : RunSys -> RunSys -> Prop :=
  | run_loop sys sys' : loop_step now sys sys' -> run_step now sys sys'
  | run_interrupted s deadline : running_ s = true ->
      run_step now (mkRunSys RLoop deadline s) (mkRunSys (after_wait (WaitFailed EINTR)) deadline s)
  | run_drain_wake timed_out s deadline :
      run_step now (mkRunSys (RDrain DWait) deadline s) (mkRunSys (RDrain (DWoken timed_out)) deadline s)
  | run_work pc deadline s s' : work_step s s' ->
      run_step now (mkRunSys pc deadline s) (mkRunSys pc deadline s')
  | run_request pc deadline s s' : request_shutdown s = Some (tt, s') ->
      run_step now (mkRunSys pc deadline s) (mkRunSys pc deadline s').

(** What a server started with an acceptable configuration runs through. *)
Definition run_reachable (cfg : ServerConfig) (sys : RunSys) : Prop :=
  config_typed cfg /\ config_valid cfg /\
  exists cache t0, cache_good cache /\ Spec.limits (cache_abs cache) = cache_limits cfg /\
    rtc (fun a b => exists now, run_step now a b) (mkRunSys RLoop 0 (server_init cfg cache t0)) sys.

(** ** The pool under the server *)

(** The jobs submitted between two states of the pool. *)
Definition submits : relation (WorkerPool Job) := rtc (fun p p' => exists job, try_submit p job = (true, p')).

Definition pool_submits (s s' : server) : Prop := submits (pool_ s) (pool_ s').

#[local] Instance pool_submits_preorder : PreOrder pool_submits.
Proof. split; [by intros s; apply rtc_refl | intros a b c H1 H2; unfold pool_submits, submits in *; by etransitivity]. Qed.

Lemma dispatch_submits ev (s s' : server) : dispatch ev s = Some (tt, s') -> submits (pool_ s) (pool_ s').
Proof.
  eapply (keeps_dispatch pool_submits); intros; unfold pool_submits, submits; try apply rtc_refl.
  cbn [pool_ set_pool]. destruct (try_submit (pool_ s0) job) as [[] p] eqn:E; cbn.
  - apply rtc_once. by exists job.
  - apply try_submit_false in E as ->. apply rtc_refl.
Qed.

Lemma submits_inv tc mp timeout p p' due sub tak dis fin : 0 < tc -> 0 <= mp -> submits p p' ->
  pool_inv tc mp timeout (mkPoolSys p DNone due sub tak dis fin) ->
  exists due' sub', pool_inv tc mp timeout (mkPoolSys p' DNone due' sub' tak dis fin).
Proof.
  intros Ht Hm Hs. revert due sub. induction Hs as [p|p p1 p2 [job E] _ IH]; intros due sub Hi; [by eauto|].
  eapply IH. eapply pool_step_inv; [done | done | | exact Hi]. by apply (step_submit timeout).
Qed.

Definition same_pool (s s' : server) : Prop := pool_ s' = pool_ s.

#[local] Instance same_pool_preorder : PreOrder same_pool.
Proof. split; [by intros ? | intros ???]. unfold same_pool. congruence. Qed.

Lemma handle_job_pool job now (s : server) x s' : handle_job job now s = Some (x, s') -> pool_ s' = pool_ s.
Proof. apply (keeps_handle_job same_pool); intros; by unfold same_pool. Qed.

(** A wake-up of the thread in [wait_for] is not needed to describe the pool. *)
Lemma pool_inv_unwoken tc mp timeout (p : WorkerPool Job) d notified due sub tak dis fin :
  pool_inv tc mp timeout (mkPoolSys p (wake_drain notified d) due sub tak dis fin) ->
  pool_inv tc mp timeout (mkPoolSys p d due sub tak dis fin).
Proof. destruct d, notified; try exact id; intros []; by split. Qed.

(** A step of a worker is a step of the pool. *)
Lemma work_pool_inv tc mp timeout d due sub tak dis fin (s s' : server) : 0 < tc -> 0 <= mp -> work_step s s' ->
  pool_inv tc mp timeout (mkPoolSys (pool_ s) d due sub tak dis fin) ->
  exists tak' fin', pool_inv tc mp timeout (mkPoolSys (pool_ s') d due sub tak' dis fin').
Proof.
  intros Ht Hm Hw Hi. destruct Hw as [i s s' E|i s s' E|i now s s' _ E].
  - unfold worker_take in E. destruct (threads_ (pool_ s) !! i) as [[]|] eqn:Hth; try done.
    destruct (worker_section (pool_ s)) as [[pc n] p] eqn:Es. injection E as <-.
    eexists _, fin. eapply (pool_inv_unwoken _ _ _ _ _ n). eapply pool_step_inv; [done | done | | exact Hi].
    by eapply (step_worker timeout).
  - unfold worker_wake in E. destruct (threads_ (pool_ s) !! i) as [[]|] eqn:Hth; try done. injection E as <-.
    exists tak, fin. eapply pool_step_inv; [done | done | | exact Hi]. by eapply (step_spurious timeout).
  - unfold worker_run, mbind, M_bind, get_state, modify in E. cbn beta iota in E.
    destruct (threads_ (pool_ s) !! i) as [[| |job|]|] eqn:Hth; try done.
    destruct (handle_job job now s) as [[[] s1]|] eqn:Eh; [|done]. injection E as <-.
    rewrite (handle_job_pool _ _ _ _ _ Eh). exists tak. eexists. cbn [pool_ set_pool].
    eapply pool_step_inv; [done | done | | exact Hi]. by eapply (step_finish timeout).
Qed.

(** ** The teardown *)

(** What [run] leaves behind. *)
Record stopped (s : server) : Prop := mkStopped {
  sd_table : connections_ s = ∅;
  sd_closed : map_Forall (fun _ c => closed_ c = true) (conns_ s);
  sd_active : active_connections_ (sv_stats (service_ s)) = 0;
  sd_ready : ready_connections_ s = [];
}.

(** What was done to the listening socket. *)
Definition listener_calls (s : server) : list SocketCall :=
  filter (fun k => client_call k = false) (socket_calls_ s).

Lemma listener_calls_client (s : server) k : client_call k = true ->
  listener_calls (set_socket_calls (socket_calls_ s ++ [k]) s) = listener_calls s.
Proof.
  intros Hk. unfold listener_calls. cbn. rewrite filter_app, filter_cons_False, filter_nil by congruence. apply app_nil_r.
Qed.

(** The server listens at its path, or it has taken the socket out of the
    [epoll] set, closed it and called [unlink], each of them once. *)
Definition listener_ok (path : bytes) (s : server) : Prop :=
  (listening_ s = true /\ bound_socket_path_ s = path /\ listener_calls s = []) \/
  (listening_ s = false /\ bound_socket_path_ s = [] /\
   exists unlink, listener_calls s = [SockListenDel; SockListenClose; SockUnlink path unlink]).

Lemma listener_ok_same path (s s' : server) : listening_ s' = listening_ s ->
  bound_socket_path_ s' = bound_socket_path_ s -> listener_calls s' = listener_calls s ->
  listener_ok path s -> listener_ok path s'.
Proof. unfold listener_ok. by intros -> -> ->. Qed.

Lemma listener_ok_stop path unlink (s : server) : path <> [] -> listener_ok path s ->
  listener_ok path (stopped_listening unlink s).
Proof.
  intros Hp H. right. split_and!; [done | done|]. unfold stopped_listening, listener_calls, stop_calls. cbn.
  rewrite filter_app. change (filter _ (socket_calls_ s)) with (listener_calls s).
  destruct H as [(-> & -> & ->)|(-> & -> & u & ->)]; [|by exists u].
  exists unlink. by rewrite bool_decide_eq_false_2.
Qed.

Section Listener.
Context (path : bytes) (Hpath : path <> []).
Definition listener_stays (s s' : server) : Prop := listener_ok path s -> listener_ok path s'.
#[local] Instance listener_stays_preorder : PreOrder listener_stays.
Proof. split; [by intros ? ? | intros a b c H1 H2 H; by apply H2, H1]. Qed.

Lemma server_step_listener s s' : server_step s s' -> listener_stays s s'.
Proof.
  apply (keeps_server_step listener_stays); intros; intros Hok;
    first [by apply listener_ok_stop | eapply listener_ok_same; [..|exact Hok]; try done].
  by apply listener_calls_client.
Qed.
End Listener.

(** The teardown leaves the pool, the listener and the ready list alone. *)
Record framed (s s' : server) : Prop := mkFramed {
  fr_config : config_ s' = config_ s;
  fr_pool : pool_ s' = pool_ s;
  fr_listening : listening_ s' = listening_ s;
  fr_bound : bound_socket_path_ s' = bound_socket_path_ s;
  fr_ready : ready_connections_ s' = ready_connections_ s;
  fr_calls : listener_calls s' = listener_calls s;
}.

#[local] Instance framed_preorder : PreOrder framed.
Proof. split; [by intros s; split | intros a b c [] []; split; congruence]. Qed.

Lemma drain_completions_framed io s s' : drain_completions io s = Some (tt, s') ->
  framed (set_ready_connections [] s) s'.
Proof.
  unfold drain_completions, mbind, M_bind, modify, get_state. cbn beta iota. intros E.
  eapply (keeps_complete_all framed) in E; [by destruct E | try done..].
  intros. split; try done. by apply listener_calls_client.
Qed.

Lemma wp_close_each ids s : Forall (fun id => is_Some (conns_ s !! id)) ids ->
  0 <= active_connections_ (sv_stats (service_ s)) < 2 ^ 64 ->
  wp (close_each ids) s (fun _ s' => framed s s' /\
    (forall id c, conns_ s' !! id = Some c -> closed_ c = true \/ ((id ∉ ids) /\ conns_ s !! id = Some c)) /\
    active_connections_ (sv_stats (service_ s')) = u64 (active_connections_ (sv_stats (service_ s)) - len ids)).
Proof.
  revert s. induction ids as [|id ids IH]; intros s Hall Ha; cbn [close_each].
  { apply wp_ret. split_and!; [reflexivity | | rewrite len_nil, u64_small; lia].
    intros id c Hc. right. split; [apply not_elem_of_nil | done]. }
  apply Forall_cons in Hall as [[c Hc] Hall]. apply wp_bind, (wp_get_conn id c); [done|].
  apply wp_bind, wp_put_conn, wp_bind, wp_on_stats. eapply wp_mono; [|apply IH].
  - intros _ s' ([F1 F2 F3 F4 F5 F6] & Hcl & Hact). split_and!; [by split | |].
    + intros i x Hx. destruct (Hcl i x Hx) as [|[Hni Hi]]; [by left|]. cbn in Hi.
      destruct (decide (i = id)) as [->|Hne].
      * rewrite lookup_insert_eq in Hi. injection Hi as <-. by left.
      * rewrite lookup_insert_ne in Hi by done. right. split; [|done]. by apply not_elem_of_cons.
    + rewrite Hact, len_cons. cbn. rewrite u64_sub_l. f_equal. lia.
  - eapply Forall_impl; [done|]. intros i [x Hx]. apply (extends_put s id). by eexists.
  - apply u64_range.
Qed.

Lemma wp_teardown lost s io : server_inv lost [] None s -> Forall (fun x => socket_answers x.1) io ->
  (length (ready_connections_ s) <= length io)%nat ->
  wp (teardown io) s (fun _ s' => stopped s' /\ framed (set_ready_connections [] s) s').
Proof.
  intros Hi Hio Hl. unfold teardown. apply wp_bind. pose proof (wp_drain_completions lost s io Hi Hio Hl) as Hd.
  unfold wp in Hd |- * at 1. destruct (drain_completions io s) as [[[] s1]|] eqn:E; [|done].
  apply drain_completions_framed in E. destruct Hd as [Hi1 _]. apply wp_bind, wp_get_state, wp_bind.
  assert (Hact := si_active _ _ _ _ Hi1).
  eapply wp_mono; [|apply wp_close_each].
  - intros _ s2 ([F1 F2 F3 F4 F5 F6] & Hcl & Ha). apply wp_modify. destruct E as [G1 G2 G3 G4 G5 G6]. split.
    + split; cbn; [done| | |by rewrite F5, G5].
      * intros id c Hc. destruct (Hcl id c Hc) as [|[Hni Hc1]]; [done|].
        destruct (closed_ c) eqn:Hclosed; [done|]. destruct Hni. apply list_elem_of_fmap.
        exists (fd_ c, id). split; [done|]. apply elem_of_map_to_list.
        by apply (co_open _ _ _ _ _ _ _ _ _ (si_conns _ _ _ _ Hi1 id c Hc1)).
      * rewrite Ha, Hact, u64_sub_l. unfold len. rewrite length_fmap, length_map_to_list. by rewrite Z.sub_diag.
    + split; [cbn in *; congruence..|]. exact (eq_trans F6 G6).
  - apply Forall_forall. intros id Hin. apply list_elem_of_fmap in Hin as ([fd id'] & -> & Hin).
    apply elem_of_map_to_list in Hin. destruct (si_table _ _ _ _ Hi1 fd id' Hin) as (c & Hc & _). by eexists.
  - rewrite Hact. apply u64_range.
Qed.

(** ** The invariant of a run *)

Definition in_loop (pc : RunPc) : bool := match pc with RLoop | RBatch _ | RStop => true | _ => false end.

(** Where [drain_and_stop] stands. *)
Definition drain_of (pc : RunPc) : DrainPc := match pc with RDrain d => d | RDone => DDone | _ => DNone end.

Record run_inv (cfg : ServerConfig) (sys : RunSys) : Prop := mkRunInv {
  ri_config : config_ (rn_server sys) = cfg;
  ri_loop : in_loop (rn_pc sys) = true -> server_reachable cfg (rn_server sys);
  ri_deaf : in_loop (rn_pc sys) = false ->
    listening_ (rn_server sys) = false /\ bound_socket_path_ (rn_server sys) = [];
  (* the state of the pool, and the jobs discarded from it *)
  ri_pool : exists due sub tak dis fin,
    pool_inv (worker_threads cfg) (max_pending_requests cfg) (shutdown_drain_ms cfg)
      (mkPoolSys (pool_ (rn_server sys)) (drain_of (rn_pc sys)) due sub tak dis fin) /\
    (rn_pc sys <> RDone -> server_inv dis [] None (rn_server sys));
  ri_stopped : rn_pc sys = RDone -> stopped (rn_server sys);
  ri_listener : listener_ok (socket_path cfg) (rn_server sys);
}.

(** Jobs leave the pool without being executed. *)
Lemma inv_discard lost s p' discarded : server_inv lost [] None s ->
  pool_jobs (pool_ s) ≡ₚ discarded ++ pool_jobs p' -> server_inv (lost ++ discarded) [] None (set_pool p' s).
Proof.
  intros [Hco Hta Hpe Hjo Hwa Hac Hma Hcf Hca Hid] Hperm. split; cbn [config_ service_ pool_ conns_
    connections_ next_connection_id_ ready_connections_ completion_fd_ draining_ set_pool]; try done.
  - intros i x Hx. destruct (Hco i x Hx) as [? ? ? ? Hin ? ? ? ?]. split; try done.
    rewrite Hin, (job_count_perm _ _ _ Hperm), !job_count_app. lia.
  - rewrite Hperm in Hjo. by apply Forall_app in Hjo as [_ ?].
Qed.

(** While jobs are accepted none was discarded. *)
Lemma pool_inv_kept tc mp timeout (p : WorkerPool Job) due sub tak dis fin :
  pool_inv tc mp timeout (mkPoolSys p DNone due sub tak dis fin) -> dis = [].
Proof.
  intros Hi. destruct dis as [|j dis]; [done|].
  destruct (pi_flags _ _ _ _ Hi) as [Ha _]. destruct (pi_discard _ _ _ _ Hi) as [Ha' _]; [done|]. cbn in *. congruence.
Qed.

Lemma config_pool cfg : config_valid cfg -> 0 < worker_threads cfg /\ 0 <= max_pending_requests cfg.
Proof. intros Hv. pose proof (cv_workers _ Hv). pose proof (cv_pending _ Hv). lia. Qed.

Lemma config_path cfg : config_valid cfg -> socket_path cfg <> [].
Proof. intros Hv E. pose proof (cv_path _ Hv) as Hp. rewrite E in Hp. by destruct Hp. Qed.

Lemma reachable_step cfg (s s' : server) : server_reachable cfg s -> server_step s s' -> server_reachable cfg s'.
Proof.
  intros (? & ? & cache & now & ? & ? & ?) Hs. split_and!; try done. exists cache, now. split_and!; try done.
  by eapply rtc_r.
Qed.

(** A step of the loop proper, which submits jobs to the pool at most. *)
Lemma run_inv_loop cfg pc pc' dl dl' s s' : config_valid cfg ->
  in_loop pc = true -> in_loop pc' = true -> run_inv cfg (mkRunSys pc dl s) ->
  server_step s s' \/ s' = s -> submits (pool_ s) (pool_ s') -> run_inv cfg (mkRunSys pc' dl' s').
Proof.
  intros Hv Hpc Hpc' [Hc Hl _ (due & sub & tak & dis & fin & Hp & _) _ Hls] Hs Hsub. cbn in *.
  specialize (Hl Hpc). destruct (config_pool cfg Hv) as [Ht Hm].
  assert (Hr : server_reachable cfg s') by (destruct Hs as [Hs| ->]; [by eapply reachable_step | done]).
  destruct (started_inv _ _ Hr) as [Hi Hc'].
  assert (E : drain_of pc = DNone /\ drain_of pc' = DNone /\ pc' <> RDone) by (by destruct pc, pc').
  destruct E as (E & E' & Hnd). rewrite E in Hp. pose proof (pool_inv_kept _ _ _ _ _ _ _ _ _ Hp) as ->.
  destruct (submits_inv _ _ _ _ _ _ _ _ _ _ Ht Hm Hsub Hp) as (due' & sub' & Hp').
  split; cbn; try done; [by rewrite Hpc' | |].
  - exists due', sub', tak, [], fin. by rewrite E'.
  - destruct Hs as [Hs| ->]; [|done]. by apply (server_step_listener _ (config_path cfg Hv) s).
Qed.

(** A step of [drain_and_stop]. *)
Lemma run_inv_drain cfg d d' dl s p' discarded : config_valid cfg -> run_inv cfg (mkRunSys (RDrain d) dl s) ->
  (forall due sub tak dis fin, pool_step (shutdown_drain_ms cfg) (mkPoolSys (pool_ s) d due sub tak dis fin)
     (mkPoolSys p' d' due sub tak (dis ++ discarded) fin)) ->
  pool_jobs (pool_ s) ≡ₚ discarded ++ pool_jobs p' -> run_inv cfg (mkRunSys (RDrain d') dl (set_pool p' s)).
Proof.
  intros Hv [Hc _ Hd (due & sub & tak & dis & fin & Hp & Hi) _ Hls] Hstep Hjobs. cbn in *.
  destruct (config_pool cfg Hv) as [Ht Hm]. split; cbn; try done.
  exists due, sub, tak, (dis ++ discarded), fin. split; [by eapply pool_step_inv|].
  intros _. by apply inv_discard; [apply Hi|].
Qed.

Lemma drain_enter_jobs (p p' : WorkerPool Job) timeout d : drain_enter p timeout = (d, p') -> pool_jobs p' = pool_jobs p.
Proof. unfold drain_enter. repeat split_if; by intros [= _ <-]. Qed.

Lemma drain_resume_jobs (p p' : WorkerPool Job) timed_out d : drain_resume p timed_out = (d, p') ->
  pool_jobs p ≡ₚ take (length (queue_ p) - length (queue_ p')) (queue_ p) ++ pool_jobs p'.
Proof.
  unfold drain_resume, pool_jobs. repeat split_if; intros [= _ <-]; cbn [queue_ threads_ set_stopping set_queue].
  - by rewrite Nat.sub_diag.
  - by rewrite Nat.sub_0_r, take_ge.
  - by rewrite Nat.sub_diag.
Qed.

(** Workers leave the configuration and the listener alone. *)
Definition same_listener (s s' : server) : Prop :=
  config_ s' = config_ s /\ listening_ s' = listening_ s /\ bound_socket_path_ s' = bound_socket_path_ s.

#[local] Instance same_listener_preorder : PreOrder same_listener.
Proof. split; [by intros ? | intros ??? (?&?&?) (?&?&?)]. split_and!; congruence. Qed.

Lemma work_step_listener s s' : work_step s s' -> same_listener s s'.
Proof. intros E. eapply (keeps_work_step same_listener); [..|exact E]; done. Qed.

(** Without threads no worker moves. *)
Lemma work_step_threads (s s' : server) : work_step s s' -> threads_ (pool_ s) <> [].
Proof.
  intros [i ? ? E|i ? ? E|i now ? ? _ E] H; revert E;
    [unfold worker_take | unfold worker_wake | unfold worker_run, mbind, M_bind, get_state; cbn beta iota]; by rewrite H.
Qed.

Lemma run_inv_work cfg pc dl s s' : config_valid cfg -> run_inv cfg (mkRunSys pc dl s) -> work_step s s' ->
  run_inv cfg (mkRunSys pc dl s').
Proof.
  intros Hv [Hc Hl Hd (due & sub & tak & dis & fin & Hp & Hi) Hst Hls] Hw. cbn in *.
  destruct (config_pool cfg Hv) as [Ht Hm]. destruct (work_step_listener _ _ Hw) as (Ec & El & Eb).
  destruct (work_pool_inv _ _ _ _ _ _ _ _ _ _ _ Ht Hm Hw Hp) as (tak' & fin' & Hp').
  assert (Hnd : pc <> RDone).
  { intros ->. destruct (pi_threads _ _ _ _ Hp) as [E _]. by apply (work_step_threads _ _ Hw). }
  split; cbn; try done; [congruence | | | |].
  - intros Hpc. eapply reachable_step; [by apply Hl | by apply step_work].
  - by rewrite El, Eb.
  - exists due, sub, tak', dis, fin'. split; [done|]. intros _. by eapply work_step_inv; [|apply Hi].
  - apply (server_step_listener _ (config_path cfg Hv) s); [by apply step_work | done].
Qed.

Lemma run_inv_request cfg pc dl s s' : config_valid cfg -> run_inv cfg (mkRunSys pc dl s) ->
  request_shutdown s = Some (tt, s') -> run_inv cfg (mkRunSys pc dl s').
Proof.
  intros Hv [Hc Hl Hd (due & sub & tak & dis & fin & Hp & Hi) Hst Hls] E. pose proof E as Er. injection E as <-. cbn in *.
  split; cbn; try done.
  - intros Hpc. eapply reachable_step; [by apply Hl | by apply step_request].
  - exists due, sub, tak, dis, fin. split; [done|]. intros Hn. specialize (Hi Hn). destruct Hi. by split.
  - intros ->. destruct (Hst eq_refl). by split.
Qed.

Lemma loop_step_inv cfg now sys sys' : config_valid cfg -> loop_step now sys sys' -> run_inv cfg sys -> run_inv cfg sys'.
Proof.
  intros Hv Hstep Hi. destruct Hstep as [s dl r Hr Hw Hne|ev l s s' dl Hm Hev E|s s' dl E|s dl Hr|s s' unlink dl E
    |s d p dl E|s d p timed_out dl E|s dl|s dl Hx|s s' io dl Hio Hlen E].
  - eapply run_inv_loop; [done | | | exact Hi | by right | apply rtc_refl]; [done|].
    destruct r as [l|errno]; [done|]. cbn. by destruct (errno =? EINTR).
  - eapply run_inv_loop; [done | | | exact Hi | left; by eapply step_event | by eapply dispatch_submits]; done.
  - unfold end_turn, mbind, M_bind, get_state, modify in E. cbn beta iota in E.
    destruct (draining_ s) eqn:Hd; cbn [andb] in E; [|injection E as <-].
    + destruct (_ || _); injection E as <-;
        (eapply run_inv_loop; [done | | | exact Hi | | apply rtc_refl]; [done | done |]); [left; by apply step_leave | by right].
    + eapply run_inv_loop; [done | | | exact Hi | by right | apply rtc_refl]; done.
  - eapply run_inv_loop; [done | | | exact Hi | by right | apply rtc_refl]; done.
  - rewrite stop_listening_eq in E. injection E as <-.
    destruct Hi as [Hc _ _ (due & sub & tak & dis & fin & Hp & Hi) _ Hls]. cbn in *. split; cbn; try done.
    + exists due, sub, tak, dis, fin. split; [done|]. intros _. destruct (Hi ltac:(done)). by split.
    + apply listener_ok_stop; [by apply config_path | done].
  - eapply (run_inv_drain _ _ _ _ _ _ []); [done | exact Hi | |by rewrite (drain_enter_jobs _ _ _ _ E)].
    intros. rewrite app_nil_r. apply step_drain; [by left|]. by rewrite <- (ri_config _ _ Hi).
  - eapply run_inv_drain; [done | exact Hi | | by eapply drain_resume_jobs].
    intros. by apply step_drain_resume.
  - eapply (run_inv_drain _ _ _ _ _ _ []); [done | exact Hi | |].
    + intros. rewrite app_nil_r. apply step_notify_all.
    + unfold pool_jobs. cbn [app queue_ threads_ set_threads]. by rewrite running_wake.
  - eapply (run_inv_drain _ _ _ _ _ _ []); [done | exact Hi | |].
    + intros. rewrite app_nil_r. by apply step_join.
    + unfold pool_jobs. cbn [app queue_ threads_ set_threads]. by rewrite (running_exited _ Hx).
  - destruct Hi as [Hc _ Hd (due & sub & tak & dis & fin & Hp & Hi) _ Hls]. cbn [rn_server rn_pc drain_of] in *.
    pose proof (wp_teardown dis s io (Hi ltac:(done)) Hio Hlen) as Ht. unfold wp in Ht. rewrite E in Ht.
    destruct Ht as [Hst [F1 F2 F3 F4 _ F6]].
    split; cbn [rn_server rn_pc drain_of]; try done; [by rewrite F1 | by rewrite F3, F4 | |].
    + exists due, sub, tak, dis, fin. by rewrite F2.
    + by eapply listener_ok_same; [..|exact Hls].
Qed.

Lemma run_step_inv cfg now sys sys' : config_valid cfg -> run_step now sys sys' -> run_inv cfg sys -> run_inv cfg sys'.
Proof.
  intros Hv [? ? Hs|s dl Hr|timed_out s dl|pc dl s s' Hw|pc dl s s' E] Hi.
  - by eapply loop_step_inv.
  - done.
  - destruct Hi as [Hc _ Hd (due & sub & tak & dis & fin & Hp & Hi) _ Hls]. cbn in *. destruct (config_pool cfg Hv) as [Ht Hm].
    split; cbn; try done. exists due, sub, tak, dis, fin. split; [|intros _; by apply Hi].
    eapply pool_step_inv; [done | done | | exact Hp]. apply step_drain_wake.
  - by eapply run_inv_work.
  - by eapply run_inv_request.
Qed.

Lemma run_reachable_inv cfg sys : run_reachable cfg sys -> run_inv cfg sys.
Proof.
  intros (Ht & Hv & cache & t0 & Hg & Hl & Hr). revert sys Hr. refine (rtc_ind_r _ _ _ _).
  - assert (Hr : server_reachable cfg (server_init cfg cache t0)).
    { split_and!; try done. exists cache, t0. split_and!; [done | done | apply rtc_refl]. }
    split; cbn; try done; [|by left]. exists 0%nat, [], [], [], []. split.
    + destruct (config_pool cfg Hv). by apply pool_init_inv.
    + intros _. by destruct (started_inv _ _ Hr).
  - intros a b _ [now Hs] IH. by eapply run_step_inv.
Qed.

(** ** Termination *)

(** How many steps the event loop takes, at most, before it is behind the loop. *)
Definition loop_left (sys : RunSys) : nat :=
  match rn_pc sys with
  | RLoop => if running_ (rn_server sys) then 259 else 1
  | RBatch l => 2 + length l
  | _ => 0
  end.

(** A handler for an event, whatever was reported: the kernel says [EAGAIN]. *)
Definition quiet_event (r : Ready) (s : server) : Event :=
  match r with
  | RdListen => EvListen [(AcceptFailed EAGAIN, true)]
  | RdCompletion => EvCompletion (replicate (length (ready_connections_ s)) (would_block, true))
  | RdShutdown => EvShutdown (fun _ => true) Success
  | RdSignal => EvSignal
  | RdConnection fd events => EvConnection fd events (mkEventIo would_block (RecvFailed EAGAIN) would_block true)
  end.

Lemma quiet_event_ok r s : ready_of (quiet_event r s) = r /\ event_ok (quiet_event r s) s.
Proof.
  split; [by destruct r|]. destruct r; cbn; try done.
  - by intros _ [E|E].
  - split; [|by rewrite length_replicate]. apply Forall_replicate, would_block_ok.
  - split; cbn; [apply would_block_ok | done | apply would_block_ok].
Qed.

Lemma end_turn_late now deadline s : draining_ s = true -> deadline <= now ->
  end_turn now deadline s = Some (tt, set_running false s).
Proof.
  intros Hd Hn. unfold end_turn, mbind, M_bind, get_state, modify. cbn beta iota.
  by rewrite Hd, (proj2 (Z.leb_le _ _) Hn), orb_true_r.
Qed.

Lemma loop_progress cfg now sys : run_inv cfg sys -> in_loop (rn_pc sys) = true -> memory_ok (rn_server sys) ->
  draining_ (rn_server sys) = true -> exists sys', loop_step now sys sys'.
Proof.
  intros Hi Hl Hm Hd. destruct sys as [pc dl s]. cbn in *. destruct pc as [|[|r l]| | |]; try done.
  - destruct (running_ s) eqn:Hr; [|eexists; by apply loop_leave].
    eexists. apply (loop_wait _ _ _ (Events [])); [done | | done]. by rewrite Hd.
  - eexists. apply loop_turn. unfold end_turn, mbind, M_bind, get_state, modify. cbn beta iota. rewrite Hd. cbn [andb].
    instantiate (1 := if drain_complete s || (dl <=? now) then set_running false s else s). by destruct (_ || _).
  - destruct (quiet_event_ok r s) as [Er Hev]. destruct (started_inv _ _ (ri_loop _ _ Hi eq_refl)) as [Hsi _]. cbn in *.
    pose proof (wp_dispatch (quiet_event r s) s Hsi Hm Hev) as Hw. unfold wp in Hw.
    destruct (dispatch _ s) as [[[] s']|] eqn:E; [|done]. eexists. rewrite <- Er at 1. by eapply loop_event.
  - eexists. eapply (loop_stop _ _ _ Success), stop_listening_eq.
Qed.

(** The mode in which the server drains. *)
Lemma draining_stays cfg s ev s' : server_reachable cfg s -> draining_ s = true ->
  dispatch ev s = Some (tt, s') -> draining_ s' = true.
Proof.
  intros Hr Hd E. destruct (quiet_dispatch ev s s' Hd (started_deaf _ _ Hr Hd) E). congruence.
Qed.

Lemma loop_step_left cfg now sys sys' : run_inv cfg sys -> loop_step now sys sys' ->
  draining_ (rn_server sys) = true -> rn_deadline sys <= now -> in_loop (rn_pc sys) = true -> rn_pc sys <> RStop ->
  (loop_left sys' < loop_left sys)%nat /\ draining_ (rn_server sys') = true /\ rn_deadline sys' = rn_deadline sys.
Proof.
  intros Hi Hs Hd Hdl Hl Hns. destruct Hs as [s dl r Hr Hw Hne|ev l s s' dl Hm Hev E|s s' dl E|s dl Hr| | | | | |];
    try done; cbn in *.
  - split; [|done]. unfold loop_left. cbn. rewrite Hr. destruct r as [l|errno]; cbn.
    + destruct Hw as [Hw _]. unfold len, kMaxEvents in Hw. lia.
    + destruct (Z.eqb_spec errno EINTR) as [->|]; [done | lia].
  - split; [unfold loop_left; cbn; lia|]. split; [by eapply draining_stays; [apply Hi|..]|].
    destruct ev; try done. cbn. by rewrite Hd.
  - rewrite end_turn_late in E by done. injection E as <-. split; [unfold loop_left; cbn; lia | done].
  - split; [unfold loop_left; cbn; rewrite Hr; lia | done].
Qed.

(** Workers do not touch the modes of the loop. *)
Definition same_loop (s s' : server) : Prop := draining_ s' = draining_ s /\ running_ s' = running_ s.

#[local] Instance same_loop_preorder : PreOrder same_loop.
Proof. split; [by intros ? | intros ??? [] []]. split; congruence. Qed.

Lemma work_step_loop s s' : work_step s s' -> same_loop s s'.
Proof. intros E. eapply (keeps_work_step same_loop); [..|exact E]; done. Qed.

(** How much of the teardown is left once [stopping_] is set. *)
Definition teardown_left (sys : RunSys) : nat :=
  2 * length (queue_ (pool_ (rn_server sys))) + sum_list (thread_effort <$> threads_ (pool_ (rn_server sys))) +
  match rn_pc sys with RDrain DNotify => 3 | RDrain DJoin => 2 | RDrain DDone => 1 | _ => 0 end.

(** A step of a worker of a stopping pool. *)
Lemma work_step_effort s s' : stopping_ (pool_ s) = true -> work_step s s' ->
  (2 * length (queue_ (pool_ s')) + sum_list (thread_effort <$> threads_ (pool_ s')) <
   2 * length (queue_ (pool_ s)) + sum_list (thread_effort <$> threads_ (pool_ s)))%nat.
Proof.
  intros Hst Hw. revert Hst. destruct Hw as [i s0 s' E|i s0 s' E|i now s0 s' _ E]; intros Hst.
  - unfold worker_take in E. destruct (threads_ (pool_ s0) !! i) as [[]|] eqn:Hth; try done.
    destruct (worker_section (pool_ s0)) as [[pc n] p] eqn:Es. injection E as <-. cbn.
    pose proof (threads_effort_insert _ _ _ pc Hth) as He. cbn in He.
    destruct (worker_section_cases (pool_ s0)) as [(Ec & Hq & Hs')|[(Ec & Hq & Hs')|(job & rest & Hq & Ec)]];
      [congruence|..]; rewrite Ec in Es; injection Es as <- <- <-; rewrite ?Hq; cbn in *; lia.
  - unfold worker_wake in E. destruct (threads_ (pool_ s0) !! i) as [[]|] eqn:Hth; try done. injection E as <-. cbn.
    pose proof (threads_effort_insert _ _ _ WCheck Hth) as He. cbn in He. lia.
  - unfold worker_run, mbind, M_bind, get_state, modify in E. cbn beta iota in E.
    destruct (threads_ (pool_ s0) !! i) as [[| |job|]|] eqn:Hth; try done.
    destruct (handle_job job now s0) as [[[] s1]|] eqn:Eh; [|done]. injection E as <-. cbn.
    rewrite (handle_job_pool _ _ _ _ _ Eh). pose proof (threads_effort_insert _ _ _ WCheck Hth) as He. cbn in He. lia.
Qed.

Definition stopping_pc (pc : RunPc) : bool :=
  match pc with RDrain DNotify | RDrain DJoin | RDrain DDone => true | _ => false end.

Lemma run_inv_stopping cfg sys : run_inv cfg sys -> stopping_pc (rn_pc sys) = true ->
  stopping_ (pool_ (rn_server sys)) = true.
Proof.
  intros [_ _ _ (due & sub & tak & dis & fin & Hp & _) _ _] Hpc. pose proof (pi_flags _ _ _ _ Hp) as Hf. cbn in Hf.
  destruct (rn_pc sys) as [| | |[]|]; try done; apply Hf.
Qed.

(** A step for which no wake-up is needed: of the event loop, or of a worker
    that does not wait on the condition variable. *)
Inductive unprompted (now : Z) : RunSys -> RunSys -> Prop :=
  | unprompted_loop sys sys' : loop_step now sys sys' -> unprompted now sys sys'
  | unprompted_take i pc deadline s s' : worker_take i s = Some (tt, s') ->
      unprompted now (mkRunSys pc deadline s) (mkRunSys pc deadline s')
  | unprompted_run i t pc deadline s s' : memory_ok s -> worker_run i t s = Some (tt, s') ->
      unprompted now (mkRunSys pc deadline s) (mkRunSys pc deadline s').

Lemma unprompted_step now sys sys' : unprompted now sys sys' -> run_step now sys sys'.
Proof.
  intros [? ? H|i ? ? ? ? E|i t ? ? ? ? Hm E]; [by apply run_loop | |]; apply run_work;
    [by eapply work_take | by eapply work_run].
Qed.

(** A worker that neither waits nor has returned can move. *)
Lemma worker_progress lost now pc dl s i w : server_inv lost [] None s -> memory_ok s ->
  threads_ (pool_ s) !! i = Some w -> w <> WExit -> w <> WWait ->
  exists s', work_step s s' /\ unprompted now (mkRunSys pc dl s) (mkRunSys pc dl s').
Proof.
  intros Hi Hm Hth Hne Hnw. destruct w as [| |job|]; [|done| |done].
  - destruct (worker_section (pool_ s)) as [[p' n] p] eqn:E. eexists.
    assert (Et : worker_take i s = Some (tt, set_pool (set_threads (<[i := p']> (threads_ p)) p) s))
      by (unfold worker_take; by rewrite Hth, E).
    split; [by eapply (work_take i) | by eapply (unprompted_take _ i)].
  - assert (Hw : wp (worker_run i 0) s (fun _ _ => True)).
    { eapply wp_mono; [|eapply wp_worker_run; [done..|]]; [done|]. intros c Hc. specialize (Hm _ c Hc). cbn in Hm.
      pose proof (len_nonneg (unread c)). unfold kMaxFrameBytes, kHeaderSize, kMaxKeyBytes, kMaxValueBytes. lia. }
    unfold wp in Hw. destruct (worker_run i 0 s) as [[[] s']|] eqn:E; [|done]. exists s'.
    split; [by eapply work_run | by eapply unprompted_run].
Qed.

Lemma teardown_step_left cfg now sys sys' : run_inv cfg sys -> stopping_pc (rn_pc sys) = true -> run_step now sys sys' ->
  (teardown_left sys' < teardown_left sys)%nat \/
  (rn_pc sys' = rn_pc sys /\ request_shutdown (rn_server sys) = Some (tt, rn_server sys')).
Proof.
  intros Hi Hpc Hs. pose proof (run_inv_stopping _ _ Hi Hpc) as Hst.
  destruct Hs as [sys sys' Hs|s dl Hr|timed_out s dl|pc dl s s' Hw|pc dl s s' E]; try done.
  - left. destruct Hs as [| | | | | |s d p timed_out dl E|s dl|s dl Hx|s s' io dl Hio Hlen E]; try done; unfold teardown_left; cbn.
    + pose proof (threads_effort_wake (threads_ (pool_ s))). lia.
    + lia.
    + destruct Hi as [_ _ _ (due & sub & tak & dis & fin & Hp & Hi) _ _]. cbn in *.
      pose proof (wp_teardown dis s io (Hi ltac:(done)) Hio Hlen) as Ht. unfold wp in Ht. rewrite E in Ht.
      destruct Ht as [_ [_ F2 _ _ _ _]]. cbn in F2. rewrite F2. lia.
  - left. unfold teardown_left. cbn. pose proof (work_step_effort s s' Hst Hw). lia.
  - right. by split.
Qed.

Lemma teardown_progress cfg now sys : run_inv cfg sys -> memory_ok (rn_server sys) -> stopping_pc (rn_pc sys) = true ->
  exists sys', unprompted now sys sys' /\ (teardown_left sys' < teardown_left sys)%nat.
Proof.
  intros Hi Hm Hpc.
  assert (H : exists sys', unprompted now sys sys' /\ (rn_pc sys' <> rn_pc sys \/ work_step (rn_server sys) (rn_server sys'))).
  { pose proof Hi as Hi'. destruct Hi' as [_ _ _ (due & sub & tak & dis & fin & Hp & Hsi) _ _].
    destruct sys as [pc dl s]. cbn in *. destruct pc as [| | |[]|]; try done.
    - eexists. split; [apply unprompted_loop, loop_notify_all | by left].
    - destruct (all_exited_or (threads_ (pool_ s))) as [Hall|(i & w & Hth & Hne)].
      + eexists. split; [by apply unprompted_loop, loop_join | by left].
      + assert (Hnw : w <> WWait).
        { intros ->. apply (pi_woken _ _ _ _ Hp). by eapply list_elem_of_lookup_2. }
        destruct (worker_progress dis now (RDrain DJoin) dl s i w (Hsi ltac:(done)) Hm Hth Hne Hnw) as (s' & Hw & Hu).
        eexists. split; [exact Hu | by right].
    - assert (Hio : Forall (fun x => socket_answers x.1) (replicate (length (ready_connections_ s)) (would_block, true)))
        by apply Forall_replicate, would_block_ok.
      assert (Hlen : (length (ready_connections_ s) <= length (replicate (length (ready_connections_ s)) (would_block, true)))%nat)
        by (by rewrite length_replicate).
      pose proof (wp_teardown dis s _ (Hsi ltac:(done)) Hio Hlen) as Ht. unfold wp in Ht.
      destruct (teardown _ s) as [[[] s']|] eqn:E; [|done].
      eexists. split; [by eapply unprompted_loop, loop_teardown | by left]. }
  destruct H as (sys' & Hs & Hne). exists sys'. split; [done|].
  destruct (teardown_step_left _ _ _ _ Hi Hpc (unprompted_step _ _ _ Hs)) as [|[Epc Er]]; [done|].
  destruct Hne as [|Hw]; [done|]. pose proof (work_step_effort _ _ (run_inv_stopping _ _ Hi Hpc) Hw) as He.
  injection Er as Er. rewrite <- Er in He. cbn in He. lia.
Qed.

(** ** Properties *)

(** C35: the counters of the server are the sizes they stand for, in every
    state of a run.  The gauge of active connections is the size of the table,
    which holds the open connections under their descriptors and never more
    than [max_connections].  A connection's [inflight_] is the number of jobs
    pending for it, plus those [drain_and_stop] has discarded, of which there
    are none unless a drain with a timeout has emptied the queue, and at most
    [max_inflight_per_conn]; its
    [pending_output_bytes_] is the length of its unsent output, as long as that
    is a [size_t]; its positions lie within its buffers; its id was given out. *)
Theorem run_counts cfg sys : run_reachable cfg sys ->
  let s := rn_server sys in
  active_connections_ (sv_stats (service_ s)) = Z.of_nat (base.size (connections_ s)) /\
  Z.of_nat (base.size (connections_ s)) <= max_connections cfg /\
  (rn_pc sys <> RDone ->
   (forall fd id, connections_ s !! fd = Some id <->
      exists c, conns_ s !! id = Some c /\ closed_ c = false /\ fd_ c = fd) /\
   exists discarded, (in_loop (rn_pc sys) = true -> discarded = []) /\
   (discarded <> [] -> accepting_ (pool_ s) = false /\ queue_ (pool_ s) = [] /\ 0 < shutdown_drain_ms cfg) /\
   map_Forall (fun id c => id < next_connection_id_ s /\
     inflight_ c = job_count id (pool_jobs (pool_ s) ++ discarded) /\ inflight_ c <= max_inflight_per_conn cfg /\
     (len (backlog c) < 2 ^ 64 -> pending_output_bytes_ c = len (backlog c)) /\
     0 <= in_pos_ c <= len (in_buf_ c) /\ 0 <= write_pos_ c <= len (write_buf_ c)) (conns_ s)).
Proof.
  intros Hr. pose proof Hr as (Hty & Hv & _).
  destruct (run_reachable_inv cfg sys Hr) as [Hc _ _ (due & sub & tak & dis & fin & Hp & Hi) Hst _].
  assert (rn_pc sys = RDone \/ rn_pc sys <> RDone) as [Hpc|Hpc] by (destruct (rn_pc sys); auto); cbv zeta.
  - destruct (Hst Hpc) as [Ht _ Ha _]. rewrite Ht, Ha, map_size_empty. pose proof (cv_connections _ Hv).
    split_and!; [done | lia | done].
  - specialize (Hi Hpc). pose proof (si_max _ _ _ _ Hi) as Hmax. rewrite Hc in Hmax. pose proof (ct_connections _ Hty).
    split_and!; [rewrite (si_active _ _ _ _ Hi); apply u64_small; lia | done | intros _; split].
    + intros fd id. split.
      * intros E. destruct (si_table _ _ _ _ Hi fd id E) as (c & Hcc & Hfd). exists c. split_and!; [done | | done].
        apply (co_open _ _ _ _ _ _ _ _ _ (si_conns _ _ _ _ Hi id c Hcc)). by rewrite Hfd.
      * intros (c & Hcc & Hcl & <-). by apply (co_open _ _ _ _ _ _ _ _ _ (si_conns _ _ _ _ Hi id c Hcc)).
    + exists dis. split_and!.
      { intros Hl. assert (E : drain_of (rn_pc sys) = DNone) by (by destruct (rn_pc sys)).
        rewrite E in Hp. by eapply pool_inv_kept. }
      { intros Hne. destruct (pi_discard _ _ _ _ Hp Hne) as [Ha Hq]. split_and!; [done | done|].
        destruct (Z.lt_ge_cases 0 (shutdown_drain_ms cfg)) as [|Hle]; [done|].
        by destruct (pi_timeout _ _ _ _ Hp Hle) as [E _]. }
      intros id c Hcc. pose proof (si_conns _ _ _ _ Hi id c Hcc) as Hok.
      pose proof (co_inflight_max _ _ _ _ _ _ _ _ _ Hok) as Hm. rewrite Hc in Hm.
      destruct (co_out _ _ _ _ _ _ _ _ _ Hok) as [[Hwp _] Hcnt _].
      split_and!; [apply (si_ids _ _ _ _ Hi); by eexists | | exact Hm | | |..]; try apply Hwp;
        try apply (wf_in_pos _ (co_in _ _ _ _ _ _ _ _ _ Hok)).
      * by rewrite job_count_app, (co_inflight _ _ _ _ _ _ _ _ _ Hok).
      * intros Hlt. unfold counted in Hcnt. rewrite Hcnt. apply u64_small. pose proof (len_nonneg (backlog c)). lia.
Qed.

(** C15: when [run] returns, the server is shut down for good: every connection
    ever accepted is closed, the table is empty and the statistics count no
    active connection, no thread is left, no job is queued and no connection
    waits for the event loop, and the destructor of the pool finds nothing left
    to do.  The listening socket was taken out of the [epoll] set, closed, and
    its path passed to [unlink], in that order and each once in the whole run,
    however often [stop_listening] was called; whether that [unlink] succeeded
    makes no difference to the server. *)
Theorem run_teardown_clean cfg sys : run_reachable cfg sys -> rn_pc sys = RDone ->
  let s := rn_server sys in
  connections_ s = ∅ /\ map_Forall (fun _ c => closed_ c = true) (conns_ s) /\
  active_connections_ (sv_stats (service_ s)) = 0 /\ threads_ (pool_ s) = [] /\ queue_ (pool_ s) = [] /\
  ready_connections_ s = [] /\ listening_ s = false /\ bound_socket_path_ s = [] /\
  (exists unlink, listener_calls s = [SockListenDel; SockListenClose; SockUnlink (socket_path cfg) unlink]) /\
  destroy_pool (pool_ s) = (DDone, pool_ s).
Proof.
  intros Hr Hpc. destruct (run_reachable_inv cfg sys Hr) as [_ _ Hd (due & sub & tak & dis & fin & Hp & _) Hst Hls].
  rewrite Hpc in *. destruct (Hst eq_refl), (Hd eq_refl), (pi_threads _ _ _ _ Hp), (pi_flags _ _ _ _ Hp) as [Ha Hs].
  cbn in Ha, Hs. destruct Hls as [(E & _)|(_ & _ & Hu)]; [congruence|].
  split_and!; try done. unfold destroy_pool, drain_enter. by rewrite Ha, Hs.
Qed.


(** C32: the teardown ends, and the workers are not left asleep.  Once
    [drain_and_stop] has told the workers to stop, until [run] returns, the
    event loop or a worker that does not wait on its condition variable can
    always move, so that no further notification and no spurious wake-up is
    needed, and that step uses up some of what is left; so does every other
    step of the process, except one more request to shut down, which changes
    nothing but the counter of its descriptor. *)
Theorem run_teardown_ends cfg now sys : run_reachable cfg sys -> stopping_pc (rn_pc sys) = true ->
  memory_ok (rn_server sys) ->
  (exists sys', unprompted now sys sys' /\ (teardown_left sys' < teardown_left sys)%nat) /\
  (forall sys', run_step now sys sys' -> (teardown_left sys' < teardown_left sys)%nat \/
     (rn_pc sys' = rn_pc sys /\ request_shutdown (rn_server sys) = Some (tt, rn_server sys'))).
Proof.
  intros Hr Hpc Hm. pose proof (run_reachable_inv cfg sys Hr) as Hi. split.
  - by eapply teardown_progress.
  - intros sys' Hs. by eapply teardown_step_left.
Qed.
End Run.

(** ** A run from start to end *)

(** A client connects and a shutdown is requested; both are reported at once. *)
Definition down1 : @Server LruCache := after (dispatch ev_shutdown) run1.
Definition down2 : @Server LruCache := set_running false down1.
Definition down3 : @Server LruCache := after (stop_listening Success) down2.
Definition down4 : @Server LruCache := set_pool (drain_enter (pool_ down3) 2000).2 down3.
Definition down5 : @Server LruCache := set_pool (set_threads (wake <$> threads_ (pool_ down4)) (pool_ down4)) down4.
Definition down6 : @Server LruCache := after (worker_take 0) down5.
Definition down7 : @Server LruCache := set_pool (set_threads [] (pool_ down6)) down6.
Definition down8 : @Server LruCache := after (teardown []) down7.

Definition at_pc (pc : RunPc) (s : @Server LruCache) : RunSys := mkRunSys pc 2000000007 s.

(** The runs of that server. *)
Definition narrow_run : @RunSys LruCache -> Prop := rtc (fun a b => exists now, run_step now a b) (mkRunSys RLoop 0 run0).

Lemma narrow_step (sys sys' : @RunSys LruCache) now : narrow_run sys -> run_step now sys sys' -> narrow_run sys'.
Proof. intros Hr Hs. eapply rtc_r; [exact Hr | by exists now]. Qed.

Lemma narrow_run_reachable sys : narrow_run sys -> run_reachable narrow_config sys.
Proof.
  intros Hr. split; [apply narrow_typed|]. split; [apply narrow_valid|]. exists narrow_cache, 0.
  split; [apply narrow_good|]. split; [apply narrow_good | exact Hr].
Qed.

Lemma shutdown_run : narrow_run (at_pc (RBatch []) down1).
Proof.
  assert (H0 : narrow_run (mkRunSys RLoop 0 run0)) by apply rtc_refl.
  assert (H1 : narrow_run (mkRunSys (RBatch [RdListen; RdShutdown]) 0 run0)).
  { eapply (narrow_step _ _ 0); [exact H0|]. apply run_loop, (loop_wait 0 run0 0 (Events [RdListen; RdShutdown]));
      [vm_compute; reflexivity | split; [vm_compute; discriminate | discriminate] | discriminate]. }
  assert (H2 : narrow_run (mkRunSys (RBatch [RdShutdown]) 0 run1)).
  { eapply (narrow_step _ _ 0); [exact H1|]. apply run_loop, (loop_event 0 ev_accept [RdShutdown]).
    - apply memory_okb_ok. vm_compute. reflexivity.
    - intros _. cbn [accepts_ok]. split; [vm_compute; reflexivity|]. split; [vm_compute; reflexivity|].
      intros s' _ [E|E]; discriminate E.
    - apply after_runs. vm_compute. reflexivity. }
  eapply (narrow_step _ _ 7); [exact H2|]. apply run_loop, (loop_event 7 ev_shutdown []).
  - apply memory_okb_ok. vm_compute. reflexivity.
  - exact I.
  - apply after_runs. vm_compute. reflexivity.
Qed.

Lemma stopping_run : narrow_run (at_pc (RDrain DJoin) down5).
Proof.
  assert (H3 : narrow_run (at_pc RLoop down2)).
  { eapply (narrow_step _ _ 8); [apply shutdown_run|]. apply run_loop, loop_turn. vm_compute. reflexivity. }
  assert (H4 : narrow_run (at_pc (RDrain DNone) down3)).
  { eapply (narrow_step _ _ 8); [eapply (narrow_step _ _ 8); [exact H3|]|];
      apply run_loop; [apply loop_leave | apply (loop_stop _ _ _ Success)]; vm_compute; reflexivity. }
  assert (H5 : narrow_run (at_pc (RDrain DNotify) down4)).
  { eapply (narrow_step _ _ 8); [exact H4|]. apply run_loop, loop_drain. vm_compute. reflexivity. }
  eapply (narrow_step _ _ 8); [exact H5|]. exact (run_loop 8 _ _ (loop_notify_all 8 down4 2000000007)).
Qed.

Lemma done_run : narrow_run (at_pc RDone down8).
Proof.
  assert (E6 : worker_take 0 down5 = Some (tt, down6)) by (apply after_runs; vm_compute; reflexivity).
  assert (H7 : narrow_run (at_pc (RDrain DDone) down7)).
  { eapply (narrow_step _ _ 8); [eapply (narrow_step _ _ 8); [apply stopping_run|]|].
    - exact (run_work 8 (RDrain DJoin) 2000000007 down5 down6 (work_take 0 down5 down6 E6)).
    - refine (run_loop 8 _ _ (loop_join 8 down6 2000000007 _)). apply Forall_cons_2; [vm_compute; reflexivity | apply Forall_nil_2]. }
  eapply (narrow_step _ _ 8); [exact H7|]. apply run_loop, (loop_teardown 8 down7 down8 []).
  - apply Forall_nil_2.
  - vm_compute. reflexivity.
  - apply after_runs. vm_compute. reflexivity.
Qed.

Lemma run_teardown_clean_witness :
  closed_ (run_conn down8) = true /\ connections_ down8 = ∅ /\ threads_ (pool_ down8) = [].
Proof.
  destruct (run_teardown_clean narrow_config (at_pc RDone down8) (narrow_run_reachable _ done_run) eq_refl) as (Ht & Hc & _ & Hth & _).
  split; [|split; [exact Ht | exact Hth]].
  apply (Hc 1). apply lookup_run_conn. vm_compute. reflexivity.
Defined.


Lemma run_teardown_ends_witness : exists sys', unprompted 8 (at_pc (RDrain DJoin) down5) sys' /\
  (teardown_left sys' < teardown_left (at_pc (RDrain DJoin) down5))%nat.
Proof.
  assert (Hm : memory_ok down5) by (apply memory_okb_ok; vm_compute; reflexivity).
  destruct (run_teardown_ends narrow_config 8 (at_pc (RDrain DJoin) down5) (narrow_run_reachable _ stopping_run) eq_refl Hm) as [H _].
  exact H.
Defined.

Lemma run_counts_witness : active_connections_ (sv_stats (service_ down5)) = 1 /\
  pending_output_bytes_ (run_conn down5) = len (backlog (run_conn down5)).
Proof.
  destruct (run_counts narrow_config (at_pc (RDrain DJoin) down5) (narrow_run_reachable _ stopping_run)) as (Ha & _ & H).
  split; [etransitivity; [exact Ha | vm_compute; reflexivity]|].
  destruct (H ltac:(discriminate)) as (_ & dis & _ & _ & Hc).
  destruct (Hc 1 (run_conn down5)) as (_ & _ & _ & H2 & _); [apply lookup_run_conn; vm_compute; reflexivity|].
  apply H2. vm_compute. reflexivity.
Defined.
