(* ===== verification/Trace.v ===== *)
(** * Requests and their answers

    The history of a running server: which jobs the event loop submitted and
    which response was computed for each job that was executed, and what the
    execution of a job does to the connections (src/server.cpp, [handle_job]
    and [complete_job]). *)

From S2P Require Import Prelude Protocol Stats Serializer CacheSpec SpecHistory LruCache Service.
From S2P Require Import Sys Connection ThreadPool Config Server ServerInv ServerProps Run.

Section Trace.
Context {C : Type} `{!CacheOps C, !CacheContract C}.
Abbreviation server := (@Server C) (only parsing).

(** The jobs an event has added: the queue only grows at its end. *)
Definition new_jobs (s s' : server) : list Job := drop (length (queue_ (pool_ s))) (queue_ (pool_ s')).

(** [history cfg cache s sub ans]: the server, started with this cache, has come
    to [s] having submitted the jobs [sub] and executed jobs with the responses
    [ans], each in this order. *)
Inductive history (cfg : ServerConfig) (cache : C) : server -> list Job -> list (Job * Response) -> Prop :=
  | hist_init now : history cfg cache (server_init cfg cache now) [] []
  | hist_event ev s s' sub ans : history cfg cache s sub ans -> memory_ok s -> event_ok ev s ->
      dispatch ev s = Some (tt, s') -> history cfg cache s' (sub ++ new_jobs s s') ans
  | hist_take i s s' sub ans : history cfg cache s sub ans -> worker_take i s = Some (tt, s') -> history cfg cache s' sub ans
  | hist_wake i s s' sub ans : history cfg cache s sub ans -> worker_wake i s = Some (tt, s') -> history cfg cache s' sub ans
  | hist_run i now job resp sv s s' sub ans : history cfg cache s sub ans -> memory_ok s ->
      threads_ (pool_ s) !! i = Some (WRun job) -> handle_request (service_ s) (job_request job) now = Some (resp, sv) ->
      worker_run i now s = Some (tt, s') -> history cfg cache s' sub (ans ++ [(job, resp)])
  | hist_request s s' sub ans : history cfg cache s sub ans -> request_shutdown s = Some (tt, s') -> history cfg cache s' sub ans
  | hist_leave s sub ans : history cfg cache s sub ans -> draining_ s = true -> history cfg cache (set_running false s) sub ans.

(** A cache the server can be started with. *)
Definition initial_ok (cfg : ServerConfig) (cache : C) : Prop :=
  config_typed cfg /\ config_valid cfg /\ cache_good cache /\ Spec.limits (cache_abs cache) = cache_limits cfg.

Lemma history_reachable cfg cache s sub ans : initial_ok cfg cache -> history cfg cache s sub ans ->
  server_reachable cfg s.
Proof.
  intros (Ht & Hv & Hg & Hl). induction 1 as [now|ev s s' sub ans _ IH Hm Hev E|i s s' sub ans _ IH E|i s s' sub ans _ IH E
    |i now job resp sv s s' sub ans _ IH Hm Hth Eh E|s s' sub ans _ IH E|s sub ans _ IH Hd].
  - split_and!; try done. exists cache, now. split_and!; [done | done | apply rtc_refl].
  - eapply reachable_step; [exact IH | by eapply step_event].
  - eapply reachable_step; [exact IH | by eapply step_work, work_take].
  - eapply reachable_step; [exact IH | by eapply step_work, work_wake].
  - eapply reachable_step; [exact IH | by eapply step_work, work_run].
  - eapply reachable_step; [exact IH | by eapply step_request].
  - eapply reachable_step; [exact IH | by eapply step_leave].
Qed.

(** ** The execution of a job *)

Lemma worker_run_cases i now (s s' : server) : worker_run i now s = Some (tt, s') ->
  exists job resp sv, threads_ (pool_ s) !! i = Some (WRun job) /\
    handle_request (service_ s) (job_request job) now = Some (resp, sv).
Proof.
  unfold worker_run, handle_job, mbind, M_bind, get_state, lift, modify. cbn beta iota.
  destruct (threads_ (pool_ s) !! i) as [[| |job|]|] eqn:Ht; try done.
  destruct (handle_request _ _ _) as [[resp sv]|] eqn:E; [|done]. intros _. by exists job, resp, sv.
Qed.

Lemma worker_run_pool i now (s s' : server) job : threads_ (pool_ s) !! i = Some (WRun job) ->
  worker_run i now s = Some (tt, s') ->
  pool_ s' = job_done (set_threads (<[i := WCheck]> (threads_ (pool_ s))) (pool_ s)).
Proof.
  intros Ht. unfold worker_run, mbind, M_bind, get_state, modify. cbn beta iota. rewrite Ht.
  destruct (handle_job job now s) as [[[] s1]|] eqn:E; [|done]. intros [= <-]. cbn.
  by rewrite (handle_job_pool _ _ _ _ _ E).
Qed.

(** The state after [worker_run]. *)
Lemma worker_run_eq i now (s : server) job resp sv c : threads_ (pool_ s) !! i = Some (WRun job) ->
  handle_request (service_ s) (job_request job) now = Some (resp, sv) -> conns_ s !! job_connection job = Some c ->
  worker_run i now s = Some (tt, set_pool (job_done (set_threads (<[i := WCheck]> (threads_ (pool_ s))) (pool_ s)))
    (notify (notify_pending_ c) (job_connection job)
      (set_conns (<[job_connection job := completed c (serialize_response resp)]> (conns_ s)) (set_service sv s)))).
Proof.
  intros Ht Eh Hc.
  assert (H : wp (worker_run i now) s (fun _ s' => s' = set_pool (job_done (set_threads (<[i := WCheck]> (threads_ (pool_ s))) (pool_ s)))
    (notify (notify_pending_ c) (job_connection job)
      (set_conns (<[job_connection job := completed c (serialize_response resp)]> (conns_ s)) (set_service sv s))))).
  { unfold worker_run. apply wp_bind, wp_get_state. rewrite Ht. apply wp_bind. unfold handle_job.
    apply wp_bind, wp_get_state, wp_bind, (wp_lift _ (resp, sv)); [done|]. apply wp_bind, wp_modify.
    apply (wp_complete_job _ _ c); [done|]. apply wp_modify. by destruct (notify_pending_ c). }
  unfold wp in H. destruct (worker_run i now s) as [[[] s']|]; [by rewrite H | done].
Qed.

(** ** The history of the pool *)

Lemma submits_grow (p p' : WorkerPool Job) : submits p p' ->
  threads_ p' = threads_ p /\ queue_ p' = queue_ p ++ drop (length (queue_ p)) (queue_ p').
Proof.
  assert (H : submits p p' -> threads_ p' = threads_ p /\ exists l, queue_ p' = queue_ p ++ l).
  { induction 1 as [p|p p1 p2 [job E] _ [IH1 [l IH2]]]; [split; [done | exists []; by rewrite app_nil_r]|].
    apply try_submit_true in E as ->. split; [done|]. exists (job :: l). rewrite IH2. cbn. by rewrite <- app_assoc. }
  intros Hs. destruct (H Hs) as [Ht [l Hq]]. split; [done|]. by rewrite Hq, drop_app_length.
Qed.

Lemma history_jobs cfg cache s sub ans : history cfg cache s sub ans -> sub ≡ₚ ans.*1 ++ pool_jobs (pool_ s).
Proof.
  induction 1 as [now|ev s s' sub ans _ IH Hm Hev E|i s s' sub ans _ IH E|i s s' sub ans _ IH E
    |i now job resp sv s s' sub ans _ IH Hm Hth Eh E|s s' sub ans _ IH E|s sub ans _ IH Hd].
  - cbn. unfold pool_jobs, start, running. cbn. by induction (Z.to_nat (worker_threads cfg)).
  - destruct (submits_grow _ _ (dispatch_submits _ _ _ E)) as [Et Eq]. unfold pool_jobs in *. rewrite Et, Eq, IH.
    fold (new_jobs s s'). rewrite <- !app_assoc. f_equiv. f_equiv. apply Permutation_app_comm.
  - unfold worker_take in E. destruct (threads_ (pool_ s) !! i) as [[]|] eqn:Ht; try done.
    destruct (worker_section (pool_ s)) as [[pc n] p] eqn:Es. injection E as <-. cbn [pool_ set_pool].
    by rewrite (take_jobs _ _ _ _ _ Ht Es).
  - unfold worker_wake in E. destruct (threads_ (pool_ s) !! i) as [[]|] eqn:Ht; try done.
    injection E as <-. cbn [pool_ set_pool]. by rewrite (wake_jobs _ _ Ht).
  - rewrite (worker_run_pool _ _ _ _ _ Hth E), IH, fmap_app, <- app_assoc. f_equiv.
    unfold pool_jobs. cbn [queue_ threads_ job_done set_threads set_completed fmap list_fmap fst app].
    rewrite (running_finished _ _ _ Hth). by rewrite Permutation_middle.
  - injection E as <-. exact IH.
  - exact IH.
Qed.

(** ** The history of the cache *)

(** The responses, in the order of execution, are those of the abstract cache
    to the requests; the result is its state after them. *)
Fixpoint replay (a : Spec.state) (ans : list (Job * Response)) : option Spec.state :=
  match ans with
  | [] => Some a
  | (job, resp) :: ans =>
      let r := job_request job in
      if negb (bool_decide (rs_opcode resp = rq_opcode r)) || negb (rs_request_id resp =? rq_request_id r) then None else
      match request_op r with
      | Some o =>
          let '(x, a) := spec_op a o in
          if bool_decide ((rs_status resp, rs_value resp) = reply x) then replay a ans else None
      | None => if bool_decide (rs_status resp = Status.kOk) then replay a ans else None
      end
  end.

Lemma replay_app a ans ans' : replay a (ans ++ ans') = replay a ans ≫= (fun a => replay a ans').
Proof.
  revert a. induction ans as [|[job resp] ans IH]; intros a; [done|]. cbn [app replay].
  destruct (_ || _); [done|]. destruct (request_op _) as [o|].
  - destruct (spec_op a o) as [x a']. case_bool_decide; [apply IH | done].
  - case_bool_decide; [apply IH | done].
Qed.

Lemma replay_one sv job resp now sv' : cache_good (sv_cache sv) -> request_addressable (job_request job) ->
  handle_request sv (job_request job) now = Some (resp, sv') -> replay (sv_abs sv) [(job, resp)] = Some (sv_abs sv').
Proof.
  intros Hg Ha E. destruct (handle_request_spec sv _ now Hg Ha) as (resp' & sv'' & E' & _ & Ho & Hid & Hc).
  rewrite E in E'. injection E' as <- <-. cbn [replay]. rewrite bool_decide_true, (proj2 (Z.eqb_eq _ _) Hid) by done. cbn [negb orb].
  destruct (request_op (job_request job)) as [o|].
  - destruct Hc as (x & Hs & Hr & _). rewrite Hs. by rewrite bool_decide_true.
  - destruct Hc as (-> & Hst & _). by rewrite bool_decide_true.
Qed.

(** Only the execution of a job touches the cache. *)
Definition same_cache (s s' : server) : Prop := sv_cache (service_ s') = sv_cache (service_ s).

#[local] Instance same_cache_preorder : PreOrder same_cache.
Proof. split; [by intros ? | intros ???]. unfold same_cache. congruence. Qed.

Lemma dispatch_cache ev s s' : dispatch ev s = Some (tt, s') -> same_cache s s'.
Proof. apply (keeps_dispatch same_cache); intros; by unfold same_cache. Qed.

Lemma running_job (p : WorkerPool Job) i job : threads_ p !! i = Some (WRun job) -> job ∈ pool_jobs p.
Proof.
  intros Hi. unfold pool_jobs. apply elem_of_app. right. rewrite (running_finished _ _ _ Hi). by left.
Qed.

Lemma reachable_job cfg s i job : server_reachable cfg s -> threads_ (pool_ s) !! i = Some (WRun job) ->
  is_Some (conns_ s !! job_connection job) /\ cache_good (sv_cache (service_ s)) /\ request_addressable (job_request job).
Proof.
  intros Hr Hi. destruct (started_inv _ _ Hr) as [Hinv _]. pose proof (si_jobs _ _ _ _ Hinv) as Hj.
  rewrite Forall_forall in Hj. destruct (Hj job (running_job _ _ _ Hi)) as [Hc Hok].
  split_and!; [done | apply (si_cache _ _ _ _ Hinv)|]. destruct (request_ok_lens _ _ Hok).
  unfold request_addressable, kMaxKeyBytes, kMaxValueBytes, kEntryOverheadBytes in *. lia.
Qed.

Lemma history_replay cfg cache s sub ans : initial_ok cfg cache -> history cfg cache s sub ans ->
  replay (cache_abs cache) ans = Some (sv_abs (service_ s)).
Proof.
  intros Hok. induction 1 as [now|ev s s' sub ans _ IH Hm Hev E|i s s' sub ans _ IH E|i s s' sub ans _ IH E
    |i now job resp sv s s' sub ans Hh IH Hm Hth Eh E|s s' sub ans _ IH E|s sub ans _ IH Hd]; unfold sv_abs in *.
  - done.
  - by rewrite (dispatch_cache _ _ _ E).
  - unfold worker_take in E. repeat case_match; simplify_eq; exact IH.
  - unfold worker_wake in E. repeat case_match; simplify_eq; exact IH.
  - destruct (reachable_job cfg s i job (history_reachable _ _ _ _ _ Hok Hh) Hth) as ([c Hc] & Hg & Ha).
    rewrite (worker_run_eq _ _ _ _ _ _ _ Hth Eh Hc) in E. injection E as <-. rewrite replay_app, IH.
    cbn [mbind option_bind]. pose proof (replay_one _ _ _ _ _ Hg Ha Eh) as H1. unfold sv_abs in H1. rewrite H1.
    by destruct (notify_pending_ c).
  - injection E as <-. exact IH.
  - exact IH.
Qed.

(** ** The connection of a finished job *)

Lemma completed_parts c frame :
  let c' := completed c frame in
  backlog c' = (if closed_ c then backlog c else backlog c ++ frame) /\ inflight_ c' = u64 (inflight_ c - 1) /\
  unread c' = unread c /\ closed_ c' = closed_ c /\ notify_pending_ c' = true.
Proof.
  unfold completed, enqueue_response, stage. destruct (closed_ c) eqn:Hcl; cbn [negb].
  - by split_and!.
  - unfold backlog, unwritten. rewrite <- app_assoc. by destruct (_ <? _); split_and!.
Qed.

Lemma running_inflight cfg s i job c : server_reachable cfg s -> threads_ (pool_ s) !! i = Some (WRun job) ->
  conns_ s !! job_connection job = Some c -> 1 <= inflight_ c < 2 ^ 64.
Proof.
  intros Hr Hth Hc. destruct (started_inv _ _ Hr) as [Hi _]. pose proof (si_conns _ _ _ _ Hi _ _ Hc) as Hok.
  pose proof (co_inflight_max _ _ _ _ _ _ _ _ _ Hok). pose proof (connection_limits_inflight _ (proj1 (si_config _ _ _ _ Hi))).
  split; [|lia]. rewrite (inflight_jobs s _ c Hi Hc). unfold pool_jobs.
  rewrite job_count_app, (job_count_perm _ _ _ (running_finished _ _ _ Hth)).
  change (job :: ?l) with ([job] ++ l). rewrite job_count_app, job_count_one, decide_True by done.
  pose proof (job_count_nonneg (job_connection job) (queue_ (pool_ s))).
  pose proof (job_count_nonneg (job_connection job) (running (<[i := WCheck]> (threads_ (pool_ s))))). lia.
Qed.

(** A connection with a notification pending is on the list of the event loop,
    and the event loop has been woken. *)
Lemma notified_woken cfg s id c : server_reachable cfg s -> conns_ s !! id = Some c -> notify_pending_ c = true ->
  id ∈ ready_connections_ s /\ 0 < completion_fd_ s.
Proof.
  intros Hr Hc Hn. destruct (started_inv _ _ Hr) as [Hi _].
  apply (co_notified _ _ _ _ _ _ _ _ _ (si_conns _ _ _ _ Hi _ _ Hc)) in Hn. rewrite app_nil_r in Hn.
  split; [done|]. apply (proj2 (si_wakeup _ _ _ _ Hi)). by destruct (ready_connections_ s); [apply elem_of_nil in Hn|].
Qed.

(** Every run has a history. *)
Lemma reachable_history cfg s : server_reachable cfg s ->
  exists cache sub ans, initial_ok cfg cache /\ history cfg cache s sub ans.
Proof.
  intros (Ht & Hv & cache & t0 & Hg & Hl & Hr). exists cache. revert s Hr.
  refine (rtc_ind_r _ _ _ _); [exists [], []; split; [done | by apply hist_init]|].
  intros s1 s2 _ Hs (sub & ans & Hok & Hh). destruct Hs as [ev ? ? Hm Hev E|? ? Hw|? ? E|? Hd].
  - eexists _, _. split; [done | by eapply hist_event].
  - destruct Hw as [i ? ? E|i ? ? E|i now ? ? Hm E].
    + eexists _, _. split; [done | by eapply hist_take].
    + eexists _, _. split; [done | by eapply hist_wake].
    + destruct (worker_run_cases _ _ _ _ E) as (job & resp & sv & Hth & Eh).
      eexists _, _. split; [done | by eapply hist_run].
  - eexists _, _. split; [done | by eapply hist_request].
  - eexists _, _. split; [done | by eapply hist_leave].
Qed.

(** ** Properties *)

(** C2: the running server is the abstract cache, and serves every request once.
    Every state the server reaches has a history of jobs submitted and jobs
    executed with their responses.  In every such history each job submitted
    was executed exactly once or is still queued or running; each response has
    the opcode and id of its request, and the statuses and values are those
    the abstract cache gives to the same operations in the order of execution,
    from the initial contents to the present ones; and the in-flight count of
    a connection is the number of its jobs without an answer. *)
Theorem server_serves_once cfg s : server_reachable cfg s ->
  (exists cache sub ans, initial_ok cfg cache /\ history cfg cache s sub ans) /\
  forall cache sub ans, initial_ok cfg cache -> history cfg cache s sub ans ->
    sub ≡ₚ ans.*1 ++ pool_jobs (pool_ s) /\
    replay (cache_abs cache) ans = Some (sv_abs (service_ s)) /\
    (forall id c, conns_ s !! id = Some c -> inflight_ c = job_count id sub - job_count id ans.*1).
Proof.
  intros Hr. split; [by apply reachable_history|]. intros cache sub ans Hok Hh.
  pose proof (history_jobs _ _ _ _ _ Hh) as Hj. split_and!; [done | by eapply history_replay|].
  intros id c Hc. destruct (started_inv _ _ Hr) as [Hi _]. rewrite (inflight_jobs s id c Hi Hc).
  rewrite (job_count_perm _ _ _ Hj), job_count_app. lia.
Qed.

(** an answer goes to the connection its request came from.  A worker that
    executes a job finishes it, computes the response with the cache, and
    appends exactly its frame to the output of that connection, or drops it if
    the connection was closed meanwhile; the request is no longer in flight,
    the event loop is told, and no other connection is touched. *)
Theorem job_answered_in_place cfg s i now job : server_reachable cfg s -> memory_ok s ->
  threads_ (pool_ s) !! i = Some (WRun job) ->
  exists c c' resp sv s', conns_ s !! job_connection job = Some c /\
    handle_request (service_ s) (job_request job) now = Some (resp, sv) /\
    worker_run i now s = Some (tt, s') /\ service_ s' = sv /\
    conns_ s' = <[job_connection job := c']> (conns_ s) /\
    backlog c' = (if closed_ c then backlog c else backlog c ++ serialize_response resp) /\
    inflight_ c' = inflight_ c - 1 /\ unread c' = unread c /\ closed_ c' = closed_ c /\
    job_connection job ∈ ready_connections_ s' /\ 0 < completion_fd_ s'.
Proof.
  intros Hr Hm Hth. destruct (reachable_job cfg s i job Hr Hth) as ([c Hc] & Hg & Ha).
  destruct (handle_request_spec (service_ s) (job_request job) now Hg Ha) as (resp & sv & Eh & _).
  pose proof (worker_run_eq i now s job resp sv c Hth Eh Hc) as E. set (s' := set_pool _ _) in E.
  assert (Hr' : server_reachable cfg s') by (eapply reachable_step; [exact Hr | by eapply step_work, work_run]).
  assert (Hc' : conns_ s' = <[job_connection job := completed c (serialize_response resp)]> (conns_ s))
    by (unfold s'; by destruct (notify_pending_ c)).
  destruct (completed_parts c (serialize_response resp)) as (Hb & Hn & Hu & Hcl & Hno).
  destruct (notified_woken cfg s' (job_connection job) _ Hr' ltac:(rewrite Hc'; apply lookup_insert_eq) Hno) as [Hready Hfd].
  pose proof (running_inflight _ _ _ _ _ Hr Hth Hc). rewrite u64_small in Hn by lia.
  exists c, (completed c (serialize_response resp)), resp, sv, s'. split_and!; try done.
  unfold s'. by destruct (notify_pending_ c).
Qed.
End Trace.

(** ** Witnesses: two requests on one connection, one worker *)

Lemma server_serves_once_witness :
  exists cache sub ans, initial_ok narrow_config cache /\ history narrow_config cache run4 sub ans /\
    job_count 1 sub - job_count 1 ans.*1 = inflight_ (run_conn run4) /\ inflight_ (run_conn run4) = 0 /\
    replay (cache_abs cache) ans = Some (sv_abs (service_ run4)).
Proof.
  destruct (server_serves_once narrow_config run4 (narrow_reachable _ run4_reachable))
    as [(cache & sub & ans & Hok & Hh) H].
  exists cache, sub, ans. destruct (H cache sub ans Hok Hh) as (_ & Hr & Hc). split_and!; try done.
  symmetry. apply Hc, lookup_run_conn. vm_compute. reflexivity.
Defined.

Lemma job_answered_in_place_witness :
  exists (c' : Connection) (s' : @Server LruCache), worker_run 0 1 run3 = Some (tt, s') /\
    conns_ s' !! 1 = Some c' /\ 1 ∈ ready_connections_ s' /\ 0 < completion_fd_ s'.
Proof.
  assert (Hm : memory_ok run3) by (apply memory_okb_ok; vm_compute; reflexivity).
  assert (Hth : threads_ (pool_ run3) !! 0%nat = Some (WRun (mkJob 1 (mkRequest Opcode.kPing 1 [] []))))
    by (vm_compute; reflexivity).
  destruct (job_answered_in_place narrow_config run3 0 1 _ (narrow_reachable _ run3_reachable) Hm Hth)
    as (c & c' & resp & sv & s' & _ & _ & E & _ & Hc & _ & _ & _ & _ & Hr & Hf).
  exists c', s'. split; [exact E|]. split; [rewrite Hc; apply lookup_insert_eq | exact (conj Hr Hf)].
Defined.
