(* ===== verification/Wire.v ===== *)
(** * From the bytes of a request to the bytes of its answer

    Trace.v and Streams.v put together: for every connection of a running
    server, what came in on its socket, what the pool and the cache did with
    it, and what went out (src/server.cpp, src/connection.cpp). *)

From S2P Require Import Prelude Protocol Stats Serializer CacheSpec SpecHistory LruCache Service.
From S2P Require Import Sys Connection ThreadPool Config Server Streams ServerInv ServerProps Run Trace.

(** The responses computed for the jobs of a connection, in the order of
    execution. *)
Definition responses_on (id : Z) (ans : list (Job * Response)) : list Response :=
  (filter (fun x => job_connection x.1 = id) ans).*2.

Lemma responses_on_app id a b : responses_on id (a ++ b) = responses_on id a ++ responses_on id b.
Proof. unfold responses_on. by rewrite filter_app, fmap_app. Qed.

Lemma responses_on_elem id ans resp : resp ∈ responses_on id ans -> exists job, (job, resp) ∈ ans /\ job_connection job = id.
Proof.
  unfold responses_on. intros ([job resp'] & -> & Hin)%list_elem_of_fmap. apply list_elem_of_filter in Hin as [? Hin]. by exists job.
Qed.

(** What a client tells requests and responses apart by. *)
Definition request_tag (r : Request) : Z * Opcode.t := (rq_request_id r, rq_opcode r).
Definition response_tag (resp : Response) : Z * Opcode.t := (rs_request_id resp, rs_opcode resp).

(** Staged responses that answer a request, in order. *)
Definition ev_settled (tr : list StreamEvent) : list Response :=
  omap (fun ev => match ev with SShed r => Some (busy r) | SAnswer resp => Some resp | _ => None end) tr.

Lemma taken_split tr : ev_taken tr ≡ₚ ev_accepted tr ++ ev_shed tr.
Proof.
  induction tr as [|[r|r|resp|resp|resp] tr IH]; cbn; try done.
  - by rewrite IH.
  - rewrite IH. by rewrite Permutation_middle.
Qed.

Lemma settled_split tr : ev_settled tr ++ ev_dropped tr ≡ₚ ev_answered tr ++ (busy <$> ev_shed tr).
Proof.
  induction tr as [|[r|r|resp|resp|resp] tr IH]; [done | done | | done | |].
  - change (busy r :: (ev_settled tr ++ ev_dropped tr) ≡ₚ ev_answered tr ++ busy r :: (busy <$> ev_shed tr)).
    rewrite IH. apply Permutation_middle.
  - change (resp :: (ev_settled tr ++ ev_dropped tr) ≡ₚ resp :: (ev_answered tr ++ (busy <$> ev_shed tr))). by rewrite IH.
  - change (ev_settled tr ++ resp :: ev_dropped tr ≡ₚ resp :: (ev_answered tr ++ (busy <$> ev_shed tr))).
    rewrite <- IH. symmetry. apply Permutation_middle.
Qed.

Lemma busy_tags (rs : list Request) : response_tag <$> (busy <$> rs) = request_tag <$> rs.
Proof. rewrite <- list_fmap_compose. by apply list_fmap_ext. Qed.

(** Every response that was staged answers a request that was taken. *)
Definition justified (tr : list StreamEvent) : Prop :=
  response_tag <$> ev_settled tr ⊆+ request_tag <$> ev_taken tr.

(** ... and was taken before. *)
Definition causal (tr : list StreamEvent) : Prop := forall n, justified (take n tr).

Lemma justified_app a b : justified a -> justified b -> justified (a ++ b).
Proof.
  unfold justified, ev_settled, ev_taken. rewrite !omap_app, !fmap_app. apply submseteq_app.
Qed.

(** Without a job that ends only refusals are staged. *)
Lemma unanswered_justified tr : ev_answered tr = [] -> justified tr.
Proof.
  intros H. unfold justified. pose proof (settled_split tr) as Hs. rewrite H in Hs. cbn [app] in Hs.
  rewrite (taken_split tr), fmap_app, <- (busy_tags (ev_shed tr)), <- Hs, fmap_app.
  apply submseteq_inserts_l, submseteq_inserts_r. done.
Qed.

Lemma causal_app tr tr' : causal tr -> ev_answered tr' = [] -> causal (tr ++ tr').
Proof.
  intros Hc Ha n. rewrite take_app. apply justified_app; [apply Hc|]. apply unanswered_justified.
  rewrite <- (take_drop (n - length tr) tr') in Ha. unfold ev_answered in *. rewrite omap_app in Ha. by apply app_eq_nil in Ha as [Ha _].
Qed.

Lemma causal_snoc tr ev : causal tr -> justified (tr ++ [ev]) -> causal (tr ++ [ev]).
Proof.
  intros Hc Hj n. destruct (decide (n <= length tr)%nat) as [Hn|Hn].
  - rewrite take_app_le by done. apply Hc.
  - rewrite take_ge; [done|]. rewrite length_app. cbn. lia.
Qed.

Section Wire.
Context {C : Type} `{!CacheOps C, !CacheContract C}.
Abbreviation server := (@Server C) (only parsing).

(** ** The events of each connection *)

Definition stream_of (cfg : ServerConfig) (id : Z) (s : server) (sub : list Job) (ans : list (Job * Response))
    (tr : list StreamEvent) : Prop :=
  stream_step (protocol_limits (connection_limits cfg)) id None (conns_ s !! id) (socket_calls_ s) sub (responses_on id ans) tr.

(** Worker steps other than the end of a job, and shutdown, leave the streams
    alone. *)
Lemma stream_same cfg id (s s' : server) sub ans tr : stream_of cfg id s sub ans tr ->
  conns_ s' = conns_ s -> socket_calls_ s' = socket_calls_ s -> stream_of cfg id s' sub ans tr.
Proof. unfold stream_of. by intros H -> ->. Qed.

Lemma stream_event cfg id ev (s s' : server) sub ans tr : server_inv [] [] None s -> memory_ok s -> event_ok ev s ->
  config_ s = cfg -> dispatch ev s = Some (tt, s') -> stream_of cfg id s sub ans tr ->
  exists tr', stream_of cfg id s' (sub ++ new_jobs s s') ans (tr ++ tr') /\ ev_answered tr' = [].
Proof.
  intros Hi Hm Hev Hcfg E Ht. pose proof (wp_dispatch ev s Hi Hm Hev) as Hw. unfold wp in Hw. rewrite E in Hw.
  destruct Hw as [_ [_ _ (l & jobs & El & Eq & _ & Hs)]]. destruct (Hs id) as [tr2 T2]. exists tr2. split; [|apply T2].
  unfold stream_of, new_jobs. rewrite El, Eq, drop_app_length, <- (app_nil_r (responses_on id ans)).
  unfold request_limits in T2. rewrite Hcfg in T2. by eapply stream_step_trans.
Qed.

Lemma stream_run cfg id i now job resp sv (s s' : server) sub ans tr : server_reachable cfg s ->
  threads_ (pool_ s) !! i = Some (WRun job) -> handle_request (service_ s) (job_request job) now = Some (resp, sv) ->
  worker_run i now s = Some (tt, s') -> stream_of cfg id s sub ans tr ->
  exists tr', stream_of cfg id s' sub (ans ++ [(job, resp)]) (tr ++ tr') /\ (length tr' <= 1)%nat.
Proof.
  intros Hr Hth Eh E Ht. destruct (reachable_job cfg s i job Hr Hth) as ([c Hc] & _ & _).
  rewrite (worker_run_eq _ _ _ _ _ _ _ Hth Eh Hc) in E. injection E as <-.
  set (c' := completed c (serialize_response resp)) in *.
  destruct (completed_parts c (serialize_response resp)) as (Hb & _ & Hu & Hcl & _). fold c' in Hb, Hu, Hcl.
  set (s' := set_pool _ _). assert (Es : conns_ s' = <[job_connection job := c']> (conns_ s) /\ socket_calls_ s' = socket_calls_ s)
    by (unfold s'; by destruct (notify_pending_ c)).
  destruct Es as [En El]. clearbody s'. unfold stream_of in *. rewrite En, El, responses_on_app.
  destruct (decide (id = job_connection job)) as [->|Hne].
  - exists [if closed_ c then SDrop resp else SAnswer resp]. split; [|done]. rewrite lookup_insert_eq. rewrite Hc in Ht.
    rewrite <- (app_nil_r (socket_calls_ s)), <- (app_nil_r sub). eapply stream_step_trans; [exact Ht|].
    assert (E : responses_on (job_connection job) [(job, resp)] = [resp]) by (unfold responses_on; rewrite filter_cons; by rewrite decide_True).
    rewrite E. split; cbn [unread_at backlog_at closed_at from_option]; rewrite ?Hu, ?Hcl, ?Hb.
    + destruct (closed_ c); cbn; by rewrite app_nil_r.
    + by destruct (closed_ c).
    + destruct (closed_ c); [apply app_nil_r|]. change (ev_replies [SAnswer resp]) with [resp]. by rewrite reply_stream_one.
    + by destruct (closed_ c).
    + by destruct (closed_ c).
    + by destruct (closed_ c).
    + done.
    + by intros ->.
  - exists []. split; [|cbn; lia]. rewrite lookup_insert_ne, app_nil_r by done.
    assert (E : responses_on id [(job, resp)] = []) by (unfold responses_on; rewrite filter_cons; rewrite decide_False; done).
    by rewrite E, app_nil_r.
Qed.

(** The answers of the history have the ids and opcodes of their requests. *)
Lemma replay_tags a ans a' id : replay a ans = Some a' ->
  response_tag <$> responses_on id ans = request_tag <$> requests_on id ans.*1.
Proof.
  revert a. induction ans as [|[job resp] ans IH]; intros a; [done|]. cbn [replay].
  destruct (bool_decide (rs_opcode resp = _)) eqn:Eo; [|done]. destruct (Z.eqb_spec (rs_request_id resp) (rq_request_id (job_request job))) as [Ei|]; [|done].
  cbn [negb orb]. apply bool_decide_eq_true in Eo. intros E.
  assert (Hrest : exists a, replay a ans = Some a').
  { destruct (request_op _); [destruct (spec_op a _)|]; destruct (bool_decide _); try done; by eexists. }
  destruct Hrest as [a1 Hrest]. specialize (IH a1 Hrest). change ((job, resp) :: ans) with ([(job, resp)] ++ ans).
  rewrite fmap_app, responses_on_app, requests_on_app, !fmap_app, IH. f_equal.
  unfold responses_on, requests_on. cbn [fmap list_fmap fst]. rewrite !filter_cons. cbn [fst].
  destruct (decide (job_connection job = id)); [|done]. cbn. unfold response_tag, request_tag. by rewrite Eo, Ei.
Qed.

Lemma requests_on_elem id jobs job : job ∈ jobs -> job_connection job = id -> job_request job ∈ requests_on id jobs.
Proof. intros Hin Hid. unfold requests_on. apply list_elem_of_fmap_2, list_elem_of_filter. done. Qed.

Lemma requests_on_perm id a b : a ≡ₚ b -> requests_on id a ≡ₚ requests_on id b.
Proof. intros H. unfold requests_on. by rewrite H. Qed.

(** The requests taken are those answered and those in the pool. *)
Lemma stream_balance cfg cache id s sub ans tr : initial_ok cfg cache -> history cfg cache s sub ans ->
  stream_of cfg id s sub ans tr ->
  request_tag <$> ev_taken tr ≡ₚ (response_tag <$> ev_settled tr) ++ (response_tag <$> ev_dropped tr) ++
    (request_tag <$> requests_on id (pool_jobs (pool_ s))).
Proof.
  intros Hok Hh Ht. pose proof (replay_tags _ _ _ id (history_replay _ _ _ _ _ Hok Hh)) as Htags.
  rewrite (taken_split tr), fmap_app, (ss_jobs _ _ _ _ _ _ _ _ Ht), (requests_on_perm id _ _ (history_jobs _ _ _ _ _ Hh)).
  rewrite requests_on_app, fmap_app, <- Htags, <- (ss_answers _ _ _ _ _ _ _ _ Ht), <- (busy_tags (ev_shed tr)).
  rewrite app_assoc, <- fmap_app, settled_split, fmap_app, <- !app_assoc. f_equiv. apply Permutation_app_comm.
Qed.

Lemma stream_justified cfg cache id s sub ans tr : initial_ok cfg cache -> history cfg cache s sub ans ->
  stream_of cfg id s sub ans tr -> justified tr.
Proof. intros Hok Hh Ht. unfold justified. rewrite (stream_balance _ _ _ _ _ _ _ Hok Hh Ht). by apply submseteq_inserts_r. Qed.

Lemma history_streams cfg cache s sub ans id : initial_ok cfg cache -> history cfg cache s sub ans ->
  exists tr, stream_of cfg id s sub ans tr /\ causal tr.
Proof.
  intros Hok. induction 1 as [now|ev s s' sub ans Hh IH Hm Hev E|i s s' sub ans _ IH E|i s s' sub ans _ IH E
    |i now job resp sv s s' sub ans Hh IH Hm Hth Eh E|s s' sub ans _ IH E|s sub ans _ IH Hd].
  - exists []. split; [apply stream_step_refl|]. intros n. rewrite take_nil. by apply unanswered_justified.
  - destruct IH as (tr & Ht & Hc). pose proof (history_reachable _ _ _ _ _ Hok Hh) as Hr. destruct (started_inv _ _ Hr) as [Hi Hcfg].
    destruct (stream_event cfg id ev s s' sub ans tr Hi Hm Hev Hcfg E Ht) as (tr' & Ht' & Ha). exists (tr ++ tr').
    split; [done | by apply causal_app].
  - destruct IH as (tr & Ht & Hc). exists tr. unfold worker_take in E. repeat case_match; simplify_eq; done.
  - destruct IH as (tr & Ht & Hc). exists tr. unfold worker_wake in E. repeat case_match; simplify_eq; done.
  - destruct IH as (tr & Ht & Hc). pose proof (history_reachable _ _ _ _ _ Hok Hh) as Hr.
    destruct (stream_run cfg id i now job resp sv s s' sub ans tr Hr Hth Eh E Ht) as (tr' & Ht' & Hl). exists (tr ++ tr').
    split; [done|]. assert (Hj : justified (tr ++ tr')) by (eapply stream_justified; [exact Hok | by eapply hist_run | exact Ht']).
    destruct tr' as [|x [|y tr']]; [by rewrite app_nil_r | by apply causal_snoc | cbn in Hl; lia].
  - destruct IH as (tr & Ht & Hc). exists tr. by injection E as <-.
  - done.
Qed.

(** ** The replies are well formed *)

Lemma reachable_response_ok cfg s i job now resp sv : server_reachable cfg s ->
  threads_ (pool_ s) !! i = Some (WRun job) -> handle_request (service_ s) (job_request job) now = Some (resp, sv) ->
  response_ok (mkLimits kMaxKeyBytes kMaxValueBytes) resp = true.
Proof.
  intros Hr Hth Eh. destruct (started_inv _ _ Hr) as [Hi _]. destruct (si_cache _ _ _ _ Hi) as [Hg Hlim].
  pose proof (si_jobs _ _ _ _ Hi) as Hj. rewrite Forall_forall in Hj. destruct (Hj job (running_job _ _ _ Hth)) as [_ Hok].
  assert (Hval : cl_max_value_bytes (Spec.limits (sv_abs (service_ s))) <= kMaxValueBytes).
  { rewrite Hlim. cbn. destruct (cv_value _ (proj2 (si_config _ _ _ _ Hi))). done. }
  exact (handle_request_response_ok _ _ _ _ _ _ Hg Hok Hval Eh).
Qed.

Lemma history_answers_ok cfg cache s sub ans : initial_ok cfg cache -> history cfg cache s sub ans ->
  Forall (fun x => response_ok (mkLimits kMaxKeyBytes kMaxValueBytes) x.2 = true) ans.
Proof.
  intros Hok. induction 1 as [now|ev s s' sub ans _ IH Hm Hev E|i s s' sub ans _ IH E|i s s' sub ans _ IH E
    |i now job resp sv s s' sub ans Hh IH Hm Hth Eh E|s s' sub ans _ IH E|s sub ans _ IH Hd]; try done.
  apply Forall_app. split; [done|]. apply Forall_singleton.
  eapply reachable_response_ok; [by eapply history_reachable | exact Hth | exact Eh].
Qed.

Lemma busy_ok limits r : request_ok limits r = true -> response_ok (mkLimits kMaxKeyBytes kMaxValueBytes) (busy r) = true.
Proof.
  unfold request_ok, response_ok, busy. intros H. b2p. cbn [rs_opcode rs_status rs_request_id rs_value].
  repeat (apply andb_true_iff; split); first [done | apply Z.leb_le; lia | apply Z.ltb_lt; lia].
Qed.

Lemma refuses_ok limits input resp : refuses limits input resp ->
  response_ok (mkLimits kMaxKeyBytes kMaxValueBytes) resp = true.
Proof.
  intros (_ & Hop & res & out & _ & _ & ->). pose proof (field_range 8 8 input) as Hid. unfold response_ok. cbn -[field Z.pow].
  rewrite named_of_raw, Hop. unfold malformed_status. destruct (pr_error res); cbn -[field Z.pow];
    repeat (apply andb_true_iff; split); try done; try (apply Z.leb_le; lia); apply Z.ltb_lt; lia.
Qed.

Lemma replies_forall (P : Response -> Prop) tr : Forall P (ev_rejects tr) -> Forall P (busy <$> ev_shed tr) ->
  Forall P (ev_answered tr) -> Forall P (ev_replies tr).
Proof.
  unfold ev_rejects, ev_shed, ev_answered, ev_replies.
  induction tr as [|[] tr IH]; cbn; rewrite ?Forall_cons; intros; destruct_and?; auto.
Qed.

Lemma stream_replies_ok cfg cache id s sub ans tr : initial_ok cfg cache -> history cfg cache s sub ans ->
  stream_of cfg id s sub ans tr ->
  Forall (fun resp => response_ok (mkLimits kMaxKeyBytes kMaxValueBytes) resp = true) (ev_replies tr).
Proof.
  intros Hok Hh Ht. apply replies_forall.
  - eapply Forall_impl; [apply (ss_rejects _ _ _ _ _ _ _ _ Ht)|]. intros resp. apply refuses_ok.
  - apply Forall_fmap. pose proof (ss_ok _ _ _ _ _ _ _ _ Ht) as Hr. rewrite taken_split in Hr.
    apply Forall_app in Hr as [_ Hr]. eapply Forall_impl; [exact Hr|]. intros r. apply busy_ok.
  - rewrite (ss_answers _ _ _ _ _ _ _ _ Ht). apply Forall_forall. intros resp.
    intros (job & Hin & _)%responses_on_elem. pose proof (history_answers_ok _ _ _ _ _ Hok Hh) as Ha. rewrite Forall_forall in Ha. by apply (Ha _ Hin).
Qed.

(** ** Properties *)

(** C3: every request is answered once, from the socket to the socket.  For
    every connection of a server at any point of its run there is a sequence of
    events such that: the bytes received are the frames of the requests taken,
    in order, followed by what is still buffered, and each of them is well
    formed; the bytes sent, followed by what is still to be sent, are the
    frames of the responses staged, in order, all of them well formed for the
    protocol's largest limits; the requests submitted and the
    responses computed for this connection are those of the history of the
    server, in order; a response is staged only after a request with its id and
    opcode was taken, and, unless the connection was closed, the requests taken
    are exactly those answered once and those still in the pool; the only other
    responses are refusals of a malformed frame, which then stays at the head
    of the input, and no request behind it is taken. *)
Theorem server_wire_exact cfg cache s sub ans id c : initial_ok cfg cache -> history cfg cache s sub ans ->
  conns_ s !! id = Some c ->
  exists tr, received_on id (socket_calls_ s) = encoded (ev_taken tr) ++ unread c /\
    Forall (fun r => request_ok (protocol_limits (connection_limits cfg)) r = true) (ev_taken tr) /\
    sent_on id (socket_calls_ s) ++ backlog c = reply_stream (ev_replies tr) /\
    ev_accepted tr = requests_on id sub /\ ev_answered tr = responses_on id ans /\ causal tr /\
    (closed_ c = false -> request_tag <$> ev_taken tr ≡ₚ
       (response_tag <$> ev_settled tr) ++ (request_tag <$> requests_on id (pool_jobs (pool_ s)))) /\
    Forall (refuses (protocol_limits (connection_limits cfg)) (unread c)) (ev_rejects tr) /\
    Forall (fun resp => response_ok (mkLimits kMaxKeyBytes kMaxValueBytes) resp = true) (ev_replies tr).
Proof.
  intros Hok Hh Hc. destruct (history_streams cfg cache s sub ans id Hok Hh) as (tr & Ht & Hca). exists tr.
  pose proof (stream_replies_ok _ _ _ _ _ _ _ Hok Hh Ht) as Hrok.
  pose proof (stream_balance _ _ _ _ _ _ _ Hok Hh Ht) as Hbal.
  unfold stream_of in Ht. rewrite Hc in Ht. destruct Ht as [I K O J A R Cl D].
  cbn [unread_at backlog_at closed_at from_option app] in *. split_and!; try done.
  intros Hopen. by rewrite (D Hopen) in Hbal.
Qed.
End Wire.

(** ** A witness: two pings on one connection, answered by one worker *)

Lemma server_wire_exact_witness :
  exists cache sub ans tr, initial_ok narrow_config cache /\ history narrow_config cache run4 sub ans /\
    received_on 1 (socket_calls_ run4) = encoded (ev_taken tr) ++ unread (run_conn run4) /\
    received_on 1 (socket_calls_ run4) <> [] /\
    sent_on 1 (socket_calls_ run4) ++ backlog (run_conn run4) = reply_stream (ev_replies tr) /\
    backlog (run_conn run4) <> [] /\ ev_answered tr = responses_on 1 ans.
Proof.
  destruct (reachable_history narrow_config run4 (narrow_reachable _ run4_reachable)) as (cache & sub & ans & Hok & Hh).
  assert (Hc : conns_ run4 !! 1 = Some (run_conn run4)) by (apply lookup_run_conn; vm_compute; reflexivity).
  destruct (server_wire_exact narrow_config cache run4 sub ans 1 (run_conn run4) Hok Hh Hc)
    as (tr & Hin & _ & Hout & _ & Hans & _).
  exists cache, sub, ans, tr. split_and!; [exact Hok | exact Hh | exact Hin | | exact Hout | | exact Hans];
    by vm_compute.
Defined.
