(* ===== verification/Progress.v ===== *)
(** * The server delivers what it has accepted

    From every state of a running server there is a continuation without any
    further input in which the workers execute every job of the pool and the
    event loop hands every response to its socket: worker steps, one completion
    event and one event for the writability of the connection, each reported
    only if epoll would (src/server.cpp, [handle_connection_event],
    [drain_completions], [complete_job]; src/thread_pool.cpp, [worker_loop]). *)

From S2P Require Import Prelude Protocol Stats Serializer CacheSpec SpecHistory LruCache Service.
From S2P Require Import Sys Connection ThreadPool Config Server Streams ServerInv ServerProps Run Trace Wire.

(** ** A socket that takes everything *)

(** A socket with room for [n] sends, and one that has none. *)
Definition willing (n : nat) : list (Z -> SendResult) := replicate n Sent ++ [fun _ => SendFailed EAGAIN].
Definition unwilling : list (Z -> SendResult) := [fun _ => SendFailed EAGAIN].

Lemma kernel_send_all : kernel_send Sent.
Proof. intros n Hn. cbn. lia. Qed.

Lemma willing_answers n : socket_answers (willing n).
Proof.
  split; [|by eexists]. apply Forall_app. split; [by apply Forall_replicate, kernel_send_all|]. by repeat constructor.
Qed.

Lemma flush_willing n c : flushable c -> len (backlog c) <= Z.of_nat n ->
  exists c', flush_output (willing n) c = Some (IoResult.kOk, c', backlog c) /\ backlog c' = [].
Proof.
  revert c. induction n as [|n IH]; intros c Hc Hl; unfold willing; cbn [replicate app flush_output];
    pose proof (refill_spec c (fl_wf _ Hc) (fl_staged _ Hc)) as (_ & Hb & _ & _ & Hu);
    pose proof (flush_done_spec c Hc) as Hd; pose proof (flush_turn_spec c Sent Hc kernel_send_all) as Ht;
    destruct (refill c) as [[] c1] eqn:Er; cbn [fst snd] in *;
    try (destruct (Hd eq_refl) as (_ & E & E1); exists c1; by rewrite E).
  - rewrite <- Hb in Hl. unfold backlog in Hl. rewrite len_app in Hl. pose proof (len_nonneg (staged_ c1)). lia.
  - specialize (Ht eq_refl). unfold send_once in Ht |- *. rewrite (proj2 (Z.ltb_lt _ _) Hu) in *.
    destruct Ht as (Hc2 & He & _ & _ & Hlt). specialize (Hlt eq_refl ltac:(done)).
    destruct (IH _ Hc2) as (c' & Ef & Hb'); [lia|]. unfold willing in Ef. rewrite Ef. exists c'. split; [|done]. cbn. by rewrite <- He.
Qed.

(** What an unwilling socket leaves alone; a connection is closed only once it
    has no output. *)
Definition same_buffers (c c' : Connection) : Prop :=
  backlog c' = backlog c /\ unread c' = unread c /\ inflight_ c' = inflight_ c /\
  has_pending_output c' = has_pending_output c /\
  (closed_ c' = true -> closed_ c = true \/ has_pending_output c = false).

#[local] Instance same_buffers_preorder : PreOrder same_buffers.
Proof.
  split; [by intros c; split_and!; auto|]. unfold same_buffers. intros c1 c2 c3 (? & ? & ? & E1 & K1) (? & ? & ? & E2 & K2).
  split_and!; [congruence..|]. intros Hc. destruct (K2 Hc); [by apply K1 | right; congruence].
Qed.

Lemma flush_unwilling c res c' wire : flush_output unwilling c = Some (res, c', wire) ->
  res <> IoResult.kError /\ same_buffers c c'.
Proof.
  intros E. destruct (flush_output_only _ _ _ _ _ E) as (_ & _ & _ & E4 & E5 & _ & _ & E8 & E9 & _).
  assert (H : res <> IoResult.kError /\ backlog c' = backlog c /\ has_pending_output c' = has_pending_output c).
  2: { destruct H as (? & ? & ?). split; [done|]. unfold same_buffers, unread. rewrite E4, E5, E9. by split_and!; auto. }
  revert E. unfold unwilling, flush_output, refill.
  destruct (Z.leb_spec (len (write_buf_ c)) (write_pos_ c)) as [Hw|Hw]; [|by intros [= <- <- _]].
  assert (Hu : unwritten c = []) by (apply drop_ge; unfold len in Hw; lia).
  cbn [staged_ set_write_pos set_write_buf].
  destruct (Z.eqb_spec (len (staged_ c)) 0) as [Hs|Hs]; intros [= <- <- _]; unfold backlog; rewrite Hu; cbn;
    split_and!; try done. by rewrite app_nil_r.
Qed.

Section Progress.
Context {C : Type} `{!CacheOps C, !CacheContract C}.
Abbreviation server := (@Server C) (only parsing).

(** ** The pool of a running server *)

(** No worker returns while the loop runs. *)
Record pool_alive (p : WorkerPool Job) : Prop := mkPoolAlive {
  pa_stopping : stopping_ p = false;
  pa_some : threads_ p <> [];
  pa_working : WExit ∉ threads_ p;
}.

Lemma alive_thread (p : WorkerPool Job) i w : pool_alive p -> w <> WExit ->
  pool_alive (set_threads (<[i := w]> (threads_ p)) p).
Proof.
  intros [Hs Hn Hx] Hw. split; cbn; [done| |].
  - intros E. apply Hn, nil_length_inv. by rewrite <- (length_insert _ i w), E.
  - intros [j Hj]%list_elem_of_lookup. apply list_lookup_insert_Some in Hj as [(_ & -> & _)|[_ Hj]]; [done|].
    apply Hx. by eapply list_elem_of_lookup_2.
Qed.

Lemma alive_same (p p' : WorkerPool Job) : stopping_ p' = stopping_ p -> threads_ p' = threads_ p ->
  pool_alive p -> pool_alive p'.
Proof. intros E1 E2 []. split; by rewrite ?E1, ?E2. Qed.

Lemma alive_submits p p' : submits p p' -> pool_alive p -> pool_alive p'.
Proof.
  induction 1 as [|p p1 p2 [job E] _ IH]; [done|]. intros Hp. apply try_submit_true in E as ->. apply IH.
  eapply alive_same; [| |exact Hp]; done.
Qed.

Lemma alive_section p pc n p' : pool_alive p -> worker_section p = (pc, n, p') ->
  pc <> WExit /\ pool_alive p'.
Proof.
  intros Hp. unfold worker_section. rewrite (pa_stopping _ Hp). destruct (queue_ p); cbn; intros [= <- <- <-];
    (split; [done | eapply alive_same; [| |exact Hp]; done]).
Qed.

Lemma alive_init n mp : 0 < n -> pool_alive (start (new_pool (J := Job) n mp)).
Proof.
  intros Hn. split; cbn; [done | |].
  - by destruct (Z.to_nat n) eqn:E; [lia|].
  - intros [E _]%elem_of_replicate. done.
Qed.

Lemma history_alive cfg cache s sub ans : initial_ok cfg cache -> history cfg cache s sub ans -> pool_alive (pool_ s).
Proof.
  intros (Ht & Hv & _). induction 1 as [now|ev s s' sub ans _ IH Hm Hev E|i s s' sub ans _ IH E|i s s' sub ans _ IH E
    |i now job resp sv s s' sub ans _ IH Hm Hth Eh E|s s' sub ans _ IH E|s sub ans _ IH Hd].
  - apply alive_init. pose proof (cv_workers _ Hv). lia.
  - eapply alive_submits; [by eapply dispatch_submits | done].
  - unfold worker_take in E. destruct (threads_ (pool_ s) !! i) as [[]|]; try done.
    destruct (worker_section (pool_ s)) as [[pc n] p] eqn:Es. injection E as <-.
    destruct (alive_section _ _ _ _ IH Es). by apply alive_thread.
  - unfold worker_wake in E. destruct (threads_ (pool_ s) !! i) as [[]|]; try done. injection E as <-. by apply alive_thread.
  - rewrite (worker_run_pool _ _ _ _ _ Hth E). eapply alive_same; [| |by apply (alive_thread _ i WCheck IH)]; done.
  - by injection E as <-.
  - done.
Qed.

(** ** A continuation without input *)

(** What epoll may report: the completion eventfd once it was written, and a
    connection for events it is registered for. *)
Definition reported (ev : Event) (s : server) : Prop :=
  match ev with
  | EvCompletion _ => 0 < completion_fd_ s
  | EvConnection fd events _ => exists id c, connections_ s !! fd = Some id /\ conns_ s !! id = Some c /\
      Z.land events (registered_events_ c) = events
  | _ => False
  end.

Inductive quiet_step : server -> server -> Prop :=
  | quiet_work s s' : work_step s s' -> quiet_step s s'
  | quiet_event ev s s' : reported ev s -> event_ok ev s -> dispatch ev s = Some (tt, s') -> quiet_step s s'.

(** The responses to the requests in flight, too, fit the address space. *)
Definition roomy (s : server) : Prop :=
  map_Forall (fun _ c => len (backlog c) + len (unread c) + (inflight_ c + 1) * 2 ^ 27 < 2 ^ 64) (conns_ s).

Lemma roomy_memory cfg s : server_reachable cfg s -> roomy s -> memory_ok s.
Proof.
  intros Hr Hm id c Hc. destruct (started_inv _ _ Hr) as [Hi _]. specialize (Hm id c Hc). cbn in Hm.
  pose proof (conn_ok_inflight _ _ _ _ _ _ _ _ _ (si_conns _ _ _ _ Hi id c Hc)). lia.
Qed.

(** The connections open before are open after. *)
Definition kept (s s' : server) : Prop := forall id c, conns_ s !! id = Some c ->
  exists c', conns_ s' !! id = Some c' /\ closed_ c' = closed_ c.

#[local] Instance kept_preorder : PreOrder kept.
Proof.
  split; [intros s id c Hc; by exists c|]. intros s1 s2 s3 H1 H2 id c Hc. destruct (H1 id c Hc) as (c2 & Hc2 & E2).
  destruct (H2 id c2 Hc2) as (c3 & Hc3 & E3). exists c3. split; congruence.
Qed.

(** ** The jobs of the pool *)

Lemma response_frame_bound cfg s i job now resp sv : server_reachable cfg s ->
  threads_ (pool_ s) !! i = Some (WRun job) -> handle_request (service_ s) (job_request job) now = Some (resp, sv) ->
  len (serialize_response resp) <= 2 ^ 27.
Proof.
  intros Hr Hth Eh. pose proof (reachable_response_ok _ _ _ _ _ _ _ Hr Hth Eh) as Hresp.
  pose proof (response_frame_lens _ resp [] Hresp) as Hfl. rewrite app_nil_r, len_nil in Hfl.
  pose proof (response_ok_lens _ _ Hresp). unfold serialize_response, kHeaderSize, kMaxValueBytes in *. lia.
Qed.

(** A worker at a job finishes it. *)
Lemma answer_one cfg cache s sub ans i job : initial_ok cfg cache -> history cfg cache s sub ans -> roomy s ->
  threads_ (pool_ s) !! i = Some (WRun job) ->
  exists s' resp, quiet_step s s' /\ history cfg cache s' sub (ans ++ [(job, resp)]) /\ roomy s' /\ kept s s' /\
    pool_jobs (pool_ s) ≡ₚ job :: pool_jobs (pool_ s').
Proof.
  intros Hok Hh Hm Hth. pose proof (history_reachable _ _ _ _ _ Hok Hh) as Hr. pose proof (roomy_memory _ _ Hr Hm) as Hmem.
  destruct (reachable_job cfg s i job Hr Hth) as ([c Hc] & Hg & Ha).
  destruct (handle_request_spec (service_ s) (job_request job) 0 Hg Ha) as (resp & sv & Eh & _).
  pose proof (worker_run_eq i 0 s job resp sv c Hth Eh Hc) as E.
  pose proof (worker_run_pool _ _ _ _ _ Hth E) as Ep. set (s' := set_pool _ _) in *.
  assert (Hc' : conns_ s' = <[job_connection job := completed c (serialize_response resp)]> (conns_ s))
    by (unfold s'; by destruct (notify_pending_ c)).
  destruct (completed_parts c (serialize_response resp)) as (Hb & Hn & Hu & Hcl & _).
  pose proof (running_inflight _ _ _ _ _ Hr Hth Hc) as Hin. rewrite u64_small in Hn by lia.
  exists s', resp. split_and!.
  - by eapply quiet_work, work_run.
  - by eapply hist_run.
  - unfold roomy. rewrite Hc'. apply map_Forall_insert_2; [|exact Hm]. specialize (Hm _ c Hc). cbn in Hm. rewrite Hb, Hn, Hu.
    pose proof (response_frame_bound _ _ _ _ _ _ _ Hr Hth Eh). destruct (closed_ c); rewrite ?len_app; lia.
  - intros id x Hx. rewrite Hc'. destruct (decide (id = job_connection job)) as [->|Hne].
    + rewrite lookup_insert_eq. simplify_eq. by eexists.
    + rewrite lookup_insert_ne by done. by exists x.
  - rewrite Ep. unfold pool_jobs. cbn [queue_ threads_ job_done set_threads set_completed].
    rewrite (running_finished _ _ _ Hth). by rewrite Permutation_middle.
Qed.

Lemma running_thread (ws : list (WorkerPc Job)) : running ws <> [] -> exists i job, ws !! i = Some (WRun job).
Proof.
  induction ws as [|w ws IH]; [done|]. intros H. destruct w as [| |job|]; [| |by exists 0%nat, job|];
    destruct (IH H) as (i & job & Hi); by exists (S i), job.
Qed.

(** A worker that looks at the queue. *)
Lemma take_first cfg cache s sub ans i job rest : history cfg cache s sub ans -> stopping_ (pool_ s) = false ->
  threads_ (pool_ s) !! i = Some WCheck -> queue_ (pool_ s) = job :: rest ->
  exists s', quiet_step s s' /\ history cfg cache s' sub ans /\ conns_ s' = conns_ s /\
    threads_ (pool_ s') !! i = Some (WRun job).
Proof.
  intros Hh Hs Hi Hq.
  assert (E : worker_take i s = Some (tt, set_pool (set_threads (<[i := WRun job]> (threads_ (pool_ s))) (set_queue rest (pool_ s))) s)).
  { unfold worker_take, worker_section. rewrite Hi, Hq, Hs. done. }
  eexists. split_and!; [by eapply quiet_work, work_take | by eapply hist_take | done|].
  cbn. apply list_lookup_insert_eq. by eapply lookup_lt_Some.
Qed.

(** While there are jobs, some worker can come to one. *)
Lemma job_taken cfg cache s sub ans : initial_ok cfg cache -> history cfg cache s sub ans -> pool_jobs (pool_ s) <> [] ->
  exists s' i job, rtc quiet_step s s' /\ history cfg cache s' sub ans /\ conns_ s' = conns_ s /\
    threads_ (pool_ s') !! i = Some (WRun job).
Proof.
  intros Hok Hh Hj. destruct (history_alive _ _ _ _ _ Hok Hh) as [Hs Hn Hx].
  destruct (decide (running (threads_ (pool_ s)) = [])) as [Hrun|(i & job & Hi)%running_thread].
  2: { exists s, i, job. by split_and!; [apply rtc_refl|..]. }
  unfold pool_jobs in Hj. rewrite Hrun, app_nil_r in Hj. destruct (queue_ (pool_ s)) as [|job rest] eqn:Hq; [done|].
  destruct (threads_ (pool_ s)) as [|w ws] eqn:Ews; [done|]. destruct w as [| |job0|].
  - destruct (take_first cfg cache s sub ans 0 job rest Hh Hs) as (s' & Hst & H); [by rewrite Ews | done|].
    exists s', 0%nat, job. split; [by apply rtc_once | exact H].
  - assert (E : worker_wake 0 s = Some (tt, set_pool (set_threads (<[0%nat := WCheck]> (threads_ (pool_ s))) (pool_ s)) s))
      by (unfold worker_wake; by rewrite Ews).
    pose proof (hist_wake _ _ _ _ _ _ _ Hh E) as Hh1.
    destruct (take_first cfg cache _ sub ans 0 job rest Hh1 Hs) as (s' & Hst & H); [by cbn; rewrite Ews | done|].
    exists s', 0%nat, job. split; [|exact H]. eapply rtc_l; [by eapply quiet_work, work_wake | by apply rtc_once].
  - done.
  - destruct Hx. by left.
Qed.

Lemma jobs_finished cfg cache n s sub ans : initial_ok cfg cache -> history cfg cache s sub ans -> roomy s ->
  (length (pool_jobs (pool_ s)) <= n)%nat ->
  exists s' ans', rtc quiet_step s s' /\ history cfg cache s' sub (ans ++ ans') /\ roomy s' /\ kept s s' /\
    pool_jobs (pool_ s') = [].
Proof.
  intros Hok. revert s ans. induction n as [|n IH]; intros s ans Hh Hm Hl.
  { exists s, []. rewrite app_nil_r. split_and!; try done. apply nil_length_inv. lia. }
  destruct (decide (pool_jobs (pool_ s) = [])) as [Hj|Hj].
  { exists s, []. by rewrite app_nil_r. }
  destruct (job_taken _ _ _ _ _ Hok Hh Hj) as (s1 & i & job & Hst1 & Hh1 & Hc1 & Hi).
  assert (Hm1 : roomy s1) by (unfold roomy; by rewrite Hc1).
  destruct (answer_one _ _ _ _ _ _ _ Hok Hh1 Hm1 Hi) as (s2 & resp & Hst2 & Hh2 & Hm2 & Hk2 & Hp2).
  pose proof (history_jobs _ _ _ _ _ Hh) as P0. pose proof (history_jobs _ _ _ _ _ Hh1) as P1.
  assert (Hp : pool_jobs (pool_ s) ≡ₚ job :: pool_jobs (pool_ s2)).
  { rewrite <- Hp2. eapply (Permutation_app_inv_l (ans.*1)). by rewrite <- P0. }
  destruct (IH s2 (ans ++ [(job, resp)]) Hh2 Hm2) as (s3 & ans3 & Hst3 & Hh3 & Hm3 & Hk3 & Hp3).
  { apply Permutation_length in Hp. cbn in Hp. lia. }
  exists s3, ((job, resp) :: ans3). split_and!; [| by rewrite <- app_assoc in Hh3 | done | | done].
  - etransitivity; [exact Hst1|]. by eapply rtc_l.
  - etransitivity; [|exact Hk3]. intros id c Hc. apply Hk2. by rewrite Hc1.
Qed.

(** ** The output of a connection *)

(** The same for all connections. *)
Record settles (s s' : server) : Prop := mkSettles {
  st_pool : pool_ s' = pool_ s;
  st_ready : ready_connections_ s' = ready_connections_ s;
  st_conns : forall id, option_Forall2 same_buffers (conns_ s !! id) (conns_ s' !! id);
}.

#[local] Instance settles_preorder : PreOrder settles.
Proof.
  split; [intros s; by split|]. intros s1 s2 s3 [P1 R1 H1] [P2 R2 H2]. split; [congruence..|].
  intros id. by etransitivity; [apply H1 | apply H2].
Qed.

Lemma settles_put s s' id c c' : conns_ s !! id = Some c -> pool_ s' = pool_ s ->
  ready_connections_ s' = ready_connections_ s -> conns_ s' = <[id := c']> (conns_ s) -> same_buffers c c' -> settles s s'.
Proof.
  intros Hc Hp Hr Hs Hb. split; [done..|]. intros i. rewrite Hs. destruct (decide (i = id)) as [->|Hne].
  - rewrite lookup_insert_eq, Hc. by constructor.
  - by rewrite lookup_insert_ne.
Qed.

Lemma settles_memory s s' : settles s s' -> memory_ok s -> memory_ok s'.
Proof.
  intros Hs Hm id c' Hc'. pose proof (st_conns _ _ Hs id) as H. rewrite Hc' in H.
  inversion H as [c ? (Hb & Hu & _) Hc|]; subst. rewrite Hb, Hu. apply (Hm id c). done.
Qed.

Ltac run_m := unfold mbind, M_bind, get_conn, put_conn, get_state, lift, called, on_stats, modify; cbn beta iota.

Lemma settles_close id c s x s' : conns_ s !! id = Some c -> has_pending_output c = false ->
  close_connection id s = Some (x, s') -> settles s s'.
Proof.
  intros Hc Hp. unfold close_connection. run_m. rewrite Hc. destruct (closed_ c); [by intros [= _ <-]|].
  intros [= _ <-]. eapply settles_put; try done. by split_and!; auto.
Qed.

Lemma settles_interest id : keeps settles (update_interest id true).
Proof.
  intros s x s'. unfold update_interest. run_m. destruct (conns_ s !! id) as [c|] eqn:Hc; [|done].
  destruct (_ =? _); intros [= _ <-]; [done|]. eapply settles_put; try done. by split_and!; auto.
Qed.

Lemma settles_flush_and_update id : keeps settles (flush_and_update id unwilling true).
Proof.
  intros s x s'. unfold flush_and_update, flush. run_m. destruct (conns_ s !! id) as [c|] eqn:Hc; [|done].
  destruct (flush_output unwilling c) as [[[res c'] wire]|] eqn:E; [|done]. destruct (flush_unwilling _ _ _ _ E) as [Hne Hb].
  cbn [mret M_ret]. rewrite bool_decide_false by done. cbn [conns_ set_socket_calls set_conns]. rewrite lookup_insert_eq.
  set (s1 := set_socket_calls _ _). assert (Hs1 : settles s s1) by (by eapply settles_put).
  destruct (close_after_flush_ c' && negb (has_pending_output c')) eqn:Ec; intros E2; (etransitivity; [exact Hs1|]).
  - apply andb_true_iff in Ec as [_ Ec%negb_true_iff]. eapply settles_close; [|exact Ec | exact E2]. apply lookup_insert_eq.
  - by eapply settles_interest.
Qed.

Lemma settles_complete ready n : keeps settles (complete_all ready (replicate n (unwilling, true))).
Proof.
  revert n. induction ready as [|id ready IH]; intros n; [apply keeps_ret; apply _|]. destruct n as [|n]; [by intros ???|].
  cbn [replicate complete_all]. apply (keeps_bind settles); [|intros; apply IH].
  intros s x s'. unfold complete_one. run_m. destruct (conns_ s !! id) as [c|] eqn:Hc; [|done].
  assert (Hput : settles s (set_conns (<[id := clear_notified c]> (conns_ s)) s)) by (eapply settles_put; try done; by split_and!; auto).
  destruct (closed_ c); [by intros [= _ <-]|]. intros E. etransitivity; [exact Hput | by eapply settles_flush_and_update].
Qed.

(** Every response computed so far for a connection was staged. *)
Definition undropped (cfg : ServerConfig) (id : Z) (s : server) (sub : list Job) (ans : list (Job * Response)) : Prop :=
  exists tr, stream_of cfg id s sub ans tr /\ causal tr /\ ev_dropped tr = [].

Lemma unanswered_undropped tr : ev_answered tr = [] -> ev_dropped tr = [].
Proof.
  unfold ev_answered, ev_dropped. induction tr as [|[] tr IH]; intros H; simplify_eq/=; auto.
Qed.

(** An event that submits nothing. *)
Lemma quiet_history cfg cache ev s s' sub ans : initial_ok cfg cache -> history cfg cache s sub ans -> memory_ok s ->
  event_ok ev s -> dispatch ev s = Some (tt, s') -> pool_ s' = pool_ s ->
  history cfg cache s' sub ans /\ forall id, undropped cfg id s sub ans -> undropped cfg id s' sub ans.
Proof.
  intros Hok Hh Hm Hev E Hp. destruct (started_inv _ _ (history_reachable _ _ _ _ _ Hok Hh)) as [Hi Hcfg].
  assert (Hn : sub ++ new_jobs s s' = sub) by (unfold new_jobs; by rewrite Hp, drop_all, app_nil_r).
  split; [rewrite <- Hn; by eapply hist_event|]. intros id (tr & Ht & Hca & Hd).
  destruct (stream_event cfg id ev s s' sub ans tr Hi Hm Hev Hcfg E Ht) as (tr' & Ht' & Ha). rewrite Hn in Ht'.
  exists (tr ++ tr'). split_and!; [done | by apply causal_app|].
  unfold ev_dropped. rewrite omap_app. fold (ev_dropped tr) (ev_dropped tr'). by rewrite Hd, unanswered_undropped.
Qed.

(** The completion event, with no room on any socket: nothing waits for the
    completion eventfd any more. *)
Lemma completions_settle cfg cache s sub ans : initial_ok cfg cache -> history cfg cache s sub ans -> memory_ok s ->
  exists s', rtc quiet_step s s' /\ history cfg cache s' sub ans /\ pool_ s' = pool_ s /\ ready_connections_ s' = [] /\
    memory_ok s' /\ (forall id, undropped cfg id s sub ans -> undropped cfg id s' sub ans) /\
    (forall id, option_Forall2 same_buffers (conns_ s !! id) (conns_ s' !! id)).
Proof.
  intros Hok Hh Hm. destruct (started_inv _ _ (history_reachable _ _ _ _ _ Hok Hh)) as [Hi _].
  destruct (decide (ready_connections_ s = [])) as [Hr|Hr]; [by exists s|].
  set (ev := EvCompletion (replicate (length (ready_connections_ s)) (unwilling, true))).
  assert (Hev : event_ok ev s).
  { split; [|by rewrite length_replicate]. apply Forall_replicate. apply (willing_answers 0). }
  pose proof (wp_dispatch ev s Hi Hm Hev) as Hw. unfold wp in Hw. destruct (dispatch ev s) as [[[] s']|] eqn:E; [|done].
  pose proof (settles_complete (ready_connections_ s) (length (ready_connections_ s)) _ _ _ E) as Hs.
  destruct (quiet_history _ _ _ _ _ _ _ Hok Hh Hm Hev E (st_pool _ _ Hs)) as [Hh' Hu].
  exists s'. split_and!; [|done|apply Hs..| |done|apply Hs].
  - apply rtc_once. eapply (quiet_event ev); [apply (proj2 (si_wakeup _ _ _ _ Hi) Hr) | done | done].
  - eapply settles_memory; [exact Hs | exact Hm].
Qed.

(** The event for the writability of a connection. *)
Definition writable_event (c : Connection) : Event :=
  EvConnection (fd_ c) EPOLLOUT
    (mkEventIo (willing (length (backlog c))) (RecvFailed EAGAIN) unwilling true).

Lemma writable_flushes (s s' : server) id c : connections_ s !! fd_ c = Some id -> conns_ s !! id = Some c -> flushable c ->
  dispatch (writable_event c) s = Some (tt, s') ->
  pool_ s' = pool_ s /\ exists c', conns_ s' !! id = Some c' /\ backlog c' = [].
Proof.
  intros Ht Hc Hf. destruct (flush_willing (length (backlog c)) c Hf) as (c1 & E1 & Hb1); [unfold len; lia|].
  unfold dispatch, writable_event, handle_connection_event, flush. run_m. rewrite Ht. cbn [io_writable io_flush io_ctl].
  change (has_event EPOLLOUT (Z.lor EPOLLERR EPOLLHUP)) with false. change (has_event EPOLLOUT EPOLLRDHUP) with false.
  change (has_event EPOLLOUT EPOLLOUT) with true. change (has_event EPOLLOUT (Z.lor EPOLLIN EPOLLRDHUP)) with false.
  rewrite !andb_false_r, Hc, E1. cbn. rewrite bool_decide_false by done. cbn. intros E.
  pose proof (settles_flush_and_update _ _ _ _ E) as [Hp _ Hs]. split; [exact Hp|]. specialize (Hs id). cbn in Hs.
  rewrite lookup_insert_eq in Hs. inversion Hs as [x c2 (Hb & _) Ex Hc2|]; subst. exists c2. split; [done | congruence].
Qed.

(** With nothing queued for the event loop, a connection with output is watched
    for writability, so that the event comes. *)
Lemma output_delivered cfg cache s sub ans id c : initial_ok cfg cache -> history cfg cache s sub ans -> memory_ok s ->
  ready_connections_ s = [] -> conns_ s !! id = Some c -> (closed_ c = true -> has_pending_output c = false) ->
  undropped cfg id s sub ans ->
  exists s' c', rtc quiet_step s s' /\ history cfg cache s' sub ans /\ pool_ s' = pool_ s /\ undropped cfg id s' sub ans /\
    conns_ s' !! id = Some c' /\ backlog c' = [].
Proof.
  intros Hok Hh Hm Hr Hc Hcl Hu. destruct (started_inv _ _ (history_reachable _ _ _ _ _ Hok Hh)) as [Hi _].
  pose proof (si_conns _ _ _ _ Hi id c Hc) as Hco. rewrite Hr in Hco. destruct (has_pending_output c) eqn:Hp.
  2: { exists s, c. split_and!; try done. apply no_pending_output; [apply Hco | | done].
       specialize (Hm id c Hc). cbn in Hm. pose proof (len_nonneg (unread c)). lia. }
  assert (Hopen : closed_ c = false) by (destruct (closed_ c); auto).
  assert (Ht : connections_ s !! fd_ c = Some id) by (by apply (co_open _ _ _ _ _ _ _ _ _ Hco)).
  destruct (co_wakeup _ _ _ _ _ _ _ _ _ Hco Hopen) as [Hin|[Hreg _]]; [done | by apply elem_of_nil in Hin|].
  assert (Hev : event_ok (writable_event c) s) by (split; cbn; [apply willing_answers | done | apply (willing_answers 0)]).
  pose proof (wp_dispatch _ s Hi Hm Hev) as Hw. unfold wp in Hw. destruct (dispatch _ s) as [[[] s']|] eqn:E; [|done].
  destruct (writable_flushes s s' id c Ht Hc (co_out _ _ _ _ _ _ _ _ _ Hco) E) as (Hpool & c' & Hc' & Hb).
  destruct (quiet_history _ _ _ _ _ _ _ Hok Hh Hm Hev E Hpool) as [Hh' Hu'].
  exists s', c'. split_and!; try done; [|by apply Hu']. apply rtc_once. eapply quiet_event; [|exact Hev | exact E].
  exists id, c. split_and!; try done.
  destruct Hreg as [-> | ->]; unfold wanted_events; rewrite Hp; by destruct (_ && _).
Qed.

End Progress.

(** ** A witness: one ping at the worker, one queued *)

Definition roomyb (s : @Server LruCache) : bool :=
  forallb (fun '(_, c) => len (backlog c) + len (unread c) + (inflight_ c + 1) * 2 ^ 27 <? 2 ^ 64) (map_to_list (conns_ s)).

Lemma roomyb_ok s : roomyb s = true -> roomy s.
Proof.
  unfold roomyb. rewrite forallb_forall. intros H id c Hc. apply elem_of_map_to_list in Hc.
  apply Z.ltb_lt, (H (id, c)). by apply list_elem_of_In.
Qed.

