(* ===== verification/UniqueFd.v ===== *)
(** * Descriptor ownership

    Models include/cache/unique_fd.h.  [FdWorld] has the live [UniqueFd]
    objects with their [fd_], the descriptors the kernel has open for the
    process, and those handed out by [release].  Calling close(2) on a
    descriptor that is not open is the error the class is there to prevent:
    it may hit a descriptor another thread has just got.  The model answers
    [None] there. *)

From S2P Require Import Prelude.

Record FdWorld := mkFdWorld {
  objects : gmap nat Z;
  open_fds : gset Z;
  released : gset Z;
}.

Definition set_object (o : nat) (fd : Z) (w : FdWorld) : FdWorld :=
  mkFdWorld (<[o := fd]> (objects w)) (open_fds w) (released w).

(** The kernel's side. *)
Definition open_fd (fd : Z) (w : FdWorld) : FdWorld :=
  if 0 <=? fd then mkFdWorld (objects w) ({[fd]} ∪ open_fds w) (released w) else w.

Definition close_fd (fd : Z) (w : FdWorld) : option FdWorld :=
  if bool_decide (fd ∈ open_fds w)
  then Some (mkFdWorld (objects w) (open_fds w ∖ {[fd]}) (released w)) else None.

(** ** The operations of the class *)

Definition construct (o : nat) (fd : Z) (w : FdWorld) : option FdWorld :=
  match objects w !! o with Some _ => None | None => Some (set_object o fd w) end.

Definition valid (fd : Z) : bool := 0 <=? fd.

Definition reset (o : nat) (fd : Z) (w : FdWorld) : option FdWorld :=
  old ← objects w !! o;
  w ← (if (0 <=? old) && negb (old =? fd) then close_fd old w else Some w);
  Some (set_object o fd w).

(** [std::exchange(other.fd_, -1)] *)
Definition exchange (other : nat) (w : FdWorld) : option (Z * FdWorld) :=
  fd ← objects w !! other; Some (fd, set_object other (-1) w).

Definition move_construct (o other : nat) (w : FdWorld) : option FdWorld :=
  '(fd, w) ← exchange other w; construct o fd w.

Definition move_assign (o other : nat) (w : FdWorld) : option FdWorld :=
  if bool_decide (o = other) then Some w else
  '(fd, w) ← exchange other w; reset o fd w.

Definition release (o : nat) (w : FdWorld) : option FdWorld :=
  '(fd, w) ← exchange o w;
  Some (if 0 <=? fd then mkFdWorld (objects w) (open_fds w) ({[fd]} ∪ released w) else w).

Definition destroy (o : nat) (w : FdWorld) : option FdWorld :=
  w ← reset o (-1) w;
  Some (mkFdWorld (delete o (objects w)) (open_fds w) (released w)).

(** ** Programs that use the class *)

(** A descriptor comes from a system call and goes straight into an object;
    a negative one is the failure of the call. *)
Inductive FdOp :=
  | FConstruct (o : nat) (fd : Z)       (* UniqueFd o(::socket(...)) *)
  | FReset (o : nat) (fd : Z)           (* o.reset(::socket(...)), o.reset() *)
  | FMove (o other : nat)               (* UniqueFd o(std::move(other)) *)
  | FAssign (o other : nat)             (* o = std::move(other) *)
  | FRelease (o : nat)
  | FDestroy (o : nat).

Definition fd_op (op : FdOp) (w : FdWorld) : option FdWorld :=
  match op with
  | FConstruct o fd => construct o fd (open_fd fd w)
  | FReset o fd => reset o fd (open_fd fd w)
  | FMove o other => move_construct o other w
  | FAssign o other => move_assign o other w
  | FRelease o => release o w
  | FDestroy o => destroy o w
  end.

Definition fresh_fd (fd : Z) (w : FdWorld) : bool := bool_decide (fd ∉ open_fds w).
Definition live (o : nat) (w : FdWorld) : bool := bool_decide (is_Some (objects w !! o)).

(** What the language and the kernel guarantee: objects are constructed once
    and used while they live, and a new descriptor is not one that is open. *)
Definition fd_op_ok (op : FdOp) (w : FdWorld) : bool :=
  match op with
  | FConstruct o fd => negb (live o w) && fresh_fd fd w
  | FReset o fd => live o w && fresh_fd fd w
  | FMove o other => negb (live o w) && live other w
  | FAssign o other => live o w && live other w
  | FRelease o | FDestroy o => live o w
  end.

Fixpoint fd_run (ops : list FdOp) (w : FdWorld) : option FdWorld :=
  match ops with [] => Some w | op :: ops => w ← fd_op op w; fd_run ops w end.

Fixpoint fd_run_ok (ops : list FdOp) (w : FdWorld) : bool :=
  match ops with
  | [] => true
  | op :: ops => fd_op_ok op w && match fd_op op w with Some w => fd_run_ok ops w | None => true end
  end.

(** ** Invariant *)

(** Every object that holds a descriptor holds an open one, no two the same,
    none of them released; and nothing else is open.  [hand] is a descriptor
    on its way from a system call or an object into an object; negative when
    there is none. *)
Record fd_inv_hand (hand : Z) (w : FdWorld) : Prop := mkFdInvHand {
  fh_owned : forall o fd, objects w !! o = Some fd -> 0 <= fd ->
    fd ∈ open_fds w /\ (fd ∉ released w) /\ fd <> hand;
  fh_unique : forall o o' fd, objects w !! o = Some fd -> objects w !! o' = Some fd -> 0 <= fd -> o = o';
  fh_released : released w ⊆ open_fds w;
  fh_open : forall fd, fd ∈ open_fds w -> 0 <= fd /\
    (fd = hand \/ fd ∈ released w \/ exists o, objects w !! o = Some fd);
  fh_hand : 0 <= hand -> hand ∈ open_fds w /\ (hand ∉ released w);
}.

Definition fd_inv : FdWorld -> Prop := fd_inv_hand (-1).

(** A system call returns a new descriptor, or fails. *)
Lemma hand_new fd w : fd_inv w -> fd ∉ open_fds w -> fd_inv_hand fd (open_fd fd w).
Proof.
  intros [H1 H2 H3 H4 _] Hn. unfold open_fd. destruct (Z.leb_spec 0 fd).
  - split; cbn; try done.
    + intros o x Hx H0. destruct (H1 o x Hx H0). set_solver.
    + set_solver.
    + intros x [->%elem_of_singleton|Hx]%elem_of_union; [by auto|]. destruct (H4 x Hx) as [? [|]]; [lia | auto].
    + set_solver.
  - split; try done.
    + intros o x Hx H0. destruct (H1 o x Hx H0) as (? & ? & _). split_and!; try done. lia.
    + intros x Hx. destruct (H4 x Hx) as [? [|]]; [lia | auto].
    + lia.
Qed.

(** Putting the descriptor at hand into an object that holds none. *)
Lemma hand_store fd o w : fd_inv_hand fd w ->
  (forall x, objects w !! o = Some x -> x < 0) -> fd_inv (set_object o fd w).
Proof.
  intros [H1 H2 H3 H4 H5] Ho. split; cbn; try done.
  - intros p x. destruct (decide (p = o)) as [->|Hne].
    + rewrite lookup_insert_eq. intros [= <-] H0. destruct (H5 H0). split_and!; [done..|lia].
    + rewrite lookup_insert_ne by done. intros Hx H0. destruct (H1 p x Hx H0) as (? & ? & _). split_and!; [done..|lia].
  - intros p q x. destruct (decide (p = o)) as [->|Hp], (decide (q = o)) as [->|Hq];
      rewrite ?lookup_insert_eq, ?lookup_insert_ne by done; try done.
    + intros [= <-] Hx H0. by destruct (H1 q fd Hx H0) as (_ & _ & ?).
    + intros Hx [= <-] H0. by destruct (H1 p fd Hx H0) as (_ & _ & ?).
    + apply H2.
  - intros x Hx. destruct (H4 x Hx) as [H0 [->|[?|[p Hp]]]]; split; auto; right; right.
    + exists o. apply lookup_insert_eq.
    + exists p. rewrite lookup_insert_ne; [done|]. intros <-. specialize (Ho x Hp). lia.
Qed.

(** Taking the descriptor out of an object. *)
Lemma hand_take o fd w : fd_inv w -> objects w !! o = Some fd -> fd_inv_hand fd (set_object o (-1) w).
Proof.
  intros [H1 H2 H3 H4 _] Ho. split; cbn; try done.
  - intros p x. destruct (decide (p = o)) as [->|Hne].
    + rewrite lookup_insert_eq. intros [= <-] ?. lia.
    + rewrite lookup_insert_ne by done. intros Hx H0. destruct (H1 p x Hx H0) as (? & ? & _). split_and!; try done.
      intros ->. by destruct Hne; eapply H2.
  - intros p q x. destruct (decide (p = o)) as [->|Hp], (decide (q = o)) as [->|Hq];
      rewrite ?lookup_insert_eq, ?lookup_insert_ne by done; try done; try (intros [= <-] ??; lia);
      try (intros ? [= <-] ?; lia). apply H2.
  - intros x Hx. destruct (H4 x Hx) as [H0 [?|[?|[p Hp]]]]; [lia|by auto|]. split; [done|].
    destruct (decide (p = o)) as [->|Hne]; [left; congruence|].
    right; right. exists p. by rewrite lookup_insert_ne.
  - intros H0. by destruct (H1 o fd Ho H0) as (? & ? & _).
Qed.

(** Closing the descriptor an object holds, while another is at hand. *)
Lemma hand_close hand o fd w : fd_inv_hand hand w -> objects w !! o = Some fd -> 0 <= fd ->
  exists w', close_fd fd w = Some w' /\ fd_inv_hand hand (set_object o (-1) w') /\
    objects w' = objects w /\ released w' = released w.
Proof.
  intros [H1 H2 H3 H4 H5] Ho H0. destruct (H1 o fd Ho H0) as (Hopen & Hrel & Hh).
  unfold close_fd. rewrite bool_decide_true by done. eexists. split_and!; [done| |done..].
  split; cbn.
  - intros p x. destruct (decide (p = o)) as [->|Hne].
    + rewrite lookup_insert_eq. intros [= <-] ?. lia.
    + rewrite lookup_insert_ne by done. intros Hx Hx0. destruct (H1 p x Hx Hx0) as (? & ? & ?).
      assert (x <> fd) by (intros ->; by destruct Hne; eapply H2). set_solver.
  - intros p q x. destruct (decide (p = o)) as [->|Hp], (decide (q = o)) as [->|Hq];
      rewrite ?lookup_insert_eq, ?lookup_insert_ne by done; try done; try (intros [= <-] ??; lia);
      try (intros ? [= <-] ?; lia). apply H2.
  - set_solver.
  - intros x [Hx Hne]%elem_of_difference. destruct (H4 x Hx) as [Hx0 [?|[?|[p Hp]]]]; split; auto.
    right; right. exists p. rewrite lookup_insert_ne; [done|]. intros <-. set_solver.
  - intros Hh0. destruct (H5 Hh0). set_solver.
Qed.

(** [reset] to the descriptor at hand. *)
Lemma reset_inv fd o w : fd_inv_hand fd w -> is_Some (objects w !! o) ->
  exists w', reset o fd w = Some w' /\ fd_inv w' /\ objects w' = <[o := fd]> (objects w) /\ released w' = released w.
Proof.
  intros Hw [old Ho]. unfold reset. rewrite Ho. cbn [mbind option_bind].
  destruct (Z.leb_spec 0 old) as [H0|H0]; cbn [andb].
  - destruct (fh_owned _ _ Hw o old Ho H0) as (_ & _ & Hne). apply Z.eqb_neq in Hne. rewrite Hne. cbn [negb].
    destruct (hand_close fd o old w Hw Ho H0) as (w' & -> & Hinv & Eo & Er). cbn [mbind option_bind].
    eexists. split_and!; [done | | cbn; by rewrite Eo | done].
    replace (set_object o fd w') with (set_object o fd (set_object o (-1) w'))
      by (unfold set_object; cbn; by rewrite insert_insert_eq).
    apply hand_store; [done|]. cbn. rewrite lookup_insert_eq. intros x [= <-]. lia.
  - eexists. split_and!; try done. apply hand_store; [done|]. intros x Hx. congruence.
Qed.

Lemma fd_op_inv op w : fd_inv w -> fd_op_ok op w = true -> exists w', fd_op op w = Some w' /\ fd_inv w'.
Proof.
  intros Hw. unfold fd_op_ok, live, fresh_fd.
  destruct op as [o fd|o fd|o other|o other|o|o]; cbn [fd_op]; intros Hok; b2p.
  - unfold construct. assert (Ho : objects (open_fd fd w) !! o = None).
    { unfold open_fd. apply eq_None_not_Some. by case_match. }
    rewrite Ho. eexists. split; [done|]. apply hand_store; [by apply hand_new|]. intros x Hx. congruence.
  - destruct (reset_inv fd o (open_fd fd w)) as (w' & -> & ? & _); [by apply hand_new | | by eauto].
    unfold open_fd. by case_match.
  - destruct H0 as [fd Hfd]. unfold move_construct, exchange. rewrite Hfd. cbn [mbind option_bind].
    unfold construct. cbn. assert (o <> other) by (intros ->; rewrite Hfd in H; by destruct H).
    assert (En : objects w !! o = None) by (by apply eq_None_not_Some).
    rewrite lookup_insert_ne, En by done. eexists. split; [done|].
    apply hand_store; [by apply hand_take|]. cbn. rewrite lookup_insert_ne by done. intros x Hx. destruct H. by eexists.
  - unfold move_assign. case_bool_decide; [by eauto|]. destruct H0 as [fd Hfd]. unfold exchange. rewrite Hfd.
    cbn [mbind option_bind]. destruct (reset_inv fd o (set_object other (-1) w)) as (w' & -> & ? & _); [by apply hand_take | | by eauto].
    cbn. by rewrite lookup_insert_ne.
  - destruct Hok as [fd Hfd]. unfold release, exchange. rewrite Hfd. cbn [mbind option_bind]. eexists. split; [done|].
    destruct (hand_take o fd w Hw Hfd) as [H1 H2 H3 H4 H5].
    destruct (Z.leb_spec 0 fd) as [H0|H0].
    + destruct (H5 H0) as [Hop Hre]. split; cbn in *; try done.
      * intros p x Hx Hx0. destruct (H1 p x Hx Hx0) as (? & ? & ?). set_solver by lia.
      * set_solver.
      * intros x Hx. destruct (H4 x Hx) as [? [->|[|]]]; set_solver.
    + split; cbn in *; try done.
      * intros p x Hx Hx0. destruct (H1 p x Hx Hx0) as (? & ? & ?). split_and!; [done..|lia].
      * intros x Hx. destruct (H4 x Hx) as [? [->|]]; [lia | auto].
  - unfold destroy. destruct (reset_inv (-1) o w Hw Hok) as (w' & -> & [H1 H2 H3 H4 H5] & Eo & _).
    cbn [mbind option_bind]. eexists. split; [done|]. split; cbn; try done.
    + intros p x [_ Hx]%lookup_delete_Some. by apply (H1 p).
    + intros p q x [_ Hp]%lookup_delete_Some [_ Hq]%lookup_delete_Some. by apply H2.
    + intros x Hx. destruct (H4 x Hx) as [H0 [?|[?|[p Hp]]]]; [lia|by auto|]. split; [done|]. right; right.
      exists p. rewrite lookup_delete_ne; [done|]. intros <-. rewrite Eo, lookup_insert_eq in Hp. injection Hp as <-. lia.
Qed.

Lemma fd_run_inv ops w : fd_inv w -> fd_run_ok ops w = true -> exists w', fd_run ops w = Some w' /\ fd_inv w'.
Proof.
  revert w. induction ops as [|op ops IH]; intros w Hw Hok; [by eauto|]. cbn in Hok |- *. b2p.
  destruct (fd_op_inv op w Hw H) as (w1 & E & Hw1). rewrite E in H0 |- *. by apply IH.
Qed.

Definition no_fds : FdWorld := mkFdWorld ∅ ∅ ∅.

Lemma no_fds_inv : fd_inv no_fds.
Proof. split; cbn; set_solver by lia. Qed.

(** ** Properties *)

(** C31: whatever a program does with [UniqueFd] objects, close is only ever
    called on an open descriptor, no two objects hold the same one, and none
    leaks: the descriptors open at the end are those that objects still hold
    and those given away with [release]. *)
Theorem unique_fd_ownership ops : fd_run_ok ops no_fds = true ->
  exists w, fd_run ops no_fds = Some w /\
    (forall o o' fd, objects w !! o = Some fd -> objects w !! o' = Some fd -> 0 <= fd -> o = o') /\
    (forall fd, fd ∈ open_fds w <-> (fd ∈ released w) \/ 0 <= fd /\ exists o, objects w !! o = Some fd).
Proof.
  intros Hok. destruct (fd_run_inv ops no_fds no_fds_inv Hok) as (w & E & [H1 H2 H3 H4 _]).
  exists w. split_and!; [done..|]. intros fd. split.
  - intros Hfd. destruct (H4 fd Hfd) as [? [|]]; [lia | naive_solver].
  - intros [Hr|[H0 [o Ho]]]; [set_solver | by apply (H1 o fd Ho H0)].
Qed.

(** An accepted client moved into a connection, a failed socket call, a
    self-assignment, and the destruction of everything. *)
Definition demo_fd_ops : list FdOp :=
  [FConstruct 0 5; FConstruct 1 (-1); FMove 2 0; FAssign 2 2; FReset 1 6; FAssign 1 2; FDestroy 0; FDestroy 1; FDestroy 2].

Lemma unique_fd_ownership_witness : exists w, fd_run demo_fd_ops no_fds = Some w /\ open_fds w = ∅.
Proof.
  destruct (unique_fd_ownership demo_fd_ops) as (w & E & _); [vm_compute; reflexivity|].
  exists w. split; [exact E|]. vm_compute in E. injection E as <-. vm_compute. reflexivity.
Defined.
