(* ===== verification/Client.v ===== *)
(** * The client library

    Models client/cache_client.h and client/cache_client.cpp: a blocking
    client with one request outstanding.  The results of the system calls are
    arguments; what [recv] returns may depend on the bytes sent before, so the
    peer is a function from those bytes to the results.  A result [None] means
    that the arguments give no result for some call.  An error is a message,
    and the empty string is success, as in the source. *)

From S2P Require Import Prelude Protocol Stats Serializer Sys.

Record CacheResult := mkCacheResult {
  cr_status : Status.t;
  cr_value : bytes;
  cr_error : bytes;
}.

Definition default_cache_result : CacheResult := mkCacheResult Status.kInternalError [] [].

Definition is_empty_string (s : bytes) : bool := match s with [] => true | _ => false end.

Definition ok (r : CacheResult) : bool := is_empty_string (cr_error r).
Definition found (r : CacheResult) : bool := ok r && bool_decide (cr_status r = Status.kOk).

Record StatsResult := mkStatsResult {
  sr_stats : StatsSnapshot;
  sr_error : bytes;
}.

Record CacheClient := mkCacheClient {
  cc_socket_path_ : bytes;
  cc_fd_ : Z;
  cc_next_request_id_ : Z;
  cc_timeout_ms_ : Z;
  cc_in_buf_ : bytes;
  cc_out_buf_ : bytes;
}.

Definition new_client (socket_path : bytes) : CacheClient := mkCacheClient socket_path (-1) 1 5000 [] [].

Definition cc_set_fd (fd : Z) (c : CacheClient) : CacheClient :=
  mkCacheClient (cc_socket_path_ c) fd (cc_next_request_id_ c) (cc_timeout_ms_ c) (cc_in_buf_ c) (cc_out_buf_ c).
Definition cc_set_next_request_id (n : Z) (c : CacheClient) : CacheClient :=
  mkCacheClient (cc_socket_path_ c) (cc_fd_ c) n (cc_timeout_ms_ c) (cc_in_buf_ c) (cc_out_buf_ c).
Definition set_timeout_ms (ms : Z) (c : CacheClient) : CacheClient :=
  mkCacheClient (cc_socket_path_ c) (cc_fd_ c) (cc_next_request_id_ c) ms (cc_in_buf_ c) (cc_out_buf_ c).
Definition cc_set_in_buf (b : bytes) (c : CacheClient) : CacheClient :=
  mkCacheClient (cc_socket_path_ c) (cc_fd_ c) (cc_next_request_id_ c) (cc_timeout_ms_ c) b (cc_out_buf_ c).
Definition cc_set_out_buf (b : bytes) (c : CacheClient) : CacheClient :=
  mkCacheClient (cc_socket_path_ c) (cc_fd_ c) (cc_next_request_id_ c) (cc_timeout_ms_ c) (cc_in_buf_ c) b.

Definition connected (c : CacheClient) : bool := 0 <=? cc_fd_ c.

(** The limits the client parses responses with. *)
Definition kClientLimits : Limits := mkLimits kMaxKeyBytes kMaxValueBytes.

(** The system calls on descriptors, in order. *)
Inductive ClientCall :=
  | CallSocket
  | CallSetRcvTimeo (fd sec usec : Z)
  | CallSetSndTimeo (fd sec usec : Z)
  | CallConnect (fd : Z) (path : bytes)
  | CallClose (fd : Z).

(** [UniqueFd::reset(fd)] on an object that holds [old]. *)
Definition reset_calls (old fd : Z) : list ClientCall :=
  if (0 <=? old) && negb (old =? fd) then [CallClose old] else [].

Definition disconnect (c : CacheClient) : CacheClient * list ClientCall :=
  (cc_set_in_buf [] (cc_set_fd (-1) c), reset_calls (cc_fd_ c) (-1)).

(** The defaulted move operations and destructor, member by member.  What the
    standard library leaves in a string or vector that was moved from is not
    specified: [path], [in_buf] and [out_buf]. *)
Definition moved_from (path in_buf out_buf : bytes) (c : CacheClient) : CacheClient :=
  mkCacheClient path (-1) (cc_next_request_id_ c) (cc_timeout_ms_ c) in_buf out_buf.
Definition move_client (path in_buf out_buf : bytes) (other : CacheClient) : CacheClient * CacheClient :=
  (other, moved_from path in_buf out_buf other).
Definition move_assign_client (path in_buf out_buf : bytes) (c other : CacheClient)
    : CacheClient * CacheClient * list ClientCall :=
  (other, moved_from path in_buf out_buf other, reset_calls (cc_fd_ c) (cc_fd_ other)).
Definition destroy_client (c : CacheClient) : list ClientCall := reset_calls (cc_fd_ c) (-1).

(** However a client is moved, its descriptor is closed once. *)
Lemma move_client_closes path in_buf out_buf other :
  let '(c, other') := move_client path in_buf out_buf other in
  destroy_client other' ++ destroy_client c = destroy_client other.
Proof. done. Qed.

Lemma move_assign_client_closes path in_buf out_buf c other :
  cc_fd_ c <> cc_fd_ other \/ cc_fd_ c < 0 ->
  let '(c', other', calls) := move_assign_client path in_buf out_buf c other in
  calls ++ destroy_client other' ++ destroy_client c' = destroy_client c ++ destroy_client other.
Proof.
  intros H. unfold move_assign_client, destroy_client, moved_from, reset_calls. cbn [cc_fd_ app].
  destruct (Z.leb_spec 0 (cc_fd_ c)); [|done]. rewrite (proj2 (Z.eqb_neq (cc_fd_ c) (cc_fd_ other))) by lia.
  by rewrite (proj2 (Z.eqb_neq (cc_fd_ c) (-1))) by lia.
Qed.

Record ConnectIo := mkConnectIo {
  ci_socket : FdResult;
  ci_rcvtimeo : CallResult;
  ci_sndtimeo : CallResult;
  ci_connect : CallResult;
}.

Section Client.
(** [std::error_code(errno, std::generic_category()).message()], and the
    [errno] an earlier call left, which is what the source reports when [send]
    returns 0. *)
Context (errno_text : Z -> bytes) (stale_errno : Z).

Definition errno_message (what : bytes) (errno : Z) : bytes := what ++ lit ": " ++ errno_text errno.

(** ** Connecting *)

(** The descriptor is closed on every early return: [UniqueFd fd]. *)
Definition connect (c : CacheClient) (io : ConnectIo) : bytes * CacheClient * list ClientCall :=
  if sun_path_size <=? len (cc_socket_path_ c)
  then (lit "socket path too long for AF_UNIX", c, []) else
  match ci_socket io with
  | NoFd errno => (errno_message (lit "socket") errno, c, [CallSocket])
  | NewFd fd =>
      let sec := Z.quot (cc_timeout_ms_ c) 1000 in
      let usec := Z.rem (cc_timeout_ms_ c) 1000 * 1000 in
      let '(timeo, calls) :=
        if 0 <? cc_timeout_ms_ c then
          match ci_rcvtimeo io with
          | Success => (ci_sndtimeo io, [CallSetRcvTimeo fd sec usec; CallSetSndTimeo fd sec usec])
          | Failure errno => (Failure errno, [CallSetRcvTimeo fd sec usec])
          end
        else (Success, []) in
      match timeo with
      | Failure errno =>
          (errno_message (lit "setsockopt(SO_*TIMEO)") errno, c, CallSocket :: calls ++ [CallClose fd])
      | Success =>
          let calls := CallSocket :: calls ++ [CallConnect fd (cc_socket_path_ c)] in
          match ci_connect io with
          | Failure errno =>
              (errno_message (lit "connect(" ++ cc_socket_path_ c ++ lit ")") errno, c, calls ++ [CallClose fd])
          | Success => ([], cc_set_in_buf [] (cc_set_fd fd c), calls ++ reset_calls (cc_fd_ c) fd)
          end
      end
  end.

(** ** Sending *)

(** The message, and the bytes the kernel took. *)
Fixpoint send_all (sends : list (Z -> SendResult)) (frame : bytes) : option (bytes * bytes) :=
  match frame with
  | [] => Some ([], [])
  | _ =>
      match sends with
      | [] => None
      | send :: sends =>
          match send (len frame) with
          | Sent n =>
              if 0 <? n then
                '(error, wire) ← send_all sends (drop (Z.to_nat n) frame);
                Some (error, take (Z.to_nat n) frame ++ wire)
              else Some (errno_message (lit "send") stale_errno, [])
          | SendFailed errno =>
              if errno =? EINTR then send_all sends frame
              else if (errno =? EAGAIN) || (errno =? EWOULDBLOCK) then Some (lit "send timed out", [])
              else Some (errno_message (lit "send") errno, [])
          end
      end
  end.

(** ** Receiving *)

(** The checks on a complete response. *)
Definition check_response (expected_id : Z) (expected_opcode : Opcode.t) (out : Response) : bytes :=
  if negb (rs_request_id out =? expected_id) then
    lit "response correlation failure: expected request id " ++ to_string expected_id ++
    lit ", got " ++ to_string (rs_request_id out)
  else if negb (bool_decide (rs_opcode out = expected_opcode)) then
    lit "response opcode mismatch: expected " ++ opcode_to_string expected_opcode ++
    lit ", got " ++ opcode_to_string (rs_opcode out)
  else [].

Fixpoint receive_response (recvs : list RecvResult) (expected_id : Z) (expected_opcode : Opcode.t)
    (out : Response) (c : CacheClient) : option (bytes * Response * CacheClient * list ClientCall) :=
  '(result, out) ← deserialize_response (cc_in_buf_ c) kClientLimits out;
  let dropped error := let '(c, calls) := disconnect c in Some (error, out, c, calls) in
  match pr_status result with
  | ParseStatus.kComplete =>
      let c := cc_set_in_buf (drop (Z.to_nat (pr_consumed result)) (cc_in_buf_ c)) c in
      Some (check_response expected_id expected_opcode out, out, c, [])
  | ParseStatus.kMalformed =>
      dropped (lit "malformed response frame: " ++ parse_error_to_string (pr_error result))
  | ParseStatus.kNeedMoreData =>
      match recvs with
      | [] => None
      | Received [] :: _ => dropped (lit "server closed the connection")
      | Received data :: recvs =>
          receive_response recvs expected_id expected_opcode out (cc_set_in_buf (cc_in_buf_ c ++ data) c)
      | RecvFailed errno :: recvs =>
          if errno =? EINTR then receive_response recvs expected_id expected_opcode out c
          else if (errno =? EAGAIN) || (errno =? EWOULDBLOCK) then dropped (lit "receive timed out")
          else dropped (errno_message (lit "recv") errno)
      end
  end.

(** ** Requests *)

(** The answers of the kernel to the sends, and of the peer to what it got. *)
Record ExecIo := mkExecIo {
  xi_sends : list (Z -> SendResult);
  xi_peer : bytes -> list RecvResult;
}.

(** The result, the client, the bytes sent and the calls made. *)
Definition Executed : Type := CacheResult * CacheClient * bytes * list ClientCall.

Definition execute (opcode : Opcode.t) (key value : bytes) (io : ExecIo) (c : CacheClient) : option Executed :=
  let failed error c wire calls := Some (mkCacheResult Status.kInternalError [] error, c, wire, calls) in
  if negb (connected c) then failed (lit "not connected") c [] [] else
  if kMaxKeyBytes <? len key then failed (lit "key exceeds protocol maximum") c [] [] else
  if kMaxValueBytes <? len value then failed (lit "value exceeds protocol maximum") c [] [] else
  let request := mkRequest opcode (cc_next_request_id_ c) key value in
  let c := cc_set_next_request_id (u64 (cc_next_request_id_ c + 1)) c in
  let c := cc_set_out_buf (serialize_request_into request []) c in
  '(error, wire) ← send_all (xi_sends io) (cc_out_buf_ c);
  if negb (is_empty_string error) then failed error c wire [] else
  '(error, response, c, calls) ←
    receive_response (xi_peer io wire) (rq_request_id request) (rq_opcode request) default_response c;
  if negb (is_empty_string error) then failed error c wire calls else
  Some (mkCacheResult (rs_status response) (rs_value response) [], c, wire, calls).

Definition client_get (key : bytes) := execute Opcode.kGet key [].
Definition client_put (key value : bytes) := execute Opcode.kPut key value.
Definition client_erase (key : bytes) := execute Opcode.kDelete key [].
Definition client_ping := execute Opcode.kPing [] [].
Definition client_clear := execute Opcode.kClear [] [].

Definition client_stats (io : ExecIo) (c : CacheClient)
    : option (StatsResult * CacheClient * bytes * list ClientCall) :=
  '(raw, c, wire, calls) ← execute Opcode.kStats [] [] io c;
  if negb (ok raw) then Some (mkStatsResult default_stats (cr_error raw), c, wire, calls) else
  if negb (bool_decide (cr_status raw = Status.kOk)) then
    Some (mkStatsResult default_stats (lit "server returned " ++ status_to_string (cr_status raw)), c, wire, calls)
  else
  '(decoded, stats) ← deserialize_stats (cr_value raw) default_stats;
  let error := if decoded : bool then [] else lit "malformed STATS payload" in
  Some (mkStatsResult stats error, c, wire, calls).

(** ** Lemmas *)

Lemma errno_message_nonempty what errno : errno_message what errno <> [].
Proof. unfold errno_message. destruct what; discriminate. Qed.

(** What was sent is the frame, or an error is reported and it is a proper
    prefix of the frame. *)
Lemma send_all_spec sends frame error wire : Forall kernel_send sends ->
  send_all sends frame = Some (error, wire) ->
  (error = [] /\ wire = frame) \/ (error <> [] /\ exists rest, rest <> [] /\ frame = wire ++ rest).
Proof.
  intros Hk. revert frame error wire. induction Hk as [|send sends Hs _ IH]; intros frame error wire;
    (destruct frame as [|b frame]; cbn [send_all]; [intros [= <- <-]; by left|]); [done|].
  set (frame' := b :: frame). assert (Hl : 0 < len frame') by (unfold frame'; rewrite len_cons; pose proof (len_nonneg frame); lia).
  specialize (Hs (len frame') Hl). change (length (b :: frame)) with (length frame').
  assert (Hstop : forall e, e <> [] -> e = error -> [] = wire -> (error = [] /\ wire = frame') \/
    (error <> [] /\ exists rest, rest <> [] /\ frame' = wire ++ rest)).
  { intros e He -> <-. right. split; [done|]. by exists frame'. }
  destruct (send (len frame')) as [n|errno].
  - destruct (Z.ltb_spec 0 n); [|intros [= E1 E2]; by eapply Hstop; [apply errno_message_nonempty|..]].
    destruct (send_all sends (drop (Z.to_nat n) frame')) as [[e w]|] eqn:E; [|done].
    intros [= <- <-]. destruct (IH _ _ _ E) as [[-> ->]|(He & rest & Hr & Hd)].
    + left. by rewrite take_drop.
    + right. split; [done|]. exists rest. split; [done|].
      by rewrite <- app_assoc, <- Hd, take_drop.
  - split_if; [apply IH|]. split_if; intros [= E1 E2]; (by eapply Hstop; [|done..]) || by eapply Hstop; [apply errno_message_nonempty|..].
Qed.

Lemma send_all_total sends frame :
  (exists pre, sends = pre ++ [fun _ => SendFailed EAGAIN]) -> is_Some (send_all sends frame).
Proof.
  intros [pre ->]. revert frame. induction pre as [|send pre IH]; intros [|b frame]; cbn [app send_all]; try by eexists.
  destruct (send _) as [n|errno].
  - split_if; [|by eexists]. destruct (IH (drop (Z.to_nat n) (b :: frame))) as [[e w] ->]. by eexists.
  - repeat split_if; try by eexists. apply IH.
Qed.
End Client.

(** The bytes a list of results of [recv] delivers, when it has no error but
    interruptions, and no end of the stream. *)
Fixpoint recv_data (recvs : list RecvResult) : option bytes :=
  match recvs with
  | [] => Some []
  | Received [] :: _ => None
  | Received data :: recvs => rest ← recv_data recvs; Some (data ++ rest)
  | RecvFailed errno :: recvs => if errno =? EINTR then recv_data recvs else None
  end.

Lemma recv_data_cons r recvs data : recv_data (r :: recvs) = Some data ->
  (exists d rest, r = Received d /\ d <> [] /\ recv_data recvs = Some rest /\ data = d ++ rest) \/
  (r = RecvFailed EINTR /\ recv_data recvs = Some data).
Proof.
  cbn. destruct r as [[|b d]|errno]; [done| |].
  - destruct (recv_data recvs) as [rest|]; [|done]. intros [= <-]. left. by exists (b :: d), rest.
  - destruct (Z.eqb_spec errno EINTR) as [->|]; [|done]. by right.
Qed.

(** All bytes among the results. *)
Definition recv_bytes (recvs : list RecvResult) : bytes :=
  concat (map (fun r => match r with Received d => d | RecvFailed _ => [] end) recvs).

Lemma check_response_ok id op r : check_response id op r = [] <-> rs_request_id r = id /\ rs_opcode r = op.
Proof.
  unfold check_response. destruct (Z.eqb_spec (rs_request_id r) id); cbn [negb].
  - case_bool_decide; cbn [negb]; split; try done; try discriminate. by intros [_ ?].
  - split; [discriminate | by intros [? _]].
Qed.

Section Receive.
Context (errno_text : Z -> bytes).

Lemma receive_response_unfold recvs id op out c : receive_response errno_text recvs id op out c =
  '(result, out) ← deserialize_response (cc_in_buf_ c) kClientLimits out;
  let dropped error := let '(c, calls) := disconnect c in Some (error, out, c, calls) in
  match pr_status result with
  | ParseStatus.kComplete =>
      let c := cc_set_in_buf (drop (Z.to_nat (pr_consumed result)) (cc_in_buf_ c)) c in
      Some (check_response id op out, out, c, [])
  | ParseStatus.kMalformed =>
      dropped (lit "malformed response frame: " ++ parse_error_to_string (pr_error result))
  | ParseStatus.kNeedMoreData =>
      match recvs with
      | [] => None
      | Received [] :: _ => dropped (lit "server closed the connection")
      | Received data :: recvs => receive_response errno_text recvs id op out (cc_set_in_buf (cc_in_buf_ c ++ data) c)
      | RecvFailed errno :: recvs =>
          if errno =? EINTR then receive_response errno_text recvs id op out c
          else if (errno =? EAGAIN) || (errno =? EWOULDBLOCK) then dropped (lit "receive timed out")
          else dropped (errno_message errno_text (lit "recv") errno)
      end
  end.
Proof. by destruct recvs. Qed.

(** A response that arrives in any pieces is returned, whatever the peer does
    then, and what follows it stays in the buffer. *)
Lemma receive_frame_then recvs later data c r rest id op out : response_ok kClientLimits r = true ->
  recv_data recvs = Some data -> cc_in_buf_ c ++ data = serialize_response r ++ rest ->
  exists left more, rest = left ++ more /\
    receive_response errno_text (recvs ++ later) id op out c
      = Some (check_response id op r, r, cc_set_in_buf left c, []).
Proof.
  intros Hok. revert data c. induction recvs as [|x recvs IH]; intros data c Hd Hb;
    (destruct (app_eq_cases _ _ _ _ Hb) as [(left & Ei & Er)|(q & Hq & Ef & Ed)];
     cbn [app];
     [exists left, data; split; [done|]; rewrite receive_response_unfold, Ei, deserialize_response_frame by done;
      cbn [mbind option_bind complete pr_status pr_consumed]; unfold len; by rewrite Nat2Z.id, drop_app_length
     |rewrite receive_response_unfold, (deserialize_response_prefix _ r _ q) by done; cbn [mbind option_bind need_more pr_status]]).
  - injection Hd as <-. by destruct q.
  - destruct (recv_data_cons x recvs data Hd) as [(d & rest' & -> & Hne & Hd' & ->)|[-> Hd']].
    + destruct d as [|b d]; [done|]. rewrite app_assoc in Hb.
      destruct (IH rest' (cc_set_in_buf (cc_in_buf_ c ++ b :: d) c) Hd' Hb) as (left & more & E & ->).
      by exists left, more.
    + destruct (IH data c Hd' Hb) as (left & more & E & ->). by exists left, more.
Qed.

Lemma receive_frame recvs data c r rest id op out : response_ok kClientLimits r = true ->
  recv_data recvs = Some data -> cc_in_buf_ c ++ data = serialize_response r ++ rest ->
  exists left more, rest = left ++ more /\
    receive_response errno_text recvs id op out c
      = Some (check_response id op r, r, cc_set_in_buf left c, []).
Proof. pose proof (receive_frame_then recvs [] data c r rest id op out) as H. by rewrite app_nil_r in H. Qed.

(** How [receive_response] leaves the client. *)
Inductive receive_end (c : CacheClient) (recvs : list RecvResult) (id : Z) (op : Opcode.t)
    : bytes -> Response -> CacheClient -> list ClientCall -> Prop :=
  | end_response r used rest left : response_ok kClientLimits r = true ->
      recvs = used ++ rest -> recv_data used = Some (recv_bytes used) ->
      cc_in_buf_ c ++ recv_bytes used = serialize_response r ++ left ->
      receive_end c recvs id op (check_response id op r) r (cc_set_in_buf left c) []
  | end_dropped error out : error <> [] ->
      receive_end c recvs id op error out (disconnect c).1 (disconnect c).2.

Lemma receive_end_more c x recvs id op e r c' calls : recv_data [x] = Some (recv_bytes [x]) ->
  receive_end (cc_set_in_buf (cc_in_buf_ c ++ recv_bytes [x]) c) recvs id op e r c' calls ->
  receive_end c (x :: recvs) id op e r c' calls.
Proof.
  intros Hx [r0 used rest left Hok -> Hd Hb|error out He]; [|exact (end_dropped c (x :: recvs) id op error out He)].
  apply (end_response c _ id op r0 (x :: used) rest left); [done | done | |].
  { unfold recv_bytes in *. cbn in *. destruct x as [[|b d]|errno]; [done | by rewrite Hd|]. by destruct (errno =? EINTR). }
  cbn [cc_in_buf_ cc_set_in_buf] in Hb. rewrite <- Hb, <- app_assoc. f_equal.
  unfold recv_bytes. cbn [map concat]. by rewrite app_nil_r.
Qed.

Lemma receive_outcome recvs id op out c :
  (exists pre, recvs = pre ++ [RecvFailed EAGAIN]) ->
  exists e r c' calls, receive_response errno_text recvs id op out c = Some (e, r, c', calls) /\
    receive_end c recvs id op e r c' calls.
Proof.
  assert (Hdrop : forall recvs c e r, e <> [] -> exists e0 r0 c' calls,
    (let '(c, calls) := disconnect c in Some (e, r, c, calls)) = Some (e0, r0, c', calls) /\
    receive_end c recvs id op e0 r0 c' calls).
  { intros rs d e r He. eexists _, _, _, _. split; [reflexivity|]. by apply end_dropped. }
  intros [pre ->]. revert c out. induction pre as [|x pre IH]; intros c out; cbn [app receive_response];
    destruct (deserialize_response_outcome (cc_in_buf_ c) kClientLimits out) as (res & r & E & Hc & Ho & _);
    rewrite E; cbn [mbind option_bind]; destruct (pr_status res) eqn:Es;
    try (apply Hdrop; discriminate).
  1, 2: rewrite (Hc eq_refl) in E; apply deserialize_response_complete in E as (Hok & Hn & rest & Hb);
    eexists _, _, _, _; (split; [reflexivity|]); rewrite Hn; unfold len; rewrite Nat2Z.id;
    rewrite Hb at 1; rewrite drop_app_length;
    eapply (end_response c _ id op r []); [done | reflexivity | done | cbn; by rewrite app_nil_r].
  rewrite (Ho ltac:(discriminate)). destruct x as [[|b d]|errno].
  - apply Hdrop. discriminate.
  - destruct (IH (cc_set_in_buf (cc_in_buf_ c ++ b :: d) c) out) as (e & r' & c' & calls & -> & Hend).
    eexists _, _, _, _; split; [reflexivity|]. apply receive_end_more; [done|]. unfold recv_bytes. cbn [map concat].
    by rewrite app_nil_r.
  - destruct (errno =? EINTR) eqn:Ei.
    + destruct (IH c out) as (e & r' & c' & calls & -> & Hend). eexists _, _, _, _; split; [reflexivity|].
      apply receive_end_more; [cbn; by rewrite Ei|]. unfold recv_bytes. cbn [map concat]. rewrite app_nil_r.
      by replace (cc_set_in_buf (cc_in_buf_ c) c) with c by (by destruct c).
    + destruct (_ || _); apply Hdrop; [discriminate | apply errno_message_nonempty].
Qed.
End Receive.

(** ** Properties *)

Section Execute.
Context (errno_text : Z -> bytes) (stale_errno : Z).

(** The request [execute] sends. *)
Definition client_request (c : CacheClient) (op : Opcode.t) (key value : bytes) : Request :=
  mkRequest op (cc_next_request_id_ c) key value.

(** The part of [execute] after its checks. *)
Lemma execute_sends op key value io c : connected c = true ->
  len key <= kMaxKeyBytes -> len value <= kMaxValueBytes ->
  let req := client_request c op key value in
  let c1 := cc_set_out_buf (serialize_request req)
              (cc_set_next_request_id (u64 (cc_next_request_id_ c + 1)) c) in
  execute errno_text stale_errno op key value io c =
    '(error, wire) ← send_all errno_text stale_errno (xi_sends io) (serialize_request req);
    if negb (is_empty_string error)
    then Some (mkCacheResult Status.kInternalError [] error, c1, wire, []) else
    '(error, response, c2, calls) ←
      receive_response errno_text (xi_peer io wire) (cc_next_request_id_ c) op default_response c1;
    if negb (is_empty_string error)
    then Some (mkCacheResult Status.kInternalError [] error, c2, wire, calls) else
    Some (mkCacheResult (rs_status response) (rs_value response) [], c2, wire, calls).
Proof.
  intros Hc Hk Hv req c1. unfold execute. rewrite Hc. cbn [negb].
  destruct (Z.ltb_spec kMaxKeyBytes (len key)); [lia|].
  destruct (Z.ltb_spec kMaxValueBytes (len value)); [lia|]. reflexivity.
Qed.

(** C21: whatever the kernel and the peer do, a request on a socket with
    timeouts returns.  It succeeds only if the whole request was sent and the
    next bytes of the stream are a well-formed response with its id and its
    opcode, whose status and value are returned, the rest staying buffered.
    Otherwise an error is reported with no value, and the client is one of:
    still connected after part of the request was sent; disconnected, the
    descriptor closed and the buffer empty; still connected, with a response
    to something else taken from the stream. *)
Theorem client_execute_outcome op key value io c : connected c = true ->
  len key <= kMaxKeyBytes -> len value <= kMaxValueBytes -> socket_answers (xi_sends io) ->
  (forall wire, exists pre, xi_peer io wire = pre ++ [RecvFailed EAGAIN]) ->
  let frame := serialize_request (client_request c op key value) in
  exists res c' wire calls, execute errno_text stale_errno op key value io c = Some (res, c', wire, calls) /\
    cc_next_request_id_ c' = u64 (cc_next_request_id_ c + 1) /\
    ((ok res = true /\ wire = frame /\ calls = [] /\ cc_fd_ c' = cc_fd_ c /\
      exists r used rest, response_ok kClientLimits r = true /\ xi_peer io wire = used ++ rest /\
        cc_in_buf_ c ++ recv_bytes used = serialize_response r ++ cc_in_buf_ c' /\
        rs_request_id r = cc_next_request_id_ c /\ rs_opcode r = op /\
        cr_status res = rs_status r /\ cr_value res = rs_value r) \/
     (ok res = false /\ cr_status res = Status.kInternalError /\ cr_value res = [] /\
      ((calls = [] /\ cc_fd_ c' = cc_fd_ c /\ exists rest, rest <> [] /\ frame = wire ++ rest) \/
       (wire = frame /\ calls = [CallClose (cc_fd_ c)] /\ cc_fd_ c' = -1 /\ cc_in_buf_ c' = []) \/
       (wire = frame /\ calls = [] /\ cc_fd_ c' = cc_fd_ c /\
        exists r used rest, response_ok kClientLimits r = true /\ xi_peer io wire = used ++ rest /\
          cc_in_buf_ c ++ recv_bytes used = serialize_response r ++ cc_in_buf_ c' /\
          (rs_request_id r, rs_opcode r) <> (cc_next_request_id_ c, op))))).
Proof.
  intros Hc Hk Hv [Hks Hsend] Hpeer frame. rewrite execute_sends by done. fold frame.
  destruct (send_all_total errno_text stale_errno (xi_sends io) frame Hsend) as [[error wire] E].
  rewrite E. cbn [mbind option_bind].
  destruct (send_all_spec errno_text stale_errno _ _ _ _ Hks E) as [[-> ->]|(He & rest & Hr & Hf)].
  2:{ destruct error as [|b error]; [done|]. cbn [is_empty_string negb]. eexists _, _, _, _. split_and!; [done..|].
      right. split_and!; try done. left. split_and!; try done. by exists rest. }
  cbn [is_empty_string negb]. set (c1 := cc_set_out_buf _ _).
  destruct (receive_outcome errno_text (xi_peer io frame) (cc_next_request_id_ c) op default_response c1 (Hpeer frame))
    as (e & r & c' & calls & -> & Hend). cbn [mbind option_bind].
  destruct Hend as [r used rest left Hok Hu _ Hb|error out He].
  - destruct (check_response (cc_next_request_id_ c) op r) as [|b e] eqn:Ec; cbn [is_empty_string negb];
      eexists _, _, _, _; (split_and!; [done..|]).
    + apply check_response_ok in Ec as [Hid Hop]. left. split_and!; try done. by exists r, used, rest.
    + right. split_and!; try done. right; right. split_and!; try done. exists r, used, rest. split_and!; try done.
      intros [= Hid Hop]. assert (check_response (cc_next_request_id_ c) op r = []) by (by apply check_response_ok). congruence.
  - destruct error as [|b error]; [done|]. cbn [is_empty_string negb]. eexists _, _, _, _. split_and!; [done..|].
    right. split_and!; try done. right; left. split_and!; try done. unfold connected in Hc.
    cbn [disconnect snd]. unfold reset_calls. change (cc_fd_ c1) with (cc_fd_ c). rewrite Hc.
    apply Z.leb_le in Hc. destruct (Z.eqb_spec (cc_fd_ c) (-1)); [lia | done].
Qed.
End Execute.

(** A client on descriptor 3, and a peer that answers a PING in two pieces. *)
Definition demo_client : CacheClient := cc_set_fd 3 (new_client (lit "/tmp/s")).
Definition demo_text (errno : Z) : bytes := lit "error".
Definition accepts_all : list (Z -> SendResult) := [fun n => Sent n; fun _ => SendFailed EAGAIN].
Definition demo_pong : bytes := serialize_response (mkResponse Opcode.kPing Status.kOk 1 []).
Definition demo_io : ExecIo := mkExecIo accepts_all
  (fun _ => [Received (take 5 demo_pong); RecvFailed EINTR; Received (drop 5 demo_pong)] ++ [RecvFailed EAGAIN]).

Lemma accepts_all_ok : socket_answers accepts_all.
Proof.
  split; [|by exists [fun n => Sent n]].
  apply Forall_cons_2; [intros n Hn; simpl; lia | by repeat constructor].
Qed.

Lemma client_execute_outcome_witness :
  exists res c' wire calls, client_ping demo_text 0 demo_io demo_client = Some (res, c', wire, calls) /\
    ok res = true /\ cc_next_request_id_ c' = 2.
Proof.
  destruct (client_execute_outcome demo_text 0 Opcode.kPing [] [] demo_io demo_client)
    as (res & c' & wire & calls & E & Hid & _);
    [vm_compute; reflexivity | vm_compute; discriminate | vm_compute; discriminate | apply accepts_all_ok
    | intros w; eexists; reflexivity |].
  exists res, c', wire, calls. split; [exact E|]. split; [|exact Hid].
  vm_compute in E. injection E as <- _ _ _. reflexivity.
Defined.

(** A socket that takes a header and a one-byte key, then times out. *)
Definition takes_25 : list (Z -> SendResult) := [fun _ => Sent 25; fun _ => SendFailed EAGAIN].
Definition io_timeout : ExecIo := mkExecIo takes_25 (fun _ => []).
Definition io_put_reply : ExecIo := mkExecIo accepts_all
  (fun _ => [Received (serialize_response (mkResponse Opcode.kPut Status.kOk 1 [])); RecvFailed EAGAIN]).

(** after a send that timed out the client stays connected with part of a
    frame on the wire, and the next request becomes the rest of that frame:
    there is a PUT that reports a timeout, and a PING after it, such that the
    bytes the server has received are one well-formed PUT of the bytes of the
    PING under the key, and the PING is reported as a correlation failure. *)
Theorem client_send_timeout_corrupts errno_text stale_errno :
  exists c k v res1 c1 wire1 res2 c2 wire2,
    client_put errno_text stale_errno k v io_timeout c = Some (res1, c1, wire1, []) /\
    cr_error res1 = lit "send timed out" /\ connected c1 = true /\
    client_ping errno_text stale_errno io_put_reply c1 = Some (res2, c2, wire2, []) /\
    ok res2 = false /\ connected c2 = true /\
    wire2 = serialize_request (mkRequest Opcode.kPing 2 [] []) /\ v <> wire2 /\
    deserialize_request (wire1 ++ wire2) default_limits default_request
      = Some (complete (len (wire1 ++ wire2)), mkRequest Opcode.kPut 1 k wire2).
Proof.
  exists demo_client, (lit "k"), (replicate 24 Byte.x76). do 6 eexists.
  split; [vm_compute; reflexivity|]. split; [vm_compute; reflexivity|]. split; [vm_compute; reflexivity|].
  split; [vm_compute; reflexivity|]. split; [vm_compute; reflexivity|]. split; [vm_compute; reflexivity|].
  split; [vm_compute; reflexivity|]. split; [vm_compute; discriminate|]. vm_compute. reflexivity.
Qed.
