(* ===== verification/ClientSession.v ===== *)
(** * A client and the service, end to end

    Composes client/cache_client.cpp with the request path of the server: the
    bytes the client sends are parsed as src/connection.cpp parses them, served
    as [Server::handle_job] serves them (src/server.cpp), and the framed
    response goes back to the client, cut by the sockets in any way.  What a
    sequence of calls returns is compared with the abstract cache of
    CacheSpec.v. *)

From S2P Require Import Prelude Protocol Stats Serializer CacheSpec SpecHistory LruCache Service.
From S2P Require Import Sys Client.

(** The public operations of [CacheClient] that stand for cache operations, and
    [ping]. *)
Inductive Call :=
  | CGet (k : bytes)
  | CPut (k v : bytes)
  | CErase (k : bytes)
  | CClear
  | CPing.

Definition call_opcode (call : Call) : Opcode.t :=
  match call with
  | CGet _ => Opcode.kGet | CPut _ _ => Opcode.kPut | CErase _ => Opcode.kDelete
  | CClear => Opcode.kClear | CPing => Opcode.kPing
  end.
Definition call_key (call : Call) : bytes :=
  match call with CGet k | CPut k _ | CErase k => k | _ => [] end.
Definition call_value (call : Call) : bytes :=
  match call with CPut _ v => v | _ => [] end.

(** The keys and values the server's limits admit. *)
Definition call_ok (limits : Limits) (call : Call) : bool :=
  request_ok limits (mkRequest (call_opcode call) 0 (call_key call) (call_value call)).

(** What the abstract cache answers. *)
Definition spec_call (s : Spec.state) (call : Call) : (Status.t * bytes) * Spec.state :=
  let answer o := let '(a, s) := spec_op s o in (reply a, s) in
  match call with
  | CGet k => answer (OGet k)
  | CPut k v => answer (OPut k v)
  | CErase k => answer (OErase k)
  | CClear => answer OClear
  | CPing => ((Status.kOk, []), s)
  end.

Fixpoint spec_session (s : Spec.state) (calls : list Call) : list (Status.t * bytes) * Spec.state :=
  match calls with
  | [] => ([], s)
  | call :: calls =>
      let '(a, s) := spec_call s call in let '(l, s) := spec_session s calls in (a :: l, s)
  end.

(** How the two sockets behave during a call: the answers to the client's
    sends, given the frame it has to send, and the pieces in which the
    response arrives. *)
Record Link := mkLink {
  lk_sends : bytes -> list (Z -> SendResult);
  lk_cut : bytes -> list RecvResult;
  lk_now : Z;  (* the time at which the request is served *)
}.

Section Session.
Context {C : Type} `{!CacheOps C, !CacheContract C}.
Context (errno_text : Z -> bytes) (stale_errno : Z) (limits : Limits).

Definition server_side (sv : Service C) (now : Z) (wire : bytes) : option (bytes * Service C) :=
  '(result, request) ← deserialize_request wire limits default_request;
  match pr_status result with
  | ParseStatus.kComplete =>
      '(response, sv) ← handle_request sv request now;
      Some (serialize_response_into response [], sv)
  | _ => None
  end.

Definition run_call (call : Call) (link : Link) (c : CacheClient) (sv : Service C)
    : option (CacheResult * CacheClient * Service C) :=
  let frame := serialize_request (client_request c (call_opcode call) (call_key call) (call_value call)) in
  let peer wire := match server_side sv (lk_now link) wire with
                   | Some (response, _) => lk_cut link response
                   | None => []
                   end in
  '(res, c, wire, _) ← execute errno_text stale_errno (call_opcode call) (call_key call) (call_value call)
                         (mkExecIo (lk_sends link frame) peer) c;
  '(_, sv) ← server_side sv (lk_now link) wire;
  Some (res, c, sv).

Fixpoint run_session (calls : list (Call * Link)) (c : CacheClient) (sv : Service C)
    : option (list CacheResult * CacheClient * Service C) :=
  match calls with
  | [] => Some ([], c, sv)
  | (call, link) :: calls =>
      '(res, c, sv) ← run_call call link c sv;
      '(results, c, sv) ← run_session calls c sv;
      Some (res :: results, c, sv)
  end.

(** No socket reports an error; interruptions, short sends and short reads are
    allowed. *)
Record link_ok (link : Link) : Prop := mkLinkOk {
  lo_kernel : forall frame, Forall kernel_send (lk_sends link frame);
  lo_sends : forall frame, exists wire, send_all errno_text stale_errno (lk_sends link frame) frame = Some ([], wire);
  lo_cut : forall frame, recv_data (lk_cut link frame) = Some frame;
}.

(** A connected client with nothing buffered. *)
Record client_ready (c : CacheClient) : Prop := mkClientReady {
  cr_connected : connected c = true;
  cr_in_buf : cc_in_buf_ c = [];
  cr_id : 0 <= cc_next_request_id_ c < 2 ^ 64;
}.

(** The cache of a server with these limits. *)
Record service_ready (sv : Service C) : Prop := mkServiceReady {
  sr_good : cache_good (sv_cache sv);
  sr_value : cl_max_value_bytes (Spec.limits (sv_abs sv)) <= kMaxValueBytes;
}.

Lemma call_request_ok call id : call_ok limits call = true -> 0 <= id < 2 ^ 64 ->
  request_ok limits (mkRequest (call_opcode call) id (call_key call) (call_value call)) = true.
Proof.
  unfold call_ok, request_ok. cbn [rq_request_id rq_opcode rq_key rq_value]. intros H Hid. b2p.
  repeat (apply andb_true_iff; split);
    first [done | apply Z.leb_le; lia | apply Z.ltb_lt; lia | by apply orb_true_iff].
Qed.

Lemma server_side_spec sv now call id : service_ready sv -> call_ok limits call = true -> 0 <= id < 2 ^ 64 ->
  exists resp sv', server_side sv now (serialize_request (mkRequest (call_opcode call) id (call_key call) (call_value call)))
      = Some (serialize_response resp, sv') /\
    service_ready sv' /\ response_ok kClientLimits resp = true /\
    rs_opcode resp = call_opcode call /\ rs_request_id resp = id /\
    spec_call (sv_abs sv) call = ((rs_status resp, rs_value resp), sv_abs sv').
Proof.
  intros [Hg Hv] Hok Hid. pose proof (call_request_ok call id Hok Hid) as Hreq.
  set (req := mkRequest _ _ _ _) in *. unfold server_side.
  rewrite <- (app_nil_r (serialize_request req)), deserialize_request_frame by done. cbn [mbind option_bind complete pr_status].
  destruct (request_ok_lens _ _ Hreq) as [Hk Hval].
  assert (Ha : request_addressable req).
  { unfold request_addressable, kMaxKeyBytes, kMaxValueBytes, kEntryOverheadBytes in *. lia. }
  destruct (handle_request_spec sv req now Hg Ha) as (resp & sv' & E & Hg' & Hop & Hrid & Hc).
  pose proof (handle_request_response_ok limits sv req now resp sv' Hg Hreq Hv E) as Hrok.
  rewrite E. cbn [mbind option_bind]. exists resp, sv'. split; [done|].
  enough (spec_call (sv_abs sv) call = ((rs_status resp, rs_value resp), sv_abs sv') /\
          Spec.limits (sv_abs sv') = Spec.limits (sv_abs sv)) as [Hs Hlim].
  { split_and!; try done. split; [done | by rewrite Hlim]. }
  unfold req, request_op in Hc. destruct call; cbn [call_opcode call_key call_value rq_opcode rq_key rq_value] in Hc;
    cbn [spec_call]; try (destruct Hc as (-> & -> & ->); done);
    destruct Hc as (a & Hs & Hr & _); rewrite Hs, Hr;
    match type of Hs with spec_op _ ?o = _ => pose proof (spec_limits (sv_abs sv) o) as Hl end;
    rewrite Hs in Hl; done.
Qed.

Lemma run_call_spec call link c sv : call_ok limits call = true -> link_ok link ->
  client_ready c -> service_ready sv ->
  exists res c' sv', run_call call link c sv = Some (res, c', sv') /\ client_ready c' /\ service_ready sv' /\
    cr_error res = [] /\ spec_call (sv_abs sv) call = ((cr_status res, cr_value res), sv_abs sv').
Proof.
  intros Hok [Hk Hsend Hcut] [Hcon Hbuf Hid] Hsv.
  pose proof (call_request_ok call _ Hok Hid) as Hreq. destruct (request_ok_lens _ _ Hreq) as [Hkl Hvl].
  cbn [rq_key rq_value] in Hkl, Hvl.
  destruct (server_side_spec sv (lk_now link) call _ Hsv Hok Hid) as (resp & sv' & Es & Hsv' & Hrok & Hop & Hrid & Hspec).
  unfold run_call. rewrite execute_sends by (done || unfold kMaxKeyBytes, kMaxValueBytes in *; lia).
  unfold client_request in *. set (frame := serialize_request _) in *. cbn [xi_sends xi_peer].
  destruct (Hsend frame) as [wire Ew]. rewrite Ew. cbn [mbind option_bind is_empty_string negb].
  destruct (send_all_spec _ _ _ _ _ _ (Hk frame) Ew) as [[_ ->]|[? _]]; [|done]. rewrite Es.
  set (c1 := cc_set_out_buf _ _).
  destruct (receive_frame errno_text (lk_cut link (serialize_response resp)) (serialize_response resp) c1 resp []
    (cc_next_request_id_ c) (call_opcode call) default_response Hrok (Hcut _)) as (left & more & El & Er).
  { cbn [c1 cc_set_out_buf cc_set_next_request_id cc_in_buf_]. by rewrite Hbuf, app_nil_r. }
  symmetry in El. apply app_nil in El as [-> ->].
  rewrite Er. cbn [mbind option_bind]. rewrite (proj2 (check_response_ok _ _ _)) by done.
  cbn [is_empty_string negb mbind option_bind]. rewrite Es. cbn [mbind option_bind]. eexists _, _, _. split; [done|].
  split_and!; try done. split; try done. cbn. apply u64_range.
Qed.

Lemma run_session_spec calls c sv : Forall (fun x => call_ok limits x.1 = true /\ link_ok x.2) calls ->
  client_ready c -> service_ready sv ->
  exists results c' sv', run_session calls c sv = Some (results, c', sv') /\ client_ready c' /\ service_ready sv' /\
    Forall (fun r => cr_error r = []) results /\
    spec_session (sv_abs sv) (calls.*1) = (map (fun r => (cr_status r, cr_value r)) results, sv_abs sv').
Proof.
  intros Hall. revert c sv. induction Hall as [|[call link] calls [Hc Hl] _ IH]; intros c sv Hcl Hsv; cbn [run_session].
  { by exists [], c, sv. }
  destruct (run_call_spec call link c sv Hc Hl Hcl Hsv) as (res & c1 & sv1 & -> & Hcl1 & Hsv1 & He & Hspec).
  destruct (IH c1 sv1 Hcl1 Hsv1) as (results & c' & sv' & E & Hcl' & Hsv' & Hes & Hspec').
  cbn [mbind option_bind]. rewrite E. cbn [mbind option_bind]. exists (res :: results), c', sv'. split_and!; try done.
  - by constructor.
  - cbn [fmap list_fmap fst map spec_session]. change (list_fmap _ _ fst calls) with (calls.*1). by rewrite Hspec, Hspec'.
Qed.
End Session.

(** A successful connect leaves a client with nothing buffered. *)
Lemma connect_ready errno_text c io c' calls : connect errno_text c io = ([], c', calls) ->
  (forall fd, ci_socket io = NewFd fd -> 0 <= fd) -> 0 <= cc_next_request_id_ c < 2 ^ 64 -> client_ready c'.
Proof.
  unfold connect. intros E Hfd Hid. split_if; [discriminate|].
  destruct (ci_socket io) as [fd|]; [|injection E as E _ _; by apply errno_message_nonempty in E].
  destruct (if 0 <? cc_timeout_ms_ c then _ else _) as [[|] calls']; [|injection E as E _ _; by apply errno_message_nonempty in E].
  destruct (ci_connect io); [|injection E as E _ _; by apply errno_message_nonempty in E].
  injection E as <- _. split; try done. apply Z.leb_le. by apply Hfd.
Qed.

(** C11: a connected client sees the abstract cache.  Any sequence of calls, with
    keys and values within the server's limits, over sockets that may cut the
    bytes in both directions as they like, returns without error, and the
    statuses and values returned are those of the same operations on the
    abstract cache, which ends as the abstraction of the server's. *)
Theorem client_session_refines {C} `{!CacheOps C, !CacheContract C} errno_text stale_errno limits
    (calls : list (Call * Link)) (sv : Service C) c0 io c ccalls :
  connect errno_text c0 io = ([], c, ccalls) -> (forall fd, ci_socket io = NewFd fd -> 0 <= fd) ->
  0 <= cc_next_request_id_ c0 < 2 ^ 64 -> service_ready sv ->
  Forall (fun x => call_ok limits x.1 = true /\ link_ok errno_text stale_errno x.2) calls ->
  exists results c' sv', run_session errno_text stale_errno limits calls c sv = Some (results, c', sv') /\
    connected c' = true /\ Forall (fun r => ok r = true) results /\
    spec_session (sv_abs sv) (calls.*1) = (map (fun r => (cr_status r, cr_value r)) results, sv_abs sv').
Proof.
  intros Hcon Hfd Hid Hsv Hall. pose proof (connect_ready _ _ _ _ _ Hcon Hfd Hid) as Hready.
  destruct (run_session_spec errno_text stale_errno limits calls c sv Hall Hready Hsv)
    as (results & c' & sv' & E & Hc' & _ & Herr & Hspec).
  exists results, c', sv'. split_and!; try done; [apply Hc'|].
  eapply Forall_impl; [done|]. intros r. unfold ok. by intros ->.
Qed.

(** A session on a cache of two entries; the sockets pass seven bytes at a time. *)
Fixpoint pieces (fuel : nat) (data : bytes) : list RecvResult :=
  match fuel with
  | O => []
  | S fuel => match data with [] => [] | _ => Received (take 7 data) :: pieces fuel (drop 7 data) end
  end.
Definition demo_link : Link :=
  mkLink (fun frame => replicate (length frame) (fun n => Sent (Z.min n 7))) (fun data => pieces (length data) data) 5.
Definition demo_connect : ConnectIo := mkConnectIo (NewFd 3) Success Success Success.
Definition demo_service : Service LruCache := mkService (new_cache (mkCacheLimits 2 1000 100)) (new_stats 0).
Definition demo_calls : list (Call * Link) :=
  map (fun call => (call, demo_link))
    [CPut (lit "a") (lit "1"); CPut (lit "b") (lit "2"); CGet (lit "a"); CPut (lit "c") (lit "3");
     CGet (lit "b"); CGet (lit "a"); CErase (lit "a"); CPing; CClear; CGet (lit "c")].

Lemma pieces_data fuel data : (length data <= fuel)%nat -> recv_data (pieces fuel data) = Some data.
Proof.
  revert data. induction fuel as [|fuel IH]; intros [|b data] Hl; cbn [length] in Hl; try done; [lia|].
  cbn [pieces]. change (take 7 (b :: data)) with (b :: take 6 data). cbn [recv_data].
  change (drop 7 (b :: data)) with (drop 6 data). rewrite IH by (rewrite length_drop; lia).
  cbn [mbind option_bind]. change ((b :: take 6 data) ++ drop 6 data) with (b :: (take 6 data ++ drop 6 data)).
  by rewrite take_drop.
Qed.

Lemma sevens_ok errno_text stale fuel frame : (length frame <= fuel)%nat ->
  exists wire, send_all errno_text stale (replicate fuel (fun n => Sent (Z.min n 7))) frame = Some ([], wire).
Proof.
  revert frame. induction fuel as [|fuel IH]; intros [|b frame] Hl; cbn [length] in Hl; try (by eexists); [lia|].
  cbn [replicate send_all]. rewrite len_cons. pose proof (len_nonneg frame).
  destruct (Z.ltb_spec 0 (Z.min (1 + len frame) 7)); [|lia].
  destruct (IH (drop (Z.to_nat (Z.min (1 + len frame) 7)) (b :: frame))) as [wire ->]; [|by eexists].
  rewrite length_drop. cbn [length]. lia.
Qed.

Lemma demo_link_ok errno_text stale : link_ok errno_text stale demo_link.
Proof.
  split; intros frame; cbn [lk_sends lk_cut demo_link].
  - apply Forall_replicate. intros n Hn. cbn. lia.
  - by apply sevens_ok.
  - by apply pieces_data.
Qed.

Lemma demo_service_ready : service_ready demo_service.
Proof. split; [|by vm_compute]. split; [apply wf_new|]; unfold limits_ok; simpl; lia. Qed.

Lemma client_session_refines_witness :
  exists results c' sv', run_session demo_text 0 default_limits demo_calls
      (cc_set_in_buf [] (cc_set_fd 3 (new_client (lit "/tmp/s")))) demo_service = Some (results, c', sv') /\
    map cr_value results = [[]; []; lit "1"; []; []; lit "1"; []; []; []; []].
Proof.
  destruct (client_session_refines demo_text 0 default_limits demo_calls demo_service (new_client (lit "/tmp/s"))
    demo_connect (cc_set_in_buf [] (cc_set_fd 3 (new_client (lit "/tmp/s"))))
    [CallSocket; CallSetRcvTimeo 3 5 0; CallSetSndTimeo 3 5 0; CallConnect 3 (lit "/tmp/s")])
    as (results & c' & sv' & E & _ & _ & Hspec).
  - vm_compute. reflexivity.
  - intros fd [= <-]. lia.
  - cbn. lia.
  - apply demo_service_ready.
  - unfold demo_calls. repeat (apply Forall_cons_2; [split; [vm_compute; reflexivity | apply demo_link_ok]|]). apply Forall_nil_2.
  - exists results, c', sv'. split; [exact E|]. apply (f_equal fst) in Hspec. apply (f_equal (map snd)) in Hspec.
    cbn [fst] in Hspec. rewrite map_map in Hspec. cbn [snd] in Hspec.
    transitivity (map snd (spec_session (sv_abs demo_service) (demo_calls.*1)).1); [symmetry; exact Hspec | vm_compute; reflexivity].
Defined.
