(* ===== verification/Exchange.v ===== *)
(** * A client of the running server

    Wire.v and Client.v put together: a [CacheClient] (client/cache_client.cpp)
    on one connection of the server (src/server.cpp), which at the same time
    serves any number of others.  The sockets between them carry bytes in
    order: the server has received a beginning of what the client sent, and the
    client reads a beginning of what the server sent. *)

From S2P Require Import Prelude Protocol Stats Serializer CacheSpec SpecHistory LruCache Service.
From S2P Require Import Sys Connection ThreadPool Config Server Streams ServerInv ServerProps Run Trace Wire Client.

(** ** Frames *)

Lemma encoded_prefix limits a b u : Forall (fun r => request_ok limits r = true) a ->
  Forall (fun r => request_ok limits r = true) b -> encoded a ++ u `prefix_of` encoded b ->
  exists b', b = a ++ b' /\ u `prefix_of` encoded b'.
Proof.
  intros Ha. revert b. induction Ha as [|r a Hr _ IH]; intros b Hb Hp; [by exists b|]. destruct Hp as [k Hk].
  change (encoded (r :: a)) with (serialize_request r ++ encoded a) in Hk. rewrite <- !app_assoc in Hk.
  pose proof (deserialize_request_frame limits r (encoded a ++ u ++ k) default_request Hr) as Hd. rewrite <- Hk in Hd.
  destruct Hb as [|r' b Hr' Hb]; [done|]. change (encoded (r' :: b)) with (serialize_request r' ++ encoded b) in *.
  rewrite deserialize_request_frame in Hd by done. injection Hd as _ ->. apply app_inv_head in Hk.
  destruct (IH b Hb) as (b' & -> & Hu); [exists k; by rewrite <- app_assoc|]. by exists b'.
Qed.

Lemma replies_prefix limits a b u : Forall (fun r => response_ok limits r = true) a ->
  Forall (fun r => response_ok limits r = true) b -> reply_stream a ++ u `prefix_of` reply_stream b ->
  exists b', b = a ++ b' /\ u `prefix_of` reply_stream b'.
Proof.
  intros Ha. revert b. induction Ha as [|r a Hr _ IH]; intros b Hb Hp; [by exists b|]. destruct Hp as [k Hk].
  change (reply_stream (r :: a)) with (serialize_response r ++ reply_stream a) in Hk. rewrite <- !app_assoc in Hk.
  pose proof (deserialize_response_frame limits r (reply_stream a ++ u ++ k) default_response Hr) as Hd. rewrite <- Hk in Hd.
  destruct Hb as [|r' b Hr' Hb]; [done|]. change (reply_stream (r' :: b)) with (serialize_response r' ++ reply_stream b) in *.
  rewrite deserialize_response_frame in Hd by done. injection Hd as _ ->. apply app_inv_head in Hk.
  destruct (IH b Hb) as (b' & -> & Hu); [exists k; by rewrite <- app_assoc|]. by exists b'.
Qed.

Lemma reply_read limits got r replies : Forall (fun r => response_ok limits r = true) got -> response_ok limits r = true ->
  Forall (fun r => response_ok limits r = true) replies ->
  reply_stream got ++ serialize_response r `prefix_of` reply_stream replies -> r ∈ replies.
Proof.
  intros Hg Hr Hrs Hp. assert (E : reply_stream got ++ serialize_response r = reply_stream (got ++ [r]) ++ []).
  { unfold reply_stream. rewrite map_app, concat_app. cbn. by rewrite !app_nil_r. }
  rewrite E in Hp. destruct (replies_prefix limits (got ++ [r]) replies []) as (more & -> & _); try done.
  - by apply Forall_app_2; [|apply Forall_singleton].
  - rewrite !elem_of_app. left; right. by left.
Qed.

Lemma recv_bytes_app a b : recv_bytes (a ++ b) = recv_bytes a ++ recv_bytes b.
Proof. unfold recv_bytes. by rewrite map_app, concat_app. Qed.

(** A beginning of well-formed requests is never refused. *)
Lemma refuses_none limits input rs resp : Forall (fun r => request_ok limits r = true) rs ->
  input `prefix_of` encoded rs -> ~ refuses limits input resp.
Proof.
  intros Hok [k Hk] Hr. destruct (refuses_step limits input k rs [] resp Hr) as (Hl & _); [by rewrite app_nil_r | done|].
  unfold kHeaderSize in Hl. rewrite len_nil in Hl. lia.
Qed.

Lemma replies_settled tr : ev_rejects tr = [] -> ev_replies tr = ev_settled tr.
Proof.
  unfold ev_rejects, ev_replies, ev_settled. induction tr as [|[] tr IH]; intros H; simplify_eq/=; auto; by rewrite IH.
Qed.

(** A call that reports success has read a response with its id and opcode. *)
Lemma execute_reads errno_text stale_errno op key value io c : connected c = true ->
  len key <= kMaxKeyBytes -> len value <= kMaxValueBytes -> socket_answers (xi_sends io) ->
  let req := client_request c op key value in
  (exists pre, xi_peer io (serialize_request req) = pre ++ [RecvFailed EAGAIN]) ->
  exists res c' wire calls, execute errno_text stale_errno op key value io c = Some (res, c', wire, calls) /\
    (ok res = true -> exists r left, response_ok kClientLimits r = true /\
       cc_in_buf_ c ++ recv_bytes (xi_peer io (serialize_request req)) = serialize_response r ++ left /\
       response_tag r = request_tag req /\ cr_status res = rs_status r /\ cr_value res = rs_value r).
Proof.
  intros Hcon Hk Hv [Hks Hsend] req Hpeer. rewrite execute_sends by done. fold req.
  destruct (send_all_total errno_text stale_errno (xi_sends io) (serialize_request req) Hsend) as [[error wire] Es].
  rewrite Es. cbn [mbind option_bind]. destruct (is_empty_string error) eqn:Ee; cbn [negb].
  2: { eexists _, _, _, _. split; [done|]. unfold ok. cbn [cr_error]. by rewrite Ee. }
  destruct (send_all_spec errno_text stale_errno _ _ _ _ Hks Es) as [[-> ->]|(He & _)]; [|by destruct error].
  set (c1 := cc_set_out_buf _ _).
  destruct (receive_outcome errno_text (xi_peer io (serialize_request req)) (cc_next_request_id_ c) op default_response c1 Hpeer)
    as (e & r & c' & calls' & -> & Hend). cbn [mbind option_bind].
  destruct (is_empty_string e) eqn:Ee'; cbn [negb mbind option_bind]; eexists _, _, _, _; (split; [done|]);
    unfold ok; cbn [cr_error]; rewrite ?Ee'; [intros _ | done].
  destruct Hend as [r used rest left Hrok Hu _ Hb|error' out He]; [|by destruct error'].
  destruct (check_response (cc_next_request_id_ c) op r) eqn:Ec; [|done]. apply check_response_ok in Ec as [Hrid Hrop].
  exists r, (left ++ recv_bytes rest). split_and!; try done; [|unfold response_tag; by rewrite Hrid, Hrop].
  rewrite Hu, recv_bytes_app, app_assoc. change (cc_in_buf_ c1) with (cc_in_buf_ c) in Hb. by rewrite Hb, <- app_assoc.
Qed.

Section Exchange.
Context {C : Type} `{!CacheOps C, !CacheContract C}.

(** [resp] is what the server computed for the request [r] of connection [id]:
    the response of the abstract cache at the time of the execution. *)
Definition computed (cache : C) (id : Z) (ans : list (Job * Response)) (r : Request) (resp : Response) : Prop :=
  exists before after a, ans = before ++ (mkJob id r, resp) :: after /\ replay (cache_abs cache) before = Some a /\
    match request_op r with
    | Some o => (rs_status resp, rs_value resp) = reply (spec_op a o).1
    | None => rs_status resp = Status.kOk
    end.

Lemma replay_computed cache id ans a r resp : replay (cache_abs cache) ans = Some a -> (mkJob id r, resp) ∈ ans ->
  request_tag r = response_tag resp /\ computed cache id ans r resp.
Proof.
  intros Hr (before & after & ->)%list_elem_of_split. rewrite replay_app in Hr.
  destruct (replay (cache_abs cache) before) as [a0|] eqn:E; [|done]. cbn [mbind option_bind replay job_request] in Hr.
  destruct (negb (bool_decide _) || _) eqn:Et; [done|]. apply orb_false_iff in Et as [Eo%negb_false_iff%bool_decide_eq_true Ei%negb_false_iff%Z.eqb_eq].
  split; [unfold request_tag, response_tag; by rewrite Eo, Ei|]. exists before, after, a0. split_and!; try done.
  destruct (request_op r) as [o|].
  - destruct (spec_op a0 o) as [x a1]. case_bool_decide; done.
  - case_bool_decide; done.
Qed.

(** What the connection sent for requests that are all well formed. *)
Lemma replies_origin cfg cache s sub ans id tr reqs : initial_ok cfg cache -> history cfg cache s sub ans ->
  stream_of cfg id s sub ans tr ->
  Forall (fun r => request_ok (protocol_limits (connection_limits cfg)) r = true) reqs ->
  received_on id (socket_calls_ s) `prefix_of` encoded reqs ->
  ev_taken tr `prefix_of` reqs /\ ev_rejects tr = [] /\
  forall resp, resp ∈ ev_replies tr -> exists r, r ∈ reqs /\ request_tag r = response_tag resp /\
    (resp = busy r \/ computed cache id ans r resp).
Proof.
  intros Hok Hh Ht Hreqs Hp. pose proof (ss_in _ _ _ _ _ _ _ _ Ht) as Hin. cbn [unread_at from_option app] in Hin. rewrite Hin in Hp.
  destruct (encoded_prefix _ _ _ _ (ss_ok _ _ _ _ _ _ _ _ Ht) Hreqs Hp) as (more & -> & Hu).
  apply Forall_app in Hreqs as [_ Hmore].
  assert (Hrej : ev_rejects tr = []).
  { pose proof (ss_rejects _ _ _ _ _ _ _ _ Ht) as Hr. destruct (ev_rejects tr) as [|resp l]; [done|].
    apply Forall_cons in Hr as [Hr _]. by destruct (refuses_none _ _ _ _ Hmore Hu Hr). }
  split_and!; [by eexists | done|]. apply Forall_forall.
  eapply Forall_impl; [apply (replies_forall (fun resp => exists r, r ∈ ev_taken tr /\ request_tag r = response_tag resp /\
    (resp = busy r \/ computed cache id ans r resp)))|].
  - rewrite Hrej. constructor.
  - apply Forall_fmap, Forall_forall. intros r Hr. exists r. split_and!; [|done | by left].
    rewrite taken_split, elem_of_app. by right.
  - rewrite (ss_answers _ _ _ _ _ _ _ _ Ht). apply Forall_forall. intros resp ([jid r] & Hans & Hid)%responses_on_elem.
    cbn in Hid. subst jid. destruct (replay_computed _ _ _ _ _ _ (history_replay _ _ _ _ _ Hok Hh) Hans) as [Htag Hc].
    exists r. split_and!; [|done | by right]. rewrite taken_split, elem_of_app, (ss_jobs _ _ _ _ _ _ _ _ Ht). left.
    apply (requests_on_elem id sub (mkJob id r)); [|done]. rewrite (history_jobs _ _ _ _ _ Hh), elem_of_app. left.
    by apply (list_elem_of_fmap_2 fst ans (mkJob id r, resp)).
  - cbn. intros resp (r & Hr & H). exists r. split; [|done]. rewrite elem_of_app. by left.
Qed.

(** ** Properties *)

Context (errno_text : Z -> bytes) (stale_errno : Z).
Context (cfg : ServerConfig) (cache : C).

Lemma tag_unique (rs : list Request) r r' : NoDup (request_tag <$> rs) -> r ∈ rs -> r' ∈ rs ->
  request_tag r = request_tag r' -> r = r'.
Proof.
  intros Hn [i Hi]%list_elem_of_lookup [j Hj]%list_elem_of_lookup E.
  assert (i = j); [|congruence]. eapply (NoDup_lookup _ i j (request_tag r) Hn); rewrite list_lookup_fmap; [by rewrite Hi | by rewrite Hj, E].
Qed.

(** A connection that has answered everything: what the client has not read is
    one response, the one to its last request. *)
Lemma last_reply s sub ans id conn past got req data : initial_ok cfg cache -> history cfg cache s sub ans ->
  conns_ s !! id = Some conn -> closed_ conn = false ->
  Forall (fun r => request_ok (protocol_limits (connection_limits cfg)) r = true) (past ++ [req]) ->
  NoDup (request_tag <$> past ++ [req]) -> received_on id (socket_calls_ s) = encoded (past ++ [req]) ->
  unread conn = [] -> requests_on id (pool_jobs (pool_ s)) = [] -> backlog conn = [] ->
  Forall (fun r => response_ok kClientLimits r = true) got -> response_tag <$> got ≡ₚ request_tag <$> past ->
  reply_stream got ++ data = sent_on id (socket_calls_ s) ->
  exists r, response_ok kClientLimits r = true /\ data = serialize_response r /\ response_tag r = request_tag req /\
    (r = busy req \/ computed cache id ans req r).
Proof.
  intros Hok Hh Hc Hopen Hreqs Hnd Hrecv Hun Hpool Hb Hgot Hpast Hsent.
  destruct (history_streams cfg cache s sub ans id Hok Hh) as (tr & Ht & _).
  destruct (replies_origin _ _ _ _ _ _ _ _ Hok Hh Ht Hreqs ltac:(by rewrite Hrecv)) as ([more Hmore] & Hrej & Horigin).
  pose proof (stream_replies_ok _ _ _ _ _ _ _ Hok Hh Ht) as Hrok. pose proof (stream_balance _ _ _ _ _ _ _ Hok Hh Ht) as Hbal.
  unfold stream_of in Ht. rewrite Hc in Ht. destruct Ht as [I K O _ _ _ _ D].
  cbn [unread_at backlog_at closed_at from_option app] in *. rewrite Hun, app_nil_r in I. rewrite Hb, app_nil_r in O.
  assert (Htaken : ev_taken tr = past ++ [req]).
  { destruct (encoded_prefix _ (past ++ [req]) (ev_taken tr) [] Hreqs K) as (b' & Hb' & _); [by rewrite app_nil_r, <- Hrecv, I|].
    apply (f_equal length) in Hmore as Hl, Hb' as Hl'. rewrite !length_app in Hl, Hl'. destruct more; [by rewrite app_nil_r in Hmore | cbn in *; lia]. }
  rewrite (D Hopen), Hpool, Htaken, <- replies_settled, app_nil_r, fmap_app in Hbal by done. cbn [fmap list_fmap app] in Hbal.
  destruct (replies_prefix _ got (ev_replies tr) data Hgot Hrok) as (b' & Hb' & _); [by rewrite O, <- Hsent|].
  rewrite Hb' in O, Hbal. rewrite reply_stream_app, <- Hsent in O. apply app_inv_head in O.
  rewrite fmap_app, Hpast in Hbal. apply Permutation_app_inv_l in Hbal. symmetry in Hbal. apply Permutation_singleton_r in Hbal.
  destruct b' as [|r [|]]; try done. exists r.
  assert (Htag : response_tag r = request_tag req) by (cbn in Hbal; congruence).
  assert (Hin : r ∈ ev_replies tr) by (rewrite Hb', elem_of_app; right; by left). split_and!.
  - rewrite Forall_forall in Hrok. by apply Hrok.
  - rewrite <- O. unfold reply_stream. cbn. by rewrite app_nil_r.
  - done.
  - destruct (Horigin r Hin) as (r0 & Hr0 & Htag0 & Hcase). assert (r0 = req) as ->; [|done].
    apply (tag_unique (past ++ [req])); try done; [rewrite elem_of_app; right; by left | by rewrite Htag0].
Qed.

(** C5: a client that gets an answer gets the answer to its own request.  A
    client has sent requests with distinct ids or opcodes on one connection of
    a running server; the server has received a beginning of their bytes, and
    the client has read responses and reads on from what the server sent on
    this connection, cut in any way.  Then a call of the client returns, and
    if it reports success, its status and value are those the server computed
    for exactly this request: the answer of the abstract cache at the moment of
    the execution, among all the other clients' requests, or the refusal of
    this request under load. *)
Theorem client_answer_sound s sub ans id conn past got op key value io client :
  let req := client_request client op key value in
  initial_ok cfg cache -> history cfg cache s sub ans -> conns_ s !! id = Some conn ->
  Forall (fun r => request_ok (protocol_limits (connection_limits cfg)) r = true) (past ++ [req]) ->
  NoDup (request_tag <$> past ++ [req]) -> received_on id (socket_calls_ s) `prefix_of` encoded (past ++ [req]) ->
  Forall (fun r => response_ok kClientLimits r = true) got ->
  reply_stream got ++ cc_in_buf_ client ++ recv_bytes (xi_peer io (serialize_request req))
    `prefix_of` sent_on id (socket_calls_ s) ->
  connected client = true -> socket_answers (xi_sends io) ->
  (exists pre, xi_peer io (serialize_request req) = pre ++ [RecvFailed EAGAIN]) ->
  exists res client' wire calls, execute errno_text stale_errno op key value io client = Some (res, client', wire, calls) /\
    (ok res = true -> exists resp, cr_status res = rs_status resp /\ cr_value res = rs_value resp /\
       (resp = busy req \/ computed cache id ans req resp)).
Proof.
  intros req Hok Hh Hc Hreqs Hnd Hrecv Hgot Hsent Hcon Hsend Hpeer.
  destruct (history_streams cfg cache s sub ans id Hok Hh) as (tr & Ht & _).
  destruct (replies_origin _ _ _ _ _ _ _ _ Hok Hh Ht Hreqs Hrecv) as (_ & _ & Horigin).
  pose proof (stream_replies_ok _ _ _ _ _ _ _ Hok Hh Ht) as Hrok. pose proof (ss_out _ _ _ _ _ _ _ _ Ht) as Hout.
  cbn [backlog_at from_option app] in Hout.
  assert (Hreq : request_ok (protocol_limits (connection_limits cfg)) req = true)
    by (rewrite Forall_forall in Hreqs; apply Hreqs; rewrite elem_of_app; right; by left).
  destruct (request_ok_lens _ _ Hreq) as [Hk Hv]. cbn [req client_request rq_key rq_value] in Hk, Hv.
  destruct (execute_reads errno_text stale_errno op key value io client) as (res & client' & wire & calls & E & Hres);
    try (done || unfold kMaxKeyBytes, kMaxValueBytes in *; lia).
  exists res, client', wire, calls. split; [exact E|]. intros Hr. destruct (Hres Hr) as (r & left & Hrok1 & Hb & Htag & Hst & Hva).
  exists r. split_and!; try done. assert (Hin : r ∈ ev_replies tr).
  { eapply reply_read; [exact Hgot | exact Hrok1 | exact Hrok|]. etransitivity; [|rewrite Hout; apply prefix_app_r; reflexivity].
    etransitivity; [|exact Hsent]. fold req in Hb. rewrite Hb. apply prefix_app. by apply prefix_app_r. }
  destruct (Horigin r Hin) as (r0 & Hr0 & Htag0 & Hcase).
  assert (r0 = req) as ->; [|done]. apply (tag_unique (past ++ [req])); try done; [rewrite elem_of_app; right; by left|].
  by rewrite Htag0, Htag.
Qed.

(** C6: a client that waits for its answer gets it.  All earlier requests of
    the client have been answered and the answers read; the server has taken
    this request and has nothing left in the pool or in the output of the
    connection, as it can always come to; and the sockets carry the bytes
    without an error.  Then the call reports success, with the status and the
    value that the server computed for this request, or with its refusal. *)
Theorem client_answer_arrives s sub ans id conn past got op key value io client :
  let req := client_request client op key value in
  initial_ok cfg cache -> history cfg cache s sub ans -> conns_ s !! id = Some conn -> closed_ conn = false ->
  Forall (fun r => request_ok (protocol_limits (connection_limits cfg)) r = true) (past ++ [req]) ->
  NoDup (request_tag <$> past ++ [req]) -> received_on id (socket_calls_ s) = encoded (past ++ [req]) ->
  unread conn = [] -> requests_on id (pool_jobs (pool_ s)) = [] -> backlog conn = [] ->
  Forall (fun r => response_ok kClientLimits r = true) got -> response_tag <$> got ≡ₚ request_tag <$> past ->
  connected client = true -> cc_in_buf_ client = [] ->
  Forall kernel_send (xi_sends io) ->
  (exists wire, send_all errno_text stale_errno (xi_sends io) (serialize_request req) = Some ([], wire)) ->
  (exists data, recv_data (xi_peer io (serialize_request req)) = Some data /\
     reply_stream got ++ data = sent_on id (socket_calls_ s)) ->
  exists resp client', execute errno_text stale_errno op key value io client
      = Some (mkCacheResult (rs_status resp) (rs_value resp) [], client', serialize_request req, []) /\
    connected client' = true /\ cc_in_buf_ client' = [] /\ (resp = busy req \/ computed cache id ans req resp).
Proof.
  intros req Hok Hh Hc Hopen Hreqs Hnd Hrecv Hun Hpool Hb Hgot Hpast Hcon Hbuf Hks [wire Es] (data & Hdata & Hsent).
  destruct (last_reply s sub ans id conn past got req data) as (r & Hrok & -> & Htag & Hcase); try done.
  assert (Hreq : request_ok (protocol_limits (connection_limits cfg)) req = true)
    by (rewrite Forall_forall in Hreqs; apply Hreqs; rewrite elem_of_app; right; by left).
  destruct (request_ok_lens _ _ Hreq) as [Hk Hv]. cbn [req client_request rq_key rq_value] in Hk, Hv.
  rewrite execute_sends by (done || unfold kMaxKeyBytes, kMaxValueBytes in *; lia). fold req. rewrite Es. cbn [mbind option_bind is_empty_string negb].
  destruct (send_all_spec _ _ _ _ _ _ Hks Es) as [[_ ->]|[? _]]; [|done]. set (c1 := cc_set_out_buf _ _).
  destruct (receive_frame errno_text _ _ c1 r [] (cc_next_request_id_ client) op default_response Hrok Hdata)
    as (left & more & El & Er); [change (cc_in_buf_ c1) with (cc_in_buf_ client); by rewrite Hbuf, app_nil_r|].
  symmetry in El. apply app_nil in El as [-> ->]. injection Htag as Hrid Hrop.
  rewrite Er. cbn [mbind option_bind]. rewrite (proj2 (check_response_ok _ _ _)) by done. cbn [is_empty_string negb].
  exists r, (cc_set_in_buf [] c1). by split_and!.
Qed.
End Exchange.

(** ** Witnesses: a client stores a value and asks for it *)

(** A request arrives on the connection, the worker serves it, and the response
    is sent. *)
Definition ev_request (req : Request) : Event := EvConnection 7 EPOLLIN (readable (serialize_request req)).
Definition arrive (req : Request) (s : @Server LruCache) : @Server LruCache :=
  after (worker_run 0 1) (after (worker_take 0) (after (dispatch (ev_request req)) s)).
Definition converse (req : Request) (s : @Server LruCache) : @Server LruCache := after (dispatch ev_done) (arrive req s).

Definition converse_ok (req : Request) (s : @Server LruCache) : bool :=
  let s1 := after (dispatch (ev_request req)) s in
  let s2 := after (worker_take 0) s1 in
  memory_okb s && runs (dispatch (ev_request req)) s && (len (serialize_request req) <=? kReadChunkBytes) &&
  runs (worker_take 0) s1 && memory_okb s2 && runs (worker_run 0 1) s2 &&
  memory_okb (arrive req s) && runs (dispatch ev_done) (arrive req s) &&
  (len (ready_connections_ (arrive req s)) <=? 1).

Lemma converse_reachable req s : rtc server_step run0 s -> converse_ok req s = true -> rtc server_step run0 (converse req s).
Proof.
  intros Hr Hok. unfold converse_ok in Hok. cbv zeta in Hok. b2p.
  eapply rtc_r; [eapply rtc_r; [eapply rtc_r; [eapply rtc_r; [exact Hr|]|]|]|].
  - apply (step_event_run (ev_request req)); [done | by apply readable_ok | done].
  - by apply step_take_run.
  - by apply (step_job_run 0 1).
  - apply step_event_run; [done | | done]. split; [|unfold len in *; cbn; lia]. apply Forall_cons_2; [apply takes_all_ok | apply Forall_nil_2].
Qed.

Definition put_kv : Request := mkRequest Opcode.kPut 1 (lit "k") (lit "v").
Definition talk1 : @Server LruCache := converse put_kv run1.
Definition demo_past : CacheClient := cc_set_next_request_id 2 demo_client.
Definition get_k : Request := client_request demo_past Opcode.kGet (lit "k") [].
Definition talk2 : @Server LruCache := converse get_k talk1.
Definition stored : Response := mkResponse Opcode.kPut Status.kOk 1 [].
Definition fetched : bytes := serialize_response (mkResponse Opcode.kGet Status.kOk 2 (lit "v")).

Lemma talk2_reachable : rtc server_step run0 talk2.
Proof.
  apply converse_reachable; [|vm_compute; reflexivity]. apply converse_reachable; [apply run1_reachable | vm_compute; reflexivity].
Qed.

Lemma talk_requests : Forall (fun r => request_ok (protocol_limits (connection_limits narrow_config)) r = true) ([put_kv] ++ [get_k]).
Proof. by repeat (apply Forall_cons_2; [vm_compute; reflexivity|]). Qed.

Lemma talk_tags : NoDup (request_tag <$> [put_kv] ++ [get_k]).
Proof. apply NoDup_ListNoDup. by repeat constructor; vm_compute; intuition. Qed.

Definition cut_reply : list RecvResult := [Received (take 9 fetched); RecvFailed EINTR; Received (drop 9 fetched)].

Lemma client_answer_sound_witness :
  exists cache ans res client' calls, execute demo_text 0 Opcode.kGet (lit "k") []
      (mkExecIo accepts_all (fun _ => cut_reply ++ [RecvFailed EAGAIN])) demo_past = Some (res, client', serialize_request get_k, calls) /\
    ok res = true /\ cr_value res = lit "v" /\
    exists resp, rs_value resp = lit "v" /\ (resp = busy get_k \/ computed (C := LruCache) cache 1 ans get_k resp).
Proof.
  destruct (reachable_history narrow_config talk2 (narrow_reachable _ talk2_reachable)) as (cache & sub & ans & Hok & Hh).
  assert (Hc : conns_ talk2 !! 1 = Some (run_conn talk2)) by (apply lookup_run_conn; vm_compute; reflexivity).
  destruct (client_answer_sound demo_text 0 narrow_config cache talk2 sub ans 1 (run_conn talk2) [put_kv] [stored] Opcode.kGet (lit "k") []
    (mkExecIo accepts_all (fun _ => cut_reply ++ [RecvFailed EAGAIN])) demo_past Hok Hh Hc talk_requests talk_tags)
    as (res & client' & wire & calls & E & H).
  - exists []. vm_compute. reflexivity.
  - apply Forall_cons_2; [vm_compute; reflexivity | apply Forall_nil_2].
  - exists []. vm_compute. reflexivity.
  - vm_compute. reflexivity.
  - apply accepts_all_ok.
  - by exists cut_reply.
  - exists cache, ans, res, client', calls. vm_compute in E. injection E as <- <- <- <-.
    destruct (H eq_refl) as (resp & _ & Hv & Hcase). split; [vm_compute; reflexivity|]. split; [reflexivity|]. split; [reflexivity|].
    exists resp. split; [symmetry; exact Hv | exact Hcase].
Defined.

Lemma client_answer_arrives_witness :
  exists cache ans resp client', execute demo_text 0 Opcode.kGet (lit "k") [] (mkExecIo accepts_all (fun _ => cut_reply)) demo_past
      = Some (mkCacheResult (rs_status resp) (rs_value resp) [], client', serialize_request get_k, []) /\
    (resp = busy get_k \/ computed (C := LruCache) cache 1 ans get_k resp).
Proof.
  destruct (reachable_history narrow_config talk2 (narrow_reachable _ talk2_reachable)) as (cache & sub & ans & Hok & Hh).
  assert (Hc : conns_ talk2 !! 1 = Some (run_conn talk2)) by (apply lookup_run_conn; vm_compute; reflexivity).
  destruct (client_answer_arrives demo_text 0 narrow_config cache talk2 sub ans 1 (run_conn talk2) [put_kv] [stored] Opcode.kGet (lit "k") []
    (mkExecIo accepts_all (fun _ => cut_reply)) demo_past Hok Hh Hc) as (resp & client' & E & _ & _ & Hcase).
  - vm_compute. reflexivity.
  - exact talk_requests.
  - exact talk_tags.
  - vm_compute. reflexivity.
  - vm_compute. reflexivity.
  - vm_compute. reflexivity.
  - vm_compute. reflexivity.
  - apply Forall_cons_2; [vm_compute; reflexivity | apply Forall_nil_2].
  - vm_compute. reflexivity.
  - vm_compute. reflexivity.
  - vm_compute. reflexivity.
  - apply accepts_all_ok.
  - eexists. vm_compute. reflexivity.
  - exists fetched. split; vm_compute; reflexivity.
  - exists cache, ans, resp, client'. exact (conj E Hcase).
Defined.
