(* ===== verification/Logging.v ===== *)
(** * Logging

    Models include/cache/logging.h and src/logging.cpp.  What [vsnprintf] and
    [snprintf] do with their fixed buffers is written out; the text a call of
    [LCS_LOG] formats is an argument.  The result of a definition is what goes
    to the single write(2) on stderr, nothing when the call is not made. *)

From S2P Require Import Prelude.

Module Level.
Inductive t : Set := kDebug | kInfo | kWarn | kError.
#[export] Instance eq_dec : EqDecision t.
Proof. solve_decision. Defined.
Definition to_int (l : t) : Z := match l with kDebug => 0 | kInfo => 1 | kWarn => 2 | kError => 3 end.
Definition of_int (z : Z) : option t :=
  match z with 0 => Some kDebug | 1 => Some kInfo | 2 => Some kWarn | 3 => Some kError | _ => None end.
End Level.

(** [g_level] *)
Definition initial_level : Z := Level.to_int Level.kInfo.

Definition level_name (l : Level.t) : bytes :=
  match l with
  | Level.kDebug => lit "DEBUG" | Level.kInfo => lit "INFO "
  | Level.kWarn => lit "WARN " | Level.kError => lit "ERROR"
  end.

Definition set_level (l : Level.t) : Z := Level.to_int l.
Definition level (g_level : Z) : option Level.t := Level.of_int g_level.
Definition enabled (g_level : Z) (l : Level.t) : bool := g_level <=? Level.to_int l.

(** A C string in a buffer: up to the first NUL. *)
Fixpoint c_string (s : bytes) : bytes :=
  match s with
  | [] => []
  | b :: s => if bool_decide (b = Byte.x00) then [] else b :: c_string s
  end.

Definition newline : byte := Byte.x0a.
Definition kLineBuffer : Z := 1024.
Definition kMessageBuffer : Z := 960.
Definition int_max : Z := 2 ^ 31 - 1.

(** A view of 2^31 bytes or more gives a negative precision, with which
    [snprintf] would read on to a NUL: undefined for a view. *)
Definition write_line (l : Level.t) (message : bytes) : option (list bytes) :=
  if int_max <? len message then None else
  let full := level_name l ++ lit " " ++ c_string message ++ [newline] in
  let written := len full in
  if (written <=? 0) || (int_max <? written) then Some [] else
  let n := if written <? kLineBuffer then written else kLineBuffer - 1 in
  Some [take (Z.to_nat n) full].

(** [formatted]: the whole text of the format and its arguments, or a failure
    of [vsnprintf]. *)
Definition log_formatted (l : Level.t) (formatted : option bytes) : option (list bytes) :=
  match formatted with
  | None => Some []
  | Some text => write_line l (c_string (take (Z.to_nat (kMessageBuffer - 1)) text))
  end.

(** The macro [LCS_LOG]. *)
Definition lcs_log (g_level : Z) (l : Level.t) (formatted : option bytes) : option (list bytes) :=
  if enabled g_level l then log_formatted l formatted else Some [].

Lemma len_c_string s : len (c_string s) <= len s.
Proof. induction s as [|b s IH]; cbn [c_string]; [done|]. case_bool_decide; rewrite ?len_cons; [rewrite len_nil; pose proof (len_nonneg s)|]; lia. Qed.

Lemma c_string_idem s : c_string (c_string s) = c_string s.
Proof. induction s as [|b s IH]; cbn [c_string]; [done|]. case_bool_decide as Hb; [done|]. cbn [c_string]. rewrite bool_decide_false by done. by rewrite IH. Qed.

Lemma len_level_name l : len (level_name l) = 5.
Proof. by destruct l. Qed.

(** ** Properties *)

(** what is logged goes out as one whole line: with the level disabled
    nothing is written; otherwise exactly one write of the level, a blank, the
    first bytes of the text (up to 959, or a NUL), and the newline, which is
    never cut off: 966 bytes at most. *)
Theorem log_line_whole g l text :
  lcs_log g l (Some text) =
    Some (if enabled g l
          then [level_name l ++ lit " " ++ c_string (take 959 text) ++ [newline]] else []) /\
  len (level_name l ++ lit " " ++ c_string (take 959 text) ++ [newline]) <= 966.
Proof.
  pose proof (len_c_string (take 959 text)) as Hs. pose proof (len_nonneg (c_string (take 959 text))).
  assert (Ht : len (take 959 text) <= 959) by (unfold len; rewrite length_take; lia).
  assert (Hl : len (level_name l ++ lit " " ++ c_string (take 959 text) ++ [newline])
               = 7 + len (c_string (take 959 text))).
  { rewrite !len_app, len_level_name. change (len (lit " ")) with 1. change (len [newline]) with 1. lia. }
  split; [|lia]. unfold lcs_log. destruct (enabled g l); [|done]. unfold log_formatted, write_line.
  change (Z.to_nat (kMessageBuffer - 1)) with 959%nat. rewrite c_string_idem, Hl.
  unfold int_max, kLineBuffer. split_if; [b2p; lia|]. split_if; [b2p; destruct Hif0; b2p; lia|].
  split_if; [|b2p; lia]. do 2 f_equal. apply take_ge. unfold len in *. lia.
Qed.
