(* ===== verification/ClientMain.v ===== *)
(** * The command-line client

    Models client/client_main.cpp: the arguments, one call of the client
    library, the two output streams and the exit code. *)

From S2P Require Import Prelude Protocol Stats Serializer Sys Client.

Definition kDefaultSocket : bytes := lit "/tmp/local_cache.sock".

Definition print_usage (program : bytes) : bytes :=
  line (lit "Usage: " ++ program ++ lit " [--socket PATH] <command> [args]") ++
  line [] ++
  line (lit "Commands:") ++
  line (lit "  put <key> <value>   Store a value (value read from stdin if omitted)") ++
  line (lit "  get <key>           Fetch a value, written verbatim to stdout") ++
  line (lit "  delete <key>        Remove a key") ++
  line (lit "  ping                Check that the service is reachable") ++
  line (lit "  stats               Print server statistics") ++
  line (lit "  clear               Drop every cache entry") ++
  line [] ++
  line (lit "Exit codes: 0 success, 1 transport error, 3 not found, 4 server error").

(** What the process leaves behind. *)
Record Outcome := mkOutcome {
  oc_stdout : bytes;
  oc_stderr : bytes;
  oc_code : Z;
}.

(** The message on stderr and the exit code for a status. *)
Definition report_status (status : Status.t) : bytes * Z :=
  match status with
  | Status.kOk => ([], 0)
  | Status.kNotFound => (line (lit "NOT_FOUND"), 3)
  | _ => (line (status_to_string status), 4)
  end.

(** The loop over the arguments: a request for help, or the socket path and
    the other arguments. *)
Fixpoint client_args (args : list bytes) (socket_path : bytes) (rest : list bytes)
    : option (bytes * list bytes) :=
  match args with
  | [] => Some (socket_path, rest)
  | arg :: more =>
      let other := if bool_decide (arg = lit "--help") || bool_decide (arg = lit "-h") then None
                   else client_args more socket_path (rest ++ [arg]) in
      if bool_decide (arg = lit "--socket") then
        match more with path :: more => client_args more path rest | [] => other end
      else other
  end.

Section ClientMain.
(** The texts of [errno] values, and of [hit_rate()] printed with four
    decimals. *)
Context (errno_text : Z -> bytes) (stale_errno : Z) (hit_rate_text : StatsSnapshot -> bytes).

Definition print_stats (s : StatsSnapshot) : bytes :=
  line (lit "cache_hits            " ++ to_string (cache_hits s)) ++
  line (lit "cache_misses          " ++ to_string (cache_misses s)) ++
  line (lit "hit_rate              " ++ hit_rate_text s) ++
  line (lit "puts                  " ++ to_string (puts s)) ++
  line (lit "deletes               " ++ to_string (deletes s)) ++
  line (lit "evictions             " ++ to_string (evictions s)) ++
  line (lit "current_entries       " ++ to_string (current_entries s)) ++
  line (lit "current_cache_bytes   " ++ to_string (current_cache_bytes s)) ++
  line (lit "current_payload_bytes " ++ to_string (current_payload_bytes s)) ++
  line (lit "active_connections    " ++ to_string (active_connections s)) ++
  line (lit "total_connections     " ++ to_string (total_connections s)) ++
  line (lit "requests_processed    " ++ to_string (requests_processed s)) ++
  line (lit "protocol_errors       " ++ to_string (protocol_errors s)) ++
  line (lit "rejected_requests     " ++ to_string (rejected_requests s)) ++
  line (lit "uptime_ms             " ++ to_string (uptime_ms s)).

(** [before]: printed once the call has succeeded. *)
Definition report (name : bytes) (result : CacheResult) (before : bytes) : Outcome :=
  if negb (ok result) then mkOutcome [] (line (name ++ lit " failed: " ++ cr_error result)) 1
  else let '(err, code) := report_status (cr_status result) in mkOutcome before err code.

(** The loop of [read_stdin]: a call of [fread] that returns nothing ends it;
    [None] when there are more calls than answers. *)
Fixpoint read_stdin (reads : list bytes) : option bytes :=
  match reads with
  | [] => None
  | [] :: _ => Some []
  | data :: reads => rest ← read_stdin reads; Some (data ++ rest)
  end.

Definition usage_error (message : bytes) : option Outcome := Some (mkOutcome [] (line message) 2).

(** [stdin]: what the calls of [fread] return. *)
Definition run_command (program command : bytes) (args : list bytes) (stdin : list bytes) (io : ExecIo)
    (client : CacheClient) : option Outcome :=
  if bool_decide (command = lit "put") then
    match args with
    | [] => usage_error (lit "put requires a key")
    | key :: more =>
        value ← match more with value :: _ => Some value | [] => read_stdin stdin end;
        '(result, _, _, _) ← client_put errno_text stale_errno key value io client;
        Some (report (lit "put") result [])
    end
  else if bool_decide (command = lit "get") then
    match args with
    | [] => usage_error (lit "get requires a key")
    | key :: _ =>
        '(result, _, _, _) ← client_get errno_text stale_errno key io client;
        Some (report (lit "get") result
                (if bool_decide (cr_status result = Status.kOk) then cr_value result else []))
    end
  else if bool_decide (command = lit "delete") then
    match args with
    | [] => usage_error (lit "delete requires a key")
    | key :: _ =>
        '(result, _, _, _) ← client_erase errno_text stale_errno key io client;
        Some (report (lit "delete") result [])
    end
  else if bool_decide (command = lit "ping") then
    '(result, _, _, _) ← client_ping errno_text stale_errno io client;
    Some (report (lit "ping") result (line (lit "PONG")))
  else if bool_decide (command = lit "clear") then
    '(result, _, _, _) ← client_clear errno_text stale_errno io client;
    Some (report (lit "clear") result [])
  else if bool_decide (command = lit "stats") then
    '(result, _, _, _) ← client_stats errno_text stale_errno io client;
    if negb (is_empty_string (sr_error result))
    then Some (mkOutcome [] (line (lit "stats failed: " ++ sr_error result)) 1)
    else Some (mkOutcome (print_stats (sr_stats result)) [] 0)
  else Some (mkOutcome (print_usage program) (line (lit "unknown command: " ++ command)) 2).

Definition client_main (program : bytes) (args : list bytes) (stdin : list bytes) (cio : ConnectIo) (io : ExecIo)
    : option Outcome :=
  match client_args args kDefaultSocket [] with
  | None => Some (mkOutcome (print_usage program) [] 0)
  | Some (_, []) => Some (mkOutcome (print_usage program) [] 2)
  | Some (socket_path, command :: args) =>
      let '(error, client, _) := connect errno_text (new_client socket_path) cio in
      if negb (is_empty_string error)
      then Some (mkOutcome [] (line (lit "connect failed: " ++ error)) 1)
      else run_command program command args stdin io client
  end.
End ClientMain.

(** ** Properties *)

(** The request a command line stands for. *)
Definition command_request (words : list bytes) (stdin : bytes) : option (Opcode.t * bytes * bytes) :=
  match words with
  | [] => None
  | command :: args =>
      match args with
      | key :: more =>
          if bool_decide (command = lit "put")
          then Some (Opcode.kPut, key, match more with value :: _ => value | [] => stdin end)
          else if bool_decide (command = lit "get") then Some (Opcode.kGet, key, [])
          else if bool_decide (command = lit "delete") then Some (Opcode.kDelete, key, [])
          else if bool_decide (command = lit "ping") then Some (Opcode.kPing, [], [])
          else if bool_decide (command = lit "clear") then Some (Opcode.kClear, [], [])
          else if bool_decide (command = lit "stats") then Some (Opcode.kStats, [], []) else None
      | [] =>
          if bool_decide (command = lit "ping") then Some (Opcode.kPing, [], [])
          else if bool_decide (command = lit "clear") then Some (Opcode.kClear, [], [])
          else if bool_decide (command = lit "stats") then Some (Opcode.kStats, [], []) else None
      end
  end.

Definition exit_code (status : Status.t) : Z :=
  match status with Status.kOk => 0 | Status.kNotFound => 3 | _ => 4 end.

(** A response with the id and the opcode of the request is what the peer sends
    next, before any error or end of the stream. *)
Definition answered (c : CacheClient) (op : Opcode.t) (recvs : list RecvResult) (r : Response) : Prop :=
  response_ok kClientLimits r = true /\ rs_request_id r = cc_next_request_id_ c /\ rs_opcode r = op /\
  exists used rest data left, recvs = used ++ rest /\ recv_data used = Some data /\
    cc_in_buf_ c ++ data = serialize_response r ++ left.

Section Main.
Context (errno_text : Z -> bytes) (stale_errno : Z) (hit_rate_text : StatsSnapshot -> bytes).

Lemma read_stdin_all (input : list bytes) : Forall (fun data => data <> []) input ->
  read_stdin (input ++ [[]]) = Some (concat input).
Proof.
  induction 1 as [|data input Hd _ IH]; [done|]. destruct data as [|b data]; [done|]. cbn [app read_stdin]. by rewrite IH.
Qed.

(** The exit code and the output on stdout for a response: the statistics only
    count as such if they are complete. *)
Definition response_outcome (op : Opcode.t) (status : Status.t) (value : bytes) : Z * bytes :=
  match op with
  | Opcode.kStats =>
      if bool_decide (status = Status.kOk) then
        match deserialize_stats value default_stats with
        | Some (true, stats) => (0, print_stats hit_rate_text stats)
        | _ => (1, [])
        end
      else (1, [])
  | Opcode.kGet => (exit_code status, if bool_decide (status = Status.kOk) then value else [])
  | Opcode.kPing => (exit_code status, line (lit "PONG"))
  | _ => (exit_code status, [])
  end.

Lemma report_outcome name result before : let o := report name result before in
  (oc_code o, oc_stdout o) = if ok result then (exit_code (cr_status result), before) else (1, []).
Proof. unfold report. destruct (ok result); [|done]. cbn [negb]. by destruct (cr_status result). Qed.

(** What the client makes of the result of the call. *)
Lemma run_command_outcome program command args input io client op key value raw c' wire calls :
  Forall (fun data => data <> []) input ->
  command_request (command :: args) (concat input) = Some (op, key, value) ->
  execute errno_text stale_errno op key value io client = Some (raw, c', wire, calls) ->
  exists o, run_command errno_text stale_errno hit_rate_text program command args (input ++ [[]]) io client = Some o /\
    (oc_code o, oc_stdout o) = if ok raw then response_outcome op (cr_status raw) (cr_value raw) else (1, []).
Proof.
  intros Hin%read_stdin_all.
  unfold command_request, run_command, client_put, client_get, client_erase, client_ping, client_clear, client_stats.
  rewrite Hin. destruct args as [|k [|v more]]; repeat (case_bool_decide; subst; try discriminate); intros [= <- <- <-] E;
    cbn [mbind option_bind]; rewrite E; cbn [mbind option_bind response_outcome];
    try (eexists; split; [reflexivity | apply report_outcome]).
  all: unfold ok; destruct (is_empty_string (cr_error raw)) eqn:Ee; cbn [negb mbind option_bind sr_error];
    [|rewrite Ee; by eexists].
  all: destruct (bool_decide (cr_status raw = Status.kOk)); cbn [negb mbind option_bind sr_error]; [|by eexists].
  all: destruct (deserialize_stats_spec (cr_value raw) default_stats) as (b & stats & -> & _);
    by destruct b; eexists.
Qed.

(** The result of the call is the response, if one arrives, and else an error. *)
Lemma execute_answered op key value io client : connected client = true ->
  len key <= kMaxKeyBytes -> len value <= kMaxValueBytes -> socket_answers (xi_sends io) ->
  let frame := serialize_request (client_request client op key value) in
  let sent := send_all errno_text stale_errno (xi_sends io) frame = Some ([], frame) in
  (exists pre, xi_peer io frame = pre ++ [RecvFailed EAGAIN]) ->
  exists raw c' wire calls, execute errno_text stale_errno op key value io client = Some (raw, c', wire, calls) /\
    (forall r, sent -> answered client op (xi_peer io frame) r -> raw = mkCacheResult (rs_status r) (rs_value r) []) /\
    (ok raw = false \/ exists r, sent /\ answered client op (xi_peer io frame) r).
Proof.
  intros Hc Hk Hv [Hks Hsend] frame sent Hp. rewrite execute_sends by done. fold frame.
  destruct (send_all_total errno_text stale_errno (xi_sends io) frame Hsend) as [[error wire] Es]. unfold sent. rewrite Es.
  cbn [mbind option_bind]. destruct (send_all_spec errno_text stale_errno _ _ _ _ Hks Es) as [[-> ->]|(He & _)].
  2:{ destruct error as [|b error]; [done|]. cbn [is_empty_string negb]. eexists _, _, _, _. split_and!; [done | | by left].
      intros r [=]. }
  cbn [is_empty_string negb]. set (c1 := cc_set_out_buf _ _).
  destruct (receive_outcome errno_text (xi_peer io frame) (cc_next_request_id_ client) op default_response c1 Hp)
    as (e & r & c' & calls & E & Hend).
  assert (Harr : forall r', answered client op (xi_peer io frame) r' -> e = [] /\ r = r').
  { intros r' (Hok & Hid & Hop & used & rest & data & left & Hu & Hd & Hb).
    destruct (receive_frame_then errno_text used rest data c1 r' left (cc_next_request_id_ client) op default_response Hok Hd Hb)
      as (l & more & _ & E'). rewrite <- Hu, E in E'. injection E' as -> -> _ _. split; [|done]. by apply check_response_ok. }
  rewrite E. cbn [mbind option_bind]. destruct e as [|b e]; cbn [is_empty_string negb]; eexists _, _, _, _; (split; [done|]); split.
  - intros r' _ Hr. by destruct (Harr r' Hr) as [_ ->].
  - right. inversion Hend as [r0 used rest left Hok Hu Hd Hb Hchk|error out He]; subst; [|done].
    apply check_response_ok in Hchk as [Hid Hop]. exists r. split; [done|].
    split_and!; try done. by exists used, rest, (recv_bytes used), left.
  - intros r' _ Hr. by destruct (Harr r' Hr).
  - by left.
Qed.

End Main.

(** [put k] with a value that comes from stdin in two reads; the peer answers
    this request only. *)
Definition demo_input : list bytes := [[Byte.x00; Byte.xff]; [Byte.x0a]].
Definition demo_put_io : ExecIo := mkExecIo accepts_all (fun wire =>
  (if bool_decide (wire = serialize_request (mkRequest Opcode.kPut 1 (lit "k") [Byte.x00; Byte.xff; Byte.x0a]))
   then [Received (serialize_response (mkResponse Opcode.kPut Status.kOk 1 []))] else []) ++ [RecvFailed EAGAIN]).
Definition demo_cio : ConnectIo := mkConnectIo (NewFd 3) Success Success Success.


(** The statistics are the exception: a server error on [stats] is not
    reported with exit code 4, as the usage text says, but with 1. *)
Definition demo_busy_io : ExecIo := mkExecIo accepts_all
  (fun _ => [Received (serialize_response (mkResponse Opcode.kStats Status.kServerBusy 1 [])); RecvFailed EAGAIN]).

Lemma cli_stats_server_error : exists o,
  client_main demo_text 0 (fun _ => []) (lit "cache_client") [lit "stats"] [] demo_cio demo_busy_io = Some o /\
  oc_code o = 1 /\ oc_stderr o = line (lit "stats failed: server returned SERVER_BUSY").
Proof. eexists. split; [vm_compute; reflexivity|]. split; vm_compute; reflexivity. Qed.
