(* ===== verification/Notify.v ===== *)
(** * The hand-over of responses from the workers to the event loop

    The step relation of the server runs a job as one step.  Here the steps of
    [Server::complete_job] with [Connection::enqueue_response] on any number of
    workers, and those of [Server::drain_completions] and of the end of
    [Server::handle_connection_event] on the event loop, interleave at every
    access to what they share, for one connection: its output, its flags, its
    place in [ready_connections_], and the completion eventfd. *)

From S2P Require Import Prelude Protocol Stats Serializer CacheSpec SpecHistory LruCache Service.
From S2P Require Import Sys Connection ThreadPool Config Server ServerInv ServerProps.

(** What the threads share. *)
Record NShared := mkNShared {
  sh_conn : Connection;
  sh_ready : nat;     (* how often the connection is in [ready_connections_] *)
  sh_counter : Z;     (* the completion eventfd *)
}.

Definition set_sh_conn (c : Connection) (s : NShared) : NShared := mkNShared c (sh_ready s) (sh_counter s).

(** ** Workers *)

(** Where a worker stands in [complete_job] for the connection. *)
Inductive NWorker : Type :=
  | NIdle
  | NEnqueue (frame : bytes)  (* at [closed()] *)
  | NStage (frame : bytes)    (* at the critical section of [out_mutex_] *)
  | NSub (healthy : bool)     (* at [inflight_.fetch_sub] *)
  | NMark                     (* at [mark_close_after_flush] *)
  | NFlag                     (* at [try_mark_notified] *)
  | NPush                     (* at the critical section of [ready_mutex_] *)
  | NWrite.                   (* at the write to the eventfd *)

Definition worker_move (w : NWorker) (s : NShared) : option (NWorker * NShared) :=
  let c := sh_conn s in
  match w with
  | NIdle => None
  | NEnqueue frame => Some (if closed_ c then NSub false else NStage frame, s)
  | NStage frame => let '(over_limit, c) := stage c frame in Some (NSub (negb over_limit), set_sh_conn c s)
  | NSub healthy => Some (if healthy then NFlag else NMark, set_sh_conn (complete_request true c) s)
  | NMark => Some (NFlag, set_sh_conn (mark_close_after_flush c) s)
  | NFlag => let '(first, c) := try_mark_notified c in Some (if first then NPush else NIdle, set_sh_conn c s)
  | NPush => Some (NWrite, mkNShared c (S (sh_ready s)) (sh_counter s))
  | NWrite => Some (NIdle, mkNShared c (sh_ready s) (eventfd_add (sh_counter s)))
  end.

(** ** The event loop *)

(** Where the event loop stands; [n] is how often [drain_completions] has still
    to visit the connection. *)
Inductive NLoop : Type :=
  | LWait                    (* elsewhere *)
  | LHandle                  (* in a handler, before the last flush *)
  | LRead                    (* at the read of the eventfd *)
  | LSwap                    (* at the critical section of [ready_mutex_] *)
  | LVisit (n : nat)         (* at the head of the loop over [ready] *)
  | LClosed (n : nat)        (* at [closed()] *)
  | LFlush (n : nat)         (* at the head of the loop of [flush_output] *)
  | LSend (n : nat)          (* at [send] *)
  | LCheck (n : nat)         (* at [close_after_flush()] *)
  | LWanted (n : nat)        (* at the head of [update_interest] *)
  | LSet (n : nat) (ev : Z). (* with the events computed *)

Section Loop.
Context (draining : bool).

(** [r] and [ctl] are the answers of [send] and [epoll_ctl(MOD)]. *)
Definition loop_move (r : SendResult) (ctl : bool) (l : NLoop) (s : NShared) : option (NLoop * NShared) :=
  let c := sh_conn s in
  match l with
  | LWait => None
  | LHandle => Some (LFlush 0, s)
  | LRead => Some (LSwap, mkNShared c (sh_ready s) 0)
  | LSwap => Some (LVisit (sh_ready s), mkNShared c 0 (sh_counter s))
  | LVisit 0 => Some (LWait, s)
  | LVisit (S n) => Some (LClosed n, set_sh_conn (clear_notified c) s)
  | LClosed n => Some (if closed_ c then LVisit n else LFlush n, s)
  | LFlush n => let '(done, c) := refill c in Some (if done then LCheck n else LSend n, set_sh_conn c s)
  | LSend n =>
      match send_once c r with
      | (None, c, _) => Some (LFlush n, set_sh_conn c s)
      | (Some IoResult.kError, c, _) => Some (LVisit n, set_sh_conn (mark_closed c) s)
      | (Some _, c, _) => Some (LCheck n, set_sh_conn c s)
      end
  | LCheck n =>
      if close_after_flush_ c && negb (has_pending_output c)
      then Some (LVisit n, set_sh_conn (mark_closed c) s) else Some (LWanted n, s)
  | LWanted n => Some (LSet n (wanted_events draining c), s)
  | LSet n ev =>
      if ev =? registered_events_ c then Some (LVisit n, s)
      else Some (LVisit n, set_sh_conn (if ctl then set_registered_events ev c else mark_closed c) s)
  end.

(** What a handler does to the connection before its last flush. *)
Inductive handler_op (c : Connection) : Connection -> Prop :=
  | ho_input c' : input_only c c' -> handler_op c c'
  | ho_submit : handler_op c (note_request_submitted c)
  | ho_enqueue frame completes : handler_op c (enqueue_response c frame completes).2
  | ho_mark : handler_op c (mark_close_after_flush c)
  | ho_refill : handler_op c (refill c).2
  | ho_send r : handler_op c (send_once c r).1.2.

Record NSys := mkNSys {
  ns_shared : NShared;
  ns_workers : list NWorker;
  ns_loop : NLoop;
}.

Inductive notify_step : NSys -> NSys -> Prop :=
  | nt_start i frame s ws l : ws !! i = Some NIdle ->
      notify_step (mkNSys s ws l) (mkNSys s (<[i := NEnqueue frame]> ws) l)
  | nt_worker i w w' s s' ws l : ws !! i = Some w -> worker_move w s = Some (w', s') ->
      notify_step (mkNSys s ws l) (mkNSys s' (<[i := w']> ws) l)
  | nt_loop r ctl s s' ws l l' : loop_move r ctl l s = Some (l', s') ->
      notify_step (mkNSys s ws l) (mkNSys s' ws l')
  | nt_completion s ws : 0 < sh_counter s -> notify_step (mkNSys s ws LWait) (mkNSys s ws LRead)
  | nt_event s ws : notify_step (mkNSys s ws LWait) (mkNSys s ws LHandle)
  | nt_handle c' s ws : handler_op (sh_conn s) c' ->
      notify_step (mkNSys s ws LHandle) (mkNSys (set_sh_conn c' s) ws LHandle)
  | nt_close s ws : notify_step (mkNSys s ws LHandle) (mkNSys (set_sh_conn (mark_closed (sh_conn s)) s) ws (LVisit 0)).

(** An open connection at rest, and workers busy with something else. *)
Record notify_init (s : NSys) : Prop := mkNotifyInit {
  nti_flag : notify_pending_ (sh_conn (ns_shared s)) = false;
  nti_settled : settled draining (sh_conn (ns_shared s));
  nti_ready : sh_ready (ns_shared s) = 0%nat;
  nti_counter : 0 <= sh_counter (ns_shared s);
  nti_workers : Forall (fun w => w = NIdle) (ns_workers s);
  nti_loop : ns_loop s = LWait;
}.

(** ** The invariant *)

Definition is_push (w : NWorker) : nat := match w with NPush => 1 | _ => 0 end.
Definition pushes (ws : list NWorker) : nat := sum_list (is_push <$> ws).
#[local] Arguments pushes : simpl never.

Definition visits (l : NLoop) : nat :=
  match l with
  | LVisit n | LClosed n | LFlush n | LSend n | LCheck n | LWanted n | LSet n _ => n
  | _ => 0
  end.

(** A worker that has changed the connection and not set the flag. *)
Definition unflagged (w : NWorker) : Prop := match w with NSub _ | NMark | NFlag => True | _ => False end.

Definition flushing_ok (c : Connection) : Prop := close_after_flush_ c = false \/ has_pending_output c = true.

(** The event loop will look at the connection, or has just looked. *)
Definition looked_at (l : NLoop) (c : Connection) : Prop :=
  match l with
  | LHandle | LClosed _ | LFlush _ | LSend _ | LCheck _ => True
  | LWanted _ => flushing_ok c
  | LSet _ ev => ev = wanted_events draining c /\ flushing_ok c
  | _ => settled draining c
  end.

Record notify_inv (s : NSys) : Prop := mkNotifyInv {
  (* the flag is a token: it is held by one worker, the list or the loop *)
  nv_token : (pushes (ns_workers s) + sh_ready (ns_shared s) + visits (ns_loop s) =
              if notify_pending_ (sh_conn (ns_shared s)) then 1 else 0)%nat;
  nv_wake : (0 < sh_ready (ns_shared s))%nat ->
    0 < sh_counter (ns_shared s) \/ NWrite ∈ ns_workers s \/ ns_loop s = LSwap;
  nv_counter : 0 <= sh_counter (ns_shared s);
  nv_cover : closed_ (sh_conn (ns_shared s)) = false ->
    (exists w, w ∈ ns_workers s /\ unflagged w) \/ notify_pending_ (sh_conn (ns_shared s)) = true \/
    looked_at (ns_loop s) (sh_conn (ns_shared s));
}.

Lemma pushes_insert ws i w w' : ws !! i = Some w ->
  (pushes (<[i := w']> ws) + is_push w = pushes ws + is_push w')%nat.
Proof.
  unfold pushes. revert i. induction ws as [|x ws IH]; intros [|i] Hi; simplify_eq/=; [|apply IH in Hi]; lia.
Qed.

Lemma elem_insert_other (ws : list NWorker) (i : nat) w w' x : ws !! i = Some w -> x ∈ ws -> x <> w -> x ∈ <[i := w']> ws.
Proof.
  intros Hi Hin Hne. apply list_elem_of_lookup in Hin as [j Hj]. apply list_elem_of_lookup. exists j.
  rewrite list_lookup_insert_ne; [done|]. intros ->. congruence.
Qed.

Lemma elem_insert_new (ws : list NWorker) (i : nat) w w' : ws !! i = Some w -> w' ∈ <[i := w']> ws.
Proof.
  intros Hi. apply list_elem_of_lookup. exists i. apply list_lookup_insert_eq. by eapply lookup_lt_Some.
Qed.

Lemma eventfd_add_pos n : 0 <= n -> 0 < eventfd_add n.
Proof. intros H. unfold eventfd_add. destruct (Z.ltb_spec n (2 ^ 64 - 2)); lia. Qed.

(** What a worker does to the connection: to its flag, and to what the event
    loop decides by. *)
Lemma worker_move_conn w s w' s' : worker_move w s = Some (w', s') ->
  closed_ (sh_conn s') = closed_ (sh_conn s) /\
  (notify_pending_ (sh_conn s') = (match w with NFlag => true | _ => notify_pending_ (sh_conn s) end)) /\
  (unflagged w' \/ w = NFlag \/ (~ unflagged w /\ sh_conn s' = sh_conn s)).
Proof.
  destruct w; cbn; intros [= <- <-]; split_and!; try done; repeat case_match; cbn; tauto.
Qed.

Lemma worker_move_token w s w' s' : worker_move w s = Some (w', s') ->
  (is_push w' + sh_ready s' + (if notify_pending_ (sh_conn s) then 1 else 0) =
   is_push w + sh_ready s + (if notify_pending_ (sh_conn s') then 1 else 0))%nat.
Proof.
  destruct w; cbn; intros [= <- <-]; cbn; repeat case_match; cbn; lia.
Qed.

Lemma worker_move_wake w s w' s' (ws : list NWorker) (i : nat) : worker_move w s = Some (w', s') -> ws !! i = Some w -> 0 <= sh_counter s ->
  0 <= sh_counter s' /\
  ((0 < sh_ready s)%nat -> 0 < sh_counter s \/ NWrite ∈ ws -> 0 < sh_counter s' \/ NWrite ∈ <[i := w']> ws) /\
  ((0 < sh_ready s')%nat -> (0 < sh_ready s)%nat \/ NWrite ∈ <[i := w']> ws).
Proof.
  intros E Hi Hc. assert (Hk : w <> NWrite -> NWrite ∈ ws -> NWrite ∈ <[i := w']> ws)
    by (intros; by eapply elem_insert_other).
  assert (Hsame : w <> NWrite -> w <> NPush -> sh_counter s' = sh_counter s /\ sh_ready s' = sh_ready s).
  { intros H1 H2. destruct w; try done; cbn in E; injection E as <- <-; done. }
  destruct w; try (destruct (Hsame ltac:(done) ltac:(done)) as [-> ->]; by naive_solver).
  - injection E as <- <-. cbn. split; [done|]. split; [naive_solver|]. intros _. right. by eapply elem_insert_new.
  - injection E as <- <-. cbn. pose proof (eventfd_add_pos (sh_counter s) Hc). split; [lia|]. split; auto.
Qed.

Lemma worker_step_notify (i : nat) w w' s s' (ws : list NWorker) l : ws !! i = Some w -> worker_move w s = Some (w', s') ->
  notify_inv (mkNSys s ws l) -> notify_inv (mkNSys s' (<[i := w']> ws) l).
Proof.
  intros Hi E [Ht Hw Hc Hv]. cbn in *.
  destruct (worker_move_conn _ _ _ _ E) as (Ecl & Efl & Hcase).
  destruct (worker_move_wake _ _ _ _ _ _ E Hi Hc) as (Hc' & Hw1 & Hw2).
  split; cbn.
  - pose proof (worker_move_token _ _ _ _ E) as Hm. pose proof (pushes_insert _ _ _ w' Hi). lia.
  - intros Hr. destruct (Hw2 Hr) as [H|]; [|by auto]. destruct (Hw H) as [?|[?|?]]; [| |by auto];
      destruct (Hw1 H ltac:(by auto)); auto.
  - done.
  - rewrite Ecl. intros Hcl. destruct Hcase as [Hu | [-> | [Hn Es]]].
    + left. exists w'. split; [by eapply elem_insert_new | done].
    + by auto.
    + rewrite Es. destruct (Hv Hcl) as [(x & Hx & Hu)|H]; [|by auto].
      left. exists x. split; [|done]. eapply elem_insert_other; [done | done|]. by intros ->.
Qed.

Lemma refill_flag c : notify_pending_ (refill c).2 = notify_pending_ c.
Proof. unfold refill. by repeat split_if. Qed.
Lemma send_once_flag c r : notify_pending_ (send_once c r).1.2 = notify_pending_ c.
Proof. destruct r; cbn; by repeat split_if. Qed.

(** Only clearing the flag moves the token, and only the loop's decisions and
    the closing of the connection end its looking at it. *)
Lemma loop_move_spec r ctl l s l' s' : loop_move r ctl l s = Some (l', s') ->
  (sh_ready s' + visits l' + (if notify_pending_ (sh_conn s) then 1 else 0) =
   sh_ready s + visits l + (if notify_pending_ (sh_conn s') then 1 else 0) \/
   (exists n, l = LVisit (S n) /\ l' = LClosed n /\ s' = set_sh_conn (clear_notified (sh_conn s)) s))%nat /\
  ((0 < sh_ready s')%nat -> sh_ready s' = sh_ready s /\ l <> LSwap /\ (sh_counter s' = sh_counter s \/ l' = LSwap)) /\
  (0 <= sh_counter s -> 0 <= sh_counter s') /\
  (closed_ (sh_conn s') = false -> closed_ (sh_conn s) = false /\
    (looked_at l (sh_conn s) -> looked_at l' (sh_conn s')) /\
    (notify_pending_ (sh_conn s') = notify_pending_ (sh_conn s) \/ looked_at l' (sh_conn s'))).
Proof.
  destruct l as [| | | |[|n]|n|n|n|n|n|n ev]; cbn [loop_move]; try (intros [= <- <-]; cbn; split_and!; auto; lia).
  - intros [= <- <-]. cbn. split_and!; auto. right. by exists n.
  - intros [= <- <-]. cbn. destruct (closed_ (sh_conn s)) eqn:Hcl; cbn; split_and!; auto. congruence.
  - pose proof (refill_flag (sh_conn s)) as Hf. destruct (refill (sh_conn s)) as [done c] eqn:E. cbn in Hf.
    intros [= <- <-]. cbn. rewrite Hf. assert (closed_ c = closed_ (sh_conn s)) as Ecl.
    { unfold refill in E. repeat case_match; by injection E as <- <-. }
    destruct done; cbn; rewrite ?Ecl; split_and!; auto.
  - pose proof (send_once_flag (sh_conn s) r) as Hf.
    assert (closed_ (send_once (sh_conn s) r).1.2 = closed_ (sh_conn s)) as Ecl by (destruct r; cbn; by repeat split_if).
    destruct (send_once (sh_conn s) r) as [[res c] wire]. cbn in Hf, Ecl.
    destruct res as [[]|]; intros [= <- <-]; cbn; rewrite ?Hf, ?Ecl; split_and!; auto; done.
  - destruct (close_after_flush_ (sh_conn s) && negb (has_pending_output (sh_conn s))) eqn:E; intros [= <- <-]; cbn;
      split_and!; auto; try done. intros Hcl. split_and!; auto. intros _. unfold flushing_ok.
    destruct (close_after_flush_ (sh_conn s)), (has_pending_output (sh_conn s)); auto; done.
  - destruct (Z.eqb_spec ev (registered_events_ (sh_conn s))) as [E|E]; [|destruct ctl]; intros [= <- <-]; cbn;
      split_and!; auto; try done.
    + intros Hcl. split_and!; auto. intros [-> Hf]. split; [by left | done].
    + intros Hcl. split_and!; auto. intros [-> Hf]. split; [by left | done].
Qed.

Lemma loop_step_notify r ctl s s' ws l l' : loop_move r ctl l s = Some (l', s') ->
  notify_inv (mkNSys s ws l) -> notify_inv (mkNSys s' ws l').
Proof.
  intros E [Ht Hw Hc Hv]. destruct (loop_move_spec _ _ _ _ _ _ E) as (Hm & Hr & Hc' & Hl). cbn in *. split; cbn.
  - destruct Hm as [Hm|(n & -> & -> & ->)]; [lia|]. cbn in *. destruct (notify_pending_ (sh_conn s)); lia.
  - intros H. destruct (Hr H) as (Er & Hs & Hcnt). rewrite Er in H.
    destruct (Hw H) as [?|[?|?]]; [|by auto|done]. destruct Hcnt as [-> | ->]; auto.
  - auto.
  - intros Hcl. destruct (Hl Hcl) as (Hcl' & Hk & Hf). destruct (Hv Hcl') as [?|[Hn|?]]; [by auto | | by auto].
    destruct Hf as [-> | ?]; auto.
Qed.

Lemma handler_op_keeps c c' : handler_op c c' -> notify_pending_ c' = notify_pending_ c /\ closed_ c' = closed_ c.
Proof.
  intros [c'' (b & p & ->)| |frame completes| | |r]; try done.
  - unfold enqueue_response. destruct (closed_ c) eqn:E; cbn; destruct completes; cbn; auto.
  - split; [apply refill_flag|]. unfold refill. by repeat split_if.
  - split; [apply send_once_flag|]. destruct r; cbn; by repeat split_if.
Qed.

Lemma notify_step_inv s s' : notify_step s s' -> notify_inv s -> notify_inv s'.
Proof.
  intros [i frame sh ws l Hi|i w w' sh sh' ws l Hi E|r ctl sh sh' ws l l' E|sh ws Hp|sh ws|c' sh ws Hh|sh ws] Hinv.
  - destruct Hinv as [Ht Hw Hc Hv]. cbn in *.
    assert (Hk : forall x, x ∈ ws -> x <> NIdle -> x ∈ <[i := NEnqueue frame]> ws) by (intros; by eapply elem_insert_other).
    split; cbn; [|naive_solver|done|].
    + pose proof (pushes_insert _ _ _ (NEnqueue frame) Hi) as Hp. cbn in Hp. lia.
    + intros Hcl. destruct (Hv Hcl) as [(x & Hx & Hu)|?]; [|by auto]. left. exists x. split; [|done].
      apply Hk; [done|]. by intros ->.
  - by eapply worker_step_notify.
  - by eapply loop_step_notify.
  - destruct Hinv as [Ht Hw Hc Hv]. split; cbn in *; try done. intros Hr. destruct (Hw Hr) as [?|[?|?]]; auto; done.
  - destruct Hinv as [Ht Hw Hc Hv]. split; cbn in *; try done; [|by auto]. intros Hr. destruct (Hw Hr) as [?|[?|?]]; auto; done.
  - destruct (handler_op_keeps _ _ Hh) as [Ef Ecl]. destruct Hinv as [Ht Hw Hc Hv]. split; cbn in *; rewrite ?Ef; try done. by auto.
  - destruct Hinv as [Ht Hw Hc Hv]. split; cbn in *; try done. intros Hr. destruct (Hw Hr) as [?|[?|?]]; auto; done.
Qed.

Lemma notify_init_inv s : notify_init s -> notify_inv s.
Proof.
  intros [Hf Hs Hr Hc Hw Hl]. split.
  - rewrite Hf, Hr, Hl. cbn. induction Hw as [|w ws -> _ IH]; [done | exact IH].
  - rewrite Hr. lia.
  - done.
  - intros _. rewrite Hl. by auto.
Qed.

Lemma notify_reachable_inv s0 s : notify_init s0 -> rtc notify_step s0 s -> notify_inv s.
Proof.
  intros Hi. revert s. refine (rtc_ind_r _ _ _ _); [by apply notify_init_inv|].
  intros a b _ Hs IH. by eapply notify_step_inv.
Qed.
End Loop.

(** ** Properties *)

(** A worker between staging a response and having told the event loop. *)
Definition completing (w : NWorker) : Prop :=
  match w with NSub _ | NMark | NFlag | NPush | NWrite => True | _ => False end.

Lemma pushes_elem ws : (0 < pushes ws)%nat -> NPush ∈ ws.
Proof.
  unfold pushes. induction ws as [|w ws IH]; cbn; [lia|]. intros H. destruct w; try (right; by apply IH). by left.
Qed.

(** C12: no wake-up is lost between the workers and the event loop, at whatever
    points their steps interleave: when the event loop is not at work on an
    open connection, then epoll watches the connection for exactly what it
    needs, or it is in the ready list and the eventfd is readable, or a worker
    has still to tell.  The ready list never holds it twice. *)
Theorem notify_no_lost_wakeup draining s0 s : notify_init draining s0 -> rtc (notify_step draining) s0 s ->
  (sh_ready (ns_shared s) <= 1)%nat /\
  (ns_loop s = LWait -> closed_ (sh_conn (ns_shared s)) = false ->
   settled draining (sh_conn (ns_shared s)) \/
   (sh_ready (ns_shared s) = 1%nat /\ 0 < sh_counter (ns_shared s)) \/
   exists w, w ∈ ns_workers s /\ completing w).
Proof.
  intros Hi Hr. destruct (notify_reachable_inv draining s0 s Hi Hr) as [Ht Hw Hc Hv].
  split; [destruct (notify_pending_ _); lia|]. intros Hl Hcl. rewrite Hl in *. cbn in Ht, Hw, Hv.
  destruct (Hv Hcl) as [(w & Hin & Hu)|[Hn|?]]; [|rewrite Hn in Ht|by left].
  - right; right. exists w. split; [done|]. by destruct w.
  - destruct (decide (0 < pushes (ns_workers s))%nat) as [Hp|Hp].
    + right; right. exists NPush. split; [by apply pushes_elem | done].
    + right. assert (Hr1 : sh_ready (ns_shared s) = 1%nat) by lia. rewrite Hr1 in *.
      destruct Hw as [|[?|?]]; [lia | by left | right; by exists NWrite | done].
Qed.

(** A connection that may buffer a single byte, and two workers. *)
Definition small_conn : Connection := set_inflight 2
  (set_registered_events (Z.lor EPOLLIN kBaseConnectionEvents)
    (new_connection 7 1 (mkConnectionLimits default_limits 1 4))).
Definition small_sys : NSys := mkNSys (mkNShared small_conn 0 0) [NIdle; NIdle] LWait.

Lemma small_init : notify_init false small_sys.
Proof.
  split; try done; [|by repeat constructor]. split; [left | left]; vm_compute; reflexivity.
Qed.

(** Both workers complete a request while the event loop is elsewhere: the
    second finds the flag set. *)
Definition small_told : NSys :=
  mkNSys (mkNShared (set_notify_pending true (set_inflight 0
    (mark_close_after_flush (set_pending_output_bytes 6 (set_staged (lit "abcabc") small_conn))))) 1 1) [NIdle; NIdle] LWait.

Ltac worker_at i := eapply rtc_l; [eapply (nt_worker false i); [reflexivity | vm_compute; reflexivity]|].

Lemma small_told_reachable : rtc (notify_step false) small_sys small_told.
Proof.
  eapply rtc_l; [apply (nt_start false 0 (lit "abc")); reflexivity|].
  eapply rtc_l; [apply (nt_start false 1 (lit "abc")); reflexivity|].
  do 2 (worker_at 0%nat). worker_at 1%nat. worker_at 0%nat. do 2 (worker_at 1%nat).
  do 2 (worker_at 0%nat). do 2 (worker_at 1%nat). do 2 (worker_at 0%nat). apply rtc_refl.
Qed.

Lemma notify_no_lost_wakeup_witness : (sh_ready (ns_shared small_told) <= 1)%nat /\
  (settled false (sh_conn (ns_shared small_told)) \/
   (sh_ready (ns_shared small_told) = 1%nat /\ 0 < sh_counter (ns_shared small_told)) \/
   exists w, w ∈ ns_workers small_told /\ completing w).
Proof.
  destruct (notify_no_lost_wakeup false small_sys small_told small_init small_told_reachable) as [H1 H2].
  split; [exact H1|]. apply H2; reflexivity.
Defined.

(** a worker and the event loop can access [close_after_flush_], which is
    not atomic, at the same time: there is a run in which a worker that found
    the output over its limit is about to write it and the event loop is about
    to read it. *)
Theorem close_flag_race : exists draining s0 s n,
  notify_init draining s0 /\ rtc (notify_step draining) s0 s /\ NMark ∈ ns_workers s /\ ns_loop s = LCheck n.
Proof.
  exists false, small_sys. do 2 eexists. split; [apply small_init|]. split.
  - eapply rtc_l; [apply nt_event|].
    eapply rtc_l; [eapply (nt_loop false (Sent 0) true); vm_compute; reflexivity|].
    eapply rtc_l; [eapply (nt_loop false (Sent 0) true); vm_compute; reflexivity|].
    eapply rtc_l; [apply (nt_start false 0 (lit "abc")); reflexivity|].
    do 3 (worker_at 0%nat). apply rtc_refl.
  - split; [left | reflexivity].
Qed.
