(* ===== verification/Banner.v ===== *)
(** * What the daemon prints

    Models the rest of src/config.cpp: [human_bytes], the startup banner and
    the usage text. *)

From S2P Require Import Prelude Sys Config.

(** [n / d] rounded to the nearest integer, ties to even. *)
Definition round_half_even (n d : Z) : Z :=
  let q := n / d in
  let r := n mod d in
  if (2 * r <? d) || ((2 * r =? d) && Z.even q) then q else q + 1.

(** The conversion of a [size_t] to [double]: 53 significant bits. *)
Definition to_double (n : Z) : Z :=
  let unit := 2 ^ (Z.log2 n - 52) in
  if n <? 2 ^ 53 then n else round_half_even n unit * unit.

(** A number of hundredths with two decimals. *)
Definition fixed2 (n : Z) : bytes :=
  to_string (n / 100) ++ lit "." ++ to_string (n mod 100 / 10) ++ to_string (n mod 10).

(** The divisions are by powers of two and exact; [printf] rounds them. *)
Definition human_bytes (n : Z) : bytes :=
  if 2 ^ 30 <=? n then fixed2 (round_half_even (100 * to_double n) (2 ^ 30)) ++ lit " GiB"
  else if 2 ^ 20 <=? n then to_string (round_half_even (to_double n) (2 ^ 20)) ++ lit " MiB"
  else if 2 ^ 10 <=? n then to_string (round_half_even (to_double n) (2 ^ 10)) ++ lit " KiB"
  else to_string n ++ lit " B".

Definition print_startup_banner (c : ServerConfig) : bytes :=
  line (lit "Local Cache Service") ++
  line (lit "  socket:          " ++ socket_path c) ++
  line (lit "  workers:         " ++ to_string (worker_threads c)) ++
  line (lit "  max entries:     " ++ to_string (max_entries c)) ++
  line (lit "  cache capacity:  " ++ human_bytes (max_cache_bytes c)) ++
  line (lit "  max value:       " ++ human_bytes (cfg_max_value_bytes c)) ++
  line (lit "  max key:         " ++ human_bytes (cfg_max_key_bytes c)) ++
  line (lit "  max pending:     " ++ to_string (max_pending_requests c)) ++
  line (lit "  max connections: " ++ to_string (max_connections c)).

Definition usage_lines (program : bytes) : list bytes :=
  [lit "Usage: " ++ program ++ lit " [options]";
   [];
   lit "  --socket PATH                 Unix domain socket path (default /tmp/local_cache.sock)";
   lit "  --max-entries N               Maximum number of cache entries";
   lit "  --max-cache-bytes N[k|m|g]    Maximum accounted cache bytes";
   lit "  --max-value-bytes N[k|m|g]    Maximum size of a single value";
   lit "  --max-key-bytes N             Maximum size of a single key";
   lit "  --workers N                   Worker threads handling cache operations";
   lit "  --max-pending N               Bounded work-queue depth (overflow -> SERVER_BUSY)";
   lit "  --max-connections N           Maximum simultaneous client connections";
   lit "  --max-conn-output-bytes N     Per-connection output backlog before read backpressure";
   lit "  --max-inflight-per-conn N     Maximum unanswered requests per connection";
   lit "  --backlog N                   listen() backlog";
   lit "  --shutdown-drain-ms N         Time allowed to drain in-flight work on shutdown";
   lit "  --verbose                     Enable debug logging";
   lit "  --help                        Show this message"].

Definition print_server_usage (program : bytes) : bytes := concat (map line (usage_lines program)).

(** ** The usage text against the parser *)

(** The part before the first blank. *)
Fixpoint word (text : bytes) : bytes :=
  match text with
  | [] => []
  | c :: text => if b2z c =? 32 then [] else c :: word text
  end.

(** The options the text announces: the first words of the indented lines. *)
Definition announced (program : bytes) : list bytes :=
  omap (fun l => match l with c :: d :: l => if (b2z c =? 32) && (b2z d =? 32) then Some (word l) else None | _ => None end)
    (usage_lines program).

Definition switches : list bytes := [lit "--verbose"; lit "--help"].

(** The options that take a value. *)
Definition value_options : list bytes :=
  [lit "--socket"; lit "--max-entries"; lit "--max-cache-bytes"; lit "--max-value-bytes"; lit "--max-key-bytes";
   lit "--workers"; lit "--max-pending"; lit "--max-connections"; lit "--max-conn-output-bytes";
   lit "--max-inflight-per-conn"; lit "--backlog"; lit "--shutdown-drain-ms"].

Lemma apply_option_known name value c : is_Some (apply_option name value c) <-> name ∈ value_options.
Proof.
  unfold apply_option, value_options. rewrite !elem_of_cons, elem_of_nil.
  repeat match goal with
  | |- is_Some (if bool_decide ?P then _ else _) <-> _ =>
      destruct (bool_decide_reflect P) as [Hn|?];
        [split; [intros _; by repeat first [left; exact Hn | right] | intros _; by eexists]|]
  end.
  split; [by intros [x Hx] | intros H; exfalso; tauto].
Qed.

(** ** Properties *)

(** the usage text tells the truth about the options: the options it lists
    are [--verbose], [--help] and exactly those the parser knows; an argument
    with another name is refused as unknown, whatever follows it. *)
Theorem usage_complete program name value rest c : (forall n v, split_eq name <> Some (n, v)) ->
  (name ∈ announced program <-> name ∈ switches \/ is_Some (apply_option name value c)) /\
  (~ name ∈ announced program -> name <> lit "-h" ->
     parse_args (name :: value :: rest) c = fail (lit "unknown option " ++ name)).
Proof.
  intros Heq. assert (E : announced program = value_options ++ switches) by (vm_compute; reflexivity).
  assert (Hiff : name ∈ announced program <-> name ∈ switches \/ is_Some (apply_option name value c)).
  { rewrite E, elem_of_app, apply_option_known. tauto. }
  split; [exact Hiff|]. intros Hn Hh. cbn [parse_args].
  assert (Hs : name <> lit "--help" /\ name <> lit "--verbose").
  { split; intros ->; apply Hn, Hiff; left; unfold switches; [right; left | left]. }
  destruct Hs as [Hs1 Hs2]. rewrite !bool_decide_false by done. cbn [orb].
  destruct (split_eq name) as [[n v]|]; [by destruct (Heq n v)|].
  destruct (apply_option name value c) as [x|] eqn:Ea; [|done]. destruct Hn. apply Hiff. right. by eexists.
Qed.

Lemma usage_complete_witness :
  parse_args [lit "--ttl"; lit "60"] default_config = fail (lit "unknown option --ttl").
Proof.
  destruct (usage_complete (lit "cache_server") (lit "--ttl") (lit "60") [] default_config) as [_ H].
  - intros n v. vm_compute. discriminate.
  - apply H; [|vm_compute; discriminate]. intros Hin. vm_compute in Hin.
    repeat (apply elem_of_cons in Hin as [Hin|Hin]; [discriminate Hin|]). by apply not_elem_of_nil in Hin.
Defined.
