(* ===== verification/Startup.v ===== *)
(** * Starting and destroying the server

    Models [remove_stale_socket], [Server::install_signal_handling],
    [Server::start], [Server::stop_listening] and the destructor (src/server.cpp),
    and src/main.cpp.  The calls made are logged in order, each with the
    descriptor or the result it returned, so that what happens to the socket
    path and to the descriptors can be stated on the log. *)

From S2P Require Import Prelude Protocol Stats Serializer CacheSpec SpecHistory LruCache Service.
From S2P Require Import Sys Connection ThreadPool Config Server ServerInv ServerProps Run Logging Banner.

Inductive StatResult : Set :=
  | StatOk (is_socket : bool)
  | StatFailed (errno : Z).

Inductive SysCall :=
  | KStat (path : bytes)
  | KOpen (fd : Z)                    (* socket, epoll_create1, eventfd, signalfd returned fd *)
  | KConnect (fd : Z) (path : bytes)
  | KUnlink (path : bytes) (r : CallResult)
  | KBind (fd : Z) (path : bytes) (r : CallResult)
  | KChmod (path : bytes) (mode : Z) (r : CallResult)
  | KListen (fd backlog : Z) (r : CallResult)
  | KEpollAdd (epfd fd : Z)
  | KEpollDel (epfd fd : Z)
  | KSigmask
  | KStartWorkers (n : Z)
  | KStopWorkers                      (* drain_and_stop *)
  | KClose (fd : Z).

(** The members of [Server] that starting and stopping change. *)
Record StartState := mkStartState {
  ss_epoll : Z;
  ss_listen : Z;
  ss_shutdown : Z;
  ss_completion : Z;
  ss_signal : Z;
  ss_bound : bytes;
  ss_pool : option (WorkerPool Job);
  ss_running : bool;
  ss_calls : list SysCall;
}.

Definition fresh_server : StartState := mkStartState (-1) (-1) (-1) (-1) (-1) [] None false [].

Definition set_ss_epoll (x : Z) (s : StartState) : StartState :=
  mkStartState x (ss_listen s) (ss_shutdown s) (ss_completion s) (ss_signal s) (ss_bound s) (ss_pool s) (ss_running s) (ss_calls s).
Definition set_ss_listen (x : Z) (s : StartState) : StartState :=
  mkStartState (ss_epoll s) x (ss_shutdown s) (ss_completion s) (ss_signal s) (ss_bound s) (ss_pool s) (ss_running s) (ss_calls s).
Definition set_ss_shutdown (x : Z) (s : StartState) : StartState :=
  mkStartState (ss_epoll s) (ss_listen s) x (ss_completion s) (ss_signal s) (ss_bound s) (ss_pool s) (ss_running s) (ss_calls s).
Definition set_ss_completion (x : Z) (s : StartState) : StartState :=
  mkStartState (ss_epoll s) (ss_listen s) (ss_shutdown s) x (ss_signal s) (ss_bound s) (ss_pool s) (ss_running s) (ss_calls s).
Definition set_ss_signal (x : Z) (s : StartState) : StartState :=
  mkStartState (ss_epoll s) (ss_listen s) (ss_shutdown s) (ss_completion s) x (ss_bound s) (ss_pool s) (ss_running s) (ss_calls s).
Definition set_ss_bound (x : bytes) (s : StartState) : StartState :=
  mkStartState (ss_epoll s) (ss_listen s) (ss_shutdown s) (ss_completion s) (ss_signal s) x (ss_pool s) (ss_running s) (ss_calls s).
Definition set_ss_pool (x : option (WorkerPool Job)) (s : StartState) : StartState :=
  mkStartState (ss_epoll s) (ss_listen s) (ss_shutdown s) (ss_completion s) (ss_signal s) (ss_bound s) x (ss_running s) (ss_calls s).
Definition set_ss_running (x : bool) (s : StartState) : StartState :=
  mkStartState (ss_epoll s) (ss_listen s) (ss_shutdown s) (ss_completion s) (ss_signal s) (ss_bound s) (ss_pool s) x (ss_calls s).
Definition log_calls (l : list SysCall) (s : StartState) : StartState :=
  mkStartState (ss_epoll s) (ss_listen s) (ss_shutdown s) (ss_completion s) (ss_signal s) (ss_bound s) (ss_pool s) (ss_running s) (ss_calls s ++ l).

(** ** The monad: a value, an error message, or undefined behaviour *)

Inductive Result (A : Type) : Type :=
  | Ok (a : A)
  | Err (message : bytes)
  | UB.
Arguments Ok {A} a.
Arguments Err {A} message.
Arguments UB {A}.

Definition SM (A : Type) : Type := StartState -> Result A * StartState.

#[export] Instance SM_ret : MRet SM := fun A x s => (Ok x, s).
#[export] Instance SM_bind : MBind SM := fun A B f m s =>
  match m s with
  | (Ok x, s) => f x s
  | (Err message, s) => (Err message, s)
  | (UB, s) => (UB, s)
  end.

Definition failing {A} (message : bytes) : SM A := fun s => (Err message, s).
Definition logged (c : SysCall) : SM unit := fun s => (Ok tt, log_calls [c] s).
Definition update (f : StartState -> StartState) : SM unit := fun s => (Ok tt, f s).
Definition current : SM StartState := fun s => (Ok s, s).

(** [memcpy] of the path into [sun_path]. *)
Definition copy_path (path : bytes) : SM unit := fun s =>
  if sun_path_size <? len path then (UB, s) else (Ok tt, s).

(** [member.reset(fd)] *)
Definition reset_member (get : StartState -> Z) (set : Z -> StartState -> StartState) (fd : Z) : SM unit := fun s =>
  let old := get s in
  (Ok tt, set fd (log_calls (if (0 <=? old) && negb (old =? fd) then [KClose old] else []) s)).

(** What the system calls return. *)
Record StartIo := mkStartIo {
  io_stat : StatResult;
  io_probe : FdResult;
  io_probe_connect : CallResult;
  io_unlink : CallResult;
  io_socket : FdResult;
  io_bind : CallResult;
  io_chmod : CallResult;
  io_listen : CallResult;
  io_epoll : FdResult;
  io_shutdown : FdResult;
  io_completion : FdResult;
  io_epoll_add : Z -> CallResult;
  io_sigmask : CallResult;
  io_signalfd : FdResult;
  io_destroy : CallResult;            (* unlink, in the destructor of a server that did not start *)
}.

Section Start.
Context (errno_text : Z -> bytes).

Definition errno_error (what : bytes) (errno : Z) : bytes := what ++ lit ": " ++ errno_text errno.

(** A call that yields 0 or an error with the given description. *)
Definition checked (what : bytes) (r : CallResult) : SM unit :=
  match r with Success => mret tt | Failure errno => failing (errno_error what errno) end.

(** [member.reset(call())], logging the descriptor. *)
Definition open_member (get : StartState -> Z) (set : Z -> StartState -> StartState) (r : FdResult) : SM unit :=
  match r with
  | NewFd fd => _ ← logged (KOpen fd); reset_member get set fd
  | NoFd _ => reset_member get set (-1)
  end.

(** [probe] is closed on every way out. *)
Definition remove_stale_socket (path : bytes) (io : StartIo) : SM unit :=
  _ ← logged (KStat path);
  match io_stat io with
  | StatFailed errno =>
      if errno =? ENOENT then mret tt
      else failing (errno_error (lit "stat(" ++ path ++ lit ")") errno)
  | StatOk is_socket =>
      if negb is_socket
      then failing (path ++ lit " exists and is not a socket; refusing to unlink it") else
      match io_probe io with
      | NoFd errno => failing (errno_error (lit "socket() while probing stale socket") errno)
      | NewFd probe =>
          _ ← logged (KOpen probe);
          _ ← copy_path path;
          _ ← logged (KConnect probe path);
          match io_probe_connect io with
          | Success =>
              _ ← logged (KClose probe);
              failing (lit "another cache server is already listening on " ++ path)
          | Failure errno =>
              if negb (errno =? ECONNREFUSED) && negb (errno =? ENOENT) then
                _ ← logged (KClose probe);
                failing (errno_error (lit "connect() while probing " ++ path) errno)
              else
                _ ← logged (KUnlink path (io_unlink io));
                _ ← logged (KClose probe);
                match io_unlink io with
                | Success => mret tt
                | Failure errno =>
                    if errno =? ENOENT then mret tt
                    else failing (errno_error (lit "unlink(" ++ path ++ lit ")") errno)
                end
          end
      end
  end.

Definition install_signal_handling (io : StartIo) : SM unit :=
  _ ← logged KSigmask;
  _ ← checked (lit "pthread_sigmask") (io_sigmask io);
  _ ← open_member ss_signal set_ss_signal (io_signalfd io);
  match io_signalfd io with
  | NewFd _ => mret tt
  | NoFd errno => failing (errno_error (lit "signalfd") errno)
  end.

Definition register_fd (io : StartIo) (fd : Z) : SM unit :=
  s ← current;
  _ ← logged (KEpollAdd (ss_epoll s) fd);
  checked (lit "epoll_ctl(ADD)") (io_epoll_add io fd).

(** [S_IRUSR | S_IWUSR] *)
Definition owner_only : Z := 0x180.

Definition start_server (cfg : ServerConfig) (io : StartIo) : SM unit :=
  match validate cfg with
  | Some problem => failing problem
  | None =>
      let path := socket_path cfg in
      _ ← remove_stale_socket path io;
      _ ← open_member ss_listen set_ss_listen (io_socket io);
      match io_socket io with
      | NoFd errno => failing (errno_error (lit "socket") errno)
      | NewFd listen =>
          _ ← copy_path path;
          _ ← logged (KBind listen path (io_bind io));
          _ ← checked (lit "bind(" ++ path ++ lit ")") (io_bind io);
          _ ← update (set_ss_bound path);
          _ ← logged (KChmod path owner_only (io_chmod io));
          _ ← checked (lit "chmod(" ++ path ++ lit ")") (io_chmod io);
          _ ← logged (KListen listen (accept_backlog cfg) (io_listen io));
          _ ← checked (lit "listen") (io_listen io);
          _ ← open_member ss_epoll set_ss_epoll (io_epoll io);
          match io_epoll io with
          | NoFd errno => failing (errno_error (lit "epoll_create1") errno)
          | NewFd _ =>
              _ ← open_member ss_shutdown set_ss_shutdown (io_shutdown io);
              _ ← open_member ss_completion set_ss_completion (io_completion io);
              match io_shutdown io, io_completion io with
              | _, NoFd errno => failing (errno_error (lit "eventfd") errno)
              | NoFd errno, NewFd _ => failing (errno_error (lit "eventfd") errno)
              | NewFd shutdown, NewFd completion =>
                  _ ← register_fd io listen;
                  _ ← register_fd io shutdown;
                  _ ← register_fd io completion;
                  s ← current;
                  _ ← (if 0 <=? ss_signal s then register_fd io (ss_signal s) else mret tt);
                  _ ← logged (KStartWorkers (worker_threads cfg));
                  _ ← update (set_ss_pool (Some (start (new_pool (worker_threads cfg) (max_pending_requests cfg)))));
                  update (set_ss_running true)
              end
          end
      end
  end.

(** [unlink]: what the call returns; a failure is only reported in the log file. *)
Definition stop_listening_calls (unlink : CallResult) : SM unit :=
  s ← current;
  _ ← (if 0 <=? ss_listen s then
         _ ← (if 0 <=? ss_epoll s then logged (KEpollDel (ss_epoll s) (ss_listen s)) else mret tt);
         reset_member ss_listen set_ss_listen (-1)
       else mret tt);
  if bool_decide (ss_bound s = []) then mret tt else
  _ ← logged (KUnlink (ss_bound s) unlink);
  update (set_ss_bound []).

(** The destructor, and the destructors of the members in reverse order of
    their declaration. *)
Definition destroy_server (unlink : CallResult) : SM unit :=
  s ← current;
  _ ← match ss_pool s with Some _ => logged KStopWorkers | None => mret tt end;
  _ ← stop_listening_calls unlink;
  _ ← reset_member ss_signal set_ss_signal (-1);
  _ ← reset_member ss_completion set_ss_completion (-1);
  _ ← reset_member ss_shutdown set_ss_shutdown (-1);
  _ ← reset_member ss_listen set_ss_listen (-1);
  reset_member ss_epoll set_ss_epoll (-1).
End Start.

(** ** The daemon *)

Section Daemon.
Context (errno_text : Z -> bytes).

(** How [main] ends before the event loop, with what it printed on stdout and on
    stderr and the calls made, or what it printed and the state in which it
    enters [Server::run]. *)
Inductive DaemonEnd :=
  | DExit (code : Z) (out err : bytes) (calls : list SysCall)
  | DRun (cfg : ServerConfig) (g_level : Z) (out : bytes) (s : StartState).

Definition daemon_exit (what message : bytes) (io : StartIo) (s : StartState) : DaemonEnd :=
  DExit 1 [] (line (what ++ message)) (ss_calls (destroy_server (io_destroy io) s).2).

Definition daemon_main (program : bytes) (args : list bytes) (io : StartIo) : option DaemonEnd :=
  let parsed := parse_server_args args in
  if help_requested parsed then Some (DExit 0 (print_server_usage program) [] []) else
  match config parsed with
  | None =>
      Some (DExit 2 (print_server_usage program) (line (lit "configuration error: " ++ error parsed)) [])
  | Some cfg =>
      let g_level := set_level (if verbose cfg then Level.kDebug else Level.kInfo) in
      match install_signal_handling errno_text io fresh_server with
      | (UB, _) => None
      | (Err message, s) => Some (daemon_exit (lit "failed to install signal handling: ") message io s)
      | (Ok _, s) =>
          match start_server errno_text cfg io s with
          | (UB, _) => None
          | (Err message, s) => Some (daemon_exit (lit "failed to start server: ") message io s)
          | (Ok _, s) => Some (DRun cfg g_level (print_startup_banner cfg) s)
          end
      end
  end.
End Daemon.

(** ** Facts on the log *)

Definition opened (l : list SysCall) : list Z := omap (fun c => match c with KOpen fd => Some fd | _ => None end) l.
Definition closed (l : list SysCall) : list Z := omap (fun c => match c with KClose fd => Some fd | _ => None end) l.

Definition unlinks (l : list SysCall) : list bytes := omap (fun c => match c with KUnlink p _ => Some p | _ => None end) l.

Lemma unlinks_app l k : unlinks (l ++ k) = unlinks l ++ unlinks k.
Proof. apply omap_app. Qed.
Lemma opened_app l k : opened (l ++ k) = opened l ++ opened k.
Proof. apply omap_app. Qed.
Lemma closed_app l k : closed (l ++ k) = closed l ++ closed k.
Proof. apply omap_app. Qed.

(** Descriptors are not negative. *)
Definition fd_result_ok (r : FdResult) : Prop := match r with NewFd fd => 0 <= fd | NoFd _ => True end.
Record start_io_ok (io : StartIo) : Prop := mkStartIoOk {
  sio_probe : fd_result_ok (io_probe io);
  sio_socket : fd_result_ok (io_socket io);
  sio_epoll : fd_result_ok (io_epoll io);
  sio_shutdown : fd_result_ok (io_shutdown io);
  sio_completion : fd_result_ok (io_completion io);
  sio_signalfd : fd_result_ok (io_signalfd io);
}.

Lemma log_calls_nil s : log_calls [] s = s.
Proof. destruct s. unfold log_calls. cbn. by rewrite app_nil_r. Qed.
Lemma log_calls_app l k s : log_calls k (log_calls l s) = log_calls (l ++ k) s.
Proof. destruct s. unfold log_calls. cbn. by rewrite app_assoc. Qed.

(** The kernel's answers under which the path is removed. *)
Definition stale (io : StartIo) : Prop :=
  io_stat io = StatOk true /\
  (io_probe_connect io = Failure ECONNREFUSED \/ io_probe_connect io = Failure ENOENT).

(** The calls of the probe. *)
Definition probe_call (c : SysCall) : Prop :=
  match c with KStat _ | KOpen _ | KConnect _ _ | KUnlink _ _ | KClose _ => True | _ => False end.

(** What [remove_stale_socket] adds to the log. *)
Lemma remove_stale_spec errno_text path io s : len path < sun_path_size ->
  exists r l, remove_stale_socket errno_text path io s = (r, log_calls l s) /\
    r <> UB /\ opened l = closed l /\ Forall (fun p => p = path /\ stale io) (unlinks l) /\
    Forall probe_call l /\ (r = Ok tt -> io_stat io = StatFailed ENOENT \/ stale io).
Proof.
  intros Hl. unfold remove_stale_socket, stale, mbind, SM_bind, logged, copy_path, failing, mret, SM_ret.
  destruct (Z.ltb_spec sun_path_size (len path)) as [|_]; [lia|].
  destruct (io_stat io) as [[]|e]; cbn [negb];
    [destruct (io_probe io) as [probe|e];
      [destruct (io_probe_connect io) as [|e];
        [|destruct (Z.eqb_spec e ECONNREFUSED) as [->|]; [|destruct (Z.eqb_spec e ENOENT) as [->|]]]|] | |
     destruct (Z.eqb_spec e ENOENT) as [->|]]; cbn [negb andb]; rewrite ?log_calls_app;
    try (destruct (io_unlink io) as [|e']; [|destruct (e' =? ENOENT)]);
    (eexists _, _; split; [reflexivity|]); split_and!; try done; try (by repeat constructor); auto;
    apply Forall_singleton; auto.
Qed.

(** The descriptor a member holds. *)
Definition held (fd : Z) : list Z := if 0 <=? fd then [fd] else [].

Lemma held_valid fd : 0 <= fd -> held fd = [fd].
Proof. intros H. unfold held. by rewrite (proj2 (Z.leb_le 0 fd) H). Qed.

(** The descriptors [start_server] opens, while they are held. *)
Definition held_open (s : StartState) : list Z :=
  held (ss_listen s) ++ held (ss_epoll s) ++ held (ss_shutdown s) ++ held (ss_completion s).

(** The socket file is restricted to its owner when [listen] is called: a file
    made by [bind] is not, until [chmod] succeeds on it with that mode. *)
Fixpoint restricted_listen (path : bytes) (restricted : bool) (l : list SysCall) : bool :=
  match l with
  | [] => true
  | KBind _ p Success :: l => restricted_listen path (restricted && negb (bool_decide (p = path))) l
  | KChmod p mode Success :: l => restricted_listen path (if bool_decide (p = path) then mode =? owner_only else restricted) l
  | KListen _ _ _ :: l => restricted && restricted_listen path restricted l
  | _ :: l => restricted_listen path restricted l
  end.

(** The paths bound. *)
Definition binds (l : list SysCall) : list bytes :=
  omap (fun c => match c with KBind _ p Success => Some p | _ => None end) l.

(** A state before [start]: nothing open but perhaps the signalfd. *)
Definition unstarted (sfd : Z) (calls : list SysCall) : StartState :=
  mkStartState (-1) (-1) (-1) (-1) sfd [] None false calls.

(** Descriptors in members are valid, or -1. *)
Record members_ok (s : StartState) : Prop := mkMembersOk {
  mo_listen : 0 <= ss_listen s \/ ss_listen s = -1;
  mo_epoll : 0 <= ss_epoll s \/ ss_epoll s = -1;
  mo_shutdown : 0 <= ss_shutdown s \/ ss_shutdown s = -1;
  mo_completion : 0 <= ss_completion s \/ ss_completion s = -1;
  mo_signal : 0 <= ss_signal s \/ ss_signal s = -1;
}.

(** How [start_server] ends, with [l] the calls it made. *)
Record start_post (cfg : ServerConfig) (io : StartIo) (sfd : Z) (calls l : list SysCall)
    (r : Result unit) (s : StartState) : Prop := mkStartPost {
  sp_defined : r <> UB;
  sp_calls : ss_calls s = calls ++ l;
  sp_signal : ss_signal s = sfd;
  sp_open : opened l = closed l ++ held_open s;
  sp_unlink : Forall (fun p => p = socket_path cfg /\ stale io) (unlinks l);
  sp_bound : ss_bound s = match binds l with [] => [] | p :: _ => p end /\
    (binds l = [] \/ binds l = [socket_path cfg]);
  sp_listen : restricted_listen (socket_path cfg) false l = true;
  sp_ok : r = Ok tt -> exists listen epoll shutdown completion,
    io_socket io = NewFd listen /\ io_epoll io = NewFd epoll /\
    io_shutdown io = NewFd shutdown /\ io_completion io = NewFd completion /\
    s = mkStartState epoll listen shutdown completion sfd (socket_path cfg)
          (Some (start (new_pool (worker_threads cfg) (max_pending_requests cfg)))) true (calls ++ l);
  sp_err : r <> Ok tt -> ss_pool s = None /\ ss_running s = false;
  sp_members : members_ok s;
}.

Lemma probe_binds l : Forall probe_call l -> binds l = [].
Proof. induction 1 as [|[] l H _ IH]; by try done. Qed.

Lemma probe_listen path b l k : Forall probe_call l ->
  restricted_listen path b (l ++ k) = restricted_listen path b k.
Proof. induction 1 as [|[] l H _ IH]; by try done. Qed.

Lemma binds_app l k : binds (l ++ k) = binds l ++ binds k.
Proof. apply omap_app. Qed.

(** The log of the probe, and then the other calls [t], which close nothing. *)
Lemma start_post_intro cfg io sfd calls l0 t r s :
  opened l0 = closed l0 -> Forall probe_call l0 -> Forall (fun p => p = socket_path cfg /\ stale io) (unlinks l0) ->
  r <> UB -> ss_calls s = (calls ++ l0) ++ t -> ss_signal s = sfd -> opened t = held_open s -> closed t = [] ->
  unlinks t = [] ->
  (ss_bound s = [] /\ binds t = [] \/ ss_bound s = socket_path cfg /\ binds t = [socket_path cfg]) ->
  restricted_listen (socket_path cfg) false t = true ->
  (r = Ok tt -> exists listen epoll shutdown completion,
    io_socket io = NewFd listen /\ io_epoll io = NewFd epoll /\
    io_shutdown io = NewFd shutdown /\ io_completion io = NewFd completion /\
    s = mkStartState epoll listen shutdown completion sfd (socket_path cfg)
          (Some (start (new_pool (worker_threads cfg) (max_pending_requests cfg)))) true ((calls ++ l0) ++ t)) ->
  (r <> Ok tt -> ss_pool s = None /\ ss_running s = false) -> members_ok s ->
  start_post cfg io sfd calls (l0 ++ t) r s.
Proof.
  intros H0 Hp Hu Hr Hc Hs Ho Hcl Hut Hb Hl Hok Herr Hm. split; try done.
  - by rewrite Hc, app_assoc.
  - by rewrite opened_app, closed_app, H0, Ho, Hcl, app_nil_r.
  - by rewrite unlinks_app, Hut, app_nil_r.
  - rewrite binds_app, (probe_binds l0 Hp). cbn [app]. destruct Hb as [[-> ->]|[-> ->]]; auto.
  - by rewrite probe_listen.
  - by rewrite app_assoc.
Qed.

(** ** Weakest preconditions *)

Definition wps {A} (m : SM A) (s : StartState) (Q : Result A -> StartState -> Prop) : Prop :=
  let '(r, s) := m s in Q r s.

Lemma wps_bind {A B} (m : SM A) (f : A -> SM B) s Q :
  wps m s (fun r s => match r with
                      | Ok x => wps (f x) s Q
                      | Err message => Q (Err message) s
                      | UB => Q UB s
                      end) -> wps (m ≫= f) s Q.
Proof. unfold wps, mbind, SM_bind. destruct (m s) as [[x|message|] s']; auto. Qed.

Lemma wps_logged x a b c d e f p r l Q : Q (Ok tt) (mkStartState a b c d e f p r (l ++ [x])) ->
  wps (logged x) (mkStartState a b c d e f p r l) Q.
Proof. exact id. Qed.
Lemma wps_update g s Q : Q (Ok tt) (g s) -> wps (update g) s Q.
Proof. exact id. Qed.
Lemma wps_current s Q : Q (Ok s) s -> wps current s Q.
Proof. exact id. Qed.
Lemma wps_ret {A} (x : A) s Q : Q (Ok x) s -> wps (mret x) s Q.
Proof. exact id. Qed.
Lemma wps_failing {A} message s (Q : Result A -> StartState -> Prop) : Q (Err message) s -> wps (failing message) s Q.
Proof. exact id. Qed.
Lemma wps_copy_path path s Q : len path < sun_path_size -> Q (Ok tt) s -> wps (copy_path path) s Q.
Proof. intros Hl H. unfold wps, copy_path. destruct (Z.ltb_spec sun_path_size (len path)); [lia | done]. Qed.
Lemma wps_checked errno_text what res s Q : (res = Success -> Q (Ok tt) s) ->
  (forall errno message, res = Failure errno -> Q (Err message) s) -> wps (checked errno_text what res) s Q.
Proof. intros H1 H2. destruct res; cbn; [by apply wps_ret, H1 | by eapply wps_failing, H2]. Qed.
(** A member that is opened for the first time. *)
Lemma wps_open get set res s Q : get s = -1 -> (forall l, get (log_calls l s) = get s) ->
  (forall fd, res = NewFd fd -> Q (Ok tt) (set fd (log_calls [KOpen fd] s))) ->
  (forall errno, res = NoFd errno -> Q (Ok tt) (set (-1) s)) -> wps (open_member get set res) s Q.
Proof.
  intros Hg Hl H1 H2. destruct res as [fd|errno]; unfold open_member.
  - apply wps_bind. unfold logged, reset_member, wps. cbn beta iota. rewrite Hl, Hg. cbn. rewrite log_calls_nil. by apply H1.
  - unfold reset_member, wps. rewrite Hg. cbn. rewrite log_calls_nil. by eapply H2.
Qed.
Lemma wps_register errno_text io fd a b c d e f p r l (Q : Result unit -> StartState -> Prop) :
  Q (Ok tt) (mkStartState a b c d e f p r (l ++ [KEpollAdd a fd])) ->
  (forall message, Q (Err message) (mkStartState a b c d e f p r (l ++ [KEpollAdd a fd]))) ->
  wps (register_fd errno_text io fd) (mkStartState a b c d e f p r l) Q.
Proof.
  intros H1 H2. unfold register_fd. apply wps_bind, wps_current, wps_bind, wps_logged. by apply wps_checked.
Qed.

(** One way out of [start_server]: its log, and then the facts on it. *)
Ltac start_leaf Hoc Hprobe Hun :=
  eexists (_ ++ _); eapply start_post_intro;
    [exact Hoc | exact Hprobe | exact Hun | discriminate
    | cbn [ss_calls]; first [symmetry; apply app_nil_r | rewrite <- ?app_assoc; reflexivity] | ..];
  unfold held_open; cbn; rewrite ?bool_decide_true, ?held_valid by done; try done; auto;
  try (split; cbn; auto);
  (intros _; do 4 eexists; split_and!; [eassumption..|]; by rewrite <- ?app_assoc).

(** The state after a few updates, as a record. *)
Ltac start_norm :=
  unfold set_ss_epoll, set_ss_listen, set_ss_shutdown, set_ss_completion, set_ss_signal, set_ss_bound, set_ss_pool,
    set_ss_running, log_calls;
  cbn [ss_epoll ss_listen ss_shutdown ss_completion ss_signal ss_bound ss_pool ss_running ss_calls].

Lemma start_spec errno_text cfg io sfd calls : start_io_ok io -> (0 <= sfd \/ sfd = -1) ->
  wps (start_server errno_text cfg io) (unstarted sfd calls) (fun r s => exists l, start_post cfg io sfd calls l r s).
Proof.
  intros [Hp Hs He Hsh Hco _] Hsfd. unfold start_server.
  destruct (validate cfg) as [problem|] eqn:Ev.
  { apply wps_failing. exists ([] ++ []). apply start_post_intro; cbn; rewrite ?app_nil_r; auto; try done.
    split; cbn; auto. }
  assert (Hlen : len (socket_path cfg) < sun_path_size).
  { unfold validate in Ev. repeat (split_if; [done|]). b2p. lia. }
  destruct (remove_stale_spec errno_text (socket_path cfg) io (unstarted sfd calls) Hlen)
    as (r0 & l0 & E0 & Hub & Hoc & Hun & Hprobe & _).
  apply wps_bind. unfold wps at 1. rewrite E0. clear E0.
  destruct r0 as [[]|message|]; [| |done].
  2: { exists (l0 ++ []). apply start_post_intro; cbn; rewrite ?app_nil_r; auto; try done.
       split; cbn; auto. }
  unfold unstarted. start_norm.
  apply wps_bind, wps_open; [done..|intros listen E1|intros e E1]; start_norm; rewrite E1 in *;
    [|apply wps_failing; start_leaf Hoc Hprobe Hun].
  apply wps_bind, wps_copy_path; [done|].
  apply wps_bind, wps_logged, wps_bind, wps_checked; intros *; intros Eb; rewrite Eb in *; [|start_leaf Hoc Hprobe Hun].
  apply wps_bind, wps_update, wps_bind. start_norm. apply wps_logged.
  apply wps_bind, wps_checked; intros *; intros Ec; rewrite Ec in *; [|start_leaf Hoc Hprobe Hun].
  apply wps_bind, wps_logged.
  apply wps_bind, wps_checked; intros *; intros El; rewrite El in *; [|start_leaf Hoc Hprobe Hun].
  apply wps_bind, wps_open; [done..|intros epoll E2|intros e E2]; start_norm; rewrite E2 in *;
    [|apply wps_failing; start_leaf Hoc Hprobe Hun].
  apply wps_bind, wps_open; [done..|intros shutdown E3|intros e E3]; start_norm; rewrite E3 in *;
    (apply wps_bind, wps_open; [done..|intros completion E4|intros e' E4]; start_norm; rewrite E4 in * );
    [|apply wps_failing; start_leaf Hoc Hprobe Hun..].
  do 3 (apply wps_bind, wps_register; [|intros message; start_leaf Hoc Hprobe Hun]).
  apply wps_bind, wps_current, wps_bind. start_norm. destruct Hsfd as [Hsf | ->].
  - rewrite (proj2 (Z.leb_le 0 sfd) Hsf). apply wps_register; [|intros message; start_leaf Hoc Hprobe Hun].
    apply wps_bind, wps_logged, wps_bind, wps_update, wps_update. start_norm. start_leaf Hoc Hprobe Hun.
  - apply wps_ret, wps_bind, wps_logged, wps_bind, wps_update, wps_update. start_norm. start_leaf Hoc Hprobe Hun.
Qed.

(** ** Destruction *)

Lemma closed_closes l : closed (map KClose l) = l.
Proof. induction l as [|fd l IH]; [done|]. unfold closed in *. cbn. by rewrite IH. Qed.
Lemma opened_closes l : opened (map KClose l) = [].
Proof. induction l as [|fd l IH]; [done|]. unfold opened in *. cbn. by rewrite IH. Qed.

Lemma reset_log fd : 0 <= fd \/ fd = -1 ->
  (if (0 <=? fd) && negb (fd =? -1) then [KClose fd] else []) = map KClose (held fd).
Proof. unfold held. intros [H | ->]; [|done]. rewrite (proj2 (Z.leb_le 0 fd) H). by destruct (Z.eqb_spec fd (-1)); [lia|]. Qed.

Lemma wps_reset get set s (Q : Result unit -> StartState -> Prop) : 0 <= get s \/ get s = -1 ->
  Q (Ok tt) (set (-1) (log_calls (map KClose (held (get s))) s)) -> wps (reset_member get set (-1)) s Q.
Proof. intros Hv H. unfold wps, reset_member. by rewrite reset_log. Qed.

(** The calls of the destructor that touch neither descriptors nor paths. *)
Definition neutral_call (c : SysCall) : Prop :=
  match c with KStopWorkers | KEpollDel _ _ => True | _ => False end.

Lemma wps_stop_listening u a b c d e f p r l (Q : Result unit -> StartState -> Prop) : 0 <= b \/ b = -1 ->
  (forall n, Forall neutral_call n ->
    Q (Ok tt) (mkStartState a (-1) c d e [] p r (l ++ n ++ map KClose (held b) ++ map (fun x => KUnlink x u) (if bool_decide (f = []) then [] else [f])))) ->
  wps (stop_listening_calls u) (mkStartState a b c d e f p r l) Q.
Proof.
  intros Hb HQ. unfold stop_listening_calls. apply wps_bind, wps_current, wps_bind. start_norm.
  destruct Hb as [Hb | ->].
  - rewrite (proj2 (Z.leb_le 0 b) Hb).
    assert (Hrest : forall n, Forall neutral_call n ->
      wps (reset_member ss_listen set_ss_listen (-1)) (mkStartState a b c d e f p r (l ++ n)) (fun res s =>
        match res with
        | Ok _ => wps (if bool_decide (f = []) then mret tt
                       else _ ← logged (KUnlink f u); update (set_ss_bound [])) s Q
        | Err message => Q (Err message) s
        | UB => Q UB s
        end)).
    { intros n Hn. apply wps_reset; [by left|]. start_norm. specialize (HQ n Hn). case_bool_decide.
      - subst f. apply wps_ret. by rewrite app_nil_r, app_assoc in HQ.
      - apply wps_bind, wps_logged, wps_update. start_norm. by rewrite !app_assoc in HQ. }
    apply wps_bind. destruct (0 <=? a).
    + apply wps_logged. apply Hrest. by repeat constructor.
    + apply wps_ret. rewrite <- (app_nil_r l). by apply Hrest.
  - apply wps_ret. specialize (HQ [] (Forall_nil_2 _)). cbn in HQ. case_bool_decide.
    + subst f. apply wps_ret. by rewrite app_nil_r in HQ.
    + by apply wps_bind, wps_logged, wps_update.
Qed.

Lemma destroy_spec u s : members_ok s ->
  wps (destroy_server u) s (fun r s' => r = Ok tt /\ exists n1 n2, Forall neutral_call n1 /\ Forall neutral_call n2 /\
    s' = mkStartState (-1) (-1) (-1) (-1) (-1) [] (ss_pool s) (ss_running s)
      (ss_calls s ++ n1 ++ n2 ++ map KClose (held (ss_listen s)) ++
       map (fun x => KUnlink x u) (if bool_decide (ss_bound s = []) then [] else [ss_bound s]) ++
       map KClose (held (ss_signal s) ++ held (ss_completion s) ++ held (ss_shutdown s) ++ held (ss_epoll s)))).
Proof.
  destruct s as [a b c d e f p r l]. intros [Hb Ha Hc Hd He]. cbn in *. unfold destroy_server.
  apply wps_bind, wps_current, wps_bind. start_norm.
  assert (Hrest : forall n1, Forall neutral_call n1 ->
    wps (_ ← stop_listening_calls u; _ ← reset_member ss_signal set_ss_signal (-1);
         _ ← reset_member ss_completion set_ss_completion (-1);
         _ ← reset_member ss_shutdown set_ss_shutdown (-1);
         _ ← reset_member ss_listen set_ss_listen (-1); reset_member ss_epoll set_ss_epoll (-1))
      (mkStartState a b c d e f p r (l ++ n1)) (fun r0 s' => r0 = Ok tt /\ exists n1 n2, Forall neutral_call n1 /\ Forall neutral_call n2 /\
    s' = mkStartState (-1) (-1) (-1) (-1) (-1) [] p r
      (l ++ n1 ++ n2 ++ map KClose (held b) ++ map (fun x => KUnlink x u) (if bool_decide (f = []) then [] else [f]) ++
       map KClose (held e ++ held d ++ held c ++ held a)))).
  { intros n1 Hn1. apply wps_bind, wps_stop_listening; [done|]. intros n2 Hn2.
    apply wps_bind, wps_reset; [done|]. start_norm. apply wps_bind, wps_reset; [done|]. start_norm.
    apply wps_bind, wps_reset; [done|]. start_norm. apply wps_bind, wps_reset; [by right|]. start_norm.
    apply wps_reset; [done|]. start_norm. split; [done|]. exists n1, n2. split_and!; try done.
    rewrite !map_app, app_nil_r, <- !app_assoc. done. }
  destruct p; [apply wps_logged | apply wps_ret].
  - apply Hrest. by repeat constructor.
  - rewrite <- (app_nil_r l) at 1. by apply Hrest.
Qed.

(** After such an [unlink] the path is no more. *)
Definition gone (r : CallResult) : bool := match r with Success => true | Failure errno => errno =? ENOENT end.

(** The socket files left behind: bound, and not removed afterwards. *)
Definition path_step (acc : gset bytes) (c : SysCall) : gset bytes :=
  match c with
  | KBind _ p Success => {[p]} ∪ acc
  | KUnlink p r => if gone r then acc ∖ {[p]} else acc
  | _ => acc
  end.
Definition paths_left (l : list SysCall) : gset bytes := fold_left path_step l ∅.

(** The paths whose [unlink] failed although they exist. *)
Definition stuck_paths (l : list SysCall) : list bytes :=
  omap (fun c => match c with KUnlink p r => if gone r then None else Some p | _ => None end) l.

Lemma stuck_paths_app l k : stuck_paths (l ++ k) = stuck_paths l ++ stuck_paths k.
Proof. apply omap_app. Qed.

Lemma paths_left_grow l acc : fold_left path_step l acc ⊆ acc ∪ list_to_set (binds l).
Proof.
  revert acc. induction l as [|c l IH]; intros acc; [set_solver|]. cbn [fold_left].
  etransitivity; [apply IH|].
  destruct c as [| | |p r|fd p []| | | | | | | |]; unfold binds; cbn; try (destruct (gone r)); set_solver.
Qed.

(** The path was bound, and then its removal tried. *)
Lemma paths_left_unlink l k p r X : paths_left l ⊆ {[p]} ∪ X -> binds k = [] -> KUnlink p r ∈ k ->
  paths_left (l ++ k) ⊆ list_to_set (stuck_paths k) ∪ X.
Proof.
  intros Hl Hb Hin. apply list_elem_of_split in Hin as (a & b & ->).
  rewrite binds_app in Hb. apply app_eq_nil in Hb as [Ha Hb]. change (binds (KUnlink p r :: b)) with (binds b) in Hb.
  assert (Hg : forall n acc, binds n = [] -> fold_left path_step n acc ⊆ acc).
  { intros n acc Hn. etransitivity; [apply paths_left_grow|]. rewrite Hn. set_solver. }
  unfold paths_left in *. rewrite !fold_left_app. cbn [fold_left path_step].
  rewrite stuck_paths_app. unfold stuck_paths at 2. cbn [omap list_omap]. fold (stuck_paths b).
  pose proof (Hg a (fold_left path_step l ∅) Ha). destruct (gone r).
  - etransitivity; [apply Hg; done|]. set_solver.
  - etransitivity; [apply Hg; done|]. set_solver.
Qed.

(** Everything is given back: each descriptor is closed once, and the only socket
    file left is one whose [unlink] failed. *)
Definition all_released (l : list SysCall) : Prop :=
  closed l ≡ₚ opened l /\ paths_left l ⊆ list_to_set (stuck_paths l).

Lemma neutral_facts n : Forall neutral_call n -> closed n = [] /\ opened n = [] /\ binds n = [].
Proof. induction 1 as [|[] l H _ (IH1 & IH2 & IH3)]; try done; unfold closed, opened, binds in *; cbn; by rewrite ?IH1, ?IH2, ?IH3. Qed.

Lemma binds_closes l : binds (map KClose l) = [].
Proof. induction l as [|fd l IH]; [done|]. unfold binds in *. cbn. by rewrite IH. Qed.

(** What the log says of the members: every descriptor opened is closed or in a
    member, and no socket file is left but the one in [bound_socket_path_], or
    one whose [unlink] failed. *)
Definition bound_paths (s : StartState) : list bytes := if bool_decide (ss_bound s = []) then [] else [ss_bound s].

Record accounted (s : StartState) : Prop := mkAccounted {
  ac_members : members_ok s;
  ac_opened : opened (ss_calls s) ≡ₚ closed (ss_calls s) ++ held_open s ++ held (ss_signal s);
  ac_paths : paths_left (ss_calls s) ⊆ list_to_set (bound_paths s) ∪ list_to_set (stuck_paths (ss_calls s));
}.

Lemma unlinks_facts u l : let k := map (fun x => KUnlink x u) l in closed k = [] /\ opened k = [] /\ binds k = [].
Proof. induction l as [|q l (I1 & I2 & I3)]; [done|]. unfold closed, opened, binds in *. cbn. by rewrite I1, I2, I3. Qed.

(** A server that is destroyed. *)
Lemma destroy_releases u s : accounted s -> all_released (ss_calls (destroy_server u s).2).
Proof.
  intros [Hm Ho Hp]. pose proof (destroy_spec u s Hm) as Hd. unfold wps in Hd.
  destruct (destroy_server u s) as [r s']. destruct Hd as (_ & n1 & n2 & Hn1 & Hn2 & ->). cbn [snd ss_calls].
  destruct (neutral_facts n1 Hn1) as (C1 & O1 & B1), (neutral_facts n2 Hn2) as (C2 & O2 & B2).
  change (if bool_decide (ss_bound s = []) then [] else [ss_bound s]) with (bound_paths s).
  destruct (unlinks_facts u (bound_paths s)) as (C3 & O3 & B3). split.
  - rewrite !closed_app, !opened_app, C1, C2, C3, O1, O2, O3, !closed_closes, !opened_closes, Ho.
    cbn [app]. rewrite !app_nil_r. unfold held_open. solve_Permutation.
  - set (k := n1 ++ _). assert (Hk : binds k = []) by (unfold k; by rewrite !binds_app, B1, B2, B3, !binds_closes).
    rewrite stuck_paths_app, list_to_set_app_L. unfold bound_paths in *. case_bool_decide as Hb.
    + unfold paths_left in *. rewrite fold_left_app. etransitivity; [apply paths_left_grow|]. rewrite Hk. set_solver.
    + pose proof (paths_left_unlink (ss_calls s) k (ss_bound s) u (list_to_set (stuck_paths (ss_calls s)))) as Hl.
      rewrite Hl; [set_solver | set_solver | done |]. unfold k. set_solver.
Qed.

(** ** The server the loop starts with *)

(** The members the event loop works on.  [Server::start] touches none of the
    tables, which have the values of their initialisers (src/include/cache/server.h),
    and the two eventfds are created with a count of 0. *)
Definition started {C} (cfg : ServerConfig) (cache : C) (now : Z) (s : StartState) : option (@Server C) :=
  match ss_pool s with
  | Some pool => Some (mkServer cfg (mkService cache (new_stats now)) pool ∅ ∅ 1 (0 <=? ss_listen s) (ss_bound s)
                         [] 0 0 (ss_running s) false [])
  | None => None
  end.

Lemma install_spec errno_text io : start_io_ok io ->
  wps (install_signal_handling errno_text io) fresh_server (fun r s => r <> UB /\ exists sfd calls,
    s = unstarted sfd calls /\ (0 <= sfd \/ sfd = -1) /\ opened calls = held sfd /\ closed calls = [] /\
    binds calls = [] /\ unlinks calls = [] /\ restricted_listen [] false calls = true).
Proof.
  intros [_ _ _ _ _ Hs]. unfold install_signal_handling, fresh_server.
  apply wps_bind, wps_logged, wps_bind, wps_checked.
  2: { intros errno message _. split; [done|]. exists (-1), [KSigmask]. split_and!; auto. }
  intros _. apply wps_bind, wps_open; [done..|intros fd E|intros e E]; start_norm; rewrite E in *;
    [apply wps_ret | apply wps_failing]; (split; [done|]).
  - exists fd, [KSigmask; KOpen fd]. split_and!; try done; [by left|]. by rewrite held_valid.
  - exists (-1), [KSigmask]. split_and!; auto.
Qed.

Lemma paths_left_nothing l : binds l = [] -> paths_left l = ∅.
Proof.
  intros Hb. apply (anti_symm (⊆)); [|set_solver]. unfold paths_left. etransitivity; [apply paths_left_grow|].
  rewrite Hb. set_solver.
Qed.

Lemma unstarted_accounted sfd calls : (0 <= sfd \/ sfd = -1) -> opened calls = held sfd -> closed calls = [] ->
  binds calls = [] -> accounted (unstarted sfd calls).
Proof.
  intros Hs Ho Hc Hb. split; [split; cbn; auto| |].
  - cbn [unstarted ss_calls ss_signal]. by rewrite Ho, Hc.
  - cbn [unstarted ss_calls]. by rewrite paths_left_nothing.
Qed.

Lemma start_post_accounted cfg io sfd calls l r s : start_post cfg io sfd calls l r s ->
  opened calls = held sfd -> closed calls = [] -> binds calls = [] -> socket_path cfg <> [] -> accounted s.
Proof.
  intros [_ Hc Hsig Ho _ [Hb1 Hb2] _ _ _ Hm] Hoc Hcc Hbc Hp. split; [done|..].
  - rewrite Hc, opened_app, closed_app, Hoc, Hcc, Ho, Hsig. cbn [app]. solve_Permutation.
  - rewrite Hc. unfold bound_paths, paths_left. etransitivity; [apply paths_left_grow|].
    rewrite binds_app, Hbc. cbn [app]. rewrite Hb1.
    destruct Hb2 as [-> | ->]; [set_solver|]. rewrite bool_decide_false by done. set_solver.
Qed.

(** What [daemon_main] does, in terms of the two calls. *)
Lemma daemon_cases errno_text program args io : start_io_ok io ->
  (exists code out err, daemon_main errno_text program args io = Some (DExit code out err [])) \/
  (exists cfg sfd calls, config (parse_server_args args) = Some cfg /\ config_typed cfg /\ config_valid cfg /\
     (0 <= sfd \/ sfd = -1) /\ opened calls = held sfd /\ closed calls = [] /\ binds calls = [] /\ unlinks calls = [] /\
     ((exists message, daemon_main errno_text program args io
         = Some (daemon_exit (lit "failed to install signal handling: ") message io (unstarted sfd calls))) \/
      exists l r s, start_post cfg io sfd calls l r s /\
        daemon_main errno_text program args io = match r with
          | Ok _ => Some (DRun cfg (set_level (if verbose cfg then Level.kDebug else Level.kInfo)) (print_startup_banner cfg) s)
          | Err message => Some (daemon_exit (lit "failed to start server: ") message io s)
          | UB => None
          end)).
Proof.
  intros Hio. unfold daemon_main. destruct (help_requested _); [left; by eauto|].
  destruct (config (parse_server_args args)) as [cfg|] eqn:Ec; [|left; by eauto]. right.
  destruct (parse_args_valid _ _ _ default_config_typed Ec) as [Ht Hv]. apply validate_exact in Hv; [|done].
  pose proof (install_spec errno_text io Hio) as Hi. unfold wps in Hi.
  destruct (install_signal_handling errno_text io fresh_server) as [r s].
  destruct Hi as (Hr & sfd & calls & -> & Hs & H1 & H2 & H3 & H4 & _).
  exists cfg, sfd, calls. split_and!; try done. destruct r as [[]|message|]; [right|left; by eauto|done].
  pose proof (start_spec errno_text cfg io sfd calls Hio Hs) as Hst. unfold wps in Hst.
  destruct (start_server errno_text cfg io (unstarted sfd calls)) as [r s]. destruct Hst as [l Hst].
  exists l, r, s. split; [done|]. by destruct r as [[]|message|].
Qed.

(** ** Properties *)



(** ** Witnesses *)

(** A stale socket in the way, and every call succeeding. *)
Definition demo_start : StartIo :=
  mkStartIo (StatOk true) (NewFd 3) (Failure ECONNREFUSED) Success (NewFd 4) Success Success Success
    (NewFd 5) (NewFd 6) (NewFd 7) (fun _ => Success) Success (NewFd 8) Success.
(** The same, with a failing listen. *)
Definition demo_listen_fails : StartIo :=
  mkStartIo (StatOk true) (NewFd 3) (Failure ECONNREFUSED) Success (NewFd 4) Success Success (Failure 98)
    (NewFd 5) (NewFd 6) (NewFd 7) (fun _ => Success) Success (NewFd 8) Success.
Definition demo_errno (errno : Z) : bytes := lit "error " ++ to_string errno.

Lemma demo_start_ok : start_io_ok demo_start.
Proof. split; cbn; lia. Qed.
Lemma demo_listen_fails_ok : start_io_ok demo_listen_fails.
Proof. split; cbn; lia. Qed.


Definition demo_started : StartState :=
  match daemon_main demo_errno (lit "cache_server") [lit "--workers"; lit "2"] demo_start with
  | Some (DRun _ _ _ s) => s
  | _ => fresh_server
  end.

