(* ===== verification/Descriptors.v ===== *)
(** * The descriptors of a run

    The descriptor of a connection belongs to its [Connection] object (the
    member [fd_], src/connection.h) and is closed when the last [shared_ptr] to
    the object goes: those are held by the table [connections_], by the jobs of
    the pool and by [ready_connections_] (src/server.h).  This file adds these
    [close]s to the log of a run of the server, between the calls of
    [Server::start] and those of the destructor, and shows that the whole log
    gives everything back. *)

From S2P Require Import Prelude Protocol Stats Serializer CacheSpec SpecHistory LruCache Service.
From S2P Require Import Sys Connection ThreadPool Config Server Streams ServerInv ServerProps Run Trace Logging Banner Startup.

Section Descriptors.
Context {C : Type} `{!CacheOps C, !CacheContract C}.
Abbreviation server := (@Server C) (only parsing).

(** The connections some [shared_ptr] refers to. *)
Definition holders (s : server) : list Z :=
  (map_to_list (connections_ s)).*2 ++ (job_connection <$> pool_jobs (pool_ s)) ++ ready_connections_ s.

(** The descriptors of all connection objects made so far, by connection. *)
Definition descriptors (s : server) : gmap Z Z := fd_ <$> conns_ s.

(** The connections whose last reference goes between two states, with their
    descriptors: referenced before or made since, and no longer referenced. *)
Definition destroyed (s s' : server) : list (Z * Z) :=
  filter (fun x => (x.1 ∉ holders s') /\ (x.1 ∈ holders s \/ descriptors s !! x.1 = None)) (map_to_list (descriptors s')).

(** What a call on a socket does to descriptors and paths; the numbers of the
    listening socket and of the [epoll] set are in the members. *)
Definition socket_syscalls (st : StartState) (k : SocketCall) : list SysCall :=
  match k with
  | SockRecv _ _ | SockSend _ _ => []
  | SockAccept _ fd => [KOpen fd]
  | SockTurnAway fd => [KOpen fd; KClose fd]
  | SockListenDel => [KEpollDel (ss_epoll st) (ss_listen st)]
  | SockListenClose => [KClose (ss_listen st)]
  | SockUnlink path r => [KUnlink path r]
  end.

(** The calls of one step. *)
Definition step_syscalls (st : StartState) (s s' : server) : list SysCall :=
  (drop (length (socket_calls_ s)) (socket_calls_ s') ≫= socket_syscalls st) ++ map KClose (destroyed s s').*2.

(** A run of the server that [st] started, with its calls. *)
Inductive logged_run (st : StartState) (sys : RunSys) : list SysCall -> RunSys -> Prop :=
  | logged_nil : logged_run st sys [] sys
  | logged_step calls now sys1 sys2 : logged_run st sys calls sys1 -> run_step now sys1 sys2 ->
      logged_run st sys (calls ++ step_syscalls st (rn_server sys1) (rn_server sys2)) sys2.

(** The members the destructor finds. *)
Definition after_run (st : StartState) (calls : list SysCall) (s : server) : StartState :=
  mkStartState (ss_epoll st) (if listening_ s then ss_listen st else -1) (ss_shutdown st) (ss_completion st)
    (ss_signal st) (bound_socket_path_ s) (ss_pool st) (running_ s) (ss_calls st ++ calls).

(** ** References *)

(** References to existing objects are only dropped; the other descriptors are
    those of the connections accepted. *)
Record drops (s s' : server) : Prop := mkDrops {
  dr_opens : exists l, socket_calls_ s' = socket_calls_ s ++ l /\ opens l (descriptors s) (descriptors s');
  dr_held : forall id, is_Some (conns_ s !! id) -> id ∈ holders s' -> id ∈ holders s;
}.

Lemma elem_of_holders id (s : server) : id ∈ holders s <->
  (exists fd, connections_ s !! fd = Some id) \/ (exists j, j ∈ pool_jobs (pool_ s) /\ job_connection j = id) \/
  id ∈ ready_connections_ s.
Proof.
  unfold holders. rewrite !elem_of_app, !list_elem_of_fmap. f_equiv; [|f_equiv].
  - split.
    + intros ([fd i] & -> & H). exists fd. by apply elem_of_map_to_list in H.
    + intros [fd H]. exists (fd, id). split; [done|]. by apply elem_of_map_to_list.
  - split; intros (j & H1 & H2); by exists j.
Qed.

(** A step that leaves the streams and the table alone. *)
Lemma drops_same (s s' : server) : socket_calls_ s' = socket_calls_ s -> descriptors s' = descriptors s ->
  connections_ s' ⊆ connections_ s -> ready_connections_ s' ⊆ ready_connections_ s ->
  (forall j, j ∈ pool_jobs (pool_ s') -> j ∈ pool_jobs (pool_ s)) -> drops s s'.
Proof.
  intros El Ef Et Er Ej. split.
  - exists []. by rewrite app_nil_r.
  - intros id _. rewrite !elem_of_holders. intros [[fd H]|[(j & H & <-)|H]]; [left; exists fd | right; left; eauto | right; right; set_solver].
    by eapply lookup_weaken.
Qed.

(** A connection that is open is in the table, and one that is closed is not. *)
Lemma table_open lost rem hole (s : server) id c : server_inv lost rem hole s -> conns_ s !! id = Some c ->
  closed_ c = false <-> exists fd, connections_ s !! fd = Some id.
Proof.
  intros Hi Hc. rewrite (co_open _ _ _ _ _ _ _ _ _ (si_conns _ _ _ _ Hi id c Hc)). split; [by eauto|].
  intros [fd H]. destruct (si_table _ _ _ _ Hi fd id H) as (c' & Hc' & <-). by simplify_eq.
Qed.

(** The jobs of a handler belong to one connection. *)
Definition submits_for (id : Z) (s s' : server) : Prop :=
  ready_connections_ s' = ready_connections_ s /\
  forall j, j ∈ pool_jobs (pool_ s') -> j ∈ pool_jobs (pool_ s) \/ job_connection j = id.

#[local] Instance submits_for_preorder id : PreOrder (submits_for id).
Proof.
  split; [by intros s; split; auto|]. intros a b c [E1 H1] [E2 H2]. split; [congruence|].
  intros j Hj. destruct (H2 j Hj) as [Hj'|]; auto.
Qed.

Definition aside (s s' : server) : Prop := ready_connections_ s' = ready_connections_ s /\ pool_ s' = pool_ s.

#[local] Instance aside_preorder : PreOrder aside.
Proof. split; [by intros s | intros a b c [] []; split; congruence]. Qed.

Lemma dispatch_refs ev (s s' : server) : dispatch ev s = Some (tt, s') ->
  ready_connections_ s' ⊆ ready_connections_ s /\
  forall j, j ∈ pool_jobs (pool_ s') -> j ∈ pool_jobs (pool_ s) \/ exists fd, connections_ s !! fd = Some (job_connection j).
Proof.
  assert (Ha : forall s' : server, aside s s' -> ready_connections_ s' ⊆ ready_connections_ s /\
    forall j, j ∈ pool_jobs (pool_ s') -> j ∈ pool_jobs (pool_ s) \/ exists fd, connections_ s !! fd = Some (job_connection j)).
  { intros s1 [-> ->]. auto. }
  unfold dispatch, mbind at 1, M_bind at 1, get_state. cbn beta iota.
  destruct ev as [accepts|io|ctl unlink| |fd events io]; intros E.
  - destruct (listening_ s); [|injection E as <-; by apply Ha].
    apply Ha. by eapply (keeps_listen_ready aside).
  - destruct (drain_completions_framed _ _ _ E) as [_ Ep _ _ Er _]. cbn in Ep, Er. rewrite Ep, Er. split; [set_solver | auto].
  - apply Ha. unfold handle_shutdown, mbind, M_bind, modify, get_state in E. cbn beta iota in E.
    case_match; [injection E as <-; done|]. rewrite stop_listening_eq in E.
    by eapply (keeps_update_all aside) in E.
  - injection E as <-. by apply Ha.
  - destruct (connections_ s !! fd) as [id|] eqn:Hfd; [|injection E as <-; by apply Ha].
    assert (H : submits_for id s s').
    { eapply (keeps_connection_event (submits_for id)); [..|exact E]; intros; split; auto.
      cbn [pool_ set_pool]. destruct (try_submit (pool_ s0) (mkJob id r)) as [[] p] eqn:Es; cbn [snd].
      - apply try_submit_true in Es as ->. intros j Hj. unfold pool_jobs in *. cbn in Hj. set_unfold. naive_solver.
      - apply try_submit_false in Es as ->. auto. }
    destruct H as [-> H]. split; [done|]. intros j Hj. destruct (H j Hj) as [|<-]; eauto.
Qed.

Lemma dispatch_drops ev (s s' : server) : server_inv [] [] None s -> memory_ok s -> event_ok ev s ->
  dispatch ev s = Some (tt, s') -> drops s s'.
Proof.
  intros Hi Hm Hev E. pose proof (wp_dispatch ev s Hi Hm Hev) as Hw. unfold wp in Hw. rewrite E in Hw.
  destruct Hw as [Hi' [Hx _ (l & jobs & El & _ & Ho & Hs)]]. destruct (dispatch_refs ev s s' E) as [Hr Hj].
  split; [by exists l|]. intros id [c Hc]. rewrite !elem_of_holders. intros [[fd Hfd]|[(j & Hin & <-)|Hin]].
  - left. apply (table_open [] [] None s id c Hi Hc). destruct (Hx id) as [c' Hc']; [by eexists|].
    assert (Hcl : closed_ c' = false) by (eapply (table_open [] [] None s' id c'); eauto).
    destruct (Hs id) as [tr Ht]. pose proof (ss_closed _ _ _ _ _ _ _ _ Ht) as Hmono. rewrite Hc, Hc' in Hmono. cbn in Hmono.
    destruct (closed_ c); [|done]. by rewrite Hmono in Hcl.
  - destruct (Hj j Hin); eauto.
  - right; right. set_solver.
Qed.

Lemma completed_fd c frame : fd_ (completed c frame) = fd_ c.
Proof. unfold completed, enqueue_response, stage. destruct (closed_ c); [done|]. by destruct (_ <? _). Qed.

(** After a job its connection is referred to by the ready list. *)
Lemma worker_run_refs i job c sv resp (s : server) id : threads_ (pool_ s) !! i = Some (WRun job) ->
  let s' := set_pool (job_done (set_threads (<[i := WCheck]> (threads_ (pool_ s))) (pool_ s)))
    (notify (notify_pending_ c) (job_connection job)
      (set_conns (<[job_connection job := completed c (serialize_response resp)]> (conns_ s)) (set_service sv s))) in
  (exists fd, connections_ s' !! fd = Some id) \/ (exists j, j ∈ pool_jobs (pool_ s') /\ job_connection j = id) \/
    id ∈ ready_connections_ s' ->
  (exists fd, connections_ s !! fd = Some id) \/ (exists j, j ∈ pool_jobs (pool_ s) /\ job_connection j = id) \/
    id ∈ ready_connections_ s.
Proof.
  intros Hth s'. assert (Et : connections_ s' = connections_ s) by (unfold s'; by destruct (notify_pending_ c)).
  assert (Ej : forall j, j ∈ pool_jobs (pool_ s') -> j ∈ pool_jobs (pool_ s)).
  { intros j. unfold s', pool_jobs. cbn [pool_ set_pool queue_ threads_ job_done set_threads set_completed].
    rewrite (running_finished _ _ _ Hth). set_solver. }
  assert (Er : forall x, x ∈ ready_connections_ s' -> x ∈ ready_connections_ s \/ x = job_connection job).
  { intros x. unfold s'. destruct (notify_pending_ c); cbn; set_solver. }
  rewrite Et. intros [H|[(j & H & Hid)|H]]; [by left | right; left; eauto|].
  destruct (Er id H) as [H1| ->]; [by right; right|]. right; left. exists job. split; [by eapply running_job | done].
Qed.

Lemma work_drops lost (s s' : server) : server_inv lost [] None s -> work_step s s' -> drops s s'.
Proof.
  intros Hi Hw. revert Hi. destruct Hw as [i s0 s1 E|i s0 s1 E|i now s0 s1 _ E]; intros Hi.
  - unfold worker_take in E. destruct (threads_ (pool_ s0) !! i) as [[]|] eqn:Ht; try done.
    destruct (worker_section (pool_ s0)) as [[pc n] p] eqn:Es. injection E as <-.
    apply drops_same; try done. cbn [pool_ set_pool]. intros j. by rewrite (take_jobs _ _ _ _ _ Ht Es).
  - unfold worker_wake in E. destruct (threads_ (pool_ s0) !! i) as [[]|] eqn:Ht; try done. injection E as <-.
    apply drops_same; try done. cbn [pool_ set_pool]. intros j. by rewrite (wake_jobs _ _ Ht).
  - destruct (worker_run_cases _ _ _ _ E) as (job & resp & sv & Hth & Eh).
    assert (Hj : job ∈ pool_jobs (pool_ s0)) by (by eapply running_job).
    pose proof (si_jobs _ _ _ _ Hi) as Hjobs. rewrite Forall_forall in Hjobs. destruct (Hjobs job Hj) as [[c Hc] _].
    rewrite (worker_run_eq _ _ _ _ _ _ _ Hth Eh Hc) in E. injection E as <-. split.
    + exists []. rewrite app_nil_r. assert (Ef : descriptors (set_conns
        (<[job_connection job := completed c (serialize_response resp)]> (conns_ s0)) (set_service sv s0)) = descriptors s0).
      { unfold descriptors. cbn. rewrite fmap_insert, (completed_fd c). apply insert_id. by rewrite lookup_fmap, Hc. }
      by destruct (notify_pending_ c).
    + intros id _. rewrite !elem_of_holders. intros H. apply (worker_run_refs i job c sv resp) in H; [|done]. naive_solver.
Qed.

(** The end of [run]. *)
Lemma close_each_fds ids (s s' : server) : close_each ids s = Some (tt, s') ->
  socket_calls_ s' = socket_calls_ s /\ descriptors s' = descriptors s.
Proof.
  revert s. induction ids as [|id ids IH]; cbn [close_each]; intros s; [by intros [= <-]|].
  unfold mbind, M_bind, get_conn, put_conn, on_stats, modify. destruct (conns_ s !! id) as [c|] eqn:Hc; [|done]. intros E.
  destruct (IH _ E) as [El Ef]. split; [done|]. rewrite Ef. unfold descriptors. cbn. rewrite fmap_insert.
  apply insert_id. by rewrite lookup_fmap, Hc.
Qed.

Lemma teardown_drops lost io (s s' : server) : server_inv lost [] None s -> Forall (fun x => socket_answers x.1) io ->
  (length (ready_connections_ s) <= length io)%nat -> teardown io s = Some (tt, s') -> drops s s'.
Proof.
  intros Hi Hio Hl E. pose proof (wp_teardown lost s io Hi Hio Hl) as Ht. unfold wp in Ht. rewrite E in Ht.
  destruct Ht as [[Et _ _ Er] [_ Ep _ _ _ _]]. cbn in Ep.
  unfold teardown, mbind, M_bind, modify, get_state in E. cbn beta iota in E.
  pose proof (wp_drain_completions lost s io Hi Hio Hl) as Hd. unfold wp in Hd.
  destruct (drain_completions io s) as [[[] s1]|]; [|done]. destruct Hd as [_ [_ _ (l & jobs & El & _ & Ho & _)]].
  destruct (close_each _ s1) as [[[] s2]|] eqn:E2; [|done]. destruct (close_each_fds _ _ _ E2) as [El2 Ef2].
  injection E as <-. split.
  - exists l. cbn. rewrite El2. unfold descriptors in *. cbn. by rewrite Ef2.
  - intros id _. rewrite !elem_of_holders, Et, Er, Ep.
    intros [[fd H]|[H|H]]; [by rewrite lookup_empty in H | by right; left | by apply not_elem_of_nil in H].
Qed.

(** Jobs are only taken away by [drain_and_stop]. *)
Lemma pool_drops p (s : server) : (forall j, j ∈ pool_jobs p -> j ∈ pool_jobs (pool_ s)) -> drops s (set_pool p s).
Proof. intros H. by apply drops_same. Qed.

Lemma drops_refl (s : server) : drops s s.
Proof. by apply drops_same. Qed.

Lemma stop_drops unlink (s : server) : drops s (stopped_listening unlink s).
Proof.
  split; [|by intros id _].
  exists (stop_calls unlink s). split; [done|]. unfold stop_calls, descriptors. by destruct (listening_ s), (bool_decide _).
Qed.

Lemma loop_drops cfg now (sys sys' : RunSys) : run_inv cfg sys -> loop_step now sys sys' ->
  drops (rn_server sys) (rn_server sys').
Proof.
  intros Hi Hs. destruct (ri_pool _ _ Hi) as (due & sub & tak & dis & fin & _ & Hsi).
  destruct Hs as [s dl r Hr Hw Hne|ev l s s' dl Hm Hev E|s s' dl E|s dl Hr|s s' unlink dl E
    |s d p dl E|s d p timed_out dl E|s dl|s dl Hx|s s' io dl Hio Hlen E]; cbn in *; try apply drops_refl.
  - destruct (started_inv _ _ (ri_loop _ _ Hi eq_refl)) as [Hsi' _]. by eapply dispatch_drops.
  - unfold end_turn, mbind, M_bind, get_state, modify in E. cbn beta iota in E.
    destruct (_ && _); injection E as <-; [by apply drops_same | apply drops_refl].
  - rewrite stop_listening_eq in E. injection E as <-. apply stop_drops.
  - apply pool_drops. by rewrite (drain_enter_jobs _ _ _ _ E).
  - apply pool_drops. intros j Hj. rewrite (drain_resume_jobs _ _ _ _ E). set_solver.
  - apply pool_drops. unfold pool_jobs. cbn [queue_ threads_ set_threads]. by rewrite running_wake.
  - apply pool_drops. unfold pool_jobs. cbn [queue_ threads_ set_threads]. rewrite (running_exited _ Hx). set_solver.
  - eapply teardown_drops; [by apply Hsi | done..].
Qed.

Lemma run_drops cfg now (sys sys' : RunSys) : run_inv cfg sys -> run_step now sys sys' ->
  drops (rn_server sys) (rn_server sys').
Proof.
  intros Hi Hs. revert Hi. destruct Hs as [? ? Hs|s dl Hr|timed_out s dl|pc dl s s' Hw|pc dl s s' E]; intros Hi; cbn;
    try apply drops_refl.
  - by eapply loop_drops.
  - destruct (ri_pool _ _ Hi) as (due & sub & tak & dis & fin & Hp & Hsi). cbn in *.
    eapply work_drops; [|exact Hw]. apply Hsi. intros ->. destruct (pi_threads _ _ _ _ Hp) as [E _].
    by apply (work_step_threads _ _ Hw).
  - injection E as <-. by apply drops_same.
Qed.

(** ** The account of a run *)

(** The descriptors of the connections still referred to. *)
Definition live (s : server) : list (Z * Z) := filter (fun x => x.1 ∈ holders s) (map_to_list (descriptors s)).

(** The connections accepted. *)
Definition accepted (l : list SocketCall) : list (Z * Z) :=
  omap (fun k => match k with SockAccept id fd => Some (id, fd) | _ => None end) l.

Lemma opens_accepted l m m' : opens l m m' -> map_to_list m' ≡ₚ accepted l ++ map_to_list m /\
  Forall (fun x => m !! x.1 = None) (accepted l).
Proof.
  revert m. induction l as [|k l IH]; intros m; cbn [opens]; [by intros -> |].
  destruct k as [| |id fd| | | |]; try apply IH. intros [Hn Ho]. destruct (IH _ Ho) as [Hp Hf].
  unfold accepted in *. cbn [omap list_omap]. split.
  - rewrite Hp, map_to_list_insert by done. symmetry. apply Permutation_middle.
  - constructor; [done|]. eapply Forall_impl; [exact Hf|]. intros x Hx. by apply lookup_insert_None in Hx as [].
Qed.

(** What is live, or is accepted, is live afterwards or destroyed. *)
Lemma drops_live (s s' : server) l : drops s s' -> socket_calls_ s' = socket_calls_ s ++ l ->
  live s ++ accepted l ≡ₚ live s' ++ destroyed s s'.
Proof.
  intros [(l' & El & Ho) Hh] El'. rewrite El in El'. apply app_inv_head in El' as ->.
  destruct (opens_accepted _ _ _ Ho) as [Hp Hn]. unfold live, destroyed. rewrite Hp, !filter_app.
  set (f := fun x : Z * Z => (x.1 ∉ holders s') /\ (x.1 ∈ holders s \/ descriptors s !! x.1 = None)).
  assert (Ha : accepted l ≡ₚ filter (fun x => x.1 ∈ holders s') (accepted l) ++ filter f (accepted l)).
  { clear - Hn. induction Hn as [|x acc Hx _ IH]; [done|]. rewrite !filter_cons.
    destruct (decide (x.1 ∈ holders s')) as [Hin|Hin].
    - rewrite decide_False by (unfold f; tauto). cbn. by rewrite <- IH.
    - rewrite decide_True by (unfold f; tauto). rewrite <- Permutation_middle. by rewrite <- IH. }
  assert (Hm : filter (fun x => x.1 ∈ holders s) (map_to_list (descriptors s)) ≡ₚ
    filter (fun x => x.1 ∈ holders s') (map_to_list (descriptors s)) ++ filter f (map_to_list (descriptors s))).
  { assert (Hd : Forall (fun x => is_Some (conns_ s !! x.1) /\ is_Some (descriptors s !! x.1)) (map_to_list (descriptors s))).
    { apply Forall_forall. intros [id fd] Hin. apply elem_of_map_to_list in Hin. cbn. split; [|by eexists].
      unfold descriptors in Hin. rewrite lookup_fmap in Hin. destruct (conns_ s !! id); [by eexists | done]. }
    clear - Hd Hh. induction Hd as [|x m [Hc [fd Hf]] _ IH]; [done|]. rewrite !filter_cons.
    destruct (decide (x.1 ∈ holders s')) as [Hin|Hin].
    - rewrite decide_True by auto. rewrite decide_False by (unfold f; tauto). cbn. by rewrite <- IH.
    - destruct (decide (x.1 ∈ holders s)) as [Hin'|Hin'].
      + rewrite decide_True by (unfold f; auto). rewrite <- Permutation_middle. by rewrite <- IH.
      + rewrite decide_False; [done|]. unfold f. intros [_ [|]]; congruence. }
  rewrite Ha at 1. rewrite Hm. solve_Permutation.
Qed.

(** The descriptors in the calls on sockets: each is turned away, or belongs to a
    connection, or is the listening socket. *)
Lemma socket_syscalls_fds st l :
  closed (l ≫= socket_syscalls st) ++ (accepted l).*2 ≡ₚ
  opened (l ≫= socket_syscalls st) ++ closed (filter (fun k => client_call k = false) l ≫= socket_syscalls st).
Proof.
  induction l as [|k l IH]; [done|]. cbn [mbind list_bind]. rewrite filter_cons, closed_app, opened_app.
  destruct k as [| |id fd|fd| | |path r]; cbn -[closed opened]; unfold accepted in *; cbn -[closed opened].
  all: rewrite ?closed_app; cbn [app closed opened omap list_omap]; try exact IH.
  - rewrite <- Permutation_middle. by rewrite IH.
  - by rewrite IH.
  - rewrite IH. apply Permutation_middle.
Qed.

Lemma socket_syscalls_binds st l : binds (l ≫= socket_syscalls st) = [].
Proof. induction l as [|k l IH]; [done|]. cbn [mbind list_bind]. rewrite binds_app. by destruct k. Qed.

(** The account kept along a run: [gone] are the connections destroyed so far. *)
Record run_account (st : StartState) (calls : list SysCall) (gone : list (Z * Z)) (s : server) : Prop := mkRunAccount {
  ra_live : live s ++ gone ≡ₚ accepted (socket_calls_ s);
  ra_opened : opened calls = opened (socket_calls_ s ≫= socket_syscalls st);
  ra_closed : closed calls ≡ₚ closed (socket_calls_ s ≫= socket_syscalls st) ++ gone.*2;
  ra_binds : binds calls = [];
  ra_unlinks : forall p r, SockUnlink p r ∈ socket_calls_ s -> KUnlink p r ∈ calls;
}.

Lemma run_account_step st calls gone (s s' : server) : run_account st calls gone s -> drops s s' ->
  run_account st (calls ++ step_syscalls st s s') (gone ++ destroyed s s') s'.
Proof.
  intros [Hl Ho Hc Hb Hu] Hd. destruct (dr_opens _ _ Hd) as (l & El & _).
  unfold step_syscalls. rewrite El, drop_app_length. split.
  - rewrite El. unfold accepted. rewrite omap_app. fold (accepted (socket_calls_ s)) (accepted l). rewrite <- Hl.
    pose proof (drops_live s s' l Hd El) as Hp. rewrite (app_assoc (live s')), (Permutation_app_comm (live s')), <- app_assoc, <- Hp.
    solve_Permutation.
  - by rewrite !opened_app, opened_closes, El, bind_app, opened_app, Ho, app_nil_r.
  - rewrite !closed_app, closed_closes, El, bind_app, closed_app, Hc, fmap_app. solve_Permutation.
  - by rewrite !binds_app, Hb, socket_syscalls_binds, binds_closes.
  - intros p r. rewrite El, !elem_of_app. intros [H|H]; [left; by apply Hu|]. right; left.
    apply list_elem_of_bind. exists (SockUnlink p r). split; [by left | done].
Qed.

Lemma run_account_init st cfg cache now : run_account st [] [] (server_init cfg cache now : server).
Proof.
  split; try done. cbn. intros p r H. by apply not_elem_of_nil in H.
Qed.

Lemma logged_run_account st cfg cache now calls (sys : RunSys) : config_typed cfg -> config_valid cfg ->
  cache_good cache -> Spec.limits (cache_abs cache) = cache_limits cfg ->
  logged_run st (mkRunSys RLoop 0 (server_init cfg cache now)) calls sys ->
  run_reachable cfg sys /\ exists gone, run_account st calls gone (rn_server sys).
Proof.
  intros Ht Hv Hg Hl. induction 1 as [|calls t sys1 sys2 _ [(_ & _ & cache' & t0 & Hg' & Hl' & Hr) [gone Ha]] Hs].
  - split; [|exists []; apply run_account_init]. split_and!; try done. exists cache, now. split_and!; [done | done | apply rtc_refl].
  - assert (Hr1 : run_reachable cfg sys1) by (split_and!; try done; by exists cache', t0). split.
    + split_and!; try done. exists cache', t0. split_and!; [done | done | eapply rtc_r; [exact Hr | by exists t]].
    + eexists. eapply run_account_step; [exact Ha|]. eapply run_drops; [by apply run_reachable_inv | exact Hs].
Qed.

(** What the destructor finds after a run. *)
Lemma run_accounted st cfg cache now calls (sys : RunSys) : config_typed cfg -> config_valid cfg ->
  cache_good cache -> Spec.limits (cache_abs cache) = cache_limits cfg ->
  logged_run st (mkRunSys RLoop 0 (server_init cfg cache now)) calls sys -> rn_pc sys = RDone ->
  accounted st -> ss_bound st = socket_path cfg -> 0 <= ss_listen st -> accounted (after_run st calls (rn_server sys)).
Proof.
  intros Ht Hv Hg Hl Hrun Hpc [Hm Ho Hp] Hb Hls.
  destruct (logged_run_account _ _ _ _ _ _ Ht Hv Hg Hl Hrun) as [Hr [gone [Al Ao Ac Ab Au]]].
  destruct (run_reachable_inv cfg sys Hr) as [_ _ Hd (due & sub & tak & dis & fin & Hpi & _) Hst Hlk].
  rewrite Hpc in *. destruct (Hst eq_refl) as [St _ _ Sr], (Hd eq_refl) as [El Eb], (pi_threads _ _ _ _ Hpi) as [Eth Eq].
  cbn in Eth, Eq. destruct Hlk as [(E & _)|(_ & _ & u & Eu)]; [congruence|].
  set (s := rn_server sys) in *. clearbody s.
  assert (Hnone : live s = []).
  { unfold live, holders, pool_jobs. rewrite St, Sr, Eth, Eq, map_to_list_empty. cbn.
    induction (map_to_list (descriptors s)); [done|]. rewrite filter_cons, decide_False; [done | apply not_elem_of_nil]. }
  rewrite Hnone in Al. cbn in Al. unfold after_run. rewrite El, Eb. split.
  - destruct Hm. split; cbn; auto.
  - cbn [ss_calls ss_signal]. rewrite opened_app, closed_app, Ho, Ac. pose proof (socket_syscalls_fds st (socket_calls_ s)) as Hf.
    unfold listener_calls in Eu. rewrite Eu in Hf. cbn [mbind list_bind socket_syscalls app closed omap list_omap] in Hf.
    rewrite Al, Hf, Ao. unfold held_open. cbn [ss_listen ss_epoll ss_shutdown ss_completion]. rewrite (held_valid _ Hls).
    change (held (-1)) with (@nil Z). cbn [app]. solve_Permutation.
  - cbn [ss_calls]. unfold bound_paths in *. cbn [ss_bound]. rewrite bool_decide_true by done.
    rewrite Hb, bool_decide_false in Hp by (by apply config_path).
    assert (Hin : KUnlink (socket_path cfg) u ∈ calls).
    { apply Au. assert (Hin : SockUnlink (socket_path cfg) u ∈ listener_calls s) by (rewrite Eu; set_solver).
      unfold listener_calls in Hin. by apply list_elem_of_filter in Hin as [_ ?]. }
    rewrite stuck_paths_app, list_to_set_app_L.
    pose proof (paths_left_unlink (ss_calls st) calls (socket_path cfg) u (list_to_set (stuck_paths (ss_calls st)))) as Hl'.
    rewrite Hl'; [set_solver | set_solver | done | done].
Qed.
End Descriptors.

(** ** Properties *)

(** C25: the daemon leaves nothing behind.  However it ends, by a failure of any
    call of the start-up or when [run] returns and the server is destroyed,
    every descriptor it opened, those of its clients included, is closed exactly
    once, and its socket file, if it made one, is removed unless [unlink] fails
    on it. *)
Theorem daemon_releases_all errno_text program args io : start_io_ok io ->
  exists e, daemon_main errno_text program args io = Some e /\
    match e with
    | DExit _ _ _ calls => all_released calls
    | DRun cfg _ _ st => forall now srv calls sys unlink, max_cache_bytes cfg < 2 ^ 63 ->
        started cfg (new_cache (cache_limits cfg)) now st = Some srv ->
        logged_run st (mkRunSys RLoop 0 srv) calls sys -> rn_pc sys = RDone ->
        all_released (ss_calls (destroy_server unlink (after_run st calls (rn_server sys))).2)
    end.
Proof.
  intros Hio. destruct (daemon_cases errno_text program args io Hio)
    as [(code & out & err & ->)|(cfg & sfd & calls0 & _ & Ht & Hv & Hs & Ho & Hc & Hb & _ & [[message ->]|(l & r & st & Hst & ->)])].
  - eexists. split; [done|]. by split.
  - eexists. split; [done|]. by apply destroy_releases, unstarted_accounted.
  - pose proof (start_post_accounted _ _ _ _ _ _ _ Hst Ho Hc Hb (config_path cfg Hv)) as Hrel.
    destruct r as [[]|message|]; [| |by destruct (sp_defined _ _ _ _ _ _ _ Hst)]; eexists; (split; [done|]).
    + destruct (sp_ok _ _ _ _ _ _ _ Hst eq_refl) as (listen & epoll & shutdown & completion & E1 & _ & _ & _ & Es).
      pose proof (sio_socket _ Hio) as Hls. rewrite E1 in Hls. cbn in Hls.
      intros now srv calls sys unlink Hmax Hsrv Hrun Hpc. apply destroy_releases.
      rewrite Es in Hsrv. unfold started in Hsrv. cbn [ss_pool ss_listen ss_bound ss_running] in Hsrv.
      rewrite (proj2 (Z.leb_le 0 listen) Hls) in Hsrv. injection Hsrv as <-.
      pose proof (ct_entries _ Ht). pose proof (ct_cache _ Ht).
      eapply (run_accounted st cfg (new_cache (cache_limits cfg)) now); try done; [|by rewrite Es..].
      split; [apply wf_new|]; split; cbn; lia.
    + by apply destroy_releases.
Qed.

(** ** Witnesses *)

(** A daemon with the configuration of the example runs, all calls succeeding. *)
Definition narrow_args : list bytes :=
  [lit "--max-value-bytes"; lit "1"; lit "--max-key-bytes"; lit "1"; lit "--workers"; lit "1";
   lit "--max-inflight-per-conn"; lit "1"].
Definition narrow_start : StartIo :=
  mkStartIo (StatOk true) (NewFd 4) (Failure ECONNREFUSED) Success (NewFd 4) Success Success Success
    (NewFd 5) (NewFd 6) (NewFd 8) (fun _ => Success) Success (NewFd 3) Success.

Lemma narrow_start_ok : start_io_ok narrow_start.
Proof. split; cbn; lia. Qed.

Lemma rtc_logged st (sys sys' : @RunSys LruCache) : rtc (fun a b => exists now, run_step now a b) sys sys' ->
  exists calls, logged_run st sys calls sys'.
Proof.
  revert sys'. refine (rtc_ind_r _ _ _ _); [by eexists; apply logged_nil|].
  intros a b _ [now Hs] [calls IH]. eexists. by eapply logged_step.
Qed.

(** A start-up that fails in [listen], and a run with one client. *)
Lemma daemon_releases_all_witness :
  (exists code err calls, daemon_main demo_errno (lit "cache_server") [] demo_listen_fails = Some (DExit code [] err calls) /\
     all_released calls /\ closed calls = [3; 4; 8]) /\
  exists cfg g out st calls, daemon_main demo_errno (lit "cache_server") narrow_args narrow_start = Some (DRun cfg g out st) /\
    logged_run st (mkRunSys RLoop 0 run0) calls (at_pc RDone down8) /\
    all_released (ss_calls (destroy_server Success (after_run st calls down8)).2).
Proof.
  split.
  - destruct (daemon_releases_all demo_errno (lit "cache_server") [] demo_listen_fails demo_listen_fails_ok) as (e & E & Hr).
    destruct e as [code out err calls|cfg g out s]; [|vm_compute in E; discriminate E].
    assert (Ho : out = []) by (vm_compute in E; injection E as _ <- _ _; reflexivity). subst out.
    exists code, err, calls. split; [exact E|]. split; [exact Hr|]. vm_compute in E. injection E as _ _ <-. vm_compute. reflexivity.
  - destruct (daemon_releases_all demo_errno (lit "cache_server") narrow_args narrow_start narrow_start_ok) as (e & E & Hr).
    destruct e as [code out err calls|cfg g out st]; [vm_compute in E; discriminate E|].
    destruct (rtc_logged st _ _ done_run) as [calls Hrun].
    exists cfg, g, out, st, calls. split; [exact E|]. split; [exact Hrun|].
    assert (Ec : cfg = narrow_config) by (vm_compute in E; injection E as <- _ _ _; vm_compute; reflexivity). subst cfg.
    apply (Hr 0 run0 calls (at_pc RDone down8) Success); [vm_compute; reflexivity | | exact Hrun | reflexivity].
    vm_compute in E. injection E as _ _ <-. vm_compute. reflexivity.
Defined.
