(* ===== verification/Engine.v ===== *)
(** * The pipelining client of the benchmark tools

    benchmark/async_client.h and benchmark/async_client.cpp: an engine that
    keeps several requests outstanding on each of many connections and serves
    all of them from one epoll loop.  The two callbacks are functions on a
    state of their own, the clock is a function of how often it was read, and
    what the engine does to the outside is written to a log. *)

From S2P Require Import Prelude Protocol Serializer Sys.

Record RequestSpec := mkRequestSpec {
  sp_opcode : Opcode.t;
  sp_key : bytes;
  sp_value : bytes;
}.
Definition default_spec : RequestSpec := mkRequestSpec Opcode.kPing [] [].

Record Completion := mkCompletion {
  cp_connection_index : Z;
  cp_request : RequestSpec;
  cp_response : Response;
  cp_latency_ns : Z;
}.

Record EngineConfig := mkEngineConfig {
  ec_socket_path : bytes;
  ec_connections : Z;
  ec_pipeline_depth : Z;
  ec_requests : Z;
  ec_first_connection : Z;
  ec_idle_timeout_ms : Z;
}.

Record EngineStats := mkEngineStats {
  sent : Z;
  received : Z;
  connect_failures : Z;
  io_failures : Z;
  protocol_failures : Z;
}.
Definition default_engine_stats : EngineStats := mkEngineStats 0 0 0 0 0.

Record Pending := mkPending {
  pd_spec : RequestSpec;
  pd_started : Z;
}.

Record Conn := mkConn {
  cn_fd : Z;
  cn_index : Z;
  cn_live : bool;
  cn_input : bytes;
  cn_output : bytes;
  cn_output_pos : Z;
  cn_pending : gmap Z Pending;
}.

Definition set_cn_fd (v : Z) (c : Conn) : Conn :=
  mkConn v (cn_index c) (cn_live c) (cn_input c) (cn_output c) (cn_output_pos c) (cn_pending c).
Definition set_cn_live (v : bool) (c : Conn) : Conn :=
  mkConn (cn_fd c) (cn_index c) v (cn_input c) (cn_output c) (cn_output_pos c) (cn_pending c).
Definition set_cn_input (v : bytes) (c : Conn) : Conn :=
  mkConn (cn_fd c) (cn_index c) (cn_live c) v (cn_output c) (cn_output_pos c) (cn_pending c).
Definition set_cn_output (v : bytes) (c : Conn) : Conn :=
  mkConn (cn_fd c) (cn_index c) (cn_live c) (cn_input c) v (cn_output_pos c) (cn_pending c).
Definition set_cn_output_pos (v : Z) (c : Conn) : Conn :=
  mkConn (cn_fd c) (cn_index c) (cn_live c) (cn_input c) (cn_output c) v (cn_pending c).
Definition set_cn_pending (v : gmap Z Pending) (c : Conn) : Conn :=
  mkConn (cn_fd c) (cn_index c) (cn_live c) (cn_input c) (cn_output c) (cn_output_pos c) v.

(** What the engine does to the outside; a connection is named by its index. *)
Inductive EngineCall :=
  | KOpen (fd : Z)                                    (* epoll_create1 and socket *)
  | KConnect (fd : Z) (path : bytes)
  | KInterest (index events : Z)                      (* epoll_ctl, ADD and MOD *)
  | KForget (index : Z)                               (* epoll_ctl, DEL *)
  | KGenerate (index sequence : Z) (spec : RequestSpec)
  | KSend (index : Z) (data : bytes)
  | KComplete (completion : Completion)
  | KClose (fd : Z).

Record Engine {U : Type} := mkEngine {
  config_ : EngineConfig;
  stats_ : EngineStats;
  conns_ : list Conn;
  issued_ : Z;
  next_request_id_ : Z;
  generator_exhausted_ : bool;
  epoll_fd_ : Z;
  live_connections_ : Z;
  captured : U;               (* what the callbacks share *)
  ticks : nat;                (* readings of the clock *)
  calls : list EngineCall;
}.
#[global] Arguments Engine U : clear implicits.

(** The answers of the kernel to [connect_all], for one connection. *)
Record OpenIo := mkOpenIo {
  oi_socket : FdResult;
  oi_connect : CallResult;
  oi_getfl : CallResult;
  oi_setfl : CallResult;
  oi_add : CallResult;
}.

(** Those to one call of [on_writable]. *)
Record WriteIo := mkWriteIo {
  wi_sends : list (Z -> SendResult);
  wi_ctl : bool;
}.

(** Those to what is called for one event. *)
Record EventIo := mkEventIo {
  ei_recvs : list RecvResult;
  ei_read : WriteIo;          (* [on_writable] at the end of [on_readable] *)
  ei_write : WriteIo;
}.

(** [epoll_wait]: the connections that are ready, with their flags. *)
Inductive WaitResult :=
  | WaitEvents (events : list (nat * Z * EventIo))
  | WaitFailed (errno : Z).

Section Engine.
Context {U : Type}.
Variable generator_ : Z -> Z -> RequestSpec -> U -> bool * RequestSpec * U.
Variable on_complete_ : Completion -> U -> U.
Variable clock : nat -> Z.
Variable errno_text : Z -> bytes.
Implicit Types (e : Engine U) (conn : Conn).

Definition with_stats (v : EngineStats) e : Engine U :=
  mkEngine U (config_ e) v (conns_ e) (issued_ e) (next_request_id_ e) (generator_exhausted_ e) (epoll_fd_ e)
    (live_connections_ e) (captured e) (ticks e) (calls e).
Definition with_conns (v : list Conn) e : Engine U :=
  mkEngine U (config_ e) (stats_ e) v (issued_ e) (next_request_id_ e) (generator_exhausted_ e) (epoll_fd_ e)
    (live_connections_ e) (captured e) (ticks e) (calls e).
Definition with_issued (v : Z) e : Engine U :=
  mkEngine U (config_ e) (stats_ e) (conns_ e) v (next_request_id_ e) (generator_exhausted_ e) (epoll_fd_ e)
    (live_connections_ e) (captured e) (ticks e) (calls e).
Definition with_next (v : Z) e : Engine U :=
  mkEngine U (config_ e) (stats_ e) (conns_ e) (issued_ e) v (generator_exhausted_ e) (epoll_fd_ e)
    (live_connections_ e) (captured e) (ticks e) (calls e).
Definition with_exhausted (v : bool) e : Engine U :=
  mkEngine U (config_ e) (stats_ e) (conns_ e) (issued_ e) (next_request_id_ e) v (epoll_fd_ e)
    (live_connections_ e) (captured e) (ticks e) (calls e).
Definition with_epoll (v : Z) e : Engine U :=
  mkEngine U (config_ e) (stats_ e) (conns_ e) (issued_ e) (next_request_id_ e) (generator_exhausted_ e) v
    (live_connections_ e) (captured e) (ticks e) (calls e).
Definition with_live (v : Z) e : Engine U :=
  mkEngine U (config_ e) (stats_ e) (conns_ e) (issued_ e) (next_request_id_ e) (generator_exhausted_ e) (epoll_fd_ e)
    v (captured e) (ticks e) (calls e).
Definition with_captured (v : U) e : Engine U :=
  mkEngine U (config_ e) (stats_ e) (conns_ e) (issued_ e) (next_request_id_ e) (generator_exhausted_ e) (epoll_fd_ e)
    (live_connections_ e) v (ticks e) (calls e).
Definition with_ticks (v : nat) e : Engine U :=
  mkEngine U (config_ e) (stats_ e) (conns_ e) (issued_ e) (next_request_id_ e) (generator_exhausted_ e) (epoll_fd_ e)
    (live_connections_ e) (captured e) v (calls e).
Definition call (k : EngineCall) e : Engine U :=
  mkEngine U (config_ e) (stats_ e) (conns_ e) (issued_ e) (next_request_id_ e) (generator_exhausted_ e) (epoll_fd_ e)
    (live_connections_ e) (captured e) (ticks e) (calls e ++ [k]).

Definition count_sent (s : EngineStats) : EngineStats :=
  mkEngineStats (u64 (sent s + 1)) (received s) (connect_failures s) (io_failures s) (protocol_failures s).
Definition count_received (s : EngineStats) : EngineStats :=
  mkEngineStats (sent s) (u64 (received s + 1)) (connect_failures s) (io_failures s) (protocol_failures s).
Definition count_connect_failure (s : EngineStats) : EngineStats :=
  mkEngineStats (sent s) (received s) (u64 (connect_failures s + 1)) (io_failures s) (protocol_failures s).
Definition count_io_failure (s : EngineStats) : EngineStats :=
  mkEngineStats (sent s) (received s) (connect_failures s) (u64 (io_failures s + 1)) (protocol_failures s).
Definition count_protocol_failure (s : EngineStats) : EngineStats :=
  mkEngineStats (sent s) (received s) (connect_failures s) (io_failures s) (u64 (protocol_failures s + 1)).
Definition counting (f : EngineStats -> EngineStats) e : Engine U := with_stats (f (stats_ e)) e.

(** [Clock::now()], in nanoseconds. *)
Definition clock_now e : Z * Engine U := (clock (ticks e), with_ticks (S (ticks e)) e).

(** [std::unordered_map::emplace]: nothing happens if the key is there. *)
Definition emplace (id : Z) (p : Pending) (m : gmap Z Pending) : gmap Z Pending :=
  match m !! id with Some _ => m | None => <[id := p]> m end.

Definition pending_size conn : Z := Z.of_nat (base.size (cn_pending conn)).

Definition error_text (operation : bytes) (errno : Z) : bytes := operation ++ lit ": " ++ errno_text errno.

(** ** Construction *)

Definition new_engine (config : EngineConfig) (u : U) : Engine U :=
  mkEngine U config default_engine_stats [] 0 1 false (-1) 0 u 0 [].

Definition new_conn (index fd : Z) : Conn := mkConn fd index false [] [] 0 ∅.

(** [~Conn]. *)
Definition destroy_conn conn e : Engine U := if 0 <=? cn_fd conn then call (KClose (cn_fd conn)) e else e.

(** [~Engine]: its body, then the members. *)
Definition destroy_engine e : Engine U :=
  let e := if 0 <=? epoll_fd_ e then call (KClose (epoll_fd_ e)) e else e in
  foldl (fun e conn => destroy_conn conn e) e (conns_ e).

Definition fd_of (r : FdResult) : Z := match r with NewFd fd => fd | NoFd _ => -1 end.

(** One turn of the loop: an error, or the empty string. *)
Definition connect_one (i : Z) (io : OpenIo) e : bytes * Engine U :=
  let conn := new_conn (u64 (ec_first_connection (config_ e) + i)) (-1) in
  match oi_socket io with
  | NoFd errno => (error_text (lit "socket") errno, destroy_conn conn (counting count_connect_failure e))
  | NewFd fd =>
      let conn := set_cn_fd fd conn in
      let e := call (KConnect fd (ec_socket_path (config_ e))) (call (KOpen fd) e) in
      match oi_connect io with
      | Failure errno => (error_text (lit "connect") errno, destroy_conn conn (counting count_connect_failure e))
      | Success =>
          match oi_getfl io, oi_setfl io with
          | Failure errno, _ | Success, Failure errno =>
              (error_text (lit "fcntl(O_NONBLOCK)") errno, destroy_conn conn e)
          | Success, Success =>
              match oi_add io with
              | Failure errno => (error_text (lit "epoll_ctl") errno, destroy_conn conn e)
              | Success =>
                  let e := call (KInterest (cn_index conn) (Z.lor EPOLLIN EPOLLRDHUP)) e in
                  let e := with_live (u64 (live_connections_ e + 1)) e in
                  ([], with_conns (conns_ e ++ [set_cn_live true conn]) e)
              end
          end
      end
  end.

Fixpoint connect_loop (i : Z) (ios : list OpenIo) e : option (bytes * Engine U) :=
  if negb (i <? ec_connections (config_ e)) then Some ([], e) else
  match ios with
  | [] => None
  | io :: ios =>
      match connect_one i io e with
      | ([], e) => connect_loop (u64 (i + 1)) ios e
      | (error, e) => Some (error, e)
      end
  end.

Definition connect_all (epoll : FdResult) (ios : list OpenIo) e : option (bytes * Engine U) :=
  if (ec_connections (config_ e) =? 0) || (ec_pipeline_depth (config_ e) =? 0)
  then Some (lit "connections and pipeline depth must be positive", e) else
  if sun_path_size <=? len (ec_socket_path (config_ e)) then Some (lit "Unix socket path is too long", e) else
  let e := with_epoll (fd_of epoll) e in
  match epoll with
  | NoFd errno => Some (error_text (lit "epoll_create1") errno, e)
  | NewFd fd => connect_loop 0 ios (call (KOpen fd) e)
  end.

(** ** Requests *)

Fixpoint fill_loop (fuel : nat) conn e : option (Conn * Engine U) :=
  if generator_exhausted_ e || negb (pending_size conn <? ec_pipeline_depth (config_ e)) ||
     negb (issued_ e <? ec_requests (config_ e))
  then Some (conn, e) else
  match fuel with
  | O => None
  | S fuel =>
      let '(more, spec, u) := generator_ (cn_index conn) (issued_ e) default_spec (captured e) in
      let e := with_captured u e in
      if negb more then Some (conn, with_exhausted true e) else
      let e := call (KGenerate (cn_index conn) (issued_ e) spec) e in
      let id := next_request_id_ e in
      let e := with_next (u64 (id + 1)) e in
      let request := mkRequest (sp_opcode spec) id (sp_key spec) (sp_value spec) in
      let conn := set_cn_output (serialize_request_into request (cn_output conn)) conn in
      let '(now, e) := clock_now e in
      let conn := set_cn_pending (emplace id (mkPending spec now) (cn_pending conn)) conn in
      let e := with_issued (u64 (issued_ e + 1)) e in
      fill_loop fuel conn (counting count_sent e)
  end.

Definition fill_pipeline conn e : option (bool * Conn * Engine U) :=
  '(conn, e) ← fill_loop (Z.to_nat (ec_pipeline_depth (config_ e) - pending_size conn)) conn e;
  Some (true, conn, e).

Definition update_interest (ctl : bool) conn (want_write : bool) e : bool * Engine U :=
  let events := Z.lor (Z.lor EPOLLIN EPOLLRDHUP) (if want_write then EPOLLOUT else 0) in
  (ctl, if ctl then call (KInterest (cn_index conn) events) e else e).

Definition unsent conn : bytes := drop (Z.to_nat (cn_output_pos conn)) (cn_output conn).

Fixpoint write_loop (sends : list (Z -> SendResult)) (ctl : bool) conn e : option (bool * Conn * Engine U) :=
  if negb (cn_output_pos conn <? len (cn_output conn)) then
    let conn := set_cn_output_pos 0 (set_cn_output [] conn) in
    let '(ok, e) := update_interest ctl conn false e in
    Some (ok, conn, e)
  else
  match sends with
  | [] => None
  | send :: sends =>
      match send (u64 (len (cn_output conn) - cn_output_pos conn)) with
      | Sent n =>
          if 0 <? n then
            let e := call (KSend (cn_index conn) (take (Z.to_nat n) (unsent conn))) e in
            write_loop sends ctl (set_cn_output_pos (u64 (cn_output_pos conn + n)) conn) e
          else Some (false, conn, e)
      | SendFailed errno =>
          if errno =? EINTR then write_loop sends ctl conn e
          else if (errno =? EAGAIN) || (errno =? EWOULDBLOCK) then
            let '(ok, e) := update_interest ctl conn true e in
            Some (ok, conn, e)
          else Some (false, conn, e)
      end
  end.

Definition on_writable (io : WriteIo) conn e : option (bool * Conn * Engine U) :=
  '(_, conn, e) ← fill_pipeline conn e;
  write_loop (wi_sends io) (wi_ctl io) conn e.

(** ** Responses *)

(** The loop around [recv]: false when the function returns there. *)
Fixpoint recv_loop (recvs : list RecvResult) conn : option (bool * Conn) :=
  match recvs with
  | [] => None
  | Received data :: recvs =>
      if 0 <? len data then recv_loop recvs (set_cn_input (cn_input conn ++ data) conn)
      else Some (false, conn)
  | RecvFailed errno :: recvs =>
      if errno =? EINTR then recv_loop recvs conn
      else if (errno =? EAGAIN) || (errno =? EWOULDBLOCK) then Some (true, conn)
      else Some (false, conn)
  end.

(** The loop around [deserialize_response]: false when the function returns
    there, and how much was consumed. *)
Fixpoint parse_loop (fuel : nat) (consumed : Z) conn e : option (bool * Z * Conn * Engine U) :=
  if negb (consumed <? len (cn_input conn)) then Some (true, consumed, conn, e) else
  match fuel with
  | O => None
  | S fuel =>
      let view := drop (Z.to_nat consumed) (cn_input conn) in
      '(parsed, response) ← deserialize_response view default_limits default_response;
      match pr_status parsed with
      | ParseStatus.kNeedMoreData => Some (true, consumed, conn, e)
      | ParseStatus.kMalformed => Some (false, consumed, conn, counting count_protocol_failure e)
      | ParseStatus.kComplete =>
          let consumed := u64 (consumed + pr_consumed parsed) in
          match cn_pending conn !! rs_request_id response with
          | None => Some (false, consumed, conn, counting count_protocol_failure e)
          | Some pending =>
              if negb (bool_decide (rs_opcode response = sp_opcode (pd_spec pending)))
              then Some (false, consumed, conn, counting count_protocol_failure e) else
              let '(now, e) := clock_now e in
              let latency := u64 (now - pd_started pending) in
              let completion := mkCompletion (cn_index conn) (pd_spec pending) response latency in
              let e := with_captured (on_complete_ completion (captured e)) (call (KComplete completion) e) in
              let conn := set_cn_pending (base.delete (rs_request_id response) (cn_pending conn)) conn in
              parse_loop fuel consumed conn (counting count_received e)
          end
      end
  end.

Definition on_readable (recvs : list RecvResult) (io : WriteIo) conn e : option (bool * Conn * Engine U) :=
  '(more, conn) ← recv_loop recvs conn;
  if negb more then Some (false, conn, e) else
  '(more, consumed, conn, e) ← parse_loop (length (cn_input conn)) 0 conn e;
  if negb more then Some (false, conn, e) else
  let conn := if negb (consumed =? 0) then set_cn_input (drop (Z.to_nat consumed) (cn_input conn)) conn else conn in
  '(_, conn, e) ← fill_pipeline conn e;
  on_writable io conn e.

Definition drop_conn conn e : Conn * Engine U :=
  if negb (cn_live conn) then (conn, e) else
  let conn := set_cn_live false conn in
  let e := call (KClose (cn_fd conn)) (call (KForget (cn_index conn)) e) in
  let conn := set_cn_fd (-1) conn in
  let e := with_live (u64 (live_connections_ e - 1)) e in
  (conn, counting count_io_failure e).

(** ** The event loop *)

Definition all_done e : bool :=
  if negb (generator_exhausted_ e) && (issued_ e <? ec_requests (config_ e)) then false else
  if received (stats_ e) <? issued_ e then false else
  forallb (fun conn => negb (negb (pending_size conn =? 0) || (cn_output_pos conn <? len (cn_output conn)))) (conns_ e).

(** A handler works on the connection in place; dropped if the handler says so. *)
Definition put_back (j : nat) (r : bool * Conn * Engine U) : Engine U :=
  let '(ok, conn, e) := r in
  let '(conn, e) := if ok : bool then (conn, e) else drop_conn conn e in
  with_conns (<[j := conn]> (conns_ e)) e.

Definition start_one (j : nat) (io : WriteIo) e : option (Engine U) :=
  conn ← conns_ e !! j;
  '(_, conn, e) ← fill_pipeline conn e;
  r ← on_writable io conn e;
  Some (put_back j r).

Fixpoint start_each (j : nat) (n : nat) (ios : list WriteIo) e : option (Engine U) :=
  match n, ios with
  | O, _ => Some e
  | S n, io :: ios => e ← start_one j io e; start_each (S j) n ios e
  | S _, [] => None
  end.

Definition handle_event (j : nat) (flags : Z) (io : EventIo) e : option (Engine U) :=
  conn ← conns_ e !! j;
  if negb (cn_live conn) then Some e else
  if has_event flags (Z.lor (Z.lor EPOLLERR EPOLLHUP) EPOLLRDHUP) then Some (put_back j (false, conn, e)) else
  '(ok, conn, e) ← (if has_event flags EPOLLIN then on_readable (ei_recvs io) (ei_read io) conn e
                    else Some (true, conn, e));
  r ← (if ok && has_event flags EPOLLOUT then on_writable (ei_write io) conn e else Some (ok, conn, e));
  Some (put_back j r).

Fixpoint handle_events (events : list (nat * Z * EventIo)) e : option (Engine U) :=
  match events with
  | [] => Some e
  | (j, flags, io) :: events => e ← handle_event j flags io e; handle_events events e
  end.

Fixpoint run_loop (waits : list WaitResult) e : option (bytes * Engine U) :=
  if all_done e then Some ([], e) else
  if live_connections_ e =? 0 then Some (lit "all benchmark connections failed", e) else
  match waits with
  | [] => None
  | WaitEvents [] :: _ => Some (lit "benchmark timed out waiting for server responses", e)
  | WaitEvents events :: waits => e ← handle_events events e; run_loop waits e
  | WaitFailed errno :: waits =>
      if errno =? EINTR then run_loop waits e else Some (error_text (lit "epoll_wait") errno, e)
  end.

Definition run (ios : list WriteIo) (waits : list WaitResult) e : option (bytes * Engine U) :=
  e ← start_each 0 (length (conns_ e)) ios e;
  run_loop waits e.
End Engine.
