(* ===== verification/EngineProps.v ===== *)
(** * Correctness of the pipelining client

    The invariant of the engine of benchmark/async_client.cpp, by its log: what
    was asked of the generator, what went out on each connection and what was
    reported complete. *)

From S2P Require Import Prelude Protocol Serializer Sys Engine.

(** ** The log of a connection *)

Definition issued_call (i : Z) (k : EngineCall) : option (Z * RequestSpec) :=
  match k with KGenerate j seq spec => if j =? i then Some (seq + 1, spec) else None | _ => None end.
Definition completed_call (i : Z) (k : EngineCall) : option (Z * RequestSpec) :=
  match k with
  | KComplete c => if cp_connection_index c =? i then Some (rs_request_id (cp_response c), cp_request c) else None
  | _ => None
  end.
Definition sent_call (i : Z) (k : EngineCall) : option bytes :=
  match k with KSend j data => if j =? i then Some data else None | _ => None end.
Definition interest_call (i : Z) (k : EngineCall) : option Z :=
  match k with KInterest j events => if j =? i then Some events else None | _ => None end.
Definition sequence_call (k : EngineCall) : option Z :=
  match k with KGenerate _ seq _ => Some seq | _ => None end.
Definition completion_call (k : EngineCall) : option Completion :=
  match k with KComplete c => Some c | _ => None end.
Definition open_call (k : EngineCall) : option Z := match k with KOpen fd => Some fd | _ => None end.
Definition close_call (k : EngineCall) : option Z := match k with KClose fd => Some fd | _ => None end.

(** The requests issued on a connection, with their ids, and those completed. *)
Definition issued_on (i : Z) (l : list EngineCall) : list (Z * RequestSpec) := omap (issued_call i) l.
Definition completed_on (i : Z) (l : list EngineCall) : list (Z * RequestSpec) := omap (completed_call i) l.
(** The bytes the kernel took. *)
Definition sent_on (i : Z) (l : list EngineCall) : bytes := concat (omap (sent_call i) l).
(** What epoll watches the connection for. *)
Definition interest_on (i : Z) (l : list EngineCall) : option Z := last (omap (interest_call i) l).
(** What the callbacks saw. *)
Definition sequences (l : list EngineCall) : list Z := omap sequence_call l.
Definition completions (l : list EngineCall) : list Completion := omap completion_call l.

Definition spec_request (x : Z * RequestSpec) : Request :=
  mkRequest (sp_opcode x.2) x.1 (sp_key x.2) (sp_value x.2).
Definition frames (xs : list (Z * RequestSpec)) : bytes := concat (map (fun x => serialize_request (spec_request x)) xs).

(** What the protocol can carry. *)
Definition spec_ok (spec : RequestSpec) : Prop :=
  named_opcode (sp_opcode spec) = true /\ len (sp_key spec) <= kMaxKeyBytes /\ len (sp_value spec) <= kMaxValueBytes.

(** The call belongs to the connection, and does not open or close anything. *)
Definition concerns (i : Z) (k : EngineCall) : Prop :=
  match k with
  | KInterest j _ | KGenerate j _ _ | KSend j _ => j = i
  | KComplete c => cp_connection_index c = i /\ rs_opcode (cp_response c) = sp_opcode (cp_request c)
  | _ => False
  end.

Definition outstanding (conn : Conn) : list (Z * RequestSpec) :=
  prod_map id pd_spec <$> map_to_list (cn_pending conn).

(** ** The invariant *)

Record config_ok (cfg : EngineConfig) : Prop := mkConfigOk {
  eo_depth : 0 < ec_pipeline_depth cfg;
  eo_requests : 0 <= ec_requests cfg;
  eo_memory : ec_requests cfg * 2 ^ 27 < 2 ^ 64;
  eo_connections : ec_connections cfg < 2 ^ 64;
}.

Record conn_ok (cfg : EngineConfig) (l : list EngineCall) (issued : Z) (c : Conn) : Prop := mkConnOk {
  ck_requests : issued_on (cn_index c) l ≡ₚ completed_on (cn_index c) l ++ outstanding c;
  ck_ids : forall id, is_Some (cn_pending c !! id) -> 1 <= id <= issued;
  ck_wire : sent_on (cn_index c) l ++ unsent c = frames (issued_on (cn_index c) l);
  ck_pos : 0 <= cn_output_pos c <= len (cn_output c);
  ck_output : len (cn_output c) <= len (frames (issued_on (cn_index c) l));
  ck_depth : pending_size c <= ec_pipeline_depth cfg;
}.

Section Props.
Context {U : Type}.
Implicit Types (e : Engine U) (c : Conn).

(** [others]: the requests outstanding on the other connections. *)
Record core_ok (others : Z) (c : Conn) (e : Engine U) : Prop := mkCoreOk {
  co_issued : 0 <= issued_ e <= ec_requests (config_ e);
  co_sent : sent (stats_ e) = issued_ e;
  co_next : next_request_id_ e = u64 (issued_ e + 1);
  co_received : 0 <= received (stats_ e) /\ 0 <= others /\ received (stats_ e) + pending_size c + others = issued_ e;
  co_completions : received (stats_ e) = len (completions (calls e));
  co_sequences : sequences (calls e) = seqZ 0 (issued_ e);
  co_specs : forall i, Forall (fun x => spec_ok x.2) (issued_on i (calls e));
}.

Record inv (others : Z) (c : Conn) (e : Engine U) : Prop := mkInv {
  iv_config : config_ok (config_ e);
  iv_conn : conn_ok (config_ e) (calls e) (issued_ e) c;
  iv_core : core_ok others c e;
}.

(** What a handler leaves alone, and what only grows. *)
Record evolves (c : Conn) (e : Engine U) (c' : Conn) (e' : Engine U) : Prop := mkEvolves {
  ev_index : cn_index c' = cn_index c;
  ev_fd : cn_fd c' = cn_fd c;
  ev_live : cn_live c' = cn_live c;
  ev_config : config_ e' = config_ e;
  ev_conns : conns_ e' = conns_ e;
  ev_epoll : epoll_fd_ e' = epoll_fd_ e;
  ev_count : live_connections_ e' = live_connections_ e;
  ev_issued : issued_ e <= issued_ e';
  ev_exhausted : generator_exhausted_ e = true -> generator_exhausted_ e' = true;
  ev_calls : exists l, calls e' = calls e ++ l /\ Forall (concerns (cn_index c)) l;
}.

Lemma evolves_refl c e : evolves c e c e.
Proof. split; try done. exists []. by rewrite app_nil_r. Qed.

Lemma evolves_trans c1 e1 c2 e2 c3 e3 : evolves c1 e1 c2 e2 -> evolves c2 e2 c3 e3 -> evolves c1 e1 c3 e3.
Proof.
  intros [H1 H2 H3 H4 H5 H6 H7 H8 H9 (l1 & Hl1 & Hf1)] [G1 G2 G3 G4 G5 G6 G7 G8 G9 (l2 & Hl2 & Hf2)].
  split; try congruence; [lia | auto|]. exists (l1 ++ l2). rewrite Hl2, Hl1, <- app_assoc. split; [done|].
  apply Forall_app. split; [done | by rewrite <- H1].
Qed.

(** ** The pipeline is full, or nothing is left to issue *)

Definition filled (c : Conn) (e : Engine U) : Prop :=
  generator_exhausted_ e = true \/ ec_requests (config_ e) <= issued_ e \/ ec_pipeline_depth (config_ e) <= pending_size c.

Lemma size_emplace id p (m : gmap Z Pending) : m !! id = None ->
  emplace id p m = <[id := p]> m /\ base.size (emplace id p m) = S (base.size m).
Proof. intros H. unfold emplace. rewrite H. split; [done | by apply map_size_insert_None]. Qed.

Lemma frame_eq x out : spec_ok x.2 ->
  serialize_request_into (spec_request x) out = out ++ serialize_request (spec_request x) /\
  0 <= len (serialize_request (spec_request x)) < 2 ^ 27.
Proof.
  intros (_ & Hk & Hv). unfold serialize_request. unfold kMaxKeyBytes, kMaxValueBytes in *.
  rewrite !serialize_request_into_eq by (cbn; lia). split; [done|]. cbn [app spec_request rq_key rq_value].
  autorewrite with cache_rw. set (h := request_header _).
  assert (Hh : len (header_bytes h) = 24) by (unfold len; by rewrite length_header_bytes).
  clearbody h. pose proof (len_nonneg (sp_key x.2)). pose proof (len_nonneg (sp_value x.2)). lia.
Qed.

Lemma frames_app a b : frames (a ++ b) = frames a ++ frames b.
Proof. unfold frames. by rewrite map_app, concat_app. Qed.

Lemma frames_one x : frames [x] = serialize_request (spec_request x).
Proof. apply app_nil_r. Qed.

Lemma frames_bound xs : Forall (fun x => spec_ok x.2) xs -> len (frames xs) <= len xs * 2 ^ 27.
Proof.
  induction 1 as [|x xs Hx _ IH]; [done|]. change (x :: xs) with ([x] ++ xs) at 1. rewrite frames_app, len_app, len_cons.
  destruct (frame_eq x [] Hx) as [_ Hb]. rewrite frames_one. lia.
Qed.

(** No more is issued on one connection than on all. *)
Lemma issued_on_le i l : len (issued_on i l) <= len (sequences l).
Proof.
  induction l as [|k l IH]; [done|]. unfold issued_on, sequences in *. cbn.
  destruct k; cbn; try done. destruct (_ =? _); rewrite ?len_cons; lia.
Qed.

Lemma output_small others c e : inv others c e -> len (cn_output c) < 2 ^ 64.
Proof.
  intros [Hcfg Hc Hco]. pose proof (ck_output _ _ _ _ Hc) as Ho.
  pose proof (frames_bound _ (co_specs _ _ _ Hco (cn_index c))) as Hb.
  pose proof (issued_on_le (cn_index c) (calls e)) as Hi. rewrite (co_sequences _ _ _ Hco) in Hi.
  unfold len in Hi at 2. rewrite length_seqZ in Hi. pose proof (co_issued _ _ _ Hco). pose proof (eo_memory _ Hcfg). lia.
Qed.

(** ** Projections of a longer log *)

Lemma issued_on_app i l k : issued_on i (l ++ k) = issued_on i l ++ issued_on i k.
Proof. apply omap_app. Qed.
Lemma completed_on_app i l k : completed_on i (l ++ k) = completed_on i l ++ completed_on i k.
Proof. apply omap_app. Qed.
Lemma sent_on_app i l k : sent_on i (l ++ k) = sent_on i l ++ sent_on i k.
Proof. unfold sent_on. by rewrite omap_app, concat_app. Qed.
Lemma sequences_app l k : sequences (l ++ k) = sequences l ++ sequences k.
Proof. apply omap_app. Qed.
Lemma completions_app l k : completions (l ++ k) = completions l ++ completions k.
Proof. apply omap_app. Qed.

Lemma eqb_refl_if {A} i (x y : A) : (if i =? i then x else y) = x.
Proof. by rewrite Z.eqb_refl. Qed.

Lemma outstanding_emplace id p c : cn_pending c !! id = None ->
  outstanding (set_cn_pending (emplace id p (cn_pending c)) c) ≡ₚ outstanding c ++ [(id, pd_spec p)].
Proof.
  intros H. unfold outstanding. cbn [cn_pending set_cn_pending]. rewrite (proj1 (size_emplace id p _ H)).
  rewrite (map_to_list_insert _ _ _ H), fmap_cons. apply Permutation_cons_append.
Qed.

(** ** [fill_pipeline] *)

Variable generator_ : Z -> Z -> RequestSpec -> U -> bool * RequestSpec * U.
Variable on_complete_ : Completion -> U -> U.
Variable clock : nat -> Z.
Variable errno_text : Z -> bytes.
Hypothesis generator_ok : forall i seq u, (generator_ i seq default_spec u).1.1 = true ->
  spec_ok (generator_ i seq default_spec u).1.2.

(** A request is issued. *)
Lemma inv_issue others c e spec started u n : inv others c e -> spec_ok spec ->
  pending_size c < ec_pipeline_depth (config_ e) -> issued_ e < ec_requests (config_ e) ->
  let id := next_request_id_ e in
  let c' := set_cn_pending (emplace id (mkPending spec started) (cn_pending c))
              (set_cn_output (serialize_request_into (mkRequest (sp_opcode spec) id (sp_key spec) (sp_value spec)) (cn_output c)) c) in
  let e' := counting count_sent (with_issued (u64 (issued_ e + 1)) (with_ticks n (with_next (u64 (id + 1))
              (call (KGenerate (cn_index c) (issued_ e) spec) (with_captured u e))))) in
  inv others c' e' /\ evolves c e c' e' /\ pending_size c' = pending_size c + 1 /\ cn_input c' = cn_input c.
Proof.
  intros Hi Hs Hd Hr. pose proof (output_small _ _ _ Hi) as Hout. destruct Hi as [Hcfg Hc Hco].
  destruct Hco as [C1 C2 C3 C4 C5 C6 C7], Hc as [K1 K2 K3 K4 K5 K6]. pose proof (eo_memory _ Hcfg).
  assert (Hid : next_request_id_ e = issued_ e + 1) by (rewrite C3; apply u64_small; lia). rewrite Hid.
  assert (Hnone : cn_pending c !! (issued_ e + 1) = None).
  { destruct (cn_pending c !! (issued_ e + 1)) eqn:E; [|done]. destruct (K2 (issued_ e + 1)); [by eexists | lia]. }
  destruct (size_emplace _ (mkPending spec started) _ Hnone) as [Eem Sem].
  set (x := (issued_ e + 1, spec)). destruct (frame_eq x (cn_output c) Hs) as [Hfr Hfl].
  change (mkRequest _ _ _ _) with (spec_request x). rewrite Hfr.
  cbv zeta. set (c' := set_cn_pending _ _). set (e' := counting _ _).
  assert (Hsz : pending_size c' = pending_size c + 1).
  { unfold pending_size, c'. cbn [cn_pending set_cn_pending]. rewrite Sem. lia. }
  assert (Hcalls : calls e' = calls e ++ [KGenerate (cn_index c) (issued_ e) spec]) by done.
  assert (Hiss : issued_ e' = issued_ e + 1) by (apply u64_small; lia).
  assert (Hon : issued_on (cn_index c) (calls e') = issued_on (cn_index c) (calls e) ++ [x]).
  { rewrite Hcalls, issued_on_app. f_equal. cbn. by rewrite eqb_refl_if. }
  assert (Hout' : cn_output c' = cn_output c ++ serialize_request (spec_request x)) by done.
  assert (Hpos : cn_output_pos c' = cn_output_pos c) by done.
  split_and!; [split; [done|..] | | done | done].
  - split; change (cn_index c') with (cn_index c); change (config_ e') with (config_ e); rewrite ?Hon, ?Hiss, ?Hpos, ?Hout', ?frames_app, ?frames_one, ?len_app; try lia.
    + rewrite K1, Hcalls, completed_on_app, app_nil_r, <- app_assoc. f_equiv. symmetry. exact (outstanding_emplace _ (mkPending spec started) c Hnone).
    + intros i. unfold c'. cbn [cn_pending set_cn_pending]. rewrite Eem, lookup_insert_is_Some'. intros [<-|Hp]; [lia|].
      destruct (K2 _ Hp). lia.
    + rewrite Hcalls, sent_on_app, app_nil_r, <- K3, <- app_assoc. f_equal. unfold unsent. rewrite Hpos, Hout'.
      apply drop_app_le. unfold len in *. lia.
  - split; rewrite ?Hiss, ?Hcalls, ?completions_app, ?sequences_app, ?app_nil_r.
    + cbn. lia.
    + cbn. rewrite C2. apply u64_small. lia.
    + done.
    + change (received (stats_ e')) with (received (stats_ e)). lia.
    + done.
    + rewrite C6. rewrite (seqZ_app 0 (issued_ e) 1) by lia. done.
    + intros i. rewrite issued_on_app. apply Forall_app. split; [done|]. cbn. destruct (_ =? i); [|done]. by apply Forall_singleton.
  - split; try done; [lia|]. eexists. split; [exact Hcalls|]. by apply Forall_singleton.
Qed.

(** The loop ends with the pipeline full or nothing left to issue. *)
Lemma fill_loop_ok others fuel c e : inv others c e -> ec_pipeline_depth (config_ e) - pending_size c <= Z.of_nat fuel ->
  exists c' e', fill_loop generator_ clock fuel c e = Some (c', e') /\ inv others c' e' /\ evolves c e c' e' /\
    filled c' e' /\ cn_input c' = cn_input c.
Proof.
  revert c e. induction fuel as [|fuel IH]; intros c e Hi Hf; cbn [fill_loop];
    (destruct (generator_exhausted_ e) eqn:Hex;
      [exists c, e; split_and!; [done | done | apply evolves_refl | by left | done]|]);
    (destruct (Z.ltb_spec (pending_size c) (ec_pipeline_depth (config_ e)));
      [|exists c, e; split_and!; [done | done | apply evolves_refl | by right; right | done]]);
    (destruct (Z.ltb_spec (issued_ e) (ec_requests (config_ e)));
      [|exists c, e; split_and!; [done | done | apply evolves_refl | by right; left | done]]); [lia|].
  cbn [orb negb]. pose proof (generator_ok (cn_index c) (issued_ e) (captured e)) as Hg.
  destruct (generator_ (cn_index c) (issued_ e) default_spec (captured e)) as [[more spec] u]. cbn [fst snd] in Hg.
  destruct more; cbn [negb].
  - destruct (inv_issue others c e spec (clock (ticks e)) u (S (ticks e)) Hi (Hg eq_refl)) as (Hi' & He & Hsz & Hin); [lia..|].
    destruct (IH _ _ Hi') as (c' & e' & E & Hi2 & He2 & Hf2 & Hin2); [rewrite Hsz; cbn; lia|].
    exists c', e'. split_and!; [exact E | done | by eapply evolves_trans | done | congruence].
  - exists c, (with_exhausted true (with_captured u e)). split_and!; [done | | | by left | done].
    + destruct Hi as [? ? []]. by split; [| |split].
    + split; try done. exists []. by rewrite app_nil_r.
Qed.

Lemma fill_pipeline_ok others c e : inv others c e ->
  exists c' e', fill_pipeline generator_ clock c e = Some (true, c', e') /\ inv others c' e' /\ evolves c e c' e' /\
    filled c' e' /\ cn_input c' = cn_input c.
Proof.
  intros Hi. destruct (fill_loop_ok others (Z.to_nat (ec_pipeline_depth (config_ e) - pending_size c)) c e Hi)
    as (c' & e' & E & H); [lia|]. exists c', e'. unfold fill_pipeline. by rewrite E.
Qed.

(** ** [on_writable] *)

(** epoll watches the connection for input, and for room exactly when there is
    something to send. *)
Definition watched (c : Conn) (e : Engine U) : Prop :=
  interest_on (cn_index c) (calls e) =
    Some (Z.lor (Z.lor EPOLLIN EPOLLRDHUP) (if bool_decide (unsent c = []) then 0 else EPOLLOUT)).

(** A step that changes neither the requests nor the counters. *)
Record writes (c : Conn) (e : Engine U) (c' : Conn) (e' : Engine U) : Prop := mkWrites {
  wr_pending : cn_pending c' = cn_pending c;
  wr_input : cn_input c' = cn_input c;
  wr_issued : issued_ e' = issued_ e;
  wr_stats : stats_ e' = stats_ e;
  wr_exhausted : generator_exhausted_ e' = generator_exhausted_ e;
}.

Lemma writes_trans c1 e1 c2 e2 c3 e3 : writes c1 e1 c2 e2 -> writes c2 e2 c3 e3 -> writes c1 e1 c3 e3.
Proof. intros [] []. split; congruence. Qed.

Lemma inv_interest others c e events : inv others c e -> inv others c (call (KInterest (cn_index c) events) e).
Proof.
  intros [Hcfg [] []]. split; [done|..]; split; cbn [calls call config_ stats_ issued_ next_request_id_];
    rewrite ?issued_on_app, ?completed_on_app, ?sent_on_app, ?completions_app, ?sequences_app, ?app_nil_r; try done.
  intros i. by rewrite issued_on_app, app_nil_r.
Qed.

Lemma evolves_call c e k : concerns (cn_index c) k -> evolves c e c (call k e).
Proof. intros H. split; try done. exists [k]. split; [done | by apply Forall_singleton]. Qed.

Lemma interest_last i l events : interest_on i (l ++ [KInterest i events]) = Some events.
Proof. unfold interest_on. rewrite omap_app. cbn. rewrite eqb_refl_if. apply last_snoc. Qed.

Lemma update_interest_ok others ctl c want e : inv others c e -> want = negb (bool_decide (unsent c = [])) ->
  let '(ok, e') := update_interest ctl c want e in
  inv others c e' /\ evolves c e c e' /\ writes c e c e' /\ (ok = true -> watched c e').
Proof.
  intros Hi ->. unfold update_interest. destruct ctl.
  - split_and!; [by apply inv_interest | by apply evolves_call | done|]. intros _. unfold watched. cbn [calls call].
    rewrite interest_last. by destruct (bool_decide _).
  - split_and!; [done | apply evolves_refl | done | done].
Qed.

Lemma inv_sent others c e n : inv others c e -> 0 < n <= len (cn_output c) - cn_output_pos c ->
  let c' := set_cn_output_pos (u64 (cn_output_pos c + n)) c in
  let e' := call (KSend (cn_index c) (take (Z.to_nat n) (unsent c))) e in
  inv others c' e' /\ evolves c e c' e' /\ writes c e c' e' /\ unsent c' = drop (Z.to_nat n) (unsent c).
Proof.
  intros Hi Hn. pose proof (output_small _ _ _ Hi) as Hout. destruct Hi as [Hcfg [K1 K2 K3 K4 K5 K6] [C1 C2 C3 C4 C5 C6 C7]].
  cbv zeta. rewrite u64_small by lia.
  assert (Hun : unsent (set_cn_output_pos (cn_output_pos c + n) c) = drop (Z.to_nat n) (unsent c)).
  { unfold unsent. cbn [cn_output cn_output_pos set_cn_output_pos]. rewrite drop_drop. f_equal. lia. }
  split_and!; try done.
  - split; [done|..]; split; rewrite ?Hun; cbn [calls call config_ stats_ issued_ next_request_id_ cn_output cn_output_pos
      cn_index cn_pending set_cn_output_pos]; rewrite ?issued_on_app, ?completed_on_app, ?sent_on_app, ?completions_app, ?sequences_app, ?app_nil_r;
      try done; [|lia|].
    + rewrite <- K3, <- app_assoc. f_equal. unfold sent_on. cbn. rewrite eqb_refl_if. cbn. rewrite app_nil_r. apply take_drop.
    + intros i. by rewrite issued_on_app, app_nil_r.
  - split; try done. eexists. split; [done | by apply Forall_singleton].
Qed.

(** Everything is sent: the buffer is emptied. *)
Lemma inv_flushed others c e : inv others c e -> len (cn_output c) <= cn_output_pos c ->
  let c' := set_cn_output_pos 0 (set_cn_output [] c) in inv others c' e /\ evolves c e c' e /\ writes c e c' e /\ unsent c' = [].
Proof.
  intros [Hcfg [K1 K2 K3 K4 K5 K6] Hco] Hge. split_and!; try done; [|split; try done; exists []; by rewrite app_nil_r].
  split; [done | | by destruct Hco]. split; try done.
  - etransitivity; [|exact K3]. unfold unsent. rewrite (drop_ge (cn_output c)) by (unfold len in *; lia). done.
  - cbn. apply len_nonneg.
Qed.

Definition wrote (others : Z) (c : Conn) (e : Engine U) (r : bool * Conn * Engine U) : Prop :=
  let '(ok, c', e') := r in
  inv others c' e' /\ evolves c e c' e' /\ writes c e c' e' /\ (ok = true -> watched c' e').

Lemma wrote_interest others ctl c e c1 e1 want : inv others c1 e1 -> evolves c e c1 e1 -> writes c e c1 e1 ->
  want = negb (bool_decide (unsent c1 = [])) ->
  wrote others c e (let '(ok, e') := update_interest ctl c1 want e1 in (ok, c1, e')).
Proof.
  intros Hi He Hw Hwant. pose proof (update_interest_ok others ctl c1 want e1 Hi Hwant) as Hu.
  destruct (update_interest ctl c1 want e1) as [ok e']. destruct Hu as (H1 & H2 & H3 & H4).
  split_and!; [done | by eapply evolves_trans | by eapply writes_trans | done].
Qed.

Lemma wrote_false others c e c1 e1 : inv others c1 e1 -> evolves c e c1 e1 -> writes c e c1 e1 -> wrote others c e (false, c1, e1).
Proof. intros ???. unfold wrote. by split_and!. Qed.

Lemma writes_refl c e : writes c e c e.
Proof. done. Qed.

Lemma unsent_nonempty c : 0 <= cn_output_pos c < len (cn_output c) -> bool_decide (unsent c = []) = false.
Proof.
  intros H. apply bool_decide_eq_false. intros E. apply (f_equal length) in E. unfold unsent in E.
  rewrite length_drop in E. unfold len in H. cbn in E. lia.
Qed.

Lemma write_loop_ok others sends ctl c e : inv others c e -> socket_answers sends ->
  exists r, write_loop sends ctl c e = Some r /\ wrote others c e r.
Proof.
  intros Hi [Hk [pre Hpre]]. subst sends.
  enough (H : forall c1 e1, inv others c1 e1 -> evolves c e c1 e1 -> writes c e c1 e1 ->
    exists r, write_loop (pre ++ [fun _ => SendFailed EAGAIN]) ctl c1 e1 = Some r /\ wrote others c e r)
    by (apply H; [done | apply evolves_refl | apply writes_refl]).
  clear Hi. induction pre as [|send pre IH]; intros c1 e1 Hi He Hw; cbn [app write_loop] in *;
    (destruct (Z.ltb_spec (cn_output_pos c1) (len (cn_output c1))) as [Hlt|Hge]; cbn [negb];
     [|destruct (inv_flushed others c1 e1 Hi Hge) as (F1 & F2 & F3 & F4);
       pose proof (wrote_interest others ctl c e _ e1 false F1 (evolves_trans _ _ _ _ _ _ He F2) (writes_trans _ _ _ _ _ _ Hw F3)) as H;
       rewrite F4 in H; specialize (H eq_refl); destruct (update_interest ctl _ false e1); eexists; split; [reflexivity | exact H]]).
  - pose proof (ck_pos _ _ _ _ (iv_conn _ _ _ Hi)).
    pose proof (wrote_interest others ctl c e c1 e1 true Hi He Hw) as Hr. rewrite (unsent_nonempty c1) in Hr by lia.
    specialize (Hr eq_refl). change (EAGAIN =? EINTR) with false. rewrite Z.eqb_refl. cbn [orb]. destruct (update_interest ctl c1 true e1). eexists. split; [reflexivity | exact Hr].
  - apply Forall_cons in Hk as [Hs Hk]. specialize (IH Hk). pose proof (output_small _ _ _ Hi).
    pose proof (ck_pos _ _ _ _ (iv_conn _ _ _ Hi)). rewrite u64_small by lia.
    specialize (Hs (len (cn_output c1) - cn_output_pos c1)). destruct (send _) as [n|errno]; cbn [send_ok] in Hs.
    + destruct (Z.ltb_spec 0 n); [|eexists; split; [done | by apply wrote_false]].
      destruct (inv_sent others c1 e1 n Hi) as (S1 & S2 & S3 & _); [lia|].
      apply IH; [done | by eapply evolves_trans | by eapply writes_trans].
    + destruct (errno =? EINTR); [by apply IH|]. destruct ((errno =? EAGAIN) || (errno =? EWOULDBLOCK)).
      * pose proof (wrote_interest others ctl c e c1 e1 true Hi He Hw) as Hr. rewrite (unsent_nonempty c1) in Hr by lia.
        specialize (Hr eq_refl). destruct (update_interest ctl c1 true e1). eexists. split; [reflexivity | exact Hr].
      * eexists; split; [done | by apply wrote_false].
Qed.

(** A connection between two events: watched, its pipeline full, and less than
    a frame in its input. *)
Definition ready (c : Conn) (e : Engine U) : Prop := watched c e /\ filled c e /\ len (cn_input c) < kMaxFrameBytes.

Definition handled (others : Z) (c : Conn) (e : Engine U) (r : bool * Conn * Engine U) : Prop :=
  let '(ok, c', e') := r in
  inv others c' e' /\ evolves c e c' e' /\ (ok = true -> ready c' e').

Lemma handled_trans others c e c1 e1 r : evolves c e c1 e1 -> handled others c1 e1 r -> handled others c e r.
Proof. intros He. destruct r as [[ok c'] e']. intros (H1 & H2 & H3). split_and!; [done | by eapply evolves_trans | done]. Qed.

Lemma on_writable_ok others io c e : inv others c e -> socket_answers (wi_sends io) -> len (cn_input c) < kMaxFrameBytes ->
  exists r, on_writable generator_ clock io c e = Some r /\ handled others c e r.
Proof.
  intros Hi Hs Hl. destruct (fill_pipeline_ok others c e Hi) as (c1 & e1 & E & Hi1 & He1 & Hf & Hin).
  destruct (write_loop_ok others _ (wi_ctl io) c1 e1 Hi1 Hs) as ([[ok c2] e2] & E2 & Hi2 & He2 & Hw & Hok).
  exists (ok, c2, e2). unfold on_writable. rewrite E. cbn [mbind option_bind]. split; [done|].
  split_and!; [done | by eapply evolves_trans|]. intros H. split_and!; [auto | | by rewrite (wr_input _ _ _ _ Hw), Hin].
  unfold filled, pending_size in *. by rewrite (wr_pending _ _ _ _ Hw), (wr_issued _ _ _ _ Hw), (wr_exhausted _ _ _ _ Hw), (ev_config _ _ _ _ He2).
Qed.

(** ** [on_readable] *)

Lemma outstanding_delete id p c : cn_pending c !! id = Some p ->
  outstanding c ≡ₚ (id, pd_spec p) :: outstanding (set_cn_pending (base.delete id (cn_pending c)) c).
Proof.
  intros H. unfold outstanding. cbn [cn_pending set_cn_pending].
  rewrite <- (map_to_list_delete _ _ _ H). done.
Qed.

(** A response is accepted. *)
Lemma inv_complete others c e p response latency u n : inv others c e ->
  cn_pending c !! rs_request_id response = Some p -> rs_opcode response = sp_opcode (pd_spec p) ->
  let c' := set_cn_pending (base.delete (rs_request_id response) (cn_pending c)) c in
  let e' := counting count_received (with_captured u
              (call (KComplete (mkCompletion (cn_index c) (pd_spec p) response latency)) (with_ticks n e))) in
  inv others c' e' /\ evolves c e c' e'.
Proof.
  intros [Hcfg [K1 K2 K3 K4 K5 K6] [C1 C2 C3 C4 C5 C6 C7]] Hp Hop. cbv zeta. set (c' := set_cn_pending _ _). set (e' := counting _ _).
  assert (Hcalls : calls e' = calls e ++ [KComplete (mkCompletion (cn_index c) (pd_spec p) response latency)]) by done.
  assert (Hsz : pending_size c = pending_size c' + 1).
  { unfold pending_size, c'. cbn [cn_pending set_cn_pending]. rewrite map_size_delete_Some by (by eexists).
    assert (base.size (cn_pending c) <> 0%nat) by (rewrite map_size_non_empty_iff; intros E; by rewrite E, lookup_empty in Hp). lia. }
  pose proof (eo_memory _ Hcfg). pose proof (len_nonneg (completions (calls e))). assert (0 <= pending_size c') by (unfold pending_size; lia).
  split; [split; [done|..]|].
  - split; change (cn_index c') with (cn_index c); change (config_ e') with (config_ e); rewrite ?Hcalls, ?issued_on_app, ?completed_on_app,
      ?sent_on_app, ?app_nil_r; try done; [| |lia].
    + rewrite K1, (outstanding_delete _ _ _ Hp). unfold completed_on at 3. cbn. rewrite eqb_refl_if. by rewrite <- app_assoc.
    + intros id. unfold c'. cbn [cn_pending set_cn_pending]. intros Hid. apply K2. destruct Hid as [q Hq].
      apply lookup_delete_Some in Hq as [_ Hq]. by eexists.
  - assert (Hrec : received (stats_ e') = received (stats_ e) + 1) by (apply u64_small; lia).
    split; rewrite ?Hrec, ?Hcalls, ?completions_app, ?sequences_app, ?app_nil_r; try done.
    + change (issued_ e') with (issued_ e). lia.
    + by rewrite len_app, C5.
    + intros i. rewrite issued_on_app, app_nil_r. apply C7.
  - split; try done. eexists. split; [exact Hcalls|]. by apply Forall_singleton.
Qed.

Lemma inv_protocol_failure others c e : inv others c e ->
  inv others c (counting count_protocol_failure e) /\ evolves c e c (counting count_protocol_failure e).
Proof.
  intros [Hcfg Hc []]. split; [by split; [| |split]|]. split; try done. exists []. by rewrite app_nil_r.
Qed.

(** The parser consumes at least a header per response, and never past the end. *)
Lemma parsed_complete view res r : deserialize_response view default_limits default_response = Some (res, r) ->
  pr_status res = ParseStatus.kComplete ->
  response_ok default_limits r = true /\ pr_consumed res = len (serialize_response r) /\
  exists rest, view = serialize_response r ++ rest.
Proof.
  intros E Hs. destruct (deserialize_response_outcome view default_limits default_response) as (res' & r' & E' & Hc & _).
  rewrite E in E'. injection E' as <- <-. rewrite (Hc Hs) in E. by apply deserialize_response_complete in E.
Qed.

Lemma parse_loop_ok others fuel consumed c e : inv others c e -> len (cn_input c) < 2 ^ 64 ->
  0 <= consumed <= len (cn_input c) -> len (cn_input c) - consumed <= Z.of_nat fuel ->
  exists ok n c' e', parse_loop on_complete_ clock fuel consumed c e = Some (ok, n, c', e') /\
    inv others c' e' /\ evolves c e c' e' /\ cn_input c' = cn_input c /\
    (ok = true -> 0 <= n /\ len (cn_input c) - n < kMaxFrameBytes).
Proof.
  revert consumed c e. induction fuel as [|fuel IH]; intros consumed c e Hi Hm Hn Hf; cbn [parse_loop];
    (destruct (Z.ltb_spec consumed (len (cn_input c))); cbn [negb];
     [|eexists _, _, _, _; split; [done|]; split_and!; [done | apply evolves_refl | done | unfold kMaxFrameBytes, kHeaderSize, kMaxKeyBytes, kMaxValueBytes; lia]]); [lia|].
  set (view := drop _ _). destruct (deserialize_response view default_limits default_response) as [[res r]|] eqn:E;
    [|destruct (deserialize_response_outcome view default_limits default_response) as (? & ? & E' & _); by rewrite E in E'].
  cbn [mbind option_bind]. destruct (inv_protocol_failure others c e Hi) as [Hpi Hpe].
  destruct (pr_status res) eqn:Hst.
  - destruct (parsed_complete _ _ _ E Hst) as (Hok & -> & rest & Hv).
    pose proof (response_frame_lens _ _ rest Hok) as Hl. rewrite <- Hv in Hl.
    pose proof (response_frame_lens _ _ [] Hok) as Hl0. rewrite app_nil_r, len_nil in Hl0.
    assert (Hvl : len view = len (cn_input c) - consumed) by (unfold view, len in *; rewrite length_drop; lia).
    pose proof (len_nonneg rest). pose proof (len_nonneg (rs_value r)). unfold kHeaderSize in *. rewrite u64_small by lia.
    destruct (cn_pending c !! rs_request_id r) as [p|] eqn:Hp; [|by eexists _, _, _, _].
    destruct (bool_decide _) eqn:Hop; cbn [negb]; [|by eexists _, _, _, _]. apply bool_decide_eq_true in Hop.
    cbn [clock_now fst snd].
    set (latency := u64 _). set (u := on_complete_ _ _).
    destruct (inv_complete others c e p r latency u (S (ticks e)) Hi Hp Hop) as [Hi1 He1].
    destruct (IH (consumed + len (serialize_response r)) _ _ Hi1) as (ok & n & c' & e' & E1 & Hi2 & He2 & Hin & Hend); [done | cbn [cn_input set_cn_pending]; lia..|].
    exists ok, n, c', e'. split; [exact E1|]. split_and!; [done | by eapply evolves_trans | exact Hin | exact Hend].
  - eexists _, _, _, _. split; [done|]. split_and!; [done | apply evolves_refl | done|]. intros _. split; [lia|].
    apply deserialize_response_short in E; [|done..]. unfold view, len in E. rewrite length_drop in E.
    unfold kMaxFrameBytes, kHeaderSize, kMaxKeyBytes, kMaxValueBytes, len in *. cbn in E. lia.
  - by eexists _, _, _, _.
Qed.

(** A socket that does not block, read until it would. *)
Definition recv_answers (recvs : list RecvResult) : Prop := exists pre, recvs = pre ++ [RecvFailed EAGAIN].

Definition recv_total (recvs : list RecvResult) : bytes :=
  concat (omap (fun r => match r with Received d => Some d | RecvFailed _ => None end) recvs).

Lemma recv_loop_ok recvs c : recv_answers recvs ->
  exists ok v, recv_loop recvs c = Some (ok, set_cn_input v c) /\ len v <= len (cn_input c) + len (recv_total recvs).
Proof.
  intros [pre ->]. revert c. induction pre as [|[d|errno] pre IH]; intros c; cbn [app recv_loop].
  - exists true, (cn_input c). split; [by destruct c | pose proof (len_nonneg (recv_total [RecvFailed EAGAIN])); lia].
  - change (recv_total (Received d :: ?l)) with (d ++ recv_total l). rewrite len_app.
    pose proof (len_nonneg (recv_total (pre ++ [RecvFailed EAGAIN]))).
    destruct (Z.ltb_spec 0 (len d)).
    + destruct (IH (set_cn_input (cn_input c ++ d) c)) as (ok & v & -> & Hv). exists ok, v. split; [done|].
      cbn [cn_input set_cn_input] in Hv. rewrite len_app in Hv. lia.
    + exists false, (cn_input c). split; [by destruct c | pose proof (len_nonneg d); lia].
  - change (recv_total (RecvFailed errno :: ?l)) with (recv_total l).
    pose proof (len_nonneg (recv_total (pre ++ [RecvFailed EAGAIN]))).
    destruct (errno =? EINTR); [apply IH|]. destruct (_ || _); eexists _, (cn_input c); (split; [by destruct c | lia]).
Qed.

Lemma inv_input others c e v : inv others c e -> inv others (set_cn_input v c) e /\ evolves c e (set_cn_input v c) e.
Proof. intros [? [] []]. split; [by split; [|split|split]|]. split; try done. exists []. by rewrite app_nil_r. Qed.

Lemma on_readable_ok others recvs io c e : inv others c e -> recv_answers recvs -> socket_answers (wi_sends io) ->
  len (cn_input c) + len (recv_total recvs) < 2 ^ 64 ->
  exists r, on_readable generator_ on_complete_ clock recvs io c e = Some r /\ handled others c e r.
Proof.
  intros Hi Hr Hs Hm. unfold on_readable. destruct (recv_loop_ok recvs c Hr) as (more & v & -> & Hv). cbn [mbind option_bind].
  destruct (inv_input others c e v Hi) as [Hi1 He1]. destruct more; cbn [negb]; [|by eexists].
  destruct (parse_loop_ok others (length v) 0 (set_cn_input v c) e Hi1) as (more & n & c2 & e2 & E & Hi2 & He2 & Hin & Hend);
    [cbn; lia | cbn; pose proof (len_nonneg v); lia | cbn; unfold len; lia|].
  change (cn_input (set_cn_input v c)) with v. rewrite E. cbn [mbind option_bind].
  pose proof (evolves_trans _ _ _ _ _ _ He1 He2) as He. destruct more; cbn [negb]; [|by eexists].
  set (c3 := if negb (n =? 0) then _ else c2).
  assert (H3 : inv others c3 e2 /\ evolves c e c3 e2).
  { unfold c3. destruct (n =? 0); [done|]. destruct (inv_input others c2 e2 (drop (Z.to_nat n) (cn_input c2)) Hi2).
    split; [done | by eapply evolves_trans]. }
  destruct H3 as [Hi3 He3]. destruct (Hend eq_refl) as [Hn0 Hn].
  assert (Hl3 : len (cn_input c3) < kMaxFrameBytes).
  { unfold c3. change (cn_input (set_cn_input v c)) with v in *. destruct (Z.eqb_spec n 0) as [->|]; cbn [negb cn_input set_cn_input]; rewrite Hin; [lia|].
    unfold len, kMaxFrameBytes, kHeaderSize, kMaxKeyBytes, kMaxValueBytes in *. rewrite length_drop. lia. }
  destruct (fill_pipeline_ok others c3 e2 Hi3) as (c4 & e4 & -> & Hi4 & He4 & _ & Hin4). cbn [mbind option_bind].
  destruct (on_writable_ok others io c4 e4 Hi4 Hs) as (r & -> & Hh); [by rewrite Hin4|]. exists r. split; [done|].
  eapply handled_trans; [|exact Hh]. by eapply evolves_trans.
Qed.

(** ** All connections *)

Definition total (cs : list Conn) : Z := foldr (fun c n => pending_size c + n) 0 cs.

Lemma total_cons c cs : total (c :: cs) = pending_size c + total cs.
Proof. done. Qed.

Lemma total_insert cs j c c' : cs !! j = Some c -> total (<[j := c']> cs) = total cs - pending_size c + pending_size c'.
Proof.
  revert j. induction cs as [|d cs IH]; intros [|j] H; [done..| |]; cbn in H.
  - injection H as ->. change (<[0%nat := c']> (c :: cs)) with (c' :: cs). rewrite !total_cons. lia.
  - change (<[S j := c']> (d :: cs)) with (d :: <[j := c']> cs). rewrite !total_cons, (IH _ H). lia.
Qed.

Lemma total_lookup cs j c : cs !! j = Some c -> 0 <= pending_size c <= total cs.
Proof.
  assert (H0 : forall cs, 0 <= total cs) by (intros l; induction l; rewrite ?total_cons; unfold pending_size in *; [done | lia]).
  revert j. induction cs as [|d cs IH]; intros [|j] H; [done..| |]; cbn in H.
  - injection H as ->. specialize (H0 cs). rewrite total_cons. unfold pending_size in *. lia.
  - specialize (IH _ H). rewrite total_cons. unfold pending_size in *. lia.
Qed.

Definition live_count (cs : list Conn) : Z := len (filter (fun c => cn_live c = true) cs).

Definition held (e : Engine U) : list Z :=
  filter (fun fd => 0 <= fd) (epoll_fd_ e :: (cn_fd <$> conns_ e)).

(** A request or a completion in the log is that of a connection of the engine. *)
Definition known (indices : list Z) (k : EngineCall) : Prop :=
  match k with
  | KGenerate i _ _ => i ∈ indices
  | KComplete x => cp_connection_index x ∈ indices
  | _ => True
  end.

Record engine_inv (e : Engine U) : Prop := mkEngineInv {
  gi_config : config_ok (config_ e);
  gi_index : forall j c, conns_ e !! j = Some c -> cn_index c = u64 (ec_first_connection (config_ e) + Z.of_nat j);
  gi_length : len (conns_ e) <= ec_connections (config_ e);
  gi_conns : forall j c, conns_ e !! j = Some c -> conn_ok (config_ e) (calls e) (issued_ e) c;
  gi_core : core_ok (total (conns_ e)) (new_conn 0 0) e;
  gi_live : live_connections_ e = live_count (conns_ e);
  gi_fds : forall j c, conns_ e !! j = Some c -> cn_live c = true <-> 0 <= cn_fd c;
  gi_released : omap open_call (calls e) ≡ₚ omap close_call (calls e) ++ held e;
  gi_matched : Forall (fun k => rs_opcode (cp_response k) = sp_opcode (cp_request k)) (completions (calls e));
  gi_known : Forall (known (cn_index <$> conns_ e)) (calls e);
}.

(** A list of numbers and the lists of connections that agree on them. *)
Lemma live_count_cons c cs : live_count (c :: cs) = (if cn_live c then 1 else 0) + live_count cs.
Proof. unfold live_count. rewrite filter_cons. destruct (cn_live c); [rewrite decide_True by done; apply len_cons | by rewrite decide_False]. Qed.

Lemma live_count_insert cs j c c' : cs !! j = Some c ->
  live_count (<[j := c']> cs) = live_count cs - (if cn_live c then 1 else 0) + (if cn_live c' then 1 else 0).
Proof.
  revert j. induction cs as [|d cs IH]; intros [|j] H; [done..| |]; cbn in H.
  - injection H as ->. change (<[0%nat := c']> (c :: cs)) with (c' :: cs). rewrite !live_count_cons. lia.
  - change (<[S j := c']> (d :: cs)) with (d :: <[j := c']> cs). rewrite !live_count_cons, (IH _ H). lia.
Qed.

Lemma live_count_bound cs j c : cs !! j = Some c -> cn_live c = true -> 1 <= live_count cs <= len cs.
Proof.
  intros H Hl. split.
  - unfold live_count. assert (Hin : c ∈ filter (fun c => cn_live c = true) cs) by (apply list_elem_of_filter; split; [done | by eapply list_elem_of_lookup_2]).
    destruct (filter _ cs); [by apply elem_of_nil in Hin | rewrite len_cons; pose proof (len_nonneg l); lia].
  - unfold live_count, len. apply Nat2Z.inj_le, length_filter.
Qed.

Lemma held_drop (fds : list Z) j fd : fds !! j = Some fd -> 0 <= fd ->
  filter (fun fd => 0 <= fd) fds ≡ₚ fd :: filter (fun fd => 0 <= fd) (<[j := -1]> fds).
Proof.
  revert j. induction fds as [|d fds IH]; intros [|j] H Hfd; [done..| |]; cbn in H.
  - injection H as ->. change (<[0%nat := -1]> (fd :: fds)) with (-1 :: fds). rewrite !filter_cons.
    rewrite decide_True by done. rewrite decide_False by lia. done.
  - change (<[S j := -1]> (d :: fds)) with (d :: <[j := -1]> fds). rewrite !filter_cons. specialize (IH _ H Hfd).
    case_decide; [rewrite IH; apply Permutation_swap | done].
Qed.

(** What the handlers of one connection log is nothing to the others. *)
Lemma concerns_other i i' l : Forall (concerns i) l -> i' <> i ->
  issued_on i' l = [] /\ completed_on i' l = [] /\ sent_on i' l = [] /\ interest_on i' l = None.
Proof.
  intros H Hne. induction H as [|k l Hk _ IH]; [done|]. destruct IH as (I1 & I2 & I3 & I4).
  assert (Hi : (i =? i') = false) by (apply Z.eqb_neq; congruence).
  unfold issued_on, completed_on, sent_on, interest_on in *.
  destruct k; cbn in Hk |- *; try done; subst; try (destruct Hk as [Hk _]; rewrite Hk); by rewrite Hi.
Qed.

Lemma concerns_fds i l : Forall (concerns i) l -> omap open_call l = [] /\ omap close_call l = [] /\
  Forall (fun k => rs_opcode (cp_response k) = sp_opcode (cp_request k)) (completions l).
Proof.
  induction 1 as [|k l Hk _ (I1 & I2 & I3)]; [done|]. unfold completions in *.
  destruct k; cbn in Hk |- *; try done. split_and!; try done. apply Forall_cons. by destruct Hk.
Qed.

Lemma concerns_known i indices k : concerns i k -> i ∈ indices -> known indices k.
Proof. destruct k; cbn; try done; [by intros -> | by intros [-> _]]. Qed.

Lemma conn_ok_other cfg l k n n' c i : conn_ok cfg l n c -> Forall (concerns i) k -> cn_index c <> i -> n <= n' ->
  conn_ok cfg (l ++ k) n' c.
Proof.
  intros [] Hk Hne Hn. destruct (concerns_other _ _ _ Hk Hne) as (E1 & E2 & E3 & _).
  split; rewrite ?issued_on_app, ?completed_on_app, ?sent_on_app, ?E1, ?E2, ?E3, ?app_nil_r; try done.
  intros id Hid. specialize (ck_ids0 id Hid). lia.
Qed.

Lemma index_inj first j j' : Z.of_nat j < 2 ^ 64 -> Z.of_nat j' < 2 ^ 64 ->
  u64 (first + Z.of_nat j) = u64 (first + Z.of_nat j') -> j = j'.
Proof.
  intros Hj Hj' E. assert (H : u64 (u64 (first + Z.of_nat j) - first) = u64 (u64 (first + Z.of_nat j') - first)) by (by rewrite E).
  rewrite !u64_sub_l in H. replace (first + Z.of_nat j - first) with (Z.of_nat j) in H by lia.
  replace (first + Z.of_nat j' - first) with (Z.of_nat j') in H by lia. rewrite !u64_small in H by lia. lia.
Qed.

Lemma engine_index_ne e j j' c c' : engine_inv e -> conns_ e !! j = Some c -> conns_ e !! j' = Some c' -> j' <> j ->
  cn_index c' <> cn_index c.
Proof.
  intros Hi Hc Hc' Hne E. apply Hne. rewrite (gi_index _ Hi _ _ Hc), (gi_index _ Hi _ _ Hc') in E.
  pose proof (gi_length _ Hi). pose proof (eo_connections _ (gi_config _ Hi)).
  apply lookup_lt_Some in Hc, Hc'. unfold len in *. apply index_inj in E; [done | lia..].
Qed.

Lemma inv_enter e j c : engine_inv e -> conns_ e !! j = Some c -> inv (total (conns_ e) - pending_size c) c e.
Proof.
  intros Hi Hc. split; [apply Hi | by eapply gi_conns|]. destruct (gi_core _ Hi) as [C1 C2 C3 C4 C5 C6 C7].
  pose proof (total_lookup _ _ _ Hc). split; try done. change (pending_size (new_conn 0 0)) with 0 in C4. lia.
Qed.

Lemma engine_inv_put e j c c' e' : engine_inv e -> conns_ e !! j = Some c ->
  inv (total (conns_ e) - pending_size c) c' e' -> evolves c e c' e' ->
  engine_inv (with_conns (<[j := c']> (conns_ e')) e').
Proof.
  intros Hi Hc [Hcfg Hok [C1 C2 C3 C4 C5 C6 C7]] [E1 E2 E3 E4 E5 E6 E7 E8 E9 (l & El & Hl)]. rewrite E5.
  destruct (concerns_fds _ _ Hl) as (Fo & Fc & Fm).
  assert (Hj : forall k d, <[j := c']> (conns_ e) !! k = Some d ->
    (k = j /\ d = c') \/ (k <> j /\ conns_ e !! k = Some d)).
  { intros k d Hk. apply list_lookup_insert_Some in Hk as [(-> & <- & _)|[Hne Hk]]; [by left | by right]. }
  split; cbn [config_ conns_ calls issued_ stats_ live_connections_ epoll_fd_ next_request_id_ with_conns]; try done.
  - intros k d [[-> ->]|[_ Hk]]%Hj; rewrite ?E1, E4; by eapply gi_index.
  - unfold len. rewrite length_insert, E4. apply Hi.
  - intros k d [[-> ->]|[Hne Hk]]%Hj; [done|]. rewrite E4, El.
    eapply conn_ok_other; [by eapply gi_conns | done | by eapply engine_index_ne | done].
  - pose proof (total_lookup _ _ _ Hc). split; cbn [issued_ stats_ calls config_ next_request_id_ with_conns]; try done.
    rewrite (total_insert _ _ _ _ Hc). change (pending_size (new_conn 0 0)) with 0. unfold pending_size in *. lia.
  - rewrite (live_count_insert _ _ _ _ Hc), E7, (gi_live _ Hi), E3. lia.
  - intros k d [[-> ->]|[_ Hk]]%Hj; rewrite ?E2, ?E3; by eapply gi_fds.
  - rewrite El, !omap_app, Fo, Fc, !app_nil_r, (gi_released _ Hi). unfold held. cbn [epoll_fd_ conns_ with_conns].
    rewrite E6, list_fmap_insert, E2, list_insert_id; [done|]. by rewrite list_lookup_fmap, Hc.
  - rewrite El, completions_app. apply Forall_app. split; [apply Hi | done].
  - rewrite list_fmap_insert, E1, list_insert_id by (by rewrite list_lookup_fmap, Hc). rewrite El. apply Forall_app. split; [apply Hi|].
    eapply Forall_impl; [exact Hl|]. intros k Hk. eapply concerns_known; [exact Hk | by eapply list_elem_of_lookup_2, list_lookup_fmap_Some_2].
Qed.

Lemma drop_calls_quiet i fd j l (k := [KForget j; KClose fd]) :
  issued_on i (l ++ k) = issued_on i l /\ completed_on i (l ++ k) = completed_on i l /\ sent_on i (l ++ k) = sent_on i l /\
  interest_on i (l ++ k) = interest_on i l /\ sequences (l ++ k) = sequences l /\ completions (l ++ k) = completions l.
Proof.
  unfold interest_on. rewrite issued_on_app, completed_on_app, sent_on_app, sequences_app, completions_app, omap_app.
  cbn. by rewrite !app_nil_r.
Qed.

Lemma engine_inv_drop e j c : engine_inv e -> conns_ e !! j = Some c ->
  let '(c', e') := drop_conn c e in engine_inv (with_conns (<[j := c']> (conns_ e')) e').
Proof.
  intros Hi Hc. unfold drop_conn. destruct (cn_live c) eqn:Hl; cbn [negb].
  2:{ rewrite list_insert_id by done. destruct e. exact Hi. }
  destruct Hi as [G1 G2 G3 G4 [C1 C2 C3 C4 C5 C6 C7] G6 G7 G8 G9 G10].
  assert (Hj : forall k d, <[j := set_cn_fd (-1) (set_cn_live false c)]> (conns_ e) !! k = Some d ->
    (k = j /\ d = set_cn_fd (-1) (set_cn_live false c)) \/ (k <> j /\ conns_ e !! k = Some d)).
  { intros k d Hk. apply list_lookup_insert_Some in Hk as [(-> & <- & _)|[Hne Hk]]; [by left | by right]. }
  pose proof (fun i => drop_calls_quiet i (cn_fd c) (cn_index c) (calls e)) as Hq.
  split; cbn [config_ conns_ calls issued_ stats_ live_connections_ epoll_fd_ next_request_id_ with_conns counting with_stats with_live call
    cn_index cn_fd set_cn_live]; rewrite <- ?app_assoc; cbn [app]; try done.
  - intros k d [[-> ->]|[_ Hk]]%Hj; [exact (G2 _ _ Hc) | exact (G2 _ _ Hk)].
  - unfold len. rewrite length_insert. apply G3.
  - intros k d Hk. assert (Hd : conn_ok (config_ e) (calls e) (issued_ e) d).
    { destruct (Hj k d Hk) as [[-> ->]|[_ Hk']]; [|by eapply G4]. by destruct (G4 _ _ Hc). }
    destruct Hd. destruct (Hq (cn_index d)) as (Q1 & Q2 & Q3 & _). split; by rewrite ?Q1, ?Q2, ?Q3.
  - split; cbn [config_ conns_ calls issued_ stats_ live_connections_ epoll_fd_ next_request_id_ with_conns counting with_stats with_live call
      received sent count_io_failure]; rewrite <- ?app_assoc; cbn [app]; destruct (Hq 0) as (_ & _ & _ & _ & Q5 & Q6); rewrite ?Q5, ?Q6; try done.
    + rewrite (total_insert _ _ _ _ Hc). pose proof (total_lookup _ _ _ Hc).
      change (pending_size (set_cn_fd (-1) (set_cn_live false c))) with (pending_size c). lia.
    + intros i. destruct (Hq i) as (Q1 & _). rewrite Q1. apply C7.
  - rewrite (live_count_insert _ _ _ _ Hc), G6, Hl. cbn [cn_live set_cn_fd set_cn_live].
    pose proof (live_count_bound _ _ _ Hc Hl). pose proof (eo_connections _ G1). rewrite u64_small; lia.
  - intros k d [[-> ->]|[_ Hk]]%Hj; [by cbn; split; [|lia] | by eapply G7].
  - rewrite !omap_app, app_nil_r, G8. unfold held. cbn [epoll_fd_ conns_ with_conns counting with_stats with_live call omap list_omap open_call close_call].
    rewrite list_fmap_insert, <- app_assoc. f_equiv. cbn [cn_fd set_cn_fd app].
    apply (held_drop (epoll_fd_ e :: (cn_fd <$> conns_ e)) (S j)); [|by apply (G7 _ _ Hc)].
    change ((cn_fd <$> conns_ e) !! j = Some (cn_fd c)). by rewrite list_lookup_fmap, Hc.
  - destruct (Hq 0) as (_ & _ & _ & _ & _ & Q6). by rewrite Q6.
  - rewrite list_fmap_insert. cbn [cn_index set_cn_fd set_cn_live]. rewrite list_insert_id by (by rewrite list_lookup_fmap, Hc).
    apply Forall_app. split; [done|]. by repeat constructor.
Qed.

Lemma put_back_inv e j c r : engine_inv e -> conns_ e !! j = Some c ->
  handled (total (conns_ e) - pending_size c) c e r -> engine_inv (put_back j r).
Proof.
  intros Hi Hc. destruct r as [[ok c'] e']. intros (Hi' & He & _). pose proof (engine_inv_put _ _ _ _ _ Hi Hc Hi' He) as H.
  unfold put_back. destruct ok; [done|]. assert (Hj : <[j := c']> (conns_ e') !! j = Some c').
  { rewrite (ev_conns _ _ _ _ He). apply list_lookup_insert_eq. by eapply lookup_lt_Some. }
  pose proof (engine_inv_drop _ _ _ H Hj) as Hd. unfold drop_conn in *. destruct (cn_live c'); cbn [negb] in *.
  - cbn [conns_ with_conns counting with_stats with_live call] in *. rewrite list_insert_insert_eq in Hd. exact Hd.
  - cbn [conns_ with_conns] in *. rewrite list_insert_insert_eq in Hd. exact Hd.
Qed.

(** ** Between two events *)

Definition settled (c : Conn) (e : Engine U) : Prop := cn_live c = true -> ready c e.

(** The first [n] connections. *)
Definition settled_below (n : nat) (e : Engine U) : Prop :=
  forall j c, (j < n)%nat -> conns_ e !! j = Some c -> settled c e.

Lemma settled_other c e c1 e1 d : settled d e -> evolves c e c1 e1 -> cn_index d <> cn_index c -> settled d e1.
Proof.
  intros Hs [E1 E2 E3 E4 E5 E6 E7 E8 E9 (l & El & Hl)] Hne Hd. destruct (Hs Hd) as (Hw & Hf & Hn). split_and!; [| |done].
  - unfold watched, interest_on in *. destruct (concerns_other _ _ _ Hl Hne) as (_ & _ & _ & Hno). unfold interest_on in Hno.
    rewrite El, omap_app. apply last_None in Hno. by rewrite Hno, app_nil_r.
  - unfold filled in *. rewrite E4. destruct Hf as [?|[?|?]]; [left; auto | right; left; lia | by right; right].
Qed.

Lemma put_back_fields j (r : bool * Conn * Engine U) : let '(ok, c', e') := r in
  exists d l, conns_ (put_back j r) = <[j := d]> (conns_ e') /\ (ok = true -> d = c' /\ l = []) /\ (ok = false -> cn_live d = false) /\
    calls (put_back j r) = calls e' ++ l /\ (forall i, interest_on i (calls e' ++ l) = interest_on i (calls e')) /\
    generator_exhausted_ (put_back j r) = generator_exhausted_ e' /\ issued_ (put_back j r) = issued_ e' /\ config_ (put_back j r) = config_ e'.
Proof.
  destruct r as [[ok c'] e']. unfold put_back. destruct ok.
  - exists c', []. by rewrite app_nil_r.
  - unfold drop_conn. destruct (cn_live c') eqn:Hl; cbn [negb].
    + eexists _, [KForget (cn_index c'); KClose (cn_fd c')]. split_and!; try done; [cbn; by rewrite <- app_assoc|].
      intros i. apply drop_calls_quiet.
    + exists c', []. by rewrite app_nil_r.
Qed.

Lemma put_back_settled n e j c r others : engine_inv e -> settled_below n e -> conns_ e !! j = Some c -> handled others c e r ->
  settled_below n (put_back j r) /\ (j = n -> settled_below (S n) (put_back j r)).
Proof.
  intros Hi Hs Hc. destruct r as [[ok c'] e']. intros (_ & He & Hok).
  destruct (put_back_fields j (ok, c', e')) as (d & l & Ed & Ht & Hf & El & Ei & Ex & Eis & Ec).
  assert (H : forall k x, conns_ (put_back j (ok, c', e')) !! k = Some x -> (k < n)%nat \/ k = j -> settled x (put_back j (ok, c', e'))).
  { intros k x Hx Hk Hlive. rewrite Ed in Hx.
    assert (Hst : settled x e' -> ready x (put_back j (ok, c', e'))).
    { intros Hst. unfold ready, watched, filled. rewrite El, Ei, Ex, Eis, Ec. by apply Hst. }
    apply list_lookup_insert_Some in Hx as [(-> & <- & _)|[Hne Hx]].
    - destruct ok; [|rewrite Hf in Hlive; done]. destruct (Ht eq_refl) as [-> _]. apply Hst. intros _. by apply Hok.
    - rewrite (ev_conns _ _ _ _ He) in Hx. destruct Hk as [Hk|Hk]; [|congruence].
      apply Hst. eapply settled_other; [by eapply Hs | exact He | by eapply engine_index_ne]. }
  split; [|intros ->]; intros k x Hk Hx; eapply H; eauto. destruct (decide (k = n)); [by right | left; lia].
Qed.

Lemma put_back_length e j c others r : handled others c e r ->
  length (conns_ (put_back j r)) = length (conns_ e) /\ config_ (put_back j r) = config_ e.
Proof.
  destruct r as [[ok c'] e']. intros (_ & He & _).
  destruct (put_back_fields j (ok, c', e')) as (d & l & -> & _ & _ & _ & _ & _ & _ & ->).
  by rewrite length_insert, (ev_conns _ _ _ _ He), (ev_config _ _ _ _ He).
Qed.

(** ** The event loop *)

(** The state in which the loop waits. *)
Record waiting (e : Engine U) : Prop := mkWaiting {
  wa_inv : engine_inv e;
  wa_settled : settled_below (length (conns_ e)) e;
}.

Definition event_io_ok (io : EventIo) : Prop :=
  recv_answers (ei_recvs io) /\ len (recv_total (ei_recvs io)) < 2 ^ 63 /\
  socket_answers (wi_sends (ei_read io)) /\ socket_answers (wi_sends (ei_write io)).

Lemma handle_event_ok j flags io e : waiting e -> (j < length (conns_ e))%nat -> event_io_ok io ->
  exists e', handle_event generator_ on_complete_ clock j flags io e = Some e' /\ waiting e' /\
    length (conns_ e') = length (conns_ e) /\ config_ e' = config_ e.
Proof.
  intros [Hi Hs] Hj (Hr & Hm & Hs1 & Hs2). destruct (lookup_lt_is_Some_2 _ _ Hj) as [c Hc]. unfold handle_event. rewrite Hc.
  cbn [mbind option_bind]. destruct (cn_live c) eqn:Hl; cbn [negb]; [|by exists e].
  pose proof (inv_enter e j c Hi Hc) as Hin. pose proof (Hs j c Hj Hc Hl) as Hready.
  set (others := total (conns_ e) - pending_size c) in *.
  assert (H : forall r, handled others c e r ->
    waiting (put_back j r) /\ length (conns_ (put_back j r)) = length (conns_ e) /\ config_ (put_back j r) = config_ e).
  { intros r Hh. destruct (put_back_length e j c others r Hh) as [Hlen Hcfg]. split; [|done].
    split; [by eapply put_back_inv|]. rewrite Hlen. by eapply put_back_settled. }
  destruct (has_event flags _).
  { eexists. split; [done|]. apply H. split_and!; [done | apply evolves_refl | done]. }
  assert (H1 : exists r, (if has_event flags EPOLLIN then on_readable generator_ on_complete_ clock (ei_recvs io) (ei_read io) c e
    else Some (true, c, e)) = Some r /\ handled others c e r).
  { destruct (has_event flags EPOLLIN); [|eexists; split; [done|]; split_and!; [done | apply evolves_refl | done]].
    apply on_readable_ok; try done. destruct Hready as (_ & _ & Hlen). unfold kMaxFrameBytes, kHeaderSize, kMaxKeyBytes, kMaxValueBytes in Hlen. lia. }
  destruct H1 as ([[ok c1] e1] & -> & H1). cbn [mbind option_bind].
  destruct (ok && has_event flags EPOLLOUT) eqn:Ho; [|by eexists; split; [done | apply H]].
  apply andb_true_iff in Ho as [-> _]. destruct H1 as (Hi1 & He1 & Hr1). destruct (Hr1 eq_refl) as (_ & _ & Hlen).
  destruct (on_writable_ok others (ei_write io) c1 e1 Hi1 Hs2 Hlen) as (r & -> & Hh). eexists. split; [done|].
  apply H. by eapply handled_trans.
Qed.

Lemma start_one_ok j io e : engine_inv e -> settled_below j e -> (forall k c, (j <= k)%nat -> conns_ e !! k = Some c -> cn_input c = []) ->
  (j < length (conns_ e))%nat -> socket_answers (wi_sends io) ->
  exists e', start_one generator_ clock j io e = Some e' /\ engine_inv e' /\ settled_below (S j) e' /\
    (forall k c, (S j <= k)%nat -> conns_ e' !! k = Some c -> cn_input c = []) /\ length (conns_ e') = length (conns_ e) /\
    config_ e' = config_ e.
Proof.
  intros Hi Hs Hf Hj Hio. destruct (lookup_lt_is_Some_2 _ _ Hj) as [c Hc]. unfold start_one. rewrite Hc. cbn [mbind option_bind].
  pose proof (inv_enter e j c Hi Hc) as Hin. set (others := total (conns_ e) - pending_size c) in *.
  destruct (fill_pipeline_ok others c e Hin) as (c1 & e1 & -> & Hi1 & He1 & _ & Hin1). cbn [mbind option_bind].
  destruct (on_writable_ok others io c1 e1 Hi1 Hio) as (r & -> & Hh); [rewrite Hin1, (Hf j c) by done; done|].
  pose proof (handled_trans _ _ _ _ _ _ He1 Hh) as Hh'. cbn [mbind option_bind].
  destruct (put_back_length e j c others r Hh') as [Hlen Hcfg].
  exists (put_back j r). split_and!; [done | by eapply put_back_inv | by eapply (put_back_settled j e j c r) | | done | done].
  intros k d Hk Hd. destruct r as [[ok c'] e']. destruct (put_back_fields j (ok, c', e')) as (x & l & Ex & _). rewrite Ex in Hd.
  rewrite list_lookup_insert_ne in Hd by lia. destruct Hh' as (_ & He' & _). rewrite (ev_conns _ _ _ _ He') in Hd. eapply Hf; [|done]. lia.
Qed.

Lemma start_each_ok n j ios e : engine_inv e -> settled_below j e -> (forall k c, (j <= k)%nat -> conns_ e !! k = Some c -> cn_input c = []) ->
  (j + n = length (conns_ e))%nat -> Forall (fun io => socket_answers (wi_sends io)) ios -> (n <= length ios)%nat ->
  exists e', start_each generator_ clock j n ios e = Some e' /\ waiting e' /\
    length (conns_ e') = length (conns_ e) /\ config_ e' = config_ e.
Proof.
  revert j ios e. induction n as [|n IH]; intros j ios e Hi Hs Hf Hlen Hio Hn; cbn [start_each].
  { exists e. split_and!; [done | | done | done]. split; [done|]. by replace (length (conns_ e)) with j by lia. }
  destruct Hio as [|io ios Hio Hios]; cbn in Hn; [lia|].
  destruct (start_one_ok j io e Hi Hs Hf ltac:(lia) Hio) as (e1 & -> & H1 & H2 & H3 & H4 & H5). cbn [mbind option_bind].
  destruct (IH (S j) ios e1 H1 H2 H3) as (e' & -> & Hw & Hl & Hc); [lia | done | lia|]. exists e'. split_and!; [done | done | lia | congruence].
Qed.

(** ** [connect_all] *)

Definition opening_call (k : EngineCall) : Prop :=
  match k with KOpen _ | KConnect _ _ | KInterest _ _ | KClose _ => True | _ => False end.

Record opening (e : Engine U) : Prop := mkOpening {
  op_config : config_ok (config_ e);
  op_index : forall j c, conns_ e !! j = Some c ->
    exists fd, c = set_cn_live true (new_conn (u64 (ec_first_connection (config_ e) + Z.of_nat j)) fd) /\ 0 <= fd;
  op_length : len (conns_ e) <= ec_connections (config_ e);
  op_calls : Forall opening_call (calls e);
  op_counts : issued_ e = 0 /\ sent (stats_ e) = 0 /\ received (stats_ e) = 0 /\ next_request_id_ e = 1;
  op_live : live_connections_ e = len (conns_ e);
  op_released : omap open_call (calls e) ≡ₚ omap close_call (calls e) ++ held e;
}.

Lemma opening_log l i : Forall opening_call l ->
  issued_on i l = [] /\ completed_on i l = [] /\ sent_on i l = [] /\ sequences l = [] /\ completions l = [].
Proof.
  induction 1 as [|k l Hk _ (I1 & I2 & I3 & I4 & I5)]; [done|].
  unfold issued_on, completed_on, sent_on, sequences, completions in *. by destruct k.
Qed.

Lemma fresh_total cs : (forall j c, cs !! j = Some c -> exists i fd, c = set_cn_live true (new_conn i fd)) ->
  total cs = 0 /\ live_count cs = len cs.
Proof.
  induction cs as [|c cs IH]; intros H; [done|]. destruct IH as [H1 H2]; [intros j d Hd; by apply (H (S j))|].
  destruct (H 0%nat c eq_refl) as (i & fd & ->). by rewrite total_cons, live_count_cons, len_cons, H1, H2.
Qed.

Lemma opening_inv e : opening e -> engine_inv e.
Proof.
  intros [O1 O2 O3 O4 (O5 & O6 & O7 & O8) O9 O10].
  destruct (fresh_total (conns_ e)) as [Ht Hl]; [intros j c Hc; destruct (O2 _ _ Hc) as (fd & -> & _); by eexists _, _|].
  split; try done.
  - intros j c Hc. by destruct (O2 _ _ Hc) as (fd & -> & _).
  - intros j c Hc. destruct (O2 _ _ Hc) as (fd & -> & _). set (i := u64 _).
    destruct (opening_log (calls e) i O4) as (I1 & I2 & I3 & _).
    split; cbn [cn_index set_cn_live new_conn cn_pending cn_output_pos cn_output]; rewrite ?I1, ?I2, ?I3; try done.
    + intros id [p Hp]. by rewrite lookup_empty in Hp.
    + pose proof (eo_depth _ O1). unfold pending_size. cbn. rewrite map_size_empty. lia.
  - destruct (opening_log (calls e) 0 O4) as (_ & _ & _ & I4 & I5). split; rewrite ?O5, ?O6, ?O7, ?O8, ?Ht, ?I4, ?I5; try done.
    + pose proof (eo_requests _ O1). lia.
    + intros i. destruct (opening_log (calls e) i O4) as (I1 & _). by rewrite I1.
  - by rewrite Hl.
  - intros j c Hc. by destruct (O2 _ _ Hc) as (fd & -> & Hfd).
  - destruct (opening_log (calls e) 0 O4) as (_ & _ & _ & _ & I5). by rewrite I5.
  - eapply Forall_impl; [exact O4|]. by intros [].
Qed.

Definition fd_ok (r : FdResult) : Prop := match r with NewFd fd => 0 <= fd | NoFd _ => True end.

(** A descriptor opened for a connection that is not kept is closed. *)
Lemma opening_closed e conn fd path f : opening e -> fd = cn_fd conn -> 0 <= fd ->
  (forall s, sent (f s) = sent s /\ received (f s) = received s) ->
  opening (destroy_conn conn (counting f (call (KConnect fd path) (call (KOpen fd) e)))).
Proof.
  intros [O1 O2 O3 O4 (O5 & O6 & O7 & O8) O9 O10] -> Hfd Hf. destruct (Hf (stats_ e)) as [F1 F2]. unfold destroy_conn.
  rewrite (proj2 (Z.leb_le 0 _) Hfd). split; try done; cbn [calls call counting with_stats stats_].
  - rewrite !Forall_app. by split_and!; [| | |]; try done; apply Forall_singleton.
  - rewrite F1, F2. by split_and!.
  - rewrite !omap_app. cbn. rewrite !app_nil_r, O10, <- !app_assoc. apply Permutation_app_head. apply Permutation_app_comm.
Qed.

Definition connected (i : Z) (e : Engine U) (r : bytes * Engine U) : Prop :=
  opening r.2 /\ config_ r.2 = config_ e /\ epoll_fd_ r.2 = epoll_fd_ e /\ (r.1 = [] -> len (conns_ r.2) = i + 1).

Lemma connect_one_ok i io e : opening e -> len (conns_ e) = i -> i < ec_connections (config_ e) -> fd_ok (oi_socket io) ->
  connected i e (connect_one errno_text i io e).
Proof.
  intros Ho Hi Hlt Hfd. unfold connect_one. destruct (oi_socket io) as [fd|errno].
  2:{ split_and!; try done. destruct Ho as [O1 O2 O3 O4 (O5 & O6 & O7 & O8) O9 O10]. by split. }
  cbn [fd_ok] in Hfd. set (conn := set_cn_fd fd _). set (e1 := call (KConnect _ _) _).
  assert (Hd : forall f error, (forall s, sent (f s) = sent s /\ received (f s) = received s) -> error <> [] ->
    connected i e (error, destroy_conn conn (counting f e1))).
  { intros f error Hf He. split; [by apply opening_closed|]. unfold destroy_conn. cbn [fst snd]. destruct (0 <=? cn_fd conn); by split_and!. }
  assert (Hid : forall e : Engine U, counting id e = e) by (by intros []).
  assert (Hd' : forall error, error <> [] -> connected i e (error, destroy_conn conn e1))
    by (intros error He; pose proof (Hd id error (fun s => conj eq_refl eq_refl) He) as H; by rewrite Hid in H).
  destruct (oi_connect io); [|by apply Hd]. destruct (oi_getfl io), (oi_setfl io), (oi_add io); try by apply Hd'.
  destruct Ho as [O1 O2 O3 O4 (O5 & O6 & O7 & O8) O9 O10]. pose proof (eo_connections _ O1). pose proof (len_nonneg (conns_ e)).
  unfold e1. split_and!; try done; [split; try done; cbn [snd calls call conns_ with_conns with_live config_ live_connections_]|].
  - intros j c Hc. apply lookup_app_Some in Hc as [Hc|[Hge Hc]]; [by apply O2|].
    apply list_lookup_singleton_Some in Hc as [Hj <-]. exists fd. split; [|done].
    replace (Z.of_nat j) with i by (unfold len in Hi; lia). done.
  - rewrite len_app, len_cons, len_nil. lia.
  - rewrite !Forall_app. split_and!; try done; by apply Forall_singleton.
  - rewrite len_app, len_cons, len_nil, O9. rewrite u64_small; lia.
  - rewrite !omap_app. cbn [omap list_omap open_call close_call]. rewrite !app_nil_r, O10, <- app_assoc. apply Permutation_app_head.
    unfold held. cbn [epoll_fd_ conns_ with_conns with_live call]. rewrite fmap_app, app_comm_cons, (filter_app _ (_ :: _)).
    cbn [fmap list_fmap]. by rewrite (filter_cons _ (cn_fd _)), decide_True.
  - intros _. cbn [snd conns_ with_conns with_live call]. rewrite len_app, len_cons, len_nil. lia.
Qed.

Lemma connect_loop_ok ios i e : opening e -> len (conns_ e) = i -> Forall (fun io => fd_ok (oi_socket io)) ios ->
  ec_connections (config_ e) - i <= len ios ->
  exists error e', connect_loop errno_text i ios e = Some (error, e') /\ opening e' /\ config_ e' = config_ e /\ epoll_fd_ e' = epoll_fd_ e /\
    (error = [] -> len (conns_ e') = ec_connections (config_ e)).
Proof.
  intros Ho Hi Hios. revert i e Ho Hi. induction Hios as [|io ios Hio _ IH]; intros i e Ho Hi Hn; cbn [connect_loop];
    (destruct (Z.ltb_spec i (ec_connections (config_ e))); cbn [negb];
      [|eexists _, _; split; [done|]; split_and!; try done; intros _; pose proof (op_length _ Ho); lia]).
  { rewrite len_nil in Hn. lia. }
  pose proof (connect_one_ok i io e Ho Hi ltac:(lia) Hio) as Hone. destruct (connect_one errno_text i io e) as [error e1].
  destruct Hone as (H1 & H2 & H3 & H4). cbn [fst snd] in *. destruct error as [|b error]; [|eexists _, _; split; [done|]; by split_and!].
  pose proof (eo_connections _ (op_config _ Ho)). pose proof (len_nonneg (conns_ e)). rewrite len_cons in Hn.
  rewrite u64_small by lia. destruct (IH (i + 1) e1 H1 (H4 eq_refl)) as (error & e' & E & G1 & G2 & G3 & G4); [rewrite H2; lia|].
  exists error, e'. rewrite G2, G3, H2, H3 in *. by split_and!.
Qed.
End Props.
