(* ===== verification/EngineRun.v ===== *)
(** * A run of the pipelining client

    What the engine of benchmark/async_client.cpp guarantees in every state
    between two events, what [run] has done when it returns, and that it
    returns against a server that answers every request, in whatever order and
    with whatever results. *)

From S2P Require Import Prelude Protocol Serializer Sys Engine EngineProps.

Section Run.
Context {U : Type}.
Variable generator_ : Z -> Z -> RequestSpec -> U -> bool * RequestSpec * U.
Variable on_complete_ : Completion -> U -> U.
Variable clock : nat -> Z.
Variable errno_text : Z -> bytes.
Hypothesis generator_ok : forall i seq u, (generator_ i seq default_spec u).1.1 = true ->
  spec_ok (generator_ i seq default_spec u).1.2.
Implicit Types (e : Engine U) (c : Conn).

(** ** Answers in any order *)

(** A response to one of the requests outstanding. *)
Definition answers (pending : gmap Z Pending) (r : Response) : Prop :=
  response_ok default_limits r = true /\
  exists p, pending !! rs_request_id r = Some p /\ rs_opcode r = sp_opcode (pd_spec p).

Definition response_frames (rs : list Response) : bytes := concat (map serialize_response rs).

Lemma answers_other pending r r' : answers pending r -> rs_request_id r <> rs_request_id r' ->
  answers (base.delete (rs_request_id r') pending) r.
Proof. intros (Hok & p & Hp & Hop) Hne. split; [done|]. exists p. by rewrite lookup_delete_ne. Qed.

Lemma parse_all others rs pre c e fuel : inv others c e -> cn_input c = pre ++ response_frames rs ->
  len (cn_input c) < 2 ^ 64 -> Forall (answers (cn_pending c)) rs -> NoDup (rs_request_id <$> rs) ->
  (length (response_frames rs) <= fuel)%nat ->
  exists c' e', parse_loop on_complete_ clock fuel (len pre) c e = Some (true, len (cn_input c), c', e') /\
    inv others c' e' /\ evolves c e c' e' /\ cn_input c' = cn_input c /\ unsent c' = unsent c /\
    cn_pending c' = foldl (fun m r => base.delete (rs_request_id r) m) (cn_pending c) rs /\
    received (stats_ e') = received (stats_ e) + len rs /\
    cp_response <$> completions (calls e') = (cp_response <$> completions (calls e)) ++ rs.
Proof.
  revert pre c e fuel. induction rs as [|r rs IH]; intros pre c e fuel Hi Hin Hm Ha Hnd Hf.
  - assert (Hl : len (cn_input c) = len pre) by (rewrite Hin; unfold response_frames; cbn; by rewrite app_nil_r).
    exists c, e. split; [|split_and!; try done; [apply evolves_refl | rewrite len_nil; lia | by rewrite app_nil_r]].
    rewrite <- Hl. destruct fuel; cbn [parse_loop]; by rewrite Z.ltb_irrefl.
  - apply Forall_cons in Ha as [(Hok & p & Hp & Hop) Ha]. apply NoDup_cons in Hnd as [Hni Hnd].
    assert (Hcons : response_frames (r :: rs) = serialize_response r ++ response_frames rs) by done. rewrite Hcons in *.
    pose proof (response_frame_lens _ _ [] Hok) as Hl. rewrite app_nil_r, len_nil in Hl.
    pose proof (len_nonneg (rs_value r)). unfold kHeaderSize in Hl. pose proof (len_nonneg pre).
    assert (Hlen : len (cn_input c) = len pre + len (serialize_response r) + len (response_frames rs)) by (rewrite Hin, !len_app; lia).
    pose proof (len_nonneg (response_frames rs)).
    destruct fuel as [|fuel]; [rewrite length_app in Hf; unfold len in Hl; lia|]. cbn [parse_loop].
    rewrite (proj2 (Z.ltb_lt _ _)) by lia. cbn [negb].
    replace (drop (Z.to_nat (len pre)) (cn_input c)) with (serialize_response r ++ response_frames rs)
      by (rewrite Hin; unfold len; by rewrite Nat2Z.id, drop_app_length).
    rewrite (deserialize_response_frame _ _ _ _ Hok). cbn [mbind option_bind pr_status pr_consumed complete].
    rewrite u64_small by lia. rewrite Hp, bool_decide_true by done. cbn [negb clock_now fst snd].
    set (latency := u64 _). set (u := on_complete_ _ _).
    destruct (inv_complete others c e p r latency u (S (ticks e)) Hi Hp Hop) as [Hi1 He1].
    set (c1 := set_cn_pending _ c) in *. set (e1 := counting count_received _) in *.
    assert (Hrec : received (stats_ e1) = received (stats_ e) + 1).
    { rewrite (co_completions _ _ _ (iv_core _ _ _ Hi1)), (co_completions _ _ _ (iv_core _ _ _ Hi)).
      unfold e1. cbn [calls counting with_stats with_captured call with_ticks]. rewrite completions_app, len_app. done. }
    destruct (IH (pre ++ serialize_response r) c1 e1 fuel Hi1) as (c' & e' & E & G1 & G2 & G3 & G4 & G5 & G6 & G7).
    + cbn [c1 cn_input set_cn_pending]. by rewrite Hin, app_assoc.
    + exact Hm.
    + rewrite Forall_forall in Ha |- *. intros r' Hr'. apply answers_other; [by apply Ha|]. intros Eid. apply Hni.
      rewrite <- Eid. by apply list_elem_of_fmap_2.
    + done.
    + rewrite length_app in Hf. unfold len in Hl. lia.
    + exists c', e'. rewrite len_app in E. split; [exact E|].
      split_and!; [done | by eapply evolves_trans | exact G3 | exact G4 | exact G5 | rewrite G6, Hrec, len_cons; lia|].
      rewrite G7. unfold e1. cbn [calls counting with_stats with_captured call with_ticks]. rewrite completions_app, fmap_app, <- app_assoc. done.
Qed.

(** ** A socket that takes what it is offered *)

Definition accepting : WriteIo := mkWriteIo [fun n => Sent n; fun _ => SendFailed EAGAIN] true.

Lemma accepting_ok : socket_answers (wi_sends accepting).
Proof.
  split; [|by exists [fun n => Sent n]]. apply Forall_cons. split; [intros n Hn; cbn; lia|].
  apply Forall_singleton. by intros n Hn.
Qed.

Lemma write_accepted others c e : inv others c e ->
  exists c' e', write_loop (wi_sends accepting) true c e = Some (true, c', e') /\ unsent c' = [].
Proof.
  intros Hi. pose proof (ck_pos _ _ _ _ (iv_conn _ _ _ Hi)) as Hp. pose proof (output_small _ _ _ Hi) as Ho.
  cbn [accepting wi_sends write_loop]. destruct (Z.ltb_spec (cn_output_pos c) (len (cn_output c))); cbn [negb].
  - rewrite u64_small by lia. rewrite (proj2 (Z.ltb_lt 0 _)) by lia. cbn [cn_output_pos cn_output set_cn_output_pos].
    rewrite u64_small by lia. replace (_ + _) with (len (cn_output c)) by lia. rewrite Z.ltb_irrefl. cbn [negb]. by eexists _, _.
  - by eexists _, _.
Qed.

Lemma on_writable_accepted others c e : inv others c e ->
  exists c' e', on_writable generator_ clock accepting c e = Some (true, c', e') /\ inv others c' e' /\ evolves c e c' e' /\
    unsent c' = [] /\ cn_input c' = cn_input c.
Proof.
  intros Hi. destruct (fill_pipeline_ok generator_ clock generator_ok others c e Hi) as (c1 & e1 & E & Hi1 & He1 & Hf & Hin).
  destruct (write_loop_ok others _ true c1 e1 Hi1 accepting_ok) as ([[ok c2] e2] & E2 & Hi2 & He2 & Hw & _).
  destruct (write_accepted others c1 e1 Hi1) as (c3 & e3 & E3 & Hu). rewrite E3 in E2. injection E2 as <- <- <-.
  exists c3, e3. unfold on_writable. rewrite E. cbn [mbind option_bind]. split; [exact E3|].
  split_and!; [done | by eapply evolves_trans | done | by rewrite (wr_input _ _ _ _ Hw)].
Qed.

(** ** A server that answers *)

(** All is quiet: no connection is lost, nothing is half sent or half read. *)
Record calm (e : Engine U) : Prop := mkCalm {
  cm_waiting : waiting e;
  cm_conns : forall j c, conns_ e !! j = Some c -> cn_live c = true /\ cn_input c = [] /\ unsent c = [];
  cm_some : conns_ e <> [];
}.

Lemma received_grows others c e c' e' : inv others c e -> inv others c' e' -> evolves c e c' e' ->
  received (stats_ e) <= received (stats_ e').
Proof.
  intros Hi Hi' He. rewrite (co_completions _ _ _ (iv_core _ _ _ Hi)), (co_completions _ _ _ (iv_core _ _ _ Hi')).
  destruct (ev_calls _ _ _ _ He) as (l & -> & _). rewrite completions_app, len_app. pose proof (len_nonneg (completions l)). lia.
Qed.

Definition delivery (rs : list Response) : EventIo :=
  mkEventIo [Received (response_frames rs); RecvFailed EAGAIN] accepting accepting.

Lemma frames_nonempty rs pending : Forall (answers pending) rs -> rs <> [] -> 0 < len (response_frames rs).
Proof.
  destruct 1 as [|r rs [Hok _] _]; [done|]. intros _. change (response_frames (r :: rs)) with (serialize_response r ++ response_frames rs).
  rewrite (response_frame_lens _ _ _ Hok). pose proof (len_nonneg (rs_value r)). pose proof (len_nonneg (response_frames rs)). unfold kHeaderSize. lia.
Qed.

(** The responses are read, completed and replaced by new requests. *)
Lemma on_readable_answers others rs c e : inv others c e -> cn_input c = [] -> Forall (answers (cn_pending c)) rs ->
  NoDup (rs_request_id <$> rs) -> rs <> [] -> len (response_frames rs) < 2 ^ 63 ->
  exists c' e', on_readable generator_ on_complete_ clock (ei_recvs (delivery rs)) accepting c e = Some (true, c', e') /\
    inv others c' e' /\ evolves c e c' e' /\ unsent c' = [] /\ cn_input c' = [] /\
    received (stats_ e) + len rs <= received (stats_ e').
Proof.
  intros Hi Hin Ha Hnd Hne Hm. pose proof (frames_nonempty _ _ Ha Hne) as Hpos.
  unfold on_readable. cbn [delivery ei_recvs recv_loop]. rewrite (proj2 (Z.ltb_lt _ _) Hpos), Hin. cbn [app mbind option_bind negb orb].
  change (EAGAIN =? EINTR) with false. cbn [Z.eqb EAGAIN Pos.eqb orb negb].
  destruct (inv_input others c e (response_frames rs) Hi) as [Hi1 He1]. set (c1 := set_cn_input _ c) in *.
  destruct (parse_all others rs [] c1 e (length (cn_input c1)) Hi1) as (c2 & e2 & E & Hi2 & He2 & H3 & H4 & H5 & H6 & H7); try done;
    [cbn [c1 cn_input set_cn_input]; lia|].
  change (len []) with 0 in E. cbn [mbind option_bind negb]. rewrite E. cbn [mbind option_bind negb].
  change (cn_input c1) with (response_frames rs) in *. rewrite (proj2 (Z.eqb_neq _ 0)) by lia. cbn [negb].
  destruct (inv_input others c2 e2 (drop (Z.to_nat (len (response_frames rs))) (cn_input c2)) Hi2) as [Hi3 He3].
  set (c3 := set_cn_input _ c2) in *.
  assert (Hin3 : cn_input c3 = []).
  { cbn [c3 cn_input set_cn_input]. rewrite H3. unfold len. rewrite Nat2Z.id. apply drop_all. }
  destruct (fill_pipeline_ok generator_ clock generator_ok others c3 e2 Hi3) as (c4 & e4 & -> & Hi4 & He4 & _ & Hin4). cbn [mbind option_bind].
  destruct (on_writable_accepted others c4 e4 Hi4) as (c5 & e5 & -> & Hi5 & He5 & Hu & Hin5). exists c5, e5.
  assert (He25 : evolves c2 e2 c5 e5) by (eapply evolves_trans; [exact He3|]; by eapply evolves_trans).
  split; [done|]. split_and!; [done | | done | congruence|].
  - eapply evolves_trans; [exact He1|]. by eapply evolves_trans.
  - pose proof (received_grows _ _ _ _ _ Hi2 Hi5 He25). lia.
Qed.

(** One connection is served: the others are as before. *)
Lemma serve_event j rs c e : calm e -> conns_ e !! j = Some c -> Forall (answers (cn_pending c)) rs ->
  NoDup (rs_request_id <$> rs) -> rs <> [] -> len (response_frames rs) < 2 ^ 63 ->
  exists e', handle_event generator_ on_complete_ clock j EPOLLIN (delivery rs) e = Some e' /\ calm e' /\
    config_ e' = config_ e /\ length (conns_ e') = length (conns_ e) /\
    (forall k, k <> j -> conns_ e' !! k = conns_ e !! k) /\ received (stats_ e) + len rs <= received (stats_ e').
Proof.
  intros [Hw Hall Hsome] Hc Ha Hnd Hne Hm. destruct (Hall j c Hc) as (Hl & Hin & Hu).
  assert (Hio : event_io_ok (delivery rs)).
  { split; [by exists [Received (response_frames rs)]|]. split; [|by split; apply accepting_ok].
    unfold recv_total. cbn. by rewrite app_nil_r. }
  destruct (handle_event_ok generator_ on_complete_ clock generator_ok j EPOLLIN (delivery rs) e Hw) as (e' & E & Hw' & Hlen & _);
    [by eapply lookup_lt_Some | done|].
  exists e'. split; [done|].
  destruct (on_readable_answers _ rs c e (inv_enter e j c (wa_inv _ Hw) Hc) Hin Ha Hnd Hne Hm) as (c1 & e1 & E1 & Hi1 & He1 & Hu1 & Hin1 & Hr1).
  unfold handle_event in E. rewrite Hc in E. cbn [mbind option_bind] in E. rewrite Hl in E. cbn [negb] in E.
  change (has_event EPOLLIN (Z.lor (Z.lor EPOLLERR EPOLLHUP) EPOLLRDHUP)) with false in E.
  change (has_event EPOLLIN EPOLLIN) with true in E. change (has_event EPOLLIN EPOLLOUT) with false in E. cbn iota in E.
  change (ei_read (delivery rs)) with accepting in E. rewrite E1 in E. cbn [mbind option_bind andb] in E. injection E as <-.
  cbn [put_back conns_ with_conns config_ stats_] in *. rewrite (ev_conns _ _ _ _ He1) in *. split_and!; try done.
  - split; [done | |].
    + cbn [conns_ with_conns]. intros k d Hd. apply list_lookup_insert_Some in Hd as [(_ & <- & _)|[_ Hd]]; [|by eapply Hall].
      split_and!; [by rewrite (ev_live _ _ _ _ He1) | done | done].
    + cbn [conns_ with_conns]. intros E. apply (f_equal length) in E. rewrite length_insert in E. by destruct (conns_ e).
  - apply (ev_config _ _ _ _ He1).
  - intros k Hk. by apply list_lookup_insert_ne.
Qed.

Section Server.
(** The responses the server sends on connection [j] while the engine waits in
    state [e]. *)
Variable serve : Engine U -> nat -> list Response.

Definition answers_of (e : Engine U) (j : nat) : option (nat * Z * EventIo) :=
  if decide (serve e j = []) then None else Some (j, EPOLLIN, delivery (serve e j)).
Definition turn (e : Engine U) : list (nat * Z * EventIo) := omap (answers_of e) (seq 0 (length (conns_ e))).

Hypothesis serve_ok : forall e j c, calm e -> conns_ e !! j = Some c ->
  Forall (answers (cn_pending c)) (serve e j) /\ NoDup (rs_request_id <$> serve e j) /\ len (response_frames (serve e j)) < 2 ^ 63.
Hypothesis serve_some : forall e j c, calm e -> conns_ e !! j = Some c -> cn_pending c <> ∅ ->
  exists k, (k < length (conns_ e))%nat /\ serve e k <> [].

Lemma turn_handled e js e1 : calm e -> calm e1 -> NoDup js -> config_ e1 = config_ e -> length (conns_ e1) = length (conns_ e) ->
  (forall j, j ∈ js -> (j < length (conns_ e))%nat /\ conns_ e1 !! j = conns_ e !! j) ->
  exists e', handle_events generator_ on_complete_ clock (omap (answers_of e) js) e1 = Some e' /\ calm e' /\ config_ e' = config_ e /\
    received (stats_ e1) + len (omap (answers_of e) js) <= received (stats_ e').
Proof.
  intros Hcm. revert e1. induction js as [|j js IH]; intros e1 Hcm1 Hnd Hcfg Hlen Hjs.
  { exists e1. split_and!; try done. change (len (omap (answers_of e) [])) with 0. lia. }
  apply NoDup_cons in Hnd as [Hni Hnd].
  cbn [omap list_omap]. destruct (answers_of e j) as [ev|] eqn:Ea; [|apply IH; try done; intros k Hk; apply Hjs; by right].
  unfold answers_of in Ea. destruct (decide (serve e j = [])) as [|Hne]; [done|]. injection Ea as <-.
  destruct (Hjs j ltac:(by left)) as [Hj Ej]. destruct (lookup_lt_is_Some_2 _ _ Hj) as [c Hc].
  destruct (serve_ok e j c Hcm Hc) as (Ha & Hndr & Hm). rewrite Hc in Ej.
  destruct (serve_event j _ c e1 Hcm1 Ej Ha Hndr Hne Hm) as (e2 & E & Hcm2 & Hcfg2 & Hlen2 & Hk2 & Hr).
  cbn [handle_events]. rewrite E. cbn [mbind option_bind].
  destruct (IH e2 Hcm2 Hnd) as (e' & E' & H1 & H2 & H3); [congruence | congruence | |].
  { intros k Hk. destruct (Hjs k ltac:(by right)) as [? <-]. split; [done|]. apply Hk2. by intros ->. }
  exists e'. split_and!; [done | done | done|]. rewrite len_cons. destruct (serve e j); [done|]. rewrite len_cons in Hr.
  pose proof (len_nonneg l). fold (omap (answers_of e) js) in *. lia.
Qed.

Lemma total_zero cs : Forall (fun c => cn_pending c = ∅) cs -> total cs = 0.
Proof.
  induction 1 as [|c cs Hc _ IH]; [done|]. rewrite total_cons, IH. unfold pending_size. rewrite Hc, map_size_empty. done.
Qed.

Lemma pending_empty c : pending_size c = 0 <-> cn_pending c = ∅.
Proof. unfold pending_size. rewrite <- map_size_empty_iff. lia. Qed.

Lemma sent_out c : 0 <= cn_output_pos c -> unsent c = [] <-> (cn_output_pos c <? len (cn_output c)) = false.
Proof.
  intros Hp. unfold unsent. rewrite Z.ltb_ge. split.
  - intros E. apply (f_equal length) in E. rewrite length_drop in E. unfold len. cbn in E. lia.
  - intros H. apply drop_ge. unfold len in H. lia.
Qed.

(** A quiet engine that is not done has a request outstanding. *)
Lemma calm_outstanding e : calm e -> all_done e = false -> exists j c, conns_ e !! j = Some c /\ cn_pending c <> ∅.
Proof.
  intros [[Hi Hs] Hall Hsome] Hd. destruct (decide (Forall (fun c => cn_pending c = ∅) (conns_ e))) as [Hno|Hex].
  2:{ apply not_Forall_Exists in Hex; [|tc_solve]. apply Exists_exists in Hex as (c & Hin & Hp). apply list_elem_of_lookup in Hin as [j Hj]. by exists j, c. }
  exfalso. pose proof (gi_core _ Hi) as Hco. pose proof (co_received _ _ _ Hco) as (_ & _ & Hr). rewrite (total_zero _ Hno) in Hr.
  change (pending_size (new_conn 0 0)) with 0 in Hr. unfold all_done in Hd.
  destruct (conns_ e) as [|c cs] eqn:Ecs; [done|].
  destruct (Hs 0%nat c) as (_ & Hf & _); [cbn; lia | by rewrite Ecs | by apply (Hall 0%nat)|].
  rewrite (proj2 (Z.ltb_ge (received (stats_ e)) (issued_ e))) in Hd by lia.
  replace (forallb _ _) with true in Hd.
  - destruct (negb (generator_exhausted_ e) && (issued_ e <? ec_requests (config_ e))) eqn:Eg; [|done]. b2p.
    apply Forall_cons in Hno as [Hc _]. pose proof (eo_depth _ (gi_config _ Hi)).
    destruct Hf as [Hf|[Hf|Hf]]; [congruence | lia | rewrite (proj2 (pending_empty c) Hc) in Hf; lia].
  - symmetry. apply forallb_forall. intros d Hd'. apply list_elem_of_In, list_elem_of_lookup in Hd' as [k Hk]. rewrite <- Ecs in *.
    destruct (Hall k d Hk) as (_ & _ & Hu). apply sent_out in Hu; [|apply (gi_conns _ Hi _ _ Hk)].
    rewrite Forall_lookup in Hno. rewrite (proj2 (pending_empty d) (Hno k d Hk)), Hu. done.
Qed.

Lemma turn_progress e : calm e -> all_done e = false ->
  live_connections_ e <> 0 /\ turn e <> [] /\
  exists e', handle_events generator_ on_complete_ clock (turn e) e = Some e' /\ calm e' /\ config_ e' = config_ e /\
    received (stats_ e) < received (stats_ e').
Proof.
  intros Hcm Hd. destruct (calm_outstanding e Hcm Hd) as (j & c & Hc & Hp).
  destruct (serve_some e j c Hcm Hc Hp) as (k & Hk & Hne).
  assert (Hin : (k, EPOLLIN, delivery (serve e k)) ∈ turn e).
  { apply list_elem_of_omap. exists k. split; [apply elem_of_seq; lia|]. unfold answers_of. by rewrite decide_False. }
  split_and!.
  - destruct (cm_conns _ Hcm _ _ Hc) as [Hl _]. rewrite (gi_live _ (wa_inv _ (cm_waiting _ Hcm))).
    pose proof (live_count_bound _ _ _ Hc Hl). lia.
  - by destruct (turn e); [apply elem_of_nil in Hin|].
  - destruct (turn_handled e (seq 0 (length (conns_ e))) e) as (e' & E & H1 & H2 & H3); try done; [apply NoDup_seq | |].
    + intros i Hi. apply elem_of_seq in Hi. split; [lia | done].
    + exists e'. split_and!; try done. fold (turn e) in H3.
      destruct (turn e); [by apply elem_of_nil in Hin | rewrite len_cons in H3; pose proof (len_nonneg l); lia].
Qed.

(** The answers to [epoll_wait] are those of the server, until all is done. *)
Inductive plays : Engine U -> list WaitResult -> Prop :=
  | plays_done e : all_done e = true -> plays e []
  | plays_turn e e' waits : handle_events generator_ on_complete_ clock (turn e) e = Some e' -> plays e' waits ->
      plays e (WaitEvents (turn e) :: waits).

Lemma plays_finish e : calm e -> exists waits e', plays e waits /\ len waits <= ec_requests (config_ e) - received (stats_ e) /\
  run_loop generator_ on_complete_ clock errno_text waits e = Some ([], e') /\ calm e' /\ all_done e' = true /\ config_ e' = config_ e.
Proof.
  remember (Z.to_nat (ec_requests (config_ e) - received (stats_ e))) as n eqn:En. revert e En.
  induction n as [n IH] using lt_wf_ind. intros e En Hcm. destruct (gi_core _ (wa_inv _ (cm_waiting _ Hcm))) as [C1 _ _ C4 _ _ _].
  pose proof (total_lookup (conns_ e)) as Htot. change (pending_size (new_conn 0 0)) with 0 in C4.
  destruct (all_done e) eqn:Hd.
  { exists [], e. split_and!; try done; [by constructor | change (len (@nil WaitResult)) with 0; lia | cbn; by rewrite Hd]. }
  destruct (turn_progress e Hcm Hd) as (Hl & Hne & e1 & E & Hcm1 & Hcfg & Hr).
  destruct (gi_core _ (wa_inv _ (cm_waiting _ Hcm1))) as [D1 _ _ D4 _ _ _]. change (pending_size (new_conn 0 0)) with 0 in D4.
  destruct (IH (Z.to_nat (ec_requests (config_ e1) - received (stats_ e1)))) with (e := e1) as (waits & e' & H1 & H2 & H3 & H4 & H5 & H6);
    [rewrite Hcfg in *; lia | done | done|].
  exists (WaitEvents (turn e) :: waits), e'. rewrite Hcfg in *. split_and!; try done; [by econstructor | rewrite len_cons; lia|].
  cbn [run_loop]. rewrite Hd, (proj2 (Z.eqb_neq _ 0) Hl). destruct (turn e); [done|]. rewrite E. exact H3.
Qed.
End Server.

(** ** Runs *)

(** The values the members of the configuration can have, within the memory of
    any machine. *)
Record config_typed (cfg : EngineConfig) : Prop := mkConfigTyped {
  ct_connections : 0 <= ec_connections cfg < 2 ^ 64;
  ct_depth : 0 <= ec_pipeline_depth cfg;
  ct_requests : 0 <= ec_requests cfg;
  ct_memory : ec_requests cfg * 2 ^ 27 < 2 ^ 64;
}.

Lemma connect_all_ok cfg u epoll opens : config_typed cfg -> fd_ok epoll -> Forall (fun io => fd_ok (oi_socket io)) opens ->
  ec_connections cfg <= len opens ->
  exists error e, connect_all errno_text epoll opens (new_engine cfg u) = Some (error, e) /\
    ((calls e = [] /\ held e = []) \/ opening e) /\ config_ e = cfg /\
    (error = [] -> opening e /\ len (conns_ e) = ec_connections cfg /\ ec_connections cfg <> 0).
Proof.
  intros Ht He Ho Hn. unfold connect_all. cbn [config_ new_engine].
  destruct (Z.eqb_spec (ec_connections cfg) 0) as [|Hc]; cbn [orb]; [eexists _, _; split; [done|]; by split_and!; [left| |]|].
  destruct (Z.eqb_spec (ec_pipeline_depth cfg) 0) as [|Hd]; [eexists _, _; split; [done|]; by split_and!; [left| |]|].
  destruct (_ <=? _); [eexists _, _; split; [done|]; by split_and!; [left| |]|].
  destruct epoll as [fd|errno]; cbn [fd_of fd_ok] in *; [|eexists _, _; split; [done|]; by split_and!; [left| |]].
  set (e := call _ _). assert (Hop : opening e).
  { destruct Ht as [T1 T2 T3 T4]. assert (Hcfg : config_ok cfg) by (split; [lia | done | done | lia]).
    unfold e. split; try done; [change (0 <= ec_connections cfg); lia | by apply Forall_singleton|].
    unfold held. cbn [epoll_fd_ conns_ call with_epoll new_engine fmap list_fmap]. by rewrite (filter_cons _ fd), decide_True. }
  destruct (connect_loop_ok errno_text opens 0 e Hop eq_refl Ho) as (error & e' & E & H1 & H2 & _ & H4); [cbn; lia|].
  exists error, e'. split; [exact E|]. split_and!; [by right | exact H2|]. intros H. split_and!; [done | exact (H4 H) | done].
Qed.

(** The states in which the event loop waits. *)
Inductive engine_reachable (cfg : EngineConfig) (u : U) : Engine U -> Prop :=
  | reach_start epoll opens ios e0 e : fd_ok epoll -> Forall (fun io => fd_ok (oi_socket io)) opens ->
      ec_connections cfg <= len opens -> Forall (fun io => socket_answers (wi_sends io)) ios -> ec_connections cfg <= len ios ->
      connect_all errno_text epoll opens (new_engine cfg u) = Some ([], e0) ->
      start_each generator_ clock 0 (length (conns_ e0)) ios e0 = Some e -> engine_reachable cfg u e
  | reach_event j flags io e e' : engine_reachable cfg u e -> (j < length (conns_ e))%nat -> event_io_ok io ->
      handle_event generator_ on_complete_ clock j flags io e = Some e' -> engine_reachable cfg u e'.

Lemma start_ok cfg u epoll opens ios e0 : config_typed cfg -> fd_ok epoll -> Forall (fun io => fd_ok (oi_socket io)) opens ->
  ec_connections cfg <= len opens -> Forall (fun io => socket_answers (wi_sends io)) ios -> ec_connections cfg <= len ios ->
  connect_all errno_text epoll opens (new_engine cfg u) = Some ([], e0) ->
  opening e0 /\ conns_ e0 <> [] /\ config_ e0 = cfg /\
  exists e, start_each generator_ clock 0 (length (conns_ e0)) ios e0 = Some e /\ waiting e /\
    length (conns_ e) = length (conns_ e0) /\ config_ e = config_ e0.
Proof.
  intros Ht He Ho Hno Hi Hni E. destruct (connect_all_ok cfg u epoll opens Ht He Ho Hno) as (error & e' & E' & _ & Hcfg & H).
  rewrite E in E'. injection E' as <- <-. destruct (H eq_refl) as (Hop & Hlen & Hne). split_and!; try done.
  - intros Ec. rewrite Ec in Hlen. by rewrite len_nil in Hlen.
  - apply start_each_ok; try done; [by apply opening_inv | intros j c Hj; lia | | unfold len in *; lia].
    intros k c _ Hc. by destruct (op_index _ Hop _ _ Hc) as (fd & -> & _).
Qed.

Lemma reachable_waiting cfg u e : config_typed cfg -> engine_reachable cfg u e -> waiting e /\ config_ e = cfg.
Proof.
  intros Ht. induction 1 as [epoll opens ios e0 e He Ho Hno Hi Hni Ec Es|j flags io e e' _ [IH Hcfg] Hj Hio E].
  - destruct (start_ok cfg u epoll opens ios e0 Ht He Ho Hno Hi Hni Ec) as (_ & _ & Hcfg & e' & E & Hw & _ & Hc). rewrite Es in E. injection E as <-.
    split; [done | congruence].
  - destruct (handle_event_ok generator_ on_complete_ clock generator_ok j flags io e IH Hj Hio) as (e1 & E1 & Hw & _ & Ec).
    rewrite E in E1. injection E1 as <-. split; [done | congruence].
Qed.

Definition wait_ok (n : nat) (w : WaitResult) : Prop :=
  match w with
  | WaitEvents events => Forall (fun ev => (ev.1.1 < n)%nat /\ event_io_ok ev.2) events
  | WaitFailed _ => True
  end.

Lemma handle_events_reach cfg u events e e' : config_typed cfg -> engine_reachable cfg u e ->
  Forall (fun ev => (ev.1.1 < length (conns_ e))%nat /\ event_io_ok ev.2) events ->
  handle_events generator_ on_complete_ clock events e = Some e' -> engine_reachable cfg u e' /\ length (conns_ e') = length (conns_ e).
Proof.
  intros Ht. revert e. induction events as [|[[j flags] io] events IH]; intros e Hr Hev E; cbn [handle_events] in E.
  { by injection E as <-. }
  apply Forall_cons in Hev as [[Hj Hio] Hev]. cbn in Hj, Hio. destruct (reachable_waiting cfg u e Ht Hr) as [Hw _].
  destruct (handle_event_ok generator_ on_complete_ clock generator_ok j flags io e Hw Hj Hio) as (e1 & E1 & _ & Hl & _).
  rewrite E1 in E. cbn [mbind option_bind] in E. destruct (IH e1) as [? ?]; [by eapply reach_event | by rewrite Hl | done|].
  split; [done | congruence].
Qed.

Lemma run_loop_reach cfg u waits e msg e' : config_typed cfg -> engine_reachable cfg u e -> Forall (wait_ok (length (conns_ e))) waits ->
  run_loop generator_ on_complete_ clock errno_text waits e = Some (msg, e') ->
  engine_reachable cfg u e' /\ (msg = [] -> all_done e' = true).
Proof.
  intros Ht. revert e. induction waits as [|w waits IH]; intros e Hr Hw E; cbn [run_loop] in E;
    (destruct (all_done e) eqn:Hd; [by injection E as <- <-|]);
    (destruct (live_connections_ e =? 0); [by injection E as <- <-|]); [done|].
  apply Forall_cons in Hw as [Hw Hws]. destruct w as [events|errno].
  - destruct events as [|ev events]; [by injection E as <- <-|].
    destruct (handle_events _ _ _ (ev :: events) e) as [e1|] eqn:E1; [|done]. cbn [mbind option_bind] in E.
    destruct (handle_events_reach cfg u _ e e1 Ht Hr Hw E1) as [Hr1 Hl]. apply (IH e1); [done | by rewrite Hl | done].
  - destruct (errno =? EINTR); [by apply (IH e)|]. by injection E as <- <-.
Qed.

(** What "every request is answered" means. *)
Record answered (e : Engine U) : Prop := mkAnswered {
  an_counts : sent (stats_ e) = issued_ e /\ received (stats_ e) = issued_ e;
  an_size : len (completions (calls e)) = issued_ e;
  an_all : generator_exhausted_ e = true \/ issued_ e = ec_requests (config_ e);
  an_sequences : sequences (calls e) = seqZ 0 (issued_ e);
  an_conns : forall j c, conns_ e !! j = Some c ->
    completed_on (cn_index c) (calls e) ≡ₚ issued_on (cn_index c) (calls e) /\
    NoDup (completed_on (cn_index c) (calls e)).*1 /\
    sent_on (cn_index c) (calls e) = frames (issued_on (cn_index c) (calls e));
  an_each : forall k, k ∈ completions (calls e) ->
    KGenerate (cp_connection_index k) (rs_request_id (cp_response k) - 1) (cp_request k) ∈ calls e;
  an_ids : (fun k => rs_request_id (cp_response k)) <$> completions (calls e) ≡ₚ seqZ 1 (issued_ e);
  an_matched : Forall (fun k => rs_opcode (cp_response k) = sp_opcode (cp_request k)) (completions (calls e));
}.

Lemma issued_on_ids i l : (issued_on i l).*1 `sublist_of` (Z.succ <$> sequences l).
Proof.
  induction l as [|k l IH]; [done|]. unfold issued_on, sequences in *. destruct k; cbn; try done.
  destruct (_ =? i); cbn; [|by constructor]. change (sequence + 1) with (Z.succ sequence). by constructor.
Qed.

Lemma issued_on_elem i l x : x ∈ issued_on i l <-> KGenerate i (x.1 - 1) x.2 ∈ l.
Proof.
  unfold issued_on. rewrite list_elem_of_omap. split.
  - intros (k & Hk & E). destruct k; try done. cbn in E. destruct (Z.eqb_spec index i) as [->|]; [|done]. injection E as <-. cbn.
    by replace (sequence + 1 - 1) with sequence by lia.
  - intros H. eexists. split; [exact H|]. cbn. rewrite eqb_refl_if. destruct x. cbn. do 2 f_equal. lia.
Qed.

Lemma completed_on_elem i l x : x ∈ completed_on i l <->
  exists k, k ∈ completions l /\ cp_connection_index k = i /\ rs_request_id (cp_response k) = x.1 /\ cp_request k = x.2.
Proof.
  unfold completed_on, completions. rewrite list_elem_of_omap. split.
  - intros (k & Hk & E). destruct k as [| | | | | |k|]; try done. cbn in E. destruct (Z.eqb_spec (cp_connection_index k) i); [|done].
    injection E as <-. exists k. split; [|done]. apply list_elem_of_omap. by exists (KComplete k).
  - intros (k & Hk & Ei & Er & Eq). apply list_elem_of_omap in Hk as (y & Hy & E). destruct y; try done. injection E as ->.
    exists (KComplete k). split; [done|]. cbn. rewrite Ei, eqb_refl_if. by destruct x; cbn in *; subst.
Qed.

Lemma known_conn e i : i ∈ cn_index <$> conns_ e -> exists j c, conns_ e !! j = Some c /\ cn_index c = i.
Proof. intros Hi. apply list_elem_of_fmap in Hi as (c & -> & Hc). apply list_elem_of_lookup in Hc as [j Hj]. by exists j, c. Qed.

(** The ids of the completions, once every connection has its own. *)
Lemma completed_ids e : engine_inv e -> received (stats_ e) = issued_ e ->
  (forall j c, conns_ e !! j = Some c -> completed_on (cn_index c) (calls e) ≡ₚ issued_on (cn_index c) (calls e)) ->
  (fun k => rs_request_id (cp_response k)) <$> completions (calls e) ≡ₚ seqZ 1 (issued_ e).
Proof.
  intros Hi Hr Hall. destruct (gi_core _ Hi) as [C1 C2 C3 C4 C5 C6 C7]. pose proof (gi_known _ Hi) as Hk. rewrite Forall_forall in Hk.
  symmetry. apply submseteq_length_Permutation; [|rewrite length_fmap, length_seqZ; unfold len in C5; lia].
  apply NoDup_submseteq; [apply NoDup_seqZ|]. intros id Hid. apply elem_of_seqZ in Hid.
  assert (Hs : id - 1 ∈ sequences (calls e)) by (rewrite C6; apply elem_of_seqZ; lia).
  apply list_elem_of_omap in Hs as (k & Hin & E). destruct k as [| | | |i seq spec| | |]; try done. injection E as ->.
  destruct (known_conn e i (Hk _ Hin)) as (j & c & Hc & <-).
  assert (Hx : (id, spec) ∈ issued_on (cn_index c) (calls e)) by (by apply issued_on_elem).
  rewrite <- (Hall j c Hc) in Hx. apply completed_on_elem in Hx as (k & Hk' & _ & E & _). apply list_elem_of_fmap. by exists k.
Qed.

Lemma done_answered e : engine_inv e -> all_done e = true -> answered e.
Proof.
  intros Hi Hd. destruct (gi_core _ Hi) as [C1 C2 C3 C4 C5 C6 C7]. change (pending_size (new_conn 0 0)) with 0 in C4.
  unfold all_done in Hd. destruct (_ && _) eqn:Hg; [done|]. destruct (Z.ltb_spec (received (stats_ e)) (issued_ e)); [done|].
  rewrite forallb_forall in Hd. assert (Hrec : received (stats_ e) = issued_ e) by lia.
  assert (Hall : forall j c, conns_ e !! j = Some c ->
    completed_on (cn_index c) (calls e) ≡ₚ issued_on (cn_index c) (calls e) /\ unsent c = []).
  { intros j c Hc. destruct (gi_conns _ Hi _ _ Hc) as [K1 K2 K3 K4 K5 K6].
    specialize (Hd c ltac:(by eapply list_elem_of_In, list_elem_of_lookup_2)). apply negb_true_iff, orb_false_iff in Hd as [Hp Ho].
    apply negb_false_iff, Z.eqb_eq, pending_empty in Hp. apply sent_out in Ho; [|lia].
    split; [|done]. rewrite K1. unfold outstanding. by rewrite Hp, map_to_list_empty, app_nil_r. }
  split; try done; [congruence | | | | |apply Hi].
  - apply andb_false_iff in Hg as [Hg|Hg]; b2p; [by left | right; lia].
  - intros j c Hc. destruct (Hall j c Hc) as [Hperm Hu]. split_and!; [done | |].
    + rewrite Hperm. eapply sublist_NoDup; [|apply issued_on_ids]. rewrite C6. apply NoDup_fmap_2; [intros ?? H'; lia | apply NoDup_seqZ].
    + by rewrite <- (ck_wire _ _ _ _ (gi_conns _ Hi _ _ Hc)), Hu, app_nil_r.
  - intros k Hk. assert (Hin : KComplete k ∈ calls e).
    { apply list_elem_of_omap in Hk as (y & Hy & E). destruct y; try done. by injection E as ->. }
    pose proof (gi_known _ Hi) as Hkn. rewrite Forall_forall in Hkn. destruct (known_conn e _ (Hkn _ Hin)) as (j & c & Hc & Ei).
    apply (issued_on_elem _ _ (rs_request_id (cp_response k), cp_request k)). rewrite <- Ei, <- (proj1 (Hall j c Hc)), Ei.
    apply completed_on_elem. by exists k.
  - apply completed_ids; [done | done|]. intros j c Hc. by apply (Hall j c).
Qed.

(** A run that returns without an error has answered everything. *)
Lemma engine_success_from cfg u epoll opens ios waits e0 e : config_typed cfg -> fd_ok epoll ->
  Forall (fun io => fd_ok (oi_socket io)) opens -> ec_connections cfg <= len opens ->
  Forall (fun io => socket_answers (wi_sends io)) ios -> ec_connections cfg <= len ios ->
  Forall (wait_ok (length (conns_ e0))) waits ->
  connect_all errno_text epoll opens (new_engine cfg u) = Some ([], e0) ->
  run generator_ on_complete_ clock errno_text ios waits e0 = Some ([], e) -> answered e /\ config_ e = cfg.
Proof.
  intros Ht He Ho Hno Hi Hni Hw Ec E.
  destruct (start_ok cfg u epoll opens ios e0 Ht He Ho Hno Hi Hni Ec) as (_ & _ & _ & e1 & E1 & _ & Hl & _).
  unfold run in E. rewrite E1 in E. cbn [mbind option_bind] in E. rewrite <- Hl in Hw.
  destruct (run_loop_reach cfg u waits e1 [] e Ht) as [Hr Hd]; [by eapply reach_start | done | done|].
  destruct (reachable_waiting cfg u e Ht Hr) as [Hwa Hcfg]. split; [by apply done_answered; [apply Hwa | apply Hd] | done].
Qed.

(** ** Starting on sockets that take what they are offered *)

Definition quiet (c : Conn) : Prop := cn_live c = true /\ cn_input c = [] /\ unsent c = [].

Lemma start_one_quiet j e e' : engine_inv e -> (forall k c, conns_ e !! k = Some c -> quiet c) ->
  start_one generator_ clock j accepting e = Some e' -> forall k c, conns_ e' !! k = Some c -> quiet c.
Proof.
  intros Hi Hq E. unfold start_one in E. destruct (conns_ e !! j) as [c|] eqn:Hc; [|done]. cbn [mbind option_bind] in E.
  destruct (fill_pipeline_ok generator_ clock generator_ok _ c e (inv_enter e j c Hi Hc)) as (c1 & e1 & E1 & Hi1 & He1 & _ & Hin1).
  rewrite E1 in E. cbn [mbind option_bind] in E.
  destruct (on_writable_accepted _ c1 e1 Hi1) as (c2 & e2 & E2 & _ & He2 & Hu & Hin2). rewrite E2 in E. injection E as <-.
  intros k d Hd. cbn [put_back conns_ with_conns] in Hd. destruct (Hq j c Hc) as (Hl & Hin & _).
  apply list_lookup_insert_Some in Hd as [(_ & <- & _)|[_ Hd]].
  - split_and!; [by rewrite (ev_live _ _ _ _ He2), (ev_live _ _ _ _ He1) | congruence | done].
  - rewrite (ev_conns _ _ _ _ He2), (ev_conns _ _ _ _ He1) in Hd. by eapply Hq.
Qed.

Lemma start_each_quiet n m j e e' : engine_inv e -> settled_below j e -> (forall k c, conns_ e !! k = Some c -> quiet c) ->
  (j + n = length (conns_ e))%nat -> start_each generator_ clock j n (replicate m accepting) e = Some e' ->
  forall k c, conns_ e' !! k = Some c -> quiet c.
Proof.
  revert m j e. induction n as [|n IH]; intros m j e Hi Hs Hq Hlen E; cbn [start_each] in E; [by injection E as <-|].
  destruct m as [|m]; [done|]. cbn [replicate] in E.
  destruct (start_one_ok generator_ clock generator_ok j accepting e Hi Hs) as (e1 & E1 & Hi1 & Hs1 & _ & Hl1 & _);
    [intros k c _ Hc; by apply (Hq k c) | lia | apply accepting_ok|].
  rewrite E1 in E. cbn [mbind option_bind] in E. apply (IH m (S j) e1 Hi1 Hs1 (start_one_quiet j e e1 Hi Hq E1)); [lia | done].
Qed.

Lemma opening_quiet e : opening e -> forall k c, conns_ e !! k = Some c -> quiet c.
Proof. intros Ho k c Hc. by destruct (op_index _ Ho _ _ Hc) as (fd & -> & _). Qed.

(** ** Destruction *)

Lemma destroy_conns cs e :
  let e' := foldl (fun e conn => destroy_conn conn e) e cs in
  omap open_call (calls e') = omap open_call (calls e) /\
  omap close_call (calls e') = omap close_call (calls e) ++ filter (fun fd => 0 <= fd) (cn_fd <$> cs).
Proof.
  revert e. induction cs as [|c cs IH]; intros e; cbn [foldl]; [by rewrite app_nil_r|].
  destruct (IH (destroy_conn c e)) as [-> ->]. rewrite fmap_cons, filter_cons. unfold destroy_conn.
  destruct (Z.leb_spec 0 (cn_fd c)).
  - rewrite decide_True by done. cbn [calls call]. rewrite !omap_app. cbn [omap list_omap open_call close_call]. by rewrite app_nil_r, <- app_assoc.
  - rewrite decide_False by lia. done.
Qed.

Lemma destroy_engine_calls e :
  omap open_call (calls (destroy_engine e)) = omap open_call (calls e) /\
  omap close_call (calls (destroy_engine e)) = omap close_call (calls e) ++ held e.
Proof.
  unfold destroy_engine, held. set (e1 := if 0 <=? epoll_fd_ e then _ else e).
  destruct (destroy_conns (conns_ e1) e1) as [H1 H2].
  assert (Hc : conns_ e1 = conns_ e) by (unfold e1; by destruct (0 <=? epoll_fd_ e)). rewrite Hc in *. rewrite H1, H2, filter_cons.
  unfold e1. destruct (Z.leb_spec 0 (epoll_fd_ e)).
  - rewrite decide_True by done. cbn [calls call]. rewrite !omap_app. cbn [omap list_omap open_call close_call]. by rewrite app_nil_r, <- app_assoc.
  - rewrite decide_False by lia. done.
Qed.

(** All that was opened has been closed, each descriptor once. *)
Definition released (e : Engine U) : Prop := omap open_call (calls e) ≡ₚ omap close_call (calls e).

Lemma destroyed_released e : omap open_call (calls e) ≡ₚ omap close_call (calls e) ++ held e -> released (destroy_engine e).
Proof. intros H. destruct (destroy_engine_calls e) as [E1 E2]. unfold released. by rewrite E1, E2. Qed.

(** ** Properties *)

(** C26: the engine accounts for every request.  Whatever the kernel and the
    server do, in every state in which the event loop waits: each request
    issued on a connection has been reported complete once, with a response of
    its opcode, or is outstanding; the counters are exact and do not wrap; a
    connection never has more than the configured number outstanding; and what
    it has sent and still holds is the frames of its requests, in order. *)
Theorem engine_accounts cfg u e : config_typed cfg -> engine_reachable cfg u e ->
  sent (stats_ e) = issued_ e /\ 0 <= issued_ e <= ec_requests cfg /\
  received (stats_ e) = len (completions (calls e)) /\ received (stats_ e) + total (conns_ e) = issued_ e /\
  live_connections_ e = live_count (conns_ e) /\
  Forall (fun k => rs_opcode (cp_response k) = sp_opcode (cp_request k)) (completions (calls e)) /\
  forall j c, conns_ e !! j = Some c ->
    pending_size c <= ec_pipeline_depth cfg /\
    issued_on (cn_index c) (calls e) ≡ₚ completed_on (cn_index c) (calls e) ++ outstanding c /\
    sent_on (cn_index c) (calls e) ++ unsent c = frames (issued_on (cn_index c) (calls e)).
Proof.
  intros Ht Hr. destruct (reachable_waiting cfg u e Ht Hr) as [[Hi _] <-]. destruct (gi_core _ Hi) as [C1 C2 C3 C4 C5 C6 C7].
  change (pending_size (new_conn 0 0)) with 0 in C4. split; [done|]. split; [done|]. split; [done|]. split; [lia|].
  split; [apply Hi|]. split; [apply Hi|]. intros j c Hc. destruct (gi_conns _ Hi _ _ Hc). by split_and!.
Qed.

(** the engine is never stuck.  Every event on a connection is handled, and
    while the engine waits, each live connection has its pipeline full unless
    there is nothing left to issue, and epoll watches it for input, and for
    room to write exactly when something is unsent. *)
Theorem engine_never_idle cfg u e : config_typed cfg -> engine_reachable cfg u e ->
  (forall j flags io, (j < length (conns_ e))%nat -> event_io_ok io ->
     exists e', handle_event generator_ on_complete_ clock j flags io e = Some e') /\
  forall j c, conns_ e !! j = Some c -> cn_live c = true -> watched c e /\ filled c e.
Proof.
  intros Ht Hr. destruct (reachable_waiting cfg u e Ht Hr) as [Hw _]. split.
  - intros j flags io Hj Hio. destruct (handle_event_ok generator_ on_complete_ clock generator_ok j flags io e Hw Hj Hio) as (e' & E & _). by exists e'.
  - intros j c Hc Hl. destruct (wa_settled _ Hw j c (lookup_lt_Some _ _ _ Hc) Hc Hl) as (H1 & H2 & _). done.
Qed.

(** C17: success means that all was answered.  If [run] returns without an
    error, whatever the kernel and the server did, then the requests asked for
    were issued, or all the generator had, each was sent whole and reported
    complete exactly once with a response of its opcode. *)
Theorem engine_success cfg u epoll opens ios waits e0 e : config_typed cfg -> fd_ok epoll ->
  Forall (fun io => fd_ok (oi_socket io)) opens -> ec_connections cfg <= len opens ->
  Forall (fun io => socket_answers (wi_sends io)) ios -> ec_connections cfg <= len ios ->
  Forall (wait_ok (length (conns_ e0))) waits ->
  connect_all errno_text epoll opens (new_engine cfg u) = Some ([], e0) ->
  run generator_ on_complete_ clock errno_text ios waits e0 = Some ([], e) -> answered e /\ config_ e = cfg.
Proof. apply engine_success_from. Qed.

(** C27: the engine finishes.  Against a server that reads what it is sent and
    answers at least one of the outstanding requests while the engine waits, in
    any order, on any connections and with any status and value, [run] returns
    without an error after at most as many waits as there are requests, and
    everything is answered. *)
Theorem engine_finishes serve cfg u epoll opens e0 : config_typed cfg -> fd_ok epoll ->
  Forall (fun io => fd_ok (oi_socket io)) opens -> ec_connections cfg <= len opens ->
  (forall e j c, calm e -> conns_ e !! j = Some c ->
     Forall (answers (cn_pending c)) (serve e j) /\ NoDup (rs_request_id <$> serve e j) /\
     len (response_frames (serve e j)) < 2 ^ 63) ->
  (forall e j c, calm e -> conns_ e !! j = Some c -> cn_pending c <> ∅ ->
     exists k, (k < length (conns_ e))%nat /\ serve e k <> []) ->
  connect_all errno_text epoll opens (new_engine cfg u) = Some ([], e0) ->
  let ios := replicate (length (conns_ e0)) accepting in
  exists e1 waits e, start_each generator_ clock 0 (length (conns_ e0)) ios e0 = Some e1 /\ plays serve e1 waits /\
    len waits <= ec_requests cfg /\ run generator_ on_complete_ clock errno_text ios waits e0 = Some ([], e) /\ answered e.
Proof.
  intros Ht He Ho Hno Hserve Hsome Ec ios.
  destruct (connect_all_ok cfg u epoll opens Ht He Ho Hno) as (error & e0' & E' & _ & _ & H). rewrite Ec in E'. injection E' as <- <-.
  destruct (H eq_refl) as (Hop & Hlen & _).
  assert (Hio : Forall (fun io => socket_answers (wi_sends io)) ios) by (apply Forall_replicate, accepting_ok).
  destruct (start_ok cfg u epoll opens ios e0 Ht He Ho Hno Hio) as (_ & Hne & Hcfg & e1 & E1 & Hw & Hl & Hcfg1);
    [unfold ios, len in *; rewrite length_replicate; lia | done|].
  assert (Hcm : calm e1).
  { split; [done | | intros E; rewrite E in Hl; by destruct (conns_ e0)].
    apply (start_each_quiet (length (conns_ e0)) (length (conns_ e0)) 0 e0 e1); [by apply opening_inv | intros ???; lia | by apply opening_quiet | done | done]. }
  destruct (plays_finish serve Hserve Hsome e1 Hcm) as (waits & e & H1 & H2 & H3 & H4 & H5 & _).
  exists e1, waits, e. split_and!; [done | done | | unfold run; by rewrite E1 | apply done_answered; [apply H4 | done]].
  pose proof (gi_core _ (wa_inv _ Hw)) as Hco. destruct (co_received _ _ _ Hco) as (Hrec & _). rewrite Hcfg1, Hcfg in H2. lia.
Qed.

(** no descriptor is leaked or closed twice.  [connect_all] returns, and
    whether it fails at any call, or the engine is destroyed in any state of
    its run, the descriptors it opened are those it closed. *)
Theorem engine_releases cfg u epoll opens : config_typed cfg -> fd_ok epoll ->
  Forall (fun io => fd_ok (oi_socket io)) opens -> ec_connections cfg <= len opens ->
  (exists error e, connect_all errno_text epoll opens (new_engine cfg u) = Some (error, e) /\ released (destroy_engine e)) /\
  forall e, engine_reachable cfg u e -> released (destroy_engine e).
Proof.
  intros Ht He Ho Hno. split.
  - destruct (connect_all_ok cfg u epoll opens Ht He Ho Hno) as (error & e & E & H & _). exists error, e. split; [done|].
    apply destroyed_released. destruct H as [[-> ->]|H]; [done | by apply opening_inv in H; apply H].
  - intros e Hr. destruct (reachable_waiting cfg u e Ht Hr) as [[Hi _] _]. apply destroyed_released, Hi.
Qed.
End Run.

(** ** A server that answers all outstanding requests at once *)

Definition echo {U} (e : Engine U) (j : nat) : list Response :=
  match conns_ e !! j with
  | Some c => (fun x => mkResponse (sp_opcode x.2) Status.kOk x.1 []) <$> outstanding c
  | None => []
  end.

Lemma echo_frames (xs : list (Z * RequestSpec)) (f := fun x : Z * RequestSpec => mkResponse (sp_opcode x.2) Status.kOk x.1 []) :
  Forall (fun x => response_ok default_limits (f x) = true) xs -> len (response_frames (f <$> xs)) = 24 * len xs.
Proof.
  induction 1 as [|x xs Hx _ IH]; [done|]. rewrite fmap_cons.
  change (response_frames (f x :: ?l)) with (serialize_response (f x) ++ response_frames l).
  rewrite (response_frame_lens _ _ _ Hx), IH, len_cons. unfold kHeaderSize. cbn [f rs_value]. rewrite len_nil. lia.
Qed.

Lemma echo_answers {U} (e : Engine U) j c : calm e -> conns_ e !! j = Some c ->
  Forall (answers (cn_pending c)) (echo e j) /\ NoDup (rs_request_id <$> echo e j) /\ len (response_frames (echo e j)) < 2 ^ 63.
Proof.
  intros [[Hi _] _ _] Hc. unfold echo. rewrite Hc. set (f := fun x : Z * RequestSpec => mkResponse (sp_opcode x.2) Status.kOk x.1 []).
  pose proof (gi_conns _ Hi _ _ Hc) as Hk. pose proof (gi_core _ Hi) as Hco. pose proof (eo_memory _ (gi_config _ Hi)) as Hmem.
  pose proof (co_issued _ _ _ Hco) as Hiss.
  assert (Hout : Forall (fun x => exists p, cn_pending c !! x.1 = Some p /\ pd_spec p = x.2) (outstanding c)).
  { unfold outstanding. apply Forall_fmap, Forall_forall. intros [i p] Hin. apply elem_of_map_to_list in Hin. exists p. exact (conj Hin eq_refl). }
  assert (Hspec : Forall (fun x => spec_ok x.2) (outstanding c)).
  { pose proof (co_specs _ _ _ Hco (cn_index c)) as Hs. rewrite (ck_requests _ _ _ _ Hk) in Hs. apply Forall_app in Hs as [_ Hs]. exact Hs. }
  assert (Hok : Forall (fun x => response_ok default_limits (f x) = true) (outstanding c)).
  { rewrite Forall_forall in Hout, Hspec |- *. intros x Hx. destruct (Hout x Hx) as (p & Hp & _). destruct (Hspec x Hx) as [Hn _].
    destruct (ck_ids _ _ _ _ Hk x.1) as [H1 H2]; [by eexists|]. unfold response_ok. cbn [f rs_opcode rs_status rs_request_id rs_value].
    rewrite Hn, (proj2 (Z.leb_le 0 x.1)), (proj2 (Z.ltb_lt x.1 (2 ^ 64))) by lia. done. }
  split_and!.
  - apply Forall_fmap. rewrite Forall_forall in Hout, Hok |- *. intros x Hx. split; [by apply Hok|].
    destruct (Hout x Hx) as (p & Hp & Es). exists p. split; [done|]. cbn. by rewrite Es.
  - rewrite <- list_fmap_compose. unfold outstanding. rewrite <- list_fmap_compose. cbn.
    replace (_ <$> _) with ((map_to_list (cn_pending c)).*1); [apply NoDup_fst_map_to_list|].
    by apply list_fmap_ext; intros ? [id p] _.
  - rewrite (echo_frames _ Hok : len (response_frames (f <$> outstanding c)) = _). destruct (co_received _ _ _ Hco) as (H1 & H2 & H3). pose proof (total_lookup _ _ _ Hc) as Ht.
    assert (len (outstanding c) = pending_size c) as ->.
    { unfold outstanding, len, pending_size. by rewrite length_fmap, length_map_to_list. }
    change (pending_size (new_conn 0 0)) with 0 in H3. lia.
Qed.

Lemma echo_some {U} (e : Engine U) j c : calm e -> conns_ e !! j = Some c -> cn_pending c <> ∅ ->
  exists k, (k < length (conns_ e))%nat /\ echo e k <> [].
Proof.
  intros _ Hc Hne. exists j. split; [by eapply lookup_lt_Some|]. unfold echo. rewrite Hc. unfold outstanding.
  intros E. apply fmap_nil_inv, fmap_nil_inv, map_to_list_empty_iff in E. done.
Qed.

(** ** Witnesses: two connections, a pipeline of two, three requests *)

Definition pings (i seq : Z) (spec : RequestSpec) (u : unit) : bool * RequestSpec * unit := (true, mkRequestSpec Opcode.kPing [] [], u).
Definition ignore (k : Completion) (u : unit) : unit := u.
Definition no_time (n : nat) : Z := Z.of_nat n.
Definition no_text (errno : Z) : bytes := lit "error".
Definition demo_config : EngineConfig := mkEngineConfig (lit "/tmp/s") 2 2 3 0 30000.
Definition demo_open (fd : Z) : OpenIo := mkOpenIo (NewFd fd) Success Success Success Success.
Definition demo_opens : list OpenIo := [demo_open 4; demo_open 5].
Definition demo_engine : Engine unit :=
  match connect_all no_text (NewFd 3) demo_opens (new_engine demo_config tt) with
  | Some (_, e) => e | None => new_engine demo_config tt end.
Definition demo_ios : list WriteIo := [accepting; accepting].
Definition demo_start : Engine unit :=
  match start_each pings no_time 0 2 demo_ios demo_engine with Some e => e | None => demo_engine end.
Definition pong (id : Z) : Response := mkResponse Opcode.kPing Status.kOk id [].
Definition demo_waits : list WaitResult :=
  [WaitFailed EINTR; WaitEvents [(0%nat, EPOLLIN, delivery [pong 2; pong 1]); (1%nat, EPOLLIN, delivery [pong 3])]].
Definition demo_end : Engine unit :=
  match run pings ignore no_time no_text demo_ios demo_waits demo_engine with Some (_, e) => e | None => demo_engine end.

Lemma pings_ok i seq u : (pings i seq default_spec u).1.1 = true -> spec_ok (pings i seq default_spec u).1.2.
Proof. intros _. split; [done|]. by split. Qed.

Lemma demo_config_typed : config_typed demo_config.
Proof. by split. Qed.

Lemma demo_opens_ok : Forall (fun io => fd_ok (oi_socket io)) demo_opens.
Proof. repeat constructor; by cbn. Qed.

Lemma demo_ios_ok : Forall (fun io => socket_answers (wi_sends io)) demo_ios.
Proof. repeat (apply Forall_cons; split; [apply accepting_ok|]). apply Forall_nil. done. Qed.

Lemma demo_connected : connect_all no_text (NewFd 3) demo_opens (new_engine demo_config tt) = Some ([], demo_engine).
Proof. vm_compute. reflexivity. Qed.

Lemma demo_started : start_each pings no_time 0 (length (conns_ demo_engine)) demo_ios demo_engine = Some demo_start.
Proof. vm_compute. reflexivity. Qed.

Lemma demo_fd_ok : fd_ok (NewFd 3).
Proof. by cbn. Qed.

Lemma demo_opens_enough : ec_connections demo_config <= len demo_opens.
Proof. vm_compute. discriminate. Qed.

Lemma demo_ios_enough : ec_connections demo_config <= len demo_ios.
Proof. vm_compute. discriminate. Qed.

Lemma demo_start_reachable : engine_reachable pings ignore no_time no_text demo_config tt demo_start.
Proof.
  exact (reach_start pings ignore no_time no_text demo_config tt (NewFd 3) demo_opens demo_ios demo_engine demo_start
    demo_fd_ok demo_opens_ok demo_opens_enough demo_ios_ok demo_ios_enough demo_connected demo_started).
Qed.

Lemma engine_accounts_witness : issued_ demo_start = 3 /\ received (stats_ demo_start) + total (conns_ demo_start) = 3.
Proof.
  destruct (engine_accounts pings ignore no_time no_text pings_ok demo_config tt demo_start demo_config_typed demo_start_reachable)
    as (_ & _ & _ & H & _). split; [vm_compute; reflexivity | exact H].
Defined.

Lemma engine_never_idle_witness : exists c, conns_ demo_start !! 0%nat = Some c /\ watched c demo_start.
Proof.
  destruct (engine_never_idle pings ignore no_time no_text pings_ok demo_config tt demo_start demo_config_typed demo_start_reachable) as [_ H].
  destruct (conns_ demo_start !! 0%nat) as [c|] eqn:E; [|vm_compute in E; discriminate E].
  exists c. split; [reflexivity|]. apply (H 0%nat c E). vm_compute in E. injection E as <-. reflexivity.
Defined.

Lemma delivery_ok rs : len (response_frames rs) < 2 ^ 63 -> event_io_ok (delivery rs).
Proof.
  intros H. split; [by exists [Received (response_frames rs)]|]. split; [|by split; apply accepting_ok].
  unfold recv_total. cbn. by rewrite app_nil_r.
Qed.

Lemma demo_waits_ok : Forall (wait_ok (length (conns_ demo_engine))) demo_waits.
Proof.
  assert (Hl : length (conns_ demo_engine) = 2%nat) by (vm_compute; reflexivity). rewrite Hl. unfold demo_waits.
  apply Forall_cons. split; [exact I|]. apply Forall_singleton. cbn [wait_ok].
  apply Forall_cons. split; [|apply Forall_singleton]; (split; [cbn; lia | apply delivery_ok; vm_compute; reflexivity]).
Qed.

Lemma demo_ran : run pings ignore no_time no_text demo_ios demo_waits demo_engine = Some ([], demo_end).
Proof. vm_compute. reflexivity. Qed.

Lemma engine_success_witness : answered demo_end /\ received (stats_ demo_end) = 3.
Proof.
  split; [|vm_compute; reflexivity].
  exact (proj1 (engine_success pings ignore no_time no_text pings_ok demo_config tt (NewFd 3) demo_opens demo_ios demo_waits demo_engine demo_end
    demo_config_typed demo_fd_ok demo_opens_ok demo_opens_enough demo_ios_ok demo_ios_enough demo_waits_ok demo_connected demo_ran)).
Defined.

Lemma engine_finishes_witness : exists e1 waits e,
  plays pings ignore no_time echo e1 waits /\ len waits <= 3 /\
  run pings ignore no_time no_text (replicate (length (conns_ demo_engine)) accepting) waits demo_engine = Some ([], e) /\ answered e.
Proof.
  destruct (engine_finishes pings ignore no_time no_text pings_ok echo demo_config tt (NewFd 3) demo_opens demo_engine
    demo_config_typed demo_fd_ok demo_opens_ok demo_opens_enough echo_answers echo_some demo_connected) as
    (e1 & waits & e & _ & H2 & H3 & H4 & H5).
  exists e1, waits, e. exact (conj H2 (conj H3 (conj H4 H5))).
Defined.

Lemma engine_releases_witness : released (destroy_engine demo_start) /\ omap close_call (calls (destroy_engine demo_start)) = [3; 4; 5].
Proof.
  split; [|vm_compute; reflexivity].
  exact (proj2 (engine_releases pings ignore no_time no_text pings_ok demo_config tt (NewFd 3) demo_opens
    demo_config_typed demo_fd_ok demo_opens_ok demo_opens_enough) demo_start demo_start_reachable).
Defined.
