(* ===== verification/EngineTrace.v ===== *)
(** * The callbacks of the pipelining client

    The tools that use the engine of benchmark/async_client.cpp keep their
    results in what the callbacks capture.  For a generator that always has
    another request and does not touch the results, these are the fold of the
    completion handler over the completions of the log, in order, and every
    request in the log is one the generator gives.  [drive] is how the tools use
    an engine: they connect it, and run it if that had no error. *)

From S2P Require Import Prelude Protocol Serializer Sys Engine EngineProps EngineRun.

(** A wrapping counter over a list. *)
Lemma foldl_count {A V} (step : V -> A -> V) (f : V -> Z) (P : A -> Prop) `{forall x, Decision (P x)} v l :
  (forall v k, 0 <= f v < 2 ^ 64 -> f (step v k) = u64 (f v + if decide (P k) then 1 else 0)) -> 0 <= f v < 2 ^ 64 ->
  f (foldl step v l) = u64 (f v + len (filter P l)).
Proof.
  intros Hs. revert v. induction l as [|k l IH]; intros v Hv; cbn [foldl].
  { change (len (filter P [])) with 0. rewrite Z.add_0_r. symmetry. by apply u64_small. }
  rewrite IH by (rewrite Hs by done; apply u64_range). rewrite Hs by done. rewrite u64_add_l, filter_cons.
  f_equal. case_decide; rewrite ?len_cons; lia.
Qed.

Lemma filter_none {A} (P : A -> Prop) `{forall x, Decision (P x)} l : len (filter P l) = 0 -> Forall (fun x => ~ P x) l.
Proof.
  intros E. apply Forall_forall. intros x Hx HP. apply len_0 in E.
  assert (Hin : x ∈ filter P l) by (by apply list_elem_of_filter). rewrite E in Hin. by apply elem_of_nil in Hin.
Qed.

Lemma len_filter {A} (P : A -> Prop) `{forall x, Decision (P x)} l : 0 <= len (filter P l) <= len l.
Proof. split; [apply len_nonneg|]. unfold len. apply Nat2Z.inj_le, length_filter. Qed.

Section Callbacks.
Context {U V : Type}.
Variable generator_ : Z -> Z -> RequestSpec -> U -> bool * RequestSpec * U.
Variable on_complete_ : Completion -> U -> U.
Variable clock : nat -> Z.
Variable errno_text : Z -> bytes.
(** The results in the captured state, what a completion does to them, and
    what the generator gives. *)
Variable view : U -> V.
Variable step : V -> Completion -> V.
Variable given : Z -> RequestSpec -> Prop.
Hypothesis generator_more : forall i seq u, (generator_ i seq default_spec u).1.1 = true.
Hypothesis generator_view : forall i seq u, view (generator_ i seq default_spec u).2 = view u.
Hypothesis generator_given : forall i seq u, given seq (generator_ i seq default_spec u).1.2.
Hypothesis complete_view : forall k u, view (on_complete_ k u) = step (view u) k.
Implicit Types (e : Engine U) (c : Conn).

Record traced (v0 : V) (e : Engine U) : Prop := mkTraced {
  tr_view : view (captured e) = foldl step v0 (completions (calls e));
  tr_given : forall i seq spec, KGenerate i seq spec ∈ calls e -> given seq spec;
  tr_more : generator_exhausted_ e = false;
}.

Definition silent (k : EngineCall) : Prop := match k with KGenerate _ _ _ | KComplete _ => False | _ => True end.

Lemma traced_call v0 k e : silent k -> traced v0 e -> traced v0 (call k e).
Proof.
  intros Hk [T1 T2 T3]. split; [| |done].
  - cbn [calls call captured]. rewrite completions_app, T1. by destruct k; rewrite ?app_nil_r.
  - intros i seq spec Hin. cbn [calls call] in Hin. apply elem_of_app in Hin as [Hin|Hin]; [by eapply T2|].
    apply list_elem_of_singleton in Hin. by subst k.
Qed.

Lemma traced_same v0 e e' : traced v0 e -> captured e' = captured e -> calls e' = calls e ->
  generator_exhausted_ e' = generator_exhausted_ e -> traced v0 e'.
Proof. intros [T1 T2 T3] E1 E2 E3. split; rewrite ?E1, ?E2, ?E3; done. Qed.

Lemma traced_fill v0 fuel c e c' e' : fill_loop generator_ clock fuel c e = Some (c', e') -> traced v0 e -> traced v0 e'.
Proof.
  revert c e. induction fuel as [|fuel IH]; intros c e E Ht; cbn [fill_loop] in E; (split_if; [by simplify_eq|]); [done|].
  pose proof (generator_more (cn_index c) (issued_ e) (captured e)) as Hm. pose proof (generator_view (cn_index c) (issued_ e) (captured e)) as Hv.
  pose proof (generator_given (cn_index c) (issued_ e) (captured e)) as Hg.
  destruct (generator_ (cn_index c) (issued_ e) default_spec (captured e)) as [[more spec] u]. cbn [fst snd] in *. subst more. cbn [negb clock_now] in E.
  eapply IH; [exact E|]. destruct Ht as [T1 T2 T3]. split; [| |done].
  - cbn. by rewrite completions_app, app_nil_r, Hv.
  - intros i seq spec' Hin. cbn in Hin. apply elem_of_app in Hin as [Hin|Hin]; [by eapply T2|].
    apply list_elem_of_singleton in Hin. by injection Hin as -> -> ->.
Qed.

Lemma traced_fill_pipeline v0 b c e c' e' : fill_pipeline generator_ clock c e = Some (b, c', e') -> traced v0 e -> traced v0 e'.
Proof.
  unfold fill_pipeline. destruct (fill_loop _ _ _ c e) as [[c1 e1]|] eqn:E; [|done]. cbn [mbind option_bind]. intros [= <- <- <-].
  by eapply traced_fill.
Qed.

Lemma traced_interest v0 ctl c want e x b c' e' :
  (let '(ok, e1) := update_interest ctl c want e in Some (ok, x, e1)) = Some (b, c', e') -> traced v0 e -> traced v0 e'.
Proof. unfold update_interest. destruct ctl; intros [= <- <- <-]; [by apply traced_call | done]. Qed.

Lemma traced_write v0 sends ctl c e b c' e' : write_loop sends ctl c e = Some (b, c', e') -> traced v0 e -> traced v0 e'.
Proof.
  revert c e. induction sends as [|send sends IH]; intros c e E Ht; cbn [write_loop] in E; (split_if; [by eapply traced_interest|]); [done|].
  destruct (send _) as [n|errno].
  - destruct (0 <? n); [|by simplify_eq]. eapply IH; [exact E|]. by apply traced_call.
  - destruct (errno =? EINTR); [by eapply IH|]. destruct (_ || _); [by eapply traced_interest | by simplify_eq].
Qed.

Lemma traced_on_writable v0 io c e b c' e' : on_writable generator_ clock io c e = Some (b, c', e') -> traced v0 e -> traced v0 e'.
Proof.
  unfold on_writable. destruct (fill_pipeline _ _ c e) as [[[b1 c1] e1]|] eqn:E; [|done]. cbn [mbind option_bind]. intros E' Ht.
  eapply traced_write; [exact E'|]. by eapply traced_fill_pipeline.
Qed.

Lemma traced_parse v0 fuel n c e b n' c' e' : parse_loop on_complete_ clock fuel n c e = Some (b, n', c', e') -> traced v0 e -> traced v0 e'.
Proof.
  revert n c e. induction fuel as [|fuel IH]; intros n c e E Ht; cbn [parse_loop] in E; (split_if; [by simplify_eq|]); [done|].
  destruct (deserialize_response _ _ _) as [[res r]|]; [|done]. cbn [mbind option_bind] in E.
  assert (Hp : traced v0 (counting count_protocol_failure e)) by (by eapply traced_same).
  destruct (pr_status res); [|by simplify_eq..]. destruct (cn_pending c !! _) as [p|]; [|by simplify_eq].
  destruct (bool_decide _); cbn [negb clock_now] in E; [|by simplify_eq]. eapply IH; [exact E|]. destruct Ht as [T1 T2 T3]. split; [| |done].
  - cbn. by rewrite complete_view, T1, completions_app, foldl_app.
  - intros i seq spec Hin. cbn in Hin. apply elem_of_app in Hin as [Hin|Hin]; [by eapply T2|]. by apply list_elem_of_singleton in Hin.
Qed.

Lemma traced_on_readable v0 recvs io c e b c' e' :
  on_readable generator_ on_complete_ clock recvs io c e = Some (b, c', e') -> traced v0 e -> traced v0 e'.
Proof.
  unfold on_readable. destruct (recv_loop recvs c) as [[more c1]|]; [|done]. cbn [mbind option_bind]. destruct more; cbn [negb]; [|by intros [= <- <- <-]].
  destruct (parse_loop _ _ _ _ c1 e) as [[[[more n] c2] e2]|] eqn:E2; [|done]. cbn [mbind option_bind].
  destruct more; cbn [negb]; intros E Ht; [|simplify_eq; by eapply traced_parse].
  destruct (fill_pipeline _ _ _ e2) as [[[b3 c3] e3]|] eqn:E3; [|done]. cbn [mbind option_bind] in E.
  eapply traced_on_writable; [exact E|]. eapply traced_fill_pipeline; [exact E3|]. by eapply traced_parse.
Qed.

Lemma traced_put_back v0 j b c e : traced v0 e -> traced v0 (put_back j (b, c, e)).
Proof.
  intros Ht. unfold put_back. destruct b; [by eapply traced_same|]. unfold drop_conn. destruct (cn_live c); cbn [negb]; [|by eapply traced_same].
  eapply (traced_same v0 (call (KClose (cn_fd c)) (call (KForget (cn_index c)) e))); [|done..].
  by apply traced_call, traced_call.
Qed.

Lemma traced_start_each v0 j n ios e e' : start_each generator_ clock j n ios e = Some e' -> traced v0 e -> traced v0 e'.
Proof.
  revert j ios e. induction n as [|n IH]; intros j ios e E Ht; cbn [start_each] in E; [by simplify_eq|].
  destruct ios as [|io ios]; [done|]. destruct (start_one _ _ j io e) as [e1|] eqn:E1; [|done]. cbn [mbind option_bind] in E.
  eapply IH; [exact E|]. unfold start_one in E1. destruct (conns_ e !! j) as [c|]; [|done]. cbn [mbind option_bind] in E1.
  destruct (fill_pipeline _ _ c e) as [[[b2 c2] e2]|] eqn:E2; [|done]. cbn [mbind option_bind] in E1.
  destruct (on_writable _ _ io c2 e2) as [[[b3 c3] e3]|] eqn:E3; [|done]. injection E1 as <-.
  apply (traced_put_back v0 j b3 c3 e3). eapply traced_on_writable; [exact E3|]. by eapply traced_fill_pipeline.
Qed.

Lemma traced_event v0 j flags io e e' : handle_event generator_ on_complete_ clock j flags io e = Some e' -> traced v0 e -> traced v0 e'.
Proof.
  unfold handle_event. destruct (conns_ e !! j) as [c|]; [|done]. cbn [mbind option_bind]. intros E Ht.
  destruct (negb (cn_live c)); [by simplify_eq|]. destruct (has_event flags (Z.lor _ _)); [injection E as <-; exact (traced_put_back v0 j false c e Ht)|].
  destruct (if has_event flags EPOLLIN then _ else _) as [[[b1 c1] e1]|] eqn:E1; [|done]. cbn [mbind option_bind] in E.
  assert (Ht1 : traced v0 e1) by (destruct (has_event flags EPOLLIN); [by eapply traced_on_readable | by simplify_eq]).
  destruct (if b1 && has_event flags EPOLLOUT then _ else _) as [[[b2 c2] e2]|] eqn:E2; [|done]. injection E as <-.
  apply (traced_put_back v0 j b2 c2 e2). destruct (b1 && has_event flags EPOLLOUT); [by eapply traced_on_writable | by simplify_eq].
Qed.

Lemma traced_run_loop v0 waits e msg e' :
  run_loop generator_ on_complete_ clock errno_text waits e = Some (msg, e') -> traced v0 e -> traced v0 e'.
Proof.
  revert e. induction waits as [|w waits IH]; intros e E Ht; cbn [run_loop] in E;
    (destruct (all_done e); [by simplify_eq|]); (destruct (live_connections_ e =? 0); [by simplify_eq|]); [done|].
  destruct w as [events|errno]; [|destruct (errno =? EINTR); [by eapply IH | by simplify_eq]].
  destruct events as [|ev events]; [by simplify_eq|]. set (evs := ev :: events) in *. clearbody evs.
  destruct (handle_events _ _ _ evs e) as [e1|] eqn:E1; [|done]. cbn [mbind option_bind] in E. eapply IH; [exact E|]. clear - E1 Ht
    generator_more generator_view generator_given complete_view.
  revert e Ht E1. induction evs as [|[[j flags] io] evs IH]; intros e Ht E1; cbn [handle_events] in E1; [by simplify_eq|].
  destruct (handle_event _ _ _ j flags io e) as [e2|] eqn:E2; [|done]. eapply IH; [|exact E1]. by eapply traced_event.
Qed.

Lemma traced_run v0 ios waits e msg e' :
  run generator_ on_complete_ clock errno_text ios waits e = Some (msg, e') -> traced v0 e -> traced v0 e'.
Proof.
  unfold run. destruct (start_each _ _ _ _ ios e) as [e1|] eqn:E1; [|done]. cbn [mbind option_bind]. intros E Ht.
  eapply traced_run_loop; [exact E|]. by eapply traced_start_each.
Qed.

(** The engine after [connect_all] has called nobody back. *)
Lemma connect_loop_captured ios i e error e' : connect_loop errno_text i ios e = Some (error, e') ->
  captured e' = captured e /\ generator_exhausted_ e' = generator_exhausted_ e.
Proof.
  revert i e. induction ios as [|io ios IH]; intros i e E; cbn [connect_loop] in E; (destruct (negb _); [by simplify_eq|]); [done|].
  assert (Hone : captured (connect_one errno_text i io e).2 = captured e /\
    generator_exhausted_ (connect_one errno_text i io e).2 = generator_exhausted_ e).
  { unfold connect_one, destroy_conn. destruct (oi_socket io) as [fd|]; [|done]. cbn [cn_fd set_cn_fd].
    by destruct (oi_connect io), (oi_getfl io), (oi_setfl io), (oi_add io), (0 <=? fd). }
  destruct (connect_one errno_text i io e) as [[|b err] e1]; cbn [snd] in Hone; destruct Hone as [<- <-]; [by eapply IH | by simplify_eq].
Qed.

Lemma opening_traced cfg u epoll opens error e : config_typed cfg -> fd_ok epoll -> Forall (fun io => fd_ok (oi_socket io)) opens ->
  ec_connections cfg <= len opens -> connect_all errno_text epoll opens (new_engine cfg u) = Some (error, e) -> traced (view u) e.
Proof.
  intros Ht He Ho Hn E. destruct (connect_all_ok errno_text cfg u epoll opens Ht He Ho Hn) as (error' & e' & E' & Hop & _).
  rewrite E in E'. injection E' as <- <-.
  assert (Hc : captured e = u /\ generator_exhausted_ e = false).
  { unfold connect_all in E. destruct (_ || _); [by simplify_eq|]. destruct (_ <=? _); [by simplify_eq|].
    destruct epoll; [|by simplify_eq]. by apply connect_loop_captured in E. }
  destruct Hc as [Hc1 Hc2]. split; [| |done].
  - rewrite Hc1. destruct Hop as [[-> _]|Hop]; [done|]. destruct (opening_log (calls e) 0 (op_calls _ Hop)) as (_ & _ & _ & _ & ->). done.
  - intros i seq spec Hin. destruct Hop as [[Hl _]|Hop]; [rewrite Hl in Hin; by apply elem_of_nil in Hin|].
    pose proof (op_calls _ Hop) as Hl. rewrite Forall_forall in Hl. by specialize (Hl _ Hin).
Qed.
End Callbacks.

(** ** Driving an engine

    Both tools connect the engine and run it. *)

(** What the kernel answers to one engine. *)
Record EngineIo := mkEngineIo {
  ki_epoll : FdResult;
  ki_opens : list OpenIo;
  ki_starts : list WriteIo;
  ki_waits : list WaitResult;
}.

Record io_ok (cfg : EngineConfig) (io : EngineIo) : Prop := mkIoOk {
  io_epoll : fd_ok (ki_epoll io);
  io_opens : Forall (fun x => fd_ok (oi_socket x)) (ki_opens io) /\ ec_connections cfg <= len (ki_opens io);
  io_starts : Forall (fun x => socket_answers (wi_sends x)) (ki_starts io) /\ ec_connections cfg <= len (ki_starts io);
  io_waits : Forall (wait_ok (Z.to_nat (ec_connections cfg))) (ki_waits io);
}.

Section Drive.
Variable clock : nat -> Z.
Variable errno_text : Z -> bytes.

Definition drive {U} (generator : Z -> Z -> RequestSpec -> U -> bool * RequestSpec * U) (complete : Completion -> U -> U)
    (io : EngineIo) (e : Engine U) : option (bytes * Engine U) :=
  '(error, e) ← connect_all errno_text (ki_epoll io) (ki_opens io) e;
  match error with
  | [] => run generator complete clock errno_text (ki_starts io) (ki_waits io) e
  | _ => Some (error, e)
  end.

(** An engine that was driven without an error has answered everything. *)
Lemma drive_answered {U} generator complete cfg io (u : U) e :
  (forall i seq u, (generator i seq default_spec u).1.1 = true -> spec_ok (generator i seq default_spec u).1.2) ->
  config_typed cfg -> io_ok cfg io -> drive generator complete io (new_engine cfg u) = Some ([], e) ->
  answered e /\ config_ e = cfg.
Proof.
  intros Hg Ht [Hep [Hop Hopn] [Hst Hstn] Hw] E. unfold drive in E.
  destruct (connect_all_ok errno_text cfg u (ki_epoll io) (ki_opens io) Ht Hep Hop Hopn) as (error & e0 & E0 & _ & _ & H).
  rewrite E0 in E. cbn [mbind option_bind] in E. destruct error; [|done]. destruct (H eq_refl) as (_ & Hlen & _).
  eapply (engine_success_from generator complete clock errno_text Hg cfg u (ki_epoll io) (ki_opens io) (ki_starts io) (ki_waits io) e0 e); try done.
  replace (length (conns_ e0)) with (Z.to_nat (ec_connections cfg)); [done | unfold len in Hlen; lia].
Qed.

Lemma drive_traced {U V} generator complete (view : U -> V) step given cfg io (u : U) error e :
  (forall i seq u, (generator i seq default_spec u).1.1 = true) ->
  (forall i seq u, view (generator i seq default_spec u).2 = view u) ->
  (forall i seq u, given seq (generator i seq default_spec u).1.2) ->
  (forall k u, view (complete k u) = step (view u) k) ->
  config_typed cfg -> io_ok cfg io -> drive generator complete io (new_engine cfg u) = Some (error, e) ->
  traced view step given (view u) e.
Proof.
  intros H1 H2 H3 H4 Ht [Hep [Hop Hopn] _ _] E. unfold drive in E.
  destruct (connect_all errno_text (ki_epoll io) (ki_opens io) (new_engine cfg u)) as [[error0 e0]|] eqn:E0; [|done].
  pose proof (opening_traced errno_text view step given cfg u _ _ _ _ Ht Hep Hop Hopn E0) as Ht0.
  cbn [mbind option_bind] in E. destruct error0; [|by simplify_eq]. by eapply traced_run.
Qed.

End Drive.

(** Nothing failed in a phase of which nothing was counted. *)
Lemma counted_none {A} (P : A -> Prop) `{forall x, Decision (P x)} v l : 0 <= v < 2 ^ 63 -> len l < 2 ^ 63 ->
  u64 (v + len (filter P l)) = 0 -> v = 0 /\ Forall (fun x => ~ P x) l.
Proof.
  intros Hv Hl E. pose proof (len_filter P l). rewrite u64_small in E by lia. split; [lia|]. apply (filter_none P). lia.
Qed.

Lemma completed_given {U V} (view : U -> V) step given v0 (e : Engine U) k : answered e -> traced view step given v0 e ->
  k ∈ completions (calls e) -> let n := rs_request_id (cp_response k) - 1 in 0 <= n < issued_ e /\ given n (cp_request k).
Proof.
  intros Ha Ht Hk n. split.
  - assert (Hid : rs_request_id (cp_response k) ∈ seqZ 1 (issued_ e)) by (rewrite <- (an_ids _ Ha); apply list_elem_of_fmap; by exists k).
    apply elem_of_seqZ in Hid. lia.
  - eapply (tr_given _ _ _ _ _ Ht). by apply (an_each _ Ha).
Qed.

Lemma answered_size {U} (e : Engine U) : answered e -> generator_exhausted_ e = false ->
  issued_ e = ec_requests (config_ e) /\ len (completions (calls e)) = issued_ e.
Proof. intros Ha Hg. destruct (an_all _ Ha) as [E|E]; [congruence|]. split; [done | apply (an_size _ Ha)]. Qed.
