(* ===== verification/Strtoull.v ===== *)
(** * Numbers on the command lines of the tools

    The C library function [strtoull] in base ten, which the benchmark tools
    use, and what it makes of a number printed in decimal. *)

From S2P Require Import Prelude Config.

(** [isspace] in the C locale. *)
Definition is_space (b : byte) : bool := (b2z b =? 32) || ((9 <=? b2z b) && (b2z b <=? 13)).

Fixpoint skip_space (s : bytes) : bytes :=
  match s with
  | [] => []
  | b :: s' => if is_space b then skip_space s' else s
  end.

Fixpoint span_digits (s : bytes) : bytes * bytes :=
  match s with
  | [] => ([], [])
  | b :: s' => if is_digit b then let '(digits, rest) := span_digits s' in (b :: digits, rest) else ([], s)
  end.

Definition sign (s : bytes) : bool * bytes :=
  match s with
  | b :: s' => if b2z b =? 45 then (true, s') else if b2z b =? 43 then (false, s') else (false, s)
  | [] => (false, s)
  end.

(** The value, and what [end] points at: white space, an optional sign and
    digits are read; a number too large gives the largest; without a digit
    nothing is read. *)
Definition strtoull (s : bytes) : Z * bytes :=
  let '(negative, t) := sign (skip_space s) in
  let '(digits, rest) := span_digits t in
  match digits with
  | [] => (0, s)
  | _ =>
      let value := dec 0 digits in
      (if 2 ^ 64 - 1 <? value then 2 ^ 64 - 1 else if negative then u64 (- value) else value, rest)
  end.

(** [*end == '\0'], on a terminated string. *)
Definition at_end (rest : bytes) : bool :=
  match rest with [] => true | b :: _ => bool_decide (b = Byte.x00) end.

(** ** Lemmas *)

Lemma span_digits_app digits rest : forallb is_digit digits = true ->
  match rest with [] => True | b :: _ => is_digit b = false end ->
  span_digits (digits ++ rest) = (digits, rest).
Proof.
  intros Hd Hr. induction digits as [|b digits IH]; cbn [app span_digits].
  - destruct rest as [|b rest]; [done|]. cbn. by rewrite Hr.
  - cbn in Hd. apply andb_true_iff in Hd as [-> Hd]. by rewrite (IH Hd).
Qed.

Lemma digit_plain b s : is_digit b = true -> sign (skip_space (b :: s)) = (false, b :: s).
Proof.
  unfold is_digit. intros H. b2p. cbn [skip_space]. unfold is_space.
  rewrite (proj2 (Z.eqb_neq _ 32)), (proj2 (Z.leb_gt (b2z b) 13)), andb_false_r by lia. cbn [orb sign].
  by rewrite (proj2 (Z.eqb_neq _ 45)), (proj2 (Z.eqb_neq _ 43)) by lia.
Qed.

Lemma to_string_digits n : 0 <= n < 2 ^ 64 ->
  forallb is_digit (to_string n) = true /\ dec 0 (to_string n) = n /\ exists b s, to_string n = b :: s.
Proof.
  intros Hn. destruct (dec_decimal 20 n [] ltac:(cbn; lia)) as [H1 H2]. split_and!; [by apply H2 | exact H1|].
  pose proof (decimal_nonempty 20 n [] ltac:(by left)). unfold to_string. destruct (decimal 20 n []); [done | by eexists _, _].
Qed.

(** A printed number is read back, up to the first byte that is no digit. *)
Lemma strtoull_to_string n rest : 0 <= n < 2 ^ 64 ->
  match rest with [] => True | b :: _ => is_digit b = false end ->
  strtoull (to_string n ++ rest) = (n, rest).
Proof.
  intros Hn Hr. destruct (to_string_digits n Hn) as (Hd & Hv & b & s & E). unfold strtoull.
  assert (Hb : is_digit b = true) by (rewrite E in Hd; by apply andb_true_iff in Hd as [? _]).
  rewrite E. cbn [app]. rewrite (digit_plain b (s ++ rest) Hb). change (b :: s ++ rest) with ((b :: s) ++ rest). rewrite <- E.
  rewrite (span_digits_app _ _ Hd Hr), Hv, (proj2 (Z.ltb_ge _ _)) by lia. by rewrite E.
Qed.

Lemma to_string_inj n m : 0 <= n < 2 ^ 64 -> 0 <= m < 2 ^ 64 -> to_string n = to_string m -> n = m.
Proof.
  intros Hn Hm E. destruct (to_string_digits n Hn) as (_ & <- & _), (to_string_digits m Hm) as (_ & <- & _). by rewrite E.
Qed.

Lemma decimal_length fuel n acc : len (decimal fuel n acc) <= Z.of_nat fuel + len acc.
Proof.
  revert n acc. induction fuel as [|fuel IH]; intros n acc; cbn [decimal]; [lia|].
  split_if; [rewrite len_cons; lia|]. specialize (IH (n / 10) (z2b (48 + n mod 10) :: acc)). rewrite len_cons in IH. lia.
Qed.

Lemma len_to_string n : len (to_string n) <= 20.
Proof. pose proof (decimal_length 20 n []). rewrite len_nil in *. unfold to_string. lia. Qed.

Lemma span_digits_spec t digits rest : span_digits t = (digits, rest) -> forallb is_digit digits = true.
Proof.
  revert digits rest. induction t as [|x t IH]; intros digits rest; cbn [span_digits]; [by intros [= <- <-]|].
  destruct (is_digit x) eqn:Hx; [|by intros [= <- <-]]. destruct (span_digits t) as [d' r'].
  intros [= <- <-]. cbn. by rewrite Hx, (IH d' r' eq_refl).
Qed.

Lemma strtoull_range s : 0 <= (strtoull s).1 < 2 ^ 64.
Proof.
  unfold strtoull. destruct (sign (skip_space s)) as [negative t]. destruct (span_digits t) as [digits rest] eqn:E.
  destruct digits as [|b digits]; [done|]. cbn [fst]. destruct (Z.ltb_spec (2 ^ 64 - 1) (dec 0 (b :: digits))); [lia|].
  destruct negative; [apply u64_range|]. split; [|lia]. apply dec_ge; [done|].
  by apply (span_digits_spec t _ rest).
Qed.
