(* ===== verification/Stress.v ===== *)
(** * The stress test

    benchmark/stress.cpp: it stores a value for each of many keys through one
    engine, reads all of them back through another, and checks every answer. *)

From S2P Require Import Prelude Protocol Stats Serializer CacheSpec SpecHistory LruCache Service Sys Strtoull.
From S2P Require Import Engine EngineProps EngineRun EngineTrace.

Record Options := mkOptions {
  o_socket : bytes;
  o_connections : Z;
  o_pipeline : Z;
  o_requests : Z;
}.
Definition default_options : Options := mkOptions (lit "/tmp/local_cache.sock") 500 32 100000.

(** ** The values *)

(** One step of the generator of the padding. *)
Definition xorshift (state : Z) : Z :=
  let state := Z.lxor state (Z.shiftr state 12) in
  let state := Z.lxor state (u64 (Z.shiftl state 25)) in
  Z.lxor state (Z.shiftr state 27).

Fixpoint pad (fuel : nat) (value : bytes) (state : Z) : bytes :=
  if len value <? 256 then
    match fuel with
    | O => value
    | S fuel => let state := xorshift state in pad fuel (value ++ [z2b (Z.land state 0xff)]) state
    end
  else value.

Definition payload (connection sequence : Z) : bytes :=
  let value := lit "LCS-STRESS:" ++ to_string connection ++ lit ":" ++ to_string sequence ++ lit ":" in
  let state := Z.lxor (u64 (u64 (sequence + 1) * 0x9e3779b97f4a7c15)) connection in
  pad 256 value state.

(** ** The command line *)

Definition parse_number (s : bytes) : option Z :=
  let '(out, rest) := strtoull s in
  if negb (len s =? 0) && at_end rest && (0 <? out) then Some out else None.

(** The options, or the exit code with what goes to standard error. *)
Fixpoint stress_args (args : list bytes) (o : Options) : Options + (Z * bytes) :=
  match args with
  | [] => inl o
  | [_] => inr (2, line (lit "missing option value"))
  | arg :: value :: args =>
      if bool_decide (arg = lit "--socket") then
        stress_args args (mkOptions value (o_connections o) (o_pipeline o) (o_requests o))
      else
      match parse_number value with
      | None => inr (2, [])
      | Some n =>
          if bool_decide (arg = lit "--connections") then
            stress_args args (mkOptions (o_socket o) n (o_pipeline o) (o_requests o))
          else if bool_decide (arg = lit "--pipeline") then
            stress_args args (mkOptions (o_socket o) (o_connections o) n (o_requests o))
          else if bool_decide (arg = lit "--requests") then
            stress_args args (mkOptions (o_socket o) (o_connections o) (o_pipeline o) n)
          else inr (2, [])
      end
  end.

(** ** The callbacks *)

(** The variables of [main] the callbacks count in. *)
Record Failures := mkFailures {
  validation_failures : Z;
  f_protocol_failures : Z;
  corruption_failures : Z;
}.

Definition stress_key (sequence : Z) : bytes := lit "stress:" ++ to_string sequence.

Definition put_generator (_ sequence : Z) (request : RequestSpec) (f : Failures) : bool * RequestSpec * Failures :=
  (true, mkRequestSpec Opcode.kPut (stress_key sequence) (payload 0 sequence), f).

Definition count_protocol (k : Completion) (f : Failures) : Failures :=
  if rs_request_id (cp_response k) =? 0
  then mkFailures (validation_failures f) (u64 (f_protocol_failures f + 1)) (corruption_failures f) else f.
Definition count_validation (f : Failures) : Failures :=
  mkFailures (u64 (validation_failures f + 1)) (f_protocol_failures f) (corruption_failures f).
Definition count_corruption (f : Failures) : Failures :=
  mkFailures (validation_failures f) (f_protocol_failures f) (u64 (corruption_failures f + 1)).

Definition is_ok (k : Completion) : bool := bool_decide (rs_status (cp_response k) = Status.kOk).

Definition put_complete (k : Completion) (f : Failures) : Failures :=
  let f := count_protocol k f in
  let f := if is_ok k then f else count_validation f in
  if negb (len (rs_value (cp_response k)) =? 0) then count_corruption f else f.

Definition get_generator (_ sequence : Z) (request : RequestSpec) (f : Failures) : bool * RequestSpec * Failures :=
  (true, mkRequestSpec Opcode.kGet (stress_key sequence) (sp_value request), f).

(** [std::string::rfind] of one character. *)
Fixpoint rfind (c : byte) (s : bytes) : option nat :=
  match s with
  | [] => None
  | b :: s =>
      match rfind c s with
      | Some i => Some (S i)
      | None => if bool_decide (b = c) then Some 0%nat else None
      end
  end.

(** [key.c_str() + separator + 1]; [npos + 1] is zero. *)
Definition key_sequence (key : bytes) : Z :=
  (strtoull (match rfind Byte.x3a key with Some i => drop (S i) key | None => key end)).1.

Definition get_complete (k : Completion) (f : Failures) : Failures :=
  let f := count_protocol k f in
  if negb (is_ok k) then count_validation f else
  if bool_decide (rs_value (cp_response k) = payload 0 (key_sequence (sp_key (cp_request k)))) then f else count_corruption f.

(** ** The program *)

Definition stress_config (o : Options) : EngineConfig :=
  mkEngineConfig (o_socket o) (o_connections o) (o_pipeline o) (o_requests o) 0 30000.

Section Main.
Variable clock : nat -> Z.
Variable errno_text : Z -> bytes.

(** The error, and both engines at the end; the second is driven only if the
    first had no error. *)
Definition stress_run (o : Options) (io1 io2 : EngineIo) : option (bytes * Engine Failures * Engine Failures) :=
  '(error, put_engine) ← drive clock errno_text put_generator put_complete io1 (new_engine (stress_config o) (mkFailures 0 0 0));
  let get_engine := new_engine (stress_config o) (captured put_engine) in
  match error with
  | [] => '(error, get_engine) ← drive clock errno_text get_generator get_complete io2 get_engine; Some (error, put_engine, get_engine)
  | _ => Some (error, put_engine, get_engine)
  end.

Definition stress_report (o : Options) (sent received validation protocol connection io corruption : Z) : bytes :=
  line (lit "Stress Validation") ++ line (lit "-----------------------------") ++
  line (lit "Connections:              " ++ to_string (o_connections o)) ++
  line (lit "Pipeline depth:           " ++ to_string (o_pipeline o)) ++
  line (lit "Target in-flight:         " ++ to_string (u64 (o_connections o * o_pipeline o))) ++
  line (lit "Requests sent:           " ++ to_string sent) ++
  line (lit "Responses received:      " ++ to_string received) ++
  line (lit "Validation failures:     " ++ to_string validation) ++
  line (lit "Protocol failures:       " ++ to_string protocol) ++
  line (lit "Connection failures:     " ++ to_string connection) ++
  line (lit "I/O failures:            " ++ to_string io) ++
  line (lit "Data corruption failures: " ++ to_string corruption).

(** The exit code, standard output and standard error. *)
Definition stress_main (args : list bytes) (io1 io2 : EngineIo) : option (Z * bytes * bytes) :=
  match stress_args args default_options with
  | inr (code, err) => Some (code, [], err)
  | inl o =>
      '(error, put_engine, get_engine) ← stress_run o io1 io2;
      let put_stats := stats_ put_engine in
      let get_stats := stats_ get_engine in
      let f := captured get_engine in
      let total_sent := u64 (sent put_stats + sent get_stats) in
      let total_received := u64 (received put_stats + received get_stats) in
      let connection_failures := u64 (connect_failures put_stats + connect_failures get_stats) in
      let all_io_failures := u64 (io_failures put_stats + io_failures get_stats) in
      let protocol := u64 (f_protocol_failures f + u64 (protocol_failures put_stats + protocol_failures get_stats)) in
      let out := stress_report o total_sent total_received (validation_failures f) protocol connection_failures
                   all_io_failures (corruption_failures f) in
      let err := match error with [] => [] | _ => line error end in
      let good := match error with [] => true | _ => false end && (validation_failures f =? 0) && (protocol =? 0) &&
                  (connection_failures =? 0) && (all_io_failures =? 0) && (corruption_failures f =? 0) in
      Some (if good then 0 else 1, out, err)
  end.
End Main.

(** ** Keys and values *)

Lemma pad_spec fuel value state : len value <= 256 -> 256 - len value <= Z.of_nat fuel ->
  len (pad fuel value state) = 256 /\ exists more, pad fuel value state = value ++ more.
Proof.
  revert value state. induction fuel as [|fuel IH]; intros value state Hv Hf; cbn [pad];
    (destruct (Z.ltb_spec (len value) 256); [|split; [lia | exists []; by rewrite app_nil_r]]); [lia|].
  destruct (IH (value ++ [z2b (Z.land (xorshift state) 0xff)]) (xorshift state)) as [H1 [more H2]];
    [rewrite len_app; change (len [_]) with 1; lia..|].
  split; [done|]. exists ([z2b (Z.land (xorshift state) 0xff)] ++ more). by rewrite H2, <- app_assoc.
Qed.

Lemma payload_spec c s : len (payload c s) = 256 /\
  exists more, payload c s = lit "LCS-STRESS:" ++ to_string c ++ [Byte.x3a] ++ to_string s ++ [Byte.x3a] ++ more.
Proof.
  unfold payload. pose proof (len_to_string c). pose proof (len_to_string s).
  set (value := lit "LCS-STRESS:" ++ _). set (state := Z.lxor _ _).
  assert (Hv : len value = 13 + len (to_string c) + len (to_string s)).
  { unfold value. rewrite !len_app. change (len (lit "LCS-STRESS:")) with 11. change (len (lit ":")) with 1. lia. }
  destruct (pad_spec 256 value state) as [H1 [more H2]]; [lia | pose proof (len_nonneg value); lia|].
  split; [done|]. exists more. rewrite H2. unfold value. by rewrite <- !app_assoc.
Qed.

(** A number, a colon and more, in two ways. *)
Lemma numbered_inj n m a b : 0 <= n < 2 ^ 64 -> 0 <= m < 2 ^ 64 ->
  to_string n ++ [Byte.x3a] ++ a = to_string m ++ [Byte.x3a] ++ b -> n = m /\ a = b.
Proof.
  intros Hn Hm E. pose proof (strtoull_to_string n (Byte.x3a :: a) Hn eq_refl) as En.
  pose proof (strtoull_to_string m (Byte.x3a :: b) Hm eq_refl) as Em. cbn [app] in E. rewrite E, Em in En. by injection En as -> ->.
Qed.

Lemma payload_inj c s c' s' : 0 <= c < 2 ^ 64 -> 0 <= c' < 2 ^ 64 -> 0 <= s < 2 ^ 64 -> 0 <= s' < 2 ^ 64 ->
  payload c s = payload c' s' -> c = c' /\ s = s'.
Proof.
  intros Hc Hc' Hs Hs' E. destruct (payload_spec c s) as [_ [more E1]], (payload_spec c' s') as [_ [more' E2]].
  rewrite E1, E2 in E. apply app_inv_head in E. apply numbered_inj in E as [-> E]; [|done..]. by apply numbered_inj in E as [-> _].
Qed.

Lemma rfind_app c a b : rfind c b = None -> rfind c (a ++ c :: b) = Some (length a).
Proof.
  intros H. induction a as [|x a IH]; cbn [app rfind]; [by rewrite H, bool_decide_true | by rewrite IH].
Qed.

Lemma rfind_digits s : forallb Config.is_digit s = true -> rfind Byte.x3a s = None.
Proof.
  induction s as [|b s IH]; [done|]. cbn [forallb rfind]. intros [Hb Hs]%andb_true_iff. rewrite (IH Hs), bool_decide_false; [done|].
  intros ->. vm_compute in Hb. discriminate Hb.
Qed.

Lemma key_sequence_key n : 0 <= n < 2 ^ 64 -> key_sequence (stress_key n) = n.
Proof.
  intros Hn. destruct (to_string_digits n Hn) as (Hd & _). unfold key_sequence, stress_key.
  change (lit "stress:" ++ to_string n) with (lit "stress" ++ Byte.x3a :: to_string n).
  rewrite (rfind_app _ _ _ (rfind_digits _ Hd)). change (S (length (lit "stress"))) with 7%nat.
  change (drop 7 (lit "stress" ++ Byte.x3a :: to_string n)) with (to_string n).
  rewrite <- (app_nil_r (to_string n)). by rewrite (strtoull_to_string n []).
Qed.

Lemma stress_key_inj n m : 0 <= n < 2 ^ 64 -> 0 <= m < 2 ^ 64 -> stress_key n = stress_key m -> n = m.
Proof. intros Hn Hm E. rewrite <- (key_sequence_key n Hn), <- (key_sequence_key m Hm). by rewrite E. Qed.

Lemma len_stress_key n : 7 <= len (stress_key n) <= 27.
Proof.
  unfold stress_key. rewrite len_app. change (len (lit "stress:")) with 7. pose proof (len_to_string n). pose proof (len_nonneg (to_string n)). lia.
Qed.

Lemma put_spec_ok i n f : spec_ok (put_generator i n default_spec f).1.2.
Proof.
  split; [done|]. cbn [put_generator fst snd sp_key sp_value]. pose proof (len_stress_key n). destruct (payload_spec 0 n) as [-> _]. unfold kMaxKeyBytes, kMaxValueBytes. lia.
Qed.

Lemma get_spec_ok i n f : spec_ok (get_generator i n default_spec f).1.2.
Proof. split; [done|]. cbn [get_generator fst snd sp_key sp_value default_spec]. pose proof (len_stress_key n). unfold kMaxKeyBytes, kMaxValueBytes. rewrite len_nil. lia. Qed.

(** ** Both phases *)

Section Sound.
Variable clock : nat -> Z.
Variable errno_text : Z -> bytes.

Definition put_given (n : Z) (spec : RequestSpec) : Prop := spec = mkRequestSpec Opcode.kPut (stress_key n) (payload 0 n).
Definition get_given (n : Z) (spec : RequestSpec) : Prop := spec = mkRequestSpec Opcode.kGet (stress_key n) [].

(** What the callbacks count. *)
Definition put_invalid (k : Completion) : Prop := rs_status (cp_response k) <> Status.kOk.
Definition put_corrupt (k : Completion) : Prop := rs_value (cp_response k) <> [].
Definition get_corrupt (k : Completion) : Prop :=
  rs_status (cp_response k) = Status.kOk /\ rs_value (cp_response k) <> payload 0 (key_sequence (sp_key (cp_request k))).

#[local] Instance put_invalid_dec k : Decision (put_invalid k).
Proof. unfold put_invalid. apply _. Defined.
#[local] Instance put_corrupt_dec k : Decision (put_corrupt k).
Proof. unfold put_corrupt. apply _. Defined.
#[local] Instance get_corrupt_dec k : Decision (get_corrupt k).
Proof. unfold get_corrupt. apply _. Defined.

Record failures_typed (f : Failures) : Prop := mkFailuresTyped {
  ft_validation : 0 <= validation_failures f < 2 ^ 64;
  ft_corruption : 0 <= corruption_failures f < 2 ^ 64;
}.

Lemma count_protocol_fields k f : validation_failures (count_protocol k f) = validation_failures f /\
  corruption_failures (count_protocol k f) = corruption_failures f.
Proof. unfold count_protocol. by destruct (_ =? 0). Qed.

Lemma put_counts f ks : failures_typed f -> let f' := foldl (fun f k => put_complete k f) f ks in
  validation_failures f' = u64 (validation_failures f + len (filter put_invalid ks)) /\
  corruption_failures f' = u64 (corruption_failures f + len (filter put_corrupt ks)).
Proof.
  intros [H1 H2]. split; apply foldl_count; try done; clear; intros f k Hf; unfold put_complete, is_ok;
    destruct (count_protocol_fields k f) as [E1 E2]; rewrite <- ?E1, <- ?E2 in Hf |- *; generalize dependent (count_protocol k f); intros f' ???.
  - unfold put_invalid. case_bool_decide as Hs; [rewrite decide_False by (by intros ?)|rewrite decide_True by done];
      destruct (negb _); cbn; rewrite ?Z.add_0_r; try done; by rewrite u64_small.
  - unfold put_corrupt. destruct (Z.eqb_spec (len (rs_value (cp_response k))) 0) as [Hz|Hz]; cbn [negb].
    + apply len_0 in Hz. rewrite decide_False by (by intros ?). case_bool_decide; cbn; rewrite Z.add_0_r; by rewrite u64_small.
    + rewrite decide_True by (intros E; by rewrite E in Hz). by case_bool_decide.
Qed.

Lemma get_counts f ks : failures_typed f -> let f' := foldl (fun f k => get_complete k f) f ks in
  validation_failures f' = u64 (validation_failures f + len (filter put_invalid ks)) /\
  corruption_failures f' = u64 (corruption_failures f + len (filter get_corrupt ks)).
Proof.
  intros [H1 H2]. split; apply foldl_count; try done; clear; intros f k Hf; unfold get_complete, is_ok;
    destruct (count_protocol_fields k f) as [E1 E2]; rewrite <- ?E1, <- ?E2 in Hf |- *; generalize dependent (count_protocol k f); intros f' ???.
  - unfold put_invalid. case_bool_decide as Hs; cbn [negb].
    + rewrite decide_False by (by intros ?). case_bool_decide; cbn; rewrite Z.add_0_r; by rewrite u64_small.
    + by rewrite decide_True.
  - unfold get_corrupt. case_bool_decide as Hs; cbn [negb].
    + case_bool_decide as Hv; [rewrite decide_False by tauto; rewrite Z.add_0_r; by rewrite u64_small | by rewrite decide_True].
    + rewrite decide_False by tauto. cbn. rewrite Z.add_0_r. by rewrite u64_small.
Qed.

(** ** The options *)

Record options_typed (o : Options) : Prop := mkOptionsTyped {
  ot_connections : 0 <= o_connections o < 2 ^ 64;
  ot_pipeline : 0 <= o_pipeline o < 2 ^ 64;
  ot_requests : 0 <= o_requests o < 2 ^ 64;
}.

Lemma parse_number_range s n : parse_number s = Some n -> 0 <= n < 2 ^ 64.
Proof.
  unfold parse_number. pose proof (strtoull_range s). destruct (strtoull s) as [out rest]. destruct (_ && _); [|done]. by intros [= <-].
Qed.

Lemma stress_args_typed args o o' : options_typed o -> stress_args args o = inl o' -> options_typed o'.
Proof.
  revert o. induction args as [args IH] using (induction_ltof1 _ (@length _)); unfold ltof in IH. intros o Ho.
  destruct args as [|arg [|value args]]; cbn [stress_args]; [by intros [= <-] | done|].
  destruct (bool_decide _); [apply IH; [cbn; lia | by destruct Ho]|].
  destruct (parse_number value) as [n|] eqn:En; [|done]. apply parse_number_range in En.
  repeat (destruct (bool_decide _); [apply IH; [cbn; lia | by destruct Ho]|]). done.
Qed.

Lemma options_config o : options_typed o -> o_requests o * 2 ^ 27 < 2 ^ 64 -> config_typed (stress_config o).
Proof. intros [H1 H2 H3] Hm. split; cbn; lia. Qed.

(** ** Properties *)

(** C28: the stress test does not pass by accident.  If it exits with zero, both
    engines have issued the requests asked for and completed each exactly once,
    every store was acknowledged with an empty value, and every key, read back,
    had the value stored under that key. *)
Theorem stress_sound args o io1 io2 out err : stress_args args default_options = inl o -> o_requests o * 2 ^ 27 < 2 ^ 64 ->
  io_ok (stress_config o) io1 -> io_ok (stress_config o) io2 ->
  stress_main clock errno_text args io1 io2 = Some (0, out, err) ->
  exists e1 e2, stress_run clock errno_text o io1 io2 = Some ([], e1, e2) /\ answered e1 /\ answered e2 /\
    issued_ e1 = o_requests o /\ issued_ e2 = o_requests o /\
    (forall k, k ∈ completions (calls e1) ->
       let n := rs_request_id (cp_response k) - 1 in
       cp_request k = mkRequestSpec Opcode.kPut (stress_key n) (payload 0 n) /\
       rs_status (cp_response k) = Status.kOk /\ rs_value (cp_response k) = []) /\
    (forall k, k ∈ completions (calls e2) ->
       let n := rs_request_id (cp_response k) - 1 in
       cp_request k = mkRequestSpec Opcode.kGet (stress_key n) [] /\
       rs_status (cp_response k) = Status.kOk /\ rs_value (cp_response k) = payload 0 n).
Proof.
  intros Eo Hm Hio1 Hio2 E. pose proof (options_config o (stress_args_typed args default_options o ltac:(by split) Eo) Hm) as Ht.
  unfold stress_main in E. rewrite Eo in E. unfold stress_run in *.
  destruct (drive _ _ put_generator put_complete io1 _) as [[error e1]|] eqn:E1; [|done]. cbn [mbind option_bind] in *.
  destruct error as [|b error]; [|done].
  destruct (drive _ _ get_generator get_complete io2 _) as [[error e2]|] eqn:E2; [|done]. cbn [mbind option_bind] in *.
  destruct error as [|b error]; [|done].
  destruct (drive_answered clock errno_text _ _ _ _ _ _ (fun i seq u _ => put_spec_ok i seq u) Ht Hio1 E1) as [Ha1 Hc1].
  destruct (drive_answered clock errno_text _ _ _ _ _ _ (fun i seq u _ => get_spec_ok i seq u) Ht Hio2 E2) as [Ha2 Hc2].
  pose proof (drive_traced clock errno_text put_generator put_complete id (fun f k => put_complete k f) put_given _ _ _ _ _
    (fun _ _ _ => eq_refl) (fun _ _ _ => eq_refl) (fun _ _ _ => eq_refl) (fun _ _ => eq_refl) Ht Hio1 E1) as T1.
  pose proof (drive_traced clock errno_text get_generator get_complete id (fun f k => get_complete k f) get_given _ _ _ _ _
    (fun _ _ _ => eq_refl) (fun _ _ _ => eq_refl) (fun _ _ _ => eq_refl) (fun _ _ => eq_refl) Ht Hio2 E2) as T2.
  injection E as Egood _ _. destruct (_ && _) eqn:Hgood in Egood; [|done]. clear Egood. b2p.
  destruct (answered_size e1 Ha1 (tr_more _ _ _ _ _ T1)) as [I1 L1]. destruct (answered_size e2 Ha2 (tr_more _ _ _ _ _ T2)) as [I2 L2].
  rewrite Hc1 in I1. rewrite Hc2 in I2. cbn [stress_config ec_requests] in I1, I2. pose proof (ct_requests _ Ht) as Hr. cbn in Hr.
  pose proof (tr_view _ _ _ _ _ T1) as V1. pose proof (tr_view _ _ _ _ _ T2) as V2. unfold id in V1, V2.
  destruct (put_counts (mkFailures 0 0 0) (completions (calls e1)) ltac:(by split)) as [P1 P2]. rewrite <- V1 in P1, P2. cbn in P1, P2.
  pose proof (len_filter put_invalid (completions (calls e1))). pose proof (len_filter put_corrupt (completions (calls e1))).
  rewrite u64_small in P1 by lia. rewrite u64_small in P2 by lia.
  destruct (get_counts (captured e1) (completions (calls e2)) ltac:(split; lia)) as [G1 G2]. rewrite <- V2 in G1, G2.
  rewrite G1 in *. rewrite G2 in *.
  destruct (counted_none put_invalid (validation_failures (captured e1)) (completions (calls e2))) as [Z1 F1]; [lia | lia | done|].
  destruct (counted_none get_corrupt (corruption_failures (captured e1)) (completions (calls e2))) as [Z2 F2]; [lia | lia | done|].
  assert (F3 : Forall (fun k => ~ put_invalid k) (completions (calls e1))) by (apply (filter_none put_invalid); lia).
  assert (F4 : Forall (fun k => ~ put_corrupt k) (completions (calls e1))) by (apply (filter_none put_corrupt); lia).
  rewrite Forall_forall in F1, F2, F3, F4. exists e1, e2. split_and!; try done.
  - intros k Hk. destruct (completed_given _ _ _ _ _ k Ha1 T1 Hk) as [_ Hg]. split_and!; [exact Hg | by apply dec_stable, F3 | by apply dec_stable, F4].
  - intros k Hk. destruct (completed_given _ _ _ _ _ k Ha2 T2 Hk) as [Hn Hg]. split; [exact Hg|].
    assert (Hs : rs_status (cp_response k) = Status.kOk) by (by apply dec_stable, F1). split; [done|].
    destruct (decide (rs_value (cp_response k) = payload 0 (rs_request_id (cp_response k) - 1))) as [|Hne]; [done|].
    exfalso. apply (F2 k Hk). split; [done|]. rewrite Hg. cbn [sp_key]. rewrite key_sequence_key by lia. done.
Qed.
End Sound.

(** ** The test against the cache *)

#[local] Opaque payload.

Definition put_request (n : Z) : Request := mkRequest Opcode.kPut (n + 1) (stress_key n) (payload 0 n).
Definition get_request (n : Z) : Request := mkRequest Opcode.kGet (n + 1) (stress_key n) [].
Definition entry (n : Z) : bytes * bytes := (stress_key n, payload 0 n).

(** Room for [n] of the entries. *)
Record room (limits : CacheLimits) (n : Z) : Prop := mkRoom {
  rm_entries : n <= cl_max_entries limits;
  rm_bytes : n * 411 <= cl_max_bytes limits;
  rm_value : 256 <= cl_max_value_bytes limits;
}.

Lemma entry_cost n : Spec.cost (entry n) <= 411.
Proof.
  unfold Spec.cost, Spec.payload, kEntryOverheadBytes. cbn [entry fst snd]. destruct (payload_spec 0 n) as [-> _]. pose proof (len_stress_key n). lia.
Qed.

Lemma entries_cost ns : Spec.total Spec.cost (entry <$> ns) <= 411 * len ns.
Proof.
  induction ns as [|n ns IH]; [done|]. rewrite fmap_cons, len_cons.
  change (Spec.total Spec.cost (entry n :: ?l)) with (Spec.cost (entry n) + Spec.total Spec.cost l). pose proof (entry_cost n). lia.
Qed.

Lemma total_perm f l k : l ≡ₚ k -> Spec.total f l = Spec.total f k.
Proof. unfold Spec.total. induction 1; cbn [foldr]; lia. Qed.

Definition stored (ns : list Z) (s : Spec.state) : Prop := Spec.contents s ≡ₚ entry <$> ns.

Definition numbers (N : Z) (ns : list Z) : Prop := NoDup ns /\ Forall (fun n => 0 <= n < N) ns.

Lemma entry_keys N ns : N <= 2 ^ 64 -> numbers N ns -> NoDup (entry <$> ns).*1.
Proof.
  intros HN [Hnd Hr]. rewrite <- list_fmap_compose. rewrite Forall_forall in Hr. apply NoDup_fmap_2_strong; [|done].
  intros n m Hn Hm E. apply stress_key_inj; [specialize (Hr n Hn); lia | specialize (Hr m Hm); lia | done].
Qed.

Lemma put_stored limits N ns n s : N <= 2 ^ 64 -> room limits N -> Spec.limits s = limits -> numbers N (n :: ns) -> len (n :: ns) <= N ->
  stored ns s -> exists s', Spec.put s (stress_key n) (payload 0 n) = (PutStatus.kStored, s') /\ stored (n :: ns) s' /\ Spec.limits s' = limits.
Proof.
  intros HN [R1 R2 R3] <- Hns Hl Hst. unfold Spec.put. destruct (payload_spec 0 n) as [Hp _]. pose proof (entry_cost n) as Hc. rewrite len_cons in Hl.
  pose proof (len_nonneg ns). rewrite Hp, (proj2 (Z.ltb_ge _ 256)) by lia. fold (entry n).
  rewrite (proj2 (Z.ltb_ge _ (Spec.cost (entry n)))) by lia. rewrite (proj2 (Z.eqb_neq _ 0)) by lia. cbn [orb].
  assert (Hfresh : stress_key n ∉ (Spec.contents s).*1).
  { pose proof (entry_keys N (n :: ns) HN Hns) as Hk. rewrite !fmap_cons in Hk. apply NoDup_cons in Hk as [Hk _]. by rewrite Hst. }
  rewrite (Spec.remove_fresh _ _ Hfresh), Spec.keep_all.
  - eexists. split; [done|]. split; [|done]. unfold stored. cbn [Spec.contents]. by rewrite Hst.
  - unfold Spec.fits. pose proof (entries_cost ns). rewrite (total_perm _ _ _ Hst). unfold len in *. rewrite Hst, length_fmap. lia.
Qed.

Lemma get_stored N ns n s : N <= 2 ^ 64 -> numbers N ns -> n ∈ ns -> stored ns s ->
  exists s', Spec.get s (stress_key n) = (Some (payload 0 n), s') /\ stored ns s'.
Proof.
  intros HN Hns Hn Hst. assert (Hnd : NoDup (Spec.contents s).*1) by (rewrite Hst; by eapply entry_keys).
  assert (Hin : entry n ∈ Spec.contents s) by (rewrite Hst; by apply list_elem_of_fmap_2).
  pose proof (Spec.find_elem _ _ _ Hnd Hin) as Hf. unfold Spec.get. rewrite Hf. eexists. split; [done|].
  unfold stored. cbn [Spec.contents]. destruct (Spec.find_split _ _ _ Hf) as (a & b & E). rewrite E in Hnd |- *.
  rewrite (Spec.remove_split _ _ _ _ Hnd), <- Hst, E. apply Permutation_middle.
Qed.

Section Passes.
Context {C : Type} `{!CacheOps C, !CacheContract C}.
Implicit Types sv : Service C.

(** The requests with these numbers, each with the time it is served at. *)
Definition puts (ns : list (Z * Z)) : list (Request * Z) := prod_map put_request id <$> ns.
Definition gets (ns : list (Z * Z)) : list (Request * Z) := prod_map get_request id <$> ns.

Lemma addressable_put n : request_addressable (put_request n).
Proof.
  unfold request_addressable, kEntryOverheadBytes. cbn [put_request rq_key rq_value]. destruct (payload_spec 0 n) as [-> _].
  pose proof (len_stress_key n). lia.
Qed.

Lemma addressable_get n : request_addressable (get_request n).
Proof.
  unfold request_addressable, kEntryOverheadBytes. cbn [get_request rq_key rq_value]. rewrite len_nil. pose proof (len_stress_key n). lia.
Qed.

Lemma serve_puts limits N ns done sv : N <= 2 ^ 64 -> room limits N -> cache_good (sv_cache sv) -> Spec.limits (sv_abs sv) = limits ->
  numbers N (ns.*1 ++ done) -> len (ns.*1 ++ done) <= N -> stored done (sv_abs sv) ->
  exists rs sv', serve sv (puts ns) = Some (rs, sv') /\ cache_good (sv_cache sv') /\ Spec.limits (sv_abs sv') = limits /\
    stored (rev ns.*1 ++ done) (sv_abs sv') /\
    Forall2 (fun n r => r = mkResponse Opcode.kPut Status.kOk (n + 1) []) ns.*1 rs.
Proof.
  intros HN Hroom. revert done sv. induction ns as [|[n now] ns IH]; intros done sv Hg Hlim Hn Hl Hst.
  { exists [], sv. by split_and!. }
  destruct (handle_request_spec sv (put_request n) now Hg (addressable_put n)) as (r & sv1 & E & Hg1 & Hop & Hid & a & Hs & Hr & _).
  change (n :: ns.*1) with ((n, now) :: ns).*1 in *. cbn [fmap list_fmap fst app] in Hn, Hl.
  assert (Hperm : n :: ns.*1 ++ done ≡ₚ ns.*1 ++ n :: done) by apply Permutation_middle.
  assert (Hn' : numbers N (ns.*1 ++ n :: done)) by (destruct Hn; split; by rewrite <- Hperm).
  assert (Hsub : numbers N (n :: done)).
  { destruct Hn' as [H1 H2]. apply NoDup_app in H1 as (_ & _ & H1). apply Forall_app in H2 as [_ H2]. by split. }
  assert (Hlen : len (n :: done) <= N).
  { rewrite len_cons, len_app in Hl. rewrite len_cons. pose proof (len_nonneg ns.*1). lia. }
  destruct (put_stored limits N done n (sv_abs sv) HN Hroom Hlim Hsub Hlen Hst) as (s' & Ep & Hst' & Hlim').
  cbn [request_op put_request rq_opcode spec_op rq_key rq_value] in Hs. rewrite Ep in Hs. injection Hs as <- Hs. rewrite Hs in Hst', Hlim'.
  destruct (IH (n :: done) sv1 Hg1 Hlim' Hn') as (rs & sv' & E' & G1 & G2 & G3 & G4); [|done|].
  { unfold len in *. by rewrite <- Hperm. }
  exists (r :: rs), sv'. cbn [puts fmap list_fmap prod_map serve fst snd id]. rewrite E. cbn [mbind option_bind].
  change (prod_map put_request id <$> ns) with (puts ns) in *. rewrite E'. cbn [mbind option_bind rev]. rewrite <- app_assoc. split_and!; try done.
  constructor; [|done]. destruct r as [o st id v]. cbn [rs_opcode rs_request_id rs_status rs_value reply] in *. by injection Hr as -> ->; subst.
Qed.

Lemma serve_gets N ns done sv : N <= 2 ^ 64 -> numbers N done -> Forall (fun n => n ∈ done) ns.*1 -> cache_good (sv_cache sv) ->
  stored done (sv_abs sv) ->
  exists rs sv', serve sv (gets ns) = Some (rs, sv') /\ Forall2 (fun n r => r = mkResponse Opcode.kGet Status.kOk (n + 1) (payload 0 n)) ns.*1 rs.
Proof.
  intros HN Hd. revert sv. induction ns as [|[n now] ns IH]; intros sv Hin Hg Hst; [exists [], sv; split; [done | constructor]|].
  cbn [fmap list_fmap fst] in Hin. apply Forall_cons in Hin as [Hn Hin].
  destruct (handle_request_spec sv (get_request n) now Hg (addressable_get n)) as (r & sv1 & E & Hg1 & Hop & Hid & a & Hs & Hr & _).
  destruct (get_stored N done n (sv_abs sv) HN Hd Hn Hst) as (s' & Eg & Hst').
  cbn [request_op get_request rq_opcode spec_op rq_key rq_value] in Hs. rewrite Eg in Hs. injection Hs as <- Hs. rewrite Hs in Hst'.
  destruct (IH sv1 Hin Hg1 Hst') as (rs & sv' & E' & G). exists (r :: rs), sv'. cbn [gets fmap list_fmap prod_map serve fst snd id]. rewrite E.
  cbn [mbind option_bind]. change (prod_map get_request id <$> ns) with (gets ns) in *. rewrite E'. cbn [mbind option_bind]. split; [done|].
  constructor; [|done]. destruct r as [o st id v]. cbn [rs_opcode rs_request_id rs_status rs_value reply] in *. by injection Hr as -> ->; subst.
Qed.

(** Completions of the requests with the numbers [ns] by the responses [rs]. *)
Definition reports (given : Z -> RequestSpec -> Prop) (ns : list Z) (rs : list Response) (ks : list Completion) : Prop :=
  Forall2 given ns (cp_request <$> ks) /\ cp_response <$> ks = rs.

Lemma fold_same {A V} (step : V -> A -> V) v l : Forall (fun k => step v k = v) l -> foldl step v l = v.
Proof. induction 1 as [|k l Hk _ IH]; cbn [foldl]; [done | by rewrite Hk]. Qed.

Lemma reports_lookup given ns rs ks (Q : Z -> Response -> Prop) : reports given ns rs ks -> Forall2 Q ns rs ->
  Forall (fun k => exists n, given n (cp_request k) /\ Q n (cp_response k) /\ n ∈ ns) ks.
Proof.
  intros [H1 <-] H2. apply Forall_lookup. intros i k Hk.
  assert (Hq : (cp_request <$> ks) !! i = Some (cp_request k)) by (by rewrite list_lookup_fmap, Hk).
  assert (Hr : (cp_response <$> ks) !! i = Some (cp_response k)) by (by rewrite list_lookup_fmap, Hk).
  destruct (Forall2_lookup_r _ _ _ _ _ H1 Hq) as (n & Hn & Hg). exists n.
  split_and!; [done | exact (Forall2_lookup_lr _ _ _ _ _ _ H2 Hn Hr) | by eapply list_elem_of_lookup_2].
Qed.

(** C18: the stress test passes against the cache.  If the cache is empty and has
    room for the entries, then whatever the order in which the stores are
    executed, and then the reads, the callbacks count no failure at all. *)
Theorem stress_passes N sv ns ms : 0 <= N <= 2 ^ 64 -> cache_good (sv_cache sv) -> Spec.contents (sv_abs sv) = [] ->
  room (Spec.limits (sv_abs sv)) N -> ns.*1 ≡ₚ seqZ 0 N -> ms.*1 ≡ₚ seqZ 0 N ->
  exists rs sv1 rs' sv2, serve sv (puts ns) = Some (rs, sv1) /\ serve sv1 (gets ms) = Some (rs', sv2) /\
    forall ks ks', reports put_given ns.*1 rs ks -> reports get_given ms.*1 rs' ks' ->
      foldl (fun f k => get_complete k f) (foldl (fun f k => put_complete k f) (mkFailures 0 0 0) ks) ks' = mkFailures 0 0 0.
Proof.
  intros HN Hg Hemp Hroom Hns Hms.
  assert (Hnum : forall l, l ≡ₚ seqZ 0 N -> numbers N l).
  { intros l Hl. split; [rewrite Hl; apply NoDup_seqZ|]. rewrite Hl. apply Forall_forall. intros n Hn. apply elem_of_seqZ in Hn. lia. }
  destruct (serve_puts (Spec.limits (sv_abs sv)) N ns [] sv ltac:(lia) Hroom Hg eq_refl) as (rs & sv1 & E1 & Hg1 & _ & Hst & Hrs).
  { rewrite app_nil_r. by apply Hnum. }
  { unfold len. rewrite app_nil_r, Hns, length_seqZ. lia. }
  { unfold stored. by rewrite Hemp. }
  rewrite app_nil_r in Hst. assert (Hrev : rev ns.*1 ≡ₚ seqZ 0 N) by (rewrite <- Hns; symmetry; apply Permutation_rev).
  destruct (serve_gets N ms (rev ns.*1) sv1 ltac:(lia)) as (rs' & sv2 & E2 & Hrs'); [by apply Hnum | | done | done|].
  { apply Forall_forall. intros n Hn. by rewrite Hrev, <- Hms. }
  exists rs, sv1, rs', sv2. split_and!; [done | done|]. intros ks ks' Hk Hk'.
  assert (Hpos : forall n l, n ∈ l -> l ≡ₚ seqZ 0 N -> 0 <= n < 2 ^ 64) by (intros n l Hn Hl; rewrite Hl in Hn; apply elem_of_seqZ in Hn; lia).
  rewrite (fold_same _ (mkFailures 0 0 0) ks), fold_same; [done| |].
  - eapply Forall_impl; [exact (reports_lookup _ _ _ _ _ Hk' Hrs')|]. intros k (n & Hgiv & Hresp & Hn). cbn beta.
    pose proof (Hpos _ _ Hn Hms). unfold get_complete, count_protocol, is_ok. rewrite Hresp, Hgiv. cbn [rs_request_id rs_status rs_value sp_key].
    rewrite (proj2 (Z.eqb_neq _ 0)) by lia. rewrite key_sequence_key by lia. by rewrite !bool_decide_true.
  - eapply Forall_impl; [exact (reports_lookup _ _ _ _ _ Hk Hrs)|]. intros k (n & _ & Hresp & Hn). cbn beta.
    pose proof (Hpos _ _ Hn Hns). unfold put_complete, count_protocol, is_ok. rewrite Hresp. cbn [rs_request_id rs_status rs_value].
    rewrite (proj2 (Z.eqb_neq (n + 1) 0)) by lia. by rewrite bool_decide_true.
Qed.
End Passes.

(** the values of the stress test identify their keys.  Each value has 256
    bytes, the number of a key is read back from it, and values of different
    keys differ, so that a value under the wrong key is noticed. *)
Theorem stress_values_identify n m : 0 <= n < 2 ^ 64 -> 0 <= m < 2 ^ 64 ->
  len (payload 0 n) = 256 /\ key_sequence (stress_key n) = n /\ (payload 0 n = payload 0 m -> n = m).
Proof.
  intros Hn Hm. split; [apply payload_spec|]. split; [by apply key_sequence_key|]. intros E. by apply payload_inj in E as [_ ->].
Qed.

(** ** Witnesses: one connection, two keys *)

Definition demo_args : list bytes :=
  [lit "--connections"; lit "1"; lit "--pipeline"; lit "1"; lit "--requests"; lit "2"].
Definition demo_options : Options := mkOptions (lit "/tmp/local_cache.sock") 1 1 2.
Definition demo_io (answer : Z -> Response) : EngineIo :=
  mkEngineIo (NewFd 3) [demo_open 4] [accepting]
    [WaitEvents [(0%nat, EPOLLIN, delivery [answer 0])]; WaitEvents [(0%nat, EPOLLIN, delivery [answer 1])]].
Definition put_answer (n : Z) : Response := mkResponse Opcode.kPut Status.kOk (n + 1) [].
Definition get_answer (n : Z) : Response := mkResponse Opcode.kGet Status.kOk (n + 1) (payload 0 n).
Definition demo_out : bytes := stress_report demo_options 4 4 0 0 0 0 0.

Lemma response_small r : response_ok default_limits r = true -> len (response_frames [r]) < 2 ^ 63.
Proof.
  intros H. unfold response_frames. cbn [map concat]. rewrite (response_frame_lens _ _ [] H), len_nil.
  pose proof (response_ok_lens _ _ H). unfold kHeaderSize, kMaxValueBytes in *. lia.
Qed.

Lemma demo_io_ok answer : response_ok default_limits (answer 0) = true -> response_ok default_limits (answer 1) = true ->
  io_ok (stress_config demo_options) (demo_io answer).
Proof.
  intros H0 H1. split; cbn [ki_epoll ki_opens ki_starts ki_waits demo_io].
  - by cbn.
  - split; [apply Forall_singleton; by cbn | vm_compute; discriminate].
  - split; [apply Forall_singleton, accepting_ok | vm_compute; discriminate].
  - change (Z.to_nat (ec_connections (stress_config demo_options))) with 1%nat.
    apply Forall_cons. split; [|apply Forall_singleton]; apply Forall_singleton;
      (split; [cbn; lia | by apply delivery_ok, response_small]).
Qed.

Lemma demo_passes : stress_main no_time no_text demo_args (demo_io put_answer) (demo_io get_answer) = Some (0, demo_out, []).
Proof. vm_compute. reflexivity. Qed.

Lemma demo_parsed : stress_args demo_args default_options = inl demo_options.
Proof. vm_compute. reflexivity. Qed.

Lemma demo_put_ok : io_ok (stress_config demo_options) (demo_io put_answer).
Proof. apply demo_io_ok; vm_compute; reflexivity. Qed.

Lemma demo_get_ok : io_ok (stress_config demo_options) (demo_io get_answer).
Proof. apply demo_io_ok; vm_compute; reflexivity. Qed.

Lemma stress_sound_witness : exists e1 e2,
  stress_run no_time no_text demo_options (demo_io put_answer) (demo_io get_answer) = Some ([], e1, e2) /\
  answered e1 /\ answered e2 /\ issued_ e1 = 2.
Proof.
  assert (Hm : o_requests demo_options * 2 ^ 27 < 2 ^ 64) by (vm_compute; reflexivity).
  destruct (stress_sound no_time no_text demo_args demo_options (demo_io put_answer) (demo_io get_answer) demo_out []
    demo_parsed Hm demo_put_ok demo_get_ok demo_passes) as (e1 & e2 & R1 & R2 & R3 & R4 & _).
  exists e1, e2. exact (conj R1 (conj R2 (conj R3 R4))).
Defined.

Definition demo_limits : CacheLimits := mkCacheLimits 2 822 256.
Definition demo_service : Service LruCache := mkService (new_cache demo_limits) (new_stats 0).

Lemma stress_passes_witness : exists rs sv1 rs' sv2,
  serve demo_service (puts [(1, 5); (0, 6)]) = Some (rs, sv1) /\ serve sv1 (gets [(0, 7); (1, 8)]) = Some (rs', sv2).
Proof.
  assert (Hg : cache_good (sv_cache demo_service)) by (split; [apply wf_new|]; unfold limits_ok; simpl; lia).
  assert (Hr : room (Spec.limits (sv_abs demo_service)) 2) by (split; vm_compute; discriminate).
  assert (Hp : [(1, 5); (0, 6)].*1 ≡ₚ seqZ 0 2) by (change (seqZ 0 2) with [0; 1]; apply Permutation_swap).
  assert (Hp' : [(0, 7); (1, 8)].*1 ≡ₚ seqZ 0 2) by reflexivity.
  destruct (stress_passes 2 demo_service [(1, 5); (0, 6)] [(0, 7); (1, 8)] ltac:(lia) Hg eq_refl Hr Hp Hp')
    as (rs & sv1 & rs' & sv2 & E1 & E2 & _).
  exists rs, sv1, rs', sv2. exact (conj E1 E2).
Defined.

Lemma stress_values_identify_witness : key_sequence (stress_key 42) = 42 /\ len (payload 0 42) = 256.
Proof.
  destruct (stress_values_identify 42 43 ltac:(lia) ltac:(lia)) as (H1 & H2 & _). exact (conj H2 H1).
Defined.
