(* ===== verification/Benchmark.v ===== *)
(** * The benchmark

    benchmark/benchmark.cpp: it stores a value under every key through the
    client library, then drives a mix of reads, stores and deletions through
    the engine, and reports counts and latencies.  The floating-point figures
    of the report are texts made from integers by functions that are
    parameters, as is the random number engine of the C++ library. *)

From stdpp Require Import sorting.
From S2P Require Import Prelude Protocol Serializer Sys Client Strtoull.
From S2P Require Import Engine EngineProps EngineRun EngineTrace.

(** ** The command line *)

Record Options := mkOptions {
  bo_socket : bytes;
  bo_clients : Z;
  bo_pipeline : Z;
  bo_requests : Z;
  bo_key_space : Z;
  bo_read_percent : Z;
  bo_put_percent : Z;
  bo_value_bytes : Z;
}.
Definition default_options : Options := mkOptions (lit "/tmp/local_cache.sock") 100 1 100000 10000 95 5 128.

Definition number (text : bytes) : option Z :=
  if len text =? 0 then None else
  let '(parsed, rest) := strtoull text in
  if negb (at_end rest) then None else Some parsed.

Definition usage (name : bytes) : bytes :=
  line (lit "Usage: " ++ name ++ lit " [--socket PATH] [--clients N] [--pipeline N] [--requests N] " ++
        lit "[--key-space N] [--read-percent N] [--put-percent N] [--value-bytes N]").

(** The assignment of one numeric option; [unsigned] has 32 bits. *)
Definition set_option (arg : bytes) (parsed : Z) (o : Options) : option Options :=
  let '(mkOptions socket clients pipeline requests key_space read_percent put_percent value_bytes) := o in
  if bool_decide (arg = lit "--clients")
  then Some (mkOptions socket parsed pipeline requests key_space read_percent put_percent value_bytes)
  else if bool_decide (arg = lit "--pipeline")
  then Some (mkOptions socket clients parsed requests key_space read_percent put_percent value_bytes)
  else if bool_decide (arg = lit "--requests")
  then Some (mkOptions socket clients pipeline parsed key_space read_percent put_percent value_bytes)
  else if bool_decide (arg = lit "--key-space")
  then Some (mkOptions socket clients pipeline requests parsed read_percent put_percent value_bytes)
  else if bool_decide (arg = lit "--read-percent")
  then Some (mkOptions socket clients pipeline requests key_space (u32 parsed) put_percent value_bytes)
  else if bool_decide (arg = lit "--put-percent")
  then Some (mkOptions socket clients pipeline requests key_space read_percent (u32 parsed) value_bytes)
  else if bool_decide (arg = lit "--value-bytes")
  then Some (mkOptions socket clients pipeline requests key_space read_percent put_percent parsed)
  else None.

Definition set_socket (value : bytes) (o : Options) : Options :=
  mkOptions value (bo_clients o) (bo_pipeline o) (bo_requests o) (bo_key_space o) (bo_read_percent o)
    (bo_put_percent o) (bo_value_bytes o).

Definition options_valid (o : Options) : bool :=
  (0 <? bo_clients o) && (0 <? bo_pipeline o) && (0 <? bo_requests o) && (0 <? bo_key_space o) &&
  (u32 (bo_read_percent o + bo_put_percent o) <=? 100).

Inductive Parsed :=
  | Help
  | Refused
  | Accepted (o : Options).

Fixpoint parse (args : list bytes) (o : Options) : Parsed :=
  match args with
  | [] => if options_valid o then Accepted o else Refused
  | arg :: args =>
      if bool_decide (arg = lit "--help") then Help else
      match args with
      | [] => Refused
      | value :: args =>
          if bool_decide (arg = lit "--socket") then parse args (set_socket value o) else
          match number value with
          | None => Refused
          | Some parsed =>
              match set_option arg parsed o with
              | None => Refused
              | Some o => parse args o
              end
          end
      end
  end.

(** ** The callbacks *)

(** The variables of [main] the completion handler writes. *)
Record Results := mkResults {
  successful : Z;
  failed : Z;
  get_hits : Z;
  gets : Z;
  latencies : list Z;
}.

(** All the callbacks capture: also how many numbers were drawn. *)
Record BenchState := mkBenchState {
  results : Results;
  drawn : nat;
}.

Definition bench_key (n : Z) : bytes := lit "bench:" ++ to_string n.

(** The request the generator makes of the two numbers. *)
Definition pick (o : Options) (value : bytes) (choice key : Z) (request : RequestSpec) : RequestSpec :=
  if choice <? bo_read_percent o then mkRequestSpec Opcode.kGet (bench_key key) (sp_value request)
  else if choice <? u32 (bo_read_percent o + bo_put_percent o) then mkRequestSpec Opcode.kPut (bench_key key) value
  else mkRequestSpec Opcode.kDelete (bench_key key) (sp_value request).

Definition accepted (k : Completion) : bool :=
  bool_decide (rs_status (cp_response k) = Status.kOk) || bool_decide (rs_status (cp_response k) = Status.kNotFound).
Definition is_get (k : Completion) : bool := bool_decide (sp_opcode (cp_request k) = Opcode.kGet).
Definition is_hit (k : Completion) : bool := bool_decide (rs_status (cp_response k) = Status.kOk).

Definition record_completion (r : Results) (k : Completion) : Results :=
  mkResults
    (if accepted k then u64 (successful r + 1) else successful r)
    (if accepted k then failed r else u64 (failed r + 1))
    (if is_get k && is_hit k then u64 (get_hits r + 1) else get_hits r)
    (if is_get k then u64 (gets r + 1) else gets r)
    (latencies r ++ [cp_latency_ns k]).

Definition complete (k : Completion) (st : BenchState) : BenchState :=
  mkBenchState (record_completion (results st) k) (drawn st).

(** ** The report *)

(** The floating-point arithmetic and formatting: the duration, the
    throughput, the hit rate, the average, a latency in milliseconds, and
    [static_cast<size_t>(std::ceil(fraction * size))]. *)
Record Floats := mkFloats {
  fl_seconds : Z -> bytes;
  fl_throughput : Z -> Z -> bytes;
  fl_hit_rate : Z -> Z -> bytes;
  fl_average : list Z -> bytes;
  fl_ms : Z -> bytes;
  fl_rank : Z -> Z -> Z;
}.

(** The latency [percentile] reads; [None] would be an access out of range. *)
Definition percentile (values : list Z) (rank : Z) : option Z :=
  match values with
  | [] => Some 0
  | _ => let index := u64 (rank - 1) in values !! Z.to_nat (Z.min index (len values - 1))
  end.

Definition maximum (values : list Z) : Z := default 0 (last values).

Definition bench_report (fl : Floats) (o : Options) (r : Results) (elapsed : Z) : option bytes :=
  let sorted := merge_sort Z.le (latencies r) in
  p50 ← percentile sorted (fl_rank fl 50 (len sorted));
  p95 ← percentile sorted (fl_rank fl 95 (len sorted));
  p99 ← percentile sorted (fl_rank fl 99 (len sorted));
  Some (
    line (lit "Benchmark Results") ++ line (lit "-----------------------------") ++
    line (lit "Clients:             " ++ to_string (bo_clients o)) ++
    line (lit "Pipeline depth:       " ++ to_string (bo_pipeline o)) ++
    line (lit "Requests:            " ++ to_string (bo_requests o)) ++
    line (lit "Successful:          " ++ to_string (successful r)) ++
    line (lit "Failed:              " ++ to_string (failed r)) ++
    line (lit "Duration:            " ++ fl_seconds fl elapsed ++ lit " s") ++
    line (lit "Throughput:          " ++ fl_throughput fl (bo_requests o) elapsed ++ lit " req/s") ++
    line (lit "GET hit rate:        " ++ fl_hit_rate fl (get_hits r) (gets r) ++ lit "%") ++ line [] ++
    line (lit "Latency") ++ line (lit "-----------------------------") ++
    line (lit "Average:             " ++ fl_average fl sorted ++ lit " ms") ++
    line (lit "P50:                 " ++ fl_ms fl p50 ++ lit " ms") ++
    line (lit "P95:                 " ++ fl_ms fl p95 ++ lit " ms") ++
    line (lit "P99:                 " ++ fl_ms fl p99 ++ lit " ms") ++
    line (lit "Max:                 " ++ fl_ms fl (maximum sorted) ++ lit " ms")).

(** ** The program *)

Definition bench_config (o : Options) : EngineConfig :=
  mkEngineConfig (bo_socket o) (bo_clients o) (bo_pipeline o) (bo_requests o) 0 30000.

(** [std::string(options.value_bytes, 'x')]. *)
Definition bench_value (o : Options) : bytes := replicate (Z.to_nat (bo_value_bytes o)) Byte.x78.

Record BenchIo := mkBenchIo {
  bi_connect : ConnectIo;
  bi_puts : list ExecIo;
  bi_engine : EngineIo;
  bi_elapsed : Z;
}.

Inductive Ended :=
  | Exits (code : Z) (out err : bytes)
  | Throws.

Section Main.
(** The outputs of [std::mt19937_64] in order, the largest sizes of a
    [std::string] and of a [std::vector<uint64_t>], the clock, the messages of
    the C++ library, and the [errno] an earlier call left. *)
Variable random : nat -> Z.
Variable string_max vector_max : Z.
Variable fl : Floats.
Variable clock : nat -> Z.
Variable errno_text : Z -> bytes.
Variable stale_errno : Z.

Definition generator (o : Options) (value : bytes) (_ _ : Z) (request : RequestSpec) (st : BenchState)
    : bool * RequestSpec * BenchState :=
  let choice := u32 (random (drawn st) mod 100) in
  let key := random (S (drawn st)) mod bo_key_space o in
  (true, pick o value choice key request, mkBenchState (results st) (S (S (drawn st)))).

(** The key at which it failed, if it did, the client, and the bytes sent. *)
Fixpoint prepopulate (o : Options) (value : bytes) (ios : list ExecIo) (i : Z) (setup : CacheClient)
    : option (option Z * CacheClient * list bytes) :=
  if negb (i <? bo_key_space o) then Some (None, setup, []) else
  match ios with
  | [] => None
  | io :: ios =>
      '(result, setup, wire, _) ← client_put errno_text stale_errno (bench_key i) value io setup;
      if negb (ok result) || negb (bool_decide (cr_status result = Status.kOk))
      then Some (Some i, setup, [wire])
      else '(stopped, setup, wires) ← prepopulate o value ios (i + 1) setup; Some (stopped, setup, wire :: wires)
  end.

(** The message of a failure, and the engine at the end. *)
Definition bench_engine (o : Options) (value : bytes) (io : EngineIo) : option (bytes * Engine BenchState) :=
  let engine := new_engine (bench_config o) (mkBenchState (mkResults 0 0 0 0 []) 0) in
  '(error, engine) ← connect_all errno_text (ki_epoll io) (ki_opens io) engine;
  if negb (is_empty_string error) then Some (lit "connect failed: " ++ error, engine) else
  '(error, engine) ← run (generator o value) complete clock errno_text (ki_starts io) (ki_waits io) engine;
  if negb (is_empty_string error) then Some (lit "benchmark failed: " ++ error, engine) else
  Some ([], engine).

Definition bench_main (name : bytes) (args : list bytes) (io : BenchIo) : option Ended :=
  match parse args default_options with
  | Help => Some (Exits 0 (usage name) [])
  | Refused => Some (Exits 2 (usage name) [])
  | Accepted o =>
      let '(error, setup, _) := connect errno_text (new_client (bo_socket o)) (bi_connect io) in
      if negb (is_empty_string error) then Some (Exits 1 [] (line (lit "setup connection failed: " ++ error))) else
      if string_max <? bo_value_bytes o then Some Throws else
      let value := bench_value o in
      '(stopped, _, _) ← prepopulate o value (bi_puts io) 0 setup;
      match stopped with
      | Some i => Some (Exits 1 [] (line (lit "prepopulation failed at key " ++ to_string i)))
      | None =>
          if vector_max <? bo_requests o then Some Throws else
          '(error, engine) ← bench_engine o value (bi_engine io);
          if negb (is_empty_string error) then Some (Exits 1 [] (line error)) else
          let r := results (captured engine) in
          out ← bench_report fl o r (bi_elapsed io);
          Some (Exits (if failed r =? 0 then 0 else 1) out [])
      end
  end.
End Main.

(** ** The options *)

Record options_typed (o : Options) : Prop := mkOptionsTyped {
  bt_clients : 0 <= bo_clients o < 2 ^ 64;
  bt_pipeline : 0 <= bo_pipeline o < 2 ^ 64;
  bt_requests : 0 <= bo_requests o < 2 ^ 64;
  bt_key_space : 0 <= bo_key_space o < 2 ^ 64;
  bt_read_percent : 0 <= bo_read_percent o < 2 ^ 32;
  bt_put_percent : 0 <= bo_put_percent o < 2 ^ 32;
  bt_value_bytes : 0 <= bo_value_bytes o < 2 ^ 64;
}.

Lemma number_range text n : number text = Some n -> 0 <= n < 2 ^ 64.
Proof.
  unfold number. pose proof (strtoull_range text). destruct (_ =? 0); [done|]. destruct (strtoull text) as [parsed rest].
  destruct (negb _); [done|]. by intros [= <-].
Qed.

Lemma set_option_typed arg n o o' : options_typed o -> 0 <= n < 2 ^ 64 -> set_option arg n o = Some o' -> options_typed o'.
Proof.
  intros Ho Hn. pose proof (Z.mod_pos_bound n (2 ^ 32) ltac:(lia)). destruct o, Ho; cbn in *.
  repeat (destruct (bool_decide _); [intros [= <-]; by split|]). done.
Qed.

Lemma parse_typed args o o' : options_typed o -> parse args o = Accepted o' -> options_typed o' /\ options_valid o' = true.
Proof.
  revert o. induction args as [args IH] using (induction_ltof1 _ (@length _)); unfold ltof in IH. intros o Ho.
  destruct args as [|arg args]; cbn [parse]; [destruct (options_valid o) eqn:Ev; [by intros [= <-] | done]|].
  destruct (bool_decide _); [done|]. destruct args as [|value args]; [done|].
  destruct (bool_decide _); [apply IH; [cbn; lia | by destruct Ho]|].
  destruct (number value) as [n|] eqn:En; [|done]. destruct (set_option arg n o) as [o1|] eqn:Es; [|done].
  apply IH; [cbn; lia|]. eapply set_option_typed; [done | by eapply number_range | done].
Qed.

Lemma parse_accepted args o : parse args default_options = Accepted o -> options_typed o /\ options_valid o = true.
Proof. apply parse_typed. by split. Qed.

Lemma bench_config_typed o : options_typed o -> bo_requests o * 2 ^ 27 < 2 ^ 64 -> config_typed (bench_config o).
Proof. intros [] Hm. split; cbn; lia. Qed.

Lemma fmap_const {A B} (f : A -> B) b l : (forall x, x ∈ l -> f x = b) -> f <$> l = replicate (length l) b.
Proof.
  induction l as [|x l IH]; intros H; [done|]. rewrite fmap_cons. cbn [length replicate].
  rewrite (H x) by (by left). f_equal. apply IH. intros y Hy. apply H. by right.
Qed.

(** The opcodes of the hundred choices. *)
Definition mix (o : Options) (value : bytes) (key : Z) : list Opcode.t :=
  (fun choice => sp_opcode (pick o value choice key default_spec)) <$> seqZ 0 100.

Lemma mix_percent o value key : 0 <= bo_read_percent o -> 0 <= bo_put_percent o -> bo_read_percent o + bo_put_percent o <= 100 ->
  mix o value key = replicate (Z.to_nat (bo_read_percent o)) Opcode.kGet ++ replicate (Z.to_nat (bo_put_percent o)) Opcode.kPut ++
    replicate (Z.to_nat (100 - bo_read_percent o - bo_put_percent o)) Opcode.kDelete.
Proof.
  intros Hr Hp Hs. unfold mix, pick. rewrite (u32_small (bo_read_percent o + bo_put_percent o)) by lia.
  set (r := bo_read_percent o) in *. set (p := bo_put_percent o) in *. clearbody r p.
  replace 100 with (r + (p + (100 - r - p))) at 1 by lia. rewrite !seqZ_app by lia. rewrite !fmap_app. f_equal; [|f_equal].
  all: erewrite fmap_const; [by rewrite length_seqZ|]; intros x Hx%elem_of_seqZ.
  - by rewrite (proj2 (Z.ltb_lt x r)) by lia.
  - by rewrite (proj2 (Z.ltb_ge x r)), (proj2 (Z.ltb_lt x (r + p))) by lia.
  - by rewrite (proj2 (Z.ltb_ge x r)), (proj2 (Z.ltb_ge x (r + p))) by lia.
Qed.

(** ** Percentiles *)

Lemma percentile_total values rank : len values < 2 ^ 64 -> is_Some (percentile values rank).
Proof.
  intros Hl. unfold percentile. destruct values as [|x values]; [by eexists|]. apply lookup_lt_is_Some_2.
  pose proof (u64_range (rank - 1)). set (l := x :: values) in *. assert (0 < len l) by (unfold l; rewrite len_cons; pose proof (len_nonneg values); lia).
  unfold len in *. lia.
Qed.

Lemma percentile_at values rank : len values < 2 ^ 64 -> 0 < rank <= len values -> percentile values rank = values !! Z.to_nat (rank - 1).
Proof.
  intros Hl Hr. unfold percentile. destruct values as [|x values]; [change (len []) with 0 in Hr; lia|].
  rewrite u64_small, Z.min_l by lia. done.
Qed.

Lemma report_total fl o r elapsed : len (latencies r) < 2 ^ 64 -> is_Some (bench_report fl o r elapsed).
Proof.
  intros Hl. unfold bench_report. set (sorted := merge_sort _ _).
  assert (Hs : len sorted < 2 ^ 64) by (unfold sorted, len in *; by rewrite merge_sort_Permutation).
  destruct (percentile_total sorted (fl_rank fl 50 (len sorted)) Hs) as [? ->].
  destruct (percentile_total sorted (fl_rank fl 95 (len sorted)) Hs) as [? ->].
  destruct (percentile_total sorted (fl_rank fl 99 (len sorted)) Hs) as [? ->]. by eexists.
Qed.

(** At least as many elements have the property as some part of the list has. *)
Lemma filter_part {A} (P : A -> Prop) `{forall x, Decision (P x)} l a b : l ≡ₚ a ++ b -> Forall P a -> len a <= len (filter P l).
Proof. intros Hp Ha. unfold len. rewrite Hp, filter_app, length_app, (filter_all P a Ha). lia. Qed.

Lemma sorted_le l i j v w : StronglySorted Z.le l -> l !! i = Some v -> l !! j = Some w -> (i <= j)%nat -> v <= w.
Proof.
  intros Hs. revert i j. induction Hs as [|x l _ IH Hx]; intros i j Hi Hj Hij; [done|].
  destruct i as [|i], j as [|j]; cbn in Hi, Hj; simplify_eq; [lia | | lia|].
  - rewrite Forall_forall in Hx. by apply Hx, (list_elem_of_lookup_2 _ j).
  - eapply IH; [done..|lia].
Qed.

(** In a sorted list, the first elements up to an index are no larger than the
    one there, the others no smaller. *)
Lemma sorted_split l i v : StronglySorted Z.le l -> l !! i = Some v ->
  Forall (fun x => x <= v) (take (S i) l) /\ Forall (fun x => v <= x) (drop i l).
Proof.
  intros Hs Hv. split; apply Forall_lookup; intros j x Hx.
  - apply lookup_take_Some in Hx as [Hx Hj]. eapply sorted_le; [done..|lia].
  - rewrite lookup_drop in Hx. eapply sorted_le; [done..|lia].
Qed.

Lemma maximum_last l j v : StronglySorted Z.le l -> l !! j = Some v -> v <= maximum l.
Proof.
  intros Hs Hv. unfold maximum. rewrite last_lookup. pose proof (lookup_lt_Some _ _ _ Hv) as Hj.
  destruct (lookup_lt_is_Some_2 l (pred (length l))) as [w Hw]; [lia|]. rewrite Hw. cbn. eapply sorted_le; [done..|lia].
Qed.

(** the percentiles of the report are order statistics.  The access is in
    range whatever the floating-point rank is; for a rank within the sample the
    percentile is one of the latencies, at least [rank] of them are no larger
    and all but [rank - 1] are no smaller, it is at most the maximum reported,
    and a higher rank gives no smaller percentile. *)
Theorem bench_percentiles values : len values < 2 ^ 64 -> let sorted := merge_sort Z.le values in
  (forall rank, is_Some (percentile sorted rank)) /\
  forall rank, 0 < rank <= len values -> exists v, percentile sorted rank = Some v /\ v ∈ values /\ v <= maximum sorted /\
    rank <= len (filter (fun x => x <= v) values) /\ len values - (rank - 1) <= len (filter (fun x => v <= x) values) /\
    forall rank' v', rank <= rank' <= len values -> percentile sorted rank' = Some v' -> v <= v'.
Proof.
  intros Hl sorted. pose proof (merge_sort_Permutation Z.le values) as Hp. fold sorted in Hp.
  assert (Hs : StronglySorted Z.le sorted) by (apply StronglySorted_merge_sort; apply _).
  assert (Hn : len sorted = len values) by (unfold len; by rewrite Hp).
  split; [intros rank; apply percentile_total; lia|]. intros rank Hr.
  destruct (percentile_total sorted rank ltac:(lia)) as [v Hv]. exists v. split; [done|].
  rewrite percentile_at in Hv by lia. destruct (sorted_split _ _ _ Hs Hv) as [Hle Hge]. split_and!.
  - rewrite <- Hp. by eapply list_elem_of_lookup_2.
  - by eapply maximum_last.
  - etrans; [|eapply (filter_part _ values _ (drop (S (Z.to_nat (rank - 1))) sorted)); [by rewrite take_drop | exact Hle]].
    unfold len in *. rewrite length_take. lia.
  - etrans; [|eapply (filter_part _ values _ (take (Z.to_nat (rank - 1)) sorted)); [|exact Hge]].
    + unfold len in *. rewrite length_drop. lia.
    + by rewrite (Permutation_app_comm (drop _ _)), take_drop.
  - intros rank' v' Hr' Hv'. rewrite percentile_at in Hv' by lia. eapply sorted_le; [done..|lia].
Qed.

(** C40: what the command line can ask for.  Accepted options have at least one
    client, one request in flight, one request and one key, and each request is
    a read, a store or a deletion in the percentages given, unless their sum
    reaches [2^32], where the check of the sum wraps around. *)
Theorem bench_options args o value key : parse args default_options = Accepted o ->
  options_typed o /\ 0 < bo_clients o /\ 0 < bo_pipeline o /\ 0 < bo_requests o /\ 0 < bo_key_space o /\
  ((bo_read_percent o + bo_put_percent o <= 100 /\
    mix o value key = replicate (Z.to_nat (bo_read_percent o)) Opcode.kGet ++
      replicate (Z.to_nat (bo_put_percent o)) Opcode.kPut ++
      replicate (Z.to_nat (100 - bo_read_percent o - bo_put_percent o)) Opcode.kDelete) \/
   2 ^ 32 <= bo_read_percent o + bo_put_percent o <= 2 ^ 32 + 100).
Proof.
  intros E. destruct (parse_accepted args o E) as [Ht Hv]. unfold options_valid in Hv. b2p. pose proof Ht as [_ _ _ _ Hr Hp _].
  split_and!; [done..|]. destruct (Z.lt_ge_cases (bo_read_percent o + bo_put_percent o) (2 ^ 32)) as [Hs|Hs].
  - rewrite u32_small in * by lia. left. split; [done|]. apply mix_percent; lia.
  - right. set (sum := bo_read_percent o + bo_put_percent o) in *.
    assert (Ew : u32 sum = sum - 2 ^ 32) by (symmetry; apply (Z.mod_unique_pos sum (2 ^ 32) 1); unfold sum; lia).
    rewrite Ew in *. lia.
Qed.

(** The sum does wrap around: all of these requests are reads. *)
Lemma percent_wraps : exists o, parse [lit "--read-percent"; lit "4294967295"; lit "--put-percent"; lit "1"] default_options = Accepted o /\
  bo_read_percent o = 4294967295 /\ mix o [] 0 = replicate 100 Opcode.kGet.
Proof. eexists. split; [vm_compute; reflexivity|]. split; vm_compute; reflexivity. Qed.

(** ** Storing the keys *)

Lemma receive_keeps_id errno_text recvs id op out c e r c' calls :
  receive_response errno_text recvs id op out c = Some (e, r, c', calls) -> cc_next_request_id_ c' = cc_next_request_id_ c.
Proof.
  revert out c. induction recvs as [|x recvs IH]; intros out c; cbn [receive_response];
    (destruct (deserialize_response _ _ _) as [[res out']|]; [|done]); cbn [mbind option_bind disconnect];
    (destruct (pr_status res); try by intros [= _ _ <- _]); try done.
  destruct x as [[|b data]|errno]; [by intros [= _ _ <- _] | intros E; by apply IH in E|].
  destruct (errno =? EINTR); [apply IH|]. destruct (_ || _); by intros [= _ _ <- _].
Qed.

Section Prepopulate.
Context (errno_text : Z -> bytes) (stale_errno : Z).

(** A store that succeeds has sent its whole frame, which fits the protocol. *)
Lemma put_sends key value io c res c' wire calls : Forall kernel_send (xi_sends io) ->
  client_put errno_text stale_errno key value io c = Some (res, c', wire, calls) -> ok res = true ->
  len value <= kMaxValueBytes /\ wire = serialize_request (client_request c Opcode.kPut key value) /\
  cc_next_request_id_ c' = u64 (cc_next_request_id_ c + 1).
Proof.
  intros Hk E Hok. unfold client_put in E.
  destruct (Client.connected c) eqn:Hc; [|unfold execute in E; rewrite Hc in E; by injection E as <- <- <- <-].
  destruct (Z.ltb_spec kMaxKeyBytes (len key)) as [Hlk|Hlk];
    [unfold execute in E; rewrite Hc, (proj2 (Z.ltb_lt kMaxKeyBytes (len key))) in E by lia; by injection E as <- <- <- <-|].
  destruct (Z.ltb_spec kMaxValueBytes (len value)) as [Hlv|Hlv];
    [unfold execute in E; rewrite Hc, (proj2 (Z.ltb_ge kMaxKeyBytes (len key))), (proj2 (Z.ltb_lt kMaxValueBytes (len value))) in E by lia;
     by injection E as <- <- <- <-|].
  split; [done|]. rewrite execute_sends in E by done.
  destruct (send_all errno_text stale_errno _ _) as [[error w]|] eqn:Es; [|done]. cbn [mbind option_bind] in E.
  destruct (send_all_spec _ _ _ _ _ _ Hk Es) as [[-> ->]|[He _]].
  - cbn [is_empty_string negb] in E. destruct (receive_response _ _ _ _ _ _) as [[[[error response] c2] calls2]|] eqn:Er; [|done].
    cbn [mbind option_bind] in E. apply receive_keeps_id in Er. destruct (negb _); by injection E as <- <- <- <-.
  - destruct error as [|b error]; [done|]. cbn [is_empty_string negb] in E. by injection E as <- <- <- <-.
Qed.

Definition put_frame (value : bytes) (i : Z) : bytes := serialize_request (mkRequest Opcode.kPut (i + 1) (bench_key i) value).

Lemma prepopulate_sends o value ios i c c' wires : bo_key_space o < 2 ^ 64 -> Forall (fun io => Forall kernel_send (xi_sends io)) ios ->
  0 <= i <= bo_key_space o -> cc_next_request_id_ c = u64 (i + 1) -> prepopulate errno_text stale_errno o value ios i c = Some (None, c', wires) ->
  wires = put_frame value <$> seqZ i (bo_key_space o - i) /\ (i < bo_key_space o -> len value <= kMaxValueBytes).
Proof.
  intros Hks Hk. revert i c c' wires. induction Hk as [|io ios Hio _ IH]; intros i c c' wires Hi Hid E; cbn [prepopulate] in E;
    (destruct (Z.ltb_spec i (bo_key_space o)) as [Hlt|Hge]; cbn [negb] in E;
     [|injection E as <- <-; replace (bo_key_space o - i) with 0 by lia; split; [done | lia]]); [done|].
  destruct (client_put _ _ _ value io c) as [[[[res c1] wire] calls]|] eqn:Ep; [|done]. cbn [mbind option_bind] in E.
  destruct (ok res) eqn:Hok; [|done]. destruct (bool_decide _); [|done]. cbn [negb orb] in E.
  destruct (prepopulate _ _ o value ios (i + 1) c1) as [[[stopped c2] rest]|] eqn:Er; [|done]. cbn [mbind option_bind] in E. simplify_eq.
  destruct (put_sends _ _ _ _ _ _ _ _ Hio Ep Hok) as (Hv & -> & Hn).
  rewrite Hid, u64_add_l in Hn. destruct (IH (i + 1) c1 c' rest ltac:(lia) Hn Er) as [-> _]. split; [|done].
  rewrite (seqZ_cons i (bo_key_space o - i)) by lia. rewrite fmap_cons. f_equal; [unfold put_frame, client_request; by rewrite Hid, u64_small by lia|].
  f_equal. f_equal; lia.
Qed.

Lemma connect_keeps_id c io error c' calls : connect errno_text c io = (error, c', calls) -> cc_next_request_id_ c' = cc_next_request_id_ c.
Proof.
  unfold connect. destruct (_ <=? _); [by intros [= _ <- _]|]. destruct (ci_socket io) as [fd|]; [|by intros [= _ <- _]].
  destruct (0 <? _), (ci_rcvtimeo io), (ci_sndtimeo io), (ci_connect io); by intros [= _ <- _].
Qed.
End Prepopulate.

(** ** The counts *)

Lemma results_counts ks : let r := foldl record_completion (mkResults 0 0 0 0 []) ks in
  successful r = u64 (len (filter (fun k => accepted k = true) ks)) /\
  failed r = u64 (len (filter (fun k => accepted k = false) ks)) /\
  gets r = u64 (len (filter (fun k => is_get k = true) ks)) /\
  get_hits r = u64 (len (filter (fun k => is_get k && is_hit k = true) ks)) /\
  latencies r = cp_latency_ns <$> ks.
Proof.
  assert (Hb : forall (b : bool) v, 0 <= v < 2 ^ 64 -> (if b then u64 (v + 1) else v) = u64 (v + if decide (b = true) then 1 else 0) /\
    (if b then v else u64 (v + 1)) = u64 (v + if decide (b = false) then 1 else 0)).
  { intros b v Hv. split; destruct b; cbn; rewrite ?Z.add_0_r, ?(u64_small v) by lia; done. }
  split_and!.
  - rewrite (foldl_count record_completion successful (fun k => accepted k = true)); [done | intros r k; apply Hb | done].
  - rewrite (foldl_count record_completion failed (fun k => accepted k = false)); [done | intros r k; apply Hb | done].
  - rewrite (foldl_count record_completion gets (fun k => is_get k = true)); [done | intros r k; apply Hb | done].
  - rewrite (foldl_count record_completion get_hits (fun k => is_get k && is_hit k = true)); [done | intros r k; apply Hb | done].
  - change (cp_latency_ns <$> ks) with (latencies (mkResults 0 0 0 0 []) ++ (cp_latency_ns <$> ks)).
    generalize (mkResults 0 0 0 0 []). induction ks as [|k ks IH]; intros r; cbn [foldl]; [by rewrite app_nil_r|].
    rewrite IH. cbn [latencies record_completion]. by rewrite <- app_assoc.
Qed.

(** ** Properties *)

Section Sound.
Variable random : nat -> Z.
Variable string_max vector_max : Z.
Variable fl : Floats.
Variable clock : nat -> Z.
Variable errno_text : Z -> bytes.
Variable stale_errno : Z.

(** What the generator gives: an operation on a key that was stored. *)
Definition bench_given (o : Options) (value : bytes) (_ : Z) (spec : RequestSpec) : Prop :=
  exists n, 0 <= n < bo_key_space o /\ (spec = mkRequestSpec Opcode.kGet (bench_key n) [] \/
    spec = mkRequestSpec Opcode.kPut (bench_key n) value \/ spec = mkRequestSpec Opcode.kDelete (bench_key n) []).

Lemma generator_given o value i seq st : 0 < bo_key_space o -> bench_given o value seq (generator random o value i seq default_spec st).1.2.
Proof.
  intros Hk. exists (random (S (drawn st)) mod bo_key_space o). split; [by apply Z.mod_pos_bound|].
  cbn [generator fst snd]. unfold pick. destruct (_ <? _); [by left|]. right. destruct (_ <? _); [by left | by right].
Qed.

Lemma given_ok o value seq spec : len value <= kMaxValueBytes -> bench_given o value seq spec -> spec_ok spec.
Proof.
  intros Hv (n & _ & Hs). assert (Hk : len (bench_key n) <= kMaxKeyBytes).
  { unfold bench_key. rewrite len_app. change (len (lit "bench:")) with 6. pose proof (len_to_string n). unfold kMaxKeyBytes. lia. }
  assert (Hz : len (@nil byte) <= kMaxValueBytes) by (vm_compute; discriminate).
  by destruct Hs as [->|[->| ->]].
Qed.

(** Without a message, the engine was driven to the end. *)
Lemma bench_engine_drives o value io e : bench_engine random clock errno_text o value io = Some ([], e) ->
  drive clock errno_text (generator random o value) complete io (new_engine (bench_config o) (mkBenchState (mkResults 0 0 0 0 []) 0)) = Some ([], e).
Proof.
  unfold bench_engine, drive. destruct (connect_all _ _ _ _) as [[[|b error] e0]|]; [|done..]. cbn [mbind option_bind is_empty_string negb].
  destruct (run _ _ _ _ _ _ e0) as [[[|b error] e1]|]; [|done..]. cbn [mbind option_bind is_empty_string negb]. by intros [= <-].
Qed.

(** An engine driven to the end, with what the handler counted. *)
Lemma bench_engine_counts o value io e : options_typed o -> 0 < bo_key_space o -> bo_requests o * 2 ^ 27 < 2 ^ 64 ->
  len value <= kMaxValueBytes -> io_ok (bench_config o) io -> bench_engine random clock errno_text o value io = Some ([], e) ->
  let ks := completions (calls e) in
  answered e /\ issued_ e = bo_requests o /\ len ks = bo_requests o /\
  results (captured e) = foldl record_completion (mkResults 0 0 0 0 []) ks /\
  forall k, k ∈ ks -> bench_given o value (rs_request_id (cp_response k) - 1) (cp_request k).
Proof.
  intros Ho Hk Hm Hv Hio E ks. pose proof (bench_config_typed o Ho Hm) as Ht. apply bench_engine_drives in E.
  destruct (drive_answered clock errno_text _ _ _ _ _ _ (fun i seq u _ => given_ok o value seq _ Hv (generator_given o value i seq u Hk)) Ht Hio E) as [Ha Hc].
  pose proof (drive_traced clock errno_text (generator random o value) complete results record_completion (bench_given o value) _ _ _ _ _
    (fun _ _ _ => eq_refl) (fun _ _ _ => eq_refl) (fun i seq u => generator_given o value i seq u Hk) (fun _ _ => eq_refl) Ht Hio E) as T.
  destruct (answered_size e Ha (tr_more _ _ _ _ _ T)) as [I L]. rewrite Hc in I. cbn [bench_config ec_requests] in I.
  split_and!; [done | done | unfold ks; congruence | apply (tr_view _ _ _ _ _ T)|].
  intros k Hin. by apply (completed_given _ _ _ _ _ k Ha T Hin).
Qed.

End Sound.

(** ** Witnesses: one client, one key, two reads *)

Definition bench_args : list bytes :=
  [lit "--clients"; lit "1"; lit "--requests"; lit "2"; lit "--key-space"; lit "1"; lit "--value-bytes"; lit "3"].
Definition bench_demo : Options := mkOptions (lit "/tmp/local_cache.sock") 1 1 2 1 95 5 3.
Definition bench_answer (id : Z) : Response := mkResponse Opcode.kGet Status.kOk id (lit "xxx").
Definition exact_rank (percent size : Z) : Z := (percent * size + 99) / 100.
Definition bench_floats : Floats :=
  mkFloats to_string (fun n _ => to_string n) (fun n _ => to_string n) (fun _ => []) to_string exact_rank.
Definition bench_io : BenchIo :=
  mkBenchIo (mkConnectIo (NewFd 3) Success Success Success)
    [mkExecIo (wi_sends accepting) (fun _ => [Received (serialize_response (mkResponse Opcode.kPut Status.kOk 1 []))])]
    (mkEngineIo (NewFd 4) [demo_open 5] [accepting]
       [WaitEvents [(0%nat, EPOLLIN, delivery [bench_answer 1])]; WaitEvents [(0%nat, EPOLLIN, delivery [bench_answer 2])]])
    7.

Lemma bench_args_parsed : parse bench_args default_options = Accepted bench_demo.
Proof. vm_compute. reflexivity. Qed.

Lemma bench_passes : exists out, bench_report bench_floats bench_demo (mkResults 2 0 2 2 [1; 1]) 7 = Some out /\
  bench_main (fun _ => 0) (2 ^ 62) (2 ^ 60) bench_floats no_time no_text 0 (lit "bench") bench_args bench_io = Some (Exits 0 out []).
Proof. eexists. split; vm_compute; reflexivity. Qed.

Lemma bench_puts_ok : Forall (fun x => Forall kernel_send (xi_sends x)) (bi_puts bench_io).
Proof. apply Forall_singleton, accepting_ok. Qed.

Lemma bench_delivery id : id = 1 \/ id = 2 -> event_io_ok (delivery [bench_answer id]).
Proof. intros [-> | ->]; apply delivery_ok; vm_compute; reflexivity. Qed.

Lemma bench_engine_ok : io_ok (bench_config bench_demo) (bi_engine bench_io).
Proof.
  split; cbn [ki_epoll ki_opens ki_starts ki_waits bi_engine bench_io].
  - by cbn.
  - split; [apply Forall_singleton; by cbn | vm_compute; discriminate].
  - split; [apply Forall_singleton, accepting_ok | vm_compute; discriminate].
  - change (Z.to_nat (ec_connections (bench_config bench_demo))) with 1%nat.
    apply Forall_cons. split; [|apply Forall_singleton]; apply Forall_singleton;
      (split; [cbn; lia | apply bench_delivery]); [by left | by right].
Qed.


Lemma bench_percentiles_witness : exists v, percentile (merge_sort Z.le [30; 10; 20]) (exact_rank 50 3) = Some v /\ v ∈ [30; 10; 20].
Proof.
  destruct (bench_percentiles [30; 10; 20] ltac:(vm_compute; reflexivity)) as [_ H].
  destruct (H (exact_rank 50 3) ltac:(split; vm_compute; [reflexivity | discriminate])) as (v & H1 & H2 & _).
  exists v. exact (conj H1 H2).
Defined.

Lemma bench_options_witness : options_typed bench_demo /\ bo_read_percent bench_demo = 95.
Proof. exact (conj (proj1 (bench_options bench_args bench_demo [] 0 bench_args_parsed)) eq_refl). Defined.
